(* ===== verification/_CoqProject ===== *)
-Q . S2P
Prelude.v
Keyspace.v
Bucket.v
RoutingTable.v
Journey.v
Packet.v
Storage.v
Event.v
Protocol.v
Cells.v
Wire.v
Accessors.v
Cache.v
Listener.v
LatencyRouter.v
Dht.v
Exchange.v
Search.v
Handover.v
Config.v
Database.v
Node.v
Bootstrap.v
Service.v
Invariant.v
Progress.v
