(* ===== verification/Prelude.v ===== *)
(** * emo: a Kademlia DHT node, verified

    This library models the Go program under src/ and proves what its parts do.
    emo is a distributed hash table in the style of Kademlia: nodes with 256-bit
    identifiers keep routing tables of peers, exchange events over UDP, store
    values on the nodes closest to a key and find them again.

    ** The parts of the program and the files that model them

    - Prelude.v (this file): outcomes of Go code ([outcome]: a result, a panic, a
      goroutine waiting for a mutex it holds itself, or a loop out of fuel) with
      the notation [let!], machine integers, slices with their bounds checks,
      little-endian integers, time, and the contract of the sort package; the
      rules of [returns], total correctness of an outcome.
    - Keyspace.v: constants.go, [distance] and [bucketID] of routing_table.go,
      [Key] and [generateRandomIDInBucket] of dht.go, keccak.go.
    - Bucket.v: bucket.go and the node of node.go.  A bucket is its array of K
      slots with stale pointers, its size, its promotion cache and its mutex.
    - RoutingTable.v: the routing table of routing_table.go over those buckets.
    - Journey.v: journey.go, the state of one iterative search.
    - Packet.v: packet.go, fragmenting and reassembly of events.
    - Storage.v: storage.go, the [Storage] interface as a class and the in-memory
      storage with its per-item mutex.
    - Event.v: event.go and the tables of protocol/protocol.fbs.
    - Cache.v: cache.go, pending requests and their callbacks.
    - Listener.v: listener.go.  [Listener.world] is the state of a node: routing
      table, request cache, storage, packets and the write batches; one operation
      per handler, and [process_one] for one incoming message.
    - LatencyRouter.v: latency_router.go; a measurement is a ping that is registered
      and written like every request.
    - Dht.v: dht.go.  A callback is a value of [Dht.cb] naming what the closure
      captures, and [Dht.run] is its body; [Store], [Find], [findNodes], their
      callbacks, [lookup], [pingNode], [findWithLatency], and one tick of
      [monitor], [refreshKeys] and [refreshPeers].
    - Protocol.v: all functions of protocol/protocol.go, over the FlatBuffers run
      time as a class [FlatBuffers] of operations with their laws.  Cells.v: a
      representation that meets them shows that the laws can hold together.
    - Wire.v: the functions of event.go once more, at the level of the builder, and
      the reading of events; it connects the records of Event.v with the bytes.
      Accessors.v: the generated functions that event.go does not use.
    - Config.v: config.go, options.go, utils.go and [InitializeStorage] of
      storage.go, with the paths of [filepath.Join].
    - Database.v: database.go, the second implementation of the class [Storage],
      over LevelDB and gob as classes with laws.
    - Node.v: [New] up to its wait for the bootstrap and, as [bootstrapped], the
      rest of it, [listen], [control] and [Close] of dht.go, the constructors of
      the parts of a node, and its goroutines:
      [Node.life] is the state of the quit channels, the sockets and the wait
      group, [take_turn] one turn of a goroutine at its [select].
    - Bootstrap.v: what the search started by [New] reports, and the channel of
      its results: [run_br] runs a callback and blocks if its send does.
    - Exchange.v, Search.v, Handover.v: compositions of two nodes.  A store request
      and its answer; a search whose answer takes several events and datagrams; the
      keys that a new node gets.
    - Service.v: a node from [New] to [Store] and [Find], and the daemon of
      cmd/emo/main.go ([Service.Main]).
    - Invariant.v, Progress.v: a node under every interleaving of its activities
      ([Invariant.act]): datagrams and flushes, the sweeps of requests, packets and
      storage, the ticks of the periodic tasks, the calls of the user.  What it
      keeps, and that none of these crashes it.

    The components use each other as in the program: Dht sends through
    [Listener.request], which registers the callback in the cache and writes the
    fragments of the event; [Listener.process_one] assembles datagrams, updates
    the routing table and runs a handler or, for a response, the callback.  The
    storage is used through the class [Storage] only, so the listener's and the
    DHT's theorems hold for every implementation; [Memory_Storage] and
    [Database_Storage] are the two, [sum_Storage] is a variable that holds either,
    and all keep [IterateLaw] and [Steady], the promises that Invariant.v and
    Progress.v need.  Their sweeps are instances of the class [Sweeper].

    ** Conventions

    An operation takes the state and returns an outcome of its result and the new
    state.  [time.Now()], random identifiers, objects from a [sync.Pool], the
    order of [sync.Map.Range], hash functions, the socket and FlatBuffers are
    arguments; where a theorem needs something of them it is a hypothesis, and
    its witness instantiates them.  Go's [int] and pointers to memory have 64
    bits and sizes stay far below; integers that can wrap (int32 counters, the
    uint16 size, UnixNano) are wrapped explicitly.  A method that holds its mutex
    throughout is one atomic step, and sequences of steps are interleavings.  A
    slice is the list of its elements.

    ** Fuel

    Loops without a structural bound carry fuel, and the theorems show that it
    suffices: 512 iterations for the outward scan over 256 buckets
    ([closest_total], [closestN_sorted_selection]), one more than the number of
    data bytes for the fragment loops ([fragment_datagrams], [writes_in_order]),
    K + 1 rounds for [lookup] ([lookup_is_local]).  Building an event is total as
    long as it stays within [fb_limit], the 2 GB at which a FlatBuffers builder
    gives up; [payload_room] bounds what an event needs.

    ** What is proved

    - Keyspace: [distance] is the length of the common prefix and orders nodes by
      the XOR metric; [bucketID] is the interval of the metric; [Key] returns the
      digest; the identifier generated for a bucket lies in the mirrored bucket.
    - Bucket, RoutingTable: buckets refine a pair of lists under every sequence of
      operations; the table keeps every node in the bucket of its distance;
      [closest] and [closestN] terminate, return live nodes sorted by distance,
      and are optimal if the home bucket has enough nodes (not otherwise).
    - Journey: no node is asked twice, rounds are bounded, one caller finishes.
    - Packet: fragmenting and reassembling is the identity for any order of
      arrival up to 65535 bytes; beyond that, and for malformed datagrams, the
      failures are characterised.  With duplicates a packet is complete when the
      bytes received add up, whichever they are.
    - Storage: Set and Get as a multimap without duplicates, the time filter, the
      inverted sweep, the lock kept by a stopped iteration.
    - Cache: every request runs the same small automaton.
    - Listener: writes reach the socket in order and in full batches, whatever it
      does with them, and complete if it takes all it is given; with such a socket
      found values are answered in full, store requests arrive as sent, and pings
      are answered.
    - LatencyRouter, Dht: route selection; when a store reports success; why a
      search ignores the nodes it is told about and evicts nodes that answered;
      the choice of a listener; the periodic tasks, of which the refresh of the
      buckets never completes.
    - Wire: every event the program builds is read back from its bytes, though
      never with the type of its payload.  Accessors: mutators change one field and
      nothing else; size-prefixed buffers are read back.
    - Database: what is stored there cannot be read back.
    - Node: after [Close] every goroutine of the wait group can leave and the wait
      ends when all have; which goroutines a start that fails leaves behind, for
      each of its errors.
    - Bootstrap: one success per bootstrap, so that several addresses mean waiting
      for timeouts; the late timeouts block the sweep of the request cache.
    - Exchange: a store request is stored and answered by the other node, and the
      response settles the request.  Search: the values of another node reach the
      user, each once, whatever the order of the datagrams.  Handover: a new node
      gets exactly the keys it is closer to.  Service: a node alone serves what is
      stored there; the daemon does not.
    - Invariant: the routing table stays well formed and the batches within their
      slots, in any order of the activities and whatever the socket does, if the
      events that arrive have identifiers of the right length.  Progress: with
      polite peers and a working socket no activity but the refresh of the peers
      panics.  Without bootstrap addresses every one returns; with them, a callback
      may block on the channel of the results, as Bootstrap shows.  The hypotheses
      exclude the failures that the theorems above describe (malformed datagrams,
      a refused batch, the counter of the listeners past 2^31, oversized values).

    ** What is not modelled

    Logging and signals; the conversion of numbers and durations in the flags; the
    seeding of the random numbers; the wire format of FlatBuffers and gob and the
    files of LevelDB, which are third-party.  Races between goroutines inside a
    step: a method under its mutex is one step.

    To come: searches over more than two nodes; datagrams of several events
    interleaved in the exchanges, as they are in Packet.v. *)
From stdpp Require Import base list numbers gmap sorting.
From Stdlib Require Import Lia.
Local Open Scope Z_scope.

(** ** Outcomes of Go code

    A statement sequence either runs to completion, panics, or waits for a
    mutex that its own goroutine already holds.  [OutOfFuel] is the outcome of
    a bounded run of an unbounded [for] loop; every theorem about such a loop
    shows that the chosen fuel never produces it. *)
Inductive fault :=
  | IndexOutOfRange
  | SliceOutOfRange
  | NilDereference
  | ExplicitPanic.

Inductive outcome (A : Type) :=
  | Ret (a : A)
  | Panic (f : fault)
  | Blocked
  | OutOfFuel.
Arguments Ret {A} a.
Arguments Panic {A} f.
Arguments Blocked {A}.
Arguments OutOfFuel {A}.

#[export] Instance fault_eq_dec : EqDecision fault.
Proof. solve_decision. Defined.
#[export] Instance outcome_eq_dec {A} `{EqDecision A} : EqDecision (outcome A).
Proof. solve_decision. Defined.

Definition obind {A B} (c : outcome A) (k : A → outcome B) : outcome B :=
  match c with
  | Ret a => k a
  | Panic f => Panic f
  | Blocked => Blocked
  | OutOfFuel => OutOfFuel
  end.

Declare Scope go_scope.
Delimit Scope go_scope with go.
Notation "'let!' x ':=' c 'in' k" :=
  (obind c (λ x, k)) (at level 10, x binder, c at level 100, k at level 200)
  : go_scope.
Notation "'let!' ' p ':=' c 'in' k" :=
  (obind c (λ x, match x with p => k end))
  (at level 10, p pattern, c at level 100, k at level 200) : go_scope.
Open Scope go_scope.

Lemma obind_Ret {A B} (c : outcome A) (k : A → outcome B) b :
  obind c k = Ret b ↔ ∃ a, c = Ret a ∧ k a = Ret b.
Proof. destruct c; simpl; split; (intros (? & ? & ?) || intros ?); simplify_eq; eauto. Qed.

Lemma obind_ret_r {A} (c : outcome A) : obind c Ret = c.
Proof. by destruct c. Qed.

Lemma obind_assoc {A B C} (c : outcome A) (k : A → outcome B) (h : B → outcome C) :
  obind (obind c k) h = obind c (λ a, obind (k a) h).
Proof. by destruct c. Qed.

(** [for _, x := range l { s = f(s, x) }] over a state. *)
Fixpoint ofold {S A} (f : S → A → outcome S) (s : S) (l : list A) : outcome S :=
  match l with
  | [] => Ret s
  | x :: l => let! s := f s x in ofold f s l
  end.

Lemma ofold_app {S A} (f : S → A → outcome S) s l1 l2 :
  ofold f s (l1 ++ l2) = (let! s' := ofold f s l1 in ofold f s' l2).
Proof.
  revert s; induction l1 as [|x l1 IH]; intros s; simpl; [done|].
  destruct (f s x); simpl; auto.
Qed.

(** Rule for a range loop that never fails: an invariant carried along. *)
Lemma ofold_keeps {S A} (I : S → Prop) (f : S → A → outcome S) s l s' :
  I s → (∀ s x s', x ∈ l → I s → f s x = Ret s' → I s') → ofold f s l = Ret s' → I s'.
Proof.
  revert s. induction l as [|x l IH]; intros s Hs Hf E; cbn in E; [by injection E as <-|].
  apply obind_Ret in E as (s1 & E1 & E). eapply IH; [|intros ????; eapply Hf|done]; [|set_solver].
  eapply Hf; [|done|done]. set_solver.
Qed.

Lemma ofold_inv {S A} (I : S → Prop) (f : S → A → outcome S) s l :
  I s →
  (∀ s x, x ∈ l → I s → ∃ s', f s x = Ret s' ∧ I s') →
  ∃ s', ofold f s l = Ret s' ∧ I s'.
Proof.
  revert s; induction l as [|x l IH]; intros s Hs Hf; simpl; [by exists s|].
  destruct (Hf s x) as (s1 & -> & Hs1); [set_solver|done|]. simpl.
  apply IH; [done|]. intros s2 y Hy. apply Hf. set_solver.
Qed.

(** ** Total correctness

    [returns c Q]: [c] ends normally, with a result that satisfies [Q].  One rule
    per construct; [go_step] applies the rule for a statement. *)
Definition returns {A} (c : outcome A) (Q : A → Prop) : Prop := ∃ x, c = Ret x ∧ Q x.

Lemma returns_ret {A} (x : A) (Q : A → Prop) : Q x → returns (Ret x) Q.
Proof. by exists x. Qed.

Lemma returns_bind {A B} (c : outcome A) (k : A → outcome B) (P : A → Prop) (Q : B → Prop) :
  returns c P → (∀ x, P x → returns (k x) Q) → returns (obind c k) Q.
Proof. intros (x & -> & Hx) Hk. by apply Hk. Qed.

Lemma returns_mono {A} (c : outcome A) (P Q : A → Prop) : returns c P → (∀ x, P x → Q x) → returns c Q.
Proof. intros (x & -> & Hx) HPQ. exists x. auto. Qed.

Lemma returns_ofold {S A} (I : S → Prop) (f : S → A → outcome S) s l :
  I s → (∀ s x, x ∈ l → I s → returns (f s x) I) → returns (ofold f s l) I.
Proof. apply ofold_inv. Qed.

(** The next statement, by a fact about it; its result is named [x]. *)
Tactic Notation "go_step" uconstr(H) "as" simple_intropattern(x) simple_intropattern(p) :=
  eapply returns_bind; [eapply H|intros x; cbv beta iota; cbn [fst snd]; intros p].

Lemma Forall_filtered {A} (P Q : A → Prop) `{∀ x, Decision (Q x)} l : Forall P l → Forall P (filter Q l).
Proof. rewrite !Forall_forall. intros HP x [_ Hx]%list_elem_of_filter. auto. Qed.

Lemma omap_length_le {A B} (f : A → option B) l : (length (omap f l) ≤ length l)%nat.
Proof. induction l as [|x l IH]; csimpl; [lia|]. destruct (f x); simpl; lia. Qed.

Fixpoint omapM {A B} (f : A → outcome B) (l : list A) : outcome (list B) :=
  match l with
  | [] => Ret []
  | x :: l => let! y := f x in let! ys := omapM f l in Ret (y :: ys)
  end.

Lemma omapM_pure {A B} (f : A → outcome B) (g : A → B) l :
  (∀ x, x ∈ l → f x = Ret (g x)) → omapM f l = Ret (g <$> l).
Proof.
  induction l as [|x l IH]; intros H; simpl; [done|].
  rewrite (H x) by set_solver; simpl. rewrite IH by set_solver. done.
Qed.

Lemma returns_omapM {A B} (f : A → outcome B) (Q : A → B → Prop) l :
  (∀ x, x ∈ l → returns (f x) (Q x)) → returns (omapM f l) (Forall2 Q l).
Proof.
  induction l as [|x l IH]; intros H; cbn [omapM]; [apply returns_ret; constructor|].
  go_step H as y Hy; [set_solver|]. go_step IH as ys Hys; [set_solver|]. apply returns_ret. by constructor.
Qed.

Lemma omapM_length {A B} (f : A → outcome B) l ys :
  omapM f l = Ret ys → length ys = length l.
Proof.
  revert ys; induction l as [|x l IH]; simpl; intros ys H; [by simplify_eq|].
  apply obind_Ret in H as (y & _ & H). apply obind_Ret in H as (zs & Hz & H).
  simplify_eq; simpl. f_equal. by apply IH.
Qed.

Lemma omapM_lookup {A B} (f : A → outcome B) l ys i y :
  omapM f l = Ret ys → ys !! i = Some y → ∃ x, l !! i = Some x ∧ f x = Ret y.
Proof.
  revert ys i. induction l as [|x l IH]; cbn; intros ys i E Hy; [by simplify_eq|].
  apply obind_Ret in E as (y1 & E1 & E). apply obind_Ret in E as (ys' & E2 & [= <-]).
  destruct i as [|i]; [injection Hy as ->; by exists x|]. by apply (IH ys').
Qed.

(** Splits every successful sequence of statements in the context. *)
Ltac inv_go :=
  repeat match goal with
  | H : obind _ _ = Ret _ |- _ =>
      let x := fresh "x" in let Hx := fresh "Hx" in
      apply obind_Ret in H as (x & Hx & H)
  | H : Ret _ = Ret _ |- _ => injection H as H
  | H : Panic _ = Ret _ |- _ => discriminate H
  | H : Blocked = Ret _ |- _ => discriminate H
  | H : OutOfFuel = Ret _ |- _ => discriminate H
  end; simplify_eq/=.

(** ** Machine integers *)
Definition u8 (z : Z) : Z := z mod 2 ^ 8.
Definition u16 (z : Z) : Z := z mod 2 ^ 16.
Definition u64 (z : Z) : Z := z mod 2 ^ 64.
Definition i32 (z : Z) : Z := (z + 2 ^ 31) mod 2 ^ 32 - 2 ^ 31.
Definition i64 (z : Z) : Z := (z + 2 ^ 63) mod 2 ^ 64 - 2 ^ 63.

Lemma u8_small z : 0 ≤ z < 256 → u8 z = z.
Proof. intros. unfold u8. apply Z.mod_small. lia. Qed.
Lemma u16_small z : 0 ≤ z < 65536 → u16 z = z.
Proof. intros. unfold u16. apply Z.mod_small. lia. Qed.
Lemma u16_range z : 0 ≤ u16 z < 65536.
Proof. unfold u16. pose proof (Z.mod_pos_bound z (2 ^ 16)). lia. Qed.
Lemma i32_small z : - 2 ^ 31 ≤ z < 2 ^ 31 → i32 z = z.
Proof. intros. unfold i32. rewrite Z.mod_small by lia. lia. Qed.
Lemma i64_small z : - 2 ^ 63 ≤ z < 2 ^ 63 → i64 z = z.
Proof. intros. unfold i64. rewrite Z.mod_small by lia. lia. Qed.

Lemma i64_range z : - 2 ^ 63 ≤ i64 z < 2 ^ 63.
Proof. unfold i64. pose proof (Z.mod_pos_bound (z + 2 ^ 63) (2 ^ 64)). lia. Qed.

(** Two bytes and the 16-bit integer they encode. *)
Lemma le16 v : 0 ≤ v < 65536 → Z.lor (u8 v) (Z.shiftl (u8 (Z.shiftr v 8)) 8) = v.
Proof.
  intros Hv. rewrite (u8_small (Z.shiftr v 8)) by (rewrite Z.shiftr_div_pow2 by lia;
    change (2 ^ 8) with 256; split; [apply Z.div_pos|apply Z.div_lt_upper_bound]; lia).
  unfold u8. rewrite <-Z.land_ones, <-Z.ldiff_ones_r by lia.
  rewrite Z.lor_comm. apply Z.lor_ldiff_and.
Qed.

(** ** Bytes and slices

    A [[]byte] is a list of integers; [wf_bytes] says that each is a byte.  A
    slice is a list; where the program slices without extending into spare
    capacity, the bounds checks below are the ones of the run time. *)
Abbreviation bytes := (list Z).
Definition is_byte (b : Z) : Prop := 0 ≤ b < 256.
Definition wf_bytes (l : bytes) : Prop := Forall is_byte l.

#[export] Instance is_byte_dec b : Decision (is_byte b).
Proof. unfold is_byte. apply _. Defined.
#[export] Instance wf_bytes_dec l : Decision (wf_bytes l).
Proof. unfold wf_bytes. apply _. Defined.

Definition zlen {A} (l : list A) : Z := Z.of_nat (length l).

#[export] Instance zlen_Permutation {A} : Proper ((≡ₚ) ==> (=)) (@zlen A).
Proof. intros l k H. unfold zlen. by rewrite H. Qed.

(** [l[i]] *)
Definition go_index {A} (l : list A) (i : Z) : outcome A :=
  if i <? 0 then Panic IndexOutOfRange
  else match l !! Z.to_nat i with
       | Some x => Ret x
       | None => Panic IndexOutOfRange
       end.

(** [l[i] = x] *)
Definition go_store {A} (l : list A) (i : Z) (x : A) : outcome (list A) :=
  if (0 <=? i) && (i <? zlen l) then Ret (<[Z.to_nat i := x]> l)
  else Panic IndexOutOfRange.

(** [l[lo:hi]] *)
Definition go_slice {A} (l : list A) (lo hi : Z) : outcome (list A) :=
  if (0 <=? lo) && (lo <=? hi) && (hi <=? zlen l)
  then Ret (take (Z.to_nat (hi - lo)) (drop (Z.to_nat lo) l))
  else Panic SliceOutOfRange.

(** The effect of [copy(dst[off:], src)] for [off <= len(dst)]. *)
Definition copy_at {A} (dst : list A) (off : nat) (src : list A) : list A :=
  take off dst ++ take (length dst - off)%nat src ++
  drop (off + length src)%nat dst.

(** [copy(dst[off:], src)] *)
Definition go_copy {A} (dst : list A) (off : Z) (src : list A) : outcome (list A) :=
  if (0 <=? off) && (off <=? zlen dst) then Ret (copy_at dst (Z.to_nat off) src)
  else Panic SliceOutOfRange.

Lemma go_index_Some {A} (l : list A) i x :
  l !! i = Some x → go_index l (Z.of_nat i) = Ret x.
Proof.
  intros H. unfold go_index.
  destruct (Z.ltb_spec (Z.of_nat i) 0); [lia|]. by rewrite Nat2Z.id, H.
Qed.

Lemma go_store_ok {A} (l : list A) i x :
  (i < length l)%nat → go_store l (Z.of_nat i) x = Ret (<[i := x]> l).
Proof.
  intros H. unfold go_store, zlen.
  destruct (Z.leb_spec 0 (Z.of_nat i)), (Z.ltb_spec (Z.of_nat i) (Z.of_nat (length l)));
    simpl; try lia. by rewrite Nat2Z.id.
Qed.

Lemma go_copy_ok {A} (dst : list A) off src :
  (off ≤ length dst)%nat → go_copy dst (Z.of_nat off) src = Ret (copy_at dst off src).
Proof.
  intros H. unfold go_copy, zlen.
  destruct (Z.leb_spec 0 (Z.of_nat off)), (Z.leb_spec (Z.of_nat off) (Z.of_nat (length dst)));
    simpl; try lia. by rewrite Nat2Z.id.
Qed.

Lemma go_slice_ok {A} (l : list A) lo hi :
  (lo ≤ hi ≤ length l)%nat →
  go_slice l (Z.of_nat lo) (Z.of_nat hi) = Ret (take (hi - lo)%nat (drop lo l)).
Proof.
  intros H. unfold go_slice, zlen.
  destruct (Z.leb_spec 0 (Z.of_nat lo)), (Z.leb_spec (Z.of_nat lo) (Z.of_nat hi)),
    (Z.leb_spec (Z.of_nat hi) (Z.of_nat (length l))); simpl; try lia.
  rewrite Nat2Z.id, <-Nat2Z.inj_sub, Nat2Z.id by lia. done.
Qed.

Lemma length_copy_at {A} (dst : list A) off src :
  (off ≤ length dst)%nat → length (copy_at dst off src) = length dst.
Proof.
  intros H. unfold copy_at.
  rewrite !length_app, !length_take, length_drop. lia.
Qed.

(** Where the copied range fits, the three parts of the result. *)
Lemma copy_at_fit {A} (dst : list A) off src :
  (off + length src ≤ length dst)%nat →
  copy_at dst off src = take off dst ++ src ++ drop (off + length src)%nat dst.
Proof.
  intros H. unfold copy_at. rewrite (take_ge src) by lia. done.
Qed.

Lemma lookup_copy_at {A} (dst : list A) off src i :
  (off ≤ length dst)%nat → (i < length dst)%nat →
  copy_at dst off src !! i =
    if decide (off ≤ i < off + length src)%nat then src !! (i - off)%nat else dst !! i.
Proof.
  intros Ho Hi. unfold copy_at.
  destruct (decide (i < off)%nat).
  { rewrite lookup_app_l by (rewrite length_take; lia).
    rewrite lookup_take_lt by lia. by rewrite decide_False by lia. }
  rewrite lookup_app_r by (rewrite length_take; lia).
  rewrite length_take, Nat.min_l by lia.
  destruct (decide (i < off + length src)%nat).
  - rewrite lookup_app_l by (rewrite length_take; lia).
    rewrite lookup_take_lt by lia. by rewrite decide_True by lia.
  - rewrite lookup_app_r by (rewrite length_take; lia).
    rewrite length_take, lookup_drop, decide_False by lia. f_equal. lia.
Qed.

(** The same accesses to a slice given as the concatenation of its parts. *)
Lemma zlen_app {A} (l k : list A) : zlen (l ++ k) = zlen l + zlen k.
Proof. unfold zlen. rewrite length_app. lia. Qed.
Lemma zlen_cons {A} (x : A) l : zlen (x :: l) = 1 + zlen l.
Proof. unfold zlen. simpl length. lia. Qed.
Lemma zlen_nonneg {A} (l : list A) : 0 ≤ zlen l.
Proof. unfold zlen. lia. Qed.

Lemma go_store_mid {A} (pre post : list A) x y i :
  i = zlen pre → go_store (pre ++ x :: post) i y = Ret (pre ++ y :: post).
Proof.
  intros ->. unfold zlen. rewrite go_store_ok by (rewrite length_app; simpl; lia).
  by rewrite insert_app_r_alt, Nat.sub_diag.
Qed.

Lemma go_copy_mid {A} (pre mid post src : list A) i :
  i = zlen pre → length src = length mid →
  go_copy (pre ++ mid ++ post) i src = Ret (pre ++ src ++ post).
Proof.
  intros -> Hl. unfold zlen. rewrite go_copy_ok by (rewrite length_app; lia).
  rewrite copy_at_fit by (rewrite !length_app; lia). do 2 f_equal.
  { by rewrite take_app_length. }
  f_equal. rewrite Hl, app_assoc, <-length_app. by rewrite drop_app_length.
Qed.

Lemma go_slice_mid {A} (pre mid post : list A) lo hi :
  lo = zlen pre → hi = lo + zlen mid → go_slice (pre ++ mid ++ post) lo hi = Ret mid.
Proof.
  intros -> ->. unfold zlen. rewrite <-Nat2Z.inj_add.
  rewrite go_slice_ok by (rewrite !length_app; lia).
  rewrite drop_app_length. replace (_ - _)%nat with (length mid) by lia.
  by rewrite take_app_length.
Qed.

Lemma go_slice_tail {A} (pre post : list A) lo hi :
  lo = zlen pre → hi = zlen (pre ++ post) → go_slice (pre ++ post) lo hi = Ret post.
Proof.
  intros -> ->. rewrite <-(app_nil_r post) at 1. apply go_slice_mid; [done|]. apply zlen_app.
Qed.

(** A read that succeeds found its element. *)
Lemma go_index_lookup {A} (l : list A) i x : go_index l i = Ret x → l !! Z.to_nat i = Some x.
Proof. unfold go_index. destruct (_ <? _); [done|]. destruct (l !! Z.to_nat i); by intros [= <-]. Qed.

Lemma go_index_inv {A} (l : list A) i x : go_index l (Z.of_nat i) = Ret x → l !! i = Some x.
Proof. intros H%go_index_lookup. by rewrite Nat2Z.id in H. Qed.

Lemma go_index_mid {A} (pre post : list A) x i :
  i = zlen pre → go_index (pre ++ x :: post) i = Ret x.
Proof. intros ->. unfold zlen. apply go_index_Some. by apply list_lookup_middle. Qed.

(** A store or copy within bounds succeeds and keeps the length. *)
Lemma go_store_len {A} (l : list A) i x :
  0 ≤ i < zlen l → ∃ l', go_store l i x = Ret l' ∧ zlen l' = zlen l.
Proof.
  unfold zlen. intros H. replace i with (Z.of_nat (Z.to_nat i)) by lia.
  rewrite go_store_ok by lia. eexists. split; [done|]. by rewrite length_insert.
Qed.

Lemma go_copy_len {A} (l : list A) i src :
  0 ≤ i ≤ zlen l → ∃ l', go_copy l i src = Ret l' ∧ zlen l' = zlen l.
Proof.
  unfold zlen. intros H. replace i with (Z.of_nat (Z.to_nat i)) by lia.
  rewrite go_copy_ok by lia. eexists. split; [done|]. by rewrite length_copy_at by lia.
Qed.

Lemma go_slice_len {A} (l : list A) lo hi :
  0 ≤ lo ≤ hi → hi ≤ zlen l → ∃ s, go_slice l lo hi = Ret s ∧ zlen s = hi - lo.
Proof.
  unfold zlen. intros H Hl. replace lo with (Z.of_nat (Z.to_nat lo)) by lia.
  replace hi with (Z.of_nat (Z.to_nat hi)) by lia.
  rewrite go_slice_ok by lia. eexists. split; [done|]. rewrite length_take, length_drop. lia.
Qed.

Lemma go_index_len {A} (l : list A) i :
  0 ≤ i < zlen l → ∃ x, go_index l i = Ret x ∧ l !! Z.to_nat i = Some x.
Proof.
  unfold zlen. intros H. destruct (lookup_lt_is_Some_2 l (Z.to_nat i)) as [x Hx]; [lia|].
  exists x. replace i with (Z.of_nat (Z.to_nat i)) at 1 by lia. by rewrite (go_index_Some _ _ _ Hx).
Qed.

Lemma go_slice_panics {A} (l : list A) lo hi :
  lo < 0 ∨ hi < lo ∨ zlen l < hi → go_slice l lo hi = Panic SliceOutOfRange.
Proof.
  intros H. unfold go_slice.
  destruct (Z.leb_spec 0 lo), (Z.leb_spec lo hi), (Z.leb_spec hi (zlen l)); simpl; done || lia.
Qed.

Lemma go_index_panics {A} (l : list A) i :
  i < 0 ∨ zlen l ≤ i → go_index l i = Panic IndexOutOfRange.
Proof.
  intros H. unfold go_index. destruct (Z.ltb_spec i 0); [done|].
  rewrite lookup_ge_None_2; [done|]. unfold zlen in H. lia.
Qed.

(** [copy(l[i:], l[i+1:])] closes the gap at [i]; the last cell keeps its old
    content, so it appears twice. *)
Lemma copy_at_shift {A} (l : list A) i x :
  l !! i = Some x →
  copy_at l i (drop (S i) l) = take i l ++ drop (S i) l ++ drop (length l - 1) l.
Proof.
  intros H. pose proof (lookup_lt_Some _ _ _ H).
  rewrite copy_at_fit by (rewrite length_drop; lia).
  rewrite length_drop.
  by replace (i + (length l - S i))%nat with (length l - 1)%nat by lia.
Qed.

Lemma take_copy_at_shift {A} (l : list A) i n x :
  l !! i = Some x → (i < n ≤ length l)%nat →
  take (n - 1) (copy_at l i (drop (S i) l)) = delete i (take n l).
Proof.
  intros H Hn. rewrite (copy_at_shift _ _ _ H).
  set (w := drop (length l - 1) l). clearbody w.
  rewrite delete_take_drop. clear H.
  assert (Hl : l = take n l ++ drop n l) by (by rewrite take_drop).
  assert (Ht : length (take n l) = n) by (rewrite length_take; lia).
  generalize dependent (drop n l). generalize dependent (take n l).
  intros t Ht d ->.
  rewrite (take_app_le t d i), (drop_app_le t d (S i)) by lia.
  rewrite <-app_assoc, app_assoc.
  rewrite take_app_length'; [done|].
  rewrite length_app, length_take, length_drop. lia.
Qed.

(** [for i := lo; i < lo+n; i++ { l[i] = f(i) }] *)
Lemma ofold_store {A} (f : nat → A) (l : list A) lo n :
  (lo + n)%nat = length l →
  ofold (λ l i, go_store l (Z.of_nat i) (f i)) l (seq lo n) =
    Ret (take lo l ++ (f <$> seq lo n)).
Proof.
  revert l lo. induction n as [|n IH]; intros l lo Hl; simpl.
  { rewrite take_ge, app_nil_r by lia. done. }
  rewrite go_store_ok by lia. simpl. rewrite IH by (rewrite length_insert; lia).
  rewrite (take_S_r _ _ (f lo)) by (apply list_lookup_insert_eq; lia).
  rewrite take_insert_ge by lia. by rewrite <-app_assoc.
Qed.

(** ** Little-endian integers ([binary.LittleEndian]) *)
Fixpoint le_bytes (n : nat) (z : Z) : bytes :=
  match n with
  | O => []
  | S n => z mod 256 :: le_bytes n (z / 256)
  end.

Fixpoint le_value (l : bytes) : Z :=
  match l with
  | [] => 0
  | b :: l => b + 256 * le_value l
  end.

Lemma length_le_bytes n z : length (le_bytes n z) = n.
Proof. revert z; induction n; intros; simpl; auto. Qed.

Lemma wf_le_bytes n z : wf_bytes (le_bytes n z).
Proof.
  revert z; induction n; intros z; simpl; constructor; [|apply IHn].
  unfold is_byte. pose proof (Z.mod_pos_bound z 256). lia.
Qed.

Lemma le_value_bytes n z : le_value (le_bytes n z) = z mod 2 ^ (8 * Z.of_nat n).
Proof.
  revert z; induction n as [|n IH]; intros z; simpl le_value.
  { by rewrite Z.mod_1_r. }
  simpl. rewrite IH.
  replace (8 * Z.of_nat (S n)) with (8 + 8 * Z.of_nat n) by lia.
  rewrite Z.pow_add_r by lia. change (2 ^ 8) with 256.
  rewrite Z.rem_mul_r by lia. done.
Qed.

(** ** Time

    A [time.Time] is the number of nanoseconds since January 1 of year 1, the
    zero value of the type, so [IsZero] compares with 0; a [time.Duration] is
    a number of nanoseconds.  The monotonic reading is not modelled. *)
Definition second : Z := 1000000000.
Definition minute : Z := 60 * second.
Definition hour : Z := 60 * minute.
Definition unix_epoch : Z := 62135596800 * second.

Definition time_zero : Z := 0.
Definition IsZero (t : Z) : bool := t =? time_zero.
Definition After (t u : Z) : bool := u <? t.
Definition Before (t u : Z) : bool := t <? u.
Definition Add (t d : Z) : Z := t + d.
(** [time.Unix(0, ns)] *)
Definition Unix0 (ns : Z) : Z := unix_epoch + ns.
(** [t.UnixNano()] wraps for times outside the years 1678 to 2262. *)
Definition UnixNano (t : Z) : Z := i64 (t - unix_epoch).

Lemma Unix0_UnixNano t :
  - 2 ^ 63 ≤ t - unix_epoch < 2 ^ 63 → Unix0 (UnixNano t) = t.
Proof. intros H. unfold Unix0, UnixNano. rewrite i64_small by lia. lia. Qed.

(** The zero time has no representation in [UnixNano]: it comes back as an
    instant of the year 1754. *)
Lemma Unix0_UnixNano_zero :
  Unix0 (UnixNano time_zero) = 55340232221128654848 ∧
  IsZero (Unix0 (UnixNano time_zero)) = false.
Proof. by vm_compute. Qed.

(** ** Sorting

    [sort.Slice] and [sort.Sort] promise a permutation in which no element is
    less than one before it, and nothing about the order of equal elements.
    The theorems hold for every routine with that contract. *)
Record strict_weak_order {A} (less : A → A → bool) : Prop := {
  swo_irrefl x : less x x = false;
  swo_trans x y z : less x y = true → less y z = true → less x z = true;
  swo_incomp x y z :
    less y x = false → less z y = false → less z x = false;
}.

Class GoSort := {
  go_sort : ∀ {A : Type}, (A → A → bool) → list A → list A;
  go_sort_perm : ∀ {A} (less : A → A → bool) l, go_sort less l ≡ₚ l;
  go_sort_sorted : ∀ {A} (less : A → A → bool) l,
    strict_weak_order less →
    StronglySorted (λ x y, less y x = false) (go_sort less l);
}.

Section insertion_sort.
Context {A : Type} (less : A → A → bool).

Fixpoint sort_insert (x : A) (l : list A) : list A :=
  match l with
  | [] => [x]
  | y :: l' => if less y x then y :: sort_insert x l' else x :: l
  end.

Fixpoint insertion_sort (l : list A) : list A :=
  match l with
  | [] => []
  | x :: l => sort_insert x (insertion_sort l)
  end.

Lemma sort_insert_perm x l : sort_insert x l ≡ₚ x :: l.
Proof.
  induction l as [|y l IH]; simpl; [done|].
  destruct (less y x); [|done]. rewrite IH. constructor.
Qed.

Lemma insertion_sort_perm l : insertion_sort l ≡ₚ l.
Proof.
  induction l as [|x l IH]; simpl; [done|].
  by rewrite sort_insert_perm, IH.
Qed.

Lemma sort_insert_sorted x l :
  strict_weak_order less →
  StronglySorted (λ x y, less y x = false) l →
  StronglySorted (λ x y, less y x = false) (sort_insert x l).
Proof.
  intros Hswo. induction l as [|y l IH]; simpl; intros Hl.
  { repeat constructor. }
  apply StronglySorted_inv in Hl as [Hl Hy].
  destruct (less y x) eqn:E.
  - constructor; [by apply IH|].
    rewrite sort_insert_perm. constructor; [|done].
    destruct (less x y) eqn:E2; [|done].
    pose proof (swo_trans _ Hswo _ _ _ E E2) as H.
    by rewrite (swo_irrefl _ Hswo) in H.
  - constructor; [by constructor|]. constructor; [done|].
    eapply Forall_impl; [exact Hy|]. simpl. intros z Hz.
    by apply (swo_incomp _ Hswo x y z).
Qed.

Lemma insertion_sort_sorted l :
  strict_weak_order less →
  StronglySorted (λ x y, less y x = false) (insertion_sort l).
Proof.
  intros Hswo. induction l; simpl; [constructor|].
  by apply sort_insert_sorted.
Qed.
End insertion_sort.

(** Insertion sort, which the run time uses on short slices, meets it. *)
Definition insertion_GoSort : GoSort := {|
  go_sort := @insertion_sort;
  go_sort_perm := @insertion_sort_perm;
  go_sort_sorted := @insertion_sort_sorted;
|}.

(** Ordering by a decreasing integer key, as the routing code does. *)
Lemma swo_key {A} (f : A → Z) : strict_weak_order (λ x y, f y <? f x).
Proof.
  split; intros; repeat match goal with
    | H : (_ <? _) = true |- _ => apply Z.ltb_lt in H
    | H : (_ <? _) = false |- _ => apply Z.ltb_ge in H
    | |- (_ <? _) = true => apply Z.ltb_lt
    | |- (_ <? _) = false => apply Z.ltb_ge
    end; lia.
Qed.

Lemma go_sort_length `{GoSort} {A} (less : A → A → bool) l :
  length (go_sort less l) = length l.
Proof. by rewrite (go_sort_perm less l). Qed.

(** A sorted list is best at its front: what a prefix keeps is at least as
    good as what it drops. *)
Lemma StronglySorted_take_drop {A} (R : A → A → Prop) l n x y :
  StronglySorted R l → x ∈ take n l → y ∈ drop n l → R x y.
Proof.
  intros Hs. revert n. induction Hs as [|a l Hl IH Ha]; intros n Hx Hy.
  { by rewrite drop_nil in Hy; set_solver. }
  destruct n as [|n]; simpl in *; [set_solver|].
  apply elem_of_cons in Hx as [->|Hx]; [|by eapply IH].
  rewrite Forall_forall in Ha. apply Ha.
  rewrite <-(take_drop n l). set_solver.
Qed.

(** Closes a decidable goal by evaluating its decision. *)
Ltac decided := apply (bool_decide_unpack _); vm_compute; exact I.

Create Rewrite HintDb emo.
#[export] Hint Rewrite @length_copy_at @length_insert @length_app @length_take
  @length_drop @length_replicate using lia : emo.

(** Arithmetic on the lengths of lists. *)
Ltac list_len := unfold zlen in *; autorewrite with emo in *; cbn [length] in *; lia.

(** A read of a slice at an index whose element is known. *)
Ltac go_read H := rewrite (go_index_Some _ _ _ H); cbn [obind].
