(* ===== verification/Keyspace.v ===== *)
(** * The key space: identifiers, distances and bucket numbers

    Models [constants.go], [distance] and [bucketID] of [routing_table.go],
    [Key] and [generateRandomIDInBucket] of [dht.go] and [Keccak256] of
    [keccak.go].  The reference definition of the distance is the XOR metric
    of Kademlia on 256-bit numbers. *)
From stdpp Require Import base list numbers.
From Stdlib Require Import Lia.
From S2P Require Import Prelude.
Local Open Scope Z_scope.

(** ** constants.go *)
Definition K : nat := 20.
Definition ALPHA : nat := 3.
Definition KEY_BITS : Z := 256.
Definition KEY_BYTES : Z := KEY_BITS / 8.
Definition VALUE_BYTES : Z := 32 * 1024.

(** ** distance and bucketID *)

(** [bits.Len8] and [bits.LeadingZeros8] *)
Definition Len8 (x : Z) : Z := if x =? 0 then 0 else Z.log2 x + 1.
Definition LeadingZeros8 (x : Z) : Z := 8 - Len8 x.

(** The loop of [distance] from index [i] on, [n] iterations left. *)
Fixpoint distance_loop (n : nat) (i pfx : Z) (localID targetID : bytes) : outcome Z :=
  match n with
  | O => Ret pfx
  | S n =>
      let! x := go_index localID i in
      let! y := go_index targetID i in
      let d := Z.lxor x y in
      if d =? 0 then distance_loop n (i + 1) (pfx + 8) localID targetID
      else Ret (pfx + LeadingZeros8 d)
  end.

Definition distance (localID targetID : bytes) : outcome Z :=
  distance_loop (Z.to_nat KEY_BYTES) 0 0 localID targetID.

Definition bucketID (localID targetID : bytes) : outcome Z :=
  let! pfx := distance localID targetID in
  let d := KEY_BITS - pfx in
  if d =? 0 then Ret d else Ret (d - 1).

(** ** Reference definitions *)

(** An identifier is 32 bytes. *)
Definition valid_id (id : bytes) : Prop := length id = 32%nat ∧ wf_bytes id.
#[export] Instance valid_id_dec id : Decision (valid_id id).
Proof. unfold valid_id. apply _. Defined.

(** [randomID]; [Read] is what [rand.Read] makes of the slice it is given. *)
Definition randomID (Read : bytes → bytes) : bytes := Read (replicate (Z.to_nat KEY_BYTES) 0).

Lemma randomID_valid Read :
  (∀ b, length (Read b) = length b ∧ wf_bytes (Read b)) → valid_id (randomID Read).
Proof. intros H. destruct (H (replicate (Z.to_nat KEY_BYTES) 0)) as [Hl Hb]. split; [exact Hl|done]. Qed.

(** The number an identifier denotes, most significant byte first. *)
Fixpoint be (l : bytes) : Z :=
  match l with
  | [] => 0
  | x :: l => x * 2 ^ (8 * zlen l) + be l
  end.

Definition bitlen (z : Z) : Z := if z =? 0 then 0 else Z.log2 z + 1.

(** The XOR metric and the number of leading bits two identifiers share. *)
Definition xor_metric (a b : bytes) : Z := Z.lxor (be a) (be b).
Definition shared_prefix (a b : bytes) : Z := 256 - bitlen (xor_metric a b).

(** ** Arithmetic of concatenated bit strings *)

Lemma testbit_concat x a k i :
  0 ≤ k → 0 ≤ a < 2 ^ k → 0 ≤ i →
  Z.testbit (x * 2 ^ k + a) i =
    if i <? k then Z.testbit a i else Z.testbit x (i - k).
Proof.
  intros Hk Ha Hi. destruct (Z.ltb_spec i k).
  - rewrite <-(Z.mod_pow2_bits_low _ k i) by lia.
    rewrite Z.add_comm, Z.mod_add, Z.mod_small by lia. done.
  - replace i with ((i - k) + k) at 1 by lia.
    rewrite <-Z.div_pow2_bits by lia.
    rewrite Z.div_add_l, Z.div_small, Z.add_0_r by lia. done.
Qed.

Lemma lxor_range a b k : 0 ≤ k → 0 ≤ a < 2 ^ k → 0 ≤ b < 2 ^ k → 0 ≤ Z.lxor a b < 2 ^ k.
Proof.
  intros Hk Ha Hb.
  assert (0 ≤ Z.lxor a b) by (apply Z.lxor_nonneg; lia).
  split; [done|]. destruct (Z.eq_dec (Z.lxor a b) 0) as [->|Hne]; [lia|].
  apply Z.log2_lt_pow2; [lia|].
  pose proof (Z.log2_lxor a b ltac:(lia) ltac:(lia)) as Hl.
  assert (∀ c, 0 ≤ c < 2 ^ k → Z.log2 c < k ∨ k = 0) as Hc.
  { intros c Hc. destruct (Z.eq_dec c 0) as [->|]; [simpl; lia|].
    left. apply Z.log2_lt_pow2; lia. }
  destruct (Z.eq_dec k 0) as [->|].
  { assert (a = 0 ∧ b = 0) as [-> ->] by (simpl in *; lia). done. }
  destruct (Hc a Ha), (Hc b Hb); lia.
Qed.

Lemma lxor_concat x y a b k :
  0 ≤ k → 0 ≤ a < 2 ^ k → 0 ≤ b < 2 ^ k →
  Z.lxor (x * 2 ^ k + a) (y * 2 ^ k + b) = Z.lxor x y * 2 ^ k + Z.lxor a b.
Proof.
  intros Hk Ha Hb. apply Z.bits_inj'. intros i Hi.
  pose proof (lxor_range a b k Hk Ha Hb).
  rewrite Z.lxor_spec, !testbit_concat by lia.
  destruct (i <? k); by rewrite Z.lxor_spec.
Qed.

Lemma bitlen_nonneg z : 0 ≤ bitlen z.
Proof. unfold bitlen. destruct (z =? 0); pose proof (Z.log2_nonneg z); lia. Qed.

Lemma bitlen_le z k : 0 ≤ k → 0 ≤ z < 2 ^ k → bitlen z ≤ k.
Proof.
  intros Hk Hz. unfold bitlen. destruct (Z.eqb_spec z 0); [lia|].
  pose proof (Z.log2_lt_pow2 z k ltac:(lia)). lia.
Qed.

Lemma bitlen_concat c r k :
  0 < c → 0 ≤ k → 0 ≤ r < 2 ^ k → bitlen (c * 2 ^ k + r) = bitlen c + k.
Proof.
  intros Hc Hk Hr. unfold bitlen.
  assert (0 < 2 ^ k) by lia.
  destruct (Z.eqb_spec (c * 2 ^ k + r) 0); [nia|].
  destruct (Z.eqb_spec c 0); [lia|].
  enough (Z.log2 (c * 2 ^ k + r) = Z.log2 c + k) by lia.
  pose proof (Z.log2_spec c Hc) as [Hlo Hhi]. pose proof (Z.log2_nonneg c).
  rewrite Z.pow_succ_r in Hhi by lia.
  apply Z.log2_unique; [lia|]. rewrite Z.pow_succ_r, Z.pow_add_r by lia. nia.
Qed.

Lemma be_range l : wf_bytes l → 0 ≤ be l < 2 ^ (8 * zlen l).
Proof.
  induction 1 as [|x l Hx Hl IH]; [unfold zlen; simpl; lia|].
  unfold is_byte in Hx. simpl be.
  replace (8 * zlen (x :: l)) with (8 + 8 * zlen l) by (unfold zlen; simpl; lia).
  rewrite Z.pow_add_r by (unfold zlen; lia). nia.
Qed.

Lemma be_inj a b : length a = length b → wf_bytes a → wf_bytes b → be a = be b → a = b.
Proof.
  intros Hlen Ha. revert b Hlen. induction Ha as [|x a Hx Ha IH]; intros [|y b] Hlen Hb Heq;
    try done.
  apply Forall_cons_1 in Hb as [Hy Hb]. simpl in *.
  assert (zlen a = zlen b) as Hz by (unfold zlen; lia). rewrite Hz in Heq.
  pose proof (be_range a Ha) as Hra. pose proof (be_range b Hb) as Hrb.
  rewrite Hz in Hra. set (M := 2 ^ (8 * zlen b)) in *.
  assert (x = y) as -> by nia. f_equal. apply IH; [lia|done|lia].
Qed.

(** ** The code computes the shared prefix *)

(** [distance_loop] reads the two lists front to back. *)
Fixpoint cpl (a b : bytes) : Z :=
  match a, b with
  | x :: a, y :: b =>
      if Z.lxor x y =? 0 then 8 + cpl a b else LeadingZeros8 (Z.lxor x y)
  | _, _ => 0
  end.

Lemma distance_loop_cpl n i pfx a b :
  (i + n ≤ length a)%nat → (i + n ≤ length b)%nat →
  distance_loop n (Z.of_nat i) pfx a b =
    Ret (pfx + cpl (take n (drop i a)) (take n (drop i b))).
Proof.
  revert i pfx. induction n as [|n IH]; intros i pfx Ha Hb; simpl.
  { f_equal. lia. }
  destruct (lookup_lt_is_Some_2 a i) as [x Hx]; [lia|].
  destruct (lookup_lt_is_Some_2 b i) as [y Hy]; [lia|].
  rewrite (go_index_Some _ _ _ Hx), (go_index_Some _ _ _ Hy). simpl.
  rewrite (drop_S _ _ _ Hx), (drop_S _ _ _ Hy). simpl.
  destruct (Z.lxor x y =? 0); [|done].
  replace (Z.of_nat i + 1) with (Z.of_nat (S i)) by lia.
  rewrite IH by lia. f_equal. lia.
Qed.

Lemma cpl_xor a b :
  length a = length b → wf_bytes a → wf_bytes b →
  cpl a b = 8 * zlen a - bitlen (Z.lxor (be a) (be b)).
Proof.
  intros Hlen Ha. revert b Hlen. induction Ha as [|x a Hx Ha IH];
    intros [|y b] Hlen Hb; try done.
  apply Forall_cons_1 in Hb as [Hy Hb]. simpl in Hlen. simpl cpl. simpl be.
  assert (Hz : zlen b = zlen a) by (unfold zlen; lia). rewrite Hz.
  pose proof (be_range a Ha) as Hra. pose proof (be_range b Hb) as Hrb.
  rewrite Hz in Hrb.
  replace (8 * zlen (x :: a)) with (8 + 8 * zlen a) by (unfold zlen; simpl; lia).
  assert (0 ≤ 8 * zlen a) by (unfold zlen; lia).
  rewrite lxor_concat by done.
  pose proof (lxor_range _ _ _ ltac:(done) Hra Hrb) as Hr.
  unfold is_byte in Hx, Hy.
  pose proof (lxor_range x y 8 ltac:(lia) ltac:(lia) ltac:(lia)) as Hxy.
  destruct (Z.eqb_spec (Z.lxor x y) 0) as [E|E].
  - rewrite E, Z.mul_0_l, Z.add_0_l, IH by (done || lia). lia.
  - rewrite bitlen_concat by lia. unfold LeadingZeros8, Len8, bitlen. lia.
Qed.

Lemma distance_shared_prefix a b :
  valid_id a → valid_id b → distance a b = Ret (shared_prefix a b).
Proof.
  intros [Hla Ha] [Hlb Hb]. unfold distance, shared_prefix, xor_metric.
  change (Z.to_nat KEY_BYTES) with 32%nat. change 0 with (Z.of_nat 0) at 1.
  rewrite distance_loop_cpl by lia. rewrite !drop_0, !take_ge by lia.
  rewrite cpl_xor by (done || lia). f_equal. unfold zlen. rewrite Hla. lia.
Qed.

(** ** The metric *)

Lemma xor_metric_range a b : valid_id a → valid_id b → 0 ≤ xor_metric a b < 2 ^ 256.
Proof.
  intros [Hla Ha] [Hlb Hb]. unfold xor_metric.
  pose proof (be_range a Ha) as Hra. pose proof (be_range b Hb) as Hrb.
  unfold zlen in *. rewrite Hla in Hra. rewrite Hlb in Hrb.
  by apply lxor_range.
Qed.

Lemma xor_metric_comm a b : xor_metric a b = xor_metric b a.
Proof. apply Z.lxor_comm. Qed.

Lemma shared_prefix_comm a b : shared_prefix a b = shared_prefix b a.
Proof. unfold shared_prefix. by rewrite xor_metric_comm. Qed.

Lemma xor_metric_0 a b : valid_id a → valid_id b → xor_metric a b = 0 ↔ a = b.
Proof.
  intros [Hla Ha] [Hlb Hb]. unfold xor_metric. rewrite Z.lxor_eq_0_iff.
  split; [|by intros ->]. intros. apply be_inj; by congruence.
Qed.

Lemma xor_metric_via a b c : xor_metric a c = Z.lxor (xor_metric b a) (xor_metric b c).
Proof.
  unfold xor_metric. rewrite (Z.lxor_comm (be b) (be a)), Z.lxor_assoc.
  by rewrite <-(Z.lxor_assoc (be b) (be b)), Z.lxor_nilpotent, Z.lxor_0_l.
Qed.

Lemma shared_prefix_range a b :
  valid_id a → valid_id b → 0 ≤ shared_prefix a b ≤ 256.
Proof.
  intros Ha Hb. unfold shared_prefix. pose proof (xor_metric_range a b Ha Hb).
  pose proof (bitlen_nonneg (xor_metric a b)).
  pose proof (bitlen_le (xor_metric a b) 256 ltac:(lia) ltac:(lia)). lia.
Qed.

Lemma shared_prefix_256 a b : valid_id a → valid_id b → shared_prefix a b = 256 ↔ a = b.
Proof.
  intros Ha Hb. rewrite <-xor_metric_0 by done.
  unfold shared_prefix, bitlen. pose proof (xor_metric_range a b Ha Hb).
  destruct (Z.eqb_spec (xor_metric a b) 0); [lia|].
  pose proof (Z.log2_nonneg (xor_metric a b)). lia.
Qed.

(** The two ways the metric of a pair follows from a third point: the longer
    of two different numbers decides, equal lengths cancel the top bit. *)
Lemma bitlen_lxor_lt x y : 0 ≤ x → 0 ≤ y → bitlen x < bitlen y → bitlen (Z.lxor x y) = bitlen y.
Proof.
  intros Hx Hy. unfold bitlen.
  destruct (Z.eqb_spec y 0); [destruct (x =? 0); pose proof (Z.log2_nonneg x); lia|].
  destruct (Z.eqb_spec x 0) as [->|]; intros H.
  { rewrite Z.lxor_0_l. by rewrite (proj2 (Z.eqb_neq y 0)). }
  assert (Hl : Z.log2 (Z.lxor x y) = Z.log2 y).
  { apply Z.log2_bits_unique.
    - rewrite Z.lxor_spec, Z.bit_log2 by lia.
      rewrite (Z.bits_above_log2 x) by lia. done.
    - intros i Hi. rewrite Z.lxor_spec, !Z.bits_above_log2 by lia. done. }
  destruct (Z.eqb_spec (Z.lxor x y) 0) as [E|]; [|lia].
  apply (proj1 (Z.lxor_eq_0_iff x y)) in E. subst. lia.
Qed.

Lemma bitlen_lxor_eq x y : 0 ≤ x → 0 ≤ y → 0 < bitlen x → bitlen x = bitlen y →
  bitlen (Z.lxor x y) < bitlen x.
Proof.
  intros Hx Hy. unfold bitlen.
  destruct (Z.eqb_spec x 0); [lia|]. destruct (Z.eqb_spec y 0); [pose proof (Z.log2_nonneg x); lia|].
  intros _ H. pose proof (Z.log2_nonneg x).
  destruct (Z.eqb_spec (Z.lxor x y) 0); [lia|].
  assert (0 ≤ Z.lxor x y) by (apply Z.lxor_nonneg; lia).
  enough (Z.log2 (Z.lxor x y) ≠ Z.log2 x).
  { pose proof (Z.log2_lxor x y Hx Hy). lia. }
  intros E. pose proof (Z.bit_log2 (Z.lxor x y) ltac:(lia)) as Hb.
  rewrite E, Z.lxor_spec, Z.bit_log2 in Hb by lia.
  replace (Z.log2 x) with (Z.log2 y) in Hb by lia.
  rewrite Z.bit_log2 in Hb by lia. done.
Qed.

(** ** Buckets *)

Definition bucket_of (l t : bytes) : Z := Z.max 0 (bitlen (xor_metric l t) - 1).

Lemma bucketID_bucket_of l t :
  valid_id l → valid_id t → bucketID l t = Ret (bucket_of l t).
Proof.
  intros Hl Ht. unfold bucketID, bucket_of. rewrite distance_shared_prefix by done.
  simpl. unfold shared_prefix, KEY_BITS. pose proof (bitlen_nonneg (xor_metric l t)).
  destruct (Z.eqb_spec (256 - (256 - bitlen (xor_metric l t))) 0); f_equal; lia.
Qed.

Lemma bucket_of_range l t : valid_id l → valid_id t → 0 ≤ bucket_of l t < 256.
Proof.
  intros Hl Ht. unfold bucket_of. pose proof (xor_metric_range l t Hl Ht).
  pose proof (bitlen_le (xor_metric l t) 256 ltac:(lia) ltac:(lia)). lia.
Qed.

(** Prefix shared with a target, seen from the bucket numbers at a third
    node: an entry in a bucket below the target's own shares as many bits with
    the target as the local node does, one above it fewer, and one in the
    target's bucket more. *)
Section geometry.
Context (l t : bytes) (Hl : valid_id l) (Ht : valid_id t).

Lemma shared_prefix_below x :
  valid_id x → bucket_of l x < bucket_of l t →
  shared_prefix x t = 255 - bucket_of l t.
Proof.
  intros Hx. unfold bucket_of, shared_prefix. intros H.
  pose proof (xor_metric_range l x Hl Hx). pose proof (xor_metric_range l t Hl Ht).
  rewrite (xor_metric_via x l t). rewrite bitlen_lxor_lt by lia. lia.
Qed.

Lemma shared_prefix_above x :
  valid_id x → bucket_of l t < bucket_of l x →
  shared_prefix x t = 255 - bucket_of l x.
Proof.
  intros Hx. unfold bucket_of, shared_prefix. intros H.
  pose proof (xor_metric_range l x Hl Hx). pose proof (xor_metric_range l t Hl Ht).
  rewrite (xor_metric_via x l t), Z.lxor_comm. rewrite bitlen_lxor_lt by lia. lia.
Qed.

Lemma shared_prefix_same x :
  valid_id x → bucket_of l x = bucket_of l t →
  255 - bucket_of l t ≤ shared_prefix x t ∧
  (0 < bucket_of l t → 255 - bucket_of l t < shared_prefix x t).
Proof.
  intros Hx. unfold bucket_of, shared_prefix. intros H.
  pose proof (xor_metric_range l x Hl Hx). pose proof (xor_metric_range l t Hl Ht).
  rewrite (xor_metric_via x l t).
  pose proof (bitlen_nonneg (xor_metric l x)). pose proof (bitlen_nonneg (xor_metric l t)).
  destruct (Z.lt_trichotomy (bitlen (xor_metric l x)) (bitlen (xor_metric l t)))
    as [?|[?|?]].
  - rewrite bitlen_lxor_lt by lia. lia.
  - destruct (Z.eq_dec (bitlen (xor_metric l x)) 0).
    + assert (∀ z, 0 ≤ z → bitlen z = 0 → z = 0) as Hz.
      { intros z Hz. unfold bitlen. destruct (Z.eqb_spec z 0); [done|].
        pose proof (Z.log2_nonneg z). lia. }
      rewrite (Hz (xor_metric l x)), (Hz (xor_metric l t)) by lia. simpl.
      unfold bitlen. simpl. lia.
    + pose proof (bitlen_lxor_eq (xor_metric l x) (xor_metric l t)). lia.
  - rewrite Z.lxor_comm, bitlen_lxor_lt by lia. lia.
Qed.

Lemma same_bucket_closer x y :
  valid_id x → valid_id y →
  bucket_of l x = bucket_of l t → bucket_of l y ≠ bucket_of l t →
  shared_prefix y t < shared_prefix x t.
Proof.
  intros Hx Hy Hxt Hyt. pose proof (shared_prefix_same x Hx Hxt) as [H1 H2].
  pose proof (bucket_of_range l t Hl Ht). pose proof (bucket_of_range l y Hl Hy).
  destruct (Z.lt_ge_cases (bucket_of l y) (bucket_of l t)).
  - rewrite (shared_prefix_below y) by done. lia.
  - rewrite (shared_prefix_above y) by (done || lia). lia.
Qed.
End geometry.

(** ** dht.go: generateRandomIDInBucket *)

(** [rnd i] is the value [rand.Intn(256)] returns for byte [i].  The bucket is
    given by its index, which [getBucketIndex] finds. *)
Definition generateRandomIDInBucket (localID : bytes) (bucketIndex : Z)
    (rnd : nat → Z) : outcome bytes :=
  let id := copy_at (replicate (Z.to_nat KEY_BYTES) 0) 0 localID in
  let byteIndex := Z.quot bucketIndex 8 in
  let bitIndex := Z.rem bucketIndex 8 in
  let! x := go_index id byteIndex in
  let! id := go_store id byteIndex (Z.lxor x (u8 (Z.shiftl 1 (7 - bitIndex)))) in
  ofold (λ id i, go_store id (Z.of_nat i) (u8 (rnd i))) id
    (seq (Z.to_nat (byteIndex + 1)) (Z.to_nat (KEY_BYTES - (byteIndex + 1)))).

(** ** dht.go: Key, keccak.go: Keccak256 *)

(** The dynamic types [Key] accepts; anything else panics. *)
Inductive any_key :=
  | KeyString (s : bytes)
  | KeyBytes (b : bytes)
  | KeyInt (i : Z)
  | KeyOther.

Section keccak.
(** The digest function of golang.org/x/crypto/sha3. *)
Variable LegacyKeccak256 : bytes → bytes.

Definition Keccak256 (data : bytes) : bytes := LegacyKeccak256 data.

(** [hasher.Sum(h[:0])] appends to the empty prefix of the 32 byte array:
    a digest that fits the capacity is written in place. *)
Definition sum_into (h digest : bytes) : bytes :=
  if (length digest <=? length h)%nat then copy_at h 0 digest else h.

Definition Key (k : any_key) : outcome bytes :=
  let h := replicate 32 0 in
  match k with
  | KeyString key => Ret (sum_into h (LegacyKeccak256 key))
  | KeyBytes key => Ret (sum_into h (LegacyKeccak256 key))
  | KeyInt key => Ret (sum_into h (LegacyKeccak256 (le_bytes 8 (u64 key))))
  | KeyOther => Panic ExplicitPanic
  end.
End keccak.

(** ** Lemmas on generated identifiers *)

Lemma cpl_prefix p x y a b :
  Z.lxor x y ≠ 0 → cpl (p ++ x :: a) (p ++ y :: b) = 8 * zlen p + LeadingZeros8 (Z.lxor x y).
Proof.
  intros H. induction p as [|z p IH]; simpl.
  - destruct (Z.eqb_spec (Z.lxor x y) 0); [done|]. unfold zlen; simpl; lia.
  - rewrite Z.lxor_nilpotent. simpl. rewrite IH. unfold zlen; simpl; lia.
Qed.

Lemma flip_bit x r :
  is_byte x → 0 ≤ r < 8 →
  is_byte (Z.lxor x (u8 (Z.shiftl 1 (7 - r)))) ∧
  Z.lxor x (Z.lxor x (u8 (Z.shiftl 1 (7 - r)))) ≠ 0 ∧
  LeadingZeros8 (Z.lxor x (Z.lxor x (u8 (Z.shiftl 1 (7 - r))))) = r.
Proof.
  intros Hx Hr. rewrite <-(Z.lxor_assoc x x).
  rewrite Z.lxor_nilpotent, Z.lxor_0_l. unfold is_byte in *.
  assert (r = 0 ∨ r = 1 ∨ r = 2 ∨ r = 3 ∨ r = 4 ∨ r = 5 ∨ r = 6 ∨ r = 7) as Hcase by lia.
  split; [|destruct Hcase as [->|[->|[->|[->|[->|[->|[->| ->]]]]]]]; done].
  apply (lxor_range _ _ 8); [lia|lia|].
  destruct Hcase as [->|[->|[->|[->|[->|[->|[->| ->]]]]]]]; done.
Qed.

Lemma generate_shape localID i rnd :
  valid_id localID → 0 ≤ i < 256 →
  ∃ p x s r, localID = p ++ x :: s ∧ i = 8 * zlen p + r ∧ 0 ≤ r < 8 ∧
    generateRandomIDInBucket localID i rnd =
      Ret (p ++ Z.lxor x (u8 (Z.shiftl 1 (7 - r))) ::
           ((λ j, u8 (rnd j)) <$> seq (S (length p)) (length s))).
Proof.
  intros [Hlen Hwf] Hi.
  pose proof (Z.quot_rem i 8 ltac:(lia)) as Hqr.
  pose proof (Z.rem_bound_pos i 8 ltac:(lia) ltac:(lia)) as Hr.
  set (q := Z.quot i 8) in *. set (r := Z.rem i 8) in *.
  destruct (lookup_lt_is_Some_2 localID (Z.to_nat q)) as [x Hx]; [lia|].
  exists (take (Z.to_nat q) localID), x, (drop (S (Z.to_nat q)) localID), r.
  assert (Hsplit : localID = take (Z.to_nat q) localID ++ x :: drop (S (Z.to_nat q)) localID).
  { symmetry. by apply take_drop_middle. }
  assert (Hp : length (take (Z.to_nat q) localID) = Z.to_nat q)
    by (rewrite length_take; lia).
  split_and!; [done|unfold zlen; lia|lia|lia|].
  unfold generateRandomIDInBucket. fold q. fold r.
  assert (Hid : copy_at (replicate (Z.to_nat KEY_BYTES) 0) 0 localID = localID).
  { change (Z.to_nat KEY_BYTES) with 32%nat.
    rewrite copy_at_fit by (rewrite length_replicate; lia).
    rewrite drop_ge by (rewrite length_replicate; lia).
    by rewrite app_nil_r. }
  rewrite Hid. clear Hid.
  replace q with (Z.of_nat (Z.to_nat q)) by lia. rewrite (go_index_Some _ _ _ Hx). simpl.
  rewrite go_store_ok by lia. simpl. rewrite Nat2Z.id.
  set (n := Z.to_nat q) in *.
  replace (Z.to_nat (Z.of_nat n + 1)) with (S n) by lia.
  replace (Z.to_nat (KEY_BYTES - (Z.of_nat n + 1))) with (32 - S n)%nat
    by (change KEY_BYTES with 32; lia).
  rewrite (ofold_store (λ j, u8 (rnd j))) by (rewrite length_insert; lia).
  rewrite Hp, length_drop, Hlen.
  rewrite (take_S_r _ n (Z.lxor x (u8 (Z.shiftl 1 (7 - r)))))
    by (apply list_lookup_insert_eq; lia).
  rewrite take_insert_ge by lia. by rewrite <-app_assoc.
Qed.

Lemma wf_fmap_u8 (f : nat → Z) l : wf_bytes ((λ j, u8 (f j)) <$> l).
Proof.
  apply Forall_fmap, Forall_true. intros j. unfold is_byte, u8; simpl.
  pose proof (Z.mod_pos_bound (f j) (2 ^ 8)). lia.
Qed.

Lemma le_value_bytes8 z : le_value (le_bytes 8 (u64 z)) = u64 z.
Proof. rewrite le_value_bytes. unfold u64. by rewrite Zmod_mod. Qed.

(** * Properties *)

(** C22: on 32-byte identifiers [distance] never fails and returns the number
    of leading bits the two share, 256 minus the length of their XOR; it is
    256 exactly on equal identifiers. *)
Theorem distance_xor_metric a b :
  valid_id a → valid_id b →
  distance a b = Ret (256 - bitlen (Z.lxor (be a) (be b))) ∧
  (distance a b = Ret 256 ↔ a = b).
Proof.
  intros Ha Hb. rewrite distance_shared_prefix by done. split; [done|].
  rewrite <-shared_prefix_256 by done. split; [by injection 1|by intros ->].
Qed.

Definition id_of (b : Z) : bytes := b :: replicate 31 0.

Lemma distance_xor_metric_witness :
  distance (id_of 1) (id_of 3) = Ret 6.
Proof.
  pose proof (proj1 (distance_xor_metric (id_of 1) (id_of 3)
    ltac:(decided) ltac:(decided))) as H.
  rewrite H. reflexivity.
Defined.

(** Sharing more leading bits with a target means being strictly closer to
    it in the XOR metric, and the distance obeys the ultrametric inequality, so
    one identifier's distances to two others bound theirs from below. *)
Theorem distance_orders_metric a b t :
  valid_id a → valid_id b → valid_id t →
  ∃ da db dab, distance a t = Ret da ∧ distance b t = Ret db ∧ distance a b = Ret dab ∧
    (db < da → xor_metric a t < xor_metric b t) ∧ Z.min da db ≤ dab.
Proof.
  intros Ha Hb Ht. eexists _, _, _.
  rewrite !distance_shared_prefix by done. split_and!; [done..| |].
  - unfold shared_prefix. intros H.
    pose proof (xor_metric_range a t Ha Ht). pose proof (xor_metric_range b t Hb Ht).
    destruct (Z.lt_ge_cases (xor_metric a t) (xor_metric b t)); [done|].
    assert (bitlen (xor_metric b t) ≤ bitlen (xor_metric a t)); [|lia].
    unfold bitlen. pose proof (Z.log2_nonneg (xor_metric a t)).
    destruct (Z.eqb_spec (xor_metric a t) 0), (Z.eqb_spec (xor_metric b t) 0); try lia.
    pose proof (Z.log2_le_mono (xor_metric b t) (xor_metric a t)). lia.
  - unfold shared_prefix. rewrite (xor_metric_via a t b), !(xor_metric_comm t).
    pose proof (xor_metric_range a t Ha Ht). pose proof (xor_metric_range b t Hb Ht).
    destruct (Z.lt_trichotomy (bitlen (xor_metric a t)) (bitlen (xor_metric b t)))
      as [?|[He|?]].
    + rewrite bitlen_lxor_lt by lia. lia.
    + destruct (Z.eq_dec (bitlen (xor_metric a t)) 0) as [E|].
      * pose proof (shared_prefix_256 a t Ha Ht) as [H1 _].
        pose proof (shared_prefix_256 b t Hb Ht) as [H2 _].
        unfold shared_prefix in H1, H2.
        specialize (H1 ltac:(lia)). specialize (H2 ltac:(lia)). subst a b.
        rewrite Z.lxor_nilpotent. change (bitlen 0) with 0.
        pose proof (bitlen_nonneg (xor_metric t t)). lia.
      * pose proof (bitlen_nonneg (xor_metric a t)).
        pose proof (bitlen_lxor_eq (xor_metric a t) (xor_metric b t)). lia.
    + rewrite Z.lxor_comm, bitlen_lxor_lt by lia. lia.
Qed.

Lemma distance_orders_metric_witness :
  xor_metric (id_of 1) (id_of 0) < xor_metric (id_of 4) (id_of 0).
Proof.
  destruct (distance_orders_metric (id_of 1) (id_of 4) (id_of 0)
    ltac:(decided) ltac:(decided) ltac:(decided)) as (da & db & dab & H1 & H2 & _ & H & _).
  apply H. vm_compute in H1, H2. injection H1 as <-. injection H2 as <-. reflexivity.
Defined.

(** [bucketID] is total on identifiers and returns the Kademlia bucket: a
    number below 256, [i > 0] for an XOR of the target with the local
    identifier in [[2^i, 2^(i+1))], and 0 for an XOR of 0 or 1, so bucket 0
    also takes the local node itself. *)
Theorem bucketID_interval l t :
  valid_id l → valid_id t →
  ∃ i, bucketID l t = Ret i ∧ 0 ≤ i < 256 ∧
    ((i = 0 ∧ xor_metric l t ≤ 1) ∨ (0 < i ∧ 2 ^ i ≤ xor_metric l t < 2 ^ (i + 1))).
Proof.
  intros Hl Ht. exists (bucket_of l t). rewrite bucketID_bucket_of by done.
  pose proof (bucket_of_range l t Hl Ht). split_and!; [done|lia|lia|].
  pose proof (xor_metric_range l t Hl Ht). unfold bucket_of, bitlen in *.
  destruct (Z.eqb_spec (xor_metric l t) 0) as [->|]; [left; lia|].
  pose proof (Z.log2_spec (xor_metric l t) ltac:(lia)).
  pose proof (Z.log2_nonneg (xor_metric l t)).
  destruct (Z.eq_dec (Z.log2 (xor_metric l t)) 0) as [E|].
  - left. rewrite E in *. simpl in *. lia.
  - right. replace (Z.max 0 (Z.log2 (xor_metric l t) + 1 - 1))
      with (Z.log2 (xor_metric l t)) by lia. split; [lia|]. by rewrite Z.add_1_r.
Qed.

Lemma bucketID_interval_witness : bucketID (id_of 0) (id_of 5) = Ret 250.
Proof.
  destruct (bucketID_interval (id_of 0) (id_of 5) ltac:(decided) ltac:(decided))
    as (i & H & _). rewrite H. vm_compute in H. injection H as <-. reflexivity.
Defined.

(** An identifier generated for bucket [i] is well formed but lies in
    bucket [255 - i]: the code flips the bit at position [i] from the front of
    the key, while buckets are numbered from its back. *)
Theorem generateRandomIDInBucket_mirrored localID i rnd :
  valid_id localID → 0 ≤ i < 256 →
  ∃ id, generateRandomIDInBucket localID i rnd = Ret id ∧ valid_id id ∧
    bucketID localID id = Ret (255 - i).
Proof.
  intros Hl Hi. destruct (generate_shape localID i rnd Hl Hi) as (p & x & s & r & El & Ei & Hr & E).
  set (y := Z.lxor x (u8 (Z.shiftl 1 (7 - r)))) in *.
  set (s' := (λ j, u8 (rnd j)) <$> seq (S (length p)) (length s)) in *.
  exists (p ++ y :: s'). split; [done|].
  destruct Hl as [Hlen Hwf]. pose proof Hwf as Hwf'. rewrite El in Hwf'.
  apply Forall_app in Hwf' as [Hp Hxs]. apply Forall_cons_1 in Hxs as [Hx Hs].
  destruct (flip_bit x r Hx Hr) as (Hy & Hne & Hlz).
  assert (Hid : valid_id (p ++ y :: s')).
  { split.
    - rewrite El in Hlen. subst s'. rewrite length_app in *. simpl in *.
      rewrite length_fmap, length_seq. done.
    - apply Forall_app; split; [done|]. constructor; [done|]. apply wf_fmap_u8. }
  split; [done|]. unfold bucketID, distance.
  change (Z.to_nat KEY_BYTES) with 32%nat. change 0 with (Z.of_nat 0) at 1.
  rewrite distance_loop_cpl by (destruct Hid; lia). rewrite !drop_0.
  rewrite !take_ge by (destruct Hid; lia). simpl.
  rewrite El, cpl_prefix by done. unfold y. rewrite Hlz.
  unfold KEY_BITS.
  destruct (Z.eqb_spec (256 - (0 + (8 * zlen p + r))) 0); [lia|]. f_equal. lia.
Qed.

Lemma generateRandomIDInBucket_mirrored_witness :
  ∃ id, generateRandomIDInBucket (id_of 0) 3 (λ _, 7) = Ret id ∧
    bucketID (id_of 0) id = Ret 252.
Proof.
  destruct (generateRandomIDInBucket_mirrored (id_of 0) 3 (λ _, 7)
    ltac:(decided) ltac:(lia)) as (id & H & _ & Hb). by exists id.
Defined.

(** For a digest function with 32-byte output, [Key] panics exactly on the
    unsupported types, otherwise returns a 32-byte key, the digest of the given
    bytes; an [int] is hashed as its 8 little-endian bytes, so integers equal
    modulo 2^64 and only those are the same input. *)
Theorem Key_digest (keccak : bytes → bytes) (Hlen : ∀ d, length (keccak d) = 32%nat) :
  (∀ b, Key keccak (KeyBytes b) = Ret (Keccak256 keccak b)) ∧
  (∀ s, Key keccak (KeyString s) = Key keccak (KeyBytes s)) ∧
  (∀ i, Key keccak (KeyInt i) = Key keccak (KeyBytes (le_bytes 8 (u64 i)))) ∧
  (∀ i j, le_bytes 8 (u64 i) = le_bytes 8 (u64 j) ↔ u64 i = u64 j) ∧
  (∀ k, (∃ h, Key keccak k = Ret h ∧ length h = 32%nat) ↔ k ≠ KeyOther).
Proof.
  assert (Hsum : ∀ d, sum_into (replicate 32 0) (keccak d) = keccak d).
  { intros d. unfold sum_into. rewrite length_replicate, Hlen, Nat.leb_refl.
    rewrite copy_at_fit by (rewrite length_replicate, Hlen; lia).
    rewrite Hlen. simpl. by rewrite app_nil_r. }
  split_and!.
  - intros b. simpl. by rewrite Hsum.
  - done.
  - done.
  - intros i j. split; [|by intros ->].
    intros H%(f_equal le_value). by rewrite !le_value_bytes8 in H.
  - intros [s|b|i|]; simpl; rewrite ?Hsum; split; try done; try (intros; eexists; by split; [|apply Hlen]).
    by intros (h & H & _).
Qed.

Lemma Key_digest_witness :
  Key (λ _, replicate 32 9) (KeyInt (-1)) = Ret (replicate 32 9).
Proof.
  destruct (Key_digest (λ _, replicate 32 9) (λ _, eq_refl)) as (H1 & _ & H3 & _).
  rewrite H3. apply H1.
Defined.
