(* ===== verification/Bucket.v ===== *)
(** * Buckets of the routing table

    Models [bucket.go] and the [node] type of [node.go]: a fixed array of [K]
    slots of which the first [size] are in use, ordered from the least to the
    most recently inserted, a promotion cache, and a mutex.  Pointers to nodes
    are modelled by the node's fields; the slots from [size] on, which keep
    stale pointers, are part of the state.  [time.Now()] is an argument.

    The abstract view of a bucket is the pair of lists ([live], [cache]); the
    operations are shown to refine the list functions [spec_insert],
    [spec_remove] and [spec_seen] on it. *)
From stdpp Require Import base list numbers sets.
From Stdlib Require Import Lia.
From S2P Require Import Prelude Keyspace.
Local Open Scope Z_scope.

(** ** node.go *)
Record UDPAddr := mkUDPAddr { IP : bytes; Port : Z }.

Record node := mkNode {
  n_id : bytes;
  n_address : option UDPAddr;
  n_seen : Z;
  n_pending : Z;
  n_latency : Z;
  n_failCount : Z;
  n_testMode : bool;
}.

#[export] Instance UDPAddr_eq_dec : EqDecision UDPAddr.
Proof. solve_decision. Defined.
#[export] Instance node_eq_dec : EqDecision node.
Proof. solve_decision. Defined.

Definition set_seen (t : Z) (n : node) : node :=
  mkNode (n_id n) (n_address n) t (n_pending n) (n_latency n) (n_failCount n) (n_testMode n).

Definition set_latency (lat : Z) (n : node) : node :=
  mkNode (n_id n) (n_address n) (n_seen n) (n_pending n) lat (n_failCount n) (n_testMode n).

(** [rn.seen = now; rn.latency = latency; rn.testMode = testMode] *)
Definition touch (now lat : Z) (tm : bool) (n : node) : node :=
  mkNode (n_id n) (n_address n) now (n_pending n) lat (n_failCount n) tm.

(** [n.field] for a pointer that may be nil. *)
Definition deref (o : option node) : outcome node :=
  match o with Some n => Ret n | None => Panic NilDereference end.

(** [bytes.Equal] *)
Definition Equal (a b : bytes) : bool := bool_decide (a = b).

Module Bucket.

(** ** bucket.go *)
Record bucket := mkBucket {
  size : nat;
  expiry : Z;
  nodes : list (option node);
  cache : list node;
  mu : bool;
}.

#[export] Instance bucket_eq_dec : EqDecision bucket.
Proof. solve_decision. Defined.

Definition set_nodes (ns : list (option node)) (b : bucket) : bucket :=
  mkBucket (size b) (expiry b) ns (cache b) (mu b).
Definition set_size (s : nat) (b : bucket) : bucket :=
  mkBucket s (expiry b) (nodes b) (cache b) (mu b).
Definition set_cache (c : list node) (b : bucket) : bucket :=
  mkBucket (size b) (expiry b) (nodes b) c (mu b).
Definition set_mu (m : bool) (b : bucket) : bucket :=
  mkBucket (size b) (expiry b) (nodes b) (cache b) m.

(** A goroutine that locks a mutex it already holds waits forever. *)
Definition lock (b : bucket) : outcome bucket :=
  if mu b then Blocked else Ret (set_mu true b).
Definition unlock (b : bucket) : bucket := set_mu false b.

(** [b.nodes[i]], dereferenced *)
Definition node_at (b : bucket) (i : nat) : outcome node :=
  let! o := go_index (nodes b) (Z.of_nat i) in deref o.

Definition full (b : bucket) : bool := (size b =? K)%nat.

(** The loop of [remove], [i] iterations left: indices [i-1] down to 0. *)
Fixpoint remove_loop (i : nat) (nodeID : bytes) (b : bucket) : outcome (option node * bucket) :=
  match i with
  | O => Ret (None, b)
  | S i =>
      let! r := node_at b i in
      if Equal (n_id r) nodeID then
        let! tl := go_slice (nodes b) (Z.of_nat i + 1) (zlen (nodes b)) in
        let! ns := go_copy (nodes b) (Z.of_nat i) tl in
        Ret (Some r, set_size (size b - 1) (set_nodes ns b))
      else remove_loop i nodeID b
  end.

Definition remove (nodeID : bytes) (do_lock : bool) (b : bucket) : outcome (option node * bucket) :=
  if do_lock then
    let! b := lock b in
    let! '(r, b) := remove_loop (size b) nodeID b in
    Ret (r, unlock b)
  else remove_loop (size b) nodeID b.

(** Marks the first cached node with this id as seen, if there is one. *)
Fixpoint stash_loop (now : Z) (id : bytes) (c : list node) : option (list node) :=
  match c with
  | [] => None
  | x :: c =>
      if Equal (n_id x) id then Some (set_seen now x :: c)
      else match stash_loop now id c with
           | Some c => Some (x :: c)
           | None => None
           end
  end.

Definition stash (now : Z) (n : node) (b : bucket) : bucket :=
  match stash_loop now (n_id n) (cache b) with
  | Some c => set_cache c b
  | None => set_cache (cache b ++ [n]) b
  end.

(** One iteration of the scan for a stale entry; the state is [(si, stale)]. *)
Definition stale_step (now : Z) (n : node) (b : bucket) (st : option (nat * node)) (i : nat)
    : outcome (option (nat * node)) :=
  let! en := node_at b i in
  Ret (if After now (Add (n_seen n) (expiry b)) then
         match st with
         | None => if 1 <? n_pending en then Some (i, en) else st
         | Some (_, stale) => if n_pending stale <? n_pending en then Some (i, en) else st
         end
       else st).

Definition insert (now : Z) (id : bytes) (addr : option UDPAddr) (lat : Z) (tm : bool)
    (b : bucket) : outcome (bool * bucket) :=
  let! b := lock b in
  let! '(rn, b) := remove id false b in
  match rn with
  | Some rn =>
      let rn := touch now lat tm rn in
      let! ns := go_store (nodes b) (Z.of_nat (size b)) (Some rn) in
      Ret (true, unlock (set_size (size b + 1) (set_nodes ns b)))
  | None =>
      let n := mkNode id addr time_zero 0 lat 0 tm in
      if negb (full b) then
        let n := set_seen now n in
        let! ns := go_store (nodes b) (Z.of_nat (size b)) (Some n) in
        Ret (true, unlock (set_size (size b + 1) (set_nodes ns b)))
      else
        let! stale := ofold (stale_step now n b) None (seq 0 (size b)) in
        match stale with
        | Some (si, _) =>
            let! tl := go_slice (nodes b) (Z.of_nat si + 1) (zlen (nodes b)) in
            let! ns := go_copy (nodes b) (Z.of_nat si) tl in
            let! ns := go_store ns (Z.of_nat (size b)) (Some n) in
            Ret (true, unlock (set_nodes ns b))
        | None => Ret (true, unlock (stash now n b))
        end
  end.

(** Where [get] finds a node: the pointer it returns is into this place. *)
Inductive place := InNodes (i : nat) | InCache (i : nat).

(** [i] iterations left of [n] *)
Fixpoint get_loop (i n : nat) (nodeID : bytes) (b : bucket) : outcome (option nat) :=
  match i with
  | O => Ret None
  | S i =>
      let! x := node_at b (n - S i) in
      if Equal (n_id x) nodeID then Ret (Some (n - S i)%nat) else get_loop i n nodeID b
  end.

Fixpoint get_cache (i : nat) (nodeID : bytes) (c : list node) : option nat :=
  match c with
  | [] => None
  | x :: c => if Equal (n_id x) nodeID then Some i else get_cache (S i) nodeID c
  end.

Definition get (nodeID : bytes) (b : bucket) : outcome (option place) :=
  let! r := get_loop (size b) (size b) nodeID b in
  match r with
  | Some i => Ret (Some (InNodes i))
  | None =>
      match get_cache 0 nodeID (cache b) with
      | Some i => Ret (Some (InCache i))
      | None => Ret None
      end
  end.

(** Writes a field of the node at a place. *)
Definition update (f : node → node) (p : place) (b : bucket) : bucket :=
  match p with
  | InNodes i => set_nodes (alter (fmap f) i (nodes b)) b
  | InCache i => set_cache (alter f i (cache b)) b
  end.

Definition seen (now : Z) (nodeID : bytes) (b : bucket) : outcome (bool * bucket) :=
  let! b := lock b in
  let! p := get nodeID b in
  match p with
  | Some p => Ret (true, unlock (update (set_seen now) p b))
  | None => Ret (false, unlock b)
  end.

(** [iterate(fn)]: [fn] has its own state and may write through the pointer it
    is given. *)
Definition iterate {S} (fn : S → node → outcome (S * node)) (s : S) (b : bucket)
    : outcome (S * bucket) :=
  let! b := lock b in
  let! '(s, b) := ofold (λ '(s, b) i,
      let! n := node_at b i in
      let! '(s, n) := fn s n in
      Ret (s, set_nodes (<[i := Some n]> (nodes b)) b)) (s, b) (seq 0 (size b)) in
  Ret (s, unlock b).

(** [fillBucket]: [lookup] stands for the network lookup of a generated
    target, in the state [s] of the rest of the node.  The inner [b.insert] takes
    the lock that the loop already holds. *)
Fixpoint fill_loop (now : Z) (ns : list node) (b : bucket) : outcome bucket :=
  match ns with
  | [] => Ret b
  | n :: ns =>
      if (K <=? length (nodes b))%nat then Ret b
      else let! '(_, b) := insert now (n_id n) (n_address n) (n_latency n) (n_testMode n) b in
           fill_loop now ns b
  end.

Definition fillBucket {S} (now : Z) (lookup : S → outcome (list node * S)) (s : S) (b : bucket)
    : outcome (S * bucket) :=
  if (K <=? length (nodes b))%nat then Ret (s, b)
  else
    let! '(ns, s) := lookup s in
    let! b := lock b in
    let! b := fill_loop now ns b in
    Ret (s, unlock b).

(** [refresh]: [ping] says whether a node answers.  [d.pingNode(n)] reads
    [n.address], so a nil slot panics; its callback marks an answering node as
    seen. *)
Definition refresh_step (now : Z) (ping : node → bool) (b : bucket) (slot : option node)
    : outcome bucket :=
  let! n := deref slot in
  if ping n then let! '(_, b) := seen now (n_id n) b in Ret b
  else let! '(_, b) := remove (n_id n) true b in Ret b.

Definition refresh {S} (now : Z) (ping : node → bool) (lookup : S → outcome (list node * S)) (s : S) (b : bucket)
    : outcome (S * bucket) :=
  let! b := lock b in
  let snapshot := nodes b in
  let b := unlock b in
  let! b := ofold (refresh_step now ping) b snapshot in
  fillBucket now lookup s b.

(** What [newRoutingTable] leaves in a bucket. *)
Definition empty : bucket := mkBucket 0 0 (replicate K None) [] false.

(** ** Abstract view and invariant *)

Definition live (b : bucket) : list node := omap (λ o, o) (take (size b) (nodes b)).
Definition ids (l : list node) : list bytes := n_id <$> l.

(** The first [size] slots hold nodes with distinct ids, the cache has distinct
    ids too, the lock is free between operations, and no operation counts
    pending responses. *)
Definition wf (b : bucket) : Prop :=
  length (nodes b) = K ∧ (size b ≤ K)%nat ∧
  take (size b) (nodes b) = Some <$> live b ∧
  NoDup (ids (live b)) ∧ NoDup (ids (cache b)) ∧
  Forall (λ n, n_pending n = 0) (live b) ∧
  mu b = false.

#[export] Instance wf_dec b : Decision (wf b).
Proof. unfold wf. apply _. Defined.

Definition has_id (id : bytes) (n : node) : bool := Equal (n_id n) id.

Definition spec_remove (id : bytes) (l : list node) : list node :=
  filter (λ n, n_id n ≠ id) l.

Definition spec_stash (now : Z) (n : node) (c : list node) : list node :=
  if decide (n_id n ∈ ids c)
  then (λ x, if has_id (n_id n) x then set_seen now x else x) <$> c
  else c ++ [n].

Definition spec_insert (now : Z) (id : bytes) (addr : option UDPAddr) (lat : Z) (tm : bool)
    (l c : list node) : list node * list node :=
  match List.find (has_id id) l with
  | Some rn => (spec_remove id l ++ [touch now lat tm rn], c)
  | None =>
      if (length l <? K)%nat then (l ++ [mkNode id addr now 0 lat 0 tm], c)
      else (l, spec_stash now (mkNode id addr time_zero 0 lat 0 tm) c)
  end.

Definition spec_seen (now : Z) (id : bytes) (l c : list node) : bool * (list node * list node) :=
  let mark x := if has_id id x then set_seen now x else x in
  if decide (id ∈ ids l) then (true, (mark <$> l, c))
  else if decide (id ∈ ids c) then (true, (l, mark <$> c))
  else (false, (l, c)).

(** ** Lemmas *)

(** The array of a bucket, split at its size. *)
Definition shape (b : bucket) (l : list node) (rest : list (option node)) : Prop :=
  nodes b = (Some <$> l) ++ rest ∧ size b = length l ∧ length (nodes b) = K.

Lemma omap_id_Some {A} (l : list A) : omap (λ o, o) (Some <$> l) = l.
Proof. induction l; csimpl; congruence. Qed.

Lemma shape_live b l rest : shape b l rest → live b = l.
Proof.
  intros (Hn & Hs & _). unfold live. rewrite Hn, Hs.
  rewrite take_app_length' by (by rewrite length_fmap). apply omap_id_Some.
Qed.

Lemma wf_shape b : wf b → ∃ rest, shape b (live b) rest.
Proof.
  intros (Hlen & Hsz & Ht & _). exists (drop (size b) (nodes b)).
  split_and!; [by rewrite <-Ht, take_drop| |done].
  apply (f_equal length) in Ht. rewrite length_take, length_fmap in Ht. lia.
Qed.

Lemma shape_wf b l rest :
  shape b l rest → NoDup (ids l) → NoDup (ids (cache b)) →
  Forall (λ n, n_pending n = 0) l → mu b = false → wf b.
Proof.
  intros Hsh Hl Hc Hp Hm. pose proof (shape_live _ _ _ Hsh) as Hlive.
  destruct Hsh as (Hn & Hs & Hlen). split_and!; rewrite ?Hlive; try done.
  - rewrite Hn, length_app, length_fmap in Hlen. lia.
  - rewrite Hn, Hs. by rewrite take_app_length' by (by rewrite length_fmap).
Qed.

Lemma shape_bound b l rest : shape b l rest → (length l + length rest = K)%nat.
Proof. intros (Hn & _ & Hlen). rewrite Hn, length_app, length_fmap in Hlen. done. Qed.

Lemma shape_node_at b l rest i n :
  shape b l rest → l !! i = Some n → node_at b i = Ret n.
Proof.
  intros (Hn & _) Hi. unfold node_at.
  rewrite (go_index_Some _ i (Some n)); [done|].
  rewrite Hn, lookup_app_l by (rewrite length_fmap; by eapply lookup_lt_Some).
  by rewrite list_lookup_fmap, Hi.
Qed.

Lemma Equal_spec a b : Equal a b = true ↔ a = b.
Proof. apply bool_decide_eq_true. Qed.

Lemma Equal_false a b : Equal a b = false ↔ a ≠ b.
Proof. apply bool_decide_eq_false. Qed.

Lemma find_has_id id l :
  match List.find (has_id id) l with
  | Some r => ∃ l1 l2, l = l1 ++ r :: l2 ∧ n_id r = id ∧ id ∉ ids l1
  | None => id ∉ ids l
  end.
Proof.
  induction l as [|x l IH]; simpl; [set_solver|].
  unfold has_id at 1. destruct (Equal (n_id x) id) eqn:E.
  - apply Equal_spec in E. exists [], l. set_solver.
  - apply Equal_false in E. destruct (List.find (has_id id) l) as [r|].
    + destruct IH as (l1 & l2 & -> & Hr & Hl1). exists (x :: l1), l2. set_solver.
    + set_solver.
Qed.

Lemma find_has_id_middle id l1 r l2 :
  n_id r = id → id ∉ ids l1 → List.find (has_id id) (l1 ++ r :: l2) = Some r.
Proof.
  intros Hr. induction l1 as [|x l1 IH]; simpl; intros Hl.
  - unfold has_id. by rewrite (proj2 (Equal_spec _ _) Hr).
  - unfold has_id at 1. rewrite (proj2 (Equal_false _ _)) by set_solver.
    apply IH. set_solver.
Qed.

Lemma spec_remove_notin id l : id ∉ ids l → spec_remove id l = l.
Proof.
  unfold spec_remove. induction l as [|x l IH]; intros H; [done|].
  rewrite filter_cons_True by set_solver. f_equal. apply IH. set_solver.
Qed.

Lemma spec_remove_middle id l1 r l2 :
  n_id r = id → NoDup (ids (l1 ++ r :: l2)) → spec_remove id (l1 ++ r :: l2) = l1 ++ l2.
Proof.
  intros Hr Hnd. unfold ids in Hnd. rewrite fmap_app, fmap_cons in Hnd.
  apply NoDup_app in Hnd as (H1 & H2 & H3). apply NoDup_cons in H3 as [H3 H4].
  unfold spec_remove. rewrite filter_app, filter_cons_False by tauto.
  pose proof (spec_remove_notin id l1) as E1. pose proof (spec_remove_notin id l2) as E2.
  unfold spec_remove in E1, E2. rewrite E1, E2; [done| |]; unfold ids.
  - by rewrite <-Hr.
  - intros Hin. apply (H2 id Hin). rewrite <-Hr. set_solver.
Qed.

Lemma remove_loop_skip b l1 l2 rest id :
  shape b (l1 ++ l2) rest → id ∉ ids l2 →
  remove_loop (length (l1 ++ l2)) id b = remove_loop (length l1) id b.
Proof.
  revert rest. induction l2 as [|x l2 IH] using rev_ind; intros rest Hsh Hni.
  { by rewrite app_nil_r. }
  unfold ids in Hni. rewrite fmap_app in Hni.
  rewrite app_assoc, length_app, Nat.add_comm. simpl.
  rewrite (shape_node_at _ _ _ _ x Hsh)
    by (rewrite app_assoc; by apply list_lookup_middle). simpl.
  rewrite (proj2 (Equal_false _ _)) by set_solver.
  (* the remaining iterations do not look at the slot of [x] *)
  enough (Hgen : ∀ k, (k ≤ length l2)%nat →
    remove_loop (length l1 + k) id b = remove_loop (length l1) id b).
  { rewrite length_app. by apply Hgen. }
  induction k as [|k IHk]; intros Hk; [by rewrite Nat.add_0_r|].
  rewrite Nat.add_succ_r. simpl.
  destruct (lookup_lt_is_Some_2 l2 k) as [y Hy]; [lia|].
  rewrite (shape_node_at _ _ _ _ y Hsh).
  2:{ rewrite lookup_app_r by lia. rewrite lookup_app_l by lia. rewrite <-Hy. f_equal. lia. }
  simpl. rewrite (proj2 (Equal_false _ _)); [apply IHk; lia|].
  intros <-. apply Hni, elem_of_app. left. apply list_elem_of_fmap_2, (list_elem_of_lookup_2 _ _ _ Hy).
Qed.

(** What [remove] leaves behind: the slots close up over the removed one. *)
Lemma remove_loop_hit b l1 r l2 rest :
  shape b (l1 ++ r :: l2) rest →
  ∃ b' rest', remove_loop (S (length l1)) (n_id r) b = Ret (Some r, b') ∧
    shape b' (l1 ++ l2) rest' ∧ cache b' = cache b ∧ mu b' = mu b ∧ expiry b' = expiry b.
Proof.
  intros Hsh. simpl.
  rewrite (shape_node_at _ _ _ _ r Hsh) by (by apply list_lookup_middle). simpl.
  rewrite (proj2 (Equal_spec _ _) eq_refl).
  destruct Hsh as (Hn & Hs & Hlen).
  rewrite fmap_app, <-app_assoc in Hn. simpl in Hn.
  assert (Hl : nodes b !! length l1 = Some (Some r)).
  { rewrite Hn. apply list_lookup_middle. by rewrite length_fmap. }
  replace (Z.of_nat (length l1) + 1) with (Z.of_nat (S (length l1))) by lia.
  pose proof (lookup_lt_Some _ _ _ Hl).
  unfold zlen. rewrite go_slice_ok by lia. simpl.
  rewrite take_ge by list_len.
  rewrite go_copy_ok by lia. simpl. rewrite (copy_at_shift _ _ _ Hl).
  set (w := drop (length (nodes b) - 1) (nodes b)).
  assert (Hw : length w = 1%nat) by (subst w; rewrite length_drop; lia).
  assert (Ht : take (length l1) (nodes b) = Some <$> l1).
  { rewrite Hn. by rewrite take_app_length' by (by rewrite length_fmap). }
  assert (Hd : drop (S (length l1)) (nodes b) = (Some <$> l2) ++ rest).
  { rewrite Hn, cons_middle, app_assoc.
    by rewrite drop_app_length' by (rewrite length_app, length_fmap; simpl; lia). }
  rewrite Ht, Hd. eexists _, (rest ++ w). split_and!; [done| |done..].
  unfold shape. cbn [nodes size set_size set_nodes]. split_and!.
  - by rewrite fmap_app, <-!app_assoc.
  - rewrite Hs, !length_app. simpl. lia.
  - rewrite Hn in Hlen. rewrite !length_app, !length_fmap, Hw in *. simpl in *.
    rewrite length_app, length_fmap in Hlen. lia.
Qed.

(** [remove] refines the removal from the list of live nodes. *)
Lemma remove_spec b l rest id :
  shape b l rest → NoDup (ids l) →
  ∃ b' rest', remove id false b = Ret (List.find (has_id id) l, b') ∧
    shape b' (spec_remove id l) rest' ∧
    cache b' = cache b ∧ mu b' = mu b ∧ expiry b' = expiry b.
Proof.
  intros Hsh Hnd. unfold remove. assert (Hsz : size b = length l) by apply Hsh. rewrite Hsz.
  pose proof (find_has_id id l) as Hf.
  destruct (List.find (has_id id) l) as [r|].
  - destruct Hf as (l1 & l2 & -> & <- & Hl1).
    rewrite (spec_remove_middle _ l1 r l2) by done.
    rewrite cons_middle, app_assoc in Hsh |- *.
    rewrite (remove_loop_skip _ _ _ _ _ Hsh).
    2:{ unfold ids in *. rewrite fmap_app, fmap_cons in Hnd.
        apply NoDup_app in Hnd as (_ & _ & [H _]%NoDup_cons). done. }
    rewrite length_app, Nat.add_comm. simpl length.
    rewrite <-app_assoc in Hsh. by apply (remove_loop_hit _ l1 r l2 rest).
  - exists b, rest. rewrite (remove_loop_skip b [] l rest) by done. simpl.
    by rewrite spec_remove_notin.
Qed.

(** Writing the slot after the last one in use. *)
Lemma shape_push b l rest n :
  shape b l rest → (length l < K)%nat →
  ∃ ns rest', go_store (nodes b) (Z.of_nat (size b)) (Some n) = Ret ns ∧
    shape (set_size (size b + 1) (set_nodes ns b)) (l ++ [n]) rest'.
Proof.
  intros Hsh Hlt. pose proof (shape_bound _ _ _ Hsh) as Hb.
  destruct Hsh as (Hn & Hs & Hlen). destruct rest as [|o rest]; simpl in Hb; [lia|].
  rewrite go_store_ok by lia. eexists _, rest. split; [done|].
  unfold shape. cbn [nodes size set_size set_nodes].
  assert (E : <[size b := Some n]> (nodes b) = (Some <$> l ++ [n]) ++ rest).
  { rewrite Hn, Hs, insert_app_r_alt by (rewrite length_fmap; lia).
    rewrite length_fmap, Nat.sub_diag, fmap_app, <-app_assoc. done. }
  split_and!; [done|rewrite length_app; simpl; lia|by rewrite length_insert].
Qed.

Lemma stale_none now n b l rest :
  shape b l rest → Forall (λ x, n_pending x = 0) l →
  ofold (stale_step now n b) None (seq 0 (size b)) = Ret None.
Proof.
  intros Hsh Hp.
  destruct (ofold_inv (λ st, st = None) (stale_step now n b) None (seq 0 (size b)))
    as (st & -> & ->); [done| |done].
  intros st i Hi ->. apply elem_of_seq in Hi.
  assert (size b = length l) as Hs by apply Hsh.
  destruct (lookup_lt_is_Some_2 l i) as [x Hx]; [lia|].
  unfold stale_step. rewrite (shape_node_at _ _ _ _ _ Hsh Hx). simpl. eexists. split; [done|].
  rewrite Forall_lookup in Hp. rewrite (Hp _ _ Hx). by destruct (After _ _).
Qed.

(** The scan remembers a valid index once it has met a node with more than one
    pending response. *)
Lemma stale_some now n b l rest j x :
  shape b l rest → l !! j = Some x → 1 < n_pending x →
  After now (Add (n_seen n) (expiry b)) = true →
  ∃ si y, ofold (stale_step now n b) None (seq 0 (size b)) = Ret (Some (si, y)) ∧
    (si < size b)%nat.
Proof.
  intros Hsh Hj Hx Hexp. assert (Hs : size b = length l) by apply Hsh.
  pose proof (lookup_lt_Some _ _ _ Hj) as Hjl.
  set (I := λ st : option (nat * node), ∀ si y, st = Some (si, y) → (si < size b)%nat).
  assert (Hstep : ∀ st i, (i < size b)%nat → I st →
    ∃ st', stale_step now n b st i = Ret st' ∧ I st' ∧ (is_Some st → is_Some st')).
  { intros st i Hi HI. destruct (lookup_lt_is_Some_2 l i) as [z Hz]; [lia|].
    unfold stale_step. rewrite (shape_node_at _ _ _ _ _ Hsh Hz). simpl. rewrite Hexp.
    destruct st as [[si y]|]; [destruct (_ <? _)|destruct (1 <? _)];
      eexists; (split_and!; [done| |]); try done; intros ?? [=]; by subst. }
  replace (seq 0 (size b)) with (seq 0 j ++ j :: seq (S j) (size b - S j)).
  2:{ change (j :: seq (S j) (size b - S j)) with (seq (0 + j) (S (size b - S j))).
      rewrite <-seq_app. f_equal. lia. }
  rewrite ofold_app.
  destruct (ofold_inv I (stale_step now n b) None (seq 0 j)) as (st & -> & Hst).
  { intros ?? [=]. }
  { intros s i Hi HI. apply elem_of_seq in Hi.
    destruct (Hstep s i) as (s' & ? & ? & _); [lia|done|eauto]. }
  simpl. destruct (Hstep st j ltac:(lia) Hst) as (st1 & E1 & HI1 & Hmono).
  rewrite E1. simpl.
  assert (Hsome : is_Some st1).
  { destruct st as [p|]; [by apply Hmono|]. unfold stale_step in E1.
    rewrite (shape_node_at _ _ _ _ _ Hsh Hj) in E1. simpl in E1. rewrite Hexp in E1.
    rewrite (proj2 (Z.ltb_lt _ _) Hx) in E1. injection E1 as <-. eauto. }
  destruct (ofold_inv (λ s, I s ∧ is_Some s) (stale_step now n b) st1
    (seq (S j) (size b - S j))) as (st2 & E2 & HI2 & [[si y] ->]); [done| |].
  { intros s i Hi [HI Hso]. apply elem_of_seq in Hi.
    destruct (Hstep s i) as (s' & ? & ? & Hm); [lia|done|eauto]. }
  exists si, y. split; [done|]. by eapply HI2.
Qed.

Lemma stash_loop_spec now id c :
  NoDup (ids c) →
  stash_loop now id c =
    if decide (id ∈ ids c)
    then Some ((λ x, if has_id id x then set_seen now x else x) <$> c) else None.
Proof.
  induction c as [|x c IH]; intros Hnd.
  { by rewrite decide_False by set_solver. }
  unfold ids in Hnd. rewrite fmap_cons in Hnd. apply NoDup_cons in Hnd as [Hx Hnd].
  simpl stash_loop. destruct (Equal (n_id x) id) eqn:E.
  - apply Equal_spec in E. subst id. rewrite decide_True by set_solver.
    rewrite fmap_cons. unfold has_id at 1. rewrite (proj2 (Equal_spec _ _) eq_refl).
    do 2 f_equal. symmetry. rewrite <-(list_fmap_id c) at 2.
    apply list_fmap_ext. intros i y Hy. unfold has_id.
    rewrite (proj2 (Equal_false _ _)); [done|].
    intros Heq. apply Hx. rewrite <-Heq. by apply list_elem_of_fmap_2, (list_elem_of_lookup_2 _ i).
  - rewrite IH by done. pose proof (proj1 (Equal_false _ _) E).
    destruct (decide (id ∈ ids c)).
    + rewrite decide_True by set_solver. rewrite fmap_cons. unfold has_id at 2. by rewrite E.
    + rewrite decide_False by set_solver. done.
Qed.

Lemma stash_spec now n b :
  NoDup (ids (cache b)) → stash now n b = set_cache (spec_stash now n (cache b)) b.
Proof.
  intros Hnd. unfold stash, spec_stash. rewrite stash_loop_spec by done.
  by destruct (decide _).
Qed.

(** Marking nodes as seen does not change their identifiers. *)
Lemma ids_mark (f : node → node) l : (∀ n, n_id (f n) = n_id n) → ids (f <$> l) = ids l.
Proof. intros H. unfold ids. rewrite <-list_fmap_compose. apply list_fmap_ext. intros; apply H. Qed.

Lemma spec_stash_nodup now n c : NoDup (ids c) → NoDup (ids (spec_stash now n c)).
Proof.
  intros Hnd. unfold spec_stash. case_decide as Hin.
  - rewrite ids_mark; [done|]. intros x. by destruct (has_id _ x).
  - unfold ids in *. rewrite fmap_app. apply NoDup_app. split_and!; [done| |apply NoDup_singleton].
    set_solver.
Qed.

Lemma ids_spec_remove id l :
  NoDup (ids l) → (id ∉ ids (spec_remove id l)) ∧ NoDup (ids (spec_remove id l)).
Proof.
  intros Hnd. unfold ids, spec_remove in *. split.
  - intros (x & -> & Hx)%list_elem_of_fmap. apply list_elem_of_filter in Hx. tauto.
  - eapply sublist_NoDup; [exact Hnd|]. apply (fmap_sublist n_id), sublist_filter.
Qed.

Lemma Forall_spec_remove (P : node → Prop) id l : Forall P l → Forall P (spec_remove id l).
Proof.
  rewrite !Forall_forall. intros H x [_ Hx]%list_elem_of_filter. by apply H.
Qed.

Lemma length_spec_remove id l r :
  NoDup (ids l) → List.find (has_id id) l = Some r → S (length (spec_remove id l)) = length l.
Proof.
  intros Hnd Hf. pose proof (find_has_id id l) as H. rewrite Hf in H.
  destruct H as (l1 & l2 & -> & Hr & _). rewrite spec_remove_middle by done.
  rewrite !length_app. simpl. lia.
Qed.

Lemma find_Forall (P : node → Prop) id l r :
  List.find (has_id id) l = Some r → Forall P l → P r ∧ n_id r = id.
Proof.
  intros Hf HP. pose proof (find_has_id id l) as H. rewrite Hf in H.
  destruct H as (l1 & l2 & -> & Hr & _). apply Forall_app in HP as [_ HP].
  by inversion HP.
Qed.

(** Appending a node with a new identifier keeps the invariant of the list. *)
Lemma snoc_inv l n :
  NoDup (ids l) → Forall (λ n, n_pending n = 0) l → n_id n ∉ ids l → n_pending n = 0 →
  NoDup (ids (l ++ [n])) ∧ Forall (λ n, n_pending n = 0) (l ++ [n]).
Proof.
  intros Hnd Hp Hn Hpn. split.
  - unfold ids in *. rewrite fmap_app. apply NoDup_app.
    split_and!; [done|set_solver|apply NoDup_singleton].
  - apply Forall_app. by repeat constructor.
Qed.

(** The invariant survives [insert], which refines [spec_insert]. *)
Lemma insert_spec now id addr lat tm b :
  wf b →
  ∃ b', insert now id addr lat tm b = Ret (true, b') ∧ wf b' ∧ expiry b' = expiry b ∧
    (live b', cache b') = spec_insert now id addr lat tm (live b) (cache b).
Proof.
  intros Hwf. destruct (wf_shape b Hwf) as [rest Hsh].
  destruct Hwf as (_ & _ & _ & Hnd & Hndc & Hp & Hmu).
  unfold insert, lock. rewrite Hmu. cbn [obind].
  destruct (remove_spec (set_mu true b) (live b) rest id Hsh Hnd)
    as (b1 & rest1 & -> & Hsh1 & Hc1 & _ & He1). cbn [obind].
  pose proof (ids_spec_remove id _ Hnd) as [Hni Hnd1].
  pose proof (Forall_spec_remove _ id _ Hp) as Hp1.
  pose proof (shape_bound _ _ _ Hsh) as Hbd.
  unfold spec_insert. destruct (List.find (has_id id) (live b)) as [rn|] eqn:Hf.
  - destruct (find_Forall _ _ _ _ Hf Hp) as [Hprn Hid].
    pose proof (length_spec_remove _ _ _ Hnd Hf).
    destruct (shape_push b1 _ _ (touch now lat tm rn) Hsh1) as (ns & rest2 & -> & Hsh2); [lia|].
    cbn [obind]. eexists. split; [done|].
    destruct (snoc_inv (spec_remove id (live b)) (touch now lat tm rn)) as [??];
      [done|done|by simpl; rewrite Hid|done|].
    split_and!; [by eapply shape_wf; cbn; rewrite ?Hc1|done|].
    apply (f_equal2 pair); [by eapply shape_live|done].
  - pose proof (find_has_id id (live b)) as Hfn. rewrite Hf in Hfn.
    rewrite spec_remove_notin in Hsh1 by done.
    assert (Hs1 : size b1 = length (live b)) by apply Hsh1.
    unfold full. rewrite Hs1.
    destruct (Nat.eqb_spec (length (live b)) K) as [HK|HK]; cbn [negb].
    + destruct (Nat.ltb_spec (length (live b)) K); [lia|].
      rewrite <-Hs1, (stale_none _ _ _ _ _ Hsh1 Hp). cbn [obind].
      rewrite stash_spec by (by rewrite Hc1). rewrite Hc1.
      eexists. split; [done|].
      split_and!; [|done|apply (f_equal2 pair); [by eapply shape_live|done]].
      eapply shape_wf; [exact Hsh1|done| |done|done].
      by apply spec_stash_nodup.
    + destruct (Nat.ltb_spec (length (live b)) K); [|lia].
      rewrite <-Hs1. cbv zeta. change (set_seen now _) with (mkNode id addr now 0 lat 0 tm).
      destruct (shape_push b1 _ _ (mkNode id addr now 0 lat 0 tm) Hsh1)
        as (ns & rest2 & -> & Hsh2); [lia|]. cbn [obind]. eexists. split; [done|].
      destruct (snoc_inv (live b) (mkNode id addr now 0 lat 0 tm)) as [??]; [done..|].
      split_and!; [by eapply shape_wf; cbn; rewrite ?Hc1|done|].
      apply (f_equal2 pair); [by eapply shape_live|done].
Qed.

(** The locking form of [remove]. *)
Lemma remove_locked_spec id b :
  wf b →
  ∃ b', remove id true b = Ret (List.find (has_id id) (live b), b') ∧ wf b' ∧
    expiry b' = expiry b ∧ live b' = spec_remove id (live b) ∧ cache b' = cache b.
Proof.
  intros Hwf. destruct (wf_shape b Hwf) as [rest Hsh].
  destruct Hwf as (_ & _ & _ & Hnd & Hndc & Hp & Hmu).
  unfold remove, lock. rewrite Hmu. cbn [obind].
  destruct (remove_spec (set_mu true b) (live b) rest id Hsh Hnd)
    as (b1 & rest1 & E & Hsh1 & Hc1 & _ & He1). unfold remove in E. rewrite E. cbn [obind].
  pose proof (ids_spec_remove id _ Hnd) as [Hni Hnd1].
  eexists. split; [done|]. split_and!; [|done|by eapply shape_live|done].
  eapply shape_wf; [exact Hsh1|done|cbn; by rewrite Hc1|by apply Forall_spec_remove|done].
Qed.

Definition first_index (id : bytes) (l : list node) : option nat :=
  fst <$> list_find (λ n, n_id n = id) l.

Lemma first_index_cons id x l :
  first_index id (x :: l) =
    if Equal (n_id x) id then Some O else S <$> first_index id l.
Proof.
  unfold first_index, Equal. cbn [list_find].
  destruct (decide (n_id x = id)) as [E|E].
  - by rewrite bool_decide_eq_true_2.
  - rewrite bool_decide_eq_false_2 by done. rewrite <-!option_fmap_compose.
    apply option_fmap_ext. by intros [].
Qed.

Lemma first_index_Some id l i :
  first_index id l = Some i → ∃ x, l !! i = Some x ∧ n_id x = id ∧ id ∈ ids l.
Proof.
  unfold first_index. intros ([j x] & H & ->)%fmap_Some_1.
  apply list_find_Some in H as (Hi & Hx & _). exists x.
  split_and!; [done|done|]. rewrite <-Hx. by apply list_elem_of_fmap_2, (list_elem_of_lookup_2 _ j).
Qed.

Lemma first_index_None id l : first_index id l = None ↔ id ∉ ids l.
Proof.
  unfold first_index. rewrite fmap_None, list_find_None, Forall_forall. unfold ids.
  rewrite list_elem_of_fmap. naive_solver.
Qed.

Lemma get_loop_spec b l rest i id :
  shape b l rest → (i ≤ length l)%nat →
  get_loop i (length l) id b =
    Ret ((λ k, (length l - i + k)%nat) <$> first_index id (drop (length l - i) l)).
Proof.
  intros Hsh. induction i as [|i IH]; intros Hi; simpl.
  { by rewrite drop_ge by lia. }
  destruct (lookup_lt_is_Some_2 l (length l - S i)) as [x Hx]; [lia|].
  rewrite (shape_node_at _ _ _ _ _ Hsh Hx). cbn [obind].
  rewrite (drop_S _ _ _ Hx), first_index_cons.
  destruct (Equal (n_id x) id); [simpl; do 2 f_equal; lia|].
  rewrite IH by lia. replace (S (length l - S i)) with (length l - i)%nat by lia.
  f_equal. destruct (first_index _ _); simpl; f_equal. lia.
Qed.

Lemma get_cache_spec i id c : get_cache i id c = (λ k, (i + k)%nat) <$> first_index id c.
Proof.
  revert i. induction c as [|x c IH]; intros i; [done|].
  rewrite first_index_cons. simpl. destruct (Equal _ _); [simpl; f_equal; lia|].
  rewrite IH. destruct (first_index id c); simpl; f_equal. lia.
Qed.

(** Writing one node through its pointer marks exactly the node with its id. *)
Lemma mark_alter (f : node → node) id l i x :
  NoDup (ids l) → l !! i = Some x → n_id x = id →
  (λ y, if has_id id y then f y else y) <$> l = alter f i l.
Proof.
  intros Hnd Hi Hx. apply list_eq. intros j. rewrite list_lookup_fmap.
  destruct (decide (i = j)) as [<-|Hne].
  - rewrite list_lookup_alter_eq, Hi. simpl. unfold has_id.
    by rewrite (proj2 (Equal_spec _ _) Hx).
  - rewrite list_lookup_alter_ne by done. destruct (l !! j) as [y|] eqn:Hj; simpl; [|done].
    unfold has_id. rewrite (proj2 (Equal_false _ _)); [done|].
    intros Hy. apply Hne. eapply (NoDup_lookup (ids l)); [done| |];
      unfold ids; rewrite list_lookup_fmap; [by rewrite Hi|rewrite Hj]; simpl; congruence.
Qed.

Lemma alter_fmap_Some (f : node → node) i (l : list node) rest :
  (i < length l)%nat →
  alter (fmap f) i ((Some <$> l) ++ rest) = (Some <$> alter f i l) ++ rest.
Proof.
  intros Hi. rewrite alter_app_l by (by rewrite length_fmap).
  f_equal. apply list_eq. intros j. rewrite list_lookup_fmap.
  destruct (decide (i = j)) as [<-|].
  - rewrite !list_lookup_alter_eq, list_lookup_fmap. by destruct (l !! i).
  - by rewrite !list_lookup_alter_ne, list_lookup_fmap by done.
Qed.

(** [seen] refines [spec_seen]. *)
Lemma seen_spec now id b :
  wf b →
  ∃ r b', seen now id b = Ret (r, b') ∧ wf b' ∧ expiry b' = expiry b ∧
    (r, (live b', cache b')) = spec_seen now id (live b) (cache b).
Proof.
  intros Hwf. destruct (wf_shape b Hwf) as [rest Hsh].
  pose proof Hwf as (_ & _ & _ & Hnd & Hndc & Hp & Hmu).
  unfold seen, lock. rewrite Hmu. cbn [obind]. unfold get.
  change (size (set_mu true b)) with (size b). change (cache (set_mu true b)) with (cache b).
  assert (Hs : size b = length (live b)) by apply Hsh. rewrite Hs.
  rewrite (get_loop_spec (set_mu true b) (live b) rest) by (done || lia). cbn [obind].
  rewrite Nat.sub_diag, drop_0. unfold spec_seen.
  destruct (first_index id (live b)) as [i|] eqn:Hi; cbn [fmap option_fmap option_map].
  - destruct (first_index_Some _ _ _ Hi) as (x & Hx & Hid & Hin).
    rewrite decide_True by done. simpl. eexists _, _. split; [done|].
    rewrite (mark_alter _ _ _ i x) by done.
    assert (Hsh' : shape (unlock (update (set_seen now) (InNodes i) (set_mu true b)))
      (alter (set_seen now) i (live b)) rest).
    { unfold shape, unlock, update. cbn [nodes size set_mu set_nodes].
      destruct Hsh as (Hn & _ & Hlen). split_and!.
      - rewrite Hn. apply alter_fmap_Some. by eapply lookup_lt_Some.
      - by rewrite length_alter.
      - by rewrite length_alter. }
    split_and!; [|done|f_equal; apply (f_equal2 pair); [by eapply shape_live|done]].
    rewrite <-(mark_alter _ id _ i x) in Hsh' by done.
    eapply shape_wf; [exact Hsh'| |done| |done].
    + rewrite ids_mark; [done|]. intros y. by destruct (has_id id y).
    + rewrite Forall_fmap. eapply Forall_impl; [exact Hp|]. intros y. simpl.
      by destruct (has_id id y).
  - apply first_index_None in Hi. rewrite decide_False by done.
    rewrite get_cache_spec.
    destruct (first_index id (cache b)) as [i|] eqn:Hc; cbn [fmap option_fmap option_map].
    + destruct (first_index_Some _ _ _ Hc) as (x & Hx & Hid & Hin).
      rewrite decide_True by done. simpl. eexists _, _. split; [done|].
      rewrite (mark_alter _ _ _ i x) by done.
      split_and!; [|done|done].
      eapply shape_wf; [exact Hsh|done| |done|done]. simpl.
      rewrite <-(mark_alter _ id _ i x) by done.
      rewrite ids_mark; [done|]. intros y. by destruct (has_id id y).
    + apply first_index_None in Hc. rewrite decide_False by done.
      eexists _, _. split; [done|]. split_and!; [|done|].
      * eapply shape_wf; [exact Hsh|done..].
      * f_equal.
Qed.

(** A visitor that does not write: [iterate] folds over the live nodes. *)
Definition visitor {S} (f : S → node → outcome S) (s : S) (n : node) : outcome (S * node) :=
  let! s := f s n in Ret (s, n).

Lemma iterate_visitor {S} (f : S → node → outcome S) s b :
  wf b →
  iterate (visitor f) s b = (let! s := ofold f s (live b) in Ret (s, b)).
Proof.
  intros Hwf. destruct (wf_shape b Hwf) as [rest Hsh].
  pose proof Hwf as (_ & _ & _ & _ & _ & _ & Hmu).
  unfold iterate, lock. rewrite Hmu. cbn [obind].
  assert (Hs : size b = length (live b)) by apply Hsh.
  change (size (set_mu true b)) with (size b). rewrite Hs.
  assert (Hgen : ∀ l1 l2, live b = l1 ++ l2 → ∀ s,
    ofold (λ '(s, b) i, let! n := node_at b i in let! '(s, n) := visitor f s n in
        Ret (s, set_nodes (<[i := Some n]> (nodes b)) b))
      (s, set_mu true b) (seq (length l1) (length l2)) =
    (let! s := ofold f s l2 in Ret (s, set_mu true b))).
  { intros l1 l2. revert l1. induction l2 as [|x l2 IH]; intros l1 Hl s0; simpl; [done|].
    assert (Hx : live b !! length l1 = Some x) by (rewrite Hl; by apply list_lookup_middle).
    rewrite (shape_node_at (set_mu true b) _ _ _ _ Hsh Hx). cbn [obind]. unfold visitor at 1.
    destruct (f s0 x) as [s1| | |]; simpl; try done.
    rewrite list_insert_id.
    - specialize (IH (l1 ++ [x])). rewrite length_app, Nat.add_comm in IH. simpl in IH.
      rewrite <-app_assoc in IH. apply (IH Hl).
    - destruct Hsh as (Hn & _). cbn [nodes set_mu].
      rewrite Hn, lookup_app_l by (rewrite length_fmap; by eapply lookup_lt_Some).
      by rewrite list_lookup_fmap, Hx. }
  rewrite (Hgen [] (live b) eq_refl). destruct (ofold f s (live b)); simpl; try done.
  do 2 f_equal. unfold unlock, set_mu. destruct b; simpl in *; by subst.
Qed.

(** A visitor that writes: it goes through the live nodes, and what it writes
    takes their places. *)
Fixpoint visit_all {S} (fn : S → node → outcome (S * node)) (s : S) (l : list node) : outcome (S * list node) :=
  match l with
  | [] => Ret (s, [])
  | n :: l =>
      let! '(s, n) := fn s n in
      let! '(s, l) := visit_all fn s l in
      Ret (s, n :: l)
  end.

Definition with_live (l : list node) (b : bucket) : bucket :=
  set_nodes ((Some <$> l) ++ drop (length l) (nodes b)) b.

Lemma visit_all_length {S} (fn : S → node → outcome (S * node)) s l s' l' :
  visit_all fn s l = Ret (s', l') → length l' = length l.
Proof.
  revert s l'. induction l as [|n l IH]; intros s l' E; cbn in E; [by injection E as _ <-|].
  apply obind_Ret in E as ([s1 n1] & _ & E). apply obind_Ret in E as ([s2 l2] & E & [= -> <-]). cbn. f_equal. by eapply IH.
Qed.

Lemma with_live_shape l l0 rest b :
  shape b l0 rest → length l = length l0 → shape (with_live l b) l rest.
Proof.
  intros (Hn & Hs & HK) Hlen. unfold shape, with_live. cbn. rewrite Hn, drop_app_length' by (by rewrite length_fmap).
  rewrite Hn, length_app, length_fmap in HK. rewrite length_app, length_fmap. split_and!; [done|lia|lia].
Qed.

Lemma iterate_live {S} (fn : S → node → outcome (S * node)) s b :
  wf b → iterate fn s b = (let! '(s, l) := visit_all fn s (live b) in Ret (s, with_live l b)).
Proof.
  intros Hwf. destruct (wf_shape b Hwf) as [rest Hsh]. assert (Hmu : mu b = false) by apply Hwf.
  unfold iterate, lock. rewrite Hmu. cbn [obind]. assert (Hs : size b = length (live b)) by apply Hsh.
  change (size (set_mu true b)) with (size b). rewrite Hs.
  assert (Hgen : ∀ l2 l1 b1 s, shape b1 (l1 ++ l2) rest → mu b1 = true →
    ofold (λ '(s, b) i, let! n := node_at b i in let! '(s, n) := fn s n in
        Ret (s, set_nodes (<[i := Some n]> (nodes b)) b)) (s, b1) (seq (length l1) (length l2)) =
    (let! '(s, l) := visit_all fn s l2 in Ret (s, with_live (l1 ++ l) b1))).
  { induction l2 as [|x l2 IH]; intros l1 b1 s1 H1 Hmu1; cbn [length seq ofold visit_all obind].
    { do 2 f_equal. unfold with_live. destruct H1 as (Hn & _). rewrite Hn, drop_app_length' by (by rewrite length_fmap).
      rewrite <-Hn. by destruct b1. }
    rewrite (shape_node_at _ _ _ _ x H1) by (by apply list_lookup_middle). cbn [obind].
    destruct (fn s1 x) as [[s2 y]| | |]; [|done..]. cbn [obind]. destruct H1 as (Hn & Hsz & HK).
    specialize (IH (l1 ++ [y])). rewrite length_app, Nat.add_comm in IH. cbn [length Nat.add] in IH.
    assert (Hi : <[length l1 := Some y]> (nodes b1) = (Some <$> (l1 ++ [y]) ++ l2) ++ rest).
    { rewrite Hn, !fmap_app, insert_app_l by (rewrite length_app, !length_fmap; simpl; lia). f_equal.
      rewrite <-(length_fmap Some l1) at 1. rewrite insert_app_r_alt, Nat.sub_diag by lia. by rewrite <-app_assoc. }
    rewrite IH; [|unfold shape; cbn; rewrite length_insert, Hsz, Hi, <-app_assoc; split_and!; [done|by rewrite !length_app|done]|done].
    destruct (visit_all fn s2 l2) as [[s3 l]| | |] eqn:Ev; [|done..]. cbn [obind]. do 2 f_equal.
    unfold with_live. cbn. rewrite <-app_assoc. unfold set_nodes. cbn. f_equal. f_equal.
    rewrite !length_app. cbn [length]. by rewrite drop_insert_lt by lia. }
  pose proof (Hgen (live b) [] (set_mu true b) s Hsh eq_refl) as E. cbn [length Datatypes.app] in E. rewrite E.
  destruct (visit_all fn s (live b)) as [[s1 l]| | |]; [|done..]. cbn [obind]. do 2 f_equal.
  unfold unlock, with_live, set_mu, set_nodes. destruct b; cbn in *. by subst.
Qed.

(** What holds of what a visitor makes of each node holds of the bucket, if the
    nodes keep their identity. *)
Lemma with_live_keeps (R : node → node → Prop) b l :
  wf b → (∀ n n', R n n' → n_id n' = n_id n ∧ n_pending n' = n_pending n) → Forall2 R (live b) l →
  wf (with_live l b) ∧ live (with_live l b) = l ∧ cache (with_live l b) = cache b.
Proof.
  intros Hwf HR Hl. destruct (wf_shape b Hwf) as [rest Hsh]. pose proof Hwf as (_ & _ & _ & Hnd & Hndc & Hp & Hmu).
  assert (Hsh' : shape (with_live l b) l rest) by (eapply with_live_shape; [done|by eapply Forall2_length in Hl]).
  assert (Hids : ids l = ids (live b)).
  { unfold ids. clear -HR Hl. induction Hl as [|n n' l0 l' Hn _ IH]; [done|]. cbn. destruct (HR _ _ Hn) as [-> _]. by f_equal. }
  split_and!; [|by eapply shape_live|done]. eapply shape_wf; [exact Hsh'|by rewrite Hids|done| |done].
  clear -HR Hl Hp. revert Hp. induction Hl as [|n n' l0 l' Hn _ IH]; intros Hp; [constructor|].
  apply Forall_cons_1 in Hp as [Hp Hp']. constructor; [|by apply IH]. destruct (HR _ _ Hn) as [_ ->]. done.
Qed.

Lemma wf_empty : wf empty.
Proof. decided. Qed.

Lemma live_empty : live empty = [].
Proof. reflexivity. Qed.

(** ** Which identifiers a bucket knows *)

Lemma spec_insert_ids now id addr lat tm l c x :
  NoDup (ids l) →
  let s := spec_insert now id addr lat tm l c in
  x ∈ ids (s.1 ++ s.2) ↔ x = id ∨ x ∈ ids (l ++ c).
Proof.
  intros Hnd. unfold spec_insert. pose proof (find_has_id id l) as Hf.
  unfold ids in *.
  destruct (List.find (has_id id) l) as [r|]; simpl.
  - destruct Hf as (l1 & l2 & -> & Hr & _). rewrite spec_remove_middle by done.
    rewrite !fmap_app. simpl. rewrite Hr. set_solver.
  - destruct (_ <? _)%nat; simpl; rewrite !fmap_app; [set_solver|].
    unfold spec_stash. case_decide as Hin; simpl in *.
    + pose proof (ids_mark (λ y, if has_id id y then set_seen now y else y) c) as E.
      unfold ids in E. rewrite E by (intros y; by destruct (has_id id y)). set_solver.
    + rewrite fmap_app. set_solver.
Qed.

Lemma spec_seen_ids now id l c :
  let s := spec_seen now id l c in
  ids s.2.1 = ids l ∧ ids s.2.2 = ids c ∧ s.1 = bool_decide (id ∈ ids (l ++ c)).
Proof.
  assert (E : ids (l ++ c) = ids l ++ ids c) by apply fmap_app.
  unfold spec_seen. rewrite E.
  destruct (decide (id ∈ ids l)); [|destruct (decide (id ∈ ids c))];
    simpl; split_and!; try done;
    try (apply ids_mark; intros y; by destruct (has_id id y));
    symmetry; (apply bool_decide_eq_true_2 || apply bool_decide_eq_false_2); set_solver.
Qed.

(** ** Sequences of operations *)

Inductive op :=
  | OpInsert (now : Z) (id : bytes) (addr : option UDPAddr) (lat : Z) (tm : bool)
  | OpSeen (now : Z) (id : bytes)
  | OpRemove (id : bytes).

Definition step (b : bucket) (o : op) : outcome bucket :=
  match o with
  | OpInsert now id addr lat tm => let! '(_, b) := insert now id addr lat tm b in Ret b
  | OpSeen now id => let! '(_, b) := seen now id b in Ret b
  | OpRemove id => let! '(_, b) := remove id true b in Ret b
  end.

Definition spec_step (s : list node * list node) (o : op) : list node * list node :=
  match o with
  | OpInsert now id addr lat tm => spec_insert now id addr lat tm s.1 s.2
  | OpSeen now id => (spec_seen now id s.1 s.2).2
  | OpRemove id => (spec_remove id s.1, s.2)
  end.

Lemma step_refines b o :
  wf b → ∃ b', step b o = Ret b' ∧ wf b' ∧ (live b', cache b') = spec_step (live b, cache b) o.
Proof.
  intros Hwf. destruct o as [now id addr lat tm|now id|id]; cbn [step spec_step fst snd].
  - destruct (insert_spec now id addr lat tm b Hwf) as (b' & -> & ? & _ & ?). simpl. eauto.
  - destruct (seen_spec now id b Hwf) as (r & b' & -> & ? & _ & E). simpl.
    exists b'. by rewrite <-E.
  - destruct (remove_locked_spec id b Hwf) as (b' & -> & ? & _ & E1 & E2). simpl.
    exists b'. by rewrite E1, E2.
Qed.

(** Where the addresses of the entries come from. *)
Lemma step_addresses (P : option UDPAddr → Prop) b o b' :
  wf b → step b o = Ret b' → (∀ now id addr lat tm, o = OpInsert now id addr lat tm → P addr) →
  Forall (P ∘ n_address) (live b ++ cache b) → Forall (P ∘ n_address) (live b' ++ cache b').
Proof.
  intros Hwf E Hv Hb. destruct (step_refines b o Hwf) as (b1 & E1 & _ & Hs). rewrite E in E1. injection E1 as <-.
  assert (Hmark : ∀ x now l, Forall (P ∘ n_address) l →
    Forall (P ∘ n_address) ((λ y, if has_id x y then set_seen now y else y) <$> l)).
  { intros x now l Hl. apply Forall_fmap. eapply Forall_impl; [exact Hl|]. intros n Hn. simpl. by destruct (has_id x n). }
  rewrite Forall_app in Hb |- *. destruct Hb as [Hl Hc].
  destruct o as [now id addr lat tm|now id|id]; cbn [spec_step fst snd] in Hs.
  - specialize (Hv _ _ _ _ _ eq_refl). unfold spec_insert in Hs. destruct (List.find _ _) as [rn|] eqn:Ef.
    + injection Hs as -> ->. split; [|done]. apply List.find_some in Ef as [Hin _]. apply Forall_app. split.
      * by apply Forall_filtered.
      * apply Forall_singleton. rewrite Forall_forall in Hl. simpl. apply (Hl rn). by apply list_elem_of_In.
    + destruct (_ <? _)%nat; injection Hs as -> ->; (split; [|]); try done.
      * apply Forall_app. by rewrite Forall_singleton.
      * unfold spec_stash. case_decide; [by apply Hmark|]. apply Forall_app. by rewrite Forall_singleton.
  - unfold spec_seen in Hs. repeat case_decide; injection Hs as -> ->; auto.
  - injection Hs as -> ->. split; [by apply Forall_filtered|done].
Qed.

Lemma steps_refine ops b :
  wf b → ∃ b', ofold step b ops = Ret b' ∧ wf b' ∧
    (live b', cache b') = fold_left spec_step ops (live b, cache b).
Proof.
  revert b. induction ops as [|o ops IH]; intros b Hwf; simpl; [by exists b|].
  destruct (step_refines b o Hwf) as (b1 & -> & Hwf1 & E). simpl.
  destruct (IH b1 Hwf1) as (b2 & -> & Hwf2 & E2). exists b2. by rewrite <-E.
Qed.

Lemma refresh_step_wf now ping b n :
  wf b → ∃ b', refresh_step now ping b (Some n) = Ret b' ∧ wf b'.
Proof.
  intros Hwf. unfold refresh_step. cbn [deref obind]. destruct (ping n).
  - destruct (seen_spec now (n_id n) b Hwf) as (r & b' & -> & ? & _). simpl. eauto.
  - destruct (remove_locked_spec (n_id n) b Hwf) as (b' & -> & ? & _). simpl. eauto.
Qed.

(** ** The last slot

    While a bucket is never full its last slot is never written. *)
Definition last_nil (b : bucket) : Prop := nodes b !! (K - 1)%nat = Some None.

Lemma remove_loop_last i id b r b' :
  remove_loop i id b = Ret (r, b') → length (nodes b) = K → last_nil b →
  last_nil b' ∧ length (nodes b') = K ∧ (size b' ≤ size b)%nat ∧ mu b' = mu b.
Proof.
  unfold last_nil. induction i as [|i IH]; cbn [remove_loop]; intros E Hlen Hl.
  { injection E as <- <-. done. }
  apply obind_Ret in E as (x & Hx & E). destruct (Equal _ _); [|by apply IH].
  assert (Hi : (i < K)%nat).
  { unfold node_at in Hx. apply obind_Ret in Hx as (o & Ho & _). unfold go_index in Ho.
    destruct (_ <? _); [done|]. rewrite Nat2Z.id in Ho.
    destruct (nodes b !! i) eqn:Ei; [|done]. apply lookup_lt_Some in Ei. lia. }
  replace (Z.of_nat i + 1) with (Z.of_nat (S i)) in E by lia. unfold zlen in E.
  rewrite go_slice_ok in E by lia. cbn [obind] in E. rewrite go_copy_ok in E by lia. cbn [obind] in E.
  injection E as <- <-. cbn [nodes size set_size set_nodes mu].
  rewrite length_copy_at by lia. split_and!; [|done|lia|done].
  rewrite lookup_copy_at by lia. rewrite decide_False; [done|]. rewrite length_take, length_drop. lia.
Qed.

Lemma store_last (ns : list (option node)) i x ns' :
  go_store ns (Z.of_nat i) x = Ret ns' → (i < K - 1)%nat → ns !! (K - 1)%nat = Some None →
  ns' !! (K - 1)%nat = Some None.
Proof.
  intros E Hi Hl. unfold go_store in E. destruct (_ && _); [|done]. injection E as <-.
  rewrite Nat2Z.id, list_lookup_insert_ne; [done|lia].
Qed.

Lemma step_last b o b' :
  step b o = Ret b' → length (nodes b) = K → (size b < K - 1)%nat → last_nil b → last_nil b'.
Proof.
  intros E Hlen Hs Hl. destruct o as [now id addr lat tm|now id|id]; cbn [step] in E;
    apply obind_Ret in E as ([r b2] & E & [= <-]).
  - unfold insert in E. apply obind_Ret in E as (b0 & E0 & E). apply obind_Ret in E as ([rn b1] & E1 & E).
    unfold lock in E0. destruct (mu b); [done|]. injection E0 as <-. unfold remove in E1.
    apply remove_loop_last in E1 as (Hl1 & Hlen1 & Hs1 & _); [|done|done]. cbn [size set_mu] in Hs1.
    unfold last_nil in *. destruct rn as [rn|].
    + apply obind_Ret in E as (ns & E & [= _ <-]). cbn. eapply store_last; [exact E|lia|done].
    + unfold full in E. rewrite (proj2 (Nat.eqb_neq (size b1) K)) in E by lia. cbn [negb] in E.
      apply obind_Ret in E as (ns & E & [= _ <-]). cbn. eapply store_last; [exact E|lia|done].
  - unfold seen in E. apply obind_Ret in E as (b0 & E0 & E). apply obind_Ret in E as (p & _ & E).
    unfold lock in E0. destruct (mu b); [done|]. injection E0 as <-. unfold last_nil in *.
    destruct p as [[i|i]|]; injection E as _ <-; cbn; try done.
    destruct (decide (i = (K - 1)%nat)) as [->|]; [|by rewrite list_lookup_alter_ne].
    rewrite list_lookup_alter_eq. cbn in *. by rewrite Hl.
  - unfold remove in E. apply obind_Ret in E as (b0 & E0 & E). apply obind_Ret in E as ([rn b1] & E1 & E).
    unfold lock in E0. destruct (mu b); [done|]. injection E0 as <-. injection E as _ <-.
    by apply remove_loop_last in E1 as (Hl1 & _).
Qed.

Lemma with_live_last b l : wf b → length (live b) = length l → last_nil b → last_nil (with_live l b).
Proof.
  intros Hwf Hlen Hl. destruct (wf_shape b Hwf) as (rest & Hn & Hs & HK). unfold last_nil, with_live in *. cbn [nodes set_nodes].
  rewrite Hn in Hl |- *. rewrite drop_app_length' by (rewrite length_fmap; lia).
  destruct (decide (K - 1 < length (live b))%nat) as [Hlt|Hge].
  - rewrite lookup_app_l in Hl by (rewrite length_fmap; lia). rewrite list_lookup_fmap in Hl.
    by destruct (live b !! _).
  - rewrite lookup_app_r in Hl by (rewrite length_fmap; lia). rewrite lookup_app_r by (rewrite length_fmap; lia).
    rewrite length_fmap in Hl |- *. by rewrite <-Hlen.
Qed.

(** ** Properties *)

(** C4: every sequence of [insert], [seen] and [remove] calls on a new bucket
    runs without a panic or a deadlock and refines the list specification: a
    known node moves to the end, a new one is appended while there is room and
    goes to the promotion cache otherwise; at most [K] distinct nodes are
    live. *)
Theorem bucket_refines_lists ops :
  ∃ b, ofold step empty ops = Ret b ∧ wf b ∧
    (live b, cache b) = fold_left spec_step ops ([], []) ∧
    (length (live b) ≤ K)%nat ∧ NoDup (ids (live b)).
Proof.
  destruct (steps_refine ops empty wf_empty) as (b & E & Hwf & Hv).
  exists b. split_and!; [done..| |]; destruct (wf_shape b Hwf) as [rest Hsh].
  - pose proof (shape_bound _ _ _ Hsh). lia.
  - apply Hwf.
Qed.

(** Replacing a stale node would panic: on a full bucket that holds a node
    with more than one pending response, inserting a new node past the expiry
    writes slot [b.size], which is one beyond the array. *)
Lemma insert_stale_panics now id addr lat tm b l rest x :
  shape b l rest → NoDup (ids l) → mu b = false → length l = K →
  id ∉ ids l → x ∈ l → 1 < n_pending x → time_zero + expiry b < now →
  insert now id addr lat tm b = Panic IndexOutOfRange.
Proof.
  intros Hsh Hnd Hmu HK Hni Hx Hp Hexp. unfold insert, lock. rewrite Hmu. cbn [obind].
  destruct (remove_spec (set_mu true b) l rest id Hsh Hnd)
    as (b1 & rest1 & -> & Hsh1 & _ & _ & He1). cbn [obind].
  pose proof (find_has_id id l) as Hf.
  destruct (List.find (has_id id) l) as [r|].
  { destruct Hf as (l1 & l2 & -> & Hr & _). exfalso. apply Hni. unfold ids. set_solver. }
  rewrite spec_remove_notin in Hsh1 by done.
  assert (Hs1 : size b1 = K) by (rewrite <-HK; apply Hsh1).
  unfold full. rewrite Hs1, Nat.eqb_refl. cbn [negb].
  apply list_elem_of_lookup in Hx as [j Hj].
  destruct (stale_some now (mkNode id addr time_zero 0 lat 0 tm) b1 l rest1 j x)
    as (si & y & Hst & Hsi); [done..| |].
  { apply Z.ltb_lt. rewrite He1. done. }
  rewrite Hs1 in Hst. rewrite Hst. cbn [obind].
  assert (Hlen : length (nodes b1) = K) by apply Hsh1.
  replace (Z.of_nat si + 1) with (Z.of_nat (S si)) by lia. unfold zlen.
  rewrite go_slice_ok by lia. cbn [obind]. rewrite go_copy_ok by lia. cbn [obind].
  unfold go_store, zlen. rewrite length_copy_at, Hlen by lia.
  by rewrite Z.ltb_irrefl, andb_false_r.
Qed.

Definition busy_node (i : nat) : node := mkNode [Z.of_nat i] None 0 2 0 0 false.
Definition busy_bucket : bucket :=
  mkBucket K 0 ((λ i, Some (busy_node i)) <$> seq 0 K) [] false.

Lemma insert_stale_panics_witness :
  insert 1 [99] None 0 false busy_bucket = Panic IndexOutOfRange.
Proof.
  apply (insert_stale_panics 1 [99] None 0 false busy_bucket
    (busy_node <$> seq 0 K) [] (busy_node 3));
    [by vm_compute|decided|reflexivity|reflexivity|decided|decided|reflexivity|reflexivity].
Defined.

(** [fillBucket] is a no-op: every bucket's array has [K] slots, used or
    not, and the length of the array, not the size, is compared with [K].  Past
    that test the first insertion would wait for the lock its caller holds. *)
Lemma fillBucket_inert {S} now (lookup : S → outcome (list node * S)) s b :
  (wf b → fillBucket now lookup s b = Ret (s, b)) ∧
  (∀ n ns s', (length (nodes b) < K)%nat → mu b = false → lookup s = Ret (n :: ns, s') →
    fillBucket now lookup s b = Blocked).
Proof.
  split.
  - intros (Hlen & _). unfold fillBucket. by rewrite Hlen, Nat.leb_refl.
  - intros n ns s' Hlen Hmu El. unfold fillBucket.
    assert (E : (K <=? length (nodes b))%nat = false) by (apply Nat.leb_gt; lia).
    rewrite E, El. unfold lock. cbn [obind]. rewrite Hmu. cbn [obind fill_loop].
    change (nodes (set_mu true b)) with (nodes b). by rewrite E.
Qed.

Lemma fillBucket_inert_witness :
  fillBucket 9 (λ _, Ret ([busy_node 1], tt)) tt empty = Ret (tt, empty) ∧
  fillBucket 9 (λ _, Ret ([busy_node 1], tt)) tt (mkBucket 0 0 [] [] false) = Blocked.
Proof.
  split; [apply (fillBucket_inert 9 (λ _, Ret ([busy_node 1], tt)) tt empty); decided|].
  apply (proj2 (fillBucket_inert 9 (λ _, Ret ([busy_node 1], tt)) tt (mkBucket 0 0 [] [] false))
    (busy_node 1) [] tt); [decided|reflexivity|reflexivity].
Defined.

(** [refresh] dereferences every slot of the array: on a well-formed bucket
    with a nil slot, so on every bucket that never held [K] nodes, it panics
    whatever the nodes answer. *)
Lemma refresh_nil_slot_panics {S} now ping (lookup : S → outcome (list node * S)) s b :
  wf b → None ∈ nodes b → refresh now ping lookup s b = Panic NilDereference.
Proof.
  intros Hwf Hin. unfold refresh, lock.
  assert (Hmu : mu b = false) by apply Hwf. rewrite Hmu. cbn [obind].
  assert (Hb : unlock (set_mu true b) = b).
  { unfold unlock, set_mu. destruct b; simpl in *; by subst. }
  rewrite Hb. change (nodes (set_mu true b)) with (nodes b).
  enough (Hgen : ∀ sl b, wf b → None ∈ sl →
    ofold (refresh_step now ping) b sl = Panic NilDereference) by (by rewrite Hgen).
  clear. induction sl as [|[n|] sl IH]; intros b Hwf Hin; [set_solver| |done].
  destruct (refresh_step_wf now ping b n Hwf) as (b' & E & Hwf').
  cbn [ofold]. rewrite E. cbn [obind]. apply IH; [done|set_solver].
Qed.

Definition one_node_bucket : bucket :=
  mkBucket 1 0 (Some (mkNode [1] None 5 0 0 0 false) :: replicate 19 None) [] false.

Lemma refresh_nil_slot_panics_witness :
  refresh 9 (λ _, true) (λ s, Ret ([], s)) tt one_node_bucket = Panic NilDereference.
Proof.
  apply (refresh_nil_slot_panics 9 (λ _, true) (λ s, Ret ([], s)) tt one_node_bucket); decided.
Defined.

End Bucket.
