(* ===== verification/RoutingTable.v ===== *)
(** * The routing table

    Models [routing_table.go]: 256 buckets around the local node.  The two
    searches, [closest] and [closestN], walk over the buckets outwards from the
    target's own, alternating sides; [scan_loop] is that loop with the body as
    an argument.  Its fuel, 512, covers the 511 offsets it can try before it has
    met all 256 buckets: [scan_loop_order] shows that it never runs out. *)
From stdpp Require Import base list numbers sets sorting.
From Stdlib Require Import Lia.
From S2P Require Import Prelude Keyspace Bucket.
Local Open Scope Z_scope.

Module RoutingTable.

Record routingTable := mkTable {
  localNode : node;
  buckets : list Bucket.bucket;
}.

Definition newRoutingTable (localNode : node) : routingTable :=
  mkTable localNode (replicate (Z.to_nat KEY_BITS) Bucket.empty).

(** [t.buckets[bucketID(t.localNode.id, id)].op(...)] *)
Definition on_bucket {A} (id : bytes) (f : Bucket.bucket → outcome (A * Bucket.bucket))
    (t : routingTable) : outcome (A * routingTable) :=
  let! i := bucketID (n_id (localNode t)) id in
  let! b := go_index (buckets t) i in
  let! '(r, b) := f b in
  Ret (r, mkTable (localNode t) (<[Z.to_nat i := b]> (buckets t))).

Definition insert (now : Z) (id : bytes) (addr : option UDPAddr) (lat : Z) (tm : bool)
    (t : routingTable) : outcome routingTable :=
  let! '(_, t) := on_bucket id (Bucket.insert now id addr lat tm) t in Ret t.

Definition seen (now : Z) (id : bytes) (t : routingTable) : outcome (bool * routingTable) :=
  on_bucket id (Bucket.seen now id) t.

Definition remove (id : bytes) (t : routingTable) : outcome routingTable :=
  let! '(_, t) := on_bucket id (Bucket.remove id true) t in Ret t.

(** A [*bucket] is the index of the table's bucket it points to, or [None] for
    a bucket outside the table. *)
Fixpoint bucket_index_loop (b : option nat) (i n : nat) : Z :=
  match n with
  | O => -1
  | S n => if bool_decide (b = Some i) then Z.of_nat i else bucket_index_loop b (S i) n
  end.
Definition getBucketIndex (b : option nat) : Z :=
  bucket_index_loop b 0 (Z.to_nat KEY_BITS).

(** The loop of [closest] and [closestN]: the body visits the bucket at an
    offset in range and says whether to leave the loop. *)
Fixpoint scan_loop {S} (body : S → Z → outcome (S * bool)) (fuel : nat)
    (offset i scanned : Z) (s : S) : outcome S :=
  match fuel with
  | O => OutOfFuel
  | Datatypes.S fuel =>
      let continue s scanned :=
        if KEY_BITS <=? scanned then Ret s
        else if Z.rem i 2 =? 0
        then scan_loop body fuel (offset + i + 1) (i + 1) scanned s
        else scan_loop body fuel (offset - i - 1) (i + 1) scanned s in
      if (-1 <? offset) && (offset <? KEY_BITS) then
        let! '(s, stop) := body s offset in
        if stop : bool then Ret s else continue s (scanned + 1)
      else continue s scanned
  end.

Definition scan_fuel : nat := 512.

(** The function literal [closest] iterates with; the state is [(cd, cn)]. *)
Definition closest_visit (id : bytes) (st : Z * option node) (n : node)
    : outcome (Z * option node) :=
  let! nd := distance (n_id n) id in
  Ret (if (st.1 =? 0) || (st.1 <? nd) then (nd, Some n) else st).

Definition closest_body (t : routingTable) (id : bytes) (_ : option node) (offset : Z)
    : outcome (option node * bool) :=
  let! b := go_index (buckets t) offset in
  let! '((_, cn), _) := Bucket.iterate (Bucket.visitor (closest_visit id)) (0, None) b in
  Ret (cn, bool_decide (is_Some cn)).

Definition closest (id : bytes) (t : routingTable) : outcome (option node) :=
  let! offset := bucketID (n_id (localNode t)) id in
  scan_loop (closest_body t id) scan_fuel offset 0 0 None.

Definition collect (ns : list node) (n : node) : outcome (list node) := Ret (ns ++ [n]).

Definition closestN_body (t : routingTable) (count : Z) (ns : list node) (offset : Z)
    : outcome (list node * bool) :=
  let! b := go_index (buckets t) offset in
  let! '(ns, _) := Bucket.iterate (Bucket.visitor collect) ns b in
  Ret (ns, count <=? zlen ns).

(** The comparison function of the sort.  A sort of two or more elements
    compares each of them, so a failing [distance] is a panic of the sort; the
    default is then never compared. *)
Definition distance_or (id : bytes) (n : node) : Z :=
  match distance (n_id n) id with Ret d => d | _ => -1 end.
Definition farther (id : bytes) (x y : node) : bool := distance_or id y <? distance_or id x.

Definition sort_by_distance `{GoSort} (id : bytes) (ns : list node) : outcome (list node) :=
  if (length ns <? 2)%nat then Ret ns
  else let! _ := omapM (λ n, distance (n_id n) id) ns in
       Ret (go_sort (farther id) ns).

Definition closestN `{GoSort} (id : bytes) (count : Z) (t : routingTable)
    : outcome (list node) :=
  let! offset := bucketID (n_id (localNode t)) id in
  let! ns := scan_loop (closestN_body t count) scan_fuel offset 0 0 [] in
  let! ns := sort_by_distance id ns in
  if zlen ns <? count then Ret ns else go_slice ns 0 count.

Definition neighbours (t : routingTable) : outcome Z :=
  ofold (λ acc b,
    let! b := Bucket.lock b in
    let acc := acc + Z.of_nat (Bucket.size b) in
    Ret acc) 0 (buckets t).

(** ** Invariant *)

Definition wf_entry (t : routingTable) (i : nat) (n : node) : Prop :=
  valid_id (n_id n) ∧ bucket_of (n_id (localNode t)) (n_id n) = Z.of_nat i.

Definition wf (t : routingTable) : Prop :=
  valid_id (n_id (localNode t)) ∧ length (buckets t) = 256%nat ∧
  ∀ i b, buckets t !! i = Some b →
    Bucket.wf b ∧ Forall (wf_entry t i) (Bucket.live b ++ Bucket.cache b).

Definition all_live (t : routingTable) : list node :=
  buckets t ≫= Bucket.live.

(** ** The order of the scan *)

(** The offset tried in iteration [k]. *)
Definition pos (o : Z) (k : nat) : Z :=
  if Nat.even k then o - Z.of_nat k / 2 else o + (Z.of_nat k + 1) / 2.

Definition in_range (x : Z) : Prop := 0 ≤ x < 256.
Definition order (o : Z) : list Z := filter in_range (pos o <$> seq 0 scan_fuel).

Fixpoint scan_list {S} (body : S → Z → outcome (S * bool)) (s : S) (l : list Z) : outcome S :=
  match l with
  | [] => Ret s
  | x :: l =>
      let! '(s, stop) := body s x in
      if stop : bool then Ret s else scan_list body s l
  end.

Lemma even_half k : Nat.even k = true → ∃ j, k = (2 * j)%nat.
Proof. intros H%Nat.even_spec. destruct H as [j ->]. by exists j. Qed.
Lemma odd_half k : Nat.even k = false → ∃ j, k = (2 * j + 1)%nat.
Proof.
  intros H. assert (Ho : Nat.odd k = true) by (by rewrite <-Nat.negb_even, H).
  apply Nat.odd_spec in Ho. destruct Ho as [j ->]. by exists j.
Qed.

Lemma pos_even o j : pos o (2 * j) = o - Z.of_nat j.
Proof.
  unfold pos. rewrite (proj2 (Nat.even_spec _)) by (by exists j).
  rewrite Nat2Z.inj_mul, Z.mul_comm, Z.div_mul by lia. done.
Qed.
Lemma pos_0 o : pos o 0 = o.
Proof. change (pos o 0) with (o - 0). lia. Qed.
Lemma pos_odd o j : pos o (2 * j + 1) = o + Z.of_nat j + 1.
Proof.
  unfold pos. rewrite Nat.even_add, Nat.even_mul. simpl.
  replace (Z.of_nat (j + (j + 0) + 1) + 1) with ((Z.of_nat j + 1) * 2) by lia.
  rewrite Z.div_mul by lia. lia.
Qed.

Lemma pos_inj o : Inj (=) (=) (pos o).
Proof.
  intros a b. destruct (Nat.even a) eqn:Ea, (Nat.even b) eqn:Eb;
    (apply even_half in Ea as [i ->] || apply odd_half in Ea as [i ->]);
    (apply even_half in Eb as [j ->] || apply odd_half in Eb as [j ->]);
    rewrite ?pos_even, ?pos_odd; lia.
Qed.

Lemma pos_next o k :
  pos o (S k) = if Z.rem (Z.of_nat k) 2 =? 0
                then pos o k + Z.of_nat k + 1 else pos o k - Z.of_nat k - 1.
Proof.
  rewrite Z.rem_mod_nonneg by lia.
  destruct (Nat.even k) eqn:E.
  - apply even_half in E as [j ->].
    replace (S (2 * j)) with (2 * j + 1)%nat by lia. rewrite pos_odd, pos_even.
    rewrite Nat2Z.inj_mul, Z.mul_comm, Z.mod_mul by lia. simpl. lia.
  - apply odd_half in E as [j ->].
    replace (S (2 * j + 1)) with (2 * (j + 1))%nat by lia. rewrite pos_odd, pos_even.
    replace (Z.of_nat (2 * j + 1)) with (1 + Z.of_nat j * 2) by lia.
    rewrite Z.mod_add by lia. simpl. lia.
Qed.

(** Every bucket is visited, and visited once. *)
Lemma order_perm o : 0 ≤ o < 256 → order o ≡ₚ seqZ 0 256.
Proof.
  intros Ho. apply NoDup_Permutation.
  - apply NoDup_filter, NoDup_fmap_2; [apply pos_inj|apply NoDup_seq].
  - apply NoDup_seqZ.
  - intros x. unfold order. rewrite list_elem_of_filter, list_elem_of_fmap, elem_of_seqZ.
    split; [unfold in_range; lia|]. intros Hx. split; [unfold in_range; lia|].
    unfold scan_fuel. destruct (Z.le_gt_cases x o).
    + exists (2 * Z.to_nat (o - x))%nat. rewrite pos_even, elem_of_seq. lia.
    + exists (2 * Z.to_nat (x - o - 1) + 1)%nat. rewrite pos_odd, elem_of_seq. lia.
Qed.

Lemma length_order o : 0 ≤ o < 256 → length (order o) = 256%nat.
Proof. intros Ho. rewrite order_perm by done. by rewrite length_seqZ. Qed.

(** The offsets of iterations [k] to [k + n - 1] that are in range. *)
Definition window (o : Z) (k n : nat) : list Z := filter in_range (pos o <$> seq k n).

Lemma window_app o k n m : window o k (n + m) = window o k n ++ window o (k + n) m.
Proof. unfold window. by rewrite seq_app, fmap_app, filter_app. Qed.

Lemma window_step o k n :
  window o k (S n) = (if decide (in_range (pos o k)) then [pos o k] else []) ++ window o (S k) n.
Proof.
  unfold window. simpl. rewrite filter_cons. by case_decide.
Qed.

Lemma window_snoc o k :
  window o 0 (S k) = window o 0 k ++ (if decide (in_range (pos o k)) then [pos o k] else []).
Proof.
  rewrite <-Nat.add_1_r, window_app, window_step. simpl. by rewrite app_nil_r.
Qed.

(** The loop, from iteration [k] on, is a fold over the offsets still to come:
    it stops by itself once all 256 buckets are scanned, before the fuel ends. *)
Lemma scan_loop_window {S} (body : S → Z → outcome (S * bool)) o fuel k scanned s :
  0 ≤ o < 256 → (k + fuel)%nat = scan_fuel → scanned = zlen (window o 0 k) → scanned < 256 →
  scan_loop body fuel (pos o k) (Z.of_nat k) scanned s = scan_list body s (window o k fuel).
Proof.
  intros Ho. revert k scanned s. induction fuel as [|fuel IH]; intros k scanned s Hk Hsc Hlt.
  { exfalso. rewrite Nat.add_0_r in Hk. subst k scanned.
    pose proof (length_order o Ho) as Hl. unfold order in Hl. unfold zlen, window in Hlt. lia. }
  assert (Htot : zlen (window o 0 k) + zlen (window o k (Datatypes.S fuel)) = 256).
  { pose proof (length_order o Ho) as Hl. unfold order in Hl. rewrite <-Hk in Hl.
    change (length (window o 0 (k + Datatypes.S fuel)) = 256%nat) in Hl.
    rewrite window_app, length_app in Hl. unfold zlen. simpl in *. lia. }
  assert (Hnext : ∀ s', 
    let scanned' := zlen (window o 0 (Datatypes.S k)) in
    (if KEY_BITS <=? scanned' then Ret s'
     else if Z.rem (Z.of_nat k) 2 =? 0
     then scan_loop body fuel (pos o k + Z.of_nat k + 1) (Z.of_nat k + 1) scanned' s'
     else scan_loop body fuel (pos o k - Z.of_nat k - 1) (Z.of_nat k + 1) scanned' s') =
    scan_list body s' (window o (Datatypes.S k) fuel)).
  { intros s' scanned'. subst scanned'.
    assert (Hw : zlen (window o 0 (Datatypes.S k)) + zlen (window o (Datatypes.S k) fuel) = 256).
    { rewrite <-Htot, (window_step o k fuel), (window_snoc o k). unfold zlen. rewrite !length_app. lia. }
    destruct (Z.leb_spec KEY_BITS (zlen (window o 0 (Datatypes.S k)))) as [Hle|Hgt].
    - destruct (window o (Datatypes.S k) fuel); [done|]. unfold KEY_BITS, zlen in *. simpl in *. lia.
    - unfold KEY_BITS in Hgt.
      replace (Z.of_nat k + 1) with (Z.of_nat (Datatypes.S k)) by lia.
      pose proof (pos_next o k) as Hp.
      destruct (Z.rem (Z.of_nat k) 2 =? 0); rewrite <-Hp; apply IH; (done || lia). }
  cbn [scan_loop]. rewrite window_step.
  assert (Hcount : zlen (window o 0 (Datatypes.S k)) =
    scanned + if decide (in_range (pos o k)) then 1 else 0).
  { subst scanned. rewrite window_snoc. unfold zlen. rewrite length_app.
    case_decide; simpl; lia. }
  destruct (decide (in_range (pos o k))) as [Hin|Hout]; rewrite Hcount in Hnext.
  - unfold in_range in Hin.
    destruct (Z.ltb_spec (-1) (pos o k)), (Z.ltb_spec (pos o k) KEY_BITS);
      unfold KEY_BITS in *; try lia. cbn [andb app scan_list].
    destruct (body s (pos o k)) as [[s' stop]| | |]; try done. cbn [obind].
    destruct stop; [done|]. apply Hnext.
  - unfold in_range in Hout.
    destruct (Z.ltb_spec (-1) (pos o k)), (Z.ltb_spec (pos o k) KEY_BITS);
      unfold KEY_BITS in *; try lia; cbn [andb app]; rewrite Z.add_0_r in Hnext; apply Hnext.
Qed.

Lemma scan_loop_order {S} (body : S → Z → outcome (S * bool)) o s :
  0 ≤ o < 256 → scan_loop body scan_fuel o 0 0 s = scan_list body s (order o).
Proof.
  intros Ho. change (order o) with (window o 0 scan_fuel).
  rewrite <-(scan_loop_window body o scan_fuel 0 0 s) by done. by rewrite pos_0.
Qed.

(** The target's own bucket comes first. *)
Lemma order_head o : 0 ≤ o < 256 → ∃ l, order o = o :: l.
Proof.
  intros Ho. unfold order. change scan_fuel with (Datatypes.S 511).
  fold (window o 0 (Datatypes.S 511)). rewrite window_step, pos_0.
  rewrite decide_True by done. eexists. done.
Qed.

(** ** Lookups in a well-formed table *)

Definition live_at (t : routingTable) (i : Z) : list node :=
  match buckets t !! Z.to_nat i with Some b => Bucket.live b | None => [] end.

(** The first maximum the visitor keeps. *)
Lemma closest_visit_best id l :
  valid_id id → (∀ n, n ∈ l → valid_id (n_id n)) →
  ∃ cd cn, ofold (closest_visit id) (0, None) l = Ret (cd, cn) ∧
    match cn with
    | None => l = [] ∧ cd = 0
    | Some n => n ∈ l ∧ cd = shared_prefix (n_id n) id ∧
        ∀ y, y ∈ l → shared_prefix (n_id y) id ≤ cd
    end.
Proof.
  intros Hid. induction l as [|x l IH] using rev_ind; intros Hl.
  { by exists 0, None. }
  destruct IH as (cd & cn & E & H); [set_solver|].
  assert (Hx : valid_id (n_id x)) by set_solver.
  rewrite ofold_app, E. cbn [obind ofold]. unfold closest_visit.
  rewrite distance_shared_prefix by done. cbn [obind fst].
  pose proof (shared_prefix_range (n_id x) id Hx Hid).
  destruct (Z.eqb_spec cd 0) as [Hc|Hc], (Z.ltb_spec cd (shared_prefix (n_id x) id));
    cbn [orb];
    eexists _, _; (split; [done|]).
  1-3: split_and!; [set_solver|done|]; intros y [Hy|Hy%list_elem_of_singleton]%elem_of_app;
    [|subst; lia]; destruct cn as [n|]; [destruct H as (_ & -> & H); specialize (H y Hy); lia|
      destruct H as [-> _]; set_solver].
  destruct cn as [n|]; [|lia]. destruct H as (Hn & Hcd & Hmax).
  split_and!; [set_solver|done|]. intros y [Hy|Hy%list_elem_of_singleton]%elem_of_app; [auto|].
  subst; lia.
Qed.

Section lookups.
Context (t : routingTable) (Hwf : wf t).

Lemma bucket_at i :
  in_range i → ∃ b, go_index (buckets t) i = Ret b ∧ Bucket.wf b ∧ Bucket.live b = live_at t i.
Proof.
  destruct Hwf as (_ & Hlen & Hb). unfold in_range. intros Hi.
  destruct (lookup_lt_is_Some_2 (buckets t) (Z.to_nat i)) as [b E]; [lia|].
  exists b. split_and!; [|by eapply Hb|unfold live_at; by rewrite E].
  rewrite <-(Z2Nat.id i) by lia. by apply go_index_Some.
Qed.

Lemma live_at_entry i n :
  n ∈ live_at t i → in_range i →
  valid_id (n_id n) ∧ bucket_of (n_id (localNode t)) (n_id n) = i.
Proof.
  destruct Hwf as (_ & _ & Hb). unfold live_at, in_range. intros Hn Hi.
  destruct (buckets t !! Z.to_nat i) as [b|] eqn:E; [|set_solver].
  destruct (Hb _ _ E) as [_ HF]. rewrite Forall_forall in HF.
  destruct (HF n) as [??]; [set_solver|]. split; [done|lia].
Qed.

Lemma all_live_perm o : in_range o → all_live t ≡ₚ order o ≫= live_at t.
Proof.
  intros Ho. rewrite (order_perm o Ho). unfold all_live.
  destruct Hwf as (_ & Hlen & _).
  assert (E : Some <$> buckets t = (λ i, buckets t !! Z.to_nat i) <$> seqZ 0 256).
  { apply list_eq. intros j. rewrite !list_lookup_fmap.
    destruct (decide (j < 256)%nat).
    - rewrite lookup_seqZ_lt by lia. cbn [fmap option_fmap option_map].
      replace (Z.to_nat (0 + Z.of_nat j)) with j by lia. by destruct (lookup_lt_is_Some_2 (buckets t) j) as [b ->]; [lia|].
    - rewrite lookup_seqZ_ge by lia. by rewrite lookup_ge_None_2 by lia. }
  replace (seqZ 0 256 ≫= live_at t) with
    (((λ i, buckets t !! Z.to_nat i) <$> seqZ 0 256) ≫=
      λ o, match o with Some b => Bucket.live b | None => [] end).
  - rewrite <-E. clear. induction (buckets t); csimpl; [done|]. by f_equiv.
  - clear. induction (seqZ 0 256); csimpl; [done|]. by f_equal.
Qed.

Lemma elem_of_all_live n : n ∈ all_live t ↔ ∃ i, in_range i ∧ n ∈ live_at t i.
Proof.
  rewrite (all_live_perm 0) by done. rewrite list_elem_of_bind.
  split.
  - intros (i & Hn & Hi). exists i. split; [|done].
    rewrite (order_perm 0), elem_of_seqZ in Hi by lia. unfold in_range. lia.
  - intros (i & Hi & Hn). exists i. split; [done|].
    rewrite (order_perm 0), elem_of_seqZ by lia. unfold in_range in Hi. lia.
Qed.

Lemma all_live_valid n : n ∈ all_live t → valid_id (n_id n).
Proof. intros (i & Hi & Hn)%elem_of_all_live. by eapply live_at_entry. Qed.

(** What one step of [closest] sees. *)
Lemma closest_body_spec id s i :
  valid_id id → in_range i →
  ∃ cn, closest_body t id s i = Ret (cn, bool_decide (is_Some cn)) ∧
    match cn with
    | None => live_at t i = []
    | Some n => n ∈ live_at t i ∧
        ∀ y, y ∈ live_at t i → shared_prefix (n_id y) id ≤ shared_prefix (n_id n) id
    end.
Proof.
  intros Hid Hi. destruct (bucket_at i Hi) as (b & E & Hb & Hl).
  destruct (closest_visit_best id (live_at t i) Hid) as (cd & cn & Ef & H).
  { intros n Hn. by eapply live_at_entry. }
  unfold closest_body. rewrite E. cbn [obind].
  rewrite Bucket.iterate_visitor, Hl, Ef by done. cbn [obind]. exists cn. split; [done|].
  destruct cn as [n|]; [|tauto]. destruct H as (? & -> & ?). done.
Qed.

Lemma closest_scan id l s :
  valid_id id → (∀ i, i ∈ l → in_range i) → s = None →
  ∃ r, scan_list (closest_body t id) s l = Ret r ∧
    match r with
    | None => ∀ i, i ∈ l → live_at t i = []
    | Some n => ∃ l1 i l2, l = l1 ++ i :: l2 ∧ (∀ j, j ∈ l1 → live_at t j = []) ∧
        n ∈ live_at t i ∧
        ∀ y, y ∈ live_at t i → shared_prefix (n_id y) id ≤ shared_prefix (n_id n) id
    end.
Proof.
  intros Hid. revert s. induction l as [|i l IH]; intros s Hl ->.
  { exists None. set_solver. }
  destruct (closest_body_spec id None i Hid) as (cn & E & H); [set_solver|].
  cbn [scan_list]. rewrite E. cbn [obind]. destruct cn as [n|]; simpl.
  - exists (Some n). split; [done|]. exists [], i, l. set_solver.
  - destruct (IH None) as (r & Er & Hr); [set_solver|done|]. exists r. split; [done|].
    destruct r as [n|]; [|set_solver].
    destruct Hr as (l1 & j & l2 & -> & Hl1 & Hn). exists (i :: l1), j, l2. set_solver.
Qed.
End lookups.

(** ** Operations on a well-formed table *)

Definition cache_at (t : routingTable) (i : Z) : list node :=
  match buckets t !! Z.to_nat i with Some b => Bucket.cache b | None => [] end.

(** The entries of a bucket, live and cached. *)
Definition entries_at (t : routingTable) (i : Z) : list node := live_at t i ++ cache_at t i.

Definition home (t : routingTable) (id : bytes) : Z := bucket_of (n_id (localNode t)) id.

Lemma home_range t id : wf t → valid_id id → in_range (home t id).
Proof. intros (Hl & _) Hid. by apply bucket_of_range. Qed.

(** An operation on one bucket that brings in no identifier but its own. *)
Lemma on_bucket_spec {A} t id (f : Bucket.bucket → outcome (A * Bucket.bucket)) b r b' :
  wf t → valid_id id → buckets t !! Z.to_nat (home t id) = Some b →
  f b = Ret (r, b') → Bucket.wf b' →
  (∀ x, x ∈ Bucket.ids (Bucket.live b' ++ Bucket.cache b') →
     x = id ∨ x ∈ Bucket.ids (Bucket.live b ++ Bucket.cache b)) →
  ∃ t', on_bucket id f t = Ret (r, t') ∧ wf t' ∧ localNode t' = localNode t ∧
    buckets t' = <[Z.to_nat (home t id) := b']> (buckets t).
Proof.
  intros Hwf Hid Hb Hf Hb' Hids. pose proof (home_range t id Hwf Hid) as Hr.
  pose proof Hwf as (Hl & Hlen & HB). unfold in_range in Hr.
  assert (Ei : bucketID (n_id (localNode t)) id = Ret (Z.of_nat (Z.to_nat (home t id)))).
  { rewrite bucketID_bucket_of by done. f_equal. unfold home in *. lia. }
  unfold on_bucket. rewrite Ei. cbn [obind]. go_read Hb.
  rewrite Hf, Nat2Z.id. cbn [obind]. eexists. split; [done|]. split_and!; [|done..].
  split_and!; [done|simpl; by rewrite length_insert|]. simpl. intros j c Hj.
  apply list_lookup_insert_Some in Hj as [(<- & <- & _)|[Hne Hj]]; [|by apply HB].
  split; [done|]. rewrite Forall_forall. intros n Hn.
  destruct (HB _ _ Hb) as [_ HF]. rewrite Forall_forall in HF.
  destruct (Hids (n_id n)) as [E|E]; [by apply list_elem_of_fmap_2| |].
  - unfold wf_entry. simpl. rewrite E. split; [done|]. unfold home in *. lia.
  - apply list_elem_of_fmap in E as (m & Em & Hm). unfold wf_entry. simpl. rewrite Em.
    by apply HF.
Qed.

Lemma home_bucket t id :
  wf t → valid_id id →
  ∃ b, buckets t !! Z.to_nat (home t id) = Some b ∧ Bucket.wf b ∧
    Bucket.live b = live_at t (home t id) ∧ Bucket.cache b = cache_at t (home t id).
Proof.
  intros Hwf Hid. pose proof (home_range t id Hwf Hid). unfold in_range in *.
  pose proof Hwf as (_ & Hlen & HB).
  destruct (lookup_lt_is_Some_2 (buckets t) (Z.to_nat (home t id))) as [b Hb]; [lia|].
  exists b. split_and!; [done|by eapply HB|unfold live_at|unfold cache_at]; by rewrite Hb.
Qed.

Lemma updated_at t t' i b :
  in_range i → length (buckets t) = 256%nat → buckets t' = <[Z.to_nat i := b]> (buckets t) →
  live_at t' i = Bucket.live b ∧ cache_at t' i = Bucket.cache b ∧
  ∀ j, in_range j → j ≠ i → live_at t' j = live_at t j ∧ cache_at t' j = cache_at t j.
Proof.
  unfold in_range. intros Hi Hlen E. unfold live_at, cache_at. rewrite E.
  rewrite list_lookup_insert_eq by lia. split_and!; [done..|].
  intros j Hj Hne. rewrite list_lookup_insert_ne by lia. done.
Qed.

Lemma table_insert_spec now id addr lat tm t :
  wf t → valid_id id →
  ∃ t', insert now id addr lat tm t = Ret t' ∧ wf t' ∧ localNode t' = localNode t ∧
    (live_at t' (home t id), cache_at t' (home t id)) =
      Bucket.spec_insert now id addr lat tm (live_at t (home t id)) (cache_at t (home t id)) ∧
    ∀ j, in_range j → j ≠ home t id → live_at t' j = live_at t j ∧ cache_at t' j = cache_at t j.
Proof.
  intros Hwf Hid. destruct (home_bucket t id Hwf Hid) as (b & Hb & Hbwf & El & Ec).
  destruct (Bucket.insert_spec now id addr lat tm b Hbwf) as (b' & E & Hbwf' & _ & Hs).
  rewrite El, Ec in Hs.
  destruct (on_bucket_spec t id _ b true b' Hwf Hid Hb E Hbwf') as (t' & Et & Hwf' & Hl & Hbs).
  { intros x. rewrite El, Ec. assert (Hnd : NoDup (Bucket.ids (live_at t (home t id))))
      by (rewrite <-El; apply Hbwf).
    pose proof (Bucket.spec_insert_ids now id addr lat tm _ (cache_at t (home t id)) x Hnd) as H.
    rewrite <-Hs in H. simpl in H. by rewrite H. }
  exists t'. unfold insert. rewrite Et. cbn [obind].
  destruct (updated_at t t' (home t id) b') as (E1 & E2 & E3);
    [by apply home_range|apply Hwf|done|]. rewrite E1, E2. by split_and!.
Qed.

Lemma table_seen_lists now id t :
  wf t → valid_id id →
  ∃ r t', seen now id t = Ret (r, t') ∧ wf t' ∧ localNode t' = localNode t ∧
    (r, (live_at t' (home t id), cache_at t' (home t id))) =
      Bucket.spec_seen now id (live_at t (home t id)) (cache_at t (home t id)) ∧
    ∀ j, in_range j → j ≠ home t id → live_at t' j = live_at t j ∧ cache_at t' j = cache_at t j.
Proof.
  intros Hwf Hid. destruct (home_bucket t id Hwf Hid) as (b & Hb & Hbwf & El & Ec).
  destruct (Bucket.seen_spec now id b Hbwf) as (r & b' & E & Hbwf' & _ & Hs).
  destruct (Bucket.spec_seen_ids now id (Bucket.live b) (Bucket.cache b)) as (H1 & H2 & _).
  rewrite <-Hs in H1, H2. simpl in H1, H2.
  destruct (on_bucket_spec t id _ b r b' Hwf Hid Hb E Hbwf') as (t' & Et & Hwf' & Hl & Hbs).
  { intros x. unfold Bucket.ids in *. rewrite !fmap_app, H1, H2. auto. }
  destruct (updated_at t t' (home t id) b') as (E1 & E2 & E3);
    [by apply home_range|apply Hwf|done|].
  exists r, t'. rewrite E1, E2, <-El, <-Ec. by split_and!.
Qed.

Lemma table_seen_spec now id t :
  wf t → valid_id id →
  ∃ t', seen now id t = Ret (bool_decide (id ∈ Bucket.ids (entries_at t (home t id))), t') ∧
    wf t' ∧ localNode t' = localNode t ∧
    ∀ j, in_range j → Bucket.ids (live_at t' j) = Bucket.ids (live_at t j) ∧
      Bucket.ids (cache_at t' j) = Bucket.ids (cache_at t j).
Proof.
  intros Hwf Hid. destruct (table_seen_lists now id t Hwf Hid) as (r & t' & E & Hwf' & Hl & Hs & Hj).
  destruct (Bucket.spec_seen_ids now id (live_at t (home t id)) (cache_at t (home t id)))
    as (H1 & H2 & H3). rewrite <-Hs in H1, H2, H3. simpl in H1, H2, H3.
  exists t'. unfold entries_at. rewrite <-H3. split_and!; [done..|].
  intros j Hr. destruct (decide (j = home t id)) as [->|Hne]; [by rewrite H1, H2|].
  by destruct (Hj j Hr Hne) as [-> ->].
Qed.

Lemma table_remove_spec id t :
  wf t → valid_id id →
  ∃ t', remove id t = Ret t' ∧ wf t' ∧ localNode t' = localNode t ∧
    live_at t' (home t id) = Bucket.spec_remove id (live_at t (home t id)) ∧
    cache_at t' (home t id) = cache_at t (home t id) ∧
    ∀ j, in_range j → j ≠ home t id → live_at t' j = live_at t j ∧ cache_at t' j = cache_at t j.
Proof.
  intros Hwf Hid. destruct (home_bucket t id Hwf Hid) as (b & Hb & Hbwf & El & Ec).
  destruct (Bucket.remove_locked_spec id b Hbwf) as (b' & E & Hbwf' & _ & H1 & H2).
  destruct (on_bucket_spec t id _ b _ b' Hwf Hid Hb E Hbwf') as (t' & Et & Hwf' & Hl & Hbs).
  { intros x. rewrite H1, H2. unfold Bucket.ids. rewrite !fmap_app.
    intros [Hx|Hx]%elem_of_app; right; [|set_solver].
    apply list_elem_of_fmap in Hx as (m & -> & [_ Hm]%list_elem_of_filter).
    apply elem_of_app. left. by apply list_elem_of_fmap_2. }
  exists t'. unfold remove. rewrite Et. cbn [obind].
  destruct (updated_at t t' (home t id) b') as (E1 & E2 & E3);
    [by apply home_range|apply Hwf|done|].
  rewrite E1, E2, H1, H2, El, Ec. by split_and!.
Qed.

Lemma remove_not_live id t :
  wf t → valid_id id →
  ∃ t', remove id t = Ret t' ∧ wf t' ∧ (id ∉ Bucket.ids (all_live t')).
Proof.
  intros Hwf Hid. destruct (table_remove_spec id t Hwf Hid) as (t' & E & Hwf' & Hl & H1 & _ & _).
  exists t'. split_and!; [done..|].
  intros (m & Em & (i & Hi & Hm)%(elem_of_all_live t' Hwf'))%list_elem_of_fmap.
  destruct (live_at_entry t' Hwf' i m Hm Hi) as [_ Hb]. rewrite <-Em in Hb.
  assert (home t id = i) as <- by (unfold home; rewrite <-Hl; exact Hb).
  rewrite H1 in Hm. apply list_elem_of_filter in Hm as [Hm _]. by rewrite Em in Hm.
Qed.

(** ** closestN *)

Lemma ofold_collect ns l : ofold collect ns l = Ret (ns ++ l).
Proof.
  revert ns. induction l as [|x l IH]; intros ns; simpl; [by rewrite app_nil_r|].
  by rewrite IH, <-app_assoc.
Qed.

Lemma closestN_body_spec t count ns i :
  wf t → in_range i →
  closestN_body t count ns i =
    Ret (ns ++ live_at t i, count <=? zlen (ns ++ live_at t i)).
Proof.
  intros Hwf Hi. destruct (bucket_at t Hwf i Hi) as (b & E & Hb & Hl).
  unfold closestN_body. rewrite E. cbn [obind].
  by rewrite Bucket.iterate_visitor, ofold_collect, Hl by done.
Qed.

(** The scan collects whole buckets until it has enough nodes. *)
Lemma closestN_scan t count l ns :
  wf t → (∀ i, i ∈ l → in_range i) →
  ∃ l1 l2, l = l1 ++ l2 ∧
    scan_list (closestN_body t count) ns l = Ret (ns ++ (l1 ≫= live_at t)) ∧
    (l2 = [] ∨ count ≤ zlen (ns ++ (l1 ≫= live_at t))) ∧
    (∀ i l', l = i :: l' → count ≤ zlen (ns ++ live_at t i) → l1 = [i]).
Proof.
  intros Hwf. revert ns. induction l as [|i l IH]; intros ns Hl.
  { exists [], []. simpl. rewrite app_nil_r. split_and!; auto. done. }
  cbn [scan_list]. rewrite closestN_body_spec by (done || set_solver). cbn [obind].
  destruct (Z.leb_spec count (zlen (ns ++ live_at t i))).
  - exists [i], l. cbn. rewrite app_nil_r. split_and!; auto. by intros ?? [= <- <-].
  - destruct (IH (ns ++ live_at t i)) as (l1 & l2 & -> & -> & Hc & _); [set_solver|].
    exists (i :: l1), l2. cbn. rewrite app_assoc. split_and!; auto.
    intros ?? [= <- <-]. lia.
Qed.

Section closestN.
Context `{GoSort}.

Lemma sort_by_distance_spec id ns :
  valid_id id → (∀ n, n ∈ ns → valid_id (n_id n)) →
  ∃ ns', sort_by_distance id ns = Ret ns' ∧ ns' ≡ₚ ns ∧
    StronglySorted (λ x y, shared_prefix (n_id y) id ≤ shared_prefix (n_id x) id) ns'.
Proof.
  intros Hid Hv. unfold sort_by_distance. destruct (Nat.ltb_spec (length ns) 2).
  { exists ns. split_and!; [done..|].
    destruct ns as [|x [|y ns]]; simpl in *; [repeat constructor..|lia]. }
  rewrite (omapM_pure _ (λ n, shared_prefix (n_id n) id))
    by (intros; rewrite distance_shared_prefix by auto; done).
  cbn [obind]. eexists. split; [done|]. split; [apply go_sort_perm|].
  pose proof (go_sort_sorted (farther id) ns (swo_key (distance_or id))) as Hs.
  assert (Hv' : ∀ n, n ∈ go_sort (farther id) ns → valid_id (n_id n)).
  { intros n. rewrite go_sort_perm. apply Hv. }
  revert Hs Hv'. generalize (go_sort (farther id) ns). clear -Hid.
  induction 1 as [|x l Hl IH Hx]; intros Hv; constructor; [apply IH; set_solver|].
  rewrite Forall_forall in Hx |- *. intros y Hy. specialize (Hx y Hy). simpl in Hx.
  unfold farther, distance_or in Hx.
  rewrite !distance_shared_prefix in Hx by (done || apply Hv; set_solver).
  by apply Z.ltb_ge in Hx.
Qed.

(** The nodes returned are the best [count] of those collected. *)
Lemma closestN_result t id count :
  wf t → valid_id id → 0 ≤ count →
  ∃ l1 l2 ns, order (home t id) = l1 ++ l2 ∧
    (l2 = [] ∨ count ≤ zlen (l1 ≫= live_at t)) ∧
    (count ≤ zlen (live_at t (home t id)) → l1 = [home t id]) ∧
    ns ≡ₚ (l1 ≫= live_at t) ∧
    StronglySorted (λ x y, shared_prefix (n_id y) id ≤ shared_prefix (n_id x) id) ns ∧
    closestN id count t = Ret (take (Z.to_nat count) ns).
Proof.
  intros Hwf Hid Hc. pose proof (home_range t id Hwf Hid) as Hr.
  assert (Hin : ∀ i, i ∈ order (home t id) → in_range i).
  { intros i. unfold order. rewrite list_elem_of_filter. tauto. }
  destruct (closestN_scan t count (order (home t id)) [] Hwf Hin)
    as (l1 & l2 & Eo & Es & Hl2 & Hhd).
  destruct (sort_by_distance_spec id (l1 ≫= live_at t) Hid) as (ns & Esort & Hperm & Hs).
  { intros n (i & Hn & Hi)%list_elem_of_bind. eapply live_at_entry; [done|done|].
    apply Hin. rewrite Eo. set_solver. }
  exists l1, l2, ns. split_and!; [done..| |done|done|].
  - intros Hle. destruct (order_head _ Hr) as [l E]. by apply (Hhd _ _ E).
  - unfold closestN. rewrite bucketID_bucket_of by (done || apply Hwf). cbn [obind].
    change (bucket_of (n_id (localNode t)) id) with (home t id).
    rewrite scan_loop_order by done. rewrite Es. simpl app. cbn [obind]. rewrite Esort.
    cbn [obind]. unfold zlen. destruct (Z.ltb_spec (Z.of_nat (length ns)) count).
    + by rewrite take_ge by lia.
    + rewrite <-(Z2Nat.id count) at 1 by done. rewrite (go_slice_ok ns 0) by lia.
      by rewrite Nat.sub_0_r.
Qed.
End closestN.

Lemma live_prefix_submseteq t o l1 l2 :
  wf t → in_range o → order o = l1 ++ l2 → (l1 ≫= live_at t) ⊆+ all_live t.
Proof.
  intros Hwf Ho E. rewrite (all_live_perm t Hwf o Ho), E, bind_app.
  apply submseteq_inserts_r. reflexivity.
Qed.

(** ** neighbours *)

Lemma neighbours_spec t : wf t → neighbours t = Ret (zlen (all_live t)).
Proof.
  intros (_ & _ & HB). unfold neighbours, all_live.
  assert (HF : Forall Bucket.wf (buckets t)).
  { rewrite Forall_lookup. intros i b Hb. by eapply HB. }
  clear HB. enough (∀ acc, ofold (λ acc b, let! b := Bucket.lock b in
      let acc := acc + Z.of_nat (Bucket.size b) in Ret acc) acc (buckets t) =
    Ret (acc + zlen (buckets t ≫= Bucket.live))) as ->; [done|].
  induction HF as [|b bs Hb _ IH]; intros acc; simpl; [f_equal; unfold zlen; simpl; lia|].
  unfold Bucket.lock at 1. destruct (Bucket.wf_shape b Hb) as [rest (_ & Hs & _)].
  assert (Bucket.mu b = false) as -> by apply Hb. cbn [obind]. rewrite IH.
  f_equal. unfold zlen. rewrite length_app.
  change (Bucket.size (Bucket.set_mu true b)) with (Bucket.size b). unfold mbind. lia.
Qed.

(** Live nodes have distinct identifiers, also across buckets. *)
Lemma all_live_nodup t : wf t → NoDup (Bucket.ids (all_live t)).
Proof.
  intros Hwf. unfold Bucket.ids. rewrite (all_live_perm t Hwf 0) by done.
  assert (E : n_id <$> (order 0 ≫= live_at t) = order 0 ≫= (λ i, Bucket.ids (live_at t i))).
  { generalize (order 0). induction l; csimpl; [done|]. rewrite fmap_app. by f_equal. }
  assert (Hr : ∀ i, i ∈ order 0 → in_range i).
  { intros i. unfold order. rewrite list_elem_of_filter. tauto. }
  rewrite E. apply NoDup_bind.
  - intros i j x Hi Hj Hx Hy. unfold Bucket.ids in *.
    apply list_elem_of_fmap in Hx as (m & -> & Hm). apply list_elem_of_fmap in Hy as (n & En & Hn).
    apply (live_at_entry t Hwf) in Hm as [_ <-]; [|auto].
    apply (live_at_entry t Hwf) in Hn as [_ <-]; [|auto]. by rewrite En.
  - intros i Hi. destruct (bucket_at t Hwf i (Hr i Hi)) as (b & _ & Hb & <-). apply Hb.
  - rewrite (order_perm 0) by lia. apply NoDup_seqZ.
Qed.

Lemma wf_newRoutingTable n : valid_id (n_id n) → wf (newRoutingTable n).
Proof.
  intros Hn. unfold newRoutingTable.
  split_and!; [done|cbn [buckets]; by rewrite length_replicate|].
  cbn [buckets]. intros i b Hb. apply lookup_replicate in Hb as [-> _].
  split; [apply Bucket.wf_empty|constructor].
Qed.

(** ** Sequences of operations *)

Inductive op :=
  | OpInsert (now : Z) (id : bytes) (addr : option UDPAddr) (lat : Z) (tm : bool)
  | OpSeen (now : Z) (id : bytes)
  | OpRemove (id : bytes).

Definition op_id (o : op) : bytes :=
  match o with OpInsert _ id _ _ _ => id | OpSeen _ id => id | OpRemove id => id end.

Definition step (t : routingTable) (o : op) : outcome routingTable :=
  match o with
  | OpInsert now id addr lat tm => insert now id addr lat tm t
  | OpSeen now id => let! '(_, t) := seen now id t in Ret t
  | OpRemove id => remove id t
  end.

Lemma step_wf t o : wf t → valid_id (op_id o) → ∃ t', step t o = Ret t' ∧ wf t'.
Proof.
  intros Hwf. destruct o as [now id addr lat tm|now id|id]; simpl; intros Hid.
  - destruct (table_insert_spec now id addr lat tm t Hwf Hid) as (t' & E & H & _). eauto.
  - destruct (table_seen_spec now id t Hwf Hid) as (t' & E & H & _). rewrite E. simpl. eauto.
  - destruct (table_remove_spec id t Hwf Hid) as (t' & E & H & _). eauto.
Qed.

Lemma reachable_wf n ops t :
  valid_id (n_id n) → Forall (λ o, valid_id (op_id o)) ops →
  ofold step (newRoutingTable n) ops = Ret t → wf t.
Proof.
  intros Hn Hops E. destruct (ofold_inv wf step (newRoutingTable n) ops) as (t' & E' & Hwf).
  - by apply wf_newRoutingTable.
  - intros u o Ho Hwf. apply step_wf; [done|]. by eapply Forall_forall in Hops.
  - congruence.
Qed.

(** ** Bucket 0

    Only the local identifier and the one that differs from it in the last bit
    belong there, so the bucket is never full. *)
Lemma bucket_of_0 l x : valid_id l → valid_id x → bucket_of l x = 0 → xor_metric l x = 0 ∨ xor_metric l x = 1.
Proof.
  intros Hl Hx E. pose proof (xor_metric_range l x Hl Hx). unfold bucket_of, bitlen in E.
  destruct (Z.eqb_spec (xor_metric l x) 0); [by left|]. right.
  pose proof (Z.log2_spec (xor_metric l x) ltac:(lia)). pose proof (Z.log2_nonneg (xor_metric l x)).
  replace (Z.log2 (xor_metric l x)) with 0 in * by lia. simpl in *. lia.
Qed.

Lemma bucket0_small t b : wf t → buckets t !! 0%nat = Some b → (length (Bucket.live b) ≤ 2)%nat.
Proof.
  intros (Hl & _ & Hb) Hb0. destruct (Hb 0%nat b Hb0) as [Hwf He].
  assert (Hnd : NoDup (Bucket.ids (Bucket.live b))) by apply Hwf.
  apply Forall_app in He as [He _].
  destruct (Bucket.live b) as [|x [|y [|z r]]]; simpl; try lia. exfalso.
  apply Forall_cons_1 in He as [[Hx Ex] He]. apply Forall_cons_1 in He as [[Hy Ey] He].
  apply Forall_cons_1 in He as [[Hz Ez] _]. cbn in Ex, Ey, Ez.
  apply bucket_of_0 in Ex, Ey, Ez; try done.
  assert (Hd : ∀ u v, valid_id u → valid_id v → xor_metric (n_id (localNode t)) u =
    xor_metric (n_id (localNode t)) v → u = v).
  { intros u v Hu Hv Eq. apply xor_metric_0; [done..|].
    by rewrite (xor_metric_via u (n_id (localNode t)) v), Eq, Z.lxor_nilpotent. }
  cbn in Hnd. apply NoDup_cons in Hnd as [Hn1 Hnd]. apply NoDup_cons in Hnd as [Hn2 _].
  assert (n_id x ≠ n_id y ∧ n_id x ≠ n_id z ∧ n_id y ≠ n_id z) as (? & ? & ?) by set_solver.
  destruct Ex as [Ex|Ex], Ey as [Ey|Ey], Ez as [Ez|Ez];
    by first [assert (n_id x = n_id y) by (apply Hd; [done..|congruence])
             |assert (n_id x = n_id z) by (apply Hd; [done..|congruence])
             |assert (n_id y = n_id z) by (apply Hd; [done..|congruence])].
Qed.

Definition last_nil0 (t : routingTable) : Prop :=
  ∃ b, buckets t !! 0%nat = Some b ∧ Bucket.last_nil b.

(** An operation of the table is one of the bucket it selects. *)
Definition bucket_op (o : op) : Bucket.op :=
  match o with
  | OpInsert now id addr lat tm => Bucket.OpInsert now id addr lat tm
  | OpSeen now id => Bucket.OpSeen now id
  | OpRemove id => Bucket.OpRemove id
  end.

Lemma step_bucket t o t' :
  step t o = Ret t' → ∃ i b b', go_index (buckets t) i = Ret b ∧ Bucket.step b (bucket_op o) = Ret b' ∧
    buckets t' = <[Z.to_nat i := b']> (buckets t) ∧ localNode t' = localNode t.
Proof.
  intros E. assert (H : ∀ A id (f : Bucket.bucket → outcome (A * Bucket.bucket)),
    (let! '(_, t) := on_bucket id f t in Ret t) = Ret t' →
    ∃ i b b', go_index (buckets t) i = Ret b ∧ (let! '(_, b) := f b in Ret b) = Ret b' ∧
      buckets t' = <[Z.to_nat i := b']> (buckets t) ∧ localNode t' = localNode t).
  { clear. intros A id f E. unfold on_bucket in E. apply obind_Ret in E as ([r u] & E & [= <-]).
    apply obind_Ret in E as (i & _ & E). apply obind_Ret in E as (b & Hb & E).
    apply obind_Ret in E as ([r' b'] & Hf & [= _ <-]). exists i, b, b'. by rewrite Hf. }
  destruct o; apply H in E; exact E.
Qed.

(** A bucket may be replaced by one that knows no other identifiers. *)
Lemma put_bucket_wf t t' i b b' :
  wf t → go_index (buckets t) i = Ret b → buckets t' = <[Z.to_nat i := b']> (buckets t) →
  localNode t' = localNode t → Bucket.wf b' →
  (∀ n, n ∈ Bucket.live b' ++ Bucket.cache b' → n_id n ∈ Bucket.ids (Bucket.live b ++ Bucket.cache b)) →
  wf t'.
Proof.
  intros (Hl & Hlen & HB) Hi%go_index_lookup Eb El Hb' Hids. rename Hi into Hb.
  destruct (HB _ _ Hb) as [_ HF]. unfold wf, wf_entry in *. rewrite Eb, El.
  split_and!; [done|by rewrite length_insert|]. intros j c Hj.
  apply list_lookup_insert_Some in Hj as [(<- & <- & _)|[_ Hj]]; [|by apply HB]. split; [done|].
  rewrite Forall_forall in HF |- *. intros n Hn. apply Hids in Hn.
  apply list_elem_of_fmap in Hn as (m & Em & Hm). rewrite Em. by apply HF.
Qed.

(** Only an insertion can bring in an identifier. *)
Lemma step_wf_any t o t' :
  wf t → step t o = Ret t' → (∀ now id addr lat tm, o = OpInsert now id addr lat tm → valid_id id) →
  wf t' ∧ localNode t' = localNode t.
Proof.
  intros Hwf E Hv. destruct (step_bucket t o t' E) as (i & b & b' & Hi & Hs & Eb & El). split; [|done].
  assert (Hins : (∃ now id addr lat tm, o = OpInsert now id addr lat tm) ∨ ∀ now id addr lat tm, o ≠ OpInsert now id addr lat tm)
    by (destruct o; [left; eauto 10|by right..]).
  destruct Hins as [(now & id & addr & lat & tm & ->)|Hins].
  { destruct (step_wf t (OpInsert now id addr lat tm) Hwf) as (t1 & E1 & Hwf1); [by eapply Hv|]. congruence. }
  assert (Hbwf : Bucket.wf b).
  { apply go_index_lookup in Hi. by apply Hwf in Hi as [? _]. }
  destruct (Bucket.step_refines b (bucket_op o) Hbwf) as (b1 & E1 & Hwf1 & Hspec). rewrite Hs in E1. injection E1 as <-.
  eapply put_bucket_wf; [done..|]. intros n Hn. pose proof (f_equal fst Hspec) as Elv. pose proof (f_equal snd Hspec) as Ech.
  destruct o as [now id addr lat tm|now id|id]; [by edestruct Hins| |]; cbn in Elv, Ech.
  - destruct (Bucket.spec_seen_ids now id (Bucket.live b) (Bucket.cache b)) as (S1 & S2 & _).
    unfold Bucket.ids in *. rewrite <-Elv in S1. rewrite <-Ech in S2.
    rewrite fmap_app, <-S1, <-S2, <-fmap_app. by apply list_elem_of_fmap_2.
  - rewrite Elv, Ech in Hn. apply list_elem_of_fmap_2. apply elem_of_app in Hn as [Hn|Hn]; apply elem_of_app;
      [left; by apply list_elem_of_filter in Hn as [_ ?]|by right].
Qed.

(** What holds of the address of every entry. *)
Definition addresses (P : option UDPAddr → Prop) (t : routingTable) : Prop :=
  Forall (λ b, Forall (P ∘ n_address) (Bucket.live b ++ Bucket.cache b)) (buckets t).

Lemma table_step_addresses (P : option UDPAddr → Prop) t o t' :
  wf t → step t o = Ret t' → (∀ now id addr lat tm, o = OpInsert now id addr lat tm → P addr) →
  addresses P t → addresses P t'.
Proof.
  intros (_ & _ & HB) E Hv Ha. destruct (step_bucket t o t' E) as (i & b & b' & Hi & Hs & Eb & _).
  apply go_index_lookup in Hi. unfold addresses. rewrite Eb. apply Forall_insert; [done|].
  apply (Bucket.step_addresses P b (bucket_op o)); [by eapply HB|done| |by eapply Forall_lookup_1 in Ha].
  intros now id addr lat tm Ho. destruct o; cbn in Ho; simplify_eq. by eapply Hv.
Qed.

Lemma addresses_live P t n : addresses P t → n ∈ all_live t → P (n_address n).
Proof.
  unfold addresses, all_live. rewrite list_elem_of_bind. intros Ha (b & Hn & Hb).
  rewrite Forall_forall in Ha. specialize (Ha b Hb). rewrite Forall_forall in Ha.
  apply (Ha n). set_solver.
Qed.

Lemma step_last_nil0 t o t' : wf t → step t o = Ret t' → last_nil0 t → last_nil0 t'.
Proof.
  intros Hwf E (b0 & Hb0 & Hl). destruct (step_bucket t o t' E) as (i & b & b' & Hi & Hs & Eb & _).
  unfold last_nil0. rewrite Eb. destruct (decide (Z.to_nat i = 0%nat)) as [E0|E0].
  - rewrite E0. assert (b = b0) as ->.
    { apply go_index_lookup in Hi. rewrite E0, Hb0 in Hi. congruence. }
    exists b'. rewrite list_lookup_insert_eq by (by eapply lookup_lt_Some). split; [done|].
    pose proof (bucket0_small t b0 Hwf Hb0) as Hsm. destruct Hwf as (_ & _ & Hb).
    destruct (Hb _ _ Hb0) as [Hwf0 _]. destruct (Bucket.wf_shape b0 Hwf0) as (rest & _ & Hsz & Hlen).
    eapply Bucket.step_last; [exact Hs|done|unfold K; lia|done].
  - exists b0. by rewrite list_lookup_insert_ne.
Qed.

(** What a table keeps when the live nodes of a bucket are rewritten, their
    identity aside. *)
Definition same_identity (n n' : node) : Prop :=
  n_id n' = n_id n ∧ n_pending n' = n_pending n ∧ n_address n' = n_address n.

Definition put_bucket (i : nat) (b : Bucket.bucket) (t : routingTable) : routingTable :=
  mkTable (localNode t) (<[i := b]> (buckets t)).

Lemma rewritten_bucket (P : option UDPAddr → Prop) t i b l :
  wf t → buckets t !! i = Some b → Forall2 same_identity (Bucket.live b) l →
  let t' := put_bucket i (Bucket.with_live l b) t in
  wf t' ∧ (addresses P t → addresses P t') ∧ (last_nil0 t → last_nil0 t').
Proof.
  intros Hwf Hb Hl t'. destruct (proj2 (proj2 Hwf) _ _ Hb) as [Hbwf _].
  destruct (Bucket.with_live_keeps same_identity b l Hbwf) as (Hwf' & El & Ec); [by intros n n' (? & ? & _)|done|].
  assert (Hin : ∀ n', n' ∈ l → ∃ n, n ∈ Bucket.live b ∧ same_identity n n').
  { intros n' (j & Hj)%list_elem_of_lookup. destruct (Forall2_lookup_r _ _ _ _ _ Hl Hj) as (n & Hn & HR).
    exists n. split; [by eapply list_elem_of_lookup_2|done]. }
  split_and!.
  - eapply (put_bucket_wf t t' (Z.of_nat i)); [done|by apply go_index_Some|unfold t'; cbn; by rewrite Nat2Z.id|done|done|].
    intros n'. rewrite El, Ec, elem_of_app. unfold Bucket.ids. rewrite fmap_app, elem_of_app.
    intros [(n & Hn & -> & _)%Hin|Hn]; [left|right]; by apply list_elem_of_fmap_2.
  - intros Ha. apply Forall_insert; [done|]. rewrite El, Ec. eapply Forall_lookup_1 in Ha; [|done].
    rewrite Forall_app in Ha |- *. destruct Ha as [Ha1 Ha2]. split; [|done].
    rewrite Forall_forall in Ha1 |- *. intros n' (n & Hn & _ & _ & En)%Hin. unfold compose in *. rewrite En. by apply Ha1.
  - intros (b0 & Hb0 & Hl0). unfold last_nil0, t'. cbn. destruct (decide (i = 0%nat)) as [->|Hi].
    + assert (b0 = b) as -> by congruence. eexists. rewrite list_lookup_insert_eq by (by eapply lookup_lt_Some).
      split; [done|]. apply Bucket.with_live_last; [done|by eapply Forall2_length in Hl|done].
    + exists b0. by rewrite list_lookup_insert_ne.
Qed.

Lemma reachable_last_nil0 n ops t :
  valid_id (n_id n) → Forall (λ o, valid_id (op_id o)) ops →
  ofold step (newRoutingTable n) ops = Ret t → wf t ∧ last_nil0 t.
Proof.
  intros Hn Hops E. destruct (ofold_inv (λ t, wf t ∧ last_nil0 t) step (newRoutingTable n) ops) as (t' & E' & Ht').
  - split; [by apply wf_newRoutingTable|]. exists Bucket.empty. split; vm_compute; reflexivity.
  - intros u o Ho [Hu Hl]. destruct (step_wf u o Hu) as (u' & Eu & Hu'); [by eapply Forall_forall in Hops|].
    exists u'. split_and!; [done|done|by apply (step_last_nil0 u o)].
  - congruence.
Qed.

(** ** Properties *)

(** Whether [seen] reports a node as known. *)
Definition knows (t : routingTable) (id : bytes) : bool :=
  match seen 0 id t with Ret (r, _) => r | _ => false end.

Lemma knows_spec t id :
  wf t → valid_id id → knows t id = bool_decide (id ∈ Bucket.ids (entries_at t (home t id))).
Proof.
  intros Hwf Hid. unfold knows. by destruct (table_seen_spec 0 id t Hwf Hid) as (t' & -> & _).
Qed.

(** C23: starting from [newRoutingTable], every sequence of [insert], [seen] and
    [remove] calls with 32-byte identifiers runs to completion; each node then
    sits in the bucket of its distance to the local node, no identifier is live
    twice, and [neighbours] counts the live nodes. *)
Theorem table_operations_safe n ops :
  valid_id (n_id n) → Forall (λ o, valid_id (op_id o)) ops →
  ∃ t, ofold step (newRoutingTable n) ops = Ret t ∧ wf t ∧
    NoDup (Bucket.ids (all_live t)) ∧ neighbours t = Ret (zlen (all_live t)).
Proof.
  intros Hn Hops. destruct (ofold_inv wf step (newRoutingTable n) ops) as (t & E & Hwf).
  - by apply wf_newRoutingTable.
  - intros t o Ho Hwf. apply step_wf; [done|]. by eapply Forall_forall in Hops.
  - exists t. split_and!; [done..|by apply all_live_nodup|by apply neighbours_spec].
Qed.

Definition local0 : node := mkNode (id_of 0) None 0 0 0 0 false.

Lemma table_operations_safe_witness :
  ∃ t, ofold step (newRoutingTable local0)
    [OpInsert 1 (id_of 3) None 0 false; OpInsert 2 (id_of 9) None 0 false; OpRemove (id_of 3)]
    = Ret t ∧ neighbours t = Ret 1.
Proof.
  destruct (table_operations_safe local0
    [OpInsert 1 (id_of 3) None 0 false; OpInsert 2 (id_of 9) None 0 false; OpRemove (id_of 3)]
    ltac:(decided) ltac:(decided)) as (t & E & _ & _ & Hn).
  exists t. split; [done|]. rewrite Hn. vm_compute in E. injection E as <-. reflexivity.
Defined.

(** After an insertion the table knows the inserted node and exactly the
    nodes it knew before; after a removal it no longer holds the node live, and
    every other node is as known as before. *)
Theorem insert_remove_knows now id addr lat tm t :
  wf t → valid_id id →
  (∃ t', insert now id addr lat tm t = Ret t' ∧
    ∀ x, valid_id x → knows t' x = bool_decide (x = id) || knows t x) ∧
  (∃ t', remove id t = Ret t' ∧ (id ∉ Bucket.ids (all_live t')) ∧
    ∀ x, valid_id x → x ≠ id → knows t' x = knows t x).
Proof.
  intros Hwf Hid. split.
  - destruct (table_insert_spec now id addr lat tm t Hwf Hid) as (t' & E & Hwf' & Hl & Hs & Hj).
    exists t'. split; [done|]. intros x Hx. rewrite !knows_spec by done.
    assert (Hh : home t' x = home t x) by (unfold home; by rewrite Hl). rewrite Hh.
    rewrite <-bool_decide_or. apply bool_decide_ext.
    destruct (decide (home t x = home t id)) as [Eh|Eh].
    + rewrite Eh. destruct (home_bucket t id Hwf Hid) as (b & _ & Hb & Elb & _).
      pose proof (Bucket.spec_insert_ids now id addr lat tm (live_at t (home t id))
        (cache_at t (home t id)) x) as H. rewrite <-Hs in H. simpl in H. unfold entries_at.
      rewrite H; [done|]. rewrite <-Elb. apply Hb.
    + destruct (Hj (home t x)) as [E1 E2]; [by apply home_range|done|].
      unfold entries_at. rewrite E1, E2. split; [tauto|]. intros [->|?]; [done|done].
  - destruct (table_remove_spec id t Hwf Hid) as (t' & E & Hwf' & Hl & H1 & H2 & Hj).
    exists t'. assert (Hh : ∀ x, home t' x = home t x) by (intros; unfold home; by rewrite Hl).
    split_and!; [done| |].
    + destruct (remove_not_live id t Hwf Hid) as (t2 & E2 & _ & Hn). rewrite E in E2. by injection E2 as <-.
    + intros x Hx Hne. rewrite !knows_spec by done. rewrite Hh. apply bool_decide_ext.
      unfold entries_at. destruct (decide (home t x = home t id)) as [Eh|Eh].
      * rewrite Eh, H1, H2. unfold Bucket.ids. rewrite !fmap_app, !elem_of_app.
        enough (x ∈ n_id <$> Bucket.spec_remove id (live_at t (home t id)) ↔
          x ∈ n_id <$> live_at t (home t id)) by tauto.
        rewrite !list_elem_of_fmap. unfold Bucket.spec_remove.
        setoid_rewrite list_elem_of_filter. split; [naive_solver|].
        intros (m & -> & Hm). exists m. split_and!; auto.
      * destruct (Hj (home t x)) as [-> ->]; [by apply home_range|done|done].
Qed.

Lemma insert_remove_knows_witness :
  ∃ t', insert 1 (id_of 3) None 0 false (newRoutingTable local0) = Ret t' ∧
    knows t' (id_of 3) = true.
Proof.
  destruct (insert_remove_knows 1 (id_of 3) None 0 false (newRoutingTable local0)
    (wf_newRoutingTable local0 ltac:(decided)) ltac:(decided)) as [(t' & E & H) _].
  exists t'. split; [done|]. rewrite (H (id_of 3) ltac:(decided)). reflexivity.
Defined.

(** C34: [closest] terminates without a panic on every well-formed table; it
    returns a live node of the table whenever there is one. *)
Theorem closest_total id t :
  wf t → valid_id id →
  ∃ r, closest id t = Ret r ∧
    match r with Some n => n ∈ all_live t | None => all_live t = [] end.
Proof.
  intros Hwf Hid. pose proof (home_range t id Hwf Hid) as Hr.
  destruct (closest_scan t Hwf id (order (home t id)) None Hid) as (r & E & H); [|done|].
  { intros i. unfold order. rewrite list_elem_of_filter. tauto. }
  exists r. split.
  - unfold closest. rewrite bucketID_bucket_of by (done || apply Hwf). cbn [obind].
    by rewrite scan_loop_order.
  - destruct r as [n|].
    + destruct H as (l1 & i & l2 & Eo & _ & Hn & _). apply (elem_of_all_live t Hwf).
      exists i. split; [|done].
      assert (Hi : i ∈ order (home t id)) by (rewrite Eo; set_solver).
      unfold order in Hi. by apply list_elem_of_filter in Hi as [? _].
    + apply elem_of_nil_inv. intros n Hn.
      rewrite (all_live_perm t Hwf _ Hr) in Hn. apply list_elem_of_bind in Hn as (i & Hn & Hi).
      rewrite (H i Hi) in Hn. set_solver.
Qed.

Definition near_ops : list op :=
  [OpInsert 1 (id_of 8) None 0 false; OpInsert 1 (id_of 2) None 0 false].

Lemma closest_total_witness :
  ∃ t n, ofold step (newRoutingTable local0) near_ops = Ret t ∧
    closest (id_of 8) t = Ret (Some n) ∧ n ∈ all_live t.
Proof.
  destruct (ofold step (newRoutingTable local0) near_ops) as [t| | |] eqn:E; try discriminate E.
  destruct (closest_total (id_of 8) t (reachable_wf local0 near_ops t
    ltac:(decided) ltac:(decided) E) ltac:(decided)) as ([n|] & Hr & Hn).
  - exists t, n. by split_and!.
  - exfalso. vm_compute in E. injection E as <-. by vm_compute in Hn.
Defined.

(** When the target's own bucket is not empty, the node [closest] returns
    shares at least as many leading bits with the target as every live node of
    the whole table. *)
Theorem closest_optimal_at_home id t :
  wf t → valid_id id → live_at t (home t id) ≠ [] →
  ∃ n, closest id t = Ret (Some n) ∧ n ∈ all_live t ∧
    ∀ y, y ∈ all_live t → shared_prefix (n_id y) id ≤ shared_prefix (n_id n) id.
Proof.
  intros Hwf Hid Hne. pose proof (home_range t id Hwf Hid) as Hr.
  destruct (order_head _ Hr) as [l Eo].
  destruct (closest_body_spec t Hwf id None (home t id) Hid Hr) as (cn & E & H).
  destruct cn as [n|]; [|done]. destruct H as [Hn Hmax]. exists n. split_and!.
  - unfold closest. rewrite bucketID_bucket_of by (done || apply Hwf). cbn [obind].
    change (bucket_of (n_id (localNode t)) id) with (home t id).
    rewrite scan_loop_order by done. rewrite Eo. cbn [scan_list]. by rewrite E.
  - apply (elem_of_all_live t Hwf). eauto.
  - intros y (i & Hi & Hy)%(elem_of_all_live t Hwf).
    destruct (decide (i = home t id)) as [->|Hne']; [by apply Hmax|].
    destruct (live_at_entry t Hwf i y Hy Hi) as [Hvy Hby].
    destruct (live_at_entry t Hwf _ n Hn Hr) as [Hvn Hbn].
    apply Z.lt_le_incl, (same_bucket_closer (n_id (localNode t)) id);
      [apply Hwf|done..|unfold home in *; congruence].
Qed.

Lemma closest_optimal_at_home_witness :
  ∃ t n, ofold step (newRoutingTable local0) near_ops = Ret t ∧
    closest (id_of 8) t = Ret (Some n) ∧
    shared_prefix (id_of 2) (id_of 8) ≤ shared_prefix (n_id n) (id_of 8).
Proof.
  destruct (ofold step (newRoutingTable local0) near_ops) as [t| | |] eqn:E; try discriminate E.
  destruct (closest_optimal_at_home (id_of 8) t (reachable_wf local0 near_ops t
    ltac:(decided) ltac:(decided) E) ltac:(decided)) as (n & Hr & _ & H).
  - vm_compute in E. injection E as <-. by vm_compute.
  - exists t, n. split_and!; [done..|].
    refine (H (mkNode (id_of 2) None 1 0 0 0 false) _).
    vm_compute in E. injection E as <-. decided.
Defined.

(** With an empty home bucket [closest] need not return the closest node:
    the scan tries the bucket above the target's before the one below, although
    nodes below share more bits with the target. *)
Lemma closest_can_miss :
  ∃ t n y, ofold step (newRoutingTable local0) near_ops = Ret t ∧
    closest (id_of 4) t = Ret (Some n) ∧ y ∈ all_live t ∧
    distance (n_id n) (id_of 4) = Ret 4 ∧ distance (n_id y) (id_of 4) = Ret 5.
Proof.
  eexists _, _, (mkNode (id_of 2) None 1 0 0 0 false).
  split; [vm_compute; reflexivity|]. split; [vm_compute; reflexivity|].
  split; [decided|]. split; vm_compute; reflexivity.
Qed.

Lemma closestN_selects `{GoSort} id count t :
  wf t → valid_id id → 0 ≤ count →
  ∃ ns, closestN id count t = Ret ns ∧
    zlen ns = Z.min count (zlen (all_live t)) ∧ ns ⊆+ all_live t ∧
    StronglySorted (λ x y, shared_prefix (n_id y) id ≤ shared_prefix (n_id x) id) ns.
Proof.
  intros Hwf Hid Hc. pose proof (home_range t id Hwf Hid) as Hr.
  destruct (closestN_result t id count Hwf Hid Hc)
    as (l1 & l2 & ns & Eo & Hl2 & _ & Hp & Hs & ->).
  exists (take (Z.to_nat count) ns). split; [done|].
  pose proof (live_prefix_submseteq t _ l1 l2 Hwf Hr Eo) as Hsub.
  pose proof (submseteq_length _ _ Hsub) as Hlen. rewrite <-Hp in Hsub, Hlen.
  split_and!.
  - unfold zlen. rewrite length_take. destruct Hl2 as [->|Hge].
    + rewrite (all_live_perm t Hwf _ Hr), Eo, app_nil_r, <-Hp. lia.
    + rewrite <-Hp in Hge. unfold zlen in Hge. lia.
  - etrans; [|exact Hsub]. apply sublist_submseteq, sublist_take.
  - rewrite <-(take_drop (Z.to_nat count) ns) in Hs. by apply StronglySorted_app_1_l in Hs.
Qed.

(** C3: [closestN] terminates and returns exactly [min count live] nodes, all
    of them live nodes of the table (none more often than the table has it),
    from the longest to the shortest prefix shared with the target. *)
Theorem closestN_sorted_selection `{GoSort} id count t :
  wf t → valid_id id → 0 ≤ count →
  ∃ ns, closestN id count t = Ret ns ∧
    zlen ns = Z.min count (zlen (all_live t)) ∧ ns ⊆+ all_live t ∧
    StronglySorted (λ x y, shared_prefix (n_id y) id ≤ shared_prefix (n_id x) id) ns.
Proof. apply closestN_selects. Qed.

Lemma closestN_sorted_selection_witness :
  ∃ t ns, ofold step (newRoutingTable local0) near_ops = Ret t ∧
    @closestN insertion_GoSort (id_of 4) 5 t = Ret ns ∧ zlen ns = Z.min 5 (zlen (all_live t)).
Proof.
  destruct (ofold step (newRoutingTable local0) near_ops) as [t| | |] eqn:E; try discriminate E.
  destruct (@closestN_sorted_selection insertion_GoSort (id_of 4) 5 t
    (reachable_wf local0 near_ops t ltac:(decided) ltac:(decided) E)
    ltac:(decided) ltac:(lia)) as (ns & H1 & H2 & _).
  by exists t, ns.
Defined.

(** C29: when the home bucket alone holds [count] nodes, or the table has no more
    than [count], no live node left out of [closestN]'s answer shares more
    leading bits with the target than one in it. *)
Theorem closestN_optimal `{GoSort} id count t ns x y :
  wf t → valid_id id → 0 ≤ count →
  count ≤ zlen (live_at t (home t id)) ∨ zlen (all_live t) ≤ count →
  closestN id count t = Ret ns →
  x ∈ ns → y ∈ all_live t → y ∉ ns →
  shared_prefix (n_id y) id ≤ shared_prefix (n_id x) id.
Proof.
  intros Hwf Hid Hc Hcase E Hx Hy Hny. pose proof (home_range t id Hwf Hid) as Hr.
  destruct (closestN_result t id count Hwf Hid Hc)
    as (l1 & l2 & ns0 & Eo & Hl2 & Hhome & Hp & Hs & E'). rewrite E in E'. injection E' as ->.
  destruct (decide (y ∈ ns0)) as [Hy0|Hy0].
  { rewrite <-(take_drop (Z.to_nat count) ns0) in Hy0.
    apply elem_of_app in Hy0 as [?|Hy0]; [done|].
    exact (StronglySorted_take_drop _ _ _ _ _ Hs Hx Hy0). }
  assert (Hx0 : x ∈ ns0) by (by eapply elem_of_take in Hx as (? & ? & _);
    eapply list_elem_of_lookup_2).
  destruct Hcase as [Hle|Hge].
  - rewrite (Hhome Hle) in Hp. cbn in Hp. rewrite app_nil_r in Hp. rewrite Hp in Hx0, Hy0.
    apply (elem_of_all_live t Hwf) in Hy as (i & Hi & Hy).
    destruct (live_at_entry t Hwf i y Hy Hi) as [Hvy Hby].
    destruct (live_at_entry t Hwf _ x Hx0 Hr) as [Hvx Hbx].
    apply Z.lt_le_incl, (same_bucket_closer (n_id (localNode t)) id); [apply Hwf|done..|].
    intros Eb. apply Hy0. replace (home t id) with i; [done|]. unfold home. congruence.
  - exfalso. apply Hy0. rewrite Hp.
    destruct Hl2 as [->|Hge2].
    { by rewrite (all_live_perm t Hwf _ Hr), Eo, app_nil_r in Hy. }
    pose proof (live_prefix_submseteq t _ l1 l2 Hwf Hr Eo) as Hsub.
    rewrite (submseteq_length_Permutation _ _ Hsub); [done|]. unfold zlen in *. lia.
Qed.

Lemma closestN_optimal_witness :
  ∃ t, ofold step (newRoutingTable local0) near_ops = Ret t ∧
    shared_prefix (id_of 2) (id_of 8) ≤ shared_prefix (id_of 8) (id_of 8).
Proof.
  destruct (ofold step (newRoutingTable local0) near_ops) as [t| | |] eqn:E; try discriminate E.
  exists t. split; [done|].
  apply (@closestN_optimal insertion_GoSort (id_of 8) 1 t
    [mkNode (id_of 8) None 1 0 0 0 false] (mkNode (id_of 8) None 1 0 0 0 false)
    (mkNode (id_of 2) None 1 0 0 0 false)
    (reachable_wf local0 near_ops t ltac:(decided) ltac:(decided) E) ltac:(decided));
    [lia|left|..]; vm_compute in E; injection E as <-;
    [decided|vm_compute; reflexivity|decided..].
Defined.

End RoutingTable.
