(* ===== verification/Journey.v ===== *)
(** * Journeys: the state of one iterative lookup

    Models [journey.go].  A journey keeps up to [K] candidate routes with their
    distances to the destination in two parallel arrays, the hashes of the
    nodes it has met, the values it has passed on, and counters for the
    iterations left, the requests in flight and the values still expected.
    Every method holds the mutex from its first to its last statement and calls
    no other locking method, so each is one atomic step; [hasher] is a fixed
    function of the bytes written, an argument of the model.

    Routes point to nodes that the routing table may update at any time; a
    [relatency] step models that interference. *)
From stdpp Require Import base list numbers sets gmap sorting.
From Stdlib Require Import Lia.
From S2P Require Import Prelude Keyspace Bucket.
Local Open Scope Z_scope.

Module Journey.

Record journey := mkJourney {
  source : bytes;
  destination : bytes;
  visited : gset Z;
  values : gset Z;
  outstanding : gmap Z Z;
  nodes : list (option node);
  distances : list Z;
  routes : nat;
  remaining : Z;
  inflight : Z;
  completed : bool;
}.

Definition set_visited v j := mkJourney (source j) (destination j) v (values j)
  (outstanding j) (nodes j) (distances j) (routes j) (remaining j) (inflight j) (completed j).
Definition set_values v j := mkJourney (source j) (destination j) (visited j) v
  (outstanding j) (nodes j) (distances j) (routes j) (remaining j) (inflight j) (completed j).
Definition set_outstanding o j := mkJourney (source j) (destination j) (visited j) (values j)
  o (nodes j) (distances j) (routes j) (remaining j) (inflight j) (completed j).
Definition set_routes ns ds r j := mkJourney (source j) (destination j) (visited j) (values j)
  (outstanding j) ns ds r (remaining j) (inflight j) (completed j).
Definition set_counters r i j := mkJourney (source j) (destination j) (visited j) (values j)
  (outstanding j) (nodes j) (distances j) (routes j) r i (completed j).
Definition set_completed c j := mkJourney (source j) (destination j) (visited j) (values j)
  (outstanding j) (nodes j) (distances j) (routes j) (remaining j) (inflight j) c.

Definition newJourney (source destination : bytes) (iterations : Z) : journey :=
  mkJourney source destination ∅ ∅ ∅ (replicate K None) (replicate K 0) 0 iterations 0 false.

Section model.
(** [j.hasher]: Reset, Write(b), Sum64(). *)
Variable hash : bytes → Z.

(** The search of [add] for a slot with a worse route, [i] being the index;
    [n] iterations are left. *)
Fixpoint add_replace (n i : nat) (x : node) (d : Z) (j : journey) : outcome journey :=
  match n with
  | O => Ret j
  | S n =>
      let! di := go_index (distances j) (Z.of_nat i) in
      if di <? d then
        let! o := go_index (nodes j) (Z.of_nat i) in
        let! old := deref o in
        let j := set_visited (visited j ∖ {[hash (n_id old)]}) j in
        let! ns := go_store (nodes j) (Z.of_nat i) (Some x) in
        let! ds := go_store (distances j) (Z.of_nat i) d in
        Ret (set_routes ns ds (routes j) j)
      else add_replace n (S i) x d j
  end.

(** One iteration of the loop of [add]. *)
Definition add_one (j : journey) (p : option node) : outcome journey :=
  let! n := deref p in
  if Equal (n_id n) (source j) then Ret j
  else
    let k := hash (n_id n) in
    let! d := distance (n_id n) (destination j) in
    if decide (k ∈ visited j) then Ret j
    else
      let j := set_visited ({[k]} ∪ visited j) j in
      if (routes j <? K)%nat then
        let! ns := go_store (nodes j) (Z.of_nat (routes j)) (Some n) in
        let! ds := go_store (distances j) (Z.of_nat (routes j)) d in
        Ret (set_routes ns ds (routes j + 1) j)
      else add_replace K 0 n d j.

Definition add (ns : list (option node)) (j : journey) : outcome journey :=
  ofold add_one j ns.

(** [Less] on the entries at two indices. *)
Definition Less (x y : node * Z) : bool :=
  if negb (x.2 =? y.2) then y.2 <? x.2 else n_latency x.1 <? n_latency y.1.

(** [sort.Sort(j)] permutes the first [Len()] entries of both arrays.  The
    slots below [routes] hold no nil. *)
Definition sort_routes `{GoSort} (j : journey) : outcome journey :=
  let! l := omapM deref (take (routes j) (nodes j)) in
  let s := go_sort Less (zip l (take (routes j) (distances j))) in
  Ret (set_routes ((Some <$> s.*1) ++ drop (routes j) (nodes j))
                  (s.*2 ++ drop (routes j) (distances j)) (routes j) j).

(** [next]: [None] is a nil slice. *)
Definition next `{GoSort} (count : nat) (j : journey)
    : outcome (option (list (option node)) * journey) :=
  if (remaining j =? 0) || (routes j =? 0)%nat || completed j then Ret (None, j)
  else
    let available := if (routes j <? count)%nat then routes j else count in
    let j := set_counters (remaining j - 1) (inflight j + Z.of_nat available) j in
    let! j := sort_routes j in
    let! nx := go_slice (nodes j) 0 (Z.of_nat available) in
    let! tn := go_slice (nodes j) (Z.of_nat available) (zlen (nodes j)) in
    let! td := go_slice (distances j) (Z.of_nat available) (zlen (distances j)) in
    Ret (Some nx, set_routes (copy_at (nodes j) 0 tn) (copy_at (distances j) 0 td)
                             (routes j - available) j).

(** The sum wraps like Go's [int]. *)
Definition outstanding_sum (j : journey) : Z :=
  i64 (map_fold (λ _ v acc, acc + v) 0 (outstanding j)).

Definition finish (force : bool) (j : journey) : bool * journey :=
  let blocked :=
    if force then completed j
    else completed j || (0 <? inflight j) || (0 <? outstanding_sum j) in
  if blocked then (false, j) else (true, set_completed true j).

Definition responseReceived (j : journey) : (bool * bool) * journey :=
  let j := if 0 <? inflight j then set_counters (remaining j) (inflight j - 1) j else j in
  ((completed j, (inflight j <? 1) && (routes j <? 1)%nat), j).

Definition seenValue (value : bytes) (j : journey) : bool * journey :=
  let vh := hash value in
  if decide (vh ∈ values j) then (true, j)
  else (false, set_values ({[vh]} ∪ values j) j).

Definition addOutstanding (from : bytes) (n : Z) (j : journey) : journey :=
  let fh := hash from in
  match outstanding j !! fh with
  | Some _ => j
  | None => set_outstanding (<[fh := n]> (outstanding j)) j
  end.

Definition removeOutstanding (from : bytes) (received : Z) (j : journey) : journey :=
  let fh := hash from in
  set_outstanding (<[fh := i64 (default 0 (outstanding j !! fh) - received)]> (outstanding j)) j.

(** Interference: other goroutines write the latency of shared nodes. *)
Definition relatency (f : node → Z) (j : journey) : journey :=
  set_routes ((λ o : option node, (λ n, set_latency (f n) n) <$> o) <$> nodes j)
    (distances j) (routes j) j.
End model.

(** ** Invariant *)

Definition dist (j : journey) (n : node) : Z := shared_prefix (n_id n) (destination j).

(** The routes in use are [l]; the entries beyond them are left over. *)
Definition shape (j : journey) (l : list node) : Prop :=
  ∃ rn rd, nodes j = (Some <$> l) ++ rn ∧ distances j = (dist j <$> l) ++ rd ∧
    routes j = length l ∧ length (nodes j) = K ∧ length (distances j) = K.

(** [asked] lists the identifiers handed out by [next] so far. *)
Record inv (hash : bytes → Z) (j : journey) (l : list node) (asked : list bytes) : Prop := {
  inv_shape : shape j l;
  inv_dest : valid_id (destination j);
  inv_valid : Forall (λ n, valid_id (n_id n)) l;
  inv_source : source j ∉ Bucket.ids l ++ asked;
  inv_nodup : NoDup (hash <$> (Bucket.ids l ++ asked));
  inv_visited : ∀ x, x ∈ Bucket.ids l ++ asked → hash x ∈ visited j;
  inv_inflight : 0 ≤ inflight j;
}.

(** The fields that [add] leaves alone. *)
Definition same_frame (j j' : journey) : Prop :=
  source j' = source j ∧ destination j' = destination j ∧ values j' = values j ∧
  outstanding j' = outstanding j ∧ remaining j' = remaining j ∧
  inflight j' = inflight j ∧ completed j' = completed j.

Section lemmas.
Context (hash : bytes → Z).

Lemma routes_bound j l : shape j l → (length l ≤ K)%nat.
Proof.
  intros (rn & rd & Hn & _ & _ & Hlen & _). rewrite Hn, length_app, length_fmap in Hlen. lia.
Qed.

Lemma shape_lookup j l i n :
  shape j l → l !! i = Some n →
  nodes j !! i = Some (Some n) ∧ distances j !! i = Some (dist j n).
Proof.
  intros (rn & rd & Hn & Hd & _) Hi. pose proof (lookup_lt_Some _ _ _ Hi).
  rewrite Hn, Hd, !lookup_app_l by (rewrite length_fmap; done).
  by rewrite !list_lookup_fmap, Hi.
Qed.

(** Appending a route while there is room. *)
Lemma routes_push j l n v :
  shape j l → (length l < K)%nat →
  ∃ ns ds, go_store (nodes j) (Z.of_nat (routes j)) (Some n) = Ret ns ∧
    go_store (distances j) (Z.of_nat (routes j)) (dist j n) = Ret ds ∧
    shape (set_routes ns ds (routes j + 1) (set_visited v j)) (l ++ [n]).
Proof.
  intros (rn & rd & Hn & Hd & Hr & Hl1 & Hl2) Hlt.
  rewrite !go_store_ok by lia. eexists _, _. split_and!; [done..|].
  rewrite Hn, length_app, length_fmap in Hl1. rewrite Hd, length_app, length_fmap in Hl2.
  destruct rn as [|o rn]; [simpl in *; lia|]. destruct rd as [|z rd]; [simpl in *; lia|].
  exists rn, rd. unfold dist. cbn [nodes distances routes destination set_routes set_visited].
  rewrite Hn, Hd, Hr. unfold dist.
  rewrite !insert_app_r_alt, !length_fmap, Nat.sub_diag by (rewrite length_fmap; lia).
  rewrite !fmap_app, <-!app_assoc. simpl.
  split_and!; [done..|rewrite length_app; simpl; lia| |];
    rewrite length_app, length_fmap; simpl in *; lia.
Qed.

(** Overwriting a route. *)
Lemma shape_replace j l1 old l2 n v :
  shape j (l1 ++ old :: l2) →
  shape (set_routes (<[length l1 := Some n]> (nodes j))
    (<[length l1 := dist j n]> (distances j)) (routes j) (set_visited v j)) (l1 ++ n :: l2).
Proof.
  intros (rn & rd & Hn & Hd & Hr & Hl1 & Hl2). exists rn, rd. unfold dist.
  cbn [nodes distances routes destination set_routes set_visited].
  rewrite !length_insert, Hr. split_and!; [| |by rewrite !length_app|done|done].
  - rewrite Hn, !fmap_app, <-!app_assoc. simpl.
    rewrite insert_app_r_alt, length_fmap, Nat.sub_diag by (rewrite length_fmap; lia). done.
  - rewrite Hd. unfold dist. rewrite !fmap_app, <-!app_assoc. simpl.
    rewrite insert_app_r_alt, length_fmap, Nat.sub_diag by (rewrite length_fmap; lia). done.
Qed.

(** The search for a worse route either finds none or replaces the first. *)
Lemma add_replace_spec j l1 l2 n :
  shape j (l1 ++ l2) →
  ∃ j', add_replace hash (length l2) (length l1) n (dist j n) j = Ret j' ∧
    ((j' = j ∧ Forall (λ m, dist j n ≤ dist j m) l2) ∨
     ∃ k1 old k2, l2 = k1 ++ old :: k2 ∧ dist j old < dist j n ∧
       Forall (λ m, dist j n ≤ dist j m) k1 ∧
       j' = set_routes (<[length (l1 ++ k1) := Some n]> (nodes j))
         (<[length (l1 ++ k1) := dist j n]> (distances j)) (routes j)
         (set_visited (visited j ∖ {[hash (n_id old)]}) j)).
Proof.
  revert l1. induction l2 as [|m l2 IH]; intros l1 Hsh; simpl.
  { exists j. auto. }
  destruct (shape_lookup j _ (length l1) m Hsh) as [Hn Hd]; [by apply list_lookup_middle|].
  go_read Hd.
  destruct (Z.ltb_spec (dist j m) (dist j n)) as [Hlt|Hge].
  - rewrite (go_index_Some _ _ _ Hn). cbn [obind deref].
    assert ((length l1 < length (nodes j))%nat) by (by eapply lookup_lt_Some).
    assert ((length l1 < length (distances j))%nat) by (by eapply lookup_lt_Some).
    cbn [nodes distances routes set_visited]. rewrite !go_store_ok by done. cbn [obind].
    eexists. split; [done|]. right. exists [], m, l2.
    rewrite app_nil_r. by split_and!.
  - replace (S (length l1)) with (length (l1 ++ [m])) by (rewrite length_app; simpl; lia).
    destruct (IH (l1 ++ [m])) as (j' & E & [[-> HF]|(k1 & old & k2 & -> & Hlt & HF & ->)]);
      [by rewrite <-app_assoc|..]; rewrite E; eexists; (split; [done|]).
    + left. auto.
    + right. exists (m :: k1), old, k2. rewrite <-app_assoc. split_and!; auto.
Qed.

Lemma ids_middle k1 (n : node) k2 asked :
  Bucket.ids (k1 ++ n :: k2) ++ asked ≡ₚ n_id n :: Bucket.ids (k1 ++ k2) ++ asked.
Proof.
  unfold Bucket.ids. rewrite !fmap_app. simpl. rewrite <-!app_assoc. simpl.
  by rewrite <-Permutation_middle.
Qed.

(** A new node takes a free slot. *)
Lemma inv_push j l asked n :
  inv hash j l asked → valid_id (n_id n) → source j ≠ n_id n → hash (n_id n) ∉ visited j →
  (length l < K)%nat →
  ∃ ns ds, go_store (nodes j) (Z.of_nat (routes j)) (Some n) = Ret ns ∧
    go_store (distances j) (Z.of_nat (routes j)) (dist j n) = Ret ds ∧
    inv hash (set_routes ns ds (routes j + 1) (set_visited ({[hash (n_id n)]} ∪ visited j) j))
      (l ++ [n]) asked.
Proof.
  intros [Hsh Hdest Hval Hsrc Hnd Hvis Hinf] Hid Hne Hk Hlt.
  destruct (routes_push j l n ({[hash (n_id n)]} ∪ visited j) Hsh Hlt) as (ns & ds & E1 & E2 & Hsh').
  exists ns, ds. split_and!; [done..|]. pose proof (ids_middle l n [] asked) as Hids.
  rewrite app_nil_r in Hids. split; try done.
  - apply Forall_app. split; [done|]. by apply Forall_singleton.
  - cbn [source set_routes set_visited]. rewrite Hids. set_solver.
  - rewrite Hids. simpl. constructor; [|done].
    intros (x & Ex & Hx)%list_elem_of_fmap. apply Hk. rewrite Ex. by apply Hvis.
  - intros x. rewrite Hids. cbn [visited set_routes set_visited]. intros Hx.
    apply elem_of_cons in Hx as [->|Hx]; [set_solver|]. specialize (Hvis x Hx). set_solver.
Qed.

(** A new node takes the slot of a worse one, which may be met again later. *)
Lemma inv_replace j k1 old k2 asked n :
  inv hash j (k1 ++ old :: k2) asked → valid_id (n_id n) → source j ≠ n_id n →
  hash (n_id n) ∉ visited j →
  inv hash (set_routes (<[length k1 := Some n]> (nodes j)) (<[length k1 := dist j n]> (distances j))
      (routes j) (set_visited (({[hash (n_id n)]} ∪ visited j) ∖ {[hash (n_id old)]}) j))
    (k1 ++ n :: k2) asked.
Proof.
  intros [Hsh Hdest Hval Hsrc Hnd Hvis Hinf] Hid Hne Hk.
  rewrite ids_middle in Hsrc, Hnd. setoid_rewrite ids_middle in Hvis.
  simpl in Hnd. apply NoDup_cons in Hnd as [Hnold Hnd]. split; try done.
  - by apply (shape_replace j k1 old k2 n).
  - apply Forall_app in Hval as [? [? ?]%Forall_cons_1].
    apply Forall_app; split; [done|]. by constructor.
  - cbn. rewrite ids_middle. set_solver.
  - rewrite ids_middle. simpl. constructor; [|done].
    intros (x & Ex & Hx)%list_elem_of_fmap. apply Hk. rewrite Ex. apply Hvis. set_solver.
  - intros x. rewrite ids_middle. cbn [visited set_routes set_visited]. intros Hx.
    apply elem_of_difference. split.
    + apply elem_of_cons in Hx as [->|Hx]; [set_solver|]. apply elem_of_union_r, Hvis. set_solver.
    + rewrite elem_of_singleton. intros Eh. apply elem_of_cons in Hx as [->|Hx].
      * apply Hk. rewrite Eh. apply Hvis. set_solver.
      * apply Hnold. rewrite <-Eh. by apply list_elem_of_fmap_2.
Qed.

Lemma add_one_inv j l asked n :
  inv hash j l asked → valid_id (n_id n) →
  ∃ j' l', add_one hash j (Some n) = Ret j' ∧ inv hash j' l' asked ∧ same_frame j j'.
Proof.
  intros Hinv Hid. pose proof Hinv as [Hsh Hdest Hval Hsrc Hnd Hvis Hinf].
  unfold add_one. cbn [deref obind].
  destruct (Equal (n_id n) (source j)) eqn:Esrc.
  { exists j, l. by split_and!. }
  apply Bucket.Equal_false, not_eq_sym in Esrc.
  rewrite distance_shared_prefix by done. cbn [obind]. fold (dist j n).
  case_decide as Hk; [exists j, l; by split_and!|].
  assert (Hs : routes j = length l) by (by destruct Hsh as (? & ? & ? & ? & ? & _)).
  cbn [routes set_visited nodes distances]. rewrite Hs.
  destruct (Nat.ltb_spec (length l) K) as [Hlt|Hge].
  - rewrite <-Hs. destruct (inv_push j l asked n Hinv Hid Esrc Hk Hlt) as (ns & ds & -> & E & Hinv').
    cbn [obind]. rewrite E. cbn [obind]. eexists _, (l ++ [n]). split; [done|]. by split.
  - assert (HK : length l = K) by (pose proof (routes_bound _ _ Hsh); lia).
    set (j1 := set_visited ({[hash (n_id n)]} ∪ visited j) j).
    assert (Hsh1 : shape j1 ([] ++ l)) by exact Hsh.
    destruct (add_replace_spec j1 [] l n Hsh1) as (j' & E & Hcase).
    rewrite HK in E. simpl length in E. change (dist j1 n) with (dist j n) in E. rewrite E.
    exists j'. destruct Hcase as [[-> _]|(k1 & old & k2 & -> & _ & _ & ->)].
    + exists l. split; [done|]. split; [split|by split_and!]; try done.
      intros x Hx. specialize (Hvis x Hx). simpl. set_solver.
    + exists (k1 ++ n :: k2). split; [done|]. split; [|by split_and!].
      by apply (inv_replace j k1 old k2 asked n).
Qed.

Lemma same_frame_trans a b c : same_frame a b → same_frame b c → same_frame a c.
Proof. unfold same_frame. naive_solver congruence. Qed.

Lemma add_inv j l asked ns :
  inv hash j l asked → Forall (λ n, valid_id (n_id n)) ns →
  ∃ j' l', add hash (Some <$> ns) j = Ret j' ∧ inv hash j' l' asked ∧ same_frame j j'.
Proof.
  intros Hinv Hns. revert j l Hinv. induction Hns as [|n ns Hn _ IH]; intros j l Hinv.
  { exists j, l. by split_and!. }
  destruct (add_one_inv j l asked n Hinv Hn) as (j1 & l1 & E1 & Hinv1 & Hf1).
  destruct (IH j1 l1 Hinv1) as (j2 & l2 & E2 & Hinv2 & Hf2).
  exists j2, l2. unfold add in *. rewrite fmap_cons. cbn [ofold]. rewrite E1. cbn [obind].
  split_and!; [done..|by eapply same_frame_trans].
Qed.
End lemmas.

(** ** next *)

Lemma Less_swo : strict_weak_order Less.
Proof.
  assert (H : ∀ x y, Less x y = true ↔ y.2 < x.2 ∨ (x.2 = y.2 ∧ n_latency x.1 < n_latency y.1)).
  { intros x y. unfold Less. destruct (Z.eqb_spec x.2 y.2); simpl; rewrite Z.ltb_lt; lia. }
  assert (H' : ∀ x y, Less x y = false ↔ ¬ (y.2 < x.2 ∨ (x.2 = y.2 ∧ n_latency x.1 < n_latency y.1))).
  { intros x y. rewrite <-H. by destruct (Less x y). }
  split; intros *; rewrite ?H, ?H'; lia.
Qed.

(** [x] is at least as good a route as [y]. *)
Definition no_worse (j : journey) (x y : node) : Prop :=
  dist j y < dist j x ∨ (dist j x = dist j y ∧ n_latency x ≤ n_latency y).

Lemma omapM_deref l : omapM deref (Some <$> l) = Ret l.
Proof.
  induction l as [|x l IH]; [done|].
  rewrite fmap_cons. cbn [omapM deref obind]. by rewrite IH.
Qed.

Lemma sort_routes_spec `{GoSort} j l :
  shape j l →
  ∃ j' l', sort_routes j = Ret j' ∧ shape j' l' ∧ l' ≡ₚ l ∧
    StronglySorted (no_worse j) l' ∧ same_frame j j' ∧ visited j' = visited j ∧
    routes j' = routes j.
Proof.
  intros (rn & rd & Hn & Hd & Hr & Hl1 & Hl2). unfold sort_routes.
  assert (Ht : take (routes j) (nodes j) = Some <$> l).
  { rewrite Hn, Hr. by rewrite take_app_length' by (by rewrite length_fmap). }
  assert (Htd : take (routes j) (distances j) = dist j <$> l).
  { rewrite Hd, Hr. by rewrite take_app_length' by (by rewrite length_fmap). }
  assert (Hdn : drop (routes j) (nodes j) = rn).
  { rewrite Hn, Hr. by rewrite drop_app_length' by (by rewrite length_fmap). }
  assert (Hdd : drop (routes j) (distances j) = rd).
  { rewrite Hd, Hr. by rewrite drop_app_length' by (by rewrite length_fmap). }
  rewrite Ht, Htd, Hdn, Hdd, omapM_deref. cbn [obind].
  set (s := go_sort Less (zip l (dist j <$> l))).
  assert (Ez : zip l (dist j <$> l) = (λ n, (n, dist j n)) <$> l).
  { clear. induction l; csimpl; congruence. }
  assert (Hp : s ≡ₚ (λ n, (n, dist j n)) <$> l) by (subst s; by rewrite go_sort_perm, Ez).
  assert (Hs2 : Forall (λ p, p.2 = dist j p.1) s).
  { rewrite Hp. apply Forall_fmap, Forall_true. done. }
  assert (E2 : s.*2 = dist j <$> s.*1).
  { clear -Hs2. induction Hs2 as [|p s Hp _ IH]; csimpl; congruence. }
  assert (Hp1 : s.*1 ≡ₚ l).
  { rewrite Hp, <-list_fmap_compose. by rewrite list_fmap_id. }
  eexists _, (s.*1). split; [done|]. split_and!; [|done| |by split_and!|done|done].
  - exists rn, rd. cbn [nodes distances routes set_routes].
    rewrite E2. unfold dist. cbn [destination set_routes]. split_and!; [done..| | |].
    + by rewrite Hr, Hp1.
    + rewrite length_app, length_fmap, Hp1. rewrite Hn, length_app, length_fmap in Hl1. done.
    + rewrite length_app, length_fmap, Hp1. rewrite Hd, length_app, length_fmap in Hl2. done.
  - pose proof (go_sort_sorted Less (zip l (dist j <$> l)) Less_swo) as Hs. fold s in Hs.
    clear -Hs Hs2. revert Hs2. induction Hs as [|p s _ IH Hp]; intros Hs2; csimpl; [constructor|].
    apply Forall_cons_1 in Hs2 as [Ep Hs2]. constructor; [by apply IH|].
    rewrite Forall_fmap. rewrite Forall_forall in *. intros q Hq.
    specialize (Hp q Hq). specialize (Hs2 q Hq). simpl in *. unfold Less in Hp. unfold no_worse.
    rewrite Ep, Hs2 in Hp. destruct (Z.eqb_spec (dist j q.1) (dist j p.1)); simpl in Hp;
      apply Z.ltb_ge in Hp; lia.
Qed.

(** [copy(l, l[k:])] moves the tail to the front. *)
Lemma copy_tail {A} (l : list A) k :
  (k ≤ length l)%nat → copy_at l 0 (drop k l) = drop k l ++ drop (length l - k) l.
Proof.
  intros Hk. rewrite copy_at_fit by list_len. simpl.
  by rewrite length_drop.
Qed.

Definition exhausted (j : journey) : bool :=
  (remaining j =? 0) || (routes j =? 0)%nat || completed j.

Lemma next_spec `{GoSort} hash count j l asked :
  inv hash j l asked → exhausted j = false →
  let k := Nat.min (length l) count in
  ∃ s j', s ≡ₚ l ∧ StronglySorted (no_worse j) s ∧
    next count j = Ret (Some (Some <$> take k s), j') ∧
    inv hash j' (drop k s) (Bucket.ids (take k s) ++ asked) ∧
    remaining j' = remaining j - 1 ∧ inflight j' = inflight j + Z.of_nat k ∧
    source j' = source j ∧ destination j' = destination j ∧
    values j' = values j ∧ completed j' = completed j.
Proof.
  intros [Hsh Hdest Hval Hsrc Hnd Hvis Hinf] Hex k.
  assert (Ek : k = Nat.min (length l) count) by done. clearbody k. unfold next. unfold exhausted in Hex.
  rewrite Hex. cbv zeta.
  assert (Hr : routes j = length l) by (by destruct Hsh as (? & ? & ? & ? & ? & _)).
  assert (Hk : (if (routes j <? count)%nat then routes j else count) = k).
  { rewrite Hr. destruct (Nat.ltb_spec (length l) count); lia. }
  rewrite Hk.
  destruct (sort_routes_spec (set_counters (remaining j - 1) (inflight j + Z.of_nat k) j) l Hsh)
    as (j1 & s & -> & Hsh1 & Hp & Hs & Hf & Hv1 & Hr1). cbn [obind].
  pose proof (routes_bound _ _ Hsh1) as HK. pose proof (Permutation_length Hp) as Hlen.
  destruct Hsh1 as (rn & rd & Hn & Hd & Hrt & Hl1 & Hl2).
  assert (Hkl : (k ≤ length s)%nat) by lia. unfold zlen.
  change 0 with (Z.of_nat 0) at 1. rewrite !go_slice_ok by lia. cbn [obind].
  rewrite Nat.sub_0_r, drop_0, !(take_ge (drop k _)) by list_len.
  rewrite !copy_tail by lia. exists s. eexists.
  destruct Hf as (F1 & F2 & F3 & F4 & F5 & F6 & F7).
  assert (Hids : Bucket.ids (drop k s) ++ Bucket.ids (take k s) ++ asked ≡ₚ Bucket.ids l ++ asked).
  { rewrite app_assoc. f_equiv. unfold Bucket.ids. rewrite <-fmap_app, (Permutation_app_comm (drop k s)).
    by rewrite take_drop, Hp. }
  split; [done|]. split; [done|]. split.
  { assert (E : take k (nodes j1) = Some <$> take k s).
    { rewrite Hn, take_app_le by (rewrite length_fmap; lia). by rewrite fmap_take. }
    by rewrite E. }
  split_and!; [|done|done|done|done|done|done].
  - split; cbn [set_routes source destination visited inflight].
    + exists (rn ++ drop (K - k) (nodes j1)), (rd ++ drop (K - k) (distances j1)).
      unfold dist. cbn [set_routes nodes distances routes destination].
      fold (dist j1). rewrite !length_app, !length_drop, Hl1, Hl2.
      rewrite Hn at 1. rewrite Hd at 1.
      rewrite !drop_app_le by (rewrite length_fmap; lia). rewrite !fmap_drop, <-!app_assoc.
      split_and!; [done..|rewrite Hrt; lia|lia|lia].
    + by rewrite F2.
    + apply Forall_drop. by rewrite Hp.
    + rewrite F1, Hids. done.
    + by rewrite Hids.
    + intros x. rewrite Hids, Hv1. apply Hvis.
    + rewrite F6. cbn. lia.
Qed.

Lemma next_exhausted `{GoSort} count j : exhausted j = true → next count j = Ret (None, j).
Proof. intros H'. unfold next. unfold exhausted in H'. by rewrite H'. Qed.

Lemma inv_newJourney hash src dst iterations :
  valid_id dst → inv hash (newJourney src dst iterations) [] [].
Proof.
  intros Hd. split; cbn [newJourney destination source visited inflight]; try done.
  - exists (replicate K None), (replicate K 0). split_and!; done.
  - simpl. set_solver.
  - constructor.
  - set_solver.
Qed.

(** ** Runs

    Any interleaving of the methods; the log records what they returned. *)
Inductive op :=
  | OpAdd (ns : list node)
  | OpNext (count : nat)
  | OpFinish (force : bool)
  | OpResponse
  | OpSeenValue (v : bytes)
  | OpAddOutstanding (from : bytes) (n : Z)
  | OpRemoveOutstanding (from : bytes) (n : Z)
  | OpRelatency (f : node → Z).

Definition wf_op (o : op) : Prop :=
  match o with OpAdd ns => Forall (λ n, valid_id (n_id n)) ns | _ => True end.

Record log := mkLog {
  asked : list bytes;   (* identifiers handed out by next *)
  rounds : Z;           (* calls of next that returned routes *)
  wins : Z;             (* calls of finish that returned true *)
  passed : list bytes;  (* values for which seenValue returned false *)
}.

Definition step `{GoSort} (hash : bytes → Z) (s : journey * log) (o : op)
    : outcome (journey * log) :=
  let '(j, lg) := s in
  match o with
  | OpAdd ns => let! j := add hash (Some <$> ns) j in Ret (j, lg)
  | OpNext count =>
      let! '(r, j) := next count j in
      match r with
      | None => Ret (j, lg)
      | Some ns =>
          let! l := omapM deref ns in
          Ret (j, mkLog (Bucket.ids l ++ asked lg) (rounds lg + 1) (wins lg) (passed lg))
      end
  | OpFinish force =>
      let '(r, j) := finish force j in
      Ret (j, mkLog (asked lg) (rounds lg) (if r : bool then wins lg + 1 else wins lg) (passed lg))
  | OpResponse => Ret ((responseReceived j).2, lg)
  | OpSeenValue v =>
      let '(r, j) := seenValue hash v j in
      Ret (j, mkLog (asked lg) (rounds lg) (wins lg)
                    (if r : bool then passed lg else v :: passed lg))
  | OpAddOutstanding from n => Ret (addOutstanding hash from n j, lg)
  | OpRemoveOutstanding from n => Ret (removeOutstanding hash from n j, lg)
  | OpRelatency f => Ret (relatency f j, lg)
  end.

Definition run `{GoSort} (hash : bytes → Z) (src dst : bytes) (iterations : Z) (ops : list op)
    : outcome (journey * log) :=
  ofold (step hash) (newJourney src dst iterations, mkLog [] 0 0 []) ops.

(** What holds between the journey and its log. *)
Definition logged (hash : bytes → Z) (src : bytes) (iterations : Z) (s : journey * log) : Prop :=
  let '(j, lg) := s in
  (∃ l, inv hash j l (asked lg)) ∧ source j = src ∧
  rounds lg + remaining j = iterations ∧ 0 ≤ remaining j ∧
  wins lg = (if completed j then 1 else 0) ∧
  NoDup (hash <$> passed lg) ∧ (∀ v, v ∈ passed lg → hash v ∈ values j).

(** The invariant looks at the routes and the visited set only. *)
Lemma inv_frame hash j j' l a :
  inv hash j l a → nodes j' = nodes j → distances j' = distances j → routes j' = routes j →
  source j' = source j → destination j' = destination j → visited j' = visited j →
  0 ≤ inflight j' → inv hash j' l a.
Proof.
  intros [Hsh Hd Hv Hs Hn Hvis Hi] E1 E2 E3 E4 E5 E6 Hi'.
  split; rewrite ?E4, ?E5, ?E6; try done.
  destruct Hsh as (rn & rd & H1 & H2 & H3 & H4 & H5). exists rn, rd.
  unfold dist in *. rewrite E1, E2, E3, E5. by split_and!.
Qed.

Lemma inv_relatency hash j l a f :
  inv hash j l a → inv hash (relatency f j) ((λ n, set_latency (f n) n) <$> l) a.
Proof.
  intros [Hsh Hd Hv Hs Hn Hvis Hi].
  assert (E : Bucket.ids ((λ n, set_latency (f n) n) <$> l) = Bucket.ids l).
  { by apply Bucket.ids_mark. }
  split; rewrite ?E; try done.
  - destruct Hsh as (rn & rd & H1 & H2 & H3 & H4 & H5).
    exists ((λ o : option node, (λ n, set_latency (f n) n) <$> o) <$> rn), rd.
    unfold dist in *. cbn [relatency set_routes nodes distances routes destination].
    rewrite !length_fmap, H1, fmap_app, <-!list_fmap_compose. rewrite <-H1.
    by split_and!.
  - by rewrite Forall_fmap.
Qed.

Lemma step_logged `{GoSort} hash src iterations s o :
  logged hash src iterations s → wf_op o →
  ∃ s', step hash s o = Ret s' ∧ logged hash src iterations s'.
Proof.
  destruct s as [j lg]. intros ([l Hinv] & Hsrc & Hrd & Hrem & Hw & Hpn & Hpv) Hop.
  assert (Hi : 0 ≤ inflight j) by apply Hinv.
  destruct o as [ns|count|force| |v|from n|from n|f]; cbn [step].
  - destruct (add_inv hash j l (asked lg) ns Hinv Hop) as (j' & l' & -> & Hinv' & Hf).
    destruct Hf as (F1 & F2 & F3 & F4 & F5 & F6 & F7). cbn [obind]. eexists. split; [done|].
    unfold logged. rewrite F1, F3, F5, F7. split_and!; eauto.
  - destruct (exhausted j) eqn:Hex.
    { rewrite next_exhausted by done. cbn [obind]. eexists. split; [done|]. by split_and!; eauto. }
    destruct (next_spec hash count j l (asked lg) Hinv Hex)
      as (srt & j' & _ & _ & -> & Hinv' & E1 & _ & E3 & _ & E5 & E6). cbn [obind].
    rewrite omapM_deref. cbn [obind]. eexists. split; [done|].
    unfold logged. rewrite E1, E3, E5, E6. cbn [asked rounds wins passed].
    unfold exhausted in Hex. apply orb_false_iff in Hex as [[Hr%Z.eqb_neq _]%orb_false_iff _].
    split_and!; eauto; lia.
  - unfold finish. set (blk := if force then _ else _). destruct blk eqn:Eb.
    + eexists. split; [done|]. by split_and!; eauto.
    + assert (Hc : completed j = false).
      { subst blk. destruct force; [done|]. by destruct (completed j). }
      rewrite Hc in Hw. eexists. split; [done|]. unfold logged. cbn.
      split_and!; eauto; [|lia]. exists l. by apply (inv_frame hash j).
  - eexists. split; [done|]. unfold responseReceived, logged.
    destruct (Z.ltb_spec 0 (inflight j)); cbn; split_and!; eauto.
    exists l. apply (inv_frame hash j); cbn; done || lia.
  - unfold seenValue. case_decide as Hv; eexists; (split; [done|]); unfold logged; cbn;
      split_and!; eauto.
    + exists l. by apply (inv_frame hash j).
    + constructor; [|done]. intros (w & Ew & Hin)%list_elem_of_fmap. apply Hv. rewrite Ew. auto.
    + intros w [->|Hin]%elem_of_cons; [set_solver|]. apply elem_of_union_r. auto.
  - unfold addOutstanding. destruct (outstanding j !! hash from); eexists; (split; [done|]);
      unfold logged; cbn; split_and!; eauto. exists l. by apply (inv_frame hash j).
  - eexists; (split; [done|]); unfold logged; cbn; split_and!; eauto.
    exists l. by apply (inv_frame hash j).
  - eexists; (split; [done|]); unfold logged; cbn; split_and!; eauto.
    eexists. by apply inv_relatency.
Qed.

Lemma run_logged `{GoSort} hash src dst iterations ops :
  valid_id dst → 0 ≤ iterations → Forall wf_op ops →
  ∃ j lg, run hash src dst iterations ops = Ret (j, lg) ∧ logged hash src iterations (j, lg).
Proof.
  intros Hd Hit Hops. unfold run.
  destruct (ofold_inv (logged hash src iterations) (step hash)
    (newJourney src dst iterations, mkLog [] 0 0 []) ops) as ([j lg] & E & Hl).
  - unfold logged. cbn. split_and!; [exists []; by apply inv_newJourney|done|lia|lia|done| |set_solver].
    constructor.
  - intros s o Ho Hs. apply step_logged; [done|]. by eapply Forall_forall in Hops.
  - by exists j, lg.
Qed.

(** Nodes met before are not added again. *)
Lemma add_visited hash ns j :
  valid_id (destination j) →
  Forall (λ n, valid_id (n_id n) ∧ hash (n_id n) ∈ visited j) ns →
  add hash (Some <$> ns) j = Ret j.
Proof.
  intros Hd Hns. unfold add. induction Hns as [|n ns [Hid Hv] _ IH]; [done|].
  rewrite fmap_cons. cbn [ofold]. unfold add_one at 1. cbn [deref obind].
  destruct (Equal (n_id n) (source j)); cbn [obind]; [done|].
  rewrite distance_shared_prefix by done. cbn [obind]. by rewrite decide_True.
Qed.

(** ** Properties *)

(** C5: whatever the interleaving of calls and of latency updates by other
    goroutines, a journey never panics, never hands out the same node twice,
    and never hands out its own source; [finish] returns true at most once, and
    has returned true exactly if the journey is completed; [seenValue] lets each
    value through at most once. *)
Theorem journey_asks_once `{GoSort} hash src dst iterations ops :
  valid_id dst → 0 ≤ iterations → Forall wf_op ops →
  ∃ j lg, run hash src dst iterations ops = Ret (j, lg) ∧
    NoDup (asked lg) ∧ (src ∉ asked lg) ∧ (routes j ≤ K)%nat ∧ 0 ≤ inflight j ∧
    wins lg = (if completed j then 1 else 0) ∧ NoDup (passed lg).
Proof.
  intros Hd Hit Hops. destruct (run_logged hash src dst iterations ops Hd Hit Hops)
    as (j & lg & E & ([l Hinv] & Hsrc & _ & _ & Hw & Hpn & _)).
  exists j, lg. destruct Hinv as [Hsh _ _ Hs Hnd _ Hi]. rewrite fmap_app in Hnd.
  split_and!; [done|apply NoDup_app in Hnd as (_ & _ & Hnd); by apply NoDup_fmap_1 in Hnd| | |done|done|
    by apply NoDup_fmap_1 in Hpn].
  - rewrite <-Hsrc. set_solver.
  - pose proof (routes_bound _ _ Hsh). destruct Hsh as (? & ? & ? & ? & -> & _). done.
Qed.

Definition demo_hash (b : bytes) : Z := be b.
Definition demo_node (b lat : Z) : node := mkNode (id_of b) None 0 0 lat 0 false.
Definition demo_ops : list op :=
  [OpAdd [demo_node 1 5; demo_node 2 7; demo_node 1 5]; OpNext 1; OpAdd [demo_node 1 5];
   OpNext 3; OpFinish true; OpFinish true; OpSeenValue [1]; OpSeenValue [1]].

Lemma demo_ops_wf : Forall wf_op demo_ops.
Proof.
  unfold demo_ops. repeat (apply Forall_cons; split); try exact I; try apply Forall_nil; decided.
Qed.

Lemma journey_asks_once_witness :
  ∃ j lg, @run insertion_GoSort demo_hash (id_of 9) (id_of 0) 20 demo_ops = Ret (j, lg) ∧
    asked lg = [id_of 2; id_of 1] ∧ wins lg = 1 ∧ passed lg = [[1]].
Proof.
  destruct (@journey_asks_once insertion_GoSort demo_hash (id_of 9) (id_of 0) 20 demo_ops
    ltac:(decided) ltac:(lia) demo_ops_wf) as (j & lg & E & _).
  exists j, lg. split; [done|]. vm_compute in E. injection E as _ <-. by split_and!.
Defined.

(** C30: a journey makes a bounded number of rounds: [next] returns routes at
    most as often as the journey has iterations, one being used up per round,
    and a completed journey makes no further round; this is what ends every
    lookup. *)
Theorem journey_rounds_bounded `{GoSort} hash src dst iterations ops :
  valid_id dst → 0 ≤ iterations → Forall wf_op ops →
  ∃ j lg, run hash src dst iterations ops = Ret (j, lg) ∧
    rounds lg + remaining j = iterations ∧ 0 ≤ rounds lg ≤ iterations ∧
    (remaining j = 0 ∨ completed j = true → ∀ count, next count j = Ret (None, j)).
Proof.
  intros Hd Hit Hops.
  enough (∃ j lg, run hash src dst iterations ops = Ret (j, lg) ∧
    (logged hash src iterations (j, lg) ∧ 0 ≤ rounds lg)) as (j & lg & E & Hl & Hr).
  { destruct Hl as (_ & _ & Hrd & Hrem & _). exists j, lg. split_and!; [done|done|lia|lia|].
    intros Hc count. apply next_exhausted. unfold exhausted.
    destruct Hc as [->| ->]; [done|]. by rewrite orb_true_r. }
  unfold run. destruct (ofold_inv (λ s, logged hash src iterations s ∧ 0 ≤ rounds s.2) (step hash)
    (newJourney src dst iterations, mkLog [] 0 0 []) ops) as ([j lg] & E & Hl); [| |by eauto].
  - destruct (run_logged hash src dst iterations [] Hd Hit) as (j & lg & E & Hl); [constructor|].
    injection E as <- <-. by split.
  - intros [j lg] o Ho [Hs Hr]. destruct (step_logged hash src iterations (j, lg) o Hs) as (s' & E & Hl).
    { by eapply Forall_forall in Hops. }
    exists s'. split_and!; [done..|]. simpl in Hr. destruct o; cbn [step] in E; inv_go; try lia.
    + destruct x as [[ns|] j2]; inv_go; lia.
    + destruct (finish force j). inv_go. lia.
    + destruct (seenValue hash v j). inv_go. lia.
Qed.

Lemma journey_rounds_bounded_witness :
  ∃ j lg, @run insertion_GoSort demo_hash (id_of 9) (id_of 0) 20 demo_ops = Ret (j, lg) ∧
    rounds lg = 2 ∧ remaining j = 18.
Proof.
  destruct (@journey_rounds_bounded insertion_GoSort demo_hash (id_of 9) (id_of 0) 20 demo_ops
    ltac:(decided) ltac:(lia) demo_ops_wf) as (j & lg & E & H & _).
  exists j, lg. split; [done|]. vm_compute in E. injection E as _ <-. simpl in H. split; [reflexivity|lia].
Defined.

(** [next] hands out the best routes first: it returns the [min count]
    available routes, each at least as good (more shared bits with the
    destination, ties broken by latency) as every route that stays, adds their
    number to the requests in flight and uses up one iteration. *)
Theorem next_best_first `{GoSort} hash count j l a :
  inv hash j l a → exhausted j = false →
  ∃ out rest j', next count j = Ret (Some (Some <$> out), j') ∧
    out ++ rest ≡ₚ l ∧ length out = Nat.min (length l) count ∧
    inv hash j' rest (Bucket.ids out ++ a) ∧
    (∀ x y, x ∈ out → y ∈ rest → no_worse j x y) ∧
    remaining j' = remaining j - 1 ∧ inflight j' = inflight j + zlen out.
Proof.
  intros Hinv Hex.
  destruct (next_spec hash count j l a Hinv Hex) as (s & j' & Hp & Hs & E & Hinv' & E1 & E2 & _).
  eexists _, _, j'. pose proof (Permutation_length Hp).
  split_and!; [exact E|by rewrite take_drop|rewrite length_take; lia|done| |done|].
  - intros x y Hx Hy. exact (StronglySorted_take_drop _ _ _ _ _ Hs Hx Hy).
  - rewrite E2. unfold zlen. rewrite length_take. lia.
Qed.

Lemma next_best_first_witness :
  ∃ j out rest j', @run insertion_GoSort demo_hash (id_of 9) (id_of 0) 20 (take 1 demo_ops)
      = Ret (j, mkLog [] 0 0 []) ∧
    @next insertion_GoSort 1 j = Ret (Some (Some <$> out), j') ∧
    out ++ rest ≡ₚ [demo_node 1 5; demo_node 2 7].
Proof.
  destruct (@run_logged insertion_GoSort demo_hash (id_of 9) (id_of 0) 20 (take 1 demo_ops)
    ltac:(decided) ltac:(lia)) as (j & lg & E & ([l Hinv] & _)).
  { apply Forall_cons; split; [|constructor]. decided. }
  assert (l = [demo_node 1 5; demo_node 2 7]) as ->.
  { destruct Hinv as [(rn & rd & Hn & _ & Hr & _) _ _ _ _ _ _].
    vm_compute in E. injection E as <- <-. simpl in Hn, Hr.
    destruct l as [|x [|y [|z l]]]; try discriminate Hr. by simplify_eq/=. }
  assert (lg = mkLog [] 0 0 []) as ->.
  { vm_compute in E. by injection E as _ <-. }
  destruct (@next_best_first insertion_GoSort demo_hash 1 j _ _ Hinv) as (out & rest & j' & H1 & H2 & _).
  { vm_compute in E. injection E as <-. reflexivity. }
  by exists j, out, rest, j'.
Defined.

End Journey.
