(* ===== verification/Packet.v ===== *)
(** * Packets: fragmenting events into datagrams and putting them together

    Models [packet.go].  The sending side cuts an event into fragments inside a
    pooled buffer and hands them out one by one; the receiving side keeps one
    partially filled packet per event identifier until the byte counts match.

    [sync.Pool] may return any packet put back earlier or a new one, so the
    packet a call takes from the pool is an argument: nothing is assumed of it
    but the length of its buffer.  [sync.Map] is a finite map from the hash of
    the event identifier.  The calls are atomic steps, as they are for one
    listener goroutine.  The hash function is an argument of the model. *)
From stdpp Require Import base list numbers gmap.
From Stdlib Require Import Lia.
From S2P Require Import Prelude Keyspace.
Local Open Scope Z_scope.

Module Packet.

Definition PacketHeaderSize : Z := KEY_BYTES + 4.
Definition MaxEventSize : Z := 65024.
Definition MaxPacketSize : Z := 1472.
Definition MaxPayloadSize : Z := MaxPacketSize - PacketHeaderSize.
(** [1<<17-1] *)
Definition buffer_size : Z := Z.shiftl 1 17 - 1.

Record packet := mkPacket {
  buf : bytes;
  frg : Z;
  len : Z;
  pos : Z;
  ttl : Z;
}.

(** [pool.New] *)
Definition fresh : packet := mkPacket (replicate (Z.to_nat buffer_size) 0) 0 0 0 time_zero.

(** Whether [done] puts the packet back into the pool. *)
Definition done (p : packet) : bool := negb (zlen (buf p) <? buffer_size).

(** Go's [/] and [%] truncate; [len] is not negative. *)
Definition needsFragmenting (data : bytes) : bool :=
  1 <? (Z.quot (zlen data) MaxPacketSize - 1) + 2.

(** [binary.LittleEndian.PutUint16(buf[off:], v)] *)
Definition PutUint16 (b : bytes) (off v : Z) : outcome bytes :=
  let! s := go_slice b off (zlen b) in
  let! _ := go_index s 1 in
  let! b := go_store b off (u8 v) in
  go_store b (off + 1) (u8 (Z.shiftr v 8)).

(** [binary.LittleEndian.Uint16(s)] *)
Definition Uint16 (s : bytes) : outcome Z :=
  let! b1 := go_index s 1 in
  let! b0 := go_index s 0 in
  Ret (Z.lor b0 (Z.shiftl b1 8)).

(** One iteration of the loop of [fragment]. *)
Definition fragment_body (id data : bytes) (frags i offset : Z) (b : bytes) : outcome bytes :=
  let! b := go_copy b offset id in
  let! b := go_store b (offset + KEY_BYTES) (u8 (i + 1)) in
  let! b := go_store b (offset + KEY_BYTES + 1) (u8 frags) in
  let! b := PutUint16 b (offset + KEY_BYTES + 2) (u16 (zlen data)) in
  let! dst := go_slice b (offset + PacketHeaderSize) (offset + MaxPacketSize) in
  let! src := go_slice data (i * MaxPayloadSize) (zlen data) in
  go_copy b (offset + PacketHeaderSize) (take (length dst) src).

Fixpoint fragment_loop (fuel : nat) (id data : bytes) (frags total i offset : Z) (b : bytes)
    : outcome bytes :=
  match fuel with
  | O => OutOfFuel
  | S fuel =>
      if total <=? offset then Ret b
      else
        let! b := fragment_body id data frags i offset b in
        fragment_loop fuel id data frags total (i + 1) (offset + MaxPacketSize) b
  end.

(** The number of fragments. *)
Definition fragments (data : bytes) : Z :=
  let n := (Z.quot (zlen data) MaxPayloadSize - 1) + 2 in
  if Z.rem (zlen data) MaxPayloadSize =? 0 then n - 1 else n.

Definition fragment (pooled : packet) (id data : bytes) : outcome packet :=
  let n := fragments data in
  let total := zlen data + n * PacketHeaderSize in
  let! b := fragment_loop (S (length data)) id data n total 0 0 (buf pooled) in
  Ret (mkPacket b n total 0 (ttl pooled)).

(** [next]: [None] is a nil slice. *)
Definition next (p : packet) : outcome (option bytes * packet) :=
  if len p <=? pos p then Ret (None, p)
  else
    let ps := if len p <? pos p + MaxPacketSize then len p - pos p else MaxPacketSize in
    let pos' := i32 (pos p + i32 ps) in
    let! s := go_slice (buf p) (pos' - ps) pos' in
    Ret (Some s, mkPacket (buf p) (frg p) (len p) pos' (ttl p)).

(** The loop of a sender: [for f := p.next(); f != nil; f = p.next()]. *)
Fixpoint drain (fuel : nat) (p : packet) : outcome (list bytes) :=
  match fuel with
  | O => OutOfFuel
  | S fuel =>
      let! '(f, p) := next p in
      match f with
      | None => Ret []
      | Some f => let! fs := drain fuel p in Ret (f :: fs)
      end
  end.

Definition add (f : bytes) (p : packet) : outcome (bool * packet) :=
  let! part := go_index f KEY_BYTES in
  let offset := part - 1 in
  let! data := go_slice f PacketHeaderSize (zlen f) in
  let! b := go_copy (buf p) (MaxPayloadSize * offset) data in
  let pos' := i32 (pos p + i32 (zlen data)) in
  Ret (pos' =? i32 (len p), mkPacket b (frg p) (len p) pos' (ttl p)).

Definition data (p : packet) : outcome bytes := go_slice (buf p) 0 (len p).

Definition complete (p : packet) : bool := pos p =? i32 (len p).

Section manager.
Variable hash : bytes → Z.

(** The packets map of a [packetManager]. *)
Abbreviation packets := (gmap Z packet).

(** [assemble]: [None] is a nil packet.  [pooled] is what [pool.Get] returns
    if it is called and [now] is the clock. *)
Definition assemble (pooled : packet) (now : Z) (f : bytes) (m : packets)
    : outcome (option packet * packets) :=
  let! total := go_index f (KEY_BYTES + 1) in
  if total =? 1 then
    let! b := go_slice f PacketHeaderSize (zlen f) in
    Ret (Some (mkPacket b 0 (zlen f - PacketHeaderSize) 0 time_zero), m)
  else
    let! eid := go_slice f 0 KEY_BYTES in
    let k := hash eid in
    let! p := match m !! k with
              | Some p => Ret p
              | None =>
                  let! s := go_slice f (KEY_BYTES + 2) (zlen f) in
                  let! size := Uint16 s in
                  Ret (mkPacket (buf pooled) total size 0 (Add now (second * 5)))
              end in
    let! '(full, p) := add f p in
    if full : bool then Ret (Some p, delete k m) else Ret (None, <[k := p]> m).

(** One round of the loop of [cleanup]. *)
Definition cleanup (now : Z) (m : packets) : packets :=
  filter (λ kp, negb (negb (complete kp.2) && After now (ttl kp.2)) = true) m.
End manager.

(** ** What travels

    The datagrams of an event, written down directly: the identifier, the part
    number, the number of parts, the size, and a slice of the data. *)
Definition payload : nat := Z.to_nat MaxPayloadSize.

Definition chunk (d : bytes) (i : nat) : bytes := take payload (drop (i * payload) d).

Definition head (id d : bytes) (i : nat) : bytes :=
  id ++ [u8 (Z.of_nat i + 1); u8 (fragments d); u8 (u16 (zlen d)); u8 (Z.shiftr (u16 (zlen d)) 8)].

Definition wire (id d : bytes) (i : nat) : bytes := head id d i ++ chunk d i.

Definition wires (id d : bytes) : list bytes := wire id d <$> seq 0 (Z.to_nat (fragments d)).

Lemma payload_Z : Z.of_nat payload = 1436.
Proof. done. Qed.
#[global] Opaque payload.

Ltac sizes :=
  pose proof payload_Z; unfold MaxPayloadSize, MaxPacketSize, PacketHeaderSize, KEY_BYTES, KEY_BITS, zlen in *;
  change (256 / 8) with 32 in *.

Ltac zl := sizes; rewrite ?length_app; cbn [length] in *; lia.

Lemma fragments_spec d :
  0 ≤ fragments d ∧ zlen d ≤ fragments d * 1436 ∧ (fragments d - 1) * 1436 < Z.max 1 (zlen d).
Proof.
  unfold fragments. sizes. replace (1472 - (32 + 4)) with 1436 by lia.
  rewrite Z.quot_div_nonneg, Z.rem_mod_nonneg by lia.
  pose proof (Z.div_mod (Z.of_nat (length d)) 1436).
  pose proof (Z.mod_pos_bound (Z.of_nat (length d)) 1436).
  destruct (Z.eqb_spec (Z.of_nat (length d) mod 1436) 0); lia.
Qed.

Lemma length_chunk d i :
  length (chunk d i) = Nat.min payload (length d - i * payload).
Proof. unfold chunk. by rewrite length_take, length_drop. Qed.

Lemma zlen_chunk d i :
  zlen (chunk d i) = Z.min 1436 (Z.max 0 (zlen d - Z.of_nat i * 1436)).
Proof. unfold zlen. rewrite length_chunk. zl. Qed.

Lemma length_head id d i : length id = 32%nat → length (head id d i) = 36%nat.
Proof. intros H. unfold head. rewrite length_app, H. done. Qed.

(** The loop body writes the datagram into the buffer. *)
Lemma fragment_body_spec id d i pre mi x1 x2 x3 x4 mp post :
  length id = 32%nat → length mi = 32%nat → length mp = payload →
  zlen pre = Z.of_nat i * MaxPacketSize → Z.of_nat i * MaxPayloadSize ≤ zlen d →
  fragment_body id d (fragments d) (Z.of_nat i) (Z.of_nat i * MaxPacketSize)
    (pre ++ mi ++ x1 :: x2 :: x3 :: x4 :: mp ++ post) =
  Ret (pre ++ wire id d i ++ drop (length (chunk d i)) mp ++ post).
Proof.
  intros Hid Hmi Hmp Hpre Hi. unfold fragment_body. rewrite <-Hpre.
  rewrite go_copy_mid by congruence. cbn [obind].
  set (a := u8 (Z.of_nat i + 1)). set (n := u8 (fragments d)). set (l := u16 (zlen d)).
  rewrite (app_assoc pre id), go_store_mid by zl. cbn [obind].
  rewrite (cons_middle a), (app_assoc _ [a]), go_store_mid by zl. cbn [obind].
  rewrite (cons_middle n), (app_assoc _ [n]). unfold PutUint16.
  rewrite go_slice_tail by zl. cbn [obind].
  change (go_index (x3 :: x4 :: mp ++ post) 1) with (@Ret Z x4). cbn [obind].
  rewrite go_store_mid by zl. cbn [obind].
  rewrite (cons_middle (u8 l)), (app_assoc _ [u8 l]), go_store_mid by zl. cbn [obind].
  rewrite (cons_middle (u8 (Z.shiftr l 8))), (app_assoc _ [u8 (Z.shiftr l 8)]).
  rewrite (go_slice_mid _ mp) by zl. cbn [obind].
  assert (Hs : go_slice d (Z.of_nat i * MaxPayloadSize) (zlen d) = Ret (drop (i * payload) d)).
  { replace (Z.of_nat i * MaxPayloadSize) with (Z.of_nat (i * payload)) by zl.
    unfold zlen. rewrite go_slice_ok by zl. by rewrite take_ge by list_len. }
  rewrite Hs, Hmp. cbn [obind]. fold (chunk d i).
  rewrite <-(take_drop (length (chunk d i)) mp) at 1. rewrite <-(app_assoc (take _ mp)).
  rewrite go_copy_mid; [|zl|rewrite length_take, Hmp; pose proof (length_chunk d i); lia].
  unfold wire, head. by rewrite <-!app_assoc.
Qed.

(** All fragments but the last are full. *)
Lemma chunk_full d i :
  Z.of_nat i + 1 < fragments d → length (chunk d i) = payload.
Proof.
  intros Hi. destruct (fragments_spec d) as (_ & _ & H). rewrite length_chunk. zl.
Qed.

Lemma split_block (l : bytes) :
  MaxPacketSize ≤ zlen l →
  ∃ mi x1 x2 x3 x4 mp post, l = mi ++ x1 :: x2 :: x3 :: x4 :: mp ++ post ∧
    length mi = 32%nat ∧ length mp = payload ∧ zlen l = MaxPacketSize + zlen post.
Proof.
  intros Hl. pose proof (take_drop 32 l) as E.
  assert (H1 : length (take 32 l) = 32%nat) by (rewrite length_take; zl).
  assert (H2 : zlen (drop 32 l) = zlen l - 32) by (unfold zlen; rewrite length_drop; zl).
  destruct (drop 32 l) as [|x1 [|x2 [|x3 [|x4 r]]]]; try zl.
  exists (take 32 l), x1, x2, x3, x4, (take payload r), (drop payload r).
  rewrite take_drop, E. split_and!; [done..|rewrite length_take; zl|].
  unfold zlen in *. rewrite length_drop. zl.
Qed.

(** [k] iterations write [k] datagrams one after the other. *)
Lemma fragment_loop_run id d k i pre post fuel :
  length id = 32%nat → (0 < length d)%nat → Z.of_nat (i + k) ≤ fragments d →
  ((0 < k)%nat → zlen pre = Z.of_nat i * MaxPacketSize) →
  Z.of_nat k * MaxPacketSize ≤ zlen post →
  ∃ post', fragment_loop (k + fuel) id d (fragments d)
      (zlen d + fragments d * PacketHeaderSize) (Z.of_nat i) (Z.of_nat i * MaxPacketSize) (pre ++ post) =
    fragment_loop fuel id d (fragments d) (zlen d + fragments d * PacketHeaderSize)
      (Z.of_nat (i + k)) (Z.of_nat (i + k) * MaxPacketSize)
      (pre ++ concat (wire id d <$> seq i k) ++ post') ∧
    zlen (concat (wire id d <$> seq i k) ++ post') = zlen post.
Proof.
  intros Hid Hd. revert i pre post. destruct (fragments_spec d) as (F1 & F2 & F3).
  induction k as [|k IH]; intros i pre post Hn Hpre Hpost.
  { exists post. by rewrite Nat.add_0_r. }
  cbn [fragment_loop Nat.add].
  destruct (Z.leb_spec (zlen d + fragments d * PacketHeaderSize) (Z.of_nat i * MaxPacketSize)).
  { exfalso. zl. }
  destruct (split_block post) as (mi & x1 & x2 & x3 & x4 & mp & post2 & -> & Hmi & Hmp & Hl); [zl|].
  rewrite fragment_body_spec by (done || (apply Hpre; lia) || zl). cbn [obind].
  replace (Z.of_nat i + 1) with (Z.of_nat (S i)) by lia.
  replace (Z.of_nat i * MaxPacketSize + MaxPacketSize) with (Z.of_nat (S i) * MaxPacketSize) by lia.
  rewrite app_assoc.
  assert (Hch : (length (chunk d i) ≤ payload)%nat) by (rewrite length_chunk; lia).
  assert (Hw : zlen (wire id d i) = 36 + zlen (chunk d i)).
  { unfold wire. rewrite zlen_app. unfold zlen. rewrite length_head by done. lia. }
  assert (Hdr : zlen (drop (length (chunk d i)) mp ++ post2) = 1436 - zlen (chunk d i) + zlen post2).
  { unfold zlen. rewrite length_app, length_drop. zl. }
  destruct (IH (S i) (pre ++ wire id d i) (drop (length (chunk d i)) mp ++ post2))
    as (post' & -> & Hp'); [lia| |rewrite Hdr; zl|].
  - intros Hk. rewrite zlen_app, Hpre, Hw by lia.
    pose proof (chunk_full d i ltac:(lia)). zl.
  - exists post'. replace (S i + k)%nat with (i + S k)%nat by lia.
    cbn [seq fmap list_fmap concat]. rewrite <-!app_assoc. split; [done|].
    rewrite zlen_app, Hp', Hw, Hdr, Hl. zl.
Qed.

(** The largest event whose fragments fit the buffer: 89 full fragments. *)
Definition max_fragmentable : Z := 89 * MaxPayloadSize.

Lemma fragments_bound d : zlen d ≤ max_fragmentable → fragments d ≤ 89.
Proof. intros H. destruct (fragments_spec d) as (_ & _ & F). unfold max_fragmentable in H. zl. Qed.

Lemma fragments_pos d : (0 < length d)%nat → 0 < fragments d ≤ zlen d.
Proof. intros H. destruct (fragments_spec d) as (F1 & F2 & F3). zl. Qed.

Lemma fragment_spec pooled id d :
  length id = 32%nat → (0 < length d)%nat → zlen d ≤ max_fragmentable →
  zlen (buf pooled) = buffer_size →
  ∃ post, fragment pooled id d = Ret (mkPacket (concat (wires id d) ++ post) (fragments d)
      (zlen d + fragments d * PacketHeaderSize) 0 (ttl pooled)) ∧
    zlen (concat (wires id d) ++ post) = buffer_size.
Proof.
  intros Hid Hd Hmax Hbuf. unfold fragment, wires. pose proof (fragments_bound d Hmax) as HF.
  pose proof (fragments_pos d Hd) as HF0. remember (Z.to_nat (fragments d)) as n eqn:Hn.
  destruct (fragment_loop_run id d n 0 [] (buf pooled) (S (length d) - n) Hid Hd) as (post & E & Hp);
    [lia|done|rewrite Hbuf; change buffer_size with 131071; zl|].
  replace (n + (S (length d) - n))%nat with (S (length d)) in E by (unfold zlen in *; lia).
  change (Z.of_nat 0) with 0 in E. rewrite Z.mul_0_l in E. simpl app in E. rewrite E.
  exists post. split; [|congruence].
  replace (S (length d) - n)%nat with (S (length d - n)) by (unfold zlen in *; lia).
  cbn [fragment_loop]. destruct (fragments_spec d) as (_ & F2 & _).
  destruct (Z.leb_spec (zlen d + fragments d * PacketHeaderSize)
    (Z.of_nat (0 + n) * MaxPacketSize)); [done|exfalso; zl].
Qed.

Lemma length_wire id d i :
  length id = 32%nat → zlen (wire id d i) = PacketHeaderSize + zlen (chunk d i).
Proof. intros H. unfold wire. rewrite zlen_app. unfold zlen. by rewrite length_head. Qed.

(** [next] hands out the datagrams in order. *)
Lemma drain_spec id d k i pre post n t fuel :
  length id = 32%nat → (0 < length d)%nat → fragments d ≤ 89 →
  Z.of_nat (i + k) = fragments d → (k < fuel)%nat →
  zlen pre = Z.min (Z.of_nat i * MaxPacketSize) (zlen d + fragments d * PacketHeaderSize) →
  drain fuel (mkPacket (pre ++ concat (wire id d <$> seq i k) ++ post) n
    (zlen d + fragments d * PacketHeaderSize) (zlen pre) t) = Ret (wire id d <$> seq i k).
Proof.
  intros Hid Hd H89. revert i pre fuel. destruct (fragments_spec d) as (F1 & F2 & F3).
  induction k as [|k IH]; intros i pre [|fuel] Hn Hf Hpre; try lia; cbn [drain];
    unfold next; cbn [buf frg len pos ttl].
  { destruct (Z.leb_spec (zlen d + fragments d * PacketHeaderSize) (zlen pre)); [done|exfalso; zl]. }
  destruct (Z.leb_spec (zlen d + fragments d * PacketHeaderSize) (zlen pre)); [exfalso; zl|].
  set (ps := if _ <? _ then _ else _).
  assert (Hps : ps = zlen (wire id d i)).
  { subst ps. rewrite length_wire, zlen_chunk by done.
    destruct (Z.ltb_spec (zlen d + fragments d * PacketHeaderSize) (zlen pre + MaxPacketSize)); zl. }
  assert (Hsmall : 0 ≤ ps ≤ 1472 ∧ 0 ≤ zlen pre ≤ 131008).
  { rewrite Hps, length_wire, zlen_chunk by done. zl. }
  rewrite !i32_small by (try rewrite i32_small; lia).
  cbn [seq fmap list_fmap concat]. rewrite <-(app_assoc (wire id d i)).
  rewrite go_slice_mid by lia. cbn [obind]. rewrite (app_assoc pre), Hps, <-zlen_app.
  rewrite IH; [done|lia|lia|].
  rewrite zlen_app, length_wire, zlen_chunk, Hpre by done. zl.
Qed.

(** ** Receiving *)

Lemma Uint16_bytes l r :
  0 ≤ l < 65536 → Uint16 (u8 l :: u8 (Z.shiftr l 8) :: r) = Ret l.
Proof.
  intros Hl. unfold Uint16.
  change (go_index (u8 l :: u8 (Z.shiftr l 8) :: r) 1) with (@Ret Z (u8 (Z.shiftr l 8))).
  change (go_index (u8 l :: u8 (Z.shiftr l 8) :: r) 0) with (@Ret Z (u8 l)).
  cbn [obind]. by rewrite le16.
Qed.

Definition wf_packets (m : gmap Z packet) : Prop := map_Forall (λ _ p, zlen (buf p) = buffer_size) m.

(** A datagram that [assemble] can process: it has a whole header and its part
    number points into the buffer. *)
Definition wf_datagram (f : bytes) : bool :=
  (PacketHeaderSize <=? zlen f) &&
  match f !! 32%nat, f !! 33%nat with
  | Some part, Some total => (total =? 1) || ((1 <=? part) && (part <=? 92))
  | _, _ => false
  end.

(** The key under which [assemble] files a datagram, if it does. *)
Definition filed_at (hash : bytes → Z) (f : bytes) : option Z :=
  if decide (f !! 33%nat = Some 1) then None else Some (hash (take 32 f)).

Lemma assemble_cases hash pooled now f m :
  wf_datagram f = true → zlen (buf pooled) = buffer_size → wf_packets m →
  (filed_at hash f = None ∧ ∃ p, assemble hash pooled now f m = Ret (Some p, m)) ∨
  (∃ k p part sz, filed_at hash f = Some k ∧ f !! 32%nat = Some part ∧ 1 ≤ part ≤ 92 ∧
    zlen (buf p) = buffer_size ∧ Uint16 (drop 34 f) = Ret sz ∧
    p = default (mkPacket (buf pooled) (f !!! 33%nat) sz 0 (Add now (second * 5))) (m !! k) ∧
    let p' := mkPacket (copy_at (buf p) (payload * Z.to_nat (part - 1)) (drop 36 f)) (frg p)
      (len p) (i32 (pos p + i32 (zlen f - 36))) (ttl p) in
    assemble hash pooled now f m =
      if pos p' =? i32 (len p) then Ret (Some p', delete k m) else Ret (None, <[k := p']> m)).
Proof.
  unfold wf_datagram. intros [Hl%Z.leb_le Hf]%andb_true_iff Hpool Hm.
  destruct (f !! 32%nat) as [part|] eqn:Ep; [|done].
  destruct (f !! 33%nat) as [total|] eqn:Et; [|done].
  unfold filed_at, assemble. rewrite Et. change (KEY_BYTES + 1) with (Z.of_nat 33).
  go_read Et.
  destruct (Z.eqb_spec total 1) as [->|Hne].
  { left. rewrite decide_True by done. split; [done|].
    change PacketHeaderSize with (Z.of_nat 36). unfold zlen. rewrite go_slice_ok by zl.
    eexists. cbn [obind]. done. }
  right. rewrite decide_False by congruence. simpl in Hf.
  apply andb_true_iff in Hf as [H1%Z.leb_le H2%Z.leb_le].
  assert (∃ sz, Uint16 (drop 34 f) = Ret sz) as [sz Hsz].
  { assert (Hd : length (drop 34 f) = (length f - 34)%nat) by apply length_drop.
    destruct (drop 34 f) as [|b0 [|b1 r]]; [zl..|]. by eexists. }
  assert (Hslice : ∀ n : nat, (n ≤ 36)%nat → go_slice f (Z.of_nat n) (zlen f) = Ret (drop n f)).
  { intros n Hn. unfold zlen. rewrite go_slice_ok by zl. by rewrite take_ge by list_len. }
  assert (Hid : go_slice f 0 KEY_BYTES = Ret (take 32 f)).
  { change 0 with (Z.of_nat 0). change KEY_BYTES with (Z.of_nat 32). by rewrite go_slice_ok by zl. }
  rewrite Hid. cbn [obind]. set (k := hash (take 32 f)).
  set (p := default (mkPacket (buf pooled) (f !!! 33%nat) sz 0 (Add now (second * 5))) (m !! k)).
  exists k, p, part, sz.
  assert (Hbuf : zlen (buf p) = buffer_size).
  { subst p. destruct (m !! k) as [q|] eqn:Ek; simpl; [by apply (Hm k)|done]. }
  split_and!; try done.
  match goal with |- context [obind (match m !! k with Some _ => _ | None => ?c end) ?h] =>
    assert (Hp : match m !! k with Some q => Ret q | None => c end = Ret p) end.
  { subst p. destruct (m !! k) as [q|]; [done|]. simpl default. change (KEY_BYTES + 2) with (Z.of_nat 34).
    rewrite Hslice by lia. cbn [obind]. rewrite Hsz. cbn [obind].
    by rewrite (list_lookup_total_correct _ _ _ Et). }
  rewrite Hp. cbn [obind]. unfold add. change KEY_BYTES with (Z.of_nat 32).
  go_read Ep. change PacketHeaderSize with (Z.of_nat 36).
  rewrite Hslice by lia. cbn [obind].
  replace (MaxPayloadSize * (part - 1)) with (Z.of_nat (payload * Z.to_nat (part - 1))) by zl.
  rewrite go_copy_ok by (change buffer_size with 131071 in *; zl). cbn [obind pos].
  replace (zlen (drop 36 f)) with (zlen f - 36) by (unfold zlen; rewrite length_drop; zl).
  by destruct (_ =? _).
Qed.

(** Whatever a well-formed datagram does, it does it to its own key. *)
Lemma assemble_frame hash pooled now f m :
  wf_datagram f = true → zlen (buf pooled) = buffer_size → wf_packets m →
  ∃ r m', assemble hash pooled now f m = Ret (r, m') ∧ wf_packets m' ∧
    ∀ k, filed_at hash f ≠ Some k → m' !! k = m !! k.
Proof.
  intros Hf Hp Hm.
  destruct (assemble_cases hash pooled now f m Hf Hp Hm)
    as [(_ & p & ->)|(k & p & part & sz & Hk & _ & Hpart & Hbuf & _ & _ & E)].
  { by eauto 10. }
  assert (Hw : wf_packets (<[k := mkPacket (copy_at (buf p) (payload * Z.to_nat (part - 1)) (drop 36 f))
    (frg p) (len p) (i32 (pos p + i32 (zlen f - 36))) (ttl p)]> m)).
  { apply map_Forall_insert_2; [|done]. simpl. unfold zlen.
    rewrite length_copy_at; [done|]. change buffer_size with 131071 in *. zl. }
  simpl in E. destruct (_ =? _) in E; eexists _, _; (split; [exact E|]); split.
  - by apply map_Forall_delete.
  - intros k' Hk'. apply lookup_delete_ne. congruence.
  - done.
  - intros k' Hk'. apply lookup_insert_ne. congruence.
Qed.

(** ** Partial packets

    [received] says what the packet of an event holds once the fragments [got]
    have arrived. *)
Definition chunk_sum (d : bytes) (l : list nat) : Z := foldr (λ i a, zlen (chunk d i) + a) 0 l.

#[export] Instance chunk_sum_perm d : Proper ((≡ₚ) ==> (=)) (chunk_sum d).
Proof. induction 1; simpl; lia. Qed.

Lemma chunk_sum_app d l1 l2 : chunk_sum d (l1 ++ l2) = chunk_sum d l1 + chunk_sum d l2.
Proof. induction l1; simpl; lia. Qed.

Lemma chunk_sum_range d n :
  chunk_sum d (seq 0 n) = Z.min (zlen d) (Z.of_nat n * 1436).
Proof.
  induction n as [|n IH]; [cbn; pose proof (zlen_nonneg d); lia|].
  rewrite seq_S, chunk_sum_app, IH. simpl. rewrite zlen_chunk. pose proof (zlen_nonneg d). lia.
Qed.

Lemma chunk_sum_all d : chunk_sum d (seq 0 (Z.to_nat (fragments d))) = zlen d.
Proof. destruct (fragments_spec d). rewrite chunk_sum_range. lia. Qed.

Lemma chunk_sum_pos d l :
  Forall (λ i, Z.of_nat i < fragments d) l → (0 < length d)%nat → l ≠ [] → 0 < chunk_sum d l.
Proof.
  destruct (fragments_spec d) as (_ & _ & F). intros Hl Hd.
  assert (0 ≤ chunk_sum d l ∧ (l ≠ [] → 0 < chunk_sum d l)) as [_ H]; [|done].
  induction Hl as [|i l Hi _ IH]; [done|]. simpl. rewrite zlen_chunk. unfold zlen in *. lia.
Qed.

Record holding (d : bytes) (t0 : Z) (got : list nat) (p : packet) : Prop := {
  hold_len : len p = zlen d;
  hold_pos : pos p = chunk_sum d got;
  hold_ttl : Add t0 (second * 5) ≤ ttl p;
  hold_buf : zlen (buf p) = buffer_size;
  hold_data : ∀ i x, i ∈ got → (i * payload ≤ x < S i * payload)%nat → (x < length d)%nat →
    buf p !! x = d !! x;
}.

Lemma chunk_sum_nonneg d l : 0 ≤ chunk_sum d l.
Proof. induction l as [|i l IH]; simpl; [lia|]. pose proof (zlen_nonneg (chunk d i)). lia. Qed.

(** Copying a fragment in keeps what is there, duplicates aside. *)
Lemma holding_add d t0 got i p :
  holding d t0 got p → (i ≤ 90)%nat → zlen d ≤ 65535 → chunk_sum d (i :: got) ≤ 65535 →
  holding d t0 (i :: got) (mkPacket (copy_at (buf p) (payload * i) (chunk d i)) (frg p) (len p)
    (i32 (pos p + i32 (zlen (chunk d i)))) (ttl p)).
Proof.
  intros [H1 H2 H3 H4 H5] Hi Hd Hsum. cbn [chunk_sum foldr] in Hsum. fold (chunk_sum d got) in Hsum.
  pose proof (chunk_sum_nonneg d got). pose proof (zlen_nonneg (chunk d i)).
  pose proof (length_chunk d i) as Hc.
  assert (Hb : (payload * i + payload ≤ length (buf p) ∧ length d ≤ length (buf p))%nat) by (change buffer_size with 131071 in *; zl).
  split; cbn [len pos ttl buf]; [done| |done| |].
  - rewrite H2, !i32_small by (try rewrite i32_small; lia). simpl. lia.
  - unfold zlen. rewrite length_copy_at by lia. done.
  - intros j x Hj Hx Hxd. rewrite lookup_copy_at by lia. case_decide as Hin.
    + unfold chunk. rewrite lookup_take_lt, lookup_drop by lia. f_equal. lia.
    + apply elem_of_cons in Hj as [->|Hj]; [lia|]. by apply (H5 j).
Qed.

(** Once every fragment is in, the data is complete. *)
Lemma holding_data d t0 got p :
  holding d t0 got p → got ≡ₚ seq 0 (Z.to_nat (fragments d)) → zlen d ≤ 65535 →
  data p = Ret d.
Proof.
  intros [H1 H2 H3 H4 H5] Hp Hd. unfold data. rewrite H1. change 0 with (Z.of_nat 0). unfold zlen.
  assert (length d ≤ length (buf p))%nat by (change buffer_size with 131071 in *; zl).
  rewrite go_slice_ok by lia. f_equal. rewrite drop_0, Nat.sub_0_r.
  apply list_eq. intros x. destruct (decide (x < length d)%nat) as [Hx|Hx].
  - rewrite lookup_take_lt by done.
    assert (Hpos : (payload ≠ 0)%nat) by zl.
    pose proof (Nat.div_mod x payload Hpos). pose proof (Nat.mod_upper_bound x payload Hpos).
    apply (H5 (x / payload)%nat); [|nia|done].
    rewrite Hp, elem_of_seq. destruct (fragments_spec d) as (_ & F & _). split; [lia|]. zl.
  - rewrite !lookup_ge_None_2; [done|lia|rewrite length_take; lia].
Qed.

Definition received (d : bytes) (k t0 : Z) (got : list nat) (m : gmap Z packet) : Prop :=
  match got with
  | [] => m !! k = None
  | _ => ∃ p, m !! k = Some p ∧ holding d t0 got p
  end.

Lemma wire_fields id d i :
  length id = 32%nat → Z.of_nat i < fragments d ≤ 92 →
  take 32 (wire id d i) = id ∧ wire id d i !! 32%nat = Some (Z.of_nat i + 1) ∧
  wire id d i !! 33%nat = Some (fragments d) ∧
  drop 34 (wire id d i) = u8 (u16 (zlen d)) :: u8 (Z.shiftr (u16 (zlen d)) 8) :: chunk d i ∧
  drop 36 (wire id d i) = chunk d i ∧ wf_datagram (wire id d i) = true.
Proof.
  intros Hid Hi. unfold wire, head.
  rewrite <-!app_assoc. set (r := _ ++ chunk d i).
  assert (Ht : ∀ j : nat, (id ++ r) !! (32 + j)%nat = r !! j).
  { intros j. rewrite lookup_app_r by lia. f_equal. lia. }
  assert (Hdr : ∀ j : nat, drop (32 + j) (id ++ r) = drop j r).
  { intros j. rewrite drop_app_ge by lia. f_equal. lia. }
  assert (H32 : (id ++ r) !! 32%nat = Some (u8 (Z.of_nat i + 1))) by (etrans; [exact (Ht 0%nat)|done]).
  assert (H33 : (id ++ r) !! 33%nat = Some (u8 (fragments d))) by (etrans; [exact (Ht 1%nat)|done]).
  rewrite u8_small in H32, H33 by lia.
  split_and!; [by rewrite take_app_length'|done|done|etrans; [exact (Hdr 2%nat)|done]|
    etrans; [exact (Hdr 4%nat)|done]|].
  unfold wf_datagram. rewrite H32, H33. apply andb_true_iff.
  split; [apply Z.leb_le; subst r; zl|]. apply orb_true_iff. right. lia.
Qed.

(** A fragment of an event goes to the event's packet, a new one if needed. *)
Lemma assemble_wire hash pooled now id d i m :
  length id = 32%nat → MaxPayloadSize < zlen d ≤ 65535 → Z.of_nat i < fragments d →
  zlen (buf pooled) = buffer_size → wf_packets m →
  let p := default (mkPacket (buf pooled) (fragments d) (zlen d) 0 (Add now (second * 5)))
             (m !! hash id) in
  let p' := mkPacket (copy_at (buf p) (payload * i) (chunk d i)) (frg p) (len p)
              (i32 (pos p + i32 (zlen (chunk d i)))) (ttl p) in
  zlen (buf p) = buffer_size ∧
  assemble hash pooled now (wire id d i) m =
    if pos p' =? i32 (len p) then Ret (Some p', delete (hash id) m)
    else Ret (None, <[hash id := p']> m).
Proof.
  intros Hid Hd Hi Hpool Hm. pose proof (fragments_bound d) as Hfr.
  assert (Hfr' : 1 < fragments d ≤ 89).
  { destruct (fragments_spec d) as (_ & F & _). unfold max_fragmentable in Hfr. zl. }
  destruct (wire_fields id d i Hid ltac:(lia)) as (W1 & W2 & W3 & W4 & W5 & W6).
  destruct (assemble_cases hash pooled now _ m W6 Hpool Hm)
    as [[H _]|(k & p & part & sz & Hk & Hp & _ & Hbuf & Hsz & Ep & E)].
  { unfold filed_at in H. rewrite decide_False in H; [done|]. rewrite W3. intros [=]. lia. }
  unfold filed_at in Hk. rewrite decide_False, W1 in Hk by (rewrite W3; intros [=]; lia).
  injection Hk as <-. rewrite W2 in Hp. injection Hp as <-. pose proof (zlen_nonneg d).
  rewrite W4, (Uint16_bytes _ _ (u16_range _)), u16_small in Hsz by lia. injection Hsz as <-.
  rewrite (list_lookup_total_correct _ _ _ W3) in Ep.
  assert (Hl : zlen (wire id d i) - 36 = zlen (chunk d i)) by (rewrite length_wire by done; zl).
  rewrite W5, Hl in E. replace (Z.to_nat (Z.of_nat i + 1 - 1)) with i in E by lia.
  cbv zeta. by rewrite <-Ep.
Qed.

(** One more fragment of the event. *)
Lemma assemble_own hash pooled now id d t0 got i rest m :
  length id = 32%nat → MaxPayloadSize < zlen d ≤ 65535 →
  zlen (buf pooled) = buffer_size → wf_packets m → t0 ≤ now →
  got ++ i :: rest ≡ₚ seq 0 (Z.to_nat (fragments d)) →
  received d (hash id) t0 got m →
  ∃ r m', assemble hash pooled now (wire id d i) m = Ret (r, m') ∧ wf_packets m' ∧
    if decide (rest = []) then data <$> r = Some (Ret d) ∧ m' !! hash id = None
    else r = None ∧ received d (hash id) t0 (i :: got) m'.
Proof.
  intros Hid Hd Hpool Hm Hnow Hperm Hrec.
  assert (Hin : ∀ j, j ∈ got ++ i :: rest → Z.of_nat j < fragments d).
  { intros j. rewrite Hperm, elem_of_seq. lia. }
  assert (Hfr : fragments d ≤ 89) by (apply fragments_bound; unfold max_fragmentable; zl).
  assert (Hi : Z.of_nat i < fragments d) by (apply Hin; set_solver).
  destruct (assemble_wire hash pooled now id d i m Hid Hd Hi Hpool Hm) as [Hbuf E].
  set (p := default _ _) in *. assert (Ep : p = default _ _) by reflexivity. clearbody p.
  assert (Hh : holding d t0 got p).
  { destruct got as [|g got]; cbn [received] in Hrec.
    - rewrite Hrec in Ep. subst p. split; cbn; [done|done|unfold Add; lia|done|set_solver].
    - destruct Hrec as (q & Hq & Hh). rewrite Hq in Ep. by subst p. }
  assert (Hsum : chunk_sum d got + (zlen (chunk d i) + chunk_sum d rest) = zlen d).
  { rewrite <-(chunk_sum_all d), <-Hperm, chunk_sum_app. done. }
  pose proof (chunk_sum_nonneg d got). pose proof (chunk_sum_nonneg d rest).
  pose proof (zlen_nonneg (chunk d i)).
  apply (holding_add d t0 got i p) in Hh; [|lia|lia|simpl; lia].
  set (p' := mkPacket _ _ _ _ _) in *. cbv zeta in E. change (len p) with (len p') in E.
  rewrite (hold_pos _ _ _ _ Hh), (hold_len _ _ _ _ Hh), i32_small in E by lia. simpl chunk_sum in E.
  case_decide as Hr.
  - subst rest. rewrite (proj2 (Z.eqb_eq _ _)) in E by (simpl in *; lia).
    eexists _, _. split; [exact E|]. split; [by apply map_Forall_delete|].
    split; [|apply lookup_delete_eq]. simpl. f_equal. eapply holding_data; [done| |lia].
    by rewrite <-Hperm, Permutation_app_comm.
  - assert (0 < chunk_sum d rest).
    { apply chunk_sum_pos; [|zl|done]. apply Forall_forall. intros j Hj. apply Hin. set_solver. }
    rewrite (proj2 (Z.eqb_neq _ _)) in E by lia. eexists _, _. split; [exact E|].
    split; [apply map_Forall_insert_2; [apply Hh|done]|]. split; [done|].
    exists p'. split; [apply lookup_insert_eq|done].
Qed.

(** ** Runs of a receiver: arrivals of any datagrams, and sweeps *)
Inductive op :=
  | Arrive (pooled : packet) (now : Z) (f : bytes)
  | Sweep (now : Z).

Definition step (hash : bytes → Z) (o : op) (m : gmap Z packet)
    : outcome (option packet * gmap Z packet) :=
  match o with
  | Arrive pooled now f => assemble hash pooled now f m
  | Sweep now => Ret (None, cleanup now m)
  end.

Fixpoint run (hash : bytes → Z) (ops : list op) (m : gmap Z packet)
    : outcome (list (option packet) * gmap Z packet) :=
  match ops with
  | [] => Ret ([], m)
  | o :: ops =>
      let! '(r, m) := step hash o m in
      let! '(rs, m) := run hash ops m in
      Ret (r :: rs, m)
  end.

Definition op_key (hash : bytes → Z) (o : op) : option Z :=
  match o with Arrive _ _ f => filed_at hash f | Sweep _ => None end.

(** The datagrams of a run that are filed at a key, and what was returned on
    their arrival. *)
Definition datagrams (hash : bytes → Z) (k : Z) (ops : list op) : list bytes :=
  omap (λ o, match o with
             | Arrive _ _ f => if decide (filed_at hash f = Some k) then Some f else None
             | Sweep _ => None
             end) ops.

Definition delivered (hash : bytes → Z) (k : Z) (ops : list op) (rs : list (option packet))
    : list (outcome bytes) :=
  omap (λ '(o, r), if decide (op_key hash o = Some k) then data <$> r else None) (zip ops rs).

(** Well-formed datagrams, arriving from [t0] on, and no sweep later than five
    seconds after [t0]. *)
Definition wf_op (t0 : Z) (o : op) : Prop :=
  match o with
  | Arrive pooled now f => zlen (buf pooled) = buffer_size ∧ t0 ≤ now ∧ wf_datagram f = true
  | Sweep now => now ≤ Add t0 (second * 5)
  end.

Lemma cleanup_wf now m : wf_packets m → wf_packets (cleanup now m).
Proof. intros H k p [Hp _]%map_lookup_filter_Some. by apply (H k). Qed.

Lemma cleanup_received d k t0 got now m :
  now ≤ Add t0 (second * 5) → received d k t0 got m → received d k t0 got (cleanup now m).
Proof.
  intros Hnow Hr. unfold cleanup. destruct got; cbn [received] in *.
  - rewrite map_lookup_filter, Hr. done.
  - destruct Hr as (p & Hp & Hh). exists p. split; [|done].
    apply map_lookup_filter_Some_2; [done|]. simpl. unfold After.
    rewrite (proj2 (Z.ltb_ge _ _)) by (destruct Hh; lia). by rewrite andb_false_r.
Qed.

Lemma received_frame d k t0 got m m' :
  m' !! k = m !! k → received d k t0 got m → received d k t0 got m'.
Proof. intros E. destruct got; simpl; by rewrite E. Qed.

(** The state of the event while [rest] is missing. *)
Definition pending (d : bytes) (k t0 : Z) (got rest : list nat) (m : gmap Z packet) : Prop :=
  if decide (rest = []) then m !! k = None else received d k t0 got m.

Lemma run_pending hash id d t0 ops got rest m :
  length id = 32%nat → MaxPayloadSize < zlen d ≤ 65535 → Forall (wf_op t0) ops → wf_packets m →
  got ++ rest ≡ₚ seq 0 (Z.to_nat (fragments d)) →
  datagrams hash (hash id) ops ≡ₚ wire id d <$> rest →
  pending d (hash id) t0 got rest m →
  ∃ rs m', run hash ops m = Ret (rs, m') ∧ m' !! hash id = None ∧
    delivered hash (hash id) ops rs = if decide (rest = []) then [] else [Ret d].
Proof.
  intros Hid Hd Hops. revert got rest m.
  induction Hops as [|o ops Ho Hops IH]; intros got rest m Hm Hperm Hdg Hpend; cbn [run].
  { apply Permutation_nil_l in Hdg. symmetry in Hdg. apply fmap_nil_inv in Hdg. subst rest.
    eexists _, _. split; [done|]. done. }
  destruct o as [pooled now f|now]; cbn [step].
  - destruct Ho as (Hpool & Hnow & Hf).
    destruct (decide (filed_at hash f = Some (hash id))) as [Hk|Hk].
    + unfold datagrams in Hdg. cbn [omap list_omap] in Hdg. rewrite decide_True in Hdg by done.
      fold (datagrams hash (hash id) ops) in Hdg.
      assert (f ∈ wire id d <$> rest) as (i & -> & Hi)%list_elem_of_fmap by (rewrite <-Hdg; set_solver).
      apply elem_of_Permutation in Hi as [rest' Hr]. rewrite Hr in Hdg, Hperm.
      apply Permutation_cons_inv in Hdg.
      assert (Hrest : rest ≠ []) by (intros ->; by apply Permutation_nil_cons in Hr).
      unfold pending in Hpend. rewrite decide_False in Hpend by done.
      rewrite (decide_False (P := rest = [])) by done.
      destruct (assemble_own hash pooled now id d t0 got i rest' m)
        as (r & m1 & E & Hm1 & Hcase); try done. rewrite E. cbn [obind].
      destruct (IH (i :: got) rest' m1) as (rs & m' & -> & Hm' & Hdel); [done| |done| |].
      * rewrite <-Hperm. by rewrite <-Permutation_middle.
      * unfold pending. case_decide; by destruct Hcase.
      * cbn [obind]. eexists _, _. split; [done|]. split; [done|].
        unfold delivered. cbn [zip zip_with omap list_omap op_key]. rewrite decide_True by done.
        fold (delivered hash (hash id) ops rs). rewrite Hdel.
        case_decide; destruct Hcase as [Hr1 _]; [by rewrite Hr1|by rewrite Hr1].
    + unfold datagrams in Hdg. cbn [omap list_omap] in Hdg. rewrite decide_False in Hdg by done.
      destruct (assemble_frame hash pooled now f m Hf Hpool Hm) as (r & m1 & -> & Hm1 & Hfr).
      cbn [obind]. specialize (Hfr _ Hk).
      destruct (IH got rest m1) as (rs & m' & -> & Hm' & Hdel); [done..| |].
      * unfold pending in *. case_decide; [congruence|]. by apply (received_frame _ _ _ _ m).
      * cbn [obind]. eexists _, _. split; [done|]. split; [done|].
        unfold delivered. cbn [zip zip_with omap list_omap op_key]. by rewrite decide_False by done.
  - cbn [obind]. destruct (IH got rest (cleanup now m)) as (rs & m' & -> & Hm' & Hdel); [|done|done| |].
    + by apply cleanup_wf.
    + unfold pending in *. case_decide; [|by apply cleanup_received].
      unfold cleanup. by rewrite map_lookup_filter, Hpend.
    + cbn [obind]. eexists _, _. split; [done|]. split; [done|]. done.
Qed.

(** A block that does not fit the buffer is noticed by the last slice. *)
Lemma fragment_body_overflow id d n i off b :
  length id = 32%nat → 0 ≤ off → off + PacketHeaderSize ≤ zlen b → zlen b < off + MaxPacketSize →
  fragment_body id d n i off b = Panic SliceOutOfRange.
Proof.
  intros Hid Ho H1 H2. unfold fragment_body, PutUint16.
  destruct (go_copy_len b off id) as (b1 & -> & E1); [zl|]. cbn [obind].
  destruct (go_store_len b1 (off + KEY_BYTES) (u8 (i + 1))) as (b2 & -> & E2); [zl|]. cbn [obind].
  destruct (go_store_len b2 (off + KEY_BYTES + 1) (u8 n)) as (b3 & -> & E3); [zl|]. cbn [obind].
  destruct (go_slice_len b3 (off + KEY_BYTES + 2) (zlen b3)) as (s & -> & Es); [zl|lia|]. cbn [obind].
  destruct (go_index_len s 1) as (x & -> & _); [zl|]. cbn [obind].
  destruct (go_store_len b3 (off + KEY_BYTES + 2) (u8 (u16 (zlen d)))) as (b4 & -> & E4); [zl|].
  cbn [obind].
  destruct (go_store_len b4 (off + KEY_BYTES + 2 + 1) (u8 (Z.shiftr (u16 (zlen d)) 8)))
    as (b5 & -> & E5); [zl|]. cbn [obind].
  rewrite go_slice_panics by (rewrite E5, E4, E3, E2, E1; lia). done.
Qed.

Lemma concat_chunks d n :
  concat (chunk d <$> seq 0 n) = take (n * payload) d.
Proof.
  induction n as [|n IH]; [done|]. rewrite seq_S, fmap_app, concat_app, IH. simpl.
  rewrite app_nil_r. unfold chunk. rewrite take_take_drop. f_equal. lia.
Qed.

(** The size field has 16 bits. *)
Lemma Uint16_range s v : wf_bytes s → Uint16 s = Ret v → 0 ≤ v < 65536.
Proof.
  intros Hs E. unfold Uint16 in E. inv_go.
  assert (Hb : ∀ i x, go_index s i = Ret x → 0 ≤ x < 256).
  { intros i y Hy. unfold go_index in Hy. destruct (i <? 0); [done|].
    destruct (s !! Z.to_nat i) eqn:El; [|done]. injection Hy as ->.
    by apply (Forall_lookup_1 _ _ _ _ Hs El). }
  pose proof (Hb _ _ Hx). pose proof (Hb _ _ Hx0).
  assert (Hsh : 0 ≤ Z.shiftl x 8 < 65536).
  { rewrite Z.shiftl_mul_pow2 by lia. change (2 ^ 8) with 256. lia. }
  split; [apply Z.lor_nonneg; lia|].
  destruct (Z.eq_dec (Z.lor x0 (Z.shiftl x 8)) 0) as [->|Hne]; [lia|].
  change 65536 with (2 ^ 16). apply Z.log2_lt_pow2; [pose proof (proj2 (Z.lor_nonneg x0 (Z.shiftl x 8))); lia|].
  rewrite Z.log2_lor by lia.
  assert (Hlog : ∀ z, 0 ≤ z < 65536 → Z.log2 z < 16).
  { intros z Hz. destruct (Z.eq_dec z 0) as [->|]; [done|]. apply Z.log2_lt_pow2; lia. }
  apply Z.max_lub_lt; apply Hlog; lia.
Qed.

Definition small_packets (m : gmap Z packet) : Prop := map_Forall (λ _ p, 0 ≤ len p < 65536) m.

Lemma assemble_small hash pooled now f m r m' :
  wf_bytes f → zlen f ≤ 65535 → small_packets m → assemble hash pooled now f m = Ret (r, m') →
  small_packets m' ∧ (∀ p, r = Some p → 0 ≤ len p < 65536).
Proof.
  intros Hf Hl Hm E. unfold assemble in E. apply obind_Ret in E as (total & Ht & E).
  destruct (total =? 1).
  { apply obind_Ret in E as (b & Hb & E). injection E as <- <-. split; [done|].
    intros p [= <-]. cbn [len].
    destruct (Z.le_gt_cases PacketHeaderSize (zlen f)) as [H|H]; [zl|].
    rewrite go_slice_panics in Hb by lia. done. }
  apply obind_Ret in E as (eid & _ & E). apply obind_Ret in E as (p & Hp & E).
  assert (Hlen : 0 ≤ len p < 65536).
  { destruct (m !! hash eid) as [q|] eqn:Eq; [injection Hp as <-; by apply (Hm _ _ Eq)|].
    apply obind_Ret in Hp as (s & Hs & Hp). apply obind_Ret in Hp as (sz & Hsz & Hp).
    injection Hp as <-. cbn [len]. apply (Uint16_range s); [|done].
    unfold go_slice in Hs. destruct (_ && _) in Hs; [|done]. injection Hs as <-.
    by apply Forall_take, Forall_drop. }
  apply obind_Ret in E as ([full p'] & Hadd & E).
  assert (Hp' : len p' = len p) by (unfold add in Hadd; inv_go; done).
  destruct full; injection E as <- <-; (split; [|intros q Hq; simplify_eq; lia]).
  - by apply map_Forall_delete.
  - apply map_Forall_insert_2; [lia|done].
Qed.

(** A well-formed datagram is always taken, and a packet that is complete can be
    read. *)
Lemma assemble_total hash pooled now f m :
  wf_datagram f = true → wf_bytes f → zlen f ≤ 65535 → zlen (buf pooled) = buffer_size →
  wf_packets m → small_packets m →
  ∃ r m', assemble hash pooled now f m = Ret (r, m') ∧ wf_packets m' ∧ small_packets m' ∧
    ∀ p, r = Some p → ∃ d, data p = Ret d.
Proof.
  intros Hf Hb Hl Hpool Hm Hsm. destruct (assemble_frame hash pooled now f m Hf Hpool Hm) as (r & m' & E & Hm' & _).
  destruct (assemble_small hash pooled now f m r m' Hb Hl Hsm E) as [Hsm' Hr].
  exists r, m'. split_and!; [done..|]. intros p ->. specialize (Hr p eq_refl).
  enough (Hlen : len p ≤ zlen (buf p)).
  { unfold data. destruct (go_slice_len (buf p) 0 (len p)) as (d & Ed & _); [lia|done|by exists d]. }
  destruct (assemble_cases hash pooled now f m Hf Hpool Hm)
    as [(Hk & p' & E')|(k & q & part & sz & _ & _ & Hpart & Hbuf & _ & _ & E')]; rewrite E in E'.
  - unfold assemble in E. apply obind_Ret in E as (total & Ht & E). destruct (total =? 1) eqn:E1.
    + apply obind_Ret in E as (b & Hs & [= <- _]). cbn [len buf].
      apply andb_true_iff in Hf as [Hf%Z.leb_le _].
      destruct (go_slice_len f PacketHeaderSize (zlen f)) as (s & Es & Hls); [zl|lia|]. rewrite Hs in Es.
      injection Es as <-. lia.
    + exfalso. unfold filed_at in Hk. apply go_index_lookup in Ht. change (Z.to_nat (KEY_BYTES + 1)) with 33%nat in Ht.
      rewrite Ht in Hk. case_decide as Hd; [|done]. injection Hd as ->. done.
  - cbv zeta in E'. destruct (_ =? _); [|done]. injection E' as -> _. cbn [len buf] in *. unfold zlen.
    rewrite length_copy_at by (change buffer_size with 131071 in *; zl). fold (zlen (buf q)). rewrite Hbuf.
    change buffer_size with 131071. lia.
Qed.

Lemma data_length p d : data p = Ret d → 0 ≤ len p → zlen d = len p.
Proof.
  unfold data. intros E Hl. destruct (Z.le_gt_cases (len p) (zlen (buf p))) as [H|H].
  - destruct (go_slice_len (buf p) 0 (len p)) as (s & Es & Hs); [lia|done|].
    rewrite E in Es. injection Es as <-. lia.
  - rewrite go_slice_panics in E by lia. done.
Qed.

(** A datagram that is a whole event. *)
Lemma assemble_single hash pooled now id d m :
  length id = 32%nat → 0 < zlen d ≤ MaxPayloadSize →
  fragments d = 1 ∧
  ∃ p, assemble hash pooled now (wire id d 0) m = Ret (Some p, m) ∧ data p = Ret d.
Proof.
  intros Hid Hd. destruct (fragments_spec d) as (F1 & F2 & F3).
  assert (HF : fragments d = 1) by zl. split; [done|].
  destruct (wire_fields id d 0 Hid ltac:(lia)) as (W1 & W2 & W3 & W4 & W5 & W6).
  unfold assemble. rewrite HF in *. change (KEY_BYTES + 1) with (Z.of_nat 33).
  rewrite (go_index_Some _ _ _ W3). cbn [obind Z.eqb Pos.eqb].
  assert (Hlen : zlen (wire id d 0) = PacketHeaderSize + zlen (chunk d 0)) by (by apply length_wire).
  assert (Hc : chunk d 0 = d) by (unfold chunk; rewrite drop_0, take_ge; [done|zl]).
  assert (E : go_slice (wire id d 0) PacketHeaderSize (zlen (wire id d 0)) = Ret d).
  { rewrite <-Hc at 3. unfold wire. apply go_slice_tail; [|done].
    unfold zlen. rewrite length_head by done. zl. }
  rewrite E. cbn [obind]. eexists. split; [done|].
  unfold data. cbn [buf len]. rewrite Hlen, Hc. replace (_ + zlen d - _) with (zlen d) by lia.
  rewrite <-(app_nil_l d) at 1. rewrite <-(app_nil_r d) at 1. by apply go_slice_mid.
Qed.

(** ** Properties *)

(** [needsFragmenting] compares with the size of a datagram, header included, so
    it denies that events of 1437 to 1471 bytes need two fragments. *)
Lemma needsFragmenting_gap d :
  MaxPayloadSize < zlen d < MaxPacketSize → needsFragmenting d = false ∧ fragments d = 2.
Proof.
  intros Hd. destruct (fragments_spec d) as (F1 & F2 & F3). split; [|zl].
  unfold needsFragmenting. rewrite Z.quot_small by zl. done.
Qed.

Lemma wires_sizes id d : length id = 32%nat → Forall (λ f, zlen f ≤ MaxPacketSize) (wires id d).
Proof.
  intros Hid. apply Forall_fmap, Forall_true. intros i. simpl.
  rewrite length_wire, zlen_chunk by done. zl.
Qed.

Lemma fragment_drains pooled id d :
  length id = 32%nat → zlen d ≤ max_fragmentable → zlen (buf pooled) = buffer_size →
  ∃ p, fragment pooled id d = Ret p ∧ zlen (buf p) = buffer_size ∧
    ∀ fuel, (Z.to_nat (fragments d) < fuel)%nat → drain fuel p = Ret (wires id d).
Proof.
  intros Hid Hmax Hbuf. pose proof (fragments_bound d Hmax) as H89.
  destruct d as [|x d'] eqn:Ed.
  { exists (mkPacket (buf pooled) 0 0 0 (ttl pooled)). split_and!; [done..|].
    intros [|fuel] Hf; [lia|]. done. }
  rewrite <-Ed in *. assert (Hpos : (0 < length d)%nat) by (rewrite Ed; simpl; lia). clear Ed.
  destruct (fragment_spec pooled id d Hid Hpos Hmax Hbuf) as (post & E & Hl).
  destruct (fragments_spec d) as (F1 & F2 & F3).
  eexists. split_and!; [exact E|exact Hl|]. intros fuel Hf. unfold wires.
  apply (drain_spec id d (Z.to_nat (fragments d)) 0 [] post); [done..|lia|lia|zl].
Qed.

(** C28: fragmenting an event of up to 89 full payloads never fails, whatever
    the recycled buffer held, and the sender then gets exactly the datagrams of
    the wire format, in order and none longer than the MTU allows; together they
    carry the data, stale bytes of the buffer are never sent, and the buffer
    goes back to the pool. *)
Theorem fragment_datagrams pooled id d :
  length id = 32%nat → zlen d ≤ max_fragmentable → zlen (buf pooled) = buffer_size →
  ∃ p, fragment pooled id d = Ret p ∧ done p = true ∧
    (∀ fuel, (Z.to_nat (fragments d) < fuel)%nat → drain fuel p = Ret (wires id d)) ∧
    Forall (λ f, zlen f ≤ MaxPacketSize) (wires id d) ∧
    concat (drop 36 <$> wires id d) = d.
Proof.
  intros Hid Hmax Hbuf. destruct (fragment_drains pooled id d Hid Hmax Hbuf) as (p & E & Hb & Hdr).
  exists p. split_and!; [done| |done|by apply wires_sizes|].
  - unfold done. rewrite Hb. done.
  - unfold wires. rewrite <-list_fmap_compose. destruct (fragments_spec d) as (_ & F2 & _).
    etrans; [|apply (take_ge d (Z.to_nat (fragments d) * payload)); zl].
    rewrite <-concat_chunks. f_equal. apply list_fmap_ext. intros i x [-> Hi]%lookup_seq. simpl.
    unfold wire. by rewrite drop_app_length' by (by rewrite length_head).
Qed.

Definition demo_data : bytes := replicate (Z.to_nat 1400) 7 ++ [1; 2; 3] ++ replicate (Z.to_nat 40) 9.

Lemma fragment_datagrams_witness :
  ∃ p, fragment fresh (id_of 5) demo_data = Ret p ∧ drain 3 p = Ret (wires (id_of 5) demo_data) ∧
    zlen (wires (id_of 5) demo_data) = 2.
Proof.
  destruct (fragment_datagrams fresh (id_of 5) demo_data ltac:(reflexivity)
    ltac:(apply Z.leb_le; vm_compute; reflexivity) ltac:(vm_compute; reflexivity))
    as (p & E & _ & Hdr & _).
  exists p. split; [exact E|]. split; [apply Hdr; apply Nat.ltb_lt; vm_compute; reflexivity|].
  vm_compute. reflexivity.
Defined.

(** An event longer than that makes [fragment] panic, on the slice of the
    ninetieth fragment. *)
Lemma fragment_too_large pooled id d :
  length id = 32%nat → max_fragmentable < zlen d → zlen (buf pooled) = buffer_size →
  fragment pooled id d = Panic SliceOutOfRange.
Proof.
  intros Hid Hd Hbuf. unfold fragment. unfold max_fragmentable in Hd.
  destruct (fragments_spec d) as (F1 & F2 & F3).
  assert (HF : 90 ≤ fragments d) by zl.
  destruct (fragment_loop_run id d 89 0 [] (buf pooled) (S (length d) - 89) Hid) as (post & E & Hp);
    [zl|lia|done|rewrite Hbuf; change buffer_size with 131071; zl|].
  replace (89 + (S (length d) - 89))%nat with (S (length d)) in E by zl.
  change (Z.of_nat 0) with 0 in E. rewrite Z.mul_0_l, !app_nil_l in E. rewrite E. clear E.
  replace (S (length d) - 89)%nat with (S (length d - 89)) by zl.
  set (b := concat _ ++ post) in *. rewrite Hbuf in Hp. change buffer_size with 131071 in Hp.
  cbn [fragment_loop]. destruct (Z.leb_spec (zlen d + fragments d * PacketHeaderSize)
    (Z.of_nat (0 + 89) * MaxPacketSize)); [exfalso; zl|].
  rewrite fragment_body_overflow; [done|done|zl|rewrite Hp; zl|rewrite Hp; zl].
Qed.

Lemma fragment_too_large_witness :
  fragment fresh (id_of 5) (replicate (Z.to_nat 127805) 1) = Panic SliceOutOfRange.
Proof.
  apply (fragment_too_large fresh (id_of 5) (replicate (Z.to_nat 127805) 1)).
  - reflexivity.
  - apply Z.ltb_lt. vm_compute. reflexivity.
  - vm_compute. reflexivity.
Defined.

(** C1: the fragments of an event of 1437 to 65535 bytes may arrive in any
    order, with datagrams of other events and sweeps of incomplete packets in
    between: as long as no sweep comes later than five seconds after the first
    arrival, exactly one packet is returned for the event, on the arrival of the
    last fragment, it holds the data that was sent, and nothing is left behind. *)
Theorem reassembly_any_order hash id d t0 ops m :
  length id = 32%nat → MaxPayloadSize < zlen d ≤ 65535 → Forall (wf_op t0) ops → wf_packets m →
  m !! hash id = None → datagrams hash (hash id) ops ≡ₚ wires id d →
  ∃ rs m', run hash ops m = Ret (rs, m') ∧ m' !! hash id = None ∧
    delivered hash (hash id) ops rs = [Ret d].
Proof.
  intros Hid Hd Hops Hm Hk Hp.
  assert (Hn : seq 0 (Z.to_nat (fragments d)) ≠ []).
  { pose proof (fragments_pos d ltac:(zl)). by destruct (Z.to_nat (fragments d)) eqn:E; [lia|]. }
  destruct (run_pending hash id d t0 ops [] (seq 0 (Z.to_nat (fragments d))) m)
    as (rs & m' & E & Hm' & Hdel); try done.
  - unfold pending. by rewrite decide_False.
  - rewrite decide_False in Hdel by done. by eauto.
Qed.

Definition demo_hash (b : bytes) : Z := hd 0 b.
Definition demo_wire (i : nat) : bytes := wire (id_of 5) demo_data i.
Definition demo_ops : list op :=
  [Arrive fresh 10 (demo_wire 1); Sweep 20; Arrive fresh 30 (wire (id_of 6) demo_data 1);
   Arrive fresh 40 (demo_wire 0)].

Lemma reassembly_any_order_witness :
  ∃ rs m', run demo_hash demo_ops ∅ = Ret (rs, m') ∧
    delivered demo_hash 5 demo_ops rs = [Ret demo_data].
Proof.
  destruct (reassembly_any_order demo_hash (id_of 5) demo_data 0 demo_ops ∅) as (rs & m' & E & _ & H).
  - reflexivity.
  - split; [apply Z.ltb_lt|apply Z.leb_le]; vm_compute; reflexivity.
  - unfold demo_ops. repeat (apply Forall_cons; split); [..|apply Forall_nil; exact I];
      cbn [wf_op]; try (split; [|split]);
      first [vm_compute; reflexivity | apply Z.leb_le; vm_compute; reflexivity].
  - intros k p Hp. rewrite lookup_empty in Hp. discriminate Hp.
  - reflexivity.
  - assert (H1 : datagrams demo_hash (demo_hash (id_of 5)) demo_ops = [demo_wire 1; demo_wire 0]).
    { vm_compute. reflexivity. }
    assert (H2 : wires (id_of 5) demo_data = [demo_wire 0; demo_wire 1]).
    { vm_compute. reflexivity. }
    rewrite H1, H2. apply Permutation_swap.
  - exists rs, m'. split; [exact E|exact H].
Defined.

(** An event of up to 1436 bytes travels in one datagram and comes back at
    once, whatever packets are pending. *)
Theorem single_fragment_roundtrip hash pooled now id d m :
  length id = 32%nat → 0 < zlen d ≤ MaxPayloadSize →
  wires id d = [wire id d 0] ∧
  ∃ p, assemble hash pooled now (wire id d 0) m = Ret (Some p, m) ∧ data p = Ret d.
Proof.
  intros Hid Hd. destruct (assemble_single hash pooled now id d m Hid Hd) as (HF & p & E & Hp).
  split; [unfold wires; by rewrite HF|]. by exists p.
Qed.

Lemma single_fragment_roundtrip_witness :
  ∃ p, assemble demo_hash fresh 0 (wire (id_of 5) [1; 2; 3] 0) ∅ = Ret (Some p, ∅) ∧
    data p = Ret [1; 2; 3].
Proof.
  destruct (single_fragment_roundtrip demo_hash fresh 0 (id_of 5) [1; 2; 3] ∅) as (_ & p & E & H).
  - reflexivity.
  - split; [apply Z.ltb_lt|apply Z.leb_le]; vm_compute; reflexivity.
  - exists p. split; [exact E|exact H].
Defined.

(** C31: an event of 65536 bytes or more is fragmented and sent without an
    error, but no receiver ever returns it: the header keeps the size in 16 bits,
    so whatever arrives in whatever order, every packet returned is shorter. *)
Theorem oversized_never_delivered hash pooled id d ops m rs m' :
  length id = 32%nat → 65535 < zlen d ≤ max_fragmentable → zlen (buf pooled) = buffer_size →
  Forall (λ o, match o with Arrive _ _ f => wf_bytes f ∧ zlen f ≤ 65535 | Sweep _ => True end) ops →
  small_packets m → run hash ops m = Ret (rs, m') →
  (∃ p, fragment pooled id d = Ret p) ∧ ∀ p, Some p ∈ rs → data p ≠ Ret d.
Proof.
  intros Hid Hd Hbuf Hops Hm E. split.
  { destruct (fragment_spec pooled id d Hid ltac:(zl) ltac:(lia) Hbuf) as (post & -> & _). by eauto. }
  revert m rs m' Hm E. induction Hops as [|o ops Ho Hops IH]; intros m rs m' Hm E p Hp; cbn [run] in E.
  { injection E as <- <-. by apply not_elem_of_nil in Hp. }
  apply obind_Ret in E as ([r m1] & Hs & E). apply obind_Ret in E as ([rs' m2] & Hr & E).
  injection E as <- <-.
  assert (small_packets m1 ∧ (∀ p, r = Some p → 0 ≤ len p < 65536)) as [Hm1 Hr1].
  { destruct o as [pooled' now f|now]; cbn [step] in Hs.
    - by eapply assemble_small; [apply Ho|apply Ho|exact Hm|exact Hs].
    - injection Hs as <- <-. split; [|done]. intros k q [Hq _]%map_lookup_filter_Some.
      by apply (Hm k). }
  apply elem_of_cons in Hp as [<-|Hp]; [|by apply (IH m1 rs' m2)].
  specialize (Hr1 p eq_refl). intros Hdata. apply data_length in Hdata; lia.
Qed.

Definition oversized : bytes := replicate (Z.to_nat 65537) 3.

Lemma oversized_never_delivered_witness :
  ∃ rs m', run demo_hash [Arrive fresh 0 (wire (id_of 5) oversized 0)] ∅ = Ret (rs, m') ∧
    ∀ p, Some p ∈ rs → data p ≠ Ret oversized.
Proof.
  assert (∃ rs m', run demo_hash [Arrive fresh 0 (wire (id_of 5) oversized 0)] ∅ = Ret (rs, m'))
    as (rs & m' & E).
  { destruct (assemble_frame demo_hash fresh 0 (wire (id_of 5) oversized 0) ∅) as (r & m' & E & _).
    - vm_compute. reflexivity.
    - vm_compute. reflexivity.
    - intros k p Hp. rewrite lookup_empty in Hp. discriminate Hp.
    - exists [r], m'. cbn [run step]. rewrite E. reflexivity. }
  exists rs, m'. split; [exact E|].
  apply (oversized_never_delivered demo_hash fresh (id_of 5) oversized
    [Arrive fresh 0 (wire (id_of 5) oversized 0)] ∅ rs m').
  - reflexivity.
  - split; [apply Z.ltb_lt|apply Z.leb_le]; vm_compute; reflexivity.
  - vm_compute. reflexivity.
  - apply Forall_cons. split; [|apply Forall_nil; exact I].
    split; [decided|apply Z.leb_le; vm_compute; reflexivity].
  - intros k p Hp. rewrite lookup_empty in Hp. discriminate Hp.
  - exact E.
Defined.

(** ** Fragments that arrive more than once *)

(** The fragments of an event as they arrive, each with what the pool and the
    clock give at that moment. *)
Definition arrivals (id d : bytes) (l : list (packet * Z * nat)) : list op :=
  (λ x, Arrive x.1.1 x.1.2 (wire id d x.2)) <$> l.

(** The packet after the fragments [got], in a buffer that held [b0]. *)
Record counting (d b0 : bytes) (got : list nat) (p : packet) : Prop := {
  count_len : len p = zlen d;
  count_pos : pos p = chunk_sum d got;
  count_buf : zlen (buf p) = buffer_size;
  count_data : ∀ x, (x < length d)%nat →
    buf p !! x = if decide ((x / payload)%nat ∈ got) then d !! x else b0 !! x;
}.

Lemma counting_add d b0 got i p :
  counting d b0 got p → (i ≤ 90)%nat → zlen d ≤ 65535 → chunk_sum d (got ++ [i]) < 2 ^ 31 →
  counting d b0 (got ++ [i]) (mkPacket (copy_at (buf p) (payload * i) (chunk d i)) (frg p) (len p)
    (i32 (pos p + i32 (zlen (chunk d i)))) (ttl p)).
Proof.
  intros [H1 H2 H3 H4] Hi Hd Hsum. rewrite chunk_sum_app in Hsum. cbn [chunk_sum foldr] in Hsum.
  pose proof (chunk_sum_nonneg d got). pose proof (zlen_nonneg (chunk d i)).
  pose proof (length_chunk d i) as Hc.
  assert (Hb : (payload * i + payload ≤ length (buf p) ∧ length d ≤ length (buf p))%nat) by (change buffer_size with 131071 in *; zl).
  assert (Hz : (payload ≠ 0)%nat) by zl.
  split; cbn [len pos buf]; [done| | |].
  - rewrite H2, chunk_sum_app, !i32_small by (try rewrite i32_small; lia). cbn. lia.
  - unfold zlen. by rewrite length_copy_at by lia.
  - intros x Hx. rewrite lookup_copy_at by lia.
    pose proof (Nat.div_mod x payload Hz). pose proof (Nat.mod_upper_bound x payload Hz).
    case_decide as Hin.
    + assert (x / payload = i)%nat as -> by (symmetry; apply (Nat.div_unique _ _ _ (x - payload * i)); lia).
      rewrite decide_True by set_solver. unfold chunk. rewrite lookup_take_lt, lookup_drop by lia. f_equal. lia.
    + rewrite H4 by done. assert (x / payload ≠ i)%nat by nia.
      destruct (decide ((x / payload)%nat ∈ got)); [rewrite decide_True by set_solver|rewrite decide_False by set_solver]; done.
Qed.

Lemma counting_data d b0 got p :
  counting d b0 got p → zlen d ≤ 65535 →
  ∃ d', data p = Ret d' ∧ length d' = length d ∧
    ∀ x, (x < length d)%nat → d' !! x = if decide ((x / payload)%nat ∈ got) then d !! x else b0 !! x.
Proof.
  intros [H1 H2 H3 H4] Hd. exists (take (length d) (buf p)). unfold data. rewrite H1. change 0 with (Z.of_nat 0). unfold zlen.
  assert (length d ≤ length (buf p))%nat by (change buffer_size with 131071 in *; zl).
  rewrite go_slice_ok by lia. rewrite drop_0, Nat.sub_0_r, length_take. split_and!; [done|lia|].
  intros x Hx. rewrite lookup_take_lt by done. by apply H4.
Qed.

(** The packet that a fragment finds. *)
Definition found_packet (d : bytes) (x : packet * Z * nat) (o : option packet) : packet :=
  default (mkPacket (buf x.1.1) (fragments d) (zlen d) 0 (Add x.1.2 (second * 5))) o.

Lemma run_counting hash id d b0 x l got m :
  length id = 32%nat → MaxPayloadSize < zlen d ≤ 65535 →
  Forall (λ x, zlen (buf x.1.1) = buffer_size ∧ Z.of_nat x.2 < fragments d) (x :: l) → wf_packets m →
  counting d b0 got (found_packet d x (m !! hash id)) →
  chunk_sum d (got ++ (x :: l).*2) < 2 ^ 31 →
  (∀ k, (0 < k < length (x :: l))%nat → chunk_sum d (got ++ take k (x :: l).*2) ≠ zlen d) →
  ∃ p m', counting d b0 (got ++ (x :: l).*2) p ∧
    if decide (chunk_sum d (got ++ (x :: l).*2) = zlen d)
    then run hash (arrivals id d (x :: l)) m = Ret (replicate (length l) None ++ [Some p], m') ∧ m' !! hash id = None
    else run hash (arrivals id d (x :: l)) m = Ret (replicate (length l) None ++ [None], m') ∧ m' !! hash id = Some p.
Proof.
  intros Hid Hd. revert x got m. induction l as [|y l IH]; intros x got m Hl Hm Hp Hsum Hfirst;
    apply Forall_cons_1 in Hl as [[Hpool Hi] Hl]; destruct x as [[pooled now] i]; cbn [fst snd] in *.
  all: destruct (assemble_wire hash pooled now id d i m Hid Hd Hi Hpool Hm) as [_ E]; cbv zeta in E.
  all: change (default _ _) with (found_packet d (pooled, now, i) (m !! hash id)) in E.
  all: assert (Hfr : fragments d ≤ 89) by (apply fragments_bound; unfold max_fragmentable; zl).
  all: assert (Hi90 : (i ≤ 90)%nat) by lia.
  all: pose proof (counting_add d b0 got i _ Hp Hi90 (proj2 Hd)) as Hadd.
  all: pose proof (zlen_nonneg d) as Hd0.
  all: set (p := found_packet _ _ _) in *; set (p' := mkPacket _ _ _ _ _) in *; change (len p) with (len p') in E.
  - cbn [fmap list_fmap snd] in *. specialize (Hadd Hsum).
    rewrite (count_pos _ _ _ _ Hadd), (count_len _ _ _ _ Hadd), i32_small in E by lia.
    exists p'. case_decide as Hc.
    + rewrite (proj2 (Z.eqb_eq _ _) Hc) in E. eexists. split; [done|]. cbn [run step arrivals fmap list_fmap fst snd]. rewrite E.
      split; [done|apply lookup_delete_eq].
    + rewrite (proj2 (Z.eqb_neq _ _) Hc) in E. eexists. split; [done|]. cbn [run step arrivals fmap list_fmap fst snd]. rewrite E.
      split; [done|apply lookup_insert_eq].
  - assert (Hr : got ++ ((pooled, now, i) :: y :: l).*2 = (got ++ [i]) ++ (y :: l).*2) by (by rewrite <-app_assoc).
    assert (Hs1 : chunk_sum d (got ++ [i]) < 2 ^ 31).
    { pose proof (chunk_sum_nonneg d (y :: l).*2). rewrite Hr, (chunk_sum_app d (got ++ [i])) in Hsum. lia. }
    specialize (Hadd Hs1). rewrite (count_pos _ _ _ _ Hadd), (count_len _ _ _ _ Hadd), i32_small in E by lia.
    pose proof (Hfirst 1%nat ltac:(cbn; lia)) as H1. cbn [fmap list_fmap take snd] in H1.
    rewrite (proj2 (Z.eqb_neq _ _) H1) in E.
    destruct (IH y (got ++ [i]) (<[hash id := p']> m)) as (q & m' & Hq & Hrun); [done| | | | |].
    + apply map_Forall_insert_2; [apply Hadd|done].
    + by rewrite lookup_insert_eq.
    + by rewrite <-Hr.
    + intros k Hk. specialize (Hfirst (S k)). cbn [length fmap list_fmap take snd] in Hfirst |- *.
      rewrite <-app_assoc. apply Hfirst. cbn in Hk. lia.
    + rewrite Hr. exists q, m'. split; [done|].
      change (arrivals id d ((pooled, now, i) :: y :: l)) with (Arrive pooled now (wire id d i) :: arrivals id d (y :: l)).
      cbn [run step length replicate]. rewrite E. cbn [obind].
      case_decide; destruct Hrun as [-> Hm']; cbn [obind]; (split; [done|exact Hm']).
Qed.

(** C32: a packet is complete when the bytes received add up to the size of the
    event, whichever fragments they came with.  Let fragments of an event arrive in
    any order, some of them more than once and some not at all, so that no earlier
    arrival brought the count to the size of the event.  If the last one does,
    it yields a packet of that size in which the places of the fragments that did
    not arrive hold whatever the recycled buffer held; if it does not, as when
    duplicates have taken the count past the size, there is no packet, even if
    every fragment has arrived. *)
Theorem duplicates_are_counted hash id d x l m :
  length id = 32%nat → MaxPayloadSize < zlen d ≤ 65535 →
  Forall (λ x, zlen (buf x.1.1) = buffer_size ∧ Z.of_nat x.2 < fragments d) (x :: l) →
  wf_packets m → m !! hash id = None →
  let arrived := (x :: l).*2 in
  chunk_sum d arrived < 2 ^ 31 →
  (∀ k, (0 < k < length arrived)%nat → chunk_sum d (take k arrived) ≠ zlen d) →
  ∃ r m', run hash (arrivals id d (x :: l)) m = Ret (replicate (length l) None ++ [r], m') ∧
    (chunk_sum d arrived ≠ zlen d → r = None) ∧
    (chunk_sum d arrived = zlen d → ∃ p d', r = Some p ∧ data p = Ret d' ∧ length d' = length d ∧
      ∀ j, (j < length d)%nat →
        d' !! j = if decide ((j / payload)%nat ∈ arrived) then d !! j else buf x.1.1 !! j).
Proof.
  intros Hid Hd Hl Hm Hk arrived Hsum Hfirst.
  destruct (run_counting hash id d (buf x.1.1) x l [] m) as (p & m' & Hp & Hrun); try done.
  { rewrite Hk. apply Forall_cons_1 in Hl as [[Hb _] _]. by split. }
  { intros k Hk'. apply Hfirst. unfold arrived. by rewrite length_fmap. }
  destruct (counting_data _ _ _ _ Hp) as (d' & E & Hlen & Hd'); [lia|]. cbn [Datatypes.app] in *. fold arrived in Hrun, Hd'.
  case_decide as Hc; destruct Hrun as [-> _]; eexists _, m'; (split; [done|]); split; try done.
  intros _. by exists p, d'.
Qed.

(** Of three fragments the first arrives twice and the second is lost: the packet
    is complete when the third arrives; if the second had arrived instead, it would
    not be. *)
Definition three_parts : bytes := replicate (Z.to_nat 2972) 3.
Definition twice (last : nat) : list (packet * Z * nat) := [(fresh, 1, 0%nat); (fresh, 2, last)].

Lemma duplicates_are_counted_witness :
  (∃ p m', run demo_hash (arrivals (id_of 5) three_parts ((fresh, 0, 0%nat) :: twice 2)) ∅ =
      Ret ([None; None; Some p], m') ∧
    ∃ d', data p = Ret d' ∧ length d' = length three_parts ∧ d' !! 1436%nat = Some 0) ∧
  (∃ m', run demo_hash (arrivals (id_of 5) three_parts ((fresh, 0, 0%nat) :: twice 1)) ∅ =
      Ret ([None; None; None], m')).
Proof.
  assert (Hk : ∀ last k, (0 < k < 3)%nat → chunk_sum three_parts (take k [0; 0; last]%nat) ≠ zlen three_parts).
  { intros last k Hk. assert (k = 1 ∨ k = 2)%nat as [->| ->] by lia; vm_compute; discriminate. }
  assert (Hm : wf_packets ∅) by (intros k p Hp; rewrite lookup_empty in Hp; discriminate Hp).
  split.
  - destruct (duplicates_are_counted demo_hash (id_of 5) three_parts (fresh, 0, 0%nat) (twice 2) ∅)
      as (r & m' & E & _ & Hr); [vm_compute; reflexivity| | |exact Hm|reflexivity|apply Z.ltb_lt; vm_compute; reflexivity|exact (Hk 2%nat)|].
    + split; [apply Z.ltb_lt|apply Z.leb_le]; vm_compute; reflexivity.
    + repeat (apply Forall_cons; split; [split; [vm_compute; reflexivity|apply Z.ltb_lt; vm_compute; reflexivity]|]).
      apply Forall_nil. exact I.
    + destruct Hr as (p & d' & Er & Ed & Hlen & Hd); [vm_compute; reflexivity|]. subst r.
      exists p, m'. split; [exact E|]. exists d'. split; [exact Ed|]. split; [exact Hlen|].
      rewrite Hd; [|apply Nat.ltb_lt]; vm_compute; reflexivity.
  - destruct (duplicates_are_counted demo_hash (id_of 5) three_parts (fresh, 0, 0%nat) (twice 1) ∅)
      as (r & m' & E & Hr & _); [vm_compute; reflexivity| | |exact Hm|reflexivity|apply Z.ltb_lt; vm_compute; reflexivity|exact (Hk 1%nat)|].
    + split; [apply Z.ltb_lt|apply Z.leb_le]; vm_compute; reflexivity.
    + repeat (apply Forall_cons; split; [split; [vm_compute; reflexivity|apply Z.ltb_lt; vm_compute; reflexivity]|]).
      apply Forall_nil. exact I.
    + rewrite Hr in E by (vm_compute; discriminate). exists m'. exact E.
Defined.

(** C33: nothing checks a datagram before it is parsed: one shorter than 34
    bytes, or a fragment with part number 0 or above 92, makes [assemble]
    panic. *)
Theorem malformed_datagram_panics hash pooled now f m :
  zlen (buf pooled) = buffer_size → wf_packets m →
  (zlen f ≤ 33 → assemble hash pooled now f m = Panic IndexOutOfRange) ∧
  (∀ part total, PacketHeaderSize ≤ zlen f → f !! 32%nat = Some part → f !! 33%nat = Some total →
    total ≠ 1 → part < 1 ∨ 92 < part →
    assemble hash pooled now f m = Panic SliceOutOfRange).
Proof.
  intros Hb Hm. unfold assemble. split.
  { intros Hl. by rewrite go_index_panics by zl. }
  intros part total Hl Hp Ht Hne Hpart. change (KEY_BYTES + 1) with (Z.of_nat 33).
  go_read Ht. rewrite (proj2 (Z.eqb_neq _ _) Hne).
  destruct (go_slice_len f 0 KEY_BYTES) as (eid & -> & _); [zl|zl|]. cbn [obind].
  destruct (go_slice_len f (KEY_BYTES + 2) (zlen f)) as (s & -> & Hs); [zl|zl|]. cbn [obind].
  destruct (go_index_len s 0) as (b0 & E0 & _); [zl|].
  destruct (go_index_len s 1) as (b1 & E1 & _); [zl|].
  unfold Uint16. rewrite E0, E1. cbn [obind]. set (q := mkPacket _ _ _ _ _).
  assert (∃ p, match m !! hash eid with Some p => Ret p | None => Ret q end = Ret p ∧
    zlen (buf p) = buffer_size) as (p & -> & Hpb).
  { destruct (m !! hash eid) as [p|] eqn:E; eexists; split; try done. by apply (Hm _ _ E). }
  cbn [obind]. unfold add. change KEY_BYTES with (Z.of_nat 32). go_read Hp. destruct (go_slice_len f PacketHeaderSize (zlen f)) as (dd & -> & _); [zl|lia|].
  cbn [obind]. unfold go_copy. rewrite Hpb. change buffer_size with 131071.
  destruct (Z.leb_spec 0 (MaxPayloadSize * (part - 1))), (Z.leb_spec (MaxPayloadSize * (part - 1)) 131071);
    cbn; done || (exfalso; zl).
Qed.

Lemma malformed_datagram_panics_witness :
  assemble demo_hash fresh 0 [1; 2; 3] ∅ = Panic IndexOutOfRange ∧
  assemble demo_hash fresh 0 (id_of 5 ++ [0; 2; 9; 0; 7]) ∅ = Panic SliceOutOfRange.
Proof.
  assert (H : wf_packets ∅) by (intros k p Hp; rewrite lookup_empty in Hp; discriminate Hp).
  split.
  - apply (malformed_datagram_panics demo_hash fresh 0 [1; 2; 3] ∅); [vm_compute; reflexivity|exact H|].
    apply Z.leb_le. reflexivity.
  - apply (malformed_datagram_panics demo_hash fresh 0 (id_of 5 ++ [0; 2; 9; 0; 7]) ∅
      ltac:(vm_compute; reflexivity) H) with (part := 0) (total := 2);
      try reflexivity; [apply Z.leb_le; reflexivity|discriminate|left; reflexivity].
Defined.

End Packet.
