(* ===== verification/Storage.v ===== *)
(** * Storage: the interface and the in-memory implementation

    Models [storage.go].  The [Storage] interface is a class of operations; the
    in-memory storage keeps, under the hash of a key, an item with the values
    set for it and the hashes of those values.

    Each item has its own mutex, [mu].  [Get] takes no lock; [Set] and the
    background sweep lock an item and release it; [Iterate] releases it only if
    the callback lets it finish the item.  The order in which [sync.Map.Range]
    visits the keys is an argument, and so is the hash function. *)
From stdpp Require Import base list numbers gmap sets sorting.
From Stdlib Require Import Lia.
From S2P Require Import Prelude.
Local Open Scope Z_scope.

(** [Value], with its unexported [expires]. *)
Record Value := mkValue {
  v_Key : bytes;
  v_Value : bytes;
  v_TTL : Z;
  v_Created : Z;
  v_expires : Z;
}.

#[export] Instance Value_eq_dec : EqDecision Value.
Proof. solve_decision. Defined.

(** The [Storage] interface.  The argument [now] of [Set] is the clock. *)
Class Storage (St : Type) := {
  st_Get : bytes → Z → St → outcome (list Value * bool);
  st_Set : Z → bytes → bytes → Z → Z → St → outcome (bool * St);
  st_Iterate : ∀ {A}, (A → Value → outcome (A * bool)) → A → St → outcome (A * St);
}.

(** The round that each storage's own goroutine makes from time to time. *)
Class Sweeper (St : Type) := st_sweep : Z → St → outcome St.

Module Memory.

Record item := mkItem { contains : gset Z; values : list Value; mu : bool }.
Abbreviation storage := (gmap Z item).
Definition newInMemoryStorage : storage := ∅.

Definition lock (i : item) : outcome item :=
  if mu i then Blocked else Ret (mkItem (contains i) (values i) true).
Definition unlock (i : item) : item := mkItem (contains i) (values i) false.

Definition insert (vh : Z) (value : Value) (i : item) : outcome (bool * item) :=
  let! i := lock i in
  if decide (vh ∈ contains i) then Ret (true, unlock i)
  else Ret (true, unlock (mkItem ({[vh]} ∪ contains i) (values i ++ [value]) (mu i))).

Section model.
Variable hash : bytes → Z.

(** The index computed by the loop of [Get]. *)
Definition from_index (from : Z) (vs : list Value) : nat :=
  foldl (λ index v, if Before (v_Created v) from then S index else index) 0%nat vs.

Definition Get (k : bytes) (from : Z) (s : storage) : outcome (list Value * bool) :=
  match s !! hash k with
  | None => Ret ([], false)
  | Some it =>
      if IsZero from then Ret (values it, true)
      else
        let index := from_index from (values it) in
        if (length (values it) <=? index)%nat then Ret ([], false)
        else
          let! vs := go_slice (values it) (Z.of_nat index) (zlen (values it)) in
          Ret (vs, true)
  end.

(** [Set]; without a concurrent store [LoadOrStore] stores. *)
Definition Set_ (now : Z) (k v : bytes) (created ttl : Z) (s : storage)
    : outcome (bool * storage) :=
  let key := hash k in
  let vh := hash v in
  let value := mkValue k v ttl created (Add now ttl) in
  match s !! key with
  | Some it =>
      let! '(ok, it) := insert vh value it in
      Ret (ok, <[key := it]> s)
  | None => Ret (true, <[key := mkItem {[vh]} [value] false]> s)
  end.

(** The callbacks on one item: [None] if one of them stopped. *)
Fixpoint visit {A} (cb : A → Value → outcome (A * bool)) (a : A) (vs : list Value)
    : outcome (A * bool) :=
  match vs with
  | [] => Ret (a, true)
  | v :: vs =>
      let! '(a, more) := cb a v in
      if more : bool then visit cb a vs else Ret (a, false)
  end.

(** [Iterate] over the keys in the order of [Range]; a key deleted meanwhile
    is skipped. *)
Fixpoint Iterate {A} (cb : A → Value → outcome (A * bool)) (a : A) (ks : list Z) (s : storage)
    : outcome (A * storage) :=
  match ks with
  | [] => Ret (a, s)
  | k :: ks =>
      match s !! k with
      | None => Iterate cb a ks s
      | Some it =>
          let! it := lock it in
          let! '(a, more) := visit cb a (values it) in
          if more : bool then Iterate cb a ks (<[k := unlock it]> s)
          else Ret (a, <[k := it]> s)
      end
  end.

(** The deletions of [cleanup] for the values of one key. *)
Definition expire (now k : Z) (s : storage) (vs : list Value) : storage :=
  foldl (λ s v, if After (v_expires v) now then delete k s else s) s vs.

(** One round of the loop of [cleanup].  Unlocking an item that is no longer
    in the map changes nothing that is observable. *)
Fixpoint cleanup (now : Z) (ks : list Z) (s : storage) : outcome storage :=
  match ks with
  | [] => Ret s
  | k :: ks =>
      match s !! k with
      | None => cleanup now ks s
      | Some it =>
          let! it := lock it in
          let s := expire now k s (values it) in
          let s := match s !! k with Some _ => <[k := unlock it]> s | None => s end in
          cleanup now ks s
      end
  end.
End model.

(** The in-memory storage as a [Storage], for a hash and a range order. *)
Definition Memory_Storage (hash : bytes → Z) (range : storage → list Z) : Storage storage := {|
  st_Get := Get hash;
  st_Set := Set_ hash;
  st_Iterate A cb a s := Iterate cb a (range s) s;
|}.

(** ** What the storage promises

    The values of a key are the ones set for it, each value once, in the order
    in which they were first set. *)
Record write := mkWrite { w_now : Z; w_key : bytes; w_value : bytes; w_created : Z; w_ttl : Z }.

Definition value_of (w : write) : Value :=
  mkValue (w_key w) (w_value w) (w_ttl w) (w_created w) (Add (w_now w) (w_ttl w)).

Definition spec_add (vs : list Value) (w : write) : list Value :=
  if decide (w_value w ∈ v_Value <$> vs) then vs else vs ++ [value_of w].

Definition spec_values (k : bytes) (ws : list write) : list Value :=
  foldl spec_add [] (filter (λ w, w_key w = k) ws).

Definition set_write (hash : bytes → Z) (s : storage) (w : write) : outcome storage :=
  let! '(_, s) := Set_ hash (w_now w) (w_key w) (w_value w) (w_created w) (w_ttl w) s in Ret s.

Definition set_all (hash : bytes → Z) (ws : list write) : outcome storage :=
  ofold (set_write hash) newInMemoryStorage ws.

(** No two byte strings among the keys, respectively the values, collide. *)
Definition collision_free (hash : bytes → Z) (l : list bytes) : Prop :=
  ∀ x y, x ∈ l → y ∈ l → hash x = hash y → x = y.

Definition inputs (ws : list write) : list bytes := (w_key <$> ws) ++ (w_value <$> ws).

(** The item of a key after the writes [ws]. *)
Definition item_for (hash : bytes → Z) (k : bytes) (ws : list write) : option item :=
  if decide (k ∈ w_key <$> ws)
  then Some (mkItem (list_to_set ((hash ∘ v_Value) <$> spec_values k ws)) (spec_values k ws) false)
  else None.

Lemma spec_values_snoc k ws w :
  spec_values k (ws ++ [w]) =
    if decide (w_key w = k) then spec_add (spec_values k ws) w else spec_values k ws.
Proof.
  unfold spec_values. rewrite filter_app, foldl_app. simpl. rewrite filter_cons, filter_nil.
  by case_decide.
Qed.

Lemma spec_values_from k ws v :
  v ∈ spec_values k ws → v_Key v = k ∧ v_Value v ∈ w_value <$> ws ∧ k ∈ w_key <$> ws.
Proof.
  induction ws as [|w ws IH] using rev_ind; [by intros ?%not_elem_of_nil|].
  rewrite spec_values_snoc, !fmap_app. unfold spec_add.
  repeat case_decide; rewrite ?elem_of_app, ?list_elem_of_singleton; [tauto| |tauto].
  intros [Hv|Hv]; [tauto|]. rewrite Hv. subst k. simpl. set_solver.
Qed.

Lemma spec_values_nodup k ws : NoDup (v_Value <$> spec_values k ws).
Proof.
  induction ws as [|w ws IH] using rev_ind; [constructor|].
  rewrite spec_values_snoc. unfold spec_add. repeat case_decide; try done.
  rewrite fmap_app. apply NoDup_app. split_and!; [done| |apply NoDup_singleton].
  intros x Hx Hw%list_elem_of_singleton. subst x. done.
Qed.

Lemma spec_contains hash U k ws w :
  collision_free hash U → (∀ x, x ∈ inputs (ws ++ [w]) → x ∈ U) →
  hash (w_value w) ∈ (list_to_set ((hash ∘ v_Value) <$> spec_values k ws) : gset Z) ↔
  w_value w ∈ v_Value <$> spec_values k ws.
Proof.
  intros Hc HU. rewrite elem_of_list_to_set, !list_elem_of_fmap. split.
  - intros (v & Hx & Hin). exists v. split; [|done]. apply Hc; [..|done]; apply HU; unfold inputs;
      rewrite !fmap_app; [set_solver|]. apply spec_values_from in Hin as (_ & Hv & _). set_solver.
  - intros (v & Hv & Hin). exists v. split; [|done]. simpl. congruence.
Qed.

Lemma set_all_items hash U ws :
  collision_free hash U → (∀ x, x ∈ inputs ws → x ∈ U) →
  ∃ s, set_all hash ws = Ret s ∧ ∀ k, k ∈ U → s !! hash k = item_for hash k ws.
Proof.
  intros Hc. induction ws as [|w ws IH] using rev_ind; intros HU.
  { exists ∅. split; [done|]. intros k _. apply lookup_empty. }
  assert (Hkey : w_key w ∈ U) by (apply HU; unfold inputs; rewrite !fmap_app; set_solver).
  destruct IH as (s & E & Hs).
  { intros x Hx. apply HU. unfold inputs in *. rewrite !fmap_app. set_solver. }
  unfold set_all in *. rewrite ofold_app, E. cbn [obind ofold].
  enough (∃ s', set_write hash s w = Ret s' ∧ ∀ k, k ∈ U →
    s' !! hash k = if decide (w_key w = k) then item_for hash k (ws ++ [w]) else s !! hash k)
    as (s' & -> & Hs').
  { cbn [obind]. exists s'. split; [done|]. intros k Hk. rewrite (Hs' k Hk).
    case_decide as Hd; [done|]. rewrite (Hs k Hk). unfold item_for. rewrite spec_values_snoc.
    rewrite (decide_False (P := w_key w = k)) by done. rewrite fmap_app. simpl.
    apply decide_ext. set_solver. }
  assert (Hitem : item_for hash (w_key w) (ws ++ [w]) = Some (mkItem
    (list_to_set ((hash ∘ v_Value) <$> spec_add (spec_values (w_key w) ws) w))
    (spec_add (spec_values (w_key w) ws) w) false)).
  { unfold item_for. rewrite spec_values_snoc. rewrite (decide_True (P := w_key w = w_key w)) by done.
    rewrite decide_True; [done|]. rewrite fmap_app. set_solver. }
  assert (Hput : ∀ k i, k ∈ U → Some i = item_for hash (w_key w) (ws ++ [w]) →
    <[hash (w_key w) := i]> s !! hash k =
      if decide (w_key w = k) then item_for hash k (ws ++ [w]) else s !! hash k).
  { intros k i Hk Hi. case_decide as Hd; [subst k; by rewrite lookup_insert_eq|].
    apply lookup_insert_ne. intros Hh. by apply Hd, Hc. }
  pose proof (spec_contains hash U (w_key w) ws w Hc HU) as Hct.
  unfold set_write, Set_. rewrite (Hs _ Hkey). unfold item_for at 1. case_decide as Hd.
  - unfold insert, lock. cbn [mu obind contains values]. case_decide as Hv; cbn [obind];
      eexists; (split; [done|]); intros k Hk; apply Hput; try done; rewrite Hitem; unfold spec_add, unlock;
      cbn [contains values].
    + by rewrite decide_True by tauto.
    + rewrite decide_False by tauto. do 2 f_equal. rewrite fmap_app, list_to_set_app_L. set_solver.
  - cbn [obind]. eexists. split; [done|]. intros k Hk. apply Hput; [done|]. rewrite Hitem.
    assert (E0 : spec_values (w_key w) ws = []).
    { apply elem_of_nil_inv. intros v Hv. apply Hd. by apply spec_values_from in Hv as (_ & _ & ?). }
    rewrite E0. unfold spec_add. rewrite decide_False by set_solver. simpl.
    do 2 f_equal. set_solver.
Qed.

Lemma spec_values_complete ws w : w ∈ ws → w_value w ∈ v_Value <$> spec_values (w_key w) ws.
Proof.
  induction ws as [|x ws IH] using rev_ind; [by intros ?%not_elem_of_nil|].
  rewrite spec_values_snoc, elem_of_app, list_elem_of_singleton. unfold spec_add.
  intros [Hw| ->].
  - repeat case_decide; try rewrite fmap_app; set_solver.
  - rewrite decide_True by done. case_decide; [done|]. rewrite fmap_app. set_solver.
Qed.

(** ** The time filter of [Get] *)
Definition newer (from : Z) (v : Value) : Prop := from ≤ v_Created v.
#[export] Instance newer_dec from v : Decision (newer from v).
Proof. unfold newer. apply _. Defined.

Lemma from_index_count from l :
  from_index from l = length (filter (λ v, ¬ newer from v) l).
Proof.
  unfold from_index. enough (Hgen : ∀ n,
    foldl (λ index v, if Before (v_Created v) from then S index else index) n l =
    (n + length (filter (λ v, ¬ newer from v) l))%nat) by apply Hgen.
  induction l as [|v l IH]; intros n; simpl; [lia|]. rewrite IH, filter_cons. unfold Before, newer.
  destruct (Z.ltb_spec (v_Created v) from); case_decide; simpl; lia.
Qed.

Lemma from_index_all from l : Forall (λ v, v_Created v < from) l → from_index from l = length l.
Proof.
  intros Hl. rewrite from_index_count. f_equal. induction Hl as [|v l Hv _ IH]; [done|].
  rewrite filter_cons, decide_True by (unfold newer; lia). by rewrite IH.
Qed.

Lemma from_index_sorted from vs :
  StronglySorted (λ v w, v_Created v ≤ v_Created w) vs →
  drop (from_index from vs) vs = filter (newer from) vs.
Proof.
  intros Hs. rewrite from_index_count. induction Hs as [|v vs _ IH Hv]; [done|].
  rewrite !filter_cons. destruct (decide (newer from v)) as [Hn|Hn].
  - rewrite decide_False by tauto. rewrite <-IH.
    assert (E : filter (λ v, ¬ newer from v) vs = []).
    { apply elem_of_nil_inv. intros w [Hw Hin]%list_elem_of_filter. apply Hw.
      rewrite Forall_forall in Hv. specialize (Hv w Hin). unfold newer in *. lia. }
    by rewrite E.
  - rewrite decide_True by done. simpl. apply IH.
Qed.

(** ** Sweeps and iterations *)
Definition unlocked (s : storage) : Prop := map_Forall (λ _ i, mu i = false) s.

Definition all_expired (now : Z) (i : item) : Prop := Forall (λ v, v_expires v ≤ now) (values i).
#[export] Instance all_expired_dec now i : Decision (all_expired now i).
Proof. unfold all_expired. apply _. Defined.

Lemma unlock_same i : mu i = false → unlock (mkItem (contains i) (values i) true) = i.
Proof. destruct i; simpl; by intros ->. Qed.

Lemma expire_spec now k s vs :
  expire now k s vs = if decide (Forall (λ v, v_expires v ≤ now) vs) then s else delete k s.
Proof.
  unfold expire, After. revert s. induction vs as [|v vs IH]; intros s; simpl; [done|].
  rewrite IH. destruct (Z.ltb_spec now (v_expires v)).
  - rewrite (decide_False (P := Forall _ (v :: vs))) by (intros [? _]%Forall_cons_1; lia).
    case_decide; [done|apply delete_delete_eq].
  - apply decide_ext. rewrite Forall_cons. intuition lia.
Qed.

Lemma cleanup_spec now ks s :
  unlocked s → NoDup ks →
  ∃ s', cleanup now ks s = Ret s' ∧ unlocked s' ∧
    ∀ k, s' !! k = if decide (k ∈ ks) then i ← s !! k; guard (all_expired now i);; Some i else s !! k.
Proof.
  intros Hs Hks. revert s Hs. induction Hks as [|k ks Hk _ IH]; intros s Hs; cbn [cleanup].
  { exists s. split_and!; [done..|]. intros k. by rewrite decide_False by set_solver. }
  destruct (s !! k) as [it|] eqn:Ek.
  - assert (Hit : mu it = false) by (by apply (Hs k)).
    unfold lock. rewrite Hit. cbn [obind values]. rewrite expire_spec.
    set (s1 := match _ with Some _ => _ | None => _ end).
    assert (E1 : s1 = if decide (all_expired now it) then s else delete k s).
    { subst s1. destruct (decide (all_expired now it)) as [He|He].
      - rewrite decide_True by exact He. rewrite Ek, unlock_same by done. by apply insert_id.
      - rewrite decide_False by exact He. by rewrite lookup_delete_eq. }
    destruct (IH s1) as (s' & -> & Hs' & Hl).
    { rewrite E1. case_decide; [done|]. by apply map_Forall_delete. }
    exists s'. split_and!; [done..|]. intros k'. rewrite Hl, E1.
    destruct (decide (k' = k)) as [->|Hne].
    + rewrite (decide_False (P := k ∈ ks)), (decide_True (P := k ∈ k :: ks)), Ek by set_solver.
      simpl. case_decide; simplify_option_eq; [done|]. apply lookup_delete_eq.
    + rewrite (decide_ext (k' ∈ ks) (k' ∈ k :: ks)) by set_solver.
      case_decide; [done|]. by rewrite lookup_delete_ne.
  - destruct (IH s Hs) as (s' & -> & Hs' & Hl). exists s'. split_and!; [done..|].
    intros k'. rewrite Hl. destruct (decide (k' = k)) as [->|Hne].
    + rewrite (decide_False (P := k ∈ ks)), decide_True, Ek by set_solver. done.
    + apply decide_ext. set_solver.
Qed.

(** An iteration whose callback never stops passes every value to it, item
    by item in the order of the keys, and leaves the storage as it was. *)
Lemma iterate_visits_all {A} (cb : A → Value → outcome (A * bool)) (f : A → Value → A) a ks s :
  unlocked s → (∀ a v, cb a v = Ret (f a v, true)) →
  Iterate cb a ks s = Ret (foldl f a (ks ≫= λ k, from_option values [] (s !! k)), s).
Proof.
  intros Hs Hcb.
  assert (Hvisit : ∀ vs a, visit cb a vs = Ret (foldl f a vs, true)).
  { induction vs as [|v vs IH]; intros b; cbn [visit]; [done|]. rewrite Hcb. cbn [obind]. apply IH. }
  revert a. induction ks as [|k ks IH]; intros a; cbn [Iterate]; [done|].
  rewrite bind_cons, foldl_app. destruct (s !! k) as [it|] eqn:Ek; cbn [from_option]; [|apply IH].
  assert (Hit : mu it = false) by (by apply (Hs k)).
  unfold lock. rewrite Hit. cbn [obind values]. rewrite Hvisit. cbn [obind].
  rewrite unlock_same, insert_id by done. apply IH.
Qed.

(** The same for a callback that may fail or stop, on a run where it does
    neither. *)
Definition stored_values (ks : list Z) (s : storage) : list Value :=
  ks ≫= λ k, from_option values [] (s !! k).

Lemma visit_app {A} (cb : A → Value → outcome (A * bool)) a vs ws :
  visit cb a (vs ++ ws) =
    let! '(a, more) := visit cb a vs in if more : bool then visit cb a ws else Ret (a, false).
Proof.
  revert a. induction vs as [|v vs IH]; intros a; cbn [visit app]; [done|].
  destruct (cb a v) as [[b []]| | |]; cbn [obind]; done.
Qed.

Lemma iterate_visits {A} (cb : A → Value → outcome (A * bool)) a a' ks s :
  unlocked s → visit cb a (stored_values ks s) = Ret (a', true) → Iterate cb a ks s = Ret (a', s).
Proof.
  intros Hs. revert a. induction ks as [|k ks IH]; intros a Hv; cbn [Iterate].
  { cbn in Hv. by injection Hv as ->. }
  unfold stored_values in Hv. rewrite bind_cons in Hv.
  destruct (s !! k) as [it|] eqn:Ek; cbn [from_option] in Hv; [|by apply IH].
  assert (Hit : mu it = false) by (by apply (Hs k)).
  unfold lock. rewrite Hit. cbn [obind values]. rewrite visit_app in Hv.
  destruct (visit cb a (values it)) as [[b []]| | |]; cbn [obind] in *; try done.
  rewrite unlock_same, insert_id by done. by apply IH.
Qed.

(** What [Get] without a time filter sees after the writes. *)
Lemma set_all_get hash ws k :
  collision_free hash (k :: inputs ws) →
  ∃ s, set_all hash ws = Ret s ∧
    Get hash k time_zero s = Ret (spec_values k ws, bool_decide (k ∈ w_key <$> ws)).
Proof.
  intros Hc. destruct (set_all_items hash (k :: inputs ws) ws Hc) as (s & E & Hs); [set_solver|].
  exists s. split; [done|]. unfold Get. rewrite (Hs k) by set_solver. unfold item_for. case_decide as Hk.
  - cbn [IsZero]. by rewrite bool_decide_eq_true_2.
  - rewrite bool_decide_eq_false_2 by done. repeat f_equal. symmetry.
    apply elem_of_nil_inv. intros v (_ & _ & ?)%spec_values_from. done.
Qed.

(** ** Properties *)

(** C25: after any sequence of [Set] calls on an empty storage, [Get] without a
    time filter returns exactly the values set for the key, each once and in
    the order in which they first came, and reports a key as missing exactly if
    it was never set; no call blocks or panics.  The hypothesis excludes
    collisions of the 64-bit hash among the keys and values concerned. *)
Theorem storage_set_get hash ws k :
  collision_free hash (k :: inputs ws) →
  ∃ s, set_all hash ws = Ret s ∧
    Get hash k time_zero s = Ret (spec_values k ws, bool_decide (k ∈ w_key <$> ws)) ∧
    NoDup (v_Value <$> spec_values k ws) ∧
    (∀ w, w ∈ ws → w_key w = k → w_value w ∈ v_Value <$> spec_values k ws) ∧
    (∀ v, v ∈ spec_values k ws → v_Key v = k ∧ v_Value v ∈ w_value <$> ws).
Proof.
  intros Hc. destruct (set_all_get hash ws k Hc) as (s & E & Hg).
  exists s. split_and!; [done|done|apply spec_values_nodup|intros w Hw <-; by apply spec_values_complete|].
  intros v (? & ? & _)%spec_values_from. done.
Qed.

Definition demo_hash (b : bytes) : Z := foldl (λ a x, 300 * a + x + 1) 0 b.
Definition demo_writes : list write :=
  [mkWrite 0 [1] [10] 5 60; mkWrite 1 [2] [11] 5 60; mkWrite 2 [1] [12] 7 60; mkWrite 3 [1] [10] 9 60].

Lemma demo_collision_free : collision_free demo_hash ([1] :: inputs demo_writes).
Proof.
  assert (H : Forall (λ x, Forall (λ y, demo_hash x = demo_hash y → x = y) ([1] :: inputs demo_writes))
    ([1] :: inputs demo_writes)) by decided.
  intros x y Hx Hy. rewrite Forall_forall in H. specialize (H x Hx). rewrite Forall_forall in H.
  by apply H.
Qed.

Lemma storage_set_get_witness :
  ∃ s, set_all demo_hash demo_writes = Ret s ∧
    Get demo_hash [1] time_zero s = Ret ([mkValue [1] [10] 60 5 60; mkValue [1] [12] 60 7 62], true).
Proof.
  destruct (storage_set_get demo_hash demo_writes [1] demo_collision_free) as (s & E & G & _).
  exists s. split; [exact E|exact G].
Defined.

(** If the values of a key were stored in the order of their creation, a
    [Get] with a time filter returns exactly the values created at that time or
    later, and reports the key as missing if there is none. *)
Theorem get_from_in_order hash k from s it :
  s !! hash k = Some it → IsZero from = false →
  StronglySorted (λ v w, v_Created v ≤ v_Created w) (values it) →
  Get hash k from s =
    Ret (filter (newer from) (values it), bool_decide (filter (newer from) (values it) ≠ [])).
Proof.
  intros Hk Hf Hs. unfold Get. rewrite Hk, Hf. cbv zeta. rewrite <-(from_index_sorted from) by done.
  destruct (Nat.leb_spec (length (values it)) (from_index from (values it))) as [Hl|Hl].
  - rewrite drop_ge by done. done.
  - unfold zlen. rewrite go_slice_ok by lia. cbn [obind].
    rewrite take_ge by list_len. rewrite bool_decide_eq_true_2; [done|].
    intros E. apply (f_equal length) in E. rewrite length_drop in E. simpl in E. lia.
Qed.

Definition demo_item (vs : list Value) : item :=
  mkItem (list_to_set ((demo_hash ∘ v_Value) <$> vs)) vs false.
Definition value_at (v created expires : Z) : Value := mkValue [1] [v] 60 created expires.

Lemma get_from_in_order_witness :
  Get demo_hash [1] 7 {[demo_hash [1] := demo_item [value_at 1 5 9; value_at 2 7 9; value_at 3 8 9]]} =
    Ret ([value_at 2 7 9; value_at 3 8 9], true).
Proof.
  apply (get_from_in_order demo_hash [1] 7 _ (demo_item [value_at 1 5 9; value_at 2 7 9; value_at 3 8 9])).
  - reflexivity.
  - reflexivity.
  - cbn [values demo_item].
    repeat first [apply SSorted_nil | apply SSorted_cons | apply Forall_nil_2 | apply Forall_cons_2];
      cbn; lia.
Defined.

(** Otherwise the filter goes wrong: of a newer value stored before an older
    one it returns the older one only. *)
Lemma get_from_out_of_order hash k from s it v_new v_old :
  s !! hash k = Some it → IsZero from = false → values it = [v_new; v_old] →
  v_Created v_old < from ≤ v_Created v_new → Get hash k from s = Ret ([v_old], true).
Proof.
  intros Hk Hf Hv Hc. unfold Get, from_index. rewrite Hk, Hf, Hv. cbn [foldl]. unfold Before.
  by rewrite (proj2 (Z.ltb_ge (v_Created v_new) from)), (proj2 (Z.ltb_lt (v_Created v_old) from)) by lia.
Qed.

(** C27: the sweep that should drop expired values does the opposite: after it,
    a key is present exactly if all its values had expired before the sweep. *)
Theorem cleanup_keeps_the_expired now ks s :
  unlocked s → NoDup ks → (∀ k, is_Some (s !! k) → k ∈ ks) →
  ∃ s', cleanup now ks s = Ret s' ∧
    ∀ k i, s' !! k = Some i ↔ s !! k = Some i ∧ Forall (λ v, v_expires v ≤ now) (values i).
Proof.
  intros Hs Hks Hdom. destruct (cleanup_spec now ks s Hs Hks) as (s' & E & _ & Hl).
  exists s'. split; [done|]. intros k i. rewrite Hl. split.
  - case_decide as Hk.
    + destruct (s !! k); simplify_option_eq; naive_solver.
    + intros Hi. by destruct Hk; apply Hdom; eauto.
  - intros [Hi He]. rewrite decide_True by eauto. rewrite Hi. simpl. by simplify_option_eq.
Qed.

(** A live key is deleted, a dead one kept. *)
Lemma cleanup_keeps_the_expired_witness :
  ∃ s', cleanup 100 [1; 2] {[1 := demo_item [value_at 1 5 160]; 2 := demo_item [value_at 2 5 65]]} =
      Ret s' ∧
    s' !! 1 = None ∧ s' !! 2 = Some (demo_item [value_at 2 5 65]).
Proof.
  destruct (cleanup_keeps_the_expired 100 [1; 2]
    {[1 := demo_item [value_at 1 5 160]; 2 := demo_item [value_at 2 5 65]]}) as (s' & E & H).
  - repeat (apply map_Forall_insert_2; [reflexivity|]). apply map_Forall_empty.
  - decided.
  - intros k [i Hi]. apply lookup_insert_Some in Hi as [[<- _]|[_ Hi]]; [set_solver|].
    apply lookup_singleton_Some in Hi as [<- _]. set_solver.
  - exists s'. split; [exact E|]. split.
    + destruct (s' !! 1) as [i|] eqn:E1; [|reflexivity]. apply H in E1 as [E1 He].
      injection E1 as <-. apply Forall_cons_1 in He as [He _]. cbn in He. lia.
    + apply H. split; [reflexivity|]. apply Forall_cons_2; [cbn; lia|apply Forall_nil_2].
Defined.

(** C35: a callback that stops the iteration leaves the item it stopped in
    locked for good: every later [Set] of a key of that item blocks, and so do
    the next iteration and the next sweep that reach it. *)
Theorem iterate_stop_blocks {A} (cb : A → Value → outcome (A * bool)) hash k a a' s it :
  unlocked s → s !! hash k = Some it → visit cb a (values it) = Ret (a', false) →
  ∃ s', Iterate cb a [hash k] s = Ret (a', s') ∧
    (∀ now v created ttl, Set_ hash now k v created ttl s' = Blocked) ∧
    (∀ ks now, cleanup now (hash k :: ks) s' = Blocked) ∧
    (∀ B (cb' : B → Value → outcome (B * bool)) b ks, Iterate cb' b (hash k :: ks) s' = Blocked) ∧
    Get hash k time_zero s' = Ret (values it, true).
Proof.
  intros Hs Hk Hv. cbn [Iterate]. rewrite Hk.
  assert (Hit : mu it = false) by (by apply (Hs (hash k))).
  unfold lock at 1. rewrite Hit. cbn [obind values]. rewrite Hv. cbn [obind].
  eexists. split; [done|]. split_and!; intros;
    unfold Set_, Get; cbn [cleanup Iterate]; rewrite lookup_insert_eq; done.
Qed.

Lemma iterate_stop_blocks_witness :
  ∃ s', Iterate (λ n (_ : Value), Ret (S n, false)) 0%nat [demo_hash [1]]
      {[demo_hash [1] := demo_item [value_at 1 5 160]]} = Ret (1%nat, s') ∧
    Set_ demo_hash 0 [1] [9] 0 60 s' = Blocked.
Proof.
  destruct (iterate_stop_blocks (λ n (_ : Value), Ret (S n, false)) demo_hash [1] 0%nat 1%nat
    {[demo_hash [1] := demo_item [value_at 1 5 160]]} (demo_item [value_at 1 5 160]))
    as (s' & E & H & _).
  - apply map_Forall_singleton. reflexivity.
  - reflexivity.
  - reflexivity.
  - exists s'. split; [exact E|]. apply H.
Defined.

End Memory.

Definition Memory_Sweeper (range : Memory.storage → list Z) : Sweeper Memory.storage :=
  λ now s, Memory.cleanup now (range s) s.

(** ** A variable of the interface type

    [cfg.Storage] holds one or the other implementation; a call goes to the one
    it holds. *)
Definition sum_Storage {A B : Type} (SA : Storage A) (SB : Storage B) : Storage (A + B) := {|
  st_Get k from s := match s with inl a => st_Get k from a | inr b => st_Get k from b end;
  st_Set now k v created ttl s :=
    match s with
    | inl a => let! '(ok, a) := st_Set now k v created ttl a in Ret (ok, inl a)
    | inr b => let! '(ok, b) := st_Set now k v created ttl b in Ret (ok, inr b)
    end;
  st_Iterate C cb x s :=
    match s with
    | inl a => let! '(x, a) := st_Iterate cb x a in Ret (x, inl a)
    | inr b => let! '(x, b) := st_Iterate cb x b in Ret (x, inr b)
    end;
|}.

Definition sum_Sweeper {A B : Type} (SA : Sweeper A) (SB : Sweeper B) : Sweeper (A + B) := λ now s,
  match s with
  | inl a => let! a := st_sweep now a in Ret (inl a)
  | inr b => let! b := st_sweep now b in Ret (inr b)
  end.
