(* ===== verification/Event.v ===== *)
(** * Events: the messages nodes exchange

    Models [event.go], the address encoding used by it and by [dht.go], and the
    tables of [protocol/protocol.fbs].  FlatBuffers itself is third-party code:
    a table is the record of its fields, and a payload is an opaque value of
    which the table of any of the three types can be read.  [event.go] never
    sets the union's type tag and no reader looks at it, so reading a payload
    as a table other than the one it was built from is possible; [Tables] says
    only that reading back the right one gives its fields. *)
From stdpp Require Import base list numbers.
From Stdlib Require Import Lia.
From S2P Require Import Prelude Keyspace Bucket Storage.
Local Open Scope Z_scope.

Inductive EventType := PING | PONG | STORE | FIND_NODE | FIND_VALUE | OtherEvent (b : Z).

Record WireNode := mkWireNode { wn_id : bytes; wn_address : bytes }.
Record WireValue := mkWireValue {
  wv_key : bytes; wv_value : bytes; wv_ttl : Z; wv_created : Z }.

Record FindNode := mkFindNode { fn_key : bytes; fn_nodes : list WireNode }.
Record FindValue := mkFindValue {
  fv_key : bytes;
  fv_values : list WireValue;
  fv_nodes : list WireNode;
  fv_from : Z;
  fv_found : Z;
}.
Record StoreTable := mkStore { s_values : list WireValue }.

(** Payload tables. *)
Class Tables := {
  payload : Type;
  of_FindNode : FindNode → payload;
  of_FindValue : FindValue → payload;
  of_Store : StoreTable → payload;
  as_FindNode : payload → FindNode;
  as_FindValue : payload → FindValue;
  as_Store : payload → StoreTable;
  read_FindNode : ∀ t, as_FindNode (of_FindNode t) = t;
  read_FindValue : ∀ t, as_FindValue (of_FindValue t) = t;
  read_Store : ∀ t, as_Store (of_Store t) = t;
}.

(** A tagged sum is one such representation. *)
Inductive tagged := TFindNode (t : FindNode) | TFindValue (t : FindValue) | TStore (t : StoreTable).
Definition tagged_Tables : Tables := {|
  payload := tagged;
  of_FindNode := TFindNode;
  of_FindValue := TFindValue;
  of_Store := TStore;
  as_FindNode p := match p with TFindNode t => t | _ => mkFindNode [] [] end;
  as_FindValue p := match p with TFindValue t => t | _ => mkFindValue [] [] [] 0 0 end;
  as_Store p := match p with TStore t => t | _ => mkStore [] end;
  read_FindNode _ := eq_refl;
  read_FindValue _ := eq_refl;
  read_Store _ := eq_refl;
|}.

Record Event `{Tables} := mkEvent {
  e_id : bytes;
  e_sender : bytes;
  e_event : EventType;
  e_response : bool;
  e_payload : option payload;
}.

Module Events.

(** ** Addresses: six bytes, IP and little-endian port *)

(** [a := make([]byte, 6); copy(a, IP); PutUint16(a[4:], uint16(Port))] *)
Definition encode_address (addr : option UDPAddr) : outcome bytes :=
  match addr with
  | None => Panic NilDereference
  | Some addr =>
      let a := copy_at (replicate 6 0) 0 (IP addr) in
      let v := u16 (Port addr) in
      let! a := go_store a 4 (u8 v) in
      go_store a 5 (u8 (Z.shiftr v 8))
  end.

(** [&net.UDPAddr{IP: make(net.IP, 4), Port: int(Uint16(a[4:]))}; copy(IP, a[:4])] *)
Definition decode_address (a : bytes) : outcome UDPAddr :=
  let! s := go_slice a 4 (zlen a) in
  let! b1 := go_index s 1 in
  let! b0 := go_index s 0 in
  let! ip := go_slice a 0 4 in
  Ret (mkUDPAddr (copy_at (replicate 4 0) 0 ip) (Z.lor b0 (Z.shiftl b1 8))).

Definition wire_node (n : node) : outcome WireNode :=
  let! a := encode_address (n_address n) in Ret (mkWireNode (n_id n) a).

Section model.
Context `{Tables}.

Definition eventPing (id sender : bytes) : Event := mkEvent _ id sender PING false None.
Definition eventPong (id sender : bytes) : Event := mkEvent _ id sender PONG true None.

(** A value of a store request. *)
Definition wire_value (v : Value) : WireValue :=
  mkWireValue (v_Key v) (v_Value v) (i64 (v_TTL v)) (UnixNano (v_Created v)).

(** A value of a find value response: the creation time is not sent. *)
Definition wire_found (v : Value) : WireValue :=
  mkWireValue (v_Key v) (v_Value v) (i64 (v_TTL v)) 0.

Definition eventStoreRequest (id sender : bytes) (values : list Value) : Event :=
  mkEvent _ id sender STORE false (Some (of_Store (mkStore (wire_value <$> values)))).

Definition eventStoreResponse (id sender : bytes) : Event := mkEvent _ id sender STORE true None.

Definition eventFindNodeRequest (id sender key : bytes) : Event :=
  mkEvent _ id sender FIND_NODE false (Some (of_FindNode (mkFindNode key []))).

Definition eventFindNodeResponse (id sender : bytes) (nodes : list node) : outcome Event :=
  let! ns := omapM wire_node nodes in
  Ret (mkEvent _ id sender FIND_NODE true (Some (of_FindNode (mkFindNode [] ns)))).

Definition eventFindValueRequest (id sender key : bytes) (from : Z) : Event :=
  mkEvent _ id sender FIND_VALUE false
    (Some (of_FindValue (mkFindValue key [] [] (UnixNano from) 0))).

Definition eventFindValueFoundResponse (id sender : bytes) (values : list Value) (found : Z) : Event :=
  mkEvent _ id sender FIND_VALUE true
    (Some (of_FindValue (mkFindValue [] (wire_found <$> values) [] 0 (i64 found)))).

Definition eventFindValueNotFoundResponse (id sender : bytes) (nodes : list node) : outcome Event :=
  let! ns := omapM wire_node nodes in
  Ret (mkEvent _ id sender FIND_VALUE true (Some (of_FindValue (mkFindValue [] [] ns 0 0)))).
End model.

(** ** Lemmas *)
Definition is_ipv4 (addr : UDPAddr) : Prop := length (IP addr) = 4%nat ∧ 0 ≤ Port addr < 65536.

(** The 16-byte form of an IPv4 address, as the [net] package builds it. *)
Definition v4_in_v6 (a b c d : Z) : bytes := replicate 10 0 ++ [255; 255; a; b; c; d].

(** C39: the six-byte encoding of addresses returns a 4-byte IP address and its
    port unchanged; the 16-byte form of the same address comes back as 0.0.0.0,
    because only the first bytes are copied. *)
Theorem address_roundtrip addr :
  is_ipv4 addr →
  (let! a := encode_address (Some addr) in decode_address a) = Ret addr ∧
  ∀ a b c d, (let! x := encode_address (Some (mkUDPAddr (v4_in_v6 a b c d) (Port addr))) in
              decode_address x) = Ret (mkUDPAddr [0; 0; 0; 0] (Port addr)).
Proof.
  destruct addr as [ip port]. intros [Hip Hport]. cbn [IP Port] in *.
  destruct ip as [|i0 [|i1 [|i2 [|i3 [|? ?]]]]]; try done.
  unfold encode_address. cbn [IP Port]. rewrite (u16_small port Hport).
  assert (Hsix : ∀ a b c d b0 b1, decode_address [a; b; c; d; b0; b1] =
    Ret (mkUDPAddr [a; b; c; d] (Z.lor b0 (Z.shiftl b1 8)))) by reflexivity.
  split; [|intros a b c d]; cbv zeta.
  - change (copy_at _ _ _) with [i0; i1; i2; i3; 0; 0]. cbn [obind go_store]. etrans; [apply Hsix|].
    by rewrite le16.
  - change (copy_at _ _ _) with [0; 0; 0; 0; 0; 0]. etrans; [apply Hsix|]. by rewrite le16.
Qed.

Lemma address_roundtrip_witness :
  (let! a := encode_address (Some (mkUDPAddr [127; 0; 0; 1] 9000)) in decode_address a) =
    Ret (mkUDPAddr [127; 0; 0; 1] 9000).
Proof.
  refine (proj1 (address_roundtrip (mkUDPAddr [127; 0; 0; 1] 9000) _)).
  split; [reflexivity|cbn; lia].
Defined.

End Events.
