(* ===== verification/Protocol.v ===== *)
(** * The wire protocol: generated accessors over FlatBuffers

    Models [protocol/protocol.go], the code generated from [protocol.fbs]: for
    each table the functions that find it in a buffer, read its fields, overwrite
    them in place, and add them while a buffer is built.

    The FlatBuffers run time is third-party code.  [FlatBuffers] is its
    interface: the operations of [flatbuffers.Builder] and [flatbuffers.Table]
    that the generated code and [event.go] call, and what they promise about
    each other.  The promises speak of nodes: a byte vector, a vector of
    references to tables, or a table of fields.  While a buffer is built, a
    finished node is known by the offset the builder returned for it
    ([fb_holds]); in a finished buffer it has a position ([fb_at]), and
    references between nodes are translated from the one to the other;
    [fb_image] lists all nodes of a buffer, for the operations that overwrite
    one.  Cells.v has a representation that keeps the promises.  A builder refuses to grow beyond 2 GB, so the promises of the operations that
    allocate depend on the room used so far. *)
From stdpp Require Import base list numbers gmap strings pretty.
From Stdlib Require Import Lia.
From S2P Require Import Prelude.
Local Open Scope Z_scope.

(** ** Enumerations *)
Definition OperationNONE : Z := 0.
Definition OperationFindNode : Z := 1.
Definition OperationFindValue : Z := 2.
Definition OperationStore : Z := 3.
Definition EnumNamesOperation : gmap Z string :=
  {[OperationNONE := "NONE"; OperationFindNode := "FindNode"; OperationFindValue := "FindValue";
    OperationStore := "Store"]}.
Definition EnumValuesOperation : gmap string Z :=
  {["NONE" := OperationNONE; "FindNode" := OperationFindNode; "FindValue" := OperationFindValue;
    "Store" := OperationStore]}.
Definition EnumNamesEventType : gmap Z string :=
  {[0 := "PING"; 1 := "PONG"; 2 := "STORE"; 3 := "FIND_NODE"; 4 := "FIND_VALUE"]}.
Definition EnumValuesEventType : gmap string Z :=
  {["PING" := 0; "PONG" := 1; "STORE" := 2; "FIND_NODE" := 3; "FIND_VALUE" := 4]}.

Definition Operation_String (v : Z) : string :=
  match EnumNamesOperation !! v with
  | Some s => s
  | None => "Operation(" +:+ pretty v +:+ ")"
  end.

Definition EventType_String (v : Z) : string :=
  match EnumNamesEventType !! v with
  | Some s => s
  | None => "EventType(" +:+ pretty v +:+ ")"
  end.

(** The names of the event types are read back as their numbers, and no other
    number of the type is printed as one of the names. *)
Lemma EventType_String_values v :
  - 128 ≤ v < 128 →
  EnumValuesEventType !! EventType_String v = if decide (0 ≤ v ≤ 4) then Some v else None.
Proof.
  intros Hv. assert (Hall : Forall (λ v,
    EnumValuesEventType !! EventType_String v = if decide (0 ≤ v ≤ 4) then Some v else None)
    (seqZ (-128) 256)) by decided.
  rewrite Forall_forall in Hall. apply Hall, elem_of_seqZ. lia.
Qed.

(** The same for the payload types. *)
Lemma Operation_String_values v :
  0 ≤ v < 256 →
  EnumValuesOperation !! Operation_String v = if decide (0 ≤ v ≤ 3) then Some v else None.
Proof.
  intros Hv. assert (Hall : Forall (λ v,
    EnumValuesOperation !! Operation_String v = if decide (0 ≤ v ≤ 3) then Some v else None)
    (seqZ 0 256)) by decided.
  rewrite Forall_forall in Hall. apply Hall, elem_of_seqZ. lia.
Qed.

(** ** The FlatBuffers run time *)

(** A field: a reference or a scalar.  [R] is how references are written. *)
Inductive fb_cell (R : Type) :=
  | CRef (r : R)
  | CInt64 (z : Z)
  | CInt8 (z : Z)
  | CByte (z : Z)
  | CBool (b : bool).
Arguments CRef {R} r.
Arguments CInt64 {R} z.
Arguments CInt8 {R} z.
Arguments CByte {R} z.
Arguments CBool {R} b.

Inductive fb_node (R : Type) :=
  | NBytes (l : bytes)
  | NTables (rs : list R)
  | NTable (fs : list (option (fb_cell R))).
Arguments NBytes {R} l.
Arguments NTables {R} rs.
Arguments NTable {R} fs.

Definition cell_map {R S} (f : R → S) (c : fb_cell R) : fb_cell S :=
  match c with CRef r => CRef (f r) | CInt64 z => CInt64 z | CInt8 z => CInt8 z | CByte z => CByte z | CBool b => CBool b end.
Definition node_map {R S} (f : R → S) (n : fb_node R) : fb_node S :=
  match n with
  | NBytes l => NBytes l
  | NTables rs => NTables (f <$> rs)
  | NTable fs => NTable (fmap (M := option) (cell_map f) <$> fs)
  end.

(** A field written with its default value is left out. *)
Definition slot_value {R} (c : fb_cell R) (is_default : bool) : option (fb_cell R) :=
  if is_default then None else Some c.

Definition fb_limit : Z := 2 ^ 31 - 1024.
(** Room that suffices for a byte vector, a vector of references and a table,
    with their lengths, alignment and the table's description. *)
Definition bytes_room (n : Z) : Z := n + 32.
Definition vector_room (n : Z) : Z := 4 * n + 32.
Definition table_room (slots : Z) : Z := 16 * slots + 32.

Class FlatBuffers := {
  builder : Type;
  fb_Reset : builder → builder;
  fb_CreateByteVector : bytes → builder → outcome (Z * builder);
  fb_StartObject : Z → builder → outcome builder;
  fb_PrependUOffsetTSlot : Z → Z → Z → builder → outcome builder;
  fb_PrependInt64Slot : Z → Z → Z → builder → outcome builder;
  fb_PrependInt8Slot : Z → Z → Z → builder → outcome builder;
  fb_PrependByteSlot : Z → Z → Z → builder → outcome builder;
  fb_PrependBoolSlot : Z → bool → bool → builder → outcome builder;
  fb_EndObject : builder → outcome (Z * builder);
  fb_StartVector : Z → Z → Z → builder → outcome (Z * builder);
  fb_PrependUOffsetT : Z → builder → outcome builder;
  fb_PrependByte : Z → builder → outcome builder;
  fb_EndVector : Z → builder → outcome (Z * builder);
  fb_Finish : Z → builder → outcome builder;
  fb_FinishSizePrefixed : Z → builder → outcome builder;
  fb_FinishedBytes : builder → outcome bytes;

  fb_GetUOffsetT : bytes → outcome Z;
  tab_Offset : bytes → Z → Z → outcome Z;
  tab_Vector : bytes → Z → Z → outcome Z;
  tab_VectorLen : bytes → Z → Z → outcome Z;
  tab_ByteVector : bytes → Z → outcome bytes;
  tab_Indirect : bytes → Z → outcome Z;
  tab_Union : bytes → Z → Z → outcome Z;
  tab_GetByte : bytes → Z → outcome Z;
  tab_GetInt64 : bytes → Z → outcome Z;
  tab_GetInt8 : bytes → Z → outcome Z;
  tab_GetBool : bytes → Z → outcome bool;
  (** The mutators write into the buffer in place: the answer and the buffer
      afterwards. *)
  tab_MutateByte : bytes → Z → Z → outcome (bool * bytes);
  tab_MutateInt64Slot : bytes → Z → Z → Z → outcome (bool * bytes);
  tab_MutateInt8Slot : bytes → Z → Z → Z → outcome (bool * bytes);
  tab_MutateByteSlot : bytes → Z → Z → Z → outcome (bool * bytes);
  tab_MutateBoolSlot : bytes → Z → Z → bool → outcome (bool * bytes);

  (** The states of a builder: between nodes, in a table with these fields so
      far, in a vector that still expects so many references (or bytes) before
      these; the number is the room used.  A finished buffer is described by the
      nodes that lie in it, by their positions. *)
  fb_idle : Z → builder → Prop;
  fb_object : Z → list (option (fb_cell Z)) → builder → Prop;
  fb_vector : Z → nat → list Z → builder → Prop;
  fb_bytes : Z → nat → bytes → builder → Prop;
  fb_holds : builder → Z → fb_node Z → Prop;
  fb_image : bytes → gmap Z (fb_node Z) → Prop;
  fb_at : bytes → Z → fb_node Z → Prop;
  fb_cell_at : bytes → Z → fb_cell Z → Prop;

  fb_holds_pos : ∀ b o x, fb_holds b o x → 0 < o;
  fb_Reset_idle : ∀ b, fb_idle 0 (fb_Reset b);
  fb_Create_ok : ∀ u b l, fb_idle u b → wf_bytes l → u + bytes_room (zlen l) ≤ fb_limit →
    ∃ o b', fb_CreateByteVector l b = Ret (o, b') ∧ fb_idle (u + bytes_room (zlen l)) b' ∧
      fb_holds b' o (NBytes l) ∧ ∀ o' x, fb_holds b o' x → fb_holds b' o' x;
  fb_StartObject_ok : ∀ u b n, fb_idle u b → u + table_room (Z.of_nat n) ≤ fb_limit →
    ∃ b', fb_StartObject (Z.of_nat n) b = Ret b' ∧
      fb_object (u + table_room (Z.of_nat n)) (replicate n None) b' ∧
      ∀ o' x, fb_holds b o' x → fb_holds b' o' x;
  fb_UOffsetTSlot_ok : ∀ u fs b i o x, fb_object u fs b → fs !! i = Some None → fb_holds b o x →
    ∃ b', fb_PrependUOffsetTSlot (Z.of_nat i) o 0 b = Ret b' ∧
      fb_object u (<[i := Some (CRef o)]> fs) b' ∧ ∀ o' x, fb_holds b o' x → fb_holds b' o' x;
  fb_Int64Slot_ok : ∀ u fs b i z d, fb_object u fs b → fs !! i = Some None → - 2 ^ 63 ≤ z < 2 ^ 63 →
    ∃ b', fb_PrependInt64Slot (Z.of_nat i) z d b = Ret b' ∧
      fb_object u (<[i := slot_value (CInt64 z) (z =? d)]> fs) b' ∧
      ∀ o' x, fb_holds b o' x → fb_holds b' o' x;
  fb_Int8Slot_ok : ∀ u fs b i z d, fb_object u fs b → fs !! i = Some None → - 2 ^ 7 ≤ z < 2 ^ 7 →
    ∃ b', fb_PrependInt8Slot (Z.of_nat i) z d b = Ret b' ∧
      fb_object u (<[i := slot_value (CInt8 z) (z =? d)]> fs) b' ∧
      ∀ o' x, fb_holds b o' x → fb_holds b' o' x;
  fb_ByteSlot_ok : ∀ u fs b i z d, fb_object u fs b → fs !! i = Some None → 0 ≤ z < 2 ^ 8 →
    ∃ b', fb_PrependByteSlot (Z.of_nat i) z d b = Ret b' ∧
      fb_object u (<[i := slot_value (CByte z) (z =? d)]> fs) b' ∧
      ∀ o' x, fb_holds b o' x → fb_holds b' o' x;
  fb_BoolSlot_ok : ∀ u fs b i z d, fb_object u fs b → fs !! i = Some None →
    ∃ b', fb_PrependBoolSlot (Z.of_nat i) z d b = Ret b' ∧
      fb_object u (<[i := slot_value (CBool z) (eqb z d)]> fs) b' ∧
      ∀ o' x, fb_holds b o' x → fb_holds b' o' x;
  fb_EndObject_ok : ∀ u fs b, fb_object u fs b →
    ∃ o b', fb_EndObject b = Ret (o, b') ∧ fb_idle u b' ∧ fb_holds b' o (NTable fs) ∧
      ∀ o' x, fb_holds b o' x → fb_holds b' o' x;
  fb_StartVector_ok : ∀ u b n, fb_idle u b → u + vector_room (Z.of_nat n) ≤ fb_limit →
    ∃ o b', fb_StartVector 4 (Z.of_nat n) 4 b = Ret (o, b') ∧
      fb_vector (u + vector_room (Z.of_nat n)) n [] b' ∧ ∀ o' x, fb_holds b o' x → fb_holds b' o' x;
  fb_PrependUOffsetT_ok : ∀ u n rs b o x, fb_vector u (S n) rs b → fb_holds b o x →
    ∃ b', fb_PrependUOffsetT o b = Ret b' ∧ fb_vector u n (o :: rs) b' ∧
      ∀ o' x, fb_holds b o' x → fb_holds b' o' x;
  fb_EndVector_ok : ∀ u rs b, fb_vector u 0 rs b →
    ∃ o b', fb_EndVector (zlen rs) b = Ret (o, b') ∧ fb_idle u b' ∧ fb_holds b' o (NTables rs) ∧
      ∀ o' x, fb_holds b o' x → fb_holds b' o' x;
  fb_StartVector_bytes : ∀ u b n, fb_idle u b → u + bytes_room (Z.of_nat n) ≤ fb_limit →
    ∃ o b', fb_StartVector 1 (Z.of_nat n) 1 b = Ret (o, b') ∧
      fb_bytes (u + bytes_room (Z.of_nat n)) n [] b' ∧ ∀ o' x, fb_holds b o' x → fb_holds b' o' x;
  fb_PrependByte_ok : ∀ u n l b z, fb_bytes u (S n) l b → 0 ≤ z < 2 ^ 8 →
    ∃ b', fb_PrependByte z b = Ret b' ∧ fb_bytes u n (z :: l) b' ∧
      ∀ o' x, fb_holds b o' x → fb_holds b' o' x;
  fb_EndVector_bytes : ∀ u l b, fb_bytes u 0 l b →
    ∃ o b', fb_EndVector (zlen l) b = Ret (o, b') ∧ fb_idle u b' ∧ fb_holds b' o (NBytes l) ∧
      ∀ o' x, fb_holds b o' x → fb_holds b' o' x;
  fb_Finish_image : ∀ u b o fs, fb_idle u b → fb_holds b o (NTable fs) → u + 64 ≤ fb_limit →
    ∃ b' buf (tr : Z → Z) m, fb_Finish o b = Ret b' ∧ fb_FinishedBytes b' = Ret buf ∧
      fb_GetUOffsetT buf = Ret (tr o) ∧ fb_image buf m ∧
      ∀ o' x, fb_holds b o' x → m !! tr o' = Some (node_map tr x);
  (** Positions count from the size, and the root is found behind it. *)
  fb_FinishSizePrefixed_image : ∀ u b o fs,
    fb_idle u b → fb_holds b o (NTable fs) → u + 64 ≤ fb_limit →
    ∃ b' size buf (tr : Z → Z) m, fb_FinishSizePrefixed o b = Ret b' ∧
      fb_FinishedBytes b' = Ret (size ++ buf) ∧ zlen size = 4 ∧
      fb_GetUOffsetT buf = Ret (tr o - 4) ∧ 4 ≤ tr o ∧ fb_image (size ++ buf) m ∧
      ∀ o' x, fb_holds b o' x → m !! tr o' = Some (node_map tr x);

  fb_image_at : ∀ buf m pos x, fb_image buf m → m !! pos = Some x → fb_at buf pos x;
  tab_MutateByte_ok : ∀ buf m pos o q l (j : nat) n, fb_image buf m →
    fb_cell_at buf (o + pos) (CRef q) → m !! q = Some (NBytes l) → (j < length l)%nat → 0 ≤ n < 2 ^ 8 →
    ∃ a buf', tab_Vector buf pos o = Ret a ∧ 0 ≤ a ∧ a + zlen l < 2 ^ 31 ∧
      tab_MutateByte buf (a + Z.of_nat j) n = Ret (true, buf') ∧
      fb_image buf' (<[q := NBytes (<[j := n]> l)]> m);
  tab_MutateInt64Slot_ok : ∀ buf m pos fs (i : nat) z n, fb_image buf m → m !! pos = Some (NTable fs) →
    fs !! i = Some (Some (CInt64 z)) → - 2 ^ 63 ≤ n < 2 ^ 63 →
    ∃ buf', tab_MutateInt64Slot buf pos (4 + 2 * Z.of_nat i) n = Ret (true, buf') ∧
      fb_image buf' (<[pos := NTable (<[i := Some (CInt64 n)]> fs)]> m);
  tab_MutateInt8Slot_ok : ∀ buf m pos fs (i : nat) z n, fb_image buf m → m !! pos = Some (NTable fs) →
    fs !! i = Some (Some (CInt8 z)) → - 2 ^ 7 ≤ n < 2 ^ 7 →
    ∃ buf', tab_MutateInt8Slot buf pos (4 + 2 * Z.of_nat i) n = Ret (true, buf') ∧
      fb_image buf' (<[pos := NTable (<[i := Some (CInt8 n)]> fs)]> m);
  tab_MutateByteSlot_ok : ∀ buf m pos fs (i : nat) z n, fb_image buf m → m !! pos = Some (NTable fs) →
    fs !! i = Some (Some (CByte z)) → 0 ≤ n < 2 ^ 8 →
    ∃ buf', tab_MutateByteSlot buf pos (4 + 2 * Z.of_nat i) n = Ret (true, buf') ∧
      fb_image buf' (<[pos := NTable (<[i := Some (CByte n)]> fs)]> m);
  tab_MutateBoolSlot_ok : ∀ buf m pos fs (i : nat) z n, fb_image buf m → m !! pos = Some (NTable fs) →
    fs !! i = Some (Some (CBool z)) →
    ∃ buf', tab_MutateBoolSlot buf pos (4 + 2 * Z.of_nat i) n = Ret (true, buf') ∧
      fb_image buf' (<[pos := NTable (<[i := Some (CBool n)]> fs)]> m);
  tab_MutateSlot_absent : ∀ buf pos fs (i : nat), fb_at buf pos (NTable fs) → mjoin (fs !! i) = None →
    let v := 4 + 2 * Z.of_nat i in
    (∀ n, tab_MutateInt64Slot buf pos v n = Ret (false, buf)) ∧
    (∀ n, tab_MutateInt8Slot buf pos v n = Ret (false, buf)) ∧
    (∀ n, tab_MutateByteSlot buf pos v n = Ret (false, buf)) ∧
    (∀ n, tab_MutateBoolSlot buf pos v n = Ret (false, buf));

  fb_at_pos : ∀ buf pos x, fb_at buf pos x → 0 ≤ pos < 2 ^ 31;
  tab_Offset_absent : ∀ buf pos fs (i : nat), fb_at buf pos (NTable fs) → mjoin (fs !! i) = None →
    tab_Offset buf pos (4 + 2 * Z.of_nat i) = Ret 0;
  tab_Offset_present : ∀ buf pos fs (i : nat) c, fb_at buf pos (NTable fs) → mjoin (fs !! i) = Some c →
    ∃ o, tab_Offset buf pos (4 + 2 * Z.of_nat i) = Ret o ∧ 0 < o ∧ o + pos < 2 ^ 31 ∧
      fb_cell_at buf (o + pos) c;
  tab_ByteVector_ok : ∀ buf off q l, fb_cell_at buf off (CRef q) → fb_at buf q (NBytes l) →
    tab_ByteVector buf off = Ret l;
  tab_VectorLen_bytes : ∀ buf pos o q l, fb_cell_at buf (o + pos) (CRef q) → fb_at buf q (NBytes l) →
    tab_VectorLen buf pos o = Ret (zlen l);
  tab_Vector_bytes : ∀ buf pos o q l, fb_cell_at buf (o + pos) (CRef q) → fb_at buf q (NBytes l) →
    ∃ a, tab_Vector buf pos o = Ret a ∧ 0 ≤ a ∧ a + zlen l < 2 ^ 31 ∧
      ∀ (j : nat) x, l !! j = Some x → tab_GetByte buf (a + Z.of_nat j) = Ret x;
  tab_VectorLen_tables : ∀ buf pos o q rs, fb_cell_at buf (o + pos) (CRef q) →
    fb_at buf q (NTables rs) → tab_VectorLen buf pos o = Ret (zlen rs);
  tab_Vector_tables : ∀ buf pos o q rs, fb_cell_at buf (o + pos) (CRef q) → fb_at buf q (NTables rs) →
    ∃ a, tab_Vector buf pos o = Ret a ∧ 0 ≤ a ∧ a + 4 * zlen rs < 2 ^ 31 ∧
      ∀ (j : nat) r, rs !! j = Some r → tab_Indirect buf (a + 4 * Z.of_nat j) = Ret r;
  tab_Union_ok : ∀ buf pos o q x, fb_cell_at buf (o + pos) (CRef q) → fb_at buf q x →
    tab_Union buf pos o = Ret q;
  tab_GetInt64_ok : ∀ buf off z, fb_cell_at buf off (CInt64 z) → tab_GetInt64 buf off = Ret z;
  tab_GetInt8_ok : ∀ buf off z, fb_cell_at buf off (CInt8 z) → tab_GetInt8 buf off = Ret z;
  tab_GetByte_ok : ∀ buf off z, fb_cell_at buf off (CByte z) → tab_GetByte buf off = Ret z;
  tab_GetBool_ok : ∀ buf off z, fb_cell_at buf off (CBool z) → tab_GetBool buf off = Ret z;
}.

Lemma fb_Finish_ok `{FlatBuffers} u b o fs :
  fb_idle u b → fb_holds b o (NTable fs) → u + 64 ≤ fb_limit →
  ∃ b' buf (tr : Z → Z), fb_Finish o b = Ret b' ∧ fb_FinishedBytes b' = Ret buf ∧
    fb_GetUOffsetT buf = Ret (tr o) ∧ ∀ o' x, fb_holds b o' x → fb_at buf (tr o') (node_map tr x).
Proof.
  intros Hi Hh Hu. destruct (fb_Finish_image u b o fs Hi Hh Hu) as (b' & buf & tr & m & E1 & E2 & E3 & Hm & Hn).
  exists b', buf, tr. split_and!; [done..|]. intros o' x Hx. by eapply fb_image_at, Hn.
Qed.

(** [flatbuffers.UOffsetT] is uint32. *)
Definition u32 (z : Z) : Z := z mod 2 ^ 32.
Lemma u32_small z : 0 ≤ z < 2 ^ 32 → u32 z = z.
Proof. intros. unfold u32. by apply Z.mod_small. Qed.

Module Protocol.
Section model.
Context `{FlatBuffers}.

(** [flatbuffers.Table]; the types [Node], [Value], ... wrap one. *)
Record table := mkTable { Bytes : bytes; Pos : Z }.

(** [Init] *)
Definition Init (buf : bytes) (i : Z) : table := mkTable buf i.

(** [GetRootAsXxx(buf, offset)] *)
Definition GetRootAs (buf : bytes) (offset : Z) : outcome table :=
  let! s := go_slice buf offset (zlen buf) in
  let! n := fb_GetUOffsetT s in
  Ret (Init buf (u32 (n + offset))).

(** [flatbuffers.SizeUint32] *)
Definition SizeUint32 : Z := 4.

(** [GetSizePrefixedRootAsXxx(buf, offset)] *)
Definition GetSizePrefixedRootAs (buf : bytes) (offset : Z) : outcome table :=
  let! s := go_slice buf (u32 (offset + SizeUint32)) (zlen buf) in
  let! n := fb_GetUOffsetT s in
  Ret (Init buf (u32 (u32 (n + offset) + SizeUint32))).

(** ** The shapes of generated accessors

    [o := flatbuffers.UOffsetT(rcv._tab.Offset(v)); if o != 0 { ... }; return ...] *)
Definition field {A} (v : Z) (rcv : table) (default : A) (read : Z → outcome A) : outcome A :=
  let! o := tab_Offset (Bytes rcv) (Pos rcv) v in
  if negb (u32 o =? 0) then read (u32 o) else Ret default.

(** [XxxBytes() []byte] *)
Definition byte_vector (v : Z) (rcv : table) : outcome bytes :=
  field v rcv [] (λ o, tab_ByteVector (Bytes rcv) (u32 (o + Pos rcv))).
(** [Xxx(j int) byte] *)
Definition byte_at (v : Z) (rcv : table) (j : Z) : outcome Z :=
  field v rcv 0 (λ o,
    let! a := tab_Vector (Bytes rcv) (Pos rcv) o in
    tab_GetByte (Bytes rcv) (u32 (a + u32 (j * 1)))).
(** [MutateXxx(j int, n byte) bool]: the answer, and the buffer afterwards. *)
Definition mutate_byte (v : Z) (rcv : table) (j n : Z) : outcome (bool * bytes) :=
  field v rcv (false, Bytes rcv) (λ o,
    let! a := tab_Vector (Bytes rcv) (Pos rcv) o in
    tab_MutateByte (Bytes rcv) (u32 (a + u32 (j * 1))) n).
(** [MutateXxx(n int64) bool] *)
Definition mutate_int64 (v : Z) (rcv : table) (n : Z) : outcome (bool * bytes) :=
  tab_MutateInt64Slot (Bytes rcv) (Pos rcv) v n.
(** [XxxLength() int] *)
Definition vector_length (v : Z) (rcv : table) : outcome Z :=
  field v rcv 0 (λ o, tab_VectorLen (Bytes rcv) (Pos rcv) o).
(** [Xxx(obj, j int) bool]: the object, if there is a vector. *)
Definition table_at (v : Z) (rcv : table) (j : Z) : outcome (option table) :=
  field v rcv None (λ o,
    let! x := tab_Vector (Bytes rcv) (Pos rcv) o in
    let x := u32 (x + u32 (u32 j * 4)) in
    let! x := tab_Indirect (Bytes rcv) x in
    Ret (Some (Init (Bytes rcv) x))).
(** [Xxx() int64] *)
Definition int64_field (v : Z) (rcv : table) : outcome Z :=
  field v rcv 0 (λ o, tab_GetInt64 (Bytes rcv) (u32 (o + Pos rcv))).

(** ** Node *)
Definition GetRootAsNode (buf : bytes) (offset : Z) : outcome table := GetRootAs buf offset.
Definition FinishNodeBuffer (offset : Z) (b : builder) := fb_Finish offset b.
Definition GetSizePrefixedRootAsNode (buf : bytes) (offset : Z) : outcome table := GetSizePrefixedRootAs buf offset.
Definition FinishSizePrefixedNodeBuffer (offset : Z) (b : builder) := fb_FinishSizePrefixed offset b.
Definition Node_Init (buf : bytes) (i : Z) : table := Init buf i.
Definition Node_Table (rcv : table) : table := rcv.
Definition Node_Id := byte_at 4.
Definition Node_IdLength := vector_length 4.
Definition Node_IdBytes := byte_vector 4.
Definition Node_MutateId := mutate_byte 4.
Definition Node_Address := byte_at 6.
Definition Node_AddressLength := vector_length 6.
Definition Node_AddressBytes := byte_vector 6.
Definition Node_MutateAddress := mutate_byte 6.
Definition NodeStart (b : builder) := fb_StartObject 2 b.
Definition NodeAddId (id : Z) (b : builder) := fb_PrependUOffsetTSlot 0 id 0 b.
Definition NodeStartIdVector (n : Z) (b : builder) := fb_StartVector 1 n 1 b.
Definition NodeAddAddress (address : Z) (b : builder) := fb_PrependUOffsetTSlot 1 address 0 b.
Definition NodeStartAddressVector (n : Z) (b : builder) := fb_StartVector 1 n 1 b.
Definition NodeEnd (b : builder) := fb_EndObject b.

(** ** Value *)
Definition GetRootAsValue (buf : bytes) (offset : Z) : outcome table := GetRootAs buf offset.
Definition FinishValueBuffer (offset : Z) (b : builder) := fb_Finish offset b.
Definition GetSizePrefixedRootAsValue (buf : bytes) (offset : Z) : outcome table := GetSizePrefixedRootAs buf offset.
Definition FinishSizePrefixedValueBuffer (offset : Z) (b : builder) := fb_FinishSizePrefixed offset b.
Definition Value_Init (buf : bytes) (i : Z) : table := Init buf i.
Definition Value_Table (rcv : table) : table := rcv.
Definition Value_Key := byte_at 4.
Definition Value_KeyLength := vector_length 4.
Definition Value_KeyBytes := byte_vector 4.
Definition Value_MutateKey := mutate_byte 4.
Definition Value_Value := byte_at 6.
Definition Value_ValueLength := vector_length 6.
Definition Value_ValueBytes := byte_vector 6.
Definition Value_MutateValue := mutate_byte 6.
Definition Value_Ttl := int64_field 8.
Definition Value_MutateTtl := mutate_int64 8.
Definition Value_Created := int64_field 10.
Definition Value_MutateCreated := mutate_int64 10.
Definition ValueStart (b : builder) := fb_StartObject 4 b.
Definition ValueAddKey (key : Z) (b : builder) := fb_PrependUOffsetTSlot 0 key 0 b.
Definition ValueStartKeyVector (n : Z) (b : builder) := fb_StartVector 1 n 1 b.
Definition ValueAddValue (value : Z) (b : builder) := fb_PrependUOffsetTSlot 1 value 0 b.
Definition ValueStartValueVector (n : Z) (b : builder) := fb_StartVector 1 n 1 b.
Definition ValueAddTtl (ttl : Z) (b : builder) := fb_PrependInt64Slot 2 ttl 0 b.
Definition ValueAddCreated (created : Z) (b : builder) := fb_PrependInt64Slot 3 created 0 b.
Definition ValueEnd (b : builder) := fb_EndObject b.

(** ** FindNode *)
Definition GetRootAsFindNode (buf : bytes) (offset : Z) : outcome table := GetRootAs buf offset.
Definition FinishFindNodeBuffer (offset : Z) (b : builder) := fb_Finish offset b.
Definition GetSizePrefixedRootAsFindNode (buf : bytes) (offset : Z) : outcome table := GetSizePrefixedRootAs buf offset.
Definition FinishSizePrefixedFindNodeBuffer (offset : Z) (b : builder) := fb_FinishSizePrefixed offset b.
Definition FindNode_Init (buf : bytes) (i : Z) : table := Init buf i.
Definition FindNode_Table (rcv : table) : table := rcv.
Definition FindNode_Key := byte_at 4.
Definition FindNode_KeyLength := vector_length 4.
Definition FindNode_KeyBytes := byte_vector 4.
Definition FindNode_MutateKey := mutate_byte 4.
Definition FindNode_Nodes := table_at 6.
Definition FindNode_NodesLength := vector_length 6.
Definition FindNodeStart (b : builder) := fb_StartObject 2 b.
Definition FindNodeAddKey (key : Z) (b : builder) := fb_PrependUOffsetTSlot 0 key 0 b.
Definition FindNodeStartKeyVector (n : Z) (b : builder) := fb_StartVector 1 n 1 b.
Definition FindNodeAddNodes (nodes : Z) (b : builder) := fb_PrependUOffsetTSlot 1 nodes 0 b.
Definition FindNodeStartNodesVector (n : Z) (b : builder) := fb_StartVector 4 n 4 b.
Definition FindNodeEnd (b : builder) := fb_EndObject b.

(** ** FindValue *)
Definition GetRootAsFindValue (buf : bytes) (offset : Z) : outcome table := GetRootAs buf offset.
Definition FinishFindValueBuffer (offset : Z) (b : builder) := fb_Finish offset b.
Definition GetSizePrefixedRootAsFindValue (buf : bytes) (offset : Z) : outcome table := GetSizePrefixedRootAs buf offset.
Definition FinishSizePrefixedFindValueBuffer (offset : Z) (b : builder) := fb_FinishSizePrefixed offset b.
Definition FindValue_Init (buf : bytes) (i : Z) : table := Init buf i.
Definition FindValue_Table (rcv : table) : table := rcv.
Definition FindValue_Key := byte_at 4.
Definition FindValue_KeyLength := vector_length 4.
Definition FindValue_KeyBytes := byte_vector 4.
Definition FindValue_MutateKey := mutate_byte 4.
Definition FindValue_Values := table_at 6.
Definition FindValue_ValuesLength := vector_length 6.
Definition FindValue_Nodes := table_at 8.
Definition FindValue_NodesLength := vector_length 8.
Definition FindValue_From := int64_field 10.
Definition FindValue_MutateFrom := mutate_int64 10.
Definition FindValue_Found := int64_field 12.
Definition FindValue_MutateFound := mutate_int64 12.
Definition FindValueStart (b : builder) := fb_StartObject 5 b.
Definition FindValueAddKey (key : Z) (b : builder) := fb_PrependUOffsetTSlot 0 key 0 b.
Definition FindValueStartKeyVector (n : Z) (b : builder) := fb_StartVector 1 n 1 b.
Definition FindValueAddValues (values : Z) (b : builder) := fb_PrependUOffsetTSlot 1 values 0 b.
Definition FindValueStartValuesVector (n : Z) (b : builder) := fb_StartVector 4 n 4 b.
Definition FindValueAddNodes (nodes : Z) (b : builder) := fb_PrependUOffsetTSlot 2 nodes 0 b.
Definition FindValueStartNodesVector (n : Z) (b : builder) := fb_StartVector 4 n 4 b.
Definition FindValueAddFrom (from : Z) (b : builder) := fb_PrependInt64Slot 3 from 0 b.
Definition FindValueAddFound (found : Z) (b : builder) := fb_PrependInt64Slot 4 found 0 b.
Definition FindValueEnd (b : builder) := fb_EndObject b.

(** ** Store *)
Definition GetRootAsStore (buf : bytes) (offset : Z) : outcome table := GetRootAs buf offset.
Definition FinishStoreBuffer (offset : Z) (b : builder) := fb_Finish offset b.
Definition GetSizePrefixedRootAsStore (buf : bytes) (offset : Z) : outcome table := GetSizePrefixedRootAs buf offset.
Definition FinishSizePrefixedStoreBuffer (offset : Z) (b : builder) := fb_FinishSizePrefixed offset b.
Definition Store_Init (buf : bytes) (i : Z) : table := Init buf i.
Definition Store_Table (rcv : table) : table := rcv.
Definition Store_Values := table_at 4.
Definition Store_ValuesLength := vector_length 4.
Definition StoreStart (b : builder) := fb_StartObject 1 b.
Definition StoreAddValues (values : Z) (b : builder) := fb_PrependUOffsetTSlot 0 values 0 b.
Definition StoreStartValuesVector (n : Z) (b : builder) := fb_StartVector 4 n 4 b.
Definition StoreEnd (b : builder) := fb_EndObject b.

(** ** Event *)
Definition GetRootAsEvent (buf : bytes) (offset : Z) : outcome table := GetRootAs buf offset.
Definition FinishEventBuffer (offset : Z) (b : builder) := fb_Finish offset b.
Definition GetSizePrefixedRootAsEvent (buf : bytes) (offset : Z) : outcome table := GetSizePrefixedRootAs buf offset.
Definition FinishSizePrefixedEventBuffer (offset : Z) (b : builder) := fb_FinishSizePrefixed offset b.
Definition Event_Init (buf : bytes) (i : Z) : table := Init buf i.
Definition Event_Table (rcv : table) : table := rcv.
Definition Event_Id := byte_at 4.
Definition Event_IdLength := vector_length 4.
Definition Event_IdBytes := byte_vector 4.
Definition Event_MutateId := mutate_byte 4.
Definition Event_Sender := byte_at 6.
Definition Event_SenderLength := vector_length 6.
Definition Event_SenderBytes := byte_vector 6.
Definition Event_MutateSender := mutate_byte 6.
Definition Event_Event (rcv : table) : outcome Z :=
  field 8 rcv 0 (λ o, tab_GetInt8 (Bytes rcv) (u32 (o + Pos rcv))).
Definition Event_MutateEvent (rcv : table) (n : Z) : outcome (bool * bytes) :=
  tab_MutateInt8Slot (Bytes rcv) (Pos rcv) 8 n.
Definition Event_Response (rcv : table) : outcome bool :=
  field 10 rcv false (λ o, tab_GetBool (Bytes rcv) (u32 (o + Pos rcv))).
Definition Event_MutateResponse (rcv : table) (n : bool) : outcome (bool * bytes) :=
  tab_MutateBoolSlot (Bytes rcv) (Pos rcv) 10 n.
Definition Event_PayloadType (rcv : table) : outcome Z :=
  field 12 rcv 0 (λ o, tab_GetByte (Bytes rcv) (u32 (o + Pos rcv))).
Definition Event_MutatePayloadType (rcv : table) (n : Z) : outcome (bool * bytes) :=
  tab_MutateByteSlot (Bytes rcv) (Pos rcv) 12 n.
Definition Event_Payload (rcv : table) : outcome (option table) :=
  field 14 rcv None (λ o,
    let! p := tab_Union (Bytes rcv) (Pos rcv) o in Ret (Some (mkTable (Bytes rcv) p))).
Definition EventStart (b : builder) := fb_StartObject 6 b.
Definition EventAddId (id : Z) (b : builder) := fb_PrependUOffsetTSlot 0 id 0 b.
Definition EventStartIdVector (n : Z) (b : builder) := fb_StartVector 1 n 1 b.
Definition EventAddSender (sender : Z) (b : builder) := fb_PrependUOffsetTSlot 1 sender 0 b.
Definition EventStartSenderVector (n : Z) (b : builder) := fb_StartVector 1 n 1 b.
Definition EventAddEvent (event : Z) (b : builder) := fb_PrependInt8Slot 2 event 0 b.
Definition EventAddResponse (response : bool) (b : builder) := fb_PrependBoolSlot 3 response false b.
Definition EventAddPayloadType (payloadType : Z) (b : builder) := fb_PrependByteSlot 4 payloadType 0 b.
Definition EventAddPayload (payload : Z) (b : builder) := fb_PrependUOffsetTSlot 5 payload 0 b.
Definition EventEnd (b : builder) := fb_EndObject b.
End model.

(** ** What the accessors read *)
Section reading.
Context `{FlatBuffers}.

Lemma field_absent {A} v buf pos fs (i : nat) (d : A) read :
  v = 4 + 2 * Z.of_nat i → fb_at buf pos (NTable fs) → mjoin (fs !! i) = None →
  field v (mkTable buf pos) d read = Ret d.
Proof. intros -> Ha Hi. unfold field. cbn [Bytes Pos]. by rewrite (tab_Offset_absent _ _ fs). Qed.

Lemma field_present v buf pos fs (i : nat) c :
  v = 4 + 2 * Z.of_nat i → fb_at buf pos (NTable fs) → mjoin (fs !! i) = Some c →
  ∃ o, fb_cell_at buf (o + pos) c ∧ u32 (o + pos) = o + pos ∧
    ∀ A (d : A) read, field v (mkTable buf pos) d read = read o.
Proof.
  intros -> Ha Hi. pose proof (fb_at_pos _ _ _ Ha).
  destruct (tab_Offset_present _ _ _ _ _ Ha Hi) as (o & E & Ho & Hlt & Hc). exists o.
  split_and!; [done|by apply u32_small; lia|]. intros A d read.
  unfold field. cbn [Bytes Pos]. rewrite E. cbn [obind]. rewrite (u32_small o) by lia.
  destruct (Z.eqb_spec o 0); [lia|done].
Qed.

Lemma byte_vector_read v buf pos fs (i : nat) q l :
  v = 4 + 2 * Z.of_nat i → fb_at buf pos (NTable fs) → mjoin (fs !! i) = Some (CRef q) → fb_at buf q (NBytes l) →
  byte_vector v (mkTable buf pos) = Ret l.
Proof.
  intros -> Ha Hi Hq. unfold byte_vector. cbn [Bytes Pos].
  destruct (field_present _ buf pos fs i _ eq_refl Ha Hi) as (o & Hc & Hu & E).
  rewrite E, Hu. by eapply tab_ByteVector_ok.
Qed.

Lemma int64_read v buf pos fs (i : nat) z :
  v = 4 + 2 * Z.of_nat i → fb_at buf pos (NTable fs) → mjoin (fs !! i) = slot_value (CInt64 z) (z =? 0) →
  int64_field v (mkTable buf pos) = Ret z.
Proof.
  intros -> Ha Hi. unfold int64_field, slot_value in *. cbn [Bytes Pos]. destruct (Z.eqb_spec z 0) as [->|].
  - by eapply (field_absent _ _ _ fs).
  - destruct (field_present _ buf pos fs i _ eq_refl Ha Hi) as (o & Hc & Hu & E).
    rewrite E, Hu. by eapply tab_GetInt64_ok.
Qed.

Lemma table_at_read v buf pos fs (i : nat) q rs (j : nat) r :
  v = 4 + 2 * Z.of_nat i → fb_at buf pos (NTable fs) → mjoin (fs !! i) = Some (CRef q) → fb_at buf q (NTables rs) →
  rs !! j = Some r →
  table_at v (mkTable buf pos) (Z.of_nat j) = Ret (Some (mkTable buf r)).
Proof.
  intros -> Ha Hi Hq Hj. unfold table_at. cbn [Bytes Pos].
  destruct (field_present _ buf pos fs i _ eq_refl Ha Hi) as (o & Hc & Hu & E).
  rewrite E. destruct (tab_Vector_tables _ _ _ _ _ Hc Hq) as (a & -> & Ha0 & Hlim & Hrs). cbn [obind].
  apply lookup_lt_Some in Hj as Hlt. unfold zlen in Hlim.
  rewrite (u32_small (Z.of_nat j)), (u32_small (Z.of_nat j * 4)), u32_small by lia.
  by rewrite (Z.mul_comm _ 4), (Hrs j r Hj).
Qed.

Lemma vector_length_read v buf pos fs (i : nat) q rs :
  v = 4 + 2 * Z.of_nat i → fb_at buf pos (NTable fs) → mjoin (fs !! i) = Some (CRef q) → fb_at buf q (NTables rs) →
  vector_length v (mkTable buf pos) = Ret (zlen rs).
Proof.
  intros -> Ha Hi Hq. unfold vector_length. cbn [Bytes Pos].
  destruct (field_present _ buf pos fs i _ eq_refl Ha Hi) as (o & Hc & _ & E).
  rewrite E. by eapply tab_VectorLen_tables.
Qed.

End reading.
End Protocol.
