(* ===== verification/Cells.v ===== *)
(** * A representation that keeps the promises of the FlatBuffers run time

    A buffer of cells, each of which holds any integer: first the position of
    the root (behind a size, if one is wanted), then the finished nodes.  It is
    not the format of FlatBuffers; it shows that the laws of the class
    [FlatBuffers] of [Protocol.v] can be kept together, and the witnesses of the
    theorems about the wire format run on it. *)
From stdpp Require Import base list numbers gmap.
From Stdlib Require Import Lia.
From S2P Require Import Prelude Protocol.
Local Open Scope Z_scope.

Module Cells.
Inductive frame :=
  | Idle
  | InTable (fs : list (option (fb_cell Z)))
  | InVector (n : nat) (rs : list Z)
  | InBytes (n : nat) (l : bytes).
Record cells := mkCells { nodes : list (fb_node Z); open_frame : frame; finished : option bytes }.

Definition cell_value (c : fb_cell Z) : Z :=
  match c with
  | CRef r => r | CInt64 z => z | CInt8 z => z | CByte z => z | CBool b => if b then 1 else 0
  end.
Definition slot_cells (s : option (fb_cell Z)) : list Z :=
  match s with Some c => [1; cell_value c] | None => [0; 0] end.
Definition ref_cells (r : Z) : list Z := [r; 0; 0; 0].
Definition node_cells (x : fb_node Z) : list Z :=
  match x with
  | NBytes l => zlen l :: l
  | NTables rs => zlen rs :: (rs ≫= ref_cells)
  | NTable fs => zlen fs :: (fs ≫= slot_cells)
  end.
Definition size (x : fb_node Z) : Z := zlen (node_cells x).
Definition layout (ns : list (fb_node Z)) : list Z := ns ≫= node_cells.

(** The nodes by their positions, the first at [p]. *)
Fixpoint placed (p : Z) (ns : list (fb_node Z)) : gmap Z (fb_node Z) :=
  match ns with
  | [] => ∅
  | x :: ns => <[p := x]> (placed (p + size x) ns)
  end.

Definition alloc (x : fb_node Z) (b : cells) : outcome (Z * cells) :=
  Ret (1 + zlen (layout (nodes b)), mkCells (nodes b ++ [x]) Idle None).
Definition set_slot (i : Z) (s : option (fb_cell Z)) (b : cells) : outcome cells :=
  match open_frame b with
  | InTable fs => Ret (mkCells (nodes b) (InTable (<[Z.to_nat i := s]> fs)) None)
  | _ => Panic ExplicitPanic
  end.
Definition when_idle {A} (b : cells) (k : outcome A) : outcome A :=
  match open_frame b with Idle => k | _ => Panic ExplicitPanic end.
Definition start (f : frame) (b : cells) : outcome cells :=
  when_idle b (Ret (mkCells (nodes b) f None)).
Definition shift4 (o : Z) : Z := o + 4.

(** [x] lies at position [o]. *)
Definition lies (h : list Z) (o : Z) (x : list Z) : Prop := ∃ pre post, h = pre ++ x ++ post ∧ zlen pre = o.

Definition get_offset (buf : list Z) (pos v : Z) : outcome Z :=
  let i := (v - 4) / 2 in
  let! n := go_index buf pos in
  if i <? n then
    let! p := go_index buf (pos + 1 + 2 * i) in
    if p =? 1 then Ret (2 + 2 * i) else Ret 0
  else Ret 0.

Definition mutate_slot (buf : list Z) (pos v n : Z) : outcome (bool * bytes) :=
  let! o := get_offset buf pos v in
  if o =? 0 then Ret (false, buf) else let! buf' := go_store buf (o + pos) n in Ret (true, buf').

Definition held (b : cells) (o : Z) (x : fb_node Z) : Prop := placed 1 (nodes b) !! o = Some x.
Definition at_ (buf : list Z) (pos : Z) (x : fb_node Z) : Prop :=
  0 ≤ pos ∧ zlen buf < 2 ^ 31 ∧ lies buf pos (node_cells x).
Definition cell_at (buf : list Z) (off : Z) (c : fb_cell Z) : Prop := go_index buf off = Ret (cell_value c).
Definition image (buf : list Z) (m : gmap Z (fb_node Z)) : Prop :=
  zlen buf < 2 ^ 31 ∧ ∃ pre ns, buf = pre ++ layout ns ∧ m = placed (zlen pre) ns.

(** ** Placed nodes *)
Lemma size_pos x : 0 < size x.
Proof.
  unfold size. destruct x; cbn; rewrite zlen_cons;
    match goal with |- context [zlen ?l] => pose proof (zlen_nonneg l) end; lia.
Qed.

Lemma layout_app ns ks : layout (ns ++ ks) = layout ns ++ layout ks.
Proof. apply bind_app. Qed.
Lemma layout_cons x ns : layout (x :: ns) = node_cells x ++ layout ns.
Proof. done. Qed.
Lemma zlen_layout_cons x ns : zlen (layout (x :: ns)) = size x + zlen (layout ns).
Proof. by rewrite layout_cons, zlen_app. Qed.

Lemma placed_lookup p ns q x :
  placed p ns !! q = Some x ↔ ∃ ns1 ns2, ns = ns1 ++ x :: ns2 ∧ q = p + zlen (layout ns1).
Proof.
  revert p. induction ns as [|y ns IH]; intros p; cbn [placed].
  { rewrite lookup_empty. split; [done|]. by intros ([] & ns2 & E & _). }
  destruct (decide (p = q)) as [->|Hq].
  - rewrite lookup_insert_eq. split.
    + intros [= ->]. exists [], ns. split; [done|]. change (zlen (layout [])) with 0. lia.
    + intros ([|z ns1] & ns2 & E & Hq); injection E as -> E; [done|]. rewrite zlen_layout_cons in Hq.
      pose proof (size_pos z). pose proof (zlen_nonneg (layout ns1)). lia.
  - rewrite lookup_insert_ne by done. rewrite IH. split.
    + intros (ns1 & ns2 & -> & ->). exists (y :: ns1), ns2. rewrite zlen_layout_cons. split; [done|lia].
    + intros ([|z ns1] & ns2 & E & ->); injection E as -> E.
      { change (zlen (layout [])) with 0 in Hq. lia. }
      exists ns1, ns2. rewrite zlen_layout_cons. split; [done|lia].
Qed.

Lemma placed_app p ns ks q x : placed p ns !! q = Some x → placed p (ns ++ ks) !! q = Some x.
Proof.
  rewrite !placed_lookup. intros (ns1 & ns2 & -> & ->). exists ns1, (ns2 ++ ks). by rewrite <-app_assoc.
Qed.

Lemma placed_replace p ns1 x y ns2 :
  size y = size x → placed p (ns1 ++ y :: ns2) = <[p + zlen (layout ns1) := y]> (placed p (ns1 ++ x :: ns2)).
Proof.
  intros Hs. revert p. induction ns1 as [|z ns1 IH]; intros p; cbn [app placed].
  - change (zlen (layout [])) with 0. by rewrite Z.add_0_r, insert_insert_eq, Hs.
  - rewrite IH, zlen_layout_cons. rewrite insert_insert_ne.
    + rewrite Z.add_assoc. done.
    + pose proof (size_pos z). pose proof (zlen_nonneg (layout ns1)). lia.
Qed.

Lemma node_map_size f x : size (node_map f x) = size x.
Proof.
  unfold size. destruct x as [l|rs|fs]; cbn; rewrite !zlen_cons; [done| |]; f_equal.
  - induction rs as [|r rs IH]; [done|]. cbn. by rewrite !zlen_cons, IH.
  - induction fs as [|s fs IH]; [done|]. rewrite fmap_cons, !bind_cons, !zlen_app, IH. by destruct s.
Qed.

Lemma placed_map f d p ns q x :
  placed p ns !! q = Some x → placed (p + d) (node_map f <$> ns) !! (q + d) = Some (node_map f x).
Proof.
  rewrite !placed_lookup. intros (ns1 & ns2 & -> & ->). exists (node_map f <$> ns1), (node_map f <$> ns2).
  rewrite fmap_app, fmap_cons. split; [done|]. assert (zlen (layout (node_map f <$> ns1)) = zlen (layout ns1)); [|lia].
  induction ns1 as [|y ns1 IH]; [done|]. by rewrite fmap_cons, !zlen_layout_cons, node_map_size, IH.
Qed.

Lemma image_at buf m pos x : image buf m → m !! pos = Some x → at_ buf pos x.
Proof.
  intros (Hb & pre & ns & -> & ->) (ns1 & ns2 & -> & ->)%placed_lookup.
  pose proof (zlen_nonneg pre). pose proof (zlen_nonneg (layout ns1)). split_and!; [lia|done|].
  exists (pre ++ layout ns1), (layout ns2). rewrite zlen_app. split; [|done].
  by rewrite layout_app, layout_cons, <-!app_assoc.
Qed.

(** One cell of a node is overwritten: the others stay where they are. *)
Lemma image_store buf m pos x y (j : nat) v :
  image buf m → m !! pos = Some x → (j < length (node_cells x))%nat → node_cells y = <[j := v]> (node_cells x) →
  ∃ buf', go_store buf (pos + Z.of_nat j) v = Ret buf' ∧ image buf' (<[pos := y]> m).
Proof.
  intros (Hb & pre & ns & -> & ->) (ns1 & ns2 & -> & ->)%placed_lookup Hj Hy.
  rewrite layout_app, layout_cons in *.
  set (h := pre ++ layout ns1 ++ node_cells x ++ layout ns2) in *.
  exists (pre ++ layout ns1 ++ node_cells y ++ layout ns2).
  replace (zlen pre + zlen (layout ns1) + Z.of_nat j) with (Z.of_nat (length pre + (length (layout ns1) + j)))
    by (unfold zlen; lia).
  assert (Hi : <[(length pre + (length (layout ns1) + j))%nat := v]> h =
    pre ++ layout ns1 ++ node_cells y ++ layout ns2).
  { unfold h. by rewrite !insert_app_r, insert_app_l, <-Hy. }
  assert (Hs : size y = size x) by (unfold size, zlen; by rewrite Hy, length_insert).
  split.
  - rewrite <-Hi. apply go_store_ok. unfold h. rewrite !length_app. lia.
  - split; [rewrite <-Hi; unfold zlen in *; by rewrite length_insert|].
    exists pre, (ns1 ++ y :: ns2). rewrite layout_app, layout_cons. split; [done|].
    symmetry. by apply placed_replace.
Qed.

(** ** Reading *)
Lemma lies_index h o x (j : nat) y : lies h o x → x !! j = Some y → go_index h (o + Z.of_nat j) = Ret y.
Proof.
  intros (pre & post & -> & <-) Hj. unfold zlen. rewrite <-Nat2Z.inj_add. apply go_index_Some.
  rewrite lookup_app_r by lia. replace (length pre + j - length pre)%nat with j by lia.
  rewrite lookup_app_l; [done|]. by eapply lookup_lt_Some.
Qed.

Lemma lies_head h o y x : lies h o (y :: x) → go_index h o = Ret y.
Proof. intros Hl. rewrite <-(Z.add_0_r o). by apply (lies_index h o (y :: x) 0). Qed.

Lemma lies_bound h o x : lies h o x → 0 ≤ o ∧ o + zlen x ≤ zlen h.
Proof. intros (pre & post & -> & <-). rewrite !zlen_app. pose proof (zlen_nonneg pre). pose proof (zlen_nonneg post). lia. Qed.

#[local] Arguments layout : simpl never.

Lemma slots_lookup fs (i : nat) s :
  fs !! i = Some s → slot_cells s = [default 0 ((fs ≫= slot_cells) !! (2 * i)%nat);
    default 0 ((fs ≫= slot_cells) !! (2 * i + 1)%nat)] ∧
  is_Some ((fs ≫= slot_cells) !! (2 * i)%nat) ∧ is_Some ((fs ≫= slot_cells) !! (2 * i + 1)%nat).
Proof.
  revert i. induction fs as [|s0 fs IH]; intros i Hi; [done|]. rewrite bind_cons.
  assert (Hl : length (slot_cells s0) = 2%nat) by (by destruct s0).
  destruct i as [|i]; simpl in Hi.
  - injection Hi as ->. destruct s as [c|]; cbn; eauto.
  - rewrite !lookup_app_r by lia. rewrite Hl.
    replace (2 * S i - 2)%nat with (2 * i)%nat by lia.
    replace (2 * S i + 1 - 2)%nat with (2 * i + 1)%nat by lia. by apply IH.
Qed.

Lemma slots_insert fs (i : nat) c c' :
  fs !! i = Some (Some c) →
  (<[i := Some c']> fs) ≫= slot_cells = <[(2 * i + 1)%nat := cell_value c']> (fs ≫= slot_cells).
Proof.
  revert i. induction fs as [|s0 fs IH]; intros [|i] Hi; [done|done| |]; simpl in Hi.
  - injection Hi as ->. done.
  - change (<[S i := Some c']> (s0 :: fs)) with (s0 :: <[i := Some c']> fs).
    rewrite !bind_cons, (IH i) by done.
    assert (Hl : length (slot_cells s0) = 2%nat) by (by destruct s0).
    replace (2 * S i + 1)%nat with (length (slot_cells s0) + (2 * i + 1))%nat by lia.
    by rewrite insert_app_r.
Qed.

Lemma refs_lookup rs (j : nat) r : rs !! j = Some r → (rs ≫= ref_cells) !! (4 * j)%nat = Some r.
Proof.
  revert j. induction rs as [|r0 rs IH]; intros [|j] Hj; [done| |by injection Hj as ->|];
    [done|]. change (rs !! j = Some r) in Hj. rewrite bind_cons. cbn [ref_cells app]. replace (4 * S j)%nat with (4 + 4 * j)%nat by lia.
  cbn [Nat.add lookup list_lookup]. by apply IH.
Qed.

Lemma length_slots fs : zlen (fs ≫= slot_cells) = 2 * zlen fs.
Proof.
  induction fs as [|s fs IH]; [done|]. rewrite bind_cons, zlen_app, zlen_cons, IH.
  assert (zlen (slot_cells s) = 2) by (by destruct s). lia.
Qed.
Lemma length_refs rs : zlen (rs ≫= ref_cells) = 4 * zlen rs.
Proof. induction rs as [|s rs IH]; [done|]. rewrite bind_cons, zlen_app, zlen_cons, IH. change (zlen (ref_cells s)) with 4. lia. Qed.

Lemma get_offset_slot buf pos fs (i : nat) s :
  at_ buf pos (NTable fs) → fs !! i = Some s →
  get_offset buf pos (4 + 2 * Z.of_nat i) = Ret (if s is Some _ then 2 + 2 * Z.of_nat i else 0) ∧
  (∀ c, s = Some c → cell_at buf (2 + 2 * Z.of_nat i + pos) c).
Proof.
  intros (Hp & Hb & Hl) Hi. apply slots_lookup in Hi as Hs. destruct Hs as (Hs & [y1 H1] & [y2 H2]).
  rewrite H1, H2 in Hs. cbn [default] in Hs.
  assert (Hy1 : go_index buf (pos + 1 + 2 * Z.of_nat i) = Ret y1).
  { replace (pos + 1 + 2 * Z.of_nat i) with (pos + Z.of_nat (S (2 * i))) by lia. by eapply lies_index. }
  assert (Hy2 : go_index buf (pos + 2 + 2 * Z.of_nat i) = Ret y2).
  { replace (pos + 2 + 2 * Z.of_nat i) with (pos + Z.of_nat (S (2 * i + 1))) by lia. by eapply lies_index. }
  unfold get_offset. replace ((4 + 2 * Z.of_nat i - 4) / 2) with (Z.of_nat i)
    by (apply Z.div_unique with 0; lia).
  rewrite (lies_head _ _ _ _ Hl). cbn [obind].
  apply lookup_lt_Some in Hi. destruct (Z.ltb_spec (Z.of_nat i) (zlen fs)) as [_|]; [|unfold zlen in *; lia].
  rewrite Hy1. cbn [obind]. destruct s as [c|]; simpl in Hs; injection Hs as E1 E2;
    rewrite <-E1; (split; [done|]); intros ? [= <-]. unfold cell_at.
  replace (2 + 2 * Z.of_nat i + pos) with (pos + 2 + 2 * Z.of_nat i) by lia. congruence.
Qed.

Lemma get_offset_beyond buf pos fs (i : nat) :
  at_ buf pos (NTable fs) → fs !! i = None → get_offset buf pos (4 + 2 * Z.of_nat i) = Ret 0.
Proof.
  intros (Hp & Hb & Hl) Hi. unfold get_offset. replace ((4 + 2 * Z.of_nat i - 4) / 2) with (Z.of_nat i)
    by (apply Z.div_unique with 0; lia).
  rewrite (lies_head _ _ _ _ Hl). cbn [obind].
  apply lookup_ge_None in Hi. destruct (Z.ltb_spec (Z.of_nat i) (zlen fs)); [unfold zlen in *; lia|done].
Qed.

Lemma node_map_id x : node_map (λ o : Z, o) x = x.
Proof.
  destruct x as [l|rs|fs]; simpl; f_equal; [apply list_fmap_id|].
  induction fs as [|[c|] fs IH]; simpl; f_equal; try done. f_equal. by destruct c.
Qed.

Lemma at_head_bound buf pos x : at_ buf pos x → pos + zlen (node_cells x) ≤ zlen buf ∧ zlen buf < 2 ^ 31.
Proof. intros (Hp & Hb & Hl%lies_bound). lia. Qed.

(** ** The states of a builder, and what stays when it goes on *)
Definition room (b : cells) : Z := 1 + zlen (layout (nodes b)).
Definition idle (u : Z) (b : cells) : Prop := open_frame b = Idle ∧ room b ≤ u + 1.
Definition in_table (u : Z) (fs : list (option (fb_cell Z))) (b : cells) : Prop :=
  open_frame b = InTable fs ∧ room b + 1 + 2 * zlen fs ≤ u + 1.
Definition in_vector (u : Z) (n : nat) (rs : list Z) (b : cells) : Prop :=
  open_frame b = InVector n rs ∧ room b + 1 + 4 * (Z.of_nat n + zlen rs) ≤ u + 1.
Definition in_bytes (u : Z) (n : nat) (l : bytes) (b : cells) : Prop :=
  open_frame b = InBytes n l ∧ room b + 1 + (Z.of_nat n + zlen l) ≤ u + 1.
Definition grown (b b' : cells) : Prop := ∀ o x, held b o x → held b' o x.

Lemma alloc_ok u b x :
  room b + size x ≤ u + 1 →
  ∃ o b', alloc x b = Ret (o, b') ∧ idle u b' ∧ held b' o x ∧ grown b b'.
Proof.
  destruct b as [ns f d]. intros Hu. do 2 eexists. split; [done|]. unfold idle, room, held in *. cbn [nodes open_frame] in *.
  rewrite layout_app, zlen_app, layout_cons, zlen_app. change (zlen (layout [])) with 0.
  split_and!; [done|unfold size in Hu; lia| |].
  - apply placed_lookup. by exists ns, [].
  - intros o y. apply placed_app.
Qed.

Lemma set_slot_ok u fs b (i : nat) c :
  in_table u fs b → ∃ b', set_slot (Z.of_nat i) c b = Ret b' ∧ in_table u (<[i := c]> fs) b' ∧ grown b b'.
Proof.
  destruct b as [ns f d]. intros (Ef & Hu). cbn in *. subst f. eexists. cbn. rewrite Nat2Z.id.
  split; [done|]. unfold in_table, room in *. cbn in *. unfold zlen at 2. rewrite length_insert.
  split_and!; [done|done|by intros o x].
Qed.

Lemma start_ok u b f :
  idle u b → ∃ b', start f b = Ret b' ∧ open_frame b' = f ∧ room b' ≤ u + 1 ∧ grown b b'.
Proof. intros (Ef & Hu). unfold start, when_idle. rewrite Ef. eexists. split_and!; [done|done|done|by intros o x]. Qed.

Lemma held_pos b o x : held b o x → 0 < o.
Proof. intros (ns1 & ns2 & _ & ->)%placed_lookup. pose proof (zlen_nonneg (layout ns1)). lia. Qed.

Lemma finish_ok u b (pre : list Z) f d :
  idle u b → u + 64 ≤ fb_limit → zlen pre = 1 + d → 0 ≤ d ≤ 4 →
  (∀ o, f o = o + d) →
  let buf := pre ++ layout (node_map f <$> nodes b) in
  image buf (placed (zlen pre) (node_map f <$> nodes b)) ∧
  ∀ o' y, held b o' y → placed (zlen pre) (node_map f <$> nodes b) !! f o' = Some (node_map f y).
Proof.
  destruct b as [ns fr fi]. intros (Ef & Hu) Hl Hp Hd Hf. unfold fb_limit, room, held in *. cbn [nodes open_frame] in *. cbn zeta.
  assert (E : zlen (layout (node_map f <$> ns)) = zlen (layout ns)).
  { clear. induction ns as [|y ns IH]; [done|]. by rewrite fmap_cons, !zlen_layout_cons, node_map_size, IH. }
  split.
  - split; [rewrite zlen_app, E; lia|]. by exists pre, (node_map f <$> ns).
  - intros o' y Hy. rewrite Hp, Hf. by apply placed_map.
Qed.

(** ** Reading what lies in a finished buffer *)
Lemma at_pos buf pos x : at_ buf pos x → 0 ≤ pos < 2 ^ 31.
Proof.
  intros Hx. pose proof (at_head_bound _ _ _ Hx) as [Hb Hm]. destruct Hx as [Hp _].
  pose proof (zlen_nonneg (node_cells x)). assert (zlen (node_cells x) ≠ 0); [|lia].
  destruct x; cbn; rewrite zlen_cons; match goal with |- context [zlen ?l] => pose proof (zlen_nonneg l) end; lia.
Qed.

Lemma offset_absent buf pos fs (i : nat) :
  at_ buf pos (NTable fs) → mjoin (fs !! i) = None → get_offset buf pos (4 + 2 * Z.of_nat i) = Ret 0.
Proof.
  intros Ha Hi. destruct (fs !! i) as [[c|]|] eqn:E; [done| |by apply (get_offset_beyond _ _ fs)].
  by apply (get_offset_slot _ _ fs i None).
Qed.

Lemma offset_present buf pos fs (i : nat) c :
  at_ buf pos (NTable fs) → mjoin (fs !! i) = Some c →
  ∃ o, get_offset buf pos (4 + 2 * Z.of_nat i) = Ret o ∧ 0 < o ∧ o + pos < 2 ^ 31 ∧ cell_at buf (o + pos) c.
Proof.
  intros Ha Hi. destruct (fs !! i) as [s|] eqn:E; [|done]. simpl in Hi. subst s.
  destruct (get_offset_slot _ _ _ _ _ Ha E) as [-> Hc]. eexists. split; [done|].
  specialize (Hc c eq_refl). split_and!; [lia| |done]. pose proof (at_head_bound _ _ _ Ha) as [Hb ?].
  cbn in Hb. rewrite zlen_cons, length_slots in Hb. apply lookup_lt_Some in E. unfold zlen in *. lia.
Qed.

Lemma slice_at buf q l : at_ buf q (NBytes l) → go_slice buf (q + 1) (q + 1 + zlen l) = Ret l.
Proof.
  intros (_ & _ & pre & post & -> & Hp). cbn [node_cells].
  replace (pre ++ (zlen l :: l) ++ post) with ((pre ++ [zlen l]) ++ l ++ post) by (by rewrite <-app_assoc).
  apply go_slice_mid; rewrite ?zlen_app, ?zlen_cons; change (zlen []) with 0; lia.
Qed.

Lemma byte_at_ok buf q l (j : nat) x :
  at_ buf q (NBytes l) → l !! j = Some x → go_index buf (q + 1 + Z.of_nat j) = Ret x.
Proof.
  intros (_ & _ & Hl) Hj. replace (q + 1 + Z.of_nat j) with (q + Z.of_nat (S j)) by lia. by eapply lies_index.
Qed.

Lemma ref_at_ok buf q rs (j : nat) r :
  at_ buf q (NTables rs) → rs !! j = Some r → go_index buf (q + 1 + 4 * Z.of_nat j) = Ret r.
Proof.
  intros (_ & _ & Hl) Hj%refs_lookup. replace (q + 1 + 4 * Z.of_nat j) with (q + Z.of_nat (S (4 * j))) by lia.
  by eapply lies_index.
Qed.

Lemma mutate_slot_ok buf m pos fs (i : nat) c c' :
  image buf m → m !! pos = Some (NTable fs) → fs !! i = Some (Some c) →
  ∃ buf', mutate_slot buf pos (4 + 2 * Z.of_nat i) (cell_value c') = Ret (true, buf') ∧
    image buf' (<[pos := NTable (<[i := Some c']> fs)]> m).
Proof.
  intros Hm Hp Hi. pose proof (image_at _ _ _ _ Hm Hp) as Ha.
  destruct (get_offset_slot _ _ _ _ _ Ha Hi) as [Eo _]. unfold mutate_slot. rewrite Eo. cbn [obind].
  destruct (Z.eqb_spec (2 + 2 * Z.of_nat i) 0); [lia|].
  destruct (image_store buf m pos (NTable fs) (NTable (<[i := Some c']> fs)) (2 + 2 * i) (cell_value c'))
    as (buf' & E & Hb'); [done|done| | |].
  - cbn. apply lookup_lt_Some in Hi. pose proof (length_slots fs). unfold zlen in *. lia.
  - cbn. unfold zlen. rewrite length_insert. f_equal. rewrite (slots_insert _ _ c) by done. f_equal. lia.
  - exists buf'. replace (2 + 2 * Z.of_nat i + pos) with (pos + Z.of_nat (2 + 2 * i)) by lia. by rewrite E.
Qed.

Lemma mutate_slot_absent buf pos fs (i : nat) n :
  at_ buf pos (NTable fs) → mjoin (fs !! i) = None →
  mutate_slot buf pos (4 + 2 * Z.of_nat i) n = Ret (false, buf).
Proof. intros Ha Hi. unfold mutate_slot. by rewrite (offset_absent _ _ fs). Qed.

Lemma mutate_byte_ok buf m q l (j : nat) n :
  image buf m → m !! q = Some (NBytes l) → (j < length l)%nat →
  ∃ buf', go_store buf (q + 1 + Z.of_nat j) n = Ret buf' ∧ image buf' (<[q := NBytes (<[j := n]> l)]> m).
Proof.
  intros Hm Hq Hj. replace (q + 1 + Z.of_nat j) with (q + Z.of_nat (S j)) by lia.
  eapply image_store; [done|done|cbn; lia|]. cbn. unfold zlen. by rewrite length_insert.
Qed.

Definition demo_FlatBuffers : FlatBuffers.
Proof.
  refine {|
    builder := cells;
    fb_Reset _ := mkCells [] Idle None;
    fb_CreateByteVector l b := when_idle b (alloc (NBytes l) b);
    fb_StartObject n b := start (InTable (replicate (Z.to_nat n) None)) b;
    fb_PrependUOffsetTSlot i o d b := set_slot i (slot_value (CRef o) (o =? d)) b;
    fb_PrependInt64Slot i z d b := set_slot i (slot_value (CInt64 z) (z =? d)) b;
    fb_PrependInt8Slot i z d b := set_slot i (slot_value (CInt8 z) (z =? d)) b;
    fb_PrependByteSlot i z d b := set_slot i (slot_value (CByte z) (z =? d)) b;
    fb_PrependBoolSlot i z d b := set_slot i (slot_value (CBool z) (eqb z d)) b;
    fb_EndObject b := match open_frame b with InTable fs => alloc (NTable fs) b | _ => Panic ExplicitPanic end;
    fb_StartVector w n _ b := let! b := start (if w =? 1 then InBytes (Z.to_nat n) [] else InVector (Z.to_nat n) []) b in
      Ret (0, b);
    fb_PrependUOffsetT o b := match open_frame b with
      | InVector (S n) rs => Ret (mkCells (nodes b) (InVector n (o :: rs)) None) | _ => Panic ExplicitPanic end;
    fb_PrependByte z b := match open_frame b with
      | InBytes (S n) l => Ret (mkCells (nodes b) (InBytes n (z :: l)) None) | _ => Panic ExplicitPanic end;
    fb_EndVector _ b := match open_frame b with
      | InVector 0 rs => alloc (NTables rs) b | InBytes 0 l => alloc (NBytes l) b | _ => Panic ExplicitPanic end;
    fb_Finish o b := when_idle b (Ret (mkCells (nodes b) Idle
      (Some ([o] ++ layout (node_map id <$> nodes b)))));
    fb_FinishSizePrefixed o b := when_idle b (Ret (mkCells (nodes b) Idle
      (Some ([room b; 0; 0; 0] ++ [o] ++ layout (node_map shift4 <$> nodes b)))));
    fb_FinishedBytes b := match finished b with Some buf => Ret buf | None => Panic ExplicitPanic end;
    fb_GetUOffsetT buf := go_index buf 0;
    tab_Offset := get_offset;
    tab_Vector buf pos o := let! q := go_index buf (o + pos) in Ret (q + 1);
    tab_VectorLen buf pos o := let! q := go_index buf (o + pos) in go_index buf q;
    tab_ByteVector buf off := let! q := go_index buf off in let! n := go_index buf q in
      go_slice buf (q + 1) (q + 1 + n);
    tab_Indirect buf off := go_index buf off;
    tab_Union buf pos o := go_index buf (o + pos);
    tab_GetByte buf off := go_index buf off;
    tab_GetInt64 buf off := go_index buf off;
    tab_GetInt8 buf off := go_index buf off;
    tab_GetBool buf off := let! z := go_index buf off in Ret (negb (z =? 0));
    tab_MutateByte buf off n := let! buf' := go_store buf off n in Ret (true, buf');
    tab_MutateInt64Slot := mutate_slot;
    tab_MutateInt8Slot := mutate_slot;
    tab_MutateByteSlot := mutate_slot;
    tab_MutateBoolSlot buf pos v n := mutate_slot buf pos v (if n then 1 else 0);
    fb_idle := idle; fb_object := in_table; fb_vector := in_vector; fb_bytes := in_bytes;
    fb_holds := held; fb_image := image; fb_at := at_; fb_cell_at := cell_at;
    fb_image_at := image_at; fb_at_pos := at_pos;
    tab_Offset_absent := offset_absent; tab_Offset_present := offset_present;
  |}; unfold bytes_room, vector_room, table_room in *.
  - exact held_pos.
  - by intros b.
  - intros u b l (Ef & Hu) _ _. unfold when_idle. rewrite Ef. apply alloc_ok.
    unfold size. cbn. rewrite zlen_cons. lia.
  - intros u b n Hb _. destruct (start_ok u b (InTable (replicate n None)) Hb) as (b' & E & Hf & Hr & Hg).
    rewrite Nat2Z.id. exists b'. split_and!; [done| |done]. unfold in_table. unfold zlen. rewrite length_replicate.
    split; [done|lia].
  - intros u fs b i o x Hb Hi Hx%held_pos. rewrite (proj2 (Z.eqb_neq o 0)) by lia. by apply set_slot_ok.
  - intros u fs b i z d Hb _ _. by apply set_slot_ok.
  - intros u fs b i z d Hb _ _. by apply set_slot_ok.
  - intros u fs b i z d Hb _ _. by apply set_slot_ok.
  - intros u fs b i z d Hb _. by apply set_slot_ok.
  - intros u fs b (Ef & Hu). rewrite Ef. apply alloc_ok. unfold size. cbn. rewrite zlen_cons, length_slots. lia.
  - intros u b n Hb _. destruct (start_ok u b (InVector n []) Hb) as (b' & E & Hf & Hr & Hg).
    rewrite Nat2Z.id. cbn. rewrite E. exists 0, b'. split_and!; [done| |done]. unfold in_vector.
    change (zlen []) with 0. split; [done|lia].
  - intros u n rs b o x (Ef & Hu) _. rewrite Ef. eexists. split; [done|]. unfold in_vector, room in *. cbn.
    rewrite zlen_cons. split_and!; [done|lia|by intros o' y].
  - intros u rs b (Ef & Hu). rewrite Ef. apply alloc_ok. unfold size. cbn. rewrite zlen_cons, length_refs. lia.
  - intros u b n Hb _. destruct (start_ok u b (InBytes n []) Hb) as (b' & E & Hf & Hr & Hg).
    rewrite Nat2Z.id. cbn. rewrite E. exists 0, b'. split_and!; [done| |done]. unfold in_bytes.
    change (zlen []) with 0. split; [done|lia].
  - intros u n l b z (Ef & Hu) _. rewrite Ef. eexists. split; [done|]. unfold in_bytes, room in *. cbn.
    rewrite zlen_cons. split_and!; [done|lia|by intros o' y].
  - intros u l b (Ef & Hu). rewrite Ef. apply alloc_ok. unfold size. cbn. rewrite zlen_cons. lia.
  - intros u b o fs Hb Ho Hl. destruct (finish_ok u b [o] id 0 Hb Hl) as [Hi Hp]; [done|lia|intros; unfold id; lia|].
    unfold when_idle. rewrite (proj1 Hb). eexists _, _, id, _. split_and!; [done|done|done|exact Hi|exact Hp].
  - intros u b o fs Hb Ho Hl. pose proof (held_pos _ _ _ Ho).
    destruct (finish_ok u b [room b; 0; 0; 0; o] shift4 4 Hb Hl) as [Hi Hp]; [done|lia|done|].
    unfold when_idle. rewrite (proj1 Hb). eexists _, [room b; 0; 0; 0], _, shift4, _.
    split_and!; [done|done|done|unfold shift4; f_equal; cbn; f_equal; lia|unfold shift4; lia|exact Hi|exact Hp].
  - intros buf m pos o q l j n Hm Hc Hq Hj _. destruct (mutate_byte_ok buf m q l j n Hm Hq Hj) as (buf' & E & Hi).
    pose proof (image_at _ _ _ _ Hm Hq) as Ha. pose proof (at_head_bound _ _ _ Ha) as [Hb ?]. cbn in Hb.
    rewrite zlen_cons in Hb. destruct Ha as [Hq0 _]. exists (q + 1), buf'. rewrite Hc, E. split_and!; [done|lia|lia|done|done].
  - intros buf m pos fs i z n Hm Hp Hi _. exact (mutate_slot_ok buf m pos fs i _ (CInt64 n) Hm Hp Hi).
  - intros buf m pos fs i z n Hm Hp Hi _. exact (mutate_slot_ok buf m pos fs i _ (CInt8 n) Hm Hp Hi).
  - intros buf m pos fs i z n Hm Hp Hi _. exact (mutate_slot_ok buf m pos fs i _ (CByte n) Hm Hp Hi).
  - intros buf m pos fs i z n Hm Hp Hi. exact (mutate_slot_ok buf m pos fs i _ (CBool n) Hm Hp Hi).
  - intros buf pos fs i Ha Hi. split_and!; intros n; by apply mutate_slot_absent with fs.
  - intros buf off q l Hc Ha. rewrite Hc. cbn [obind cell_value]. rewrite (lies_head _ _ _ _ (proj2 (proj2 Ha))).
    by apply slice_at.
  - intros buf pos o q l Hc (_ & _ & Hl). rewrite Hc. cbn [obind cell_value]. by rewrite (lies_head _ _ _ _ Hl).
  - intros buf pos o q l Hc Ha. pose proof (at_head_bound _ _ _ Ha) as [Hb ?]. cbn in Hb. rewrite zlen_cons in Hb.
    rewrite Hc. exists (q + 1). destruct Ha as [Hq Ha]. split_and!; [done|lia|lia|]. intros. by eapply byte_at_ok.
  - intros buf pos o q rs Hc (_ & _ & Hl). rewrite Hc. cbn [obind cell_value]. by rewrite (lies_head _ _ _ _ Hl).
  - intros buf pos o q rs Hc Ha. pose proof (at_head_bound _ _ _ Ha) as [Hb ?]. cbn in Hb.
    rewrite zlen_cons, length_refs in Hb. rewrite Hc. exists (q + 1). destruct Ha as [Hq Ha].
    split_and!; [done|lia|lia|]. intros. by eapply ref_at_ok.
  - by intros buf pos o q x Hc _.
  - done.
  - done.
  - done.
  - intros buf off [] Hc; rewrite Hc; done.
Defined.
End Cells.
