(* ===== verification/Wire.v ===== *)
(** * Events as bytes

    Models [event.go] as it is written, as calls of a FlatBuffers builder
    through the generated functions of Protocol.v, and the way the handlers read
    an event back.  Event.v describes the same events as records; the theorem of
    this file says that reading what an event function built gives the record
    of that event, field by field. *)
From stdpp Require Import base list numbers gmap.
From Stdlib Require Import Lia.
From S2P Require Import Prelude Keyspace Bucket Storage Event Protocol Cells.
Local Open Scope Z_scope.

Module Wire.
Import Protocol.

(** The numbers of the event types. *)
Definition type_number (t : EventType) : Z :=
  match t with
  | PING => 0 | PONG => 1 | STORE => 2 | FIND_NODE => 3 | FIND_VALUE => 4 | OtherEvent b => b
  end.
Definition number_type (z : Z) : EventType :=
  if z =? 0 then PING else if z =? 1 then PONG else if z =? 2 then STORE
  else if z =? 3 then FIND_NODE else if z =? 4 then FIND_VALUE else OtherEvent z.

Section build.
Context `{FlatBuffers}.

(** The end of every event function: the event table with its identifier,
    sender, type and, if there is one, payload. *)
Definition finish_event (id sender : bytes) (event : EventType) (response : bool)
    (payload : option Z) (buf : builder) : outcome (bytes * builder) :=
  let! '(eid, buf) := fb_CreateByteVector id buf in
  let! '(snd, buf) := fb_CreateByteVector sender buf in
  let! buf := EventStart buf in
  let! buf := EventAddId eid buf in
  let! buf := EventAddSender snd buf in
  let! buf := EventAddEvent (type_number event) buf in
  let! buf := EventAddResponse response buf in
  let! buf := match payload with Some p => EventAddPayload p buf | None => Ret buf end in
  let! '(e, buf) := EventEnd buf in
  let! buf := fb_Finish e buf in
  let! data := fb_FinishedBytes buf in
  Ret (data, buf).

(** [for i, x := range xs { ...; os[i] = XxxEnd(buf) }] *)
Fixpoint each {A} (f : A → builder → outcome (Z * builder)) (l : list A) (buf : builder)
    : outcome (list Z * builder) :=
  match l with
  | [] => Ret ([], buf)
  | x :: l =>
      let! '(o, buf) := f x buf in
      let! '(os, buf) := each f l buf in
      Ret (o :: os, buf)
  end.

(** [StartXxxVector(buf, n); for i := n-1; i >= 0; i-- { PrependUOffsetT(os[i]) }; EndVector(n)] *)
Definition offsets_vector (start : Z → builder → outcome (Z * builder)) (os : list Z) (buf : builder)
    : outcome (Z * builder) :=
  let! '(_, buf) := start (zlen os) buf in
  let! buf := ofold (λ buf o, fb_PrependUOffsetT o buf) buf (reverse os) in
  fb_EndVector (zlen os) buf.

(** The table of a value in a store request. *)
Definition store_value_table (value : Value) (buf : builder) : outcome (Z * builder) :=
  let! '(k, buf) := fb_CreateByteVector (v_Key value) buf in
  let! '(v, buf) := fb_CreateByteVector (v_Value value) buf in
  let! buf := ValueStart buf in
  let! buf := ValueAddKey k buf in
  let! buf := ValueAddValue v buf in
  let! buf := ValueAddCreated (UnixNano (v_Created value)) buf in
  let! buf := ValueAddTtl (i64 (v_TTL value)) buf in
  ValueEnd buf.

(** The table of a value in a find value response. *)
Definition found_value_table (value : Value) (buf : builder) : outcome (Z * builder) :=
  let! '(k, buf) := fb_CreateByteVector (v_Key value) buf in
  let! '(v, buf) := fb_CreateByteVector (v_Value value) buf in
  let! buf := ValueStart buf in
  let! buf := ValueAddKey k buf in
  let! buf := ValueAddValue v buf in
  let! buf := ValueAddTtl (i64 (v_TTL value)) buf in
  ValueEnd buf.

(** The table of a node in a response. *)
Definition node_table (n : node) (buf : builder) : outcome (Z * builder) :=
  let! a := Events.encode_address (n_address n) in
  let! '(nid, buf) := fb_CreateByteVector (n_id n) buf in
  let! '(nad, buf) := fb_CreateByteVector a buf in
  let! buf := NodeStart buf in
  let! buf := NodeAddId nid buf in
  let! buf := NodeAddAddress nad buf in
  NodeEnd buf.

Definition eventPing (buf : builder) (id sender : bytes) : outcome (bytes * builder) :=
  finish_event id sender PING false None (fb_Reset buf).

Definition eventPong (buf : builder) (id sender : bytes) : outcome (bytes * builder) :=
  finish_event id sender PONG true None (fb_Reset buf).

Definition eventStoreRequest (buf : builder) (id sender : bytes) (values : list Value)
    : outcome (bytes * builder) :=
  let buf := fb_Reset buf in
  let! '(vs, buf) := each store_value_table values buf in
  let! '(vv, buf) := offsets_vector StoreStartValuesVector vs buf in
  let! buf := StoreStart buf in
  let! buf := StoreAddValues vv buf in
  let! '(s, buf) := StoreEnd buf in
  finish_event id sender STORE false (Some s) buf.

Definition eventStoreResponse (buf : builder) (id sender : bytes) : outcome (bytes * builder) :=
  finish_event id sender STORE true None (fb_Reset buf).

Definition eventFindNodeRequest (buf : builder) (id sender key : bytes) : outcome (bytes * builder) :=
  let buf := fb_Reset buf in
  let! '(k, buf) := fb_CreateByteVector key buf in
  let! buf := FindNodeStart buf in
  let! buf := FindNodeAddKey k buf in
  let! '(fn, buf) := FindNodeEnd buf in
  finish_event id sender FIND_NODE false (Some fn) buf.

Definition eventFindNodeResponse (buf : builder) (id sender : bytes) (nodes : list node)
    : outcome (bytes * builder) :=
  let buf := fb_Reset buf in
  let! '(ns, buf) := each node_table nodes buf in
  let! '(nv, buf) := offsets_vector FindNodeStartNodesVector ns buf in
  let! buf := FindNodeStart buf in
  let! buf := FindNodeAddNodes nv buf in
  let! '(fn, buf) := FindNodeEnd buf in
  finish_event id sender FIND_NODE true (Some fn) buf.

Definition eventFindValueRequest (buf : builder) (id sender key : bytes) (from : Z)
    : outcome (bytes * builder) :=
  let buf := fb_Reset buf in
  let! '(k, buf) := fb_CreateByteVector key buf in
  let! buf := FindValueStart buf in
  let! buf := FindValueAddKey k buf in
  let! buf := FindValueAddFrom (UnixNano from) buf in
  let! '(fv, buf) := FindValueEnd buf in
  finish_event id sender FIND_VALUE false (Some fv) buf.

Definition eventFindValueFoundResponse (buf : builder) (id sender : bytes) (values : list Value)
    (found : Z) : outcome (bytes * builder) :=
  let buf := fb_Reset buf in
  let! '(vs, buf) := each found_value_table values buf in
  let! '(vv, buf) := offsets_vector FindValueStartValuesVector vs buf in
  let! buf := FindValueStart buf in
  let! buf := FindValueAddValues vv buf in
  let! buf := FindValueAddFound (i64 found) buf in
  let! '(fv, buf) := FindValueEnd buf in
  finish_event id sender FIND_VALUE true (Some fv) buf.

Definition eventFindValueNotFoundResponse (buf : builder) (id sender : bytes) (nodes : list node)
    : outcome (bytes * builder) :=
  let buf := fb_Reset buf in
  let! '(ns, buf) := each node_table nodes buf in
  let! '(nv, buf) := offsets_vector FindNodeStartNodesVector ns buf in
  let! buf := FindValueStart buf in
  let! buf := FindValueAddNodes nv buf in
  let! '(fn, buf) := FindValueEnd buf in
  finish_event id sender FIND_VALUE true (Some fn) buf.

(** ** Reading *)

(** [for i := 0; i < n; i++ { if get(obj, i) { ... read(obj) ... } }] *)
Definition read_vector {A} (length : outcome Z) (get : Z → outcome (option table))
    (read : table → outcome A) : outcome (list A) :=
  let! n := length in
  let! os := omapM (λ i : nat,
    let! t := get (Z.of_nat i) in
    match t with Some t => let! x := read t in Ret (Some x) | None => Ret None end)
    (seq 0 (Z.to_nat n)) in
  Ret (omap id os).

Definition read_value (v : table) : outcome WireValue :=
  let! key := Value_KeyBytes v in
  let! value := Value_ValueBytes v in
  let! ttl := Value_Ttl v in
  let! created := Value_Created v in
  Ret (mkWireValue key value ttl created).

Definition read_node (n : table) : outcome WireNode :=
  let! id := Node_IdBytes n in
  let! address := Node_AddressBytes n in
  Ret (mkWireNode id address).

Definition read_Store (s : table) : outcome StoreTable :=
  let! vs := read_vector (Store_ValuesLength s) (Store_Values s) read_value in
  Ret (mkStore vs).

Definition read_FindNode (f : table) : outcome FindNode :=
  let! key := FindNode_KeyBytes f in
  let! ns := read_vector (FindNode_NodesLength f) (FindNode_Nodes f) read_node in
  Ret (mkFindNode key ns).

Definition read_FindValue (f : table) : outcome FindValue :=
  let! key := FindValue_KeyBytes f in
  let! vs := read_vector (FindValue_ValuesLength f) (FindValue_Values f) read_value in
  let! ns := read_vector (FindValue_NodesLength f) (FindValue_Nodes f) read_node in
  let! from := FindValue_From f in
  let! found := FindValue_Found f in
  Ret (mkFindValue key vs ns from found).

(** An event with its payload, read as the table that the handlers of its type
    read it as. *)
Definition read_payload (t : EventType) (p : table) : outcome tagged :=
  match t with
  | FIND_NODE => let! x := read_FindNode p in Ret (TFindNode x)
  | FIND_VALUE => let! x := read_FindValue p in Ret (TFindValue x)
  | _ => let! x := read_Store p in Ret (TStore x)
  end.

Definition read_event (data : bytes) : outcome (@Event tagged_Tables) :=
  let! e := GetRootAsEvent data 0 in
  let! id := Event_IdBytes e in
  let! sender := Event_SenderBytes e in
  let! event := Event_Event e in
  let! response := Event_Response e in
  let! payload := Event_Payload e in
  let t := number_type event in
  let! p := match payload with
            | Some p => let! x := read_payload t p in Ret (Some x)
            | None => Ret None
            end in
  Ret (mkEvent tagged_Tables id sender t response p).
End build.

(** ** Lemmas: reading *)
Section reading.
Context `{FlatBuffers}.

Lemma omapM_seq {A B} (f : nat → outcome B) (g : A → B) k (l : list A) :
  (∀ j x, l !! j = Some x → f (k + j)%nat = Ret (g x)) →
  omapM f (seq k (length l)) = Ret (g <$> l).
Proof.
  revert k. induction l as [|x l IH]; intros k Hf; [done|]. cbn [length seq omapM].
  rewrite <-(Nat.add_0_r k) at 1. rewrite (Hf O x) by done. cbn [obind]. rewrite IH; [done|].
  intros j y Hj. rewrite <-(Hf (S j) y) by done. f_equal. lia.
Qed.

Lemma vector_read {A} v buf pos fs (i : nat) q rs (read : table → outcome A) ws :
  v = 4 + 2 * Z.of_nat i → fb_at buf pos (NTable fs) → mjoin (fs !! i) = Some (CRef q) → fb_at buf q (NTables rs) →
  Forall2 (λ r w, read (mkTable buf r) = Ret w) rs ws →
  read_vector (vector_length v (mkTable buf pos))
    (table_at v (mkTable buf pos)) read = Ret ws.
Proof.
  intros -> Ha Hi Hq Hws. unfold read_vector. erewrite vector_length_read by done. cbn [obind].
  unfold zlen. rewrite Nat2Z.id, (Forall2_length _ _ _ Hws).
  rewrite (omapM_seq _ Some).
  - cbn [obind]. f_equal. exact (Bucket.omap_id_Some ws).
  - intros j w Hw. destruct (Forall2_lookup_r _ _ _ _ _ Hws Hw) as (r & Hr & E). cbn [Nat.add].
    rewrite (table_at_read _ _ _ _ _ _ _ _ _ eq_refl Ha Hi Hq Hr). cbn [obind]. by rewrite E.
Qed.

Lemma vector_absent {A} v buf pos fs (i : nat) (read : table → outcome A) :
  v = 4 + 2 * Z.of_nat i → fb_at buf pos (NTable fs) → mjoin (fs !! i) = None →
  read_vector (vector_length v (mkTable buf pos))
    (table_at v (mkTable buf pos)) read = Ret [].
Proof.
  intros -> Ha Hi. unfold read_vector, vector_length. by rewrite (field_absent _ _ _ fs i).
Qed.
End reading.

(** ** Lemmas: building *)

(** The functions of the generated code, down to the builder. *)
Ltac unfold_generated :=
  unfold NodeStart, NodeAddId, NodeAddAddress, NodeEnd,
    ValueStart, ValueAddKey, ValueAddValue, ValueAddTtl, ValueAddCreated, ValueEnd,
    FindNodeStart, FindNodeAddKey, FindNodeAddNodes, FindNodeEnd,
    FindValueStart, FindValueAddKey, FindValueAddValues, FindValueAddNodes, FindValueAddFrom,
    FindValueAddFound, FindValueEnd, StoreStart, StoreAddValues, StoreEnd,
    EventStart, EventAddId, EventAddSender, EventAddEvent, EventAddResponse, EventAddPayload, EventEnd.

(** What is held by a builder is held by its successor; [Hm] says so. *)
Ltac carry Hm :=
  repeat match goal with
  | Hh : fb_holds ?b _ _ |- _ =>
      match type of Hm with ∀ o x, fb_holds b o x → _ => apply Hm in Hh end
  | Hk : ∀ o x, fb_holds ?b0 o x → fb_holds ?b o x |- _ =>
      match type of Hm with ∀ o x, fb_holds b o x → _ =>
        let Hn := fresh Hk in
        pose proof (λ o x h, Hm o x (Hk o x h)) as Hn; clear Hk; rename Hn into Hk
      end
  end; clear Hm.

Ltac slot_number i := let n := eval vm_compute in (Z.to_nat i) in n.
Ltac normal_slots Hb := cbn [replicate insert list_insert] in Hb.

(** One call of the builder. *)
Ltac fb_step :=
  match goal with
  | Hi : fb_idle ?u ?b |- context [fb_CreateByteVector ?l ?b] =>
      let o := fresh "o" in let b' := fresh "b" in let E := fresh "E" in
      let Hi' := fresh "Hi" in let Hh := fresh "Hh" in let Hm := fresh "Hm" in
      destruct (fb_Create_ok u b l Hi) as (o & b' & E & Hi' & Hh & Hm);
        [try done|unfold bytes_room, vector_room, table_room in *; try lia|
         rewrite E; cbn [obind]; clear E; carry Hm; clear Hi]
  | Hi : fb_idle ?u ?b |- context [fb_StartObject ?i ?b] =>
      let n := slot_number i in
      let b' := fresh "b" in let E := fresh "E" in let Ho := fresh "Ho" in let Hm := fresh "Hm" in
      destruct (fb_StartObject_ok u b n Hi) as (b' & E & Ho & Hm);
        [unfold bytes_room, vector_room, table_room in *; try lia|
         change (Z.of_nat n) with i in E; rewrite E; cbn [obind]; clear E; carry Hm; clear Hi; normal_slots Ho]
  | Ho : fb_object ?u ?fs ?b, Hh : fb_holds ?b ?o ?x |- context [fb_PrependUOffsetTSlot ?i ?o 0 ?b] =>
      let n := slot_number i in
      let b' := fresh "b" in let E := fresh "E" in let Ho' := fresh "Ho" in let Hm := fresh "Hm" in
      destruct (fb_UOffsetTSlot_ok u fs b n o x Ho eq_refl Hh) as (b' & E & Ho' & Hm);
      change (Z.of_nat n) with i in E; rewrite E; cbn [obind]; clear E; carry Hm; clear Ho; normal_slots Ho'
  | Ho : fb_object ?u ?fs ?b |- context [fb_PrependInt64Slot ?i ?z ?d ?b] =>
      let n := slot_number i in
      let b' := fresh "b" in let E := fresh "E" in let Ho' := fresh "Ho" in let Hm := fresh "Hm" in
      destruct (fb_Int64Slot_ok u fs b n z d Ho eq_refl) as (b' & E & Ho' & Hm);
        [try apply i64_range|
         change (Z.of_nat n) with i in E; rewrite E; cbn [obind]; clear E; carry Hm; clear Ho; normal_slots Ho']
  | Ho : fb_object ?u ?fs ?b |- context [fb_PrependInt8Slot ?i ?z ?d ?b] =>
      let n := slot_number i in
      let b' := fresh "b" in let E := fresh "E" in let Ho' := fresh "Ho" in let Hm := fresh "Hm" in
      destruct (fb_Int8Slot_ok u fs b n z d Ho eq_refl) as (b' & E & Ho' & Hm);
        [try lia|
         change (Z.of_nat n) with i in E; rewrite E; cbn [obind]; clear E; carry Hm; clear Ho; normal_slots Ho']
  | Ho : fb_object ?u ?fs ?b |- context [fb_PrependBoolSlot ?i ?z ?d ?b] =>
      let n := slot_number i in
      let b' := fresh "b" in let E := fresh "E" in let Ho' := fresh "Ho" in let Hm := fresh "Hm" in
      destruct (fb_BoolSlot_ok u fs b n z d Ho eq_refl) as (b' & E & Ho' & Hm);
      change (Z.of_nat n) with i in E; rewrite E; cbn [obind]; clear E; carry Hm; clear Ho; normal_slots Ho'
  | Ho : fb_object ?u ?fs ?b |- context [fb_EndObject ?b] =>
      let o := fresh "o" in let b' := fresh "b" in let E := fresh "E" in
      let Hi := fresh "Hi" in let Hh := fresh "Hh" in let Hm := fresh "Hm" in
      destruct (fb_EndObject_ok u fs b Ho) as (o & b' & E & Hi & Hh & Hm);
      rewrite E; cbn [obind]; clear E; carry Hm; clear Ho
  end.

Section building.
Context `{FlatBuffers}.

Definition mono (b b' : builder) : Prop := ∀ o x, fb_holds b o x → fb_holds b' o x.

(** What a builder holds of a value and of a node. *)
Definition held_value (b : builder) (o : Z) (w : WireValue) : Prop :=
  ∃ k v, fb_holds b k (NBytes (wv_key w)) ∧ fb_holds b v (NBytes (wv_value w)) ∧
    fb_holds b o (NTable [Some (CRef k); Some (CRef v);
      slot_value (CInt64 (wv_ttl w)) (wv_ttl w =? 0);
      slot_value (CInt64 (wv_created w)) (wv_created w =? 0)]).

Definition held_node (b : builder) (o : Z) (w : WireNode) : Prop :=
  ∃ i a, fb_holds b i (NBytes (wn_id w)) ∧ fb_holds b a (NBytes (wn_address w)) ∧
    fb_holds b o (NTable [Some (CRef i); Some (CRef a)]).

Definition value_room (v : Value) : Z :=
  bytes_room (zlen (v_Key v)) + bytes_room (zlen (v_Value v)) + table_room 4.
Definition node_room (n : node) : Z := bytes_room (zlen (n_id n)) + bytes_room 6 + table_room 2.

Definition wf_value (v : Value) : Prop := wf_bytes (v_Key v) ∧ wf_bytes (v_Value v).
Definition wf_node (n : node) : Prop :=
  wf_bytes (n_id n) ∧ from_option (λ a, wf_bytes (IP a)) False (n_address n).

Lemma idle_eq u u' b : fb_idle u b → u = u' → fb_idle u' b.
Proof. congruence. Qed.

Ltac rooms := unfold value_room, node_room, bytes_room, vector_room, table_room in *; lia.

Lemma store_value_ok u b v :
  fb_idle u b → wf_value v → u + value_room v ≤ fb_limit →
  ∃ o b', store_value_table v b = Ret (o, b') ∧ fb_idle (u + value_room v) b' ∧ mono b b' ∧
    held_value b' o (Events.wire_value v).
Proof.
  intros Hi [Hk Hv] Hu. unfold store_value_table, value_room in *. unfold_generated.
  assert (Hall : mono b b) by (intros o x; done). unfold mono in *.
  pose proof (zlen_nonneg (v_Key v)). pose proof (zlen_nonneg (v_Value v)).
  repeat fb_step. do 2 eexists. split; [done|]. split; [eapply idle_eq; [done|rooms]|].
  split; [done|]. by do 2 eexists.
Qed.

Lemma found_value_ok u b v :
  fb_idle u b → wf_value v → u + value_room v ≤ fb_limit →
  ∃ o b', found_value_table v b = Ret (o, b') ∧ fb_idle (u + value_room v) b' ∧ mono b b' ∧
    held_value b' o (Events.wire_found v).
Proof.
  intros Hi [Hk Hv] Hu. unfold found_value_table, value_room in *. unfold_generated.
  assert (Hall : mono b b) by (intros o x; done). unfold mono in *.
  pose proof (zlen_nonneg (v_Key v)). pose proof (zlen_nonneg (v_Value v)).
  repeat fb_step. do 2 eexists. split; [done|]. split; [eapply idle_eq; [done|rooms]|].
  split; [done|]. by do 2 eexists.
Qed.

Lemma encode_address_ok a :
  wf_bytes (IP a) → ∃ l, Events.encode_address (Some a) = Ret l ∧ wf_bytes l ∧ length l = 6%nat.
Proof.
  intros Hw. unfold Events.encode_address. set (l0 := copy_at _ _ _).
  assert (Hl0 : length l0 = 6%nat) by (apply length_copy_at; simpl; lia).
  assert (Hw0 : wf_bytes l0).
  { subst l0. unfold copy_at. repeat apply Forall_app_2; [apply Forall_nil_2|by apply Forall_take|].
    apply Forall_drop, Forall_replicate. split; lia. }
  assert (Hb : ∀ z, is_byte (u8 z)) by (intros z; apply Z.mod_pos_bound; lia).
  change 4 with (Z.of_nat 4). change 5 with (Z.of_nat 5).
  rewrite go_store_ok by lia. cbn [obind]. rewrite go_store_ok by (rewrite length_insert; lia).
  eexists. split; [done|]. split; [|by rewrite !length_insert].
  apply Forall_insert; [apply Forall_insert|]; auto.
Qed.

Lemma node_ok u b n :
  fb_idle u b → wf_node n → u + node_room n ≤ fb_limit →
  ∃ o b' w, node_table n b = Ret (o, b') ∧ fb_idle (u + node_room n) b' ∧ mono b b' ∧
    Events.wire_node n = Ret w ∧ held_node b' o w.
Proof.
  intros Hi [Hid Ha] Hu. unfold node_table, Events.wire_node, node_room in *.
  destruct (n_address n) as [a|]; [|done]. simpl in Ha.
  destruct (encode_address_ok a Ha) as (l & -> & Hl & Hlen). cbn [obind].
  assert (Hz : zlen l = 6) by (unfold zlen; lia).
  unfold_generated. assert (Hall : mono b b) by (intros o x; done). unfold mono in *.
  pose proof (zlen_nonneg (n_id n)).
  repeat fb_step. do 3 eexists. split; [done|]. split; [eapply idle_eq; [done|rooms]|].
  split; [done|]. split; [done|]. by do 2 eexists.
Qed.

Definition total {A} (room : A → Z) (l : list A) : Z := foldr (λ a s, room a + s) 0 l.

Lemma total_nonneg {A} (room : A → Z) l : (∀ a, 0 ≤ room a) → 0 ≤ total room l.
Proof. intros Hr. induction l as [|a l IH]; simpl; [lia|]. specialize (Hr a). lia. Qed.

Lemma each_ok {A} (f : A → builder → outcome (Z * builder)) (room : A → Z) (good : A → Prop)
    (P : builder → Z → A → Prop) :
  (∀ u b a, fb_idle u b → good a → u + room a ≤ fb_limit →
    ∃ o b', f a b = Ret (o, b') ∧ fb_idle (u + room a) b' ∧ mono b b' ∧ P b' o a) →
  (∀ b b' o a, mono b b' → P b o a → P b' o a) → (∀ a, 0 ≤ room a) →
  ∀ l u b, fb_idle u b → Forall good l → u + total room l ≤ fb_limit →
    ∃ os b', each f l b = Ret (os, b') ∧ fb_idle (u + total room l) b' ∧ mono b b' ∧
      Forall2 (P b') os l.
Proof.
  intros Hf HP Hr. induction l as [|a l IH]; intros u b Hi Hg Hu; cbn [each].
  { exists [], b. split_and!; [done|eapply idle_eq; [done|simpl; lia]|by intros o x|constructor]. }
  apply Forall_cons_1 in Hg as [Ha Hg]. simpl in Hu. pose proof (total_nonneg room l Hr).
  destruct (Hf u b a Hi Ha) as (o & b1 & -> & Hi1 & Hm1 & Ho); [lia|]. cbn [obind].
  destruct (IH _ b1 Hi1 Hg) as (os & b2 & -> & Hi2 & Hm2 & Hos); [lia|]. cbn [obind].
  exists (o :: os), b2. split_and!; [done|eapply idle_eq; [done|simpl; lia]| |].
  - intros o' x Hx. by apply Hm2, Hm1.
  - constructor; [|done]. by eapply HP.
Qed.

Lemma prepend_ok u os n rs b :
  fb_vector u (length os + n) rs b → Forall (λ o, ∃ x, fb_holds b o x) os →
  ∃ b', ofold (λ b o, fb_PrependUOffsetT o b) b os = Ret b' ∧ fb_vector u n (reverse os ++ rs) b' ∧
    mono b b'.
Proof.
  revert rs b. induction os as [|o os IH]; intros rs b Hv Hos; cbn [ofold].
  { exists b. split_and!; [done|done|by intros o x]. }
  apply Forall_cons_1 in Hos as [[x Hx] Hos].
  destruct (fb_PrependUOffsetT_ok u (length os + n) rs b o x Hv Hx) as (b1 & -> & Hv1 & Hm1).
  cbn [obind]. destruct (IH (o :: rs) b1 Hv1) as (b2 & -> & Hv2 & Hm2).
  { eapply Forall_impl; [exact Hos|]. intros o' [y Hy]. eauto. }
  exists b2. split_and!; [done| |intros o' y Hy; by apply Hm2, Hm1].
  by rewrite reverse_cons, <-app_assoc.
Qed.

Lemma offsets_vector_ok u os b :
  fb_idle u b → Forall (λ o, ∃ x, fb_holds b o x) os → u + vector_room (zlen os) ≤ fb_limit →
  ∃ o b', offsets_vector (λ n b, fb_StartVector 4 n 4 b) os b = Ret (o, b') ∧
    fb_idle (u + vector_room (zlen os)) b' ∧ mono b b' ∧ fb_holds b' o (NTables os).
Proof.
  intros Hi Hos Hu. unfold offsets_vector, zlen in *.
  destruct (fb_StartVector_ok u b (length os) Hi Hu) as (o1 & b1 & -> & Hv & Hm1). cbn [obind].
  destruct (prepend_ok (u + vector_room (Z.of_nat (length os))) (reverse os) 0 [] b1) as (b2 & -> & Hv2 & Hm2).
  { by rewrite length_reverse, Nat.add_0_r. }
  { rewrite Forall_forall in *. intros o Ho. rewrite elem_of_reverse in Ho. destruct (Hos o Ho) as [x Hx]. eauto. }
  cbn [obind]. rewrite reverse_involutive, app_nil_r in Hv2.
  destruct (fb_EndVector_ok _ _ _ Hv2) as (o & b3 & E & Hi3 & Hh & Hm3). unfold zlen in E.
  exists o, b3. split_and!; [done|done| |done]. intros o' x Hx. by apply Hm3, Hm2, Hm1.
Qed.

(** A finished buffer has what the builder held. *)
Definition transferred (b : builder) (data : bytes) (tr : Z → Z) : Prop :=
  ∀ o x, fb_holds b o x → fb_at data (tr o) (node_map tr x).

Lemma value_transferred b data tr o w :
  transferred b data tr → held_value b o w → read_value (mkTable data (tr o)) = Ret w.
Proof.
  intros Ht (k & v & Hk & Hv & Ho). apply Ht in Hk, Hv, Ho. cbn [node_map fmap list_fmap] in *.
  assert (Hs : ∀ z : Z, fmap (M := option) (cell_map tr) (slot_value (CInt64 z) (z =? 0)) =
    slot_value (CInt64 z) (z =? 0)) by (intros z; unfold slot_value; by destruct (z =? 0)).
  unfold read_value, Value_KeyBytes, Value_ValueBytes, Value_Ttl, Value_Created.
  rewrite (byte_vector_read 4 _ _ _ 0 _ _ eq_refl Ho eq_refl Hk). cbn [obind].
  rewrite (byte_vector_read 6 _ _ _ 1 _ _ eq_refl Ho eq_refl Hv). cbn [obind].
  rewrite (int64_read 8 _ _ _ 2 (wv_ttl w) eq_refl Ho) by apply Hs. cbn [obind].
  rewrite (int64_read 10 _ _ _ 3 (wv_created w) eq_refl Ho) by apply Hs. by destruct w.
Qed.

Lemma node_transferred b data tr o w :
  transferred b data tr → held_node b o w → read_node (mkTable data (tr o)) = Ret w.
Proof.
  intros Ht (k & v & Hk & Hv & Ho). apply Ht in Hk, Hv, Ho. cbn [node_map fmap list_fmap] in *.
  unfold read_node, Node_IdBytes, Node_AddressBytes.
  rewrite (byte_vector_read 4 _ _ _ 0 _ _ eq_refl Ho eq_refl Hk). cbn [obind].
  rewrite (byte_vector_read 6 _ _ _ 1 _ _ eq_refl Ho eq_refl Hv). by destruct w.
Qed.

Definition event_room (id sender : bytes) : Z :=
  bytes_room (zlen id) + bytes_room (zlen sender) + table_room 6 + 64.

(** A type that the protocol names. *)
Definition named (t : EventType) : Prop := match t with OtherEvent _ => False | _ => True end.


(** The fields of the event table, with references [R]. *)
Definition event_fields {R} (eid snd : R) (t : EventType) (response : bool) (payload : option R)
    : list (option (fb_cell R)) :=
  [Some (CRef eid); Some (CRef snd); slot_value (CInt8 (type_number t)) (type_number t =? 0);
   slot_value (CBool response) (eqb response false); None;
   match payload with Some p => Some (CRef p) | None => None end].

Lemma event_fields_map (tr : Z → Z) eid snd t response payload :
  node_map tr (NTable (event_fields eid snd t response payload)) =
    NTable (event_fields (tr eid) (tr snd) t response (tr <$> payload)).
Proof.
  unfold event_fields, slot_value. cbn [node_map fmap list_fmap].
  by destruct (type_number t =? 0), response, payload.
Qed.

(** The table of an event names no type for its payload. *)
Definition untyped (data : bytes) : Prop :=
  ∃ e, GetRootAsEvent data 0 = Ret e ∧ Event_PayloadType e = Ret 0 ∧
    ∀ n, Event_MutatePayloadType e n = Ret (false, data).
Definition reads (data : bytes) (r : outcome (@Event tagged_Tables)) : Prop :=
  read_event data = r ∧ untyped data.

(** [read_event] on a payload found at a position, or none. *)
Definition event_with (data : bytes) (id sender : bytes) (t : EventType) (response : bool)
    (payload : option Z) : outcome (@Event tagged_Tables) :=
  let! p := match payload with
            | Some q => let! x := read_payload t (mkTable data q) in Ret (Some x)
            | None => Ret None
            end in
  Ret (mkEvent tagged_Tables id sender t response p).

Lemma root_found buf pos :
  fb_GetUOffsetT buf = Ret pos → 0 ≤ pos < 2 ^ 31 → GetRootAs buf 0 = Ret (Init buf pos).
Proof.
  intros E Hp. unfold GetRootAs. change buf with ([] ++ buf) at 1 2.
  rewrite go_slice_tail by done. cbn [obind]. rewrite E. cbn [obind]. by rewrite Z.add_0_r, u32_small by lia.
Qed.

Lemma header_untyped data pos eid snd t response payload :
  fb_GetUOffsetT data = Ret pos → fb_at data pos (NTable (event_fields eid snd t response payload)) →
  untyped data.
Proof.
  intros Hr He. pose proof (fb_at_pos _ _ _ He). exists (Init data pos). split; [by apply root_found|]. split.
  - by apply (field_absent 12 _ _ _ 4 _ _ eq_refl He).
  - intros n. by apply (tab_MutateSlot_absent _ _ _ 4 He).
Qed.

Lemma header_read data pos eid snd id sender t response payload :
  fb_GetUOffsetT data = Ret pos → named t →
  fb_at data pos (NTable (event_fields eid snd t response payload)) →
  fb_at data eid (NBytes id) → fb_at data snd (NBytes sender) →
  from_option (λ q, ∃ x, fb_at data q x) True payload →
  read_event data = event_with data id sender t response payload.
Proof.
  intros Hr Ht He Hid Hsnd Hp. pose proof (fb_at_pos _ _ _ He).
  assert (Htn : number_type (type_number t) = t) by (by destruct t).
  unfold read_event, GetRootAsEvent, Event_IdBytes, Event_SenderBytes.
  rewrite (root_found data pos Hr) by done. cbn [obind]. unfold Init.
  rewrite (byte_vector_read 4 _ _ _ 0 _ _ eq_refl He eq_refl Hid). cbn [obind].
  rewrite (byte_vector_read 6 _ _ _ 1 _ _ eq_refl He eq_refl Hsnd). cbn [obind].
  assert (Ee : Event_Event (mkTable data pos) = Ret (type_number t)).
  { unfold Event_Event. cbn [Bytes Pos]. destruct (Z.eqb_spec (type_number t) 0) as [E0|E0].
    - rewrite E0. eapply (field_absent 8 _ _ _ 2 _ _ eq_refl He). cbn. by rewrite E0.
    - destruct (field_present 8 _ _ _ 2 (CInt8 (type_number t)) eq_refl He) as (o & Hc & Hu & ->).
      + cbn. unfold slot_value. by rewrite (proj2 (Z.eqb_neq _ _) E0).
      + rewrite Hu. by apply tab_GetInt8_ok. }
  assert (Er : Event_Response (mkTable data pos) = Ret response).
  { unfold Event_Response. cbn [Bytes Pos]. destruct response.
    - destruct (field_present 10 _ _ _ 3 (CBool true) eq_refl He eq_refl) as (o & Hc & Hu & ->).
      rewrite Hu. by apply tab_GetBool_ok.
    - by eapply (field_absent 10 _ _ _ 3 _ _ eq_refl He). }
  rewrite Ee. cbn [obind]. rewrite Er. cbn [obind]. unfold Event_Payload. cbn [Bytes Pos].
  rewrite Htn. destruct payload as [q|]; simpl in Hp.
  - destruct (field_present 14 _ _ _ 5 (CRef q) eq_refl He eq_refl) as (o & Hc & Hu & ->).
    destruct Hp as [x Hx]. by rewrite (tab_Union_ok _ _ _ _ _ Hc Hx).
  - by rewrite (field_absent 14 _ _ _ 5 _ _ eq_refl He eq_refl).
Qed.

Lemma end_event_ok u b eid snd id sender t response payload :
  fb_object u (event_fields eid snd t response payload) b → named t → u + 64 ≤ fb_limit →
  fb_holds b eid (NBytes id) → fb_holds b snd (NBytes sender) →
  from_option (λ o, ∃ x, fb_holds b o x) True payload →
  ∃ data b' tr,
    (let! '(e, buf) := fb_EndObject b in
     let! buf := fb_Finish e buf in
     let! data := fb_FinishedBytes buf in
     Ret (data, buf)) = Ret (data, b') ∧ transferred b data tr ∧
    reads data (event_with data id sender t response (tr <$> payload)).
Proof.
  intros Ho Ht Hu Hid Hsnd Hp.
  destruct (fb_EndObject_ok _ _ _ Ho) as (e & b1 & -> & Hi & He & Hm). cbn [obind].
  destruct (fb_Finish_ok u b1 e _ Hi He Hu) as (b2 & data & tr & -> & E & Hr & Htr). cbn [obind].
  rewrite E. cbn [obind]. exists data, b2, tr. split; [done|].
  assert (Ht' : transferred b data tr) by (intros o x Hx; by apply Htr, Hm). split; [done|].
  apply Htr in He. rewrite event_fields_map in He. apply Ht' in Hid, Hsnd. cbn [node_map] in *.
  split; [|by eapply header_untyped].
  apply (header_read data (tr e) (tr eid) (tr snd)); try done.
  destruct payload as [o|]; [|done]. destruct Hp as [x Hx]. eexists. by apply Ht'.
Qed.

Lemma finish_event_ok u b id sender t response payload :
  fb_idle u b → wf_bytes id → wf_bytes sender → named t →
  from_option (λ o, ∃ x, fb_holds b o x) True payload → u + event_room id sender ≤ fb_limit →
  ∃ data b' tr, finish_event id sender t response payload b = Ret (data, b') ∧
    transferred b data tr ∧ reads data (event_with data id sender t response (tr <$> payload)).
Proof.
  intros Hi Hid Hsnd Ht Hp Hu. unfold finish_event, event_room in *. unfold_generated.
  assert (Hall : mono b b) by (intros o x; done). unfold mono in *.
  pose proof (zlen_nonneg id). pose proof (zlen_nonneg sender).
  assert (Hn : - 2 ^ 7 ≤ type_number t < 2 ^ 7) by (destruct t; simpl in *; done || lia).
  destruct payload as [p|]; [destruct Hp as [x Hx]; do 8 fb_step|do 7 fb_step];
    match goal with
    | Ho : fb_object ?v ?fs ?b7 |- _ =>
        destruct (end_event_ok v b7 o o0 id sender t response ltac:(first [exact (Some p)|exact None]) Ho Ht)
          as (data & b' & tr & E & Htr & Hr); [rooms|done|done|simpl; eauto|]
    end;
    exists data, b', tr; (split; [exact E|]); (split; [|exact Hr]); intros o' x' Hx'; by apply Htr, Hall.
Qed.

Lemma held_value_mono b b' o w : mono b b' → held_value b o w → held_value b' o w.
Proof. intros Hm (k & v & ? & ? & ?). exists k, v. auto. Qed.
Lemma held_node_mono b b' o w : mono b b' → held_node b o w → held_node b' o w.
Proof. intros Hm (k & v & ? & ? & ?). exists k, v. auto. Qed.

Lemma mono_trans b1 b2 b3 : mono b1 b2 → mono b2 b3 → mono b1 b3.
Proof. unfold mono. auto. Qed.

(** The vectors of values and of nodes: built, held, and held later on. *)
Lemma values_built (table : Value → builder → outcome (Z * builder)) (wire : Value → WireValue) u b vs :
  (∀ u b v, fb_idle u b → wf_value v → u + value_room v ≤ fb_limit →
    ∃ o b', table v b = Ret (o, b') ∧ fb_idle (u + value_room v) b' ∧ mono b b' ∧ held_value b' o (wire v)) →
  fb_idle u b → Forall wf_value vs → u + total value_room vs + vector_room (zlen vs) ≤ fb_limit →
  ∃ os b1 o b2, each table vs b = Ret (os, b1) ∧
    offsets_vector (λ n b, fb_StartVector 4 n 4 b) os b1 = Ret (o, b2) ∧
    fb_idle (u + total value_room vs + vector_room (zlen vs)) b2 ∧ fb_holds b2 o (NTables os) ∧
    Forall2 (held_value b2) os (wire <$> vs).
Proof.
  intros Ht Hi Hvs Hu. assert (Hr : ∀ v, 0 ≤ value_room v).
  { intros v. pose proof (zlen_nonneg (v_Key v)). pose proof (zlen_nonneg (v_Value v)). rooms. }
  pose proof (zlen_nonneg vs).
  destruct (each_ok table value_room wf_value (λ b o v, held_value b o (wire v)) Ht) with (l := vs) (u := u) (b := b)
    as (os & b1 & E1 & Hi1 & _ & Hos); [intros; by eapply held_value_mono|done|done|done|rooms|].
  assert (Hlen : zlen os = zlen vs) by (unfold zlen; f_equal; by eapply Forall2_length).
  destruct (offsets_vector_ok _ os b1 Hi1) as (o & b2 & E2 & Hi2 & Hm2 & Ho); [|rewrite Hlen; lia|].
  { clear -Hos. induction Hos as [|? ? ? ? (? & ? & ? & ? & ?)]; constructor; eauto. }
  exists os, b1, o, b2. rewrite <-Hlen. split_and!; [done..|].
  clear -Hos Hm2. induction Hos; constructor; [by eapply held_value_mono|done].
Qed.

Lemma nodes_built u b ns :
  fb_idle u b → Forall wf_node ns → u + total node_room ns + vector_room (zlen ns) ≤ fb_limit →
  ∃ os b1 o b2 ws, each node_table ns b = Ret (os, b1) ∧
    offsets_vector (λ n b, fb_StartVector 4 n 4 b) os b1 = Ret (o, b2) ∧
    fb_idle (u + total node_room ns + vector_room (zlen ns)) b2 ∧ fb_holds b2 o (NTables os) ∧
    omapM Events.wire_node ns = Ret ws ∧ Forall2 (held_node b2) os ws.
Proof.
  intros Hi Hns Hu. assert (Hr : ∀ n, 0 ≤ node_room n) by (intros n; pose proof (zlen_nonneg (n_id n)); rooms).
  pose proof (zlen_nonneg ns).
  destruct (each_ok node_table node_room wf_node (λ b o n, ∃ w, Events.wire_node n = Ret w ∧ held_node b o w))
    with (l := ns) (u := u) (b := b) as (os & b1 & E1 & Hi1 & _ & Hos); [| |done|done|done|rooms|].
  { intros u' b' n Hi' Hn Hu'. destruct (node_ok u' b' n Hi' Hn Hu') as (o & b'' & w & ? & ? & ? & ? & ?).
    eauto 10. }
  { intros b' b'' o n Hm (w & ? & ?). exists w. split; [done|by eapply held_node_mono]. }
  assert (Hlen : zlen os = zlen ns) by (unfold zlen; f_equal; by eapply Forall2_length).
  destruct (offsets_vector_ok _ os b1 Hi1) as (o & b2 & E2 & Hi2 & Hm2 & Ho); [|rewrite Hlen; lia|].
  { clear -Hos. induction Hos as [|? ? ? ? (? & _ & ? & ? & ? & ? & ?)]; constructor; eauto. }
  assert (∃ ws, omapM Events.wire_node ns = Ret ws ∧ Forall2 (held_node b2) os ws) as (ws & Ew & Hws).
  { clear -Hos Hm2. induction Hos as [|? ? ? ? (w & Ew & Hw) _ (ws & Ews & Hws)]; [by exists []|].
    exists (w :: ws). cbn [omapM]. rewrite Ew. cbn [obind]. rewrite Ews. split; [done|].
    constructor; [by eapply held_node_mono|done]. }
  exists os, b1, o, b2, ws. rewrite <-Hlen. by split_and!.
Qed.

Lemma values_read b data tr os ws :
  transferred b data tr → Forall2 (held_value b) os ws →
  Forall2 (λ r w, read_value (mkTable data r) = Ret w) (tr <$> os) ws.
Proof. intros Ht Hos. induction Hos; simpl; constructor; [by eapply value_transferred|done]. Qed.

Lemma nodes_read b data tr os ws :
  transferred b data tr → Forall2 (held_node b) os ws →
  Forall2 (λ r w, read_node (mkTable data r) = Ret w) (tr <$> os) ws.
Proof. intros Ht Hos. induction Hos; simpl; constructor; [by eapply node_transferred|done]. Qed.
End building.

(** ** The events of the program *)
Inductive emitted :=
  | EmPing
  | EmPong
  | EmStoreRequest (values : list Value)
  | EmStoreResponse
  | EmFindNodeRequest (key : bytes)
  | EmFindNodeResponse (nodes : list node)
  | EmFindValueRequest (key : bytes) (from : Z)
  | EmFindValueFound (values : list Value) (found : Z)
  | EmFindValueNotFound (nodes : list node).

Definition build `{FlatBuffers} (buf : builder) (id sender : bytes) (m : emitted)
    : outcome (bytes * builder) :=
  match m with
  | EmPing => eventPing buf id sender
  | EmPong => eventPong buf id sender
  | EmStoreRequest values => eventStoreRequest buf id sender values
  | EmStoreResponse => eventStoreResponse buf id sender
  | EmFindNodeRequest key => eventFindNodeRequest buf id sender key
  | EmFindNodeResponse nodes => eventFindNodeResponse buf id sender nodes
  | EmFindValueRequest key from => eventFindValueRequest buf id sender key from
  | EmFindValueFound values found => eventFindValueFoundResponse buf id sender values found
  | EmFindValueNotFound nodes => eventFindValueNotFoundResponse buf id sender nodes
  end.

(** The same events as the records of Event.v. *)
Definition described (id sender : bytes) (m : emitted) : outcome (@Event tagged_Tables) :=
  match m with
  | EmPing => Ret (@Events.eventPing tagged_Tables id sender)
  | EmPong => Ret (@Events.eventPong tagged_Tables id sender)
  | EmStoreRequest values => Ret (@Events.eventStoreRequest tagged_Tables id sender values)
  | EmStoreResponse => Ret (@Events.eventStoreResponse tagged_Tables id sender)
  | EmFindNodeRequest key => Ret (@Events.eventFindNodeRequest tagged_Tables id sender key)
  | EmFindNodeResponse nodes => @Events.eventFindNodeResponse tagged_Tables id sender nodes
  | EmFindValueRequest key from => Ret (@Events.eventFindValueRequest tagged_Tables id sender key from)
  | EmFindValueFound values found =>
      Ret (@Events.eventFindValueFoundResponse tagged_Tables id sender values found)
  | EmFindValueNotFound nodes => @Events.eventFindValueNotFoundResponse tagged_Tables id sender nodes
  end.

(** Byte strings are bytes and nodes have addresses. *)
Definition wf_emitted (m : emitted) : Prop :=
  match m with
  | EmStoreRequest values | EmFindValueFound values _ => Forall wf_value values
  | EmFindNodeRequest key | EmFindValueRequest key _ => wf_bytes key
  | EmFindNodeResponse nodes | EmFindValueNotFound nodes => Forall wf_node nodes
  | EmPing | EmPong | EmStoreResponse => True
  end.

(** Room that suffices for the payload. *)
Definition payload_room (m : emitted) : Z :=
  match m with
  | EmStoreRequest values | EmFindValueFound values _ =>
      total value_room values + vector_room (zlen values) + table_room 5
  | EmFindNodeRequest key | EmFindValueRequest key _ => bytes_room (zlen key) + table_room 5
  | EmFindNodeResponse nodes | EmFindValueNotFound nodes =>
      total node_room nodes + vector_room (zlen nodes) + table_room 5
  | EmPing | EmPong | EmStoreResponse => 0
  end.

Lemma slot_int64 (tr : Z → Z) z :
  mjoin (Some (fmap (M := option) (cell_map tr) (slot_value (CInt64 z) (z =? 0)))) =
    slot_value (CInt64 z) (z =? 0).
Proof. unfold slot_value. by destruct (z =? 0). Qed.

Lemma nodes_wire ns : Forall wf_node ns → ∃ ws, omapM Events.wire_node ns = Ret ws.
Proof.
  induction 1 as [|n ns [_ Ha] _ [ws IH]]; [by eexists|]. cbn [omapM]. unfold Events.wire_node at 1.
  destruct (n_address n) as [a|]; [|done]. destruct (encode_address_ok a Ha) as (l & -> & _).
  cbn [obind]. rewrite IH. by eexists.
Qed.

Section roundtrip.
Context `{FlatBuffers}.
Variables (buf : builder) (id sender : bytes).
Hypotheses (Hid : wf_bytes id) (Hsnd : wf_bytes sender).

(** The payload [p] of the built event is read as [x]. *)
Definition payload_reads (t : EventType) (b : builder) (p : Z) (x : tagged) : Prop :=
  (∃ n, fb_holds b p n) ∧
  ∀ data tr, transferred b data tr → read_payload t (mkTable data (tr p)) = Ret x.

Lemma finish_reads u b t response p x :
  fb_idle u b → named t → u + event_room id sender ≤ fb_limit → payload_reads t b p x →
  ∃ data b', finish_event id sender t response (Some p) b = Ret (data, b') ∧
    reads data (Ret (mkEvent tagged_Tables id sender t response (Some x))).
Proof.
  intros Hi Ht Hu [Hp Hx].
  destruct (finish_event_ok u b id sender t response (Some p) Hi Hid Hsnd Ht Hp Hu)
    as (data & b' & tr & E & Htr & Hr).
  exists data, b'. split; [done|]. destruct Hr as [Hr Hu']. split; [rewrite Hr|done]. unfold event_with.
  change (tr <$> Some p) with (Some (tr p)). cbn [obind]. by rewrite (Hx _ _ Htr).
Qed.

Lemma finish_reads_nothing t response :
  named t → event_room id sender ≤ fb_limit →
  ∃ data b', finish_event id sender t response None (fb_Reset buf) = Ret (data, b') ∧
    reads data (Ret (mkEvent tagged_Tables id sender t response None)).
Proof.
  intros Ht Hu.
  destruct (finish_event_ok 0 (fb_Reset buf) id sender t response None) as (data & b' & tr & E & _ & Hr);
    try done; [apply fb_Reset_idle|]. eauto.
Qed.

Ltac rooms :=
  unfold event_room, value_room, node_room, bytes_room, vector_room, table_room in *; lia.

Ltac start_payload :=
  pose proof (fb_Reset_idle buf) as Hi; pose proof (zlen_nonneg id); pose proof (zlen_nonneg sender);
  unfold event_room in *; cbv zeta.

Lemma store_request_reads values :
  Forall wf_value values → payload_room (EmStoreRequest values) + event_room id sender ≤ fb_limit →
  ∃ data b', eventStoreRequest buf id sender values = Ret (data, b') ∧
    reads data (described id sender (EmStoreRequest values)).
Proof.
  intros Hv Hu. unfold eventStoreRequest. start_payload. cbn [payload_room] in Hu.
  destruct (values_built store_value_table Events.wire_value 0 (fb_Reset buf) values store_value_ok Hi Hv)
    as (os & b1 & o & b2 & -> & E2 & Hi2 & Ho & Hos); [rooms|]. cbn [obind].
  unfold StoreStartValuesVector. rewrite E2. cbn [obind]. clear E2. unfold_generated.
  assert (Hk : mono b2 b2) by (intros ? ?; done). unfold mono in Hk.
  do 3 fb_step. eapply finish_reads; [done|done|rooms|].
  split; [eauto|]. intros data tr Htr. cbn [read_payload]. unfold read_Store, Store_ValuesLength, Store_Values.
  apply Htr in Ho as Ho', Hh as Hh'. cbn [node_map fmap list_fmap] in *.
  rewrite (vector_read 4 _ _ _ 0 _ _ read_value (Events.wire_value <$> values) eq_refl Hh' eq_refl Ho');
    [done|]. eapply values_read; [exact Htr|].
  eapply Forall2_impl; [exact Hos|]. intros. by eapply held_value_mono.
Qed.

Lemma find_node_request_reads key :
  wf_bytes key → payload_room (EmFindNodeRequest key) + event_room id sender ≤ fb_limit →
  ∃ data b', eventFindNodeRequest buf id sender key = Ret (data, b') ∧
    reads data (described id sender (EmFindNodeRequest key)).
Proof.
  intros Hk Hu. unfold eventFindNodeRequest. start_payload. cbn [payload_room] in Hu.
  pose proof (zlen_nonneg key). unfold_generated. do 4 fb_step.
  eapply finish_reads; [done|done|rooms|]. split; [eauto|]. intros data tr Htr.
  cbn [read_payload]. unfold read_FindNode, FindNode_KeyBytes, FindNode_NodesLength, FindNode_Nodes.
  apply Htr in Hh, Hh0. cbn [node_map fmap list_fmap] in *.
  rewrite (byte_vector_read 4 _ _ _ 0 _ _ eq_refl Hh0 eq_refl Hh). cbn [obind].
  by rewrite (vector_absent 6 _ _ _ 1 read_node eq_refl Hh0 eq_refl).
Qed.

Lemma find_node_response_reads nodes :
  Forall wf_node nodes → payload_room (EmFindNodeResponse nodes) + event_room id sender ≤ fb_limit →
  ∃ data b', eventFindNodeResponse buf id sender nodes = Ret (data, b') ∧
    reads data (described id sender (EmFindNodeResponse nodes)).
Proof.
  intros Hn Hu. unfold eventFindNodeResponse. start_payload. cbn [payload_room] in Hu.
  destruct (nodes_built 0 (fb_Reset buf) nodes Hi Hn)
    as (os & b1 & o & b2 & ws & -> & E2 & Hi2 & Ho & Ew & Hos); [rooms|]. cbn [obind].
  unfold FindNodeStartNodesVector. rewrite E2. cbn [obind]. clear E2. unfold_generated.
  assert (Hk : mono b2 b2) by (intros ? ?; done). unfold mono in Hk. do 3 fb_step.
  cbn [described]. unfold Events.eventFindNodeResponse. rewrite Ew. cbn [obind].
  eapply finish_reads; [done|done|rooms|]. split; [eauto|]. intros data tr Htr.
  cbn [read_payload]. unfold read_FindNode, FindNode_KeyBytes, FindNode_NodesLength, FindNode_Nodes.
  apply Htr in Ho as Ho', Hh as Hh'. cbn [node_map fmap list_fmap] in *.
  unfold byte_vector. rewrite (field_absent 4 _ _ _ 0 _ _ eq_refl Hh' eq_refl). cbn [obind].
  rewrite (vector_read 6 _ _ _ 1 _ _ read_node ws eq_refl Hh' eq_refl Ho'); [done|].
  eapply nodes_read; [exact Htr|]. eapply Forall2_impl; [exact Hos|].
  intros. by eapply held_node_mono.
Qed.

Lemma find_value_request_reads key from :
  wf_bytes key → payload_room (EmFindValueRequest key from) + event_room id sender ≤ fb_limit →
  ∃ data b', eventFindValueRequest buf id sender key from = Ret (data, b') ∧
    reads data (described id sender (EmFindValueRequest key from)).
Proof.
  intros Hk Hu. unfold eventFindValueRequest. start_payload. cbn [payload_room] in Hu.
  pose proof (zlen_nonneg key). unfold_generated. do 5 fb_step.
  eapply finish_reads; [done|done|rooms|]. split; [eauto|]. intros data tr Htr.
  cbn [read_payload]. unfold read_FindValue, FindValue_KeyBytes, FindValue_ValuesLength, FindValue_Values,
    FindValue_NodesLength, FindValue_Nodes, FindValue_From, FindValue_Found.
  apply Htr in Hh, Hh0. cbn [node_map fmap list_fmap] in *.
  rewrite (byte_vector_read 4 _ _ _ 0 _ _ eq_refl Hh0 eq_refl Hh). cbn [obind].
  rewrite (vector_absent 6 _ _ _ 1 read_value eq_refl Hh0 eq_refl). cbn [obind].
  rewrite (vector_absent 8 _ _ _ 2 read_node eq_refl Hh0 eq_refl). cbn [obind].
  rewrite (int64_read 10 _ _ _ 3 (UnixNano from) eq_refl Hh0) by apply slot_int64. cbn [obind].
  by rewrite (int64_read 12 _ _ _ 4 0 eq_refl Hh0 eq_refl).
Qed.

Lemma find_value_found_reads values found :
  Forall wf_value values → payload_room (EmFindValueFound values found) + event_room id sender ≤ fb_limit →
  ∃ data b', eventFindValueFoundResponse buf id sender values found = Ret (data, b') ∧
    reads data (described id sender (EmFindValueFound values found)).
Proof.
  intros Hv Hu. unfold eventFindValueFoundResponse. start_payload. cbn [payload_room] in Hu.
  destruct (values_built found_value_table Events.wire_found 0 (fb_Reset buf) values found_value_ok Hi Hv)
    as (os & b1 & o & b2 & -> & E2 & Hi2 & Ho & Hos); [rooms|]. cbn [obind].
  unfold FindValueStartValuesVector. rewrite E2. cbn [obind]. clear E2. unfold_generated.
  assert (Hk : mono b2 b2) by (intros ? ?; done). unfold mono in Hk. do 4 fb_step.
  eapply finish_reads; [done|done|rooms|]. split; [eauto|]. intros data tr Htr.
  cbn [read_payload]. unfold read_FindValue, FindValue_KeyBytes, FindValue_ValuesLength, FindValue_Values,
    FindValue_NodesLength, FindValue_Nodes, FindValue_From, FindValue_Found.
  apply Htr in Ho as Ho', Hh as Hh'. cbn [node_map fmap list_fmap] in *.
  unfold byte_vector. rewrite (field_absent 4 _ _ _ 0 _ _ eq_refl Hh' eq_refl). cbn [obind].
  rewrite (vector_read 6 _ _ _ 1 _ _ read_value (Events.wire_found <$> values) eq_refl Hh' eq_refl Ho').
  2:{ eapply values_read; [exact Htr|]. eapply Forall2_impl; [exact Hos|].
      intros. by eapply held_value_mono. }
  cbn [obind]. rewrite (vector_absent 8 _ _ _ 2 read_node eq_refl Hh' eq_refl). cbn [obind].
  rewrite (int64_read 10 _ _ _ 3 0 eq_refl Hh' eq_refl). cbn [obind].
  by rewrite (int64_read 12 _ _ _ 4 (i64 found) eq_refl Hh') by apply slot_int64.
Qed.

Lemma find_value_not_found_reads nodes :
  Forall wf_node nodes → payload_room (EmFindValueNotFound nodes) + event_room id sender ≤ fb_limit →
  ∃ data b', eventFindValueNotFoundResponse buf id sender nodes = Ret (data, b') ∧
    reads data (described id sender (EmFindValueNotFound nodes)).
Proof.
  intros Hn Hu. unfold eventFindValueNotFoundResponse. start_payload. cbn [payload_room] in Hu.
  destruct (nodes_built 0 (fb_Reset buf) nodes Hi Hn)
    as (os & b1 & o & b2 & ws & -> & E2 & Hi2 & Ho & Ew & Hos); [rooms|]. cbn [obind].
  unfold FindNodeStartNodesVector. rewrite E2. cbn [obind]. clear E2. unfold_generated.
  assert (Hk : mono b2 b2) by (intros ? ?; done). unfold mono in Hk. do 3 fb_step.
  cbn [described]. unfold Events.eventFindValueNotFoundResponse. rewrite Ew. cbn [obind].
  eapply finish_reads; [done|done|rooms|]. split; [eauto|]. intros data tr Htr.
  cbn [read_payload]. unfold read_FindValue, FindValue_KeyBytes, FindValue_ValuesLength, FindValue_Values,
    FindValue_NodesLength, FindValue_Nodes, FindValue_From, FindValue_Found.
  apply Htr in Ho as Ho', Hh as Hh'. cbn [node_map fmap list_fmap] in *.
  unfold byte_vector. rewrite (field_absent 4 _ _ _ 0 _ _ eq_refl Hh' eq_refl). cbn [obind].
  rewrite (vector_absent 6 _ _ _ 1 read_value eq_refl Hh' eq_refl). cbn [obind].
  rewrite (vector_read 8 _ _ _ 2 _ _ read_node ws eq_refl Hh' eq_refl Ho').
  2:{ eapply nodes_read; [exact Htr|]. eapply Forall2_impl; [exact Hos|].
      intros. by eapply held_node_mono. }
  cbn [obind]. rewrite (int64_read 10 _ _ _ 3 0 eq_refl Hh' eq_refl). cbn [obind].
  by rewrite (int64_read 12 _ _ _ 4 0 eq_refl Hh' eq_refl).
Qed.

Lemma built_reads m :
  wf_emitted m → payload_room m + event_room id sender ≤ fb_limit →
  ∃ data b', build buf id sender m = Ret (data, b') ∧ reads data (described id sender m).
Proof.
  intros Hm Hu. destruct m; cbn [build wf_emitted] in *.
  all: try (apply finish_reads_nothing; [done|cbn [payload_room] in Hu; lia]).
  - by apply store_request_reads.
  - by apply find_node_request_reads.
  - by apply find_node_response_reads.
  - by apply find_value_request_reads.
  - by apply find_value_found_reads.
  - by apply find_value_not_found_reads.
Qed.

(** C7: every event that [event.go] builds, read back through the generated
    accessors the way the handlers read it, has exactly the identifier, sender,
    type, response flag and payload that [described] gives for it: all values with
    their keys and times to live, all nodes with their addresses, in order.  The
    values of a store request come with the times of their creation too; those of
    a found response do not carry them and read 0.  It holds for any previous
    contents of the reused builder and up to the 2 GB that a FlatBuffer can
    hold. *)
Theorem event_wire_roundtrip m :
  wf_emitted m → payload_room m + event_room id sender ≤ fb_limit →
  ∃ data b' e, build buf id sender m = Ret (data, b') ∧ described id sender m = Ret e ∧
    read_event data = Ret e.
Proof.
  intros Hm Hu. destruct (built_reads m Hm Hu) as (data & b' & E & Hr & _).
  destruct (described id sender m) as [e| | |] eqn:Ed; [by exists data, b', e|exfalso..];
    destruct m; cbn [described wf_emitted] in *; try discriminate Ed;
    unfold Events.eventFindNodeResponse, Events.eventFindValueNotFoundResponse in Ed;
    destruct (nodes_wire nodes Hm) as [ws Ew]; by rewrite Ew in Ed.
Qed.

(** No event names the type of its payload: [event.go] never calls
    [EventAddPayloadType], so the union field reads as [NONE] for a reader that
    goes by it, and cannot be set in the finished bytes either. *)
Theorem payload_never_typed m :
  wf_emitted m → payload_room m + event_room id sender ≤ fb_limit →
  ∃ data b' e, build buf id sender m = Ret (data, b') ∧ GetRootAsEvent data 0 = Ret e ∧
    Event_PayloadType e = Ret 0 ∧ ∀ n, Event_MutatePayloadType e n = Ret (false, data).
Proof.
  intros Hm Hu. destruct (built_reads m Hm Hu) as (data & b' & E & _ & e & Hu'). by exists data, b', e.
Qed.
End roundtrip.

(** A builder left in the middle of something. *)
Definition used_builder : @builder Cells.demo_FlatBuffers := Cells.mkCells [NBytes [7; 7]] (Cells.InTable []) None.

Definition demo_message : emitted :=
  EmStoreRequest [mkValue [1; 2] [10] 60 (unix_epoch + 5) 0; mkValue [3] [] 0 unix_epoch 0].

Lemma event_wire_roundtrip_witness :
  ∃ data b', @build Cells.demo_FlatBuffers used_builder (id_of 4) (id_of 3) demo_message = Ret (data, b') ∧
    @read_event Cells.demo_FlatBuffers data =
      Ret (mkEvent tagged_Tables (id_of 4) (id_of 3) STORE false
        (Some (TStore (mkStore [mkWireValue [1; 2] [10] 60 5; mkWireValue [3] [] 0 0])))).
Proof.
  destruct (@event_wire_roundtrip Cells.demo_FlatBuffers used_builder (id_of 4) (id_of 3)
    ltac:(decided) ltac:(decided) demo_message) as (data & b' & e & E & Ed & Er).
  - repeat constructor; decided.
  - apply Z.leb_le. vm_compute. reflexivity.
  - exists data, b'. split; [exact E|]. rewrite Er, <-Ed. vm_compute. reflexivity.
Defined.
End Wire.
