(* ===== verification/Accessors.v ===== *)
(** * The generated functions that change a finished buffer

    [protocol/protocol.go] also has what the node itself does not call: buffers
    that start with their size, byte vectors built element by element, and
    mutators that overwrite a field of a finished buffer in place.  This file
    shows what they do: a buffer finished with its size is read like one without
    it, a byte vector built from its elements is the one built at once, and a
    mutator changes exactly the field it is named after, unless the field was
    left out because it had its default value; then it answers [false] and
    changes nothing. *)
From stdpp Require Import base list numbers gmap.
From Stdlib Require Import Lia.
From S2P Require Import Prelude Keyspace Bucket Storage Event Protocol Cells Wire.
Local Open Scope Z_scope.

Module Accessors.
Import Protocol Wire.

Section accessors.
Context `{FlatBuffers}.

(** ** Roots *)
Lemma prefixed_root_found size buf pos :
  zlen size = 4 → fb_GetUOffsetT buf = Ret (pos - 4) → 4 ≤ pos < 2 ^ 31 →
  GetSizePrefixedRootAs (size ++ buf) 0 = Ret (Init (size ++ buf) pos).
Proof.
  intros Hs E Hp. unfold GetSizePrefixedRootAs, SizeUint32.
  rewrite go_slice_tail by (rewrite ?Hs; done). cbn [obind]. rewrite E. cbn [obind].
  rewrite (u32_small (pos - 4 + 0)), u32_small by lia. do 2 f_equal. lia.
Qed.

(** A value in a buffer, by the nodes that make it up. *)
Definition int64_slot (s : option (fb_cell Z)) (z : Z) : Prop :=
  s = Some (CInt64 z) ∨ s = None ∧ z = 0.
Definition value_in (m : gmap Z (fb_node Z)) (pos k v : Z) (w : WireValue) : Prop :=
  ∃ ttl created, m !! pos = Some (NTable [Some (CRef k); Some (CRef v); ttl; created]) ∧
    int64_slot ttl (wv_ttl w) ∧ int64_slot created (wv_created w) ∧
    m !! k = Some (NBytes (wv_key w)) ∧ m !! v = Some (NBytes (wv_value w)).

Lemma slot_value_int64 z : int64_slot (slot_value (CInt64 z) (z =? 0)) z.
Proof. unfold int64_slot, slot_value. destruct (Z.eqb_spec z 0); auto. Qed.

Lemma int64_slot_read v buf pos fs (i : nat) s z :
  v = 4 + 2 * Z.of_nat i → fb_at buf pos (NTable fs) → fs !! i = Some s → int64_slot s z →
  int64_field v (mkTable buf pos) = Ret z.
Proof.
  intros Hv Ha Hi [->|[-> ->]]; unfold int64_field; cbn [Bytes Pos].
  - destruct (field_present v buf pos fs i (CInt64 z) Hv Ha) as (o & Hc & Hu & ->); [by rewrite Hi|].
    rewrite Hu. by apply tab_GetInt64_ok.
  - apply (field_absent v buf pos fs i); [done|done|by rewrite Hi].
Qed.

Lemma value_in_read buf m pos k v w :
  fb_image buf m → value_in m pos k v w → read_value (Init buf pos) = Ret w.
Proof.
  intros Hm (ttl & created & Hp & Ht & Hc & Hk & Hv). pose proof (fb_image_at _ _ _ _ Hm Hp) as Ha.
  unfold read_value, Value_KeyBytes, Value_ValueBytes, Value_Ttl, Value_Created, Init.
  rewrite (byte_vector_read 4 _ _ _ 0 k (wv_key w) eq_refl Ha eq_refl) by (by eapply fb_image_at). cbn [obind].
  rewrite (byte_vector_read 6 _ _ _ 1 v (wv_value w) eq_refl Ha eq_refl) by (by eapply fb_image_at). cbn [obind].
  rewrite (int64_slot_read 8 _ _ _ 2 ttl (wv_ttl w) eq_refl Ha eq_refl Ht). cbn [obind].
  rewrite (int64_slot_read 10 _ _ _ 3 created (wv_created w) eq_refl Ha eq_refl Hc). cbn [obind]. by destruct w.
Qed.

Lemma held_value_in b tr m o w :
  (∀ o' x, fb_holds b o' x → m !! tr o' = Some (node_map tr x)) → held_value b o w →
  ∃ k v, value_in m (tr o) k v w.
Proof.
  intros Htr (k & v & Hk & Hv & Ho). exists (tr k), (tr v). apply Htr in Hk, Hv, Ho.
  eexists _, _. split; [exact Ho|]. split_and!; [| |exact Hk|exact Hv];
    unfold slot_value; case_match; simpl; unfold int64_slot; auto.
  all: right; split; [done|]; by apply Z.eqb_eq.
Qed.

(** A value is read back from the buffer of its own, with or without its size
    in front. *)
Theorem value_buffer_roundtrip u b (x : Value) :
  fb_idle u b → wf_value x → u + value_room x + 64 ≤ fb_limit →
  (∃ o b1 b2 data p, store_value_table x b = Ret (o, b1) ∧ FinishValueBuffer o b1 = Ret b2 ∧
    fb_FinishedBytes b2 = Ret data ∧ GetRootAsValue data 0 = Ret p ∧
    read_value p = Ret (Events.wire_value x)) ∧
  (∃ o b1 b2 data p, store_value_table x b = Ret (o, b1) ∧ FinishSizePrefixedValueBuffer o b1 = Ret b2 ∧
    fb_FinishedBytes b2 = Ret data ∧ GetSizePrefixedRootAsValue data 0 = Ret p ∧
    read_value p = Ret (Events.wire_value x)).
Proof.
  intros Hi Hx Hu. destruct (store_value_ok u b x Hi Hx) as (o & b1 & E & Hi1 & _ & Hh); [lia|].
  destruct Hh as (k & v & Hk & Hv & Ho). split.
  - destruct (fb_Finish_image _ b1 o _ Hi1 Ho Hu) as (b2 & buf & tr & m & E1 & E2 & E3 & Hm & Htr).
    destruct (held_value_in b1 tr m o (Events.wire_value x)) as (k' & v' & Hin); [done|by exists k, v|].
    destruct Hin as (t & c & Hp & Hin). pose proof (fb_at_pos _ _ _ (fb_image_at _ _ _ _ Hm Hp)).
    exists o, b1, b2, buf, (Init buf (tr o)). split_and!; [done..|by apply root_found|].
    apply (value_in_read buf m (tr o) k' v'); [done|]. by exists t, c.
  - destruct (fb_FinishSizePrefixed_image _ b1 o _ Hi1 Ho Hu)
      as (b2 & size & buf & tr & m & E1 & E2 & Hs & E3 & H4 & Hm & Htr).
    destruct (held_value_in b1 tr m o (Events.wire_value x)) as (k' & v' & Hin); [done|by exists k, v|].
    destruct Hin as (t & c & Hp & Hin). pose proof (fb_at_pos _ _ _ (fb_image_at _ _ _ _ Hm Hp)).
    exists o, b1, b2, (size ++ buf), (Init (size ++ buf) (tr o)).
    split_and!; [done..|by apply prefixed_root_found; [..|lia]|].
    apply (value_in_read _ m (tr o) k' v'); [done|]. by exists t, c.
Qed.

(** ** Byte vectors *)

(** [StartXxxVector(builder, len(l)); for i := len(l)-1; i >= 0; i-- { PrependByte(l[i]) }; EndVector] *)
Definition bytes_one_by_one (start : Z → builder → outcome (Z * builder)) (l : bytes) (b : builder)
    : outcome (Z * builder) :=
  let! '(_, b) := start (zlen l) b in
  let! b := ofold (λ b z, fb_PrependByte z b) b (reverse l) in
  fb_EndVector (zlen l) b.

Lemma prepend_bytes_ok u l : ∀ n k b,
  fb_bytes u (length l + n) k b → wf_bytes l →
  ∃ b', ofold (λ b z, fb_PrependByte z b) b l = Ret b' ∧ fb_bytes u n (reverse l ++ k) b' ∧ mono b b'.
Proof.
  induction l as [|z l IH]; intros n k b Hb Hl; simpl.
  { exists b. split_and!; [done|done|by intros o x]. }
  apply Forall_cons in Hl as [Hz Hl].
  destruct (fb_PrependByte_ok u (length l + n) k b z Hb Hz) as (b1 & -> & Hb1 & Hm1). cbn [obind].
  destruct (IH n (z :: k) b1 Hb1 Hl) as (b2 & -> & Hb2 & Hm2). exists b2. split; [done|].
  rewrite reverse_cons, <-app_assoc. split; [done|]. intros o x Hx. by apply Hm2, Hm1.
Qed.

Lemma bytes_one_by_one_ok u l b :
  fb_idle u b → wf_bytes l → u + bytes_room (zlen l) ≤ fb_limit →
  ∃ o b', bytes_one_by_one NodeStartIdVector l b = Ret (o, b') ∧ fb_idle (u + bytes_room (zlen l)) b' ∧
    fb_holds b' o (NBytes l) ∧ mono b b'.
Proof.
  intros Hi Hl Hu. unfold bytes_one_by_one, NodeStartIdVector.
  destruct (fb_StartVector_bytes u b (length l) Hi Hu) as (o & b1 & E & Hb1 & Hm1). fold (zlen l) in E.
  rewrite E. cbn [obind].
  destruct (prepend_bytes_ok (u + bytes_room (zlen l)) (reverse l) 0 [] b1) as (b2 & -> & Hb2 & Hm2);
    [by rewrite length_reverse, Nat.add_0_r|by apply Forall_reverse|].
  rewrite reverse_involutive, app_nil_r in Hb2. cbn [obind].
  destruct (fb_EndVector_bytes _ _ _ Hb2) as (o' & b3 & E3 & Hi3 & Hh & Hm3).
  exists o', b3. split_and!; [done..|]. intros q x Hx. by apply Hm3, Hm2, Hm1.
Qed.

(** ** Mutators *)
Lemma vector_byte_ok v buf m pos fs (i : nat) q l (j : nat) n :
  v = 4 + 2 * Z.of_nat i → fb_image buf m → m !! pos = Some (NTable fs) → fs !! i = Some (Some (CRef q)) →
  m !! q = Some (NBytes l) → (j < length l)%nat → is_byte n →
  ∃ buf', mutate_byte v (Init buf pos) (Z.of_nat j) n = Ret (true, buf') ∧
    fb_image buf' (<[q := NBytes (<[j := n]> l)]> m).
Proof.
  intros Hv Hm Hp Hi Hq Hj Hn. pose proof (fb_image_at _ _ _ _ Hm Hp) as Ha.
  destruct (field_present v buf pos fs i (CRef q) Hv Ha) as (o & Hc & Hu & E); [by rewrite Hi|].
  destruct (tab_MutateByte_ok buf m pos o q l j n Hm Hc Hq Hj Hn) as (a & buf' & Ea & H0 & Hlim & Em & Hm').
  exists buf'. split; [|done]. unfold mutate_byte. cbn [Init Bytes Pos]. rewrite E, Ea. cbn [obind].
  unfold zlen in Hlim. rewrite Z.mul_1_r, (u32_small (Z.of_nat j)), u32_small by lia. done.
Qed.

(** What a mutator of a value does: it answers [true], the value then reads as
    [w'], and every other node of the buffer is where and what it was. *)
Definition edits (r : outcome (bool * bytes)) (m : gmap Z (fb_node Z)) (pos k v at_ : Z) (w' : WireValue) : Prop :=
  ∃ buf' m', r = Ret (true, buf') ∧ fb_image buf' m' ∧ value_in m' pos k v w' ∧
    read_value (Init buf' pos) = Ret w' ∧ ∀ q, q ≠ at_ → m' !! q = m !! q.

(** What [MutateTtl] and [MutateCreated] do with a field that has, or has not,
    a place in the buffer. *)
Definition edits_scalar (mutate : table → Z → outcome (bool * bytes)) (buf : bytes) (m : gmap Z (fb_node Z))
    (pos k v : Z) (i : nat) (w' : Z → WireValue) : Prop :=
  ∀ n, - 2 ^ 63 ≤ n < 2 ^ 63 →
    match m !! pos with
    | Some (NTable fs) =>
        match mjoin (fs !! i) with
        | Some _ => edits (mutate (Init buf pos) n) m pos k v pos (w' n)
        | None => mutate (Init buf pos) n = Ret (false, buf)
        end
    | _ => False
    end.

Lemma edits_intro r m pos k v q x w' buf' :
  r = Ret (true, buf') → fb_image buf' (<[q := x]> m) → value_in (<[q := x]> m) pos k v w' →
  edits r m pos k v q w'.
Proof.
  intros E Hm Hin. exists buf', (<[q := x]> m). split_and!; [done..|by eapply value_in_read|].
  intros q' Hq. by rewrite lookup_insert_ne.
Qed.

Lemma edits_int64 mutate vo buf m pos k v (i : nat) w w' :
  (∀ p n, mutate p n = tab_MutateInt64Slot (Bytes p) (Pos p) vo n) → vo = 4 + 2 * Z.of_nat i →
  (i = 2 ∨ i = 3)%nat → fb_image buf m → value_in m pos k v w →
  (∀ n fs ttl created, fs = [Some (CRef k); Some (CRef v); ttl; created] → m !! pos = Some (NTable fs) →
    value_in (<[pos := NTable (<[i := Some (CInt64 n)]> fs)]> m) pos k v (w' n)) →
  edits_scalar mutate buf m pos k v i w'.
Proof.
  intros Hmu -> Hi Hm (ttl & created & Hp & Ht & Hc & _) Hw n Hn. rewrite Hp.
  set (fs := [Some (CRef k); Some (CRef v); ttl; created]) in *.
  assert (Hs : ∃ s z, fs !! i = Some s ∧ int64_slot s z) by (destruct Hi as [->| ->]; eauto).
  destruct Hs as (s & z & Es & [->|[-> _]]); rewrite Es; simpl.
  - destruct (tab_MutateInt64Slot_ok buf m pos fs i z n Hm Hp Es Hn) as (buf' & E & Hm').
    eapply edits_intro; [rewrite Hmu; exact E|done|]. by eapply Hw.
  - rewrite Hmu. apply (tab_MutateSlot_absent buf pos fs i); [by eapply fb_image_at|by rewrite Es].
Qed.

(** C40: the mutators of a value overwrite one byte of the key or of the value,
    the time to live or the creation time of a finished buffer: the answer is
    [true], the other fields and all other tables read as before.  A time to
    live or a creation time that was zero when the value was built has no place
    in the buffer; its mutator answers [false] and changes nothing. *)
Theorem value_mutators buf m pos k v w :
  fb_image buf m → value_in m pos k v w → k ≠ v →
  (∀ (j : nat) n, (j < length (wv_key w))%nat → is_byte n →
    edits (Value_MutateKey (Init buf pos) (Z.of_nat j) n) m pos k v k
      (mkWireValue (<[j := n]> (wv_key w)) (wv_value w) (wv_ttl w) (wv_created w))) ∧
  (∀ (j : nat) n, (j < length (wv_value w))%nat → is_byte n →
    edits (Value_MutateValue (Init buf pos) (Z.of_nat j) n) m pos k v v
      (mkWireValue (wv_key w) (<[j := n]> (wv_value w)) (wv_ttl w) (wv_created w))) ∧
  edits_scalar Value_MutateTtl buf m pos k v 2
    (λ n, mkWireValue (wv_key w) (wv_value w) n (wv_created w)) ∧
  edits_scalar Value_MutateCreated buf m pos k v 3
    (λ n, mkWireValue (wv_key w) (wv_value w) (wv_ttl w) n).
Proof.
  intros Hm Hin Hkv. pose proof Hin as (ttl & created & Hp & Ht & Hc & Hk & Hv).
  assert (Hpk : k ≠ pos) by congruence. assert (Hpv : v ≠ pos) by congruence. split_and!.
  - intros j n Hj Hn. destruct (vector_byte_ok 4 buf m pos _ 0 k _ j n eq_refl Hm Hp eq_refl Hk Hj Hn) as (buf' & E & Hm').
    eapply edits_intro; [done..|]. exists ttl, created. by simplify_map_eq.
  - intros j n Hj Hn. destruct (vector_byte_ok 6 buf m pos _ 1 v _ j n eq_refl Hm Hp eq_refl Hv Hj Hn) as (buf' & E & Hm').
    eapply edits_intro; [done..|]. exists ttl, created. by simplify_map_eq.
  - eapply (edits_int64 _ 8); try done; [by left|]. intros n fs t c -> Hfs. rewrite Hp in Hfs.
    injection Hfs as <- <-. eexists _, _. simplify_map_eq. split_and!; [done|by left|done..].
  - eapply (edits_int64 _ 10); try done; [by right|]. intros n fs t c -> Hfs. rewrite Hp in Hfs.
    injection Hfs as <- <-. eexists _, _. simplify_map_eq. split_and!; [done|done|by left|done..].
Qed.
End accessors.

(** ** A value whose creation time is zero *)
Definition demo_nodes : list (fb_node Z) :=
  [NBytes [1; 2]; NBytes [10]; NTable [Some (CRef 1); Some (CRef 4); Some (CInt64 60); None]].
Definition demo_buffer : bytes := 6 :: Cells.layout demo_nodes.

Lemma value_mutators_witness :
  (∃ buf', @Value_MutateKey Cells.demo_FlatBuffers (Init demo_buffer 6) 1 9 = Ret (true, buf') ∧
    @read_value Cells.demo_FlatBuffers (Init buf' 6) = Ret (mkWireValue [1; 9] [10] 60 0)) ∧
  @Value_MutateCreated Cells.demo_FlatBuffers (Init demo_buffer 6) 7 = Ret (false, demo_buffer).
Proof.
  destruct (@value_mutators Cells.demo_FlatBuffers demo_buffer (Cells.placed 1 demo_nodes) 6 1 4
    (mkWireValue [1; 2] [10] 60 0)) as (Hk & _ & _ & Hc).
  - split; [reflexivity|]. by exists [6], demo_nodes.
  - exists (Some (CInt64 60)), None. split; [reflexivity|]. split; [by left|]. split; [by right|]. by split.
  - discriminate.
  - split; [|apply (Hc 7); lia]. destruct (Hk 1%nat 9) as (buf' & m' & E & _ & _ & Hr & _); [simpl; lia|decided|].
    exists buf'. split; [exact E|exact Hr].
Defined.
End Accessors.
