(* ===== verification/Cache.v ===== *)
(** * The request cache: pending requests and their callbacks

    Models [cache.go].  A request waits under the hash of its identifier until
    its callback returns true or the background sweep finds it expired.
    Callbacks are closures over the rest of the program: their descriptions
    [CB], the state [W] they work on (in which the cache itself lives, as a
    callback may register further requests) and the function [run] that
    executes one are arguments of the model.

    The theorem describes the life of a request by a small automaton and shows
    that the cache runs one such automaton per identifier, independently. *)
From stdpp Require Import base list numbers gmap.
From Stdlib Require Import Lia.
From S2P Require Import Prelude.
Local Open Scope Z_scope.

(** The errors that reach callbacks, by the names and texts of the source. *)
Inductive error :=
  | ErrRequestTimeout
  | ErrClosed
  | ErrSocket (n : Z)
  | ErrNoNodes
  | ErrKeyLength
  | ErrValueLength
  | ErrInvalidPayload
  | ErrValueNotFound.

#[export] Instance error_eq_dec : EqDecision error.
Proof. solve_decision. Defined.

Module Cache.

Record request (CB : Type) := mkRequest { callback_of : CB; ttl : Z }.
Arguments mkRequest {CB} _ _.
Arguments callback_of {CB} _.
Arguments ttl {CB} _.

Section model.
Context {CB W Ev : Type}.
Variable hash : bytes → Z.
(** The cache inside the state, and the execution of a callback. *)
Variable get : W → gmap Z (request CB).
Variable put : gmap Z (request CB) → W → W.
Variable run : CB → option Ev → option error → W → outcome (bool * W).

Definition set (key : bytes) (t : Z) (cb : CB) (w : W) : W :=
  put (<[hash key := mkRequest cb t]> (get w)) w.

Definition callback (key : bytes) (event : option Ev) (err : option error) (w : W) : outcome W :=
  let k := hash key in
  match get w !! k with
  | None => Ret w
  | Some r =>
      let! '(finished, w) := run (callback_of r) event err w in
      if finished : bool then Ret (put (delete k (get w)) w) else Ret w
  end.

(** One round of the loop of [cleanup], over the keys in the order of
    [Range]. *)
Definition cleanup_visit (now : Z) (w : W) (k : Z) : outcome W :=
  match get w !! k with
  | None => Ret w
  | Some r =>
      if After now (ttl r) then
        let! '(_, w) := run (callback_of r) None (Some ErrRequestTimeout) w in
        Ret (put (delete k (get w)) w)
      else Ret w
  end.

Definition cleanup (now : Z) (ks : list Z) (w : W) : outcome W := ofold (cleanup_visit now) w ks.
End model.

(** ** The life of a request *)
Section life.
Context {CB : Type}.
Variable hash : bytes → Z.
(** Whether a callback considers the request finished by a response. *)
Variable verdict : CB → bool.

(** What happens to the cache; a response carries the identifier of its
    request. *)
Inductive op :=
  | Register (key : bytes) (t : Z) (cb : CB)
  | Respond (key : bytes)
  | Sweep (now : Z) (ks : list Z).

(** The calls of callbacks: where, whose, and with a response or a timeout. *)
Record call := mkCall { c_key : Z; c_cb : CB; c_error : option error }.

(** Here the state around the cache is the log of the calls; a closure knows
    the key it was registered under. *)
Definition state : Type := gmap Z (request (Z * CB)) * list call.
Definition in_log (c : gmap Z (request (Z * CB))) (w : state) : state := (c, w.2).
Definition log_run (kcb : Z * CB) (_ : option unit) (err : option error) (w : state)
    : outcome (bool * state) :=
  Ret (verdict kcb.2, (w.1, w.2 ++ [mkCall kcb.1 kcb.2 err])).

Definition step (w : state) (o : op) : outcome state :=
  match o with
  | Register key t cb => Ret (set hash fst in_log key t (hash key, cb) w)
  | Respond key => callback hash fst in_log log_run key (Some tt) None w
  | Sweep now ks => cleanup fst in_log log_run now ks w
  end.

Definition run_ops (ops : list op) : outcome state := ofold step (∅, []) ops.

(** The automaton of one identifier: no request, or a pending one. *)
Definition react (k : Z) (s : option (request CB) * list call) (o : op)
    : option (request CB) * list call :=
  let '(r, out) := s in
  match o with
  | Register key t cb => if hash key =? k then (Some (mkRequest cb t), out) else s
  | Respond key =>
      match r with
      | Some r' =>
          if hash key =? k then
            (if verdict (callback_of r') then None else r, out ++ [mkCall k (callback_of r') None])
          else s
      | None => s
      end
  | Sweep now ks =>
      match r with
      | Some r' =>
          if bool_decide (k ∈ ks) && After now (ttl r')
          then (None, out ++ [mkCall k (callback_of r') (Some ErrRequestTimeout)])
          else s
      | None => s
      end
  end.

Definition life (k : Z) (ops : list op) : option (request CB) * list call :=
  foldl (react k) (None, []) ops.

Definition calls_of (k : Z) (l : list call) : list call := filter (λ c, c_key c = k) l.
End life.
Arguments op : clear implicits.
Arguments call : clear implicits.
Arguments state : clear implicits.

Section proofs.
Context {CB : Type} (hash : bytes → Z) (verdict : CB → bool).

Definition tag (k : Z) (r : request CB) : request (Z * CB) := mkRequest (k, callback_of r) (ttl r).

(** The cache runs the automaton of every identifier. *)
Definition runs (w : state CB) (lives : Z → option (request CB) * list (call CB)) : Prop :=
  ∀ k, w.1 !! k = tag k <$> (lives k).1 ∧ calls_of k w.2 = (lives k).2.

Lemma calls_of_snoc k (l : list (call CB)) c :
  calls_of k (l ++ [c]) = if decide (c_key c = k) then calls_of k l ++ [c] else calls_of k l.
Proof.
  unfold calls_of. rewrite filter_app, filter_cons, filter_nil.
  case_decide; [done|apply app_nil_r].
Qed.

(** One callback run on key [k], which it settles or not. *)
Lemma runs_call w lives k r err keep :
  runs w lives → (lives k).1 = Some r →
  runs (if keep : bool then w.1 else delete k w.1, w.2 ++ [mkCall k (callback_of r) err])
    (λ k', if decide (k' = k)
           then (if keep then Some r else None, (lives k).2 ++ [mkCall k (callback_of r) err])
           else lives k').
Proof.
  intros Hw Hr k'. destruct (Hw k') as [H1 H2]. simpl. rewrite calls_of_snoc. cbn [c_key].
  case_decide as Hk.
  - subst k'. rewrite decide_True, H2 by done. split; [|done]. destruct keep; simpl.
    + by rewrite H1, Hr.
    + apply lookup_delete_eq.
  - rewrite decide_False by done. split; [|done]. destruct keep; [done|]. by rewrite lookup_delete_ne.
Qed.

Lemma runs_ext w lives lives' : (∀ k, lives k = lives' k) → runs w lives → runs w lives'.
Proof. intros E Hw k. rewrite <-E. apply Hw. Qed.

Lemma react_sweep_other k k' now ks (s : option (request CB) * list (call CB)) :
  k' ≠ k → react hash verdict k' s (Sweep now ks) = react hash verdict k' s (Sweep now (k :: ks)).
Proof.
  intros Hne. unfold react. destruct s as [[r|] out]; [|done].
  by rewrite (bool_decide_ext (k' ∈ ks) (k' ∈ k :: ks)) by set_solver.
Qed.

Lemma cleanup_runs now ks w lives :
  runs w lives →
  ∃ w', cleanup fst in_log (log_run verdict) now ks w = Ret w' ∧
    runs w' (λ k, react hash verdict k (lives k) (Sweep now ks)).
Proof.
  unfold cleanup. revert w lives. induction ks as [|k ks IH]; intros w lives Hw; cbn [ofold].
  { exists w. split; [done|]. eapply runs_ext; [|exact Hw].
    intros k. cbn. destruct (lives k) as [[r|] out]; done. }
  destruct (Hw k) as [Hk _]. unfold cleanup_visit at 1. rewrite Hk.
  destruct (lives k) as [[r|] out] eqn:El; cbn [fst fmap option_fmap option_map obind].
  - cbn [tag ttl callback_of]. destruct (After now (ttl r)) eqn:Ea.
    + cbn [log_run obind]. destruct w as [c l]. unfold in_log. cbn [fst snd].
      pose proof (runs_call (c, l) lives k r (Some ErrRequestTimeout) false Hw) as Hw'.
      rewrite El in Hw'. specialize (Hw' eq_refl). cbn [fst snd] in Hw'.
      destruct (IH _ _ Hw') as (w' & E' & Hr). exists w'. split; [exact E'|].
      eapply runs_ext; [|exact Hr]. intros k'. cbv beta.
      case_decide as Hkk; [|by apply react_sweep_other].
      subst k'. unfold react. by rewrite El, Ea, bool_decide_eq_true_2 by set_solver.
    + destruct (IH w lives Hw) as (w' & E' & Hr). exists w'. split; [exact E'|].
      eapply runs_ext; [|exact Hr]. intros k'.
      destruct (decide (k' = k)) as [->|Hkk]; [|by apply react_sweep_other].
      unfold react. by rewrite El, Ea, !andb_false_r.
  - destruct (IH w lives Hw) as (w' & E' & Hr). exists w'. split; [exact E'|].
    eapply runs_ext; [|exact Hr]. intros k'.
    destruct (decide (k' = k)) as [->|Hkk]; [|by apply react_sweep_other].
    unfold react. by rewrite El.
Qed.

Lemma step_runs w lives o :
  runs w lives →
  ∃ w', step hash verdict w o = Ret w' ∧ runs w' (λ k, react hash verdict k (lives k) o).
Proof.
  intros Hw. destruct o as [key t cb|key|now ks]; cbn [step]; [| |by apply cleanup_runs].
  - eexists. split; [done|]. intros k. destruct (Hw k) as [H1 H2].
    unfold set, in_log, react. cbn [fst snd]. destruct (lives k) as [r out].
    destruct (Z.eqb_spec (hash key) k) as [<-|Hne]; cbn [fst snd] in *.
    + by rewrite lookup_insert_eq.
    + by rewrite lookup_insert_ne.
  - unfold callback. destruct (Hw (hash key)) as [Hk _]. rewrite Hk.
    destruct (lives (hash key)) as [[r|] out] eqn:El; cbn [fst fmap option_fmap option_map].
    + cbn [tag callback_of log_run obind fst snd].
      pose proof (runs_call w lives (hash key) r None (negb (verdict (callback_of r))) Hw) as Hw'.
      rewrite El in Hw'. specialize (Hw' eq_refl).
      assert (E : ∀ k, (if decide (k = hash key)
          then (if negb (verdict (callback_of r)) then Some r else None,
                out ++ [mkCall (hash key) (callback_of r) None])
          else lives k) = react hash verdict k (lives k) (Respond key)).
      { intros k. unfold react. case_decide as Hkk.
        - subst k. rewrite El, Z.eqb_refl. by destruct (verdict _).
        - destruct (lives k) as [[r'|] out']; [|done].
          by rewrite (proj2 (Z.eqb_neq (hash key) k)) by done. }
      apply (runs_ext _ _ _ E) in Hw'. destruct w as [c l].
      destruct (verdict (callback_of r)); eexists; (split; [done|exact Hw']).
    + eexists. split; [done|]. eapply runs_ext; [|exact Hw]. intros k. unfold react.
      destruct (lives k) as [[r'|] out'] eqn:El'; [|done].
      destruct (Z.eqb_spec (hash key) k) as [<-|]; congruence.
Qed.
End proofs.

(** C24: whatever requests are registered, answered and swept in whatever
    order, every identifier goes through the same life, independently of the
    others: nothing is called while no request is pending; a response calls the
    callback of the pending request and settles it if the callback returns
    true; the first sweep after the deadline calls it with a timeout and settles
    it in any case.  In particular a request whose callback returned false on a
    good response is still called again with a timeout.  The callbacks here give a
    fixed verdict and do not register requests themselves; [callback] and [cleanup]
    are the same definitions that run the callbacks of Dht.v, which do. *)
Theorem cache_runs_lives {CB} (hash : bytes → Z) (verdict : CB → bool) ops :
  ∃ w, run_ops hash verdict ops = Ret w ∧
    ∀ k, calls_of k w.2 = (life hash verdict k ops).2 ∧
         w.1 !! k = tag k <$> (life hash verdict k ops).1.
Proof.
  unfold run_ops. enough (∃ w, ofold (step hash verdict) (∅, []) ops = Ret w ∧
    runs w (λ k, life hash verdict k ops)) as (w & E & Hw).
  { exists w. split; [done|]. intros k. destruct (Hw k). auto. }
  induction ops as [|o ops IH] using rev_ind.
  { exists (∅, []). split; [done|]. intros k. split; [apply lookup_empty|done]. }
  destruct IH as (w & E & Hw). rewrite ofold_app, E. cbn [obind ofold].
  destruct (step_runs hash verdict w _ o Hw) as (w' & -> & Hw'). exists w'. split; [done|].
  eapply runs_ext; [|exact Hw']. intros k. unfold life. by rewrite foldl_app.
Qed.

End Cache.
