(* ===== verification/Listener.v ===== *)
(** * The listener: the state of a node and the handling of datagrams

    Models [listener.go].  [world] is the state that the listeners share (the
    routing table, the request cache, the storage, the packet manager) and what
    each listener owns (its batch of outgoing messages); [w_app] is the state
    of the code above, which only callbacks touch.

    The argument [li] says which listener runs.  Third-party code and the run
    time are arguments: the FlatBuffers encoding ([encode], [decode]), the
    socket ([WriteBatch]: how many messages it accepts and its error, for the
    messages given and those accepted so far), the hash functions, the source of
    request identifiers, the clock ([now]) and the packets from the pool.  So is
    the error that the variable [err] of [process] holds when a message of a batch
    is reached ([stale]), which is left as it is by types without a handler. *)
From stdpp Require Import base list numbers gmap.
From Stdlib Require Import Lia.
From S2P Require Import Prelude Keyspace Bucket RoutingTable Packet Storage Event Cache.
Local Open Scope Z_scope.

Module Listener.

Record message := mkMessage { m_addr : option UDPAddr; m_buf : bytes }.

(** The write batch of a listener: the messages in the slots below
    [writeBatchSize], and the number of slots. *)
Record batch := mkBatch { queued : list message; slots : nat }.

(** The length of the buffer of a slot. *)
Definition slot_size : Z := 1500.

Record world (St CB App : Type) := mkWorld {
  w_localID : bytes;
  w_timeout : Z;
  w_routing : RoutingTable.routingTable;
  w_requests : gmap Z (Cache.request CB);
  w_storage : St;
  w_packets : gmap Z Packet.packet;
  w_batches : list batch;
  w_sent : list message;
  w_rids : nat;
  w_app : App;
}.
Arguments mkWorld {St CB App} _ _ _ _ _ _ _ _ _ _.
Arguments w_localID {St CB App} _.
Arguments w_timeout {St CB App} _.
Arguments w_routing {St CB App} _.
Arguments w_requests {St CB App} _.
Arguments w_storage {St CB App} _.
Arguments w_packets {St CB App} _.
Arguments w_batches {St CB App} _.
Arguments w_sent {St CB App} _.
Arguments w_rids {St CB App} _.
Arguments w_app {St CB App} _.

Section setters.
Context {St CB App : Type}.
Implicit Types w : world St CB App.
Definition set_routing (r : RoutingTable.routingTable) w : world St CB App := mkWorld (w_localID w) (w_timeout w) r (w_requests w) (w_storage w)
  (w_packets w) (w_batches w) (w_sent w) (w_rids w) (w_app w).
Definition set_requests (c : gmap Z (Cache.request CB)) w : world St CB App := mkWorld (w_localID w) (w_timeout w) (w_routing w) c (w_storage w)
  (w_packets w) (w_batches w) (w_sent w) (w_rids w) (w_app w).
Definition set_storage (s : St) w : world St CB App := mkWorld (w_localID w) (w_timeout w) (w_routing w) (w_requests w) s
  (w_packets w) (w_batches w) (w_sent w) (w_rids w) (w_app w).
Definition set_packets (p : gmap Z Packet.packet) w : world St CB App := mkWorld (w_localID w) (w_timeout w) (w_routing w) (w_requests w)
  (w_storage w) p (w_batches w) (w_sent w) (w_rids w) (w_app w).
Definition set_network (b : list batch) (s : list message) w : world St CB App := mkWorld (w_localID w) (w_timeout w) (w_routing w) (w_requests w)
  (w_storage w) (w_packets w) b s (w_rids w) (w_app w).
Definition set_rids (n : nat) w : world St CB App := mkWorld (w_localID w) (w_timeout w) (w_routing w) (w_requests w)
  (w_storage w) (w_packets w) (w_batches w) (w_sent w) n (w_app w).
Definition set_app (a : App) w : world St CB App := mkWorld (w_localID w) (w_timeout w) (w_routing w) (w_requests w)
  (w_storage w) (w_packets w) (w_batches w) (w_sent w) (w_rids w) a.
(** A bucket of the routing table, written through its pointer. *)
Definition set_bucket (i : nat) (b : Bucket.bucket) w : world St CB App :=
  set_routing (RoutingTable.put_bucket i b (w_routing w)) w.
End setters.

(** What the program takes from outside. *)
Class Env `{Tables} := {
  encode : Event → bytes;
  decode : bytes → outcome Event;
  WriteBatch : list message → list message → nat * option error;
  cache_hash : bytes → Z;
  packet_hash : bytes → Z;
  pseudorandomID : nat → bytes;
  pooled : nat → Packet.packet;
}.

Section model.
Context `{Env} `{GoSort} {St : Type} `{Storage St} {CB App : Type}.
Abbreviation W := (world St CB App).
Implicit Types w : W.

(** A result that is an error or nil, with the state. *)
Abbreviation M := (outcome (option error * W)).

(** [if err != nil { return err }] *)
Definition unless_error (r : option error * W) (k : W → M) : M :=
  match r with
  | (Some e, w) => Ret (Some e, w)
  | (None, w) => k w
  end.

Definition fresh_rid w : bytes * W := (pseudorandomID (w_rids w), set_rids (S (w_rids w)) w).

Definition flush (li : nat) w : M :=
  let! b := go_index (w_batches w) (Z.of_nat li) in
  if (length (queued b) <? 1)%nat then Ret (None, w)
  else
    let '(n, err) := WriteBatch (queued b) (w_sent w) in
    let sent := w_sent w ++ take n (queued b) in
    match err with
    | Some e => Ret (Some e, set_network (w_batches w) sent w)
    | None => Ret (None, set_network (<[li := mkBatch [] (slots b)]> (w_batches w)) sent w)
    end.

(** The loop of [write], after [p.next()]. *)
Fixpoint write_loop (fuel : nat) (li : nat) (to : option UDPAddr) (p : Packet.packet) w : M :=
  match fuel with
  | O => OutOfFuel
  | S fuel =>
      let! '(f, p) := Packet.next p in
      match f with
      | None => Ret (None, w)
      | Some f =>
          let! b := go_index (w_batches w) (Z.of_nat li) in
          if (slots b <=? length (queued b))%nat then Panic IndexOutOfRange
          else if slot_size <? zlen f then Panic SliceOutOfRange
          else
            let b := mkBatch (queued b ++ [mkMessage to f]) (slots b) in
            let w := set_network (<[li := b]> (w_batches w)) (w_sent w) w in
            if (slots b <=? length (queued b))%nat then
              let! r := flush li w in
              unless_error r (write_loop fuel li to p)
            else write_loop fuel li to p w
      end
  end.

Definition write (li : nat) (to : option UDPAddr) (id data : bytes) w : M :=
  let! p := Packet.fragment (pooled (w_rids w)) id data in
  write_loop (S (length data)) li to p w.

Definition request (li : nat) (now : Z) (to : option UDPAddr) (id : bytes) (req : Event) (cb : CB) w : M :=
  let w := Cache.set cache_hash w_requests set_requests id (Add now (w_timeout w)) cb w in
  write li to id (encode req) w.

(** ** Handlers of requests *)
Definition pong (li : nat) (e : Event) (addr : option UDPAddr) w : M :=
  write li addr (e_id e) (encode (Events.eventPong (e_id e) (w_localID w))) w.

Definition store_value (now : Z) w (v : WireValue) : outcome W :=
  let! '(_, s) := st_Set now (wv_key v) (wv_value v) (Unix0 (wv_created v)) (wv_ttl v) (w_storage w) in
  Ret (set_storage s w).

Definition store (li : nat) (now : Z) (e : Event) (addr : option UDPAddr) w : M :=
  match e_payload e with
  | None => Ret (Some ErrInvalidPayload, w)
  | Some p =>
      let! w := ofold (store_value now) w (s_values (as_Store p)) in
      write li addr (e_id e) (encode (Events.eventStoreResponse (e_id e) (w_localID w))) w
  end.

Definition findNode (li : nat) (e : Event) (addr : option UDPAddr) w : M :=
  match e_payload e with
  | None => Ret (Some ErrInvalidPayload, w)
  | Some p =>
      let! nodes := RoutingTable.closestN (fn_key (as_FindNode p)) (Z.of_nat K) (w_routing w) in
      let! resp := Events.eventFindNodeResponse (e_id e) (w_localID w) nodes in
      write li addr (e_id e) (encode resp) w
  end.

(** The size that the handlers count for a value. *)
Definition value_size (v : Value) : Z := zlen (v_Key v) + zlen (v_Value v) + 50.

(** The loop of [findValue] over the values found; [values] and [size] are the
    current event. *)
Fixpoint found_loop (li : nat) (e : Event) (addr : option UDPAddr) (total : Z)
    (values : list Value) (size : Z) (vs : list Value) w : M :=
  match vs with
  | [] =>
      if (0 <? length values)%nat then
        write li addr (e_id e)
          (encode (Events.eventFindValueFoundResponse (e_id e) (w_localID w) values total)) w
      else Ret (None, w)
  | v :: vs =>
      if Packet.MaxEventSize <=? size then
        let! r := write li addr (e_id e)
          (encode (Events.eventFindValueFoundResponse (e_id e) (w_localID w) values total)) w in
        unless_error r (found_loop li e addr total [v] (0 + value_size v) vs)
      else found_loop li e addr total (values ++ [v]) (size + value_size v) vs w
  end.

Definition findValue (li : nat) (e : Event) (addr : option UDPAddr) w : M :=
  match e_payload e with
  | None => Ret (Some ErrInvalidPayload, w)
  | Some p =>
      let f := as_FindValue p in
      let! '(vs, ok) := st_Get (fv_key f) (Unix0 (fv_from f)) (w_storage w) in
      if ok : bool then found_loop li e addr (zlen vs) [] 0 vs w
      else
        let! nodes := RoutingTable.closestN (fv_key f) (Z.of_nat K) (w_routing w) in
        let! resp := Events.eventFindValueNotFoundResponse (e_id e) (w_localID w) nodes in
        write li addr (e_id e) (encode resp) w
  end.

(** ** Handing keys to a new node *)
Section transfer.
(** The callback of the store requests, which only logs. *)
Variable transfer_cb : CB.

Definition send_store (li : nat) (now : Z) (to : option UDPAddr) (values : list Value) w : M :=
  let '(rid, w) := fresh_rid w in
  request li now to rid (Events.eventStoreRequest rid (w_localID w) values) transfer_cb w.

(** The callback of [Iterate]; its state is the current event and the
    world.  The storage is not touched by it. *)
Definition transfer_step (li : nat) (now : Z) (to : option UDPAddr) (id : bytes) (all : bool)
    (s : list Value * Z * W) (value : Value) : outcome ((list Value * Z * W) * bool) :=
  let '(values, size, w) := s in
  let! d1 := distance (w_localID w) (v_Key value) in
  let! d2 := distance id (v_Key value) in
  if all || (d1 <? d2) then
    if Packet.MaxEventSize <=? size then
      let! '(err, w) := send_store li now to values w in
      match err with
      | Some _ => Ret ((values, size, w), false)
      | None => Ret (([value], 0 + value_size value, w), true)
      end
    else Ret ((values ++ [value], size + value_size value, w), true)
  else Ret (s, true).

Definition transferKeys (li : nat) (now : Z) (to : option UDPAddr) (id : bytes) w : outcome W :=
  let! n := RoutingTable.neighbours (w_routing w) in
  let all := n <? Z.of_nat K in
  let! '((values, size, w), s) :=
    st_Iterate (transfer_step li now to id all) ([], 0, w) (w_storage w) in
  let w := set_storage s w in
  if (0 <? length values)%nat then
    let! '(_, w) := send_store li now to values w in Ret w
  else Ret w.

(** ** One message of [process] *)
Section process.
(** How the callbacks of requests run. *)
Variable run : CB → option Event → option error → W → outcome (bool * W).
(** The variable [err] of the loop as the messages before this one left it: a
    request of a type that has no case of its own does not assign it. *)
Variable stale : option error.

Definition handle (li : nat) (now : Z) (e : Event) (addr : option UDPAddr) w : M :=
  match e_event e with
  | PING => pong li e addr w
  | STORE => store li now e addr w
  | FIND_NODE => findNode li e addr w
  | FIND_VALUE => findValue li e addr w
  | PONG | OtherEvent _ => Ret (stale, w)
  end.

Definition process_one (li : nat) (now : Z) (addr : option UDPAddr) (datagram : bytes) w
    : outcome W :=
  let! '(p, ps) := Packet.assemble packet_hash (pooled (w_rids w)) now datagram (w_packets w) in
  let w := set_packets ps w in
  match p with
  | None => Ret w
  | Some p =>
      let! data := Packet.data p in
      let! e := decode data in
      let! '(known, r) := RoutingTable.seen now (e_sender e) (w_routing w) in
      let w := set_routing r w in
      let! w := (if known : bool then Ret w
                 else
                   let! r := RoutingTable.insert now (e_sender e) addr 0 false (w_routing w) in
                   Ret (set_routing r w)) in
      if e_response e then
        Cache.callback cache_hash w_requests set_requests run (e_id e) (Some e) None w
      else
        let! '(err, w) := handle li now e addr w in
        match err with
        | Some _ => Ret w
        | None => if known : bool then Ret w else transferKeys li now addr (e_sender e) w
        end
  end.
End process.
End transfer.
End model.

(** ** Lemmas *)
Section proofs.
Context `{Env} `{GoSort} {St : Type} `{Storage St} {CB App : Type}.
Abbreviation W := (world St CB App).
Implicit Types w : W.

(** Everything handed to a listener's socket so far, accepted or queued. *)
Definition outgoing (li : nat) w : list message :=
  w_sent w ++ from_option queued [] (w_batches w !! li).

(** The batch of listener [li] has a free slot. *)
Definition ready (li : nat) w : Prop :=
  ∃ b, w_batches w !! li = Some b ∧ (length (queued b) < slots b)%nat.

(** Two states that differ in the network only. *)
Definition same_node w w' : Prop := w' = set_network (w_batches w') (w_sent w') w.

Lemma same_node_refl w : same_node w w.
Proof. by destruct w. Qed.

Lemma same_node_network w b s : same_node w (set_network b s w).
Proof. done. Qed.

Lemma same_node_trans w1 w2 w3 : same_node w1 w2 → same_node w2 w3 → same_node w1 w3.
Proof. unfold same_node. intros H12 H23. rewrite H23, H12. done. Qed.

(** A socket that takes all it is given. *)
Definition socket_ok : Prop := ∀ q s, WriteBatch q s = (length q, None).
Definition pool_ok : Prop := ∀ n, zlen (Packet.buf (pooled n)) = Packet.buffer_size.

Lemma flush_ok li w b :
  socket_ok → w_batches w !! li = Some b →
  ∃ w', flush li w = Ret (None, w') ∧ same_node w w' ∧ outgoing li w' = outgoing li w ∧
    w_batches w' !! li = Some (mkBatch [] (slots b)).
Proof.
  intros Hs Hb. pose proof (lookup_lt_Some _ _ _ Hb). unfold flush.
  go_read Hb.
  destruct (Nat.ltb_spec (length (queued b)) 1) as [Hl|Hl].
  - destruct b as [[|m q] sl]; simpl in *; [|lia].
    exists w. split_and!; [done|apply same_node_refl|done|done].
  - rewrite Hs, take_ge by done. eexists. split; [done|]. split; [apply same_node_network|].
    unfold outgoing. cbn [set_network w_batches w_sent]. rewrite list_lookup_insert_eq by done.
    rewrite Hb. cbn [from_option queued]. by rewrite app_nil_r.
Qed.

(** The loop of [write] queues what the packet hands out. *)
Lemma write_loop_ok fuel li to p fs w :
  socket_ok → Packet.drain fuel p = Ret fs → Forall (λ f, zlen f ≤ slot_size) fs → ready li w →
  ∃ w', write_loop fuel li to p w = Ret (None, w') ∧ same_node w w' ∧ ready li w' ∧
    outgoing li w' = outgoing li w ++ (mkMessage to <$> fs).
Proof.
  intros Hs. revert p fs w. induction fuel as [|fuel IH]; intros p fs w Hd Hf Hr; [done|].
  cbn [Packet.drain] in Hd. cbn [write_loop].
  destruct (Packet.next p) as [[[f|] p']| | |]; cbn [obind] in *; try done.
  2:{ injection Hd as <-. exists w. split_and!; [done|apply same_node_refl|done|].
      by rewrite app_nil_r. }
  apply obind_Ret in Hd as (fs' & Hd & [= <-]). apply Forall_cons_1 in Hf as [Hf1 Hf].
  destruct Hr as (b & Hb & Hlt). go_read Hb.
  pose proof (lookup_lt_Some _ _ _ Hb) as Hlen.
  rewrite (proj2 (Nat.leb_gt _ _) Hlt), (proj2 (Z.ltb_ge _ _) Hf1).
  cbn [queued slots]. set (b1 := mkBatch _ _). set (w1 := set_network _ _ _).
  assert (Hb1 : w_batches w1 !! li = Some b1).
  { subst w1. cbn [set_network w_batches]. by rewrite list_lookup_insert_eq by lia. }
  assert (Ho : outgoing li w1 = outgoing li w ++ [mkMessage to f]).
  { unfold outgoing. rewrite Hb1, Hb. cbn. by rewrite app_assoc. }
  assert (Hgo : ∀ w2, same_node w1 w2 → outgoing li w2 = outgoing li w1 → ready li w2 →
    ∃ w', write_loop fuel li to p' w2 = Ret (None, w') ∧ same_node w w' ∧ ready li w' ∧
      outgoing li w' = outgoing li w ++ (mkMessage to <$> f :: fs')).
  { intros w2 Hw2 Ho2 Hr2. destruct (IH p' fs' w2 Hd Hf Hr2) as (w' & E & Hsame & Hr' & Ho').
    exists w'. split_and!; [done| |done|].
    - apply (same_node_trans w w2 w'); [|done]. apply (same_node_trans w w1 w2); [|done].
      apply same_node_network.
    - rewrite Ho', Ho2, Ho, <-app_assoc. done. }
  rewrite length_app. cbn [length]. destruct (Nat.leb_spec (slots b) (length (queued b) + 1)) as [Hle|Hle].
  - destruct (flush_ok li w1 b1 Hs Hb1) as (w2 & -> & Hsame & Ho2 & Hb2). cbn [obind unless_error].
    apply Hgo; [done..|]. eexists. split; [done|]. cbn. lia.
  - apply Hgo; [apply same_node_refl|done|]. exists b1. split; [done|]. cbn. rewrite length_app. simpl. lia.
Qed.

Lemma write_ok li to id data w :
  socket_ok → pool_ok → ready li w → length id = 32%nat → zlen data ≤ Packet.max_fragmentable →
  ∃ w', write li to id data w = Ret (None, w') ∧ same_node w w' ∧ ready li w' ∧
    outgoing li w' = outgoing li w ++ (mkMessage to <$> Packet.wires id data).
Proof.
  intros Hs Hp Hr Hid Hd. unfold write.
  destruct (Packet.fragment_drains (pooled (w_rids w)) id data Hid Hd (Hp _)) as (p & -> & _ & Hdr).
  cbn [obind]. apply write_loop_ok; [done| | |done].
  - apply Hdr. destruct data as [|z data]; [apply Nat.lt_0_succ|]. pose proof (Packet.fragments_pos (z :: data)).
    unfold zlen in *. simpl in *. lia.
  - eapply Forall_impl; [by apply Packet.wires_sizes|]. simpl. unfold slot_size, Packet.MaxPacketSize. lia.
Qed.

(** Writing touches the batch of one listener. *)
Definition others (li : nat) w w' : Prop :=
  length (w_batches w') = length (w_batches w) ∧ ∀ j, j ≠ li → w_batches w' !! j = w_batches w !! j.

Lemma others_trans li w1 w2 w3 : others li w1 w2 → others li w2 w3 → others li w1 w3.
Proof. intros [L1 O1] [L2 O2]. split; [congruence|]. intros j Hj. by rewrite O2, O1. Qed.

Lemma others_insert li b s w : others li w (set_network (<[li := b]> (w_batches w)) s w).
Proof. split; cbn; [apply length_insert|]. intros j Hj. by apply list_lookup_insert_ne. Qed.

Lemma flush_others li w r w' : flush li w = Ret (r, w') → others li w w'.
Proof.
  unfold flush. intros E. apply obind_Ret in E as (b & _ & E). destruct (_ <? _)%nat; [by injection E as _ <-|].
  destruct (WriteBatch _ _) as [n [e|]]; injection E as _ <-; [done|apply others_insert].
Qed.

Lemma write_loop_others fuel li to p w r w' : write_loop fuel li to p w = Ret (r, w') → others li w w'.
Proof.
  revert p w. induction fuel as [|fuel IH]; intros p w E; [done|]. cbn [write_loop] in E.
  apply obind_Ret in E as ([[f|] p'] & _ & E); [|by injection E as _ <-].
  apply obind_Ret in E as (b & _ & E). destruct (_ <=? _)%nat; [done|]. destruct (_ <? _); [done|].
  eapply others_trans; [apply others_insert|]. destruct (_ <=? _)%nat; [|by eapply IH].
  apply obind_Ret in E as ([[e|] w2] & Ef & E); apply flush_others in Ef; (eapply others_trans; [exact Ef|]);
    cbn [unless_error] in E; [by injection E as _ <-|by eapply IH].
Qed.

(** Writing touches nothing but the network, whatever the socket does. *)
Lemma flush_same li w r w' : flush li w = Ret (r, w') → same_node w w'.
Proof.
  unfold flush. intros E. apply obind_Ret in E as (b & _ & E). destruct (_ <? _)%nat; [injection E as _ <-; apply same_node_refl|].
  destruct (WriteBatch _ _) as [n [e|]]; injection E as _ <-; apply same_node_network.
Qed.

Lemma write_loop_same fuel li to p w r w' : write_loop fuel li to p w = Ret (r, w') → same_node w w'.
Proof.
  revert p w. induction fuel as [|fuel IH]; intros p w E; [done|]. cbn [write_loop] in E.
  apply obind_Ret in E as ([[f|] p'] & _ & E); [|injection E as _ <-; apply same_node_refl].
  apply obind_Ret in E as (b & _ & E). destruct (_ <=? _)%nat; [done|]. destruct (_ <? _); [done|].
  eapply same_node_trans; [apply same_node_network|]. destruct (_ <=? _)%nat; [|by eapply IH].
  apply obind_Ret in E as ([[e|] w2] & Ef & E); apply flush_same in Ef; (eapply same_node_trans; [exact Ef|]);
    cbn [unless_error] in E; [injection E as _ <-; apply same_node_refl|by eapply IH].
Qed.

Lemma write_same li to id data w r w' : write li to id data w = Ret (r, w') → same_node w w'.
Proof. unfold write. intros E. apply obind_Ret in E as (p & _ & E). by eapply write_loop_same. Qed.

(** A request touches the network and the request cache. *)
Lemma request_same li now to id req (c : CB) w r w' :
  request li now to id req c w = Ret (r, w') →
  w' = set_network (w_batches w') (w_sent w')
    (Cache.set cache_hash w_requests set_requests id (Add now (w_timeout w)) c w).
Proof. unfold request. intros E. by apply write_same in E. Qed.

Lemma write_others li to id data w r w' : write li to id data w = Ret (r, w') → others li w w'.
Proof. unfold write. intros E. apply obind_Ret in E as (p & _ & E). by eapply write_loop_others. Qed.

(** ** Batches

    What a listener makes of a sequence of datagrams, whatever its socket does:
    each one is queued, and a batch that is full goes to the socket.  If that
    returns an error the batch stays and nothing more is queued; otherwise the
    batch starts anew, without a look at how much of it was taken. *)
Fixpoint feed (n : nat) (ms q s : list message) : option error * list message * list message :=
  match ms with
  | [] => (None, q, s)
  | m :: ms =>
      let q := q ++ [m] in
      if (n <=? length q)%nat then
        let '(k, err) := WriteBatch q s in
        match err with
        | Some e => (Some e, q, s ++ take k q)
        | None => feed n ms [] (s ++ take k q)
        end
      else feed n ms q s
  end.

Definition networked (li : nat) (n : nat) (r : option error * list message * list message) w
    : outcome (option error * W) :=
  Ret (r.1.1, set_network (<[li := mkBatch r.1.2 n]> (w_batches w)) r.2 w).

Lemma feed_room n ms q s r q' s' :
  (length q < n)%nat → feed n ms q s = (r, q', s') →
  match r with None => (length q' < n)%nat | Some _ => length q' = n end.
Proof.
  revert q s. induction ms as [|m ms IH]; intros q s Hq E; cbn [feed] in E; [by injection E as <- <- _|].
  rewrite length_app in E. cbn [length] in E. destruct (Nat.leb_spec n (length q + 1)).
  - destruct (WriteBatch _ _) as [k [e|]]; [|by eapply IH; [|exact E]; cbn; lia].
    injection E as <- <- _. rewrite length_app. cbn. lia.
  - eapply IH; [|exact E]. rewrite length_app. cbn. lia.
Qed.

Lemma feed_app n ms1 ms2 q s :
  feed n (ms1 ++ ms2) q s =
  match feed n ms1 q s with
  | (None, q, s) => feed n ms2 q s
  | r => r
  end.
Proof.
  revert q s. induction ms1 as [|m ms1 IH]; intros q s; [done|]. cbn [feed Datatypes.app].
  destruct (_ <=? _)%nat; [|apply IH]. destruct (WriteBatch _ _) as [k [e|]]; [done|apply IH].
Qed.

Lemma write_loop_feed fuel li to p fs w b :
  Packet.drain fuel p = Ret fs → Forall (λ f, zlen f ≤ slot_size) fs →
  w_batches w !! li = Some b → (length (queued b) < slots b)%nat →
  write_loop fuel li to p w =
    networked li (slots b) (feed (slots b) (mkMessage to <$> fs) (queued b) (w_sent w)) w.
Proof.
  revert p fs w b. induction fuel as [|fuel IH]; intros p fs w b Hd Hf Hb Hlt; [done|].
  cbn [Packet.drain] in Hd. cbn [write_loop].
  destruct (Packet.next p) as [[[f|] p']| | |]; cbn [obind] in *; try done.
  2:{ injection Hd as <-. unfold networked. cbn. rewrite list_insert_id; [by destruct w|].
      rewrite Hb. by destruct b. }
  apply obind_Ret in Hd as (fs' & Hd & [= <-]). apply Forall_cons_1 in Hf as [Hf1 Hf].
  go_read Hb. pose proof (lookup_lt_Some _ _ _ Hb) as Hlen.
  rewrite (proj2 (Nat.leb_gt _ _) Hlt), (proj2 (Z.ltb_ge _ _) Hf1).
  cbn [queued slots fmap list_fmap feed]. set (b1 := mkBatch _ _). set (w1 := set_network _ _ _).
  assert (Hb1 : w_batches w1 !! li = Some b1).
  { subst w1. cbn [set_network w_batches]. by rewrite list_lookup_insert_eq by lia. }
  destruct (Nat.leb_spec (slots b) (length (queued b ++ [mkMessage to f]))) as [Hle|Hgt].
  - unfold flush. go_read Hb1. change (queued b1) with (queued b ++ [mkMessage to f]).
    rewrite (proj2 (Nat.ltb_ge _ _)) by (rewrite length_app; cbn; lia).
    change (w_sent w1) with (w_sent w). destruct (WriteBatch _ _) as [k [e|]]; cbn [obind unless_error].
    + reflexivity.
    + rewrite (IH p' fs' _ (mkBatch [] (slots b)) Hd Hf); [|cbn; by rewrite list_insert_insert_eq, list_lookup_insert_eq|cbn; lia].
      unfold networked. cbn. by rewrite !list_insert_insert_eq.
  - rewrite (IH p' fs' w1 b1 Hd Hf Hb1 Hgt). unfold networked, w1. cbn. by rewrite list_insert_insert_eq.
Qed.

Lemma write_feed li to id data w b :
  pool_ok → length id = 32%nat → zlen data ≤ Packet.max_fragmentable →
  w_batches w !! li = Some b → (length (queued b) < slots b)%nat →
  write li to id data w =
    networked li (slots b) (feed (slots b) (mkMessage to <$> Packet.wires id data) (queued b) (w_sent w)) w.
Proof.
  intros Hp Hid Hd Hb Hlt. unfold write.
  destruct (Packet.fragment_drains (pooled (w_rids w)) id data Hid Hd (Hp _)) as (p & -> & _ & Hdr).
  cbn [obind]. apply write_loop_feed; [| |done..].
  - apply Hdr. destruct data as [|z data]; [apply Nat.lt_0_succ|]. pose proof (Packet.fragments_pos (z :: data)).
    unfold zlen in *. simpl in *. lia.
  - eapply Forall_impl; [by apply Packet.wires_sizes|]. simpl. unfold slot_size, Packet.MaxPacketSize. lia.
Qed.

(** The batches given to the socket one after the other, up to the first that it
    refuses. *)
Fixpoint hand (qs : list (list message)) (s : list message) : option error * list message :=
  match qs with
  | [] => (None, s)
  | q :: qs =>
      let '(k, err) := WriteBatch q s in
      match err with
      | Some e => (Some e, s ++ take k q)
      | None => hand qs (s ++ take k q)
      end
  end.

(** Feeding cuts the datagrams into full batches. *)
Lemma feed_batches n ms q s r q' s' :
  (length q < n)%nat → feed n ms q s = (r, q', s') →
  ∃ qs rest, q ++ ms = concat qs ++ rest ∧ Forall (λ x, length x = n) qs ∧ hand qs s = (r, s') ∧
    match r with
    | None => q' = rest
    | Some _ => ∃ qs0 s0, qs = qs0 ++ [q'] ∧ hand qs0 s = (None, s0)
    end.
Proof.
  revert q s. induction ms as [|m ms IH]; intros q s Hq E; cbn [feed] in E.
  { injection E as <- <- <-. exists [], q. by rewrite app_nil_r. }
  change (m :: ms) with ([m] ++ ms). rewrite app_assoc.
  destruct (Nat.leb_spec n (length (q ++ [m]))) as [Hle|Hgt]; [|by apply IH].
  assert (Hn : length (q ++ [m]) = n) by (rewrite length_app in *; cbn in *; lia).
  destruct (WriteBatch (q ++ [m]) s) as [k [e|]] eqn:EW.
  - injection E as <- <- <-. exists [q ++ [m]], ms. cbn. rewrite app_nil_r, EW.
    split_and!; [done|by apply Forall_singleton|done|]. by exists [], s.
  - apply IH in E as (qs & rest & E1 & E2 & E3 & E4); [|cbn; lia]. exists ((q ++ [m]) :: qs), rest.
    cbn [concat hand]. rewrite EW, <-(app_assoc (q ++ [m])), <-E1. split_and!; [done|by constructor|done|].
    destruct r as [e|]; [|done]. destruct E4 as (qs0 & s0 & -> & E4). exists ((q ++ [m]) :: qs0), s0.
    split; [done|]. cbn [hand]. by rewrite EW.
Qed.

Lemma hand_ok qs s : socket_ok → hand qs s = (None, s ++ concat qs).
Proof.
  intros Hs. revert s. induction qs as [|q qs IH]; intros s; cbn; [by rewrite app_nil_r|].
  rewrite Hs, take_ge by done. by rewrite IH, app_assoc.
Qed.

(** ** Events of found values *)

(** The values of the events that [found_loop] sends. *)
Fixpoint groups (values : list Value) (size : Z) (vs : list Value) : list (list Value) :=
  match vs with
  | [] => if (0 <? length values)%nat then [values] else []
  | v :: vs =>
      if Packet.MaxEventSize <=? size then values :: groups [v] (0 + value_size v) vs
      else groups (values ++ [v]) (size + value_size v) vs
  end.

Definition total_size (vs : list Value) : Z := foldr (λ v a, value_size v + a) 0 vs.

Lemma total_size_app vs ws : total_size (vs ++ ws) = total_size vs + total_size ws.
Proof. induction vs; simpl; lia. Qed.

Lemma value_size_pos v : 0 < value_size v.
Proof. unfold value_size. pose proof (zlen_nonneg (v_Key v)). pose proof (zlen_nonneg (v_Value v)). lia. Qed.

Lemma groups_concat values size vs : concat (groups values size vs) = values ++ vs.
Proof.
  revert values size. induction vs as [|v vs IH]; intros values size; simpl.
  { destruct values; simpl; by rewrite ?app_nil_r. }
  destruct (_ <=? _); simpl; rewrite IH; [done|]. by rewrite <-app_assoc.
Qed.

(** An event that would still fit without its last value. *)
Definition well_filled (g : list Value) : Prop :=
  ∃ l v, g = l ++ [v] ∧ total_size l < Packet.MaxEventSize.

Lemma groups_filled values size vs :
  size = total_size values → (values = [] ∨ well_filled values) →
  Forall well_filled (groups values size vs).
Proof.
  revert values size. induction vs as [|v vs IH]; intros values size Hsz Hv; cbn [groups].
  { destruct values as [|v values]; simpl; [constructor|]. destruct Hv as [Hv|Hv]; [done|].
    by repeat constructor. }
  assert (Hone : well_filled [v]) by (exists [], v; split; [done|cbn; unfold Packet.MaxEventSize; lia]).
  destruct (Z.leb_spec Packet.MaxEventSize size).
  - constructor; [|apply IH; [simpl; lia|by right]].
    destruct Hv as [->|Hv]; [|done]. cbn in Hsz. unfold Packet.MaxEventSize in *. lia.
  - apply IH; [rewrite total_size_app; simpl; lia|]. right. exists values, v. split; [done|lia].
Qed.

(** A response with found values. *)
Definition found_event (e : Event) w (total : Z) (g : list Value) : bytes :=
  encode (Events.eventFindValueFoundResponse (e_id e) (w_localID w) g total).

Lemma found_loop_ok li e addr total vs values size w :
  socket_ok → pool_ok → ready li w → length (e_id e) = 32%nat →
  Forall (λ g, zlen (found_event e w total g) ≤ Packet.max_fragmentable) (groups values size vs) →
  ∃ w', found_loop li e addr total values size vs w = Ret (None, w') ∧ same_node w w' ∧ ready li w' ∧
    outgoing li w' = outgoing li w ++
      (groups values size vs ≫= λ g, mkMessage addr <$> Packet.wires (e_id e) (found_event e w total g)).
Proof.
  intros Hs Hp Hr Hid. revert values size w Hr.
  induction vs as [|v vs IH]; intros values size w Hr Hfit; cbn [groups found_loop] in *.
  { destruct (0 <? length values)%nat.
    - apply Forall_cons_1 in Hfit as [Hfit _].
      destruct (write_ok li addr (e_id e) (found_event e w total values) w Hs Hp Hr Hid Hfit)
        as (w' & E & Hw' & Hr' & Ho).
      exists w'. split_and!; [exact E|done|done|]. rewrite Ho, bind_cons. simpl. by rewrite app_nil_r.
    - exists w. split_and!; [done|apply same_node_refl|done|]. by rewrite app_nil_r. }
  destruct (Packet.MaxEventSize <=? size); [|by apply IH].
  apply Forall_cons_1 in Hfit as [Hfit Hfits].
  destruct (write_ok li addr (e_id e) (found_event e w total values) w Hs Hp Hr Hid Hfit)
    as (w1 & E & Hw1 & Hr1 & Ho1).
  unfold found_event in E at 1. rewrite E. cbn [obind unless_error].
  assert (Hloc : w_localID w1 = w_localID w) by (by rewrite Hw1).
  assert (Hev : ∀ g, found_event e w1 total g = found_event e w total g)
    by (intros g; unfold found_event; by rewrite Hloc).
  destruct (IH [v] (0 + value_size v) w1 Hr1) as (w2 & E2 & Hw2 & Hr2 & Ho2).
  { eapply Forall_impl; [exact Hfits|]. intros g Hg. by rewrite Hev. }
  exists w2. split_and!; [done|by apply (same_node_trans w w1 w2)|done|].
  rewrite Ho2, Ho1, bind_cons, <-app_assoc. do 2 f_equal.
  apply list_bind_ext; [|done]. intros g. by rewrite Hev.
Qed.
End proofs.

(** ** Properties *)
Section claims.
Context `{Env} `{GoSort} {St : Type} `{Storage St} {CB App : Type}.
Abbreviation W := (world St CB App).
Implicit Types w : W.

(** Several writes of one listener, stopping at an error. *)
Fixpoint write_all (li : nat) (l : list (option UDPAddr * bytes * bytes)) w
    : outcome (option error * W) :=
  match l with
  | [] => Ret (None, w)
  | (to, id, data) :: l => let! r := write li to id data w in unless_error r (write_all li l)
  end.

Lemma write_all_feed li l w b :
  pool_ok → w_batches w !! li = Some b → (length (queued b) < slots b)%nat →
  Forall (λ x : option UDPAddr * bytes * bytes,
    length x.1.2 = 32%nat ∧ zlen x.2 ≤ Packet.max_fragmentable) l →
  write_all li l w = networked li (slots b)
    (feed (slots b) (l ≫= λ x, mkMessage x.1.1 <$> Packet.wires x.1.2 x.2) (queued b) (w_sent w)) w.
Proof.
  intros Hp. revert w b. induction l as [|[[to id] data] l IH]; intros w b Hb Hlt Hl; cbn [write_all].
  { unfold networked. cbn. rewrite list_insert_id; [by destruct w|]. rewrite Hb. by destruct b. }
  apply Forall_cons_1 in Hl as [[Hid Hd] Hl]. rewrite (write_feed li to id data w b Hp Hid Hd Hb Hlt).
  rewrite bind_cons, feed_app. cbn [fst snd].
  destruct (feed (slots b) (mkMessage to <$> Packet.wires id data) _ _) as [[[e|] q] s] eqn:Ef; [done|].
  apply feed_room in Ef; [|done]. unfold networked at 1. cbn [obind unless_error fst snd].
  rewrite (IH _ (mkBatch q (slots b))); [|cbn; rewrite list_lookup_insert_eq; [done|by eapply lookup_lt_Some]|done|done].
  unfold networked. cbn. by rewrite list_insert_insert_eq.
Qed.

(** C21: datagrams go out in order, in full batches, whatever the socket does.
    Successive writes, up to the first that fails, cut what was queued and the
    datagrams of their events, one after the other, into batches of exactly as many
    messages as the listener has slots; these go to the socket, each in one call,
    and what is sent is what it takes of each.  If it never returns an error, the
    writes return none and the rest, which does not fill a batch, stays queued.
    The first error ends the writes, which return it, and the batch it was returned
    for stays queued, full.  The count that the socket returns has no influence: if
    it takes fewer messages than it is given, the others are lost; only if it always
    takes all, everything written is sent or queued.  Nothing else of the node
    changes. *)
Theorem writes_in_order li l w b :
  pool_ok → w_batches w !! li = Some b → (length (queued b) < slots b)%nat →
  Forall (λ x : option UDPAddr * bytes * bytes,
    length x.1.2 = 32%nat ∧ zlen x.2 ≤ Packet.max_fragmentable) l →
  let ms := l ≫= λ x, mkMessage x.1.1 <$> Packet.wires x.1.2 x.2 in
  ∃ qs rest r q w', write_all li l w = Ret (r, w') ∧
    w' = set_network (<[li := mkBatch q (slots b)]> (w_batches w)) (w_sent w') w ∧
    queued b ++ ms = concat qs ++ rest ∧ Forall (λ x, length x = slots b) qs ∧
    hand qs (w_sent w) = (r, w_sent w') ∧
    match r with
    | None => q = rest ∧ (length q < slots b)%nat
    | Some _ => ∃ qs0 s0, qs = qs0 ++ [q] ∧ hand qs0 (w_sent w) = (None, s0)
    end ∧
    (socket_ok → r = None ∧ outgoing li w' = outgoing li w ++ ms).
Proof.
  intros Hp Hb Hlt Hl ms. pose proof (write_all_feed li l w b Hp Hb Hlt Hl) as E. fold ms in E.
  destruct (feed (slots b) ms (queued b) (w_sent w)) as [[r q] s] eqn:Ef.
  destruct (feed_batches _ _ _ _ _ _ _ Hlt Ef) as (qs & rest & E1 & E2 & E3 & E4).
  pose proof (feed_room _ _ _ _ _ _ _ Hlt Ef) as Hq.
  exists qs, rest, r, q. eexists. split; [exact E|]. cbn [set_network w_sent].
  split_and!; [done|done|done|done|by destruct r|].
  intros Hs. rewrite (hand_ok qs (w_sent w) Hs) in E3. injection E3 as <- <-. split; [done|]. subst rest.
  unfold outgoing. cbn [w_sent w_batches set_network].
  rewrite list_lookup_insert_eq by (by eapply lookup_lt_Some). rewrite Hb. cbn. by rewrite <-!app_assoc, E1.
Qed.

(** C36: if the socket refuses a batch that is full, the batch stays full, so
    the next write of any event indexes past its end and panics. *)
Theorem refused_batch_panics li to id data w w1 b e :
  pool_ok → length id = 32%nat → 0 < zlen data ≤ Packet.max_fragmentable →
  w_batches w !! li = Some b → (slots b ≤ length (queued b))%nat →
  flush li w = Ret (Some e, w1) →
  w_batches w1 !! li = Some b ∧ write li to id data w1 = Panic IndexOutOfRange.
Proof.
  intros Hp Hid Hd Hb Hfull E.
  assert (Hb1 : w_batches w1 !! li = Some b).
  { unfold flush in E. rewrite (go_index_Some _ _ _ Hb) in E. cbn [obind] in E.
    destruct (_ <? _)%nat; [done|]. destruct (WriteBatch _ _) as [n [e'|]]; [|done].
    injection E as <- <-. done. }
  split; [done|]. unfold write.
  destruct (Packet.fragment_drains (pooled (w_rids w1)) id data Hid ltac:(lia) (Hp _)) as (p & -> & _ & Hdr).
  assert (Hpos : (0 < length data)%nat) by (unfold zlen in Hd; lia).
  pose proof (Packet.fragments_pos data Hpos) as Hf.
  specialize (Hdr (S (length data)) ltac:(unfold zlen in Hf; lia)).
  cbn [obind Packet.drain write_loop] in *.
  destruct (Packet.next p) as [[[f|] p']| | |]; cbn [obind] in *; try done.
  - go_read Hb1. by rewrite (proj2 (Nat.leb_le _ _) Hfull).
  - injection Hdr as Hdr. unfold Packet.wires in Hdr.
    destruct (Z.to_nat (Packet.fragments data)) eqn:En; [lia|done].
Qed.

(** C26: a request for a key that is stored is answered with all its values,
    in order and each once, split into events none of which exceeds the size
    limit without its last value, every event announcing the total number.  The
    socket is one that takes what it is given ([socket_ok]). *)
Theorem found_values_all_sent li e addr p vs w :
  socket_ok → pool_ok → ready li w → length (e_id e) = 32%nat → e_payload e = Some p →
  st_Get (fv_key (as_FindValue p)) (Unix0 (fv_from (as_FindValue p))) (w_storage w) = Ret (vs, true) →
  (∀ g, well_filled g → g `sublist_of` vs →
    zlen (found_event e w (zlen vs) g) ≤ Packet.max_fragmentable) →
  ∃ gs w', findValue li e addr w = Ret (None, w') ∧ concat gs = vs ∧ Forall well_filled gs ∧
    same_node w w' ∧
    outgoing li w' = outgoing li w ++
      (gs ≫= λ g, mkMessage addr <$> Packet.wires (e_id e) (found_event e w (zlen vs) g)).
Proof.
  intros Hs Hp Hr Hid He Hget Hfit. unfold findValue. rewrite He, Hget. cbn [obind].
  assert (Hgs : Forall well_filled (groups [] 0 vs)) by (apply groups_filled; auto).
  destruct (found_loop_ok li e addr (zlen vs) vs [] 0 w Hs Hp Hr Hid) as (w' & E & Hw & _ & Ho).
  { apply Forall_forall. intros g Hg. rewrite Forall_forall in Hgs. apply Hfit; [by apply Hgs|].
    rewrite <-(groups_concat [] 0 vs : _ = vs). apply list_elem_of_split in Hg as (l1 & l2 & ->).
    rewrite concat_app. simpl. apply sublist_inserts_l, sublist_inserts_r. done. }
  exists (groups [] 0 vs), w'. split_and!; [done|apply groups_concat|done..].
Qed.

(** A value whose times survive the trip in 64-bit nanoseconds. *)
Definition wire_safe (v : Value) : Prop :=
  - 2 ^ 63 ≤ v_Created v - unix_epoch < 2 ^ 63 ∧ - 2 ^ 63 ≤ v_TTL v < 2 ^ 63.

Definition set_value (now : Z) w (v : Value) : outcome W :=
  let! '(_, s) := st_Set now (v_Key v) (v_Value v) (v_Created v) (v_TTL v) (w_storage w) in
  Ret (set_storage s w).

(** A store request sets, on the receiver, exactly the values the sender
    put into it, with their keys, creation times and times to live, in order,
    and is answered with a store response that carries its identifier. *)
Lemma store_request_stores li now rid sender vs addr w :
  Forall wire_safe vs →
  store li now (Events.eventStoreRequest rid sender vs) addr w =
    let! w := ofold (set_value now) w vs in
    write li addr rid (encode (Events.eventStoreResponse rid (w_localID w))) w.
Proof.
  intros Hvs. unfold store, Events.eventStoreRequest. cbn [e_payload e_id].
  rewrite read_Store. cbn [s_values]. f_equal. revert w.
  induction Hvs as [|v vs [Hc Ht] _ IH]; intros w; [done|].
  rewrite fmap_cons. cbn [ofold]. unfold store_value at 1, set_value at 1, Events.wire_value.
  cbn [wv_key wv_value wv_ttl wv_created]. rewrite Unix0_UnixNano, i64_small by done.
  destruct (st_Set _ _ _ _ _ _) as [[r s]| | |]; cbn [obind]; [apply IH|done..].
Qed.

(** An event that arrives in one datagram, from a node that the table knows. *)
Lemma process_known transfer_cb run stale li now addr rid e w :
  length rid = 32%nat → 0 < zlen (encode e) ≤ Packet.MaxPayloadSize → decode (encode e) = Ret e →
  valid_id (e_sender e) → RoutingTable.wf (w_routing w) → RoutingTable.knows (w_routing w) (e_sender e) = true →
  ∃ t, RoutingTable.seen now (e_sender e) (w_routing w) = Ret (true, t) ∧
    process_one transfer_cb run stale li now addr (Packet.wire rid (encode e) 0) w =
      let w := set_routing t w in
      if e_response e then Cache.callback cache_hash w_requests set_requests run (e_id e) (Some e) None w
      else
        let! '(err, w) := handle stale li now e addr w in
        match err with Some _ => Ret w | None => Ret w end.
Proof.
  intros Hid Hsize Hdec Hsnd Hwf Hk. unfold process_one.
  destruct (Packet.assemble_single packet_hash (pooled (w_rids w)) now rid (encode e) (w_packets w) Hid Hsize)
    as (_ & p & -> & Hdata). cbn [obind]. rewrite Hdata. cbn [obind]. rewrite Hdec. cbn [obind].
  rewrite RoutingTable.knows_spec in Hk by done.
  destruct (RoutingTable.table_seen_spec now (e_sender e) (w_routing w) Hwf Hsnd) as (t & E & _).
  rewrite Hk in E. exists t. split; [done|]. cbn [set_packets w_routing]. rewrite E. cbn [obind].
  by replace (set_packets (w_packets w) w) with w by (by destruct w).
Qed.

(** A ping that arrives in a datagram from a node the table knows is
    answered with a pong that carries its identifier, and the table still
    holds the same nodes in the same lists: in particular a node of the
    promotion cache stays there, even if its bucket has room. *)
Theorem known_ping_answered transfer_cb run stale li now addr rid sender w :
  socket_ok → pool_ok → ready li w → length rid = 32%nat → valid_id sender →
  RoutingTable.wf (w_routing w) → RoutingTable.knows (w_routing w) sender = true →
  let e := Events.eventPing rid sender in
  0 < zlen (encode e) ≤ Packet.MaxPayloadSize → decode (encode e) = Ret e →
  zlen (encode (Events.eventPong rid (w_localID w))) ≤ Packet.max_fragmentable →
  ∃ w', process_one transfer_cb run stale li now addr (Packet.wire rid (encode e) 0) w = Ret w' ∧
    outgoing li w' = outgoing li w ++
      (mkMessage addr <$> Packet.wires rid (encode (Events.eventPong rid (w_localID w)))) ∧
    ∀ j, RoutingTable.in_range j →
      Bucket.ids (RoutingTable.live_at (w_routing w') j) =
        Bucket.ids (RoutingTable.live_at (w_routing w) j) ∧
      Bucket.ids (RoutingTable.cache_at (w_routing w') j) =
        Bucket.ids (RoutingTable.cache_at (w_routing w) j).
Proof.
  intros Hs Hp Hr Hid Hsnd Hwf Hk e Hsize Hdec Hfit.
  destruct (process_known transfer_cb run stale li now addr rid e w Hid Hsize Hdec Hsnd Hwf Hk) as (t & Et & ->).
  destruct (RoutingTable.table_seen_spec now sender (w_routing w) Hwf Hsnd) as (t' & E & _ & _ & Hl).
  assert (t = t') as -> by (unfold e in Et; cbn in Et; congruence). cbn zeta.
  unfold handle, pong. cbn [Events.eventPing e_response e_event e_id e]. set (w1 := set_routing t' w).
  destruct (write_ok li addr rid (encode (Events.eventPong rid (w_localID w1))) w1 Hs Hp Hr Hid Hfit)
    as (w2 & E2 & Hw2 & _ & Ho). rewrite E2. cbn [obind]. exists w2. split_and!; [done|done|].
  rewrite Hw2. exact Hl.
Qed.
End claims.

(** ** A concrete node *)

Section demo.
(** A toy encoding: the type and the two identifiers. *)
Definition type_byte (t : EventType) : Z :=
  match t with PING => 0 | PONG => 1 | STORE => 2 | FIND_NODE => 3 | FIND_VALUE => 4
             | OtherEvent b => b end.

Definition demo_encode (e : @Event tagged_Tables) : bytes :=
  type_byte (e_event e) :: e_id e ++ e_sender e.

Definition demo_decode (b : bytes) : outcome (@Event tagged_Tables) :=
  match b with
  | 0 :: r => Ret (@Events.eventPing tagged_Tables (take 32 r) (drop 32 r))
  | _ => Panic SliceOutOfRange
  end.

Definition demo_Env (refuse : bool) : @Env tagged_Tables := {|
  encode := demo_encode;
  decode := demo_decode;
  WriteBatch q s := if refuse then (0%nat, Some (ErrSocket 1)) else (length q, None);
  cache_hash := be;
  packet_hash := be;
  pseudorandomID n := id_of (Z.of_nat n);
  pooled _ := Packet.fresh;
|}.

Definition demo_Storage : Storage (gmap Z Memory.item) :=
  Memory.Memory_Storage Memory.demo_hash (λ s, (map_to_list s).*1).

Definition demo_table : RoutingTable.routingTable :=
  match RoutingTable.insert 1 (id_of 3) None 0 false (RoutingTable.newRoutingTable RoutingTable.local0) with
  | Ret t => t
  | _ => RoutingTable.newRoutingTable RoutingTable.local0
  end.

Definition demo_world (s : gmap Z Memory.item) : world (gmap Z Memory.item) unit unit :=
  mkWorld (id_of 0) 60 demo_table ∅ s ∅ [mkBatch [] 2] [] 0 tt.
End demo.

Lemma demo_pool_ok b : @pool_ok _ (demo_Env b).
Proof. intros n. vm_compute. reflexivity. Qed.

Lemma demo_ready s : ready 0 (demo_world s).
Proof. exists (mkBatch [] 2). split; [reflexivity|]. cbn. lia. Qed.

Definition addr1 : option UDPAddr := Some (mkUDPAddr [127; 0; 0; 1] 9000).

(** Three writes through a batch of two slots, by a socket that takes one message
    of each batch: the second datagram is lost. *)
Definition short_Env : @Env tagged_Tables := {|
  encode := demo_encode;
  decode := demo_decode;
  WriteBatch q s := (1%nat, None);
  cache_hash := be;
  packet_hash := be;
  pseudorandomID n := id_of (Z.of_nat n);
  pooled _ := Packet.fresh;
|}.

Lemma writes_in_order_witness :
  ∃ w', @write_all _ short_Env _ unit unit 0
      [(addr1, id_of 1, [7]); (addr1, id_of 2, [8]); (addr1, id_of 3, [9])] (demo_world ∅) = Ret (None, w') ∧
    w_sent w' = [mkMessage addr1 (Packet.wire (id_of 1) [7] 0)] ∧
    w_batches w' = [mkBatch [mkMessage addr1 (Packet.wire (id_of 3) [9] 0)] 2].
Proof.
  destruct (@writes_in_order _ short_Env _ unit unit 0
    [(addr1, id_of 1, [7]); (addr1, id_of 2, [8]); (addr1, id_of 3, [9])] (demo_world ∅) (mkBatch [] 2))
    as (qs & rest & r & q & w' & E & _).
  - intros n. vm_compute. reflexivity.
  - reflexivity.
  - cbn. lia.
  - repeat (apply Forall_cons; split; [split; [reflexivity|apply Z.leb_le; vm_compute; reflexivity]|]).
    apply Forall_nil. exact I.
  - assert (Er : r = None) by (vm_compute in E; by injection E as <- _). subst r.
    exists w'. split; [exact E|]. vm_compute in E. injection E as <-. split; vm_compute; reflexivity.
Defined.

Definition full_world : world (gmap Z Memory.item) unit unit :=
  set_network [mkBatch [mkMessage addr1 [1]; mkMessage addr1 [2]] 2] [] (demo_world ∅).

Lemma refused_batch_panics_witness :
  @write _ (demo_Env true) _ unit unit 0 addr1 (id_of 1) [7] full_world = Panic IndexOutOfRange.
Proof.
  apply (@refused_batch_panics _ (demo_Env true) _ unit unit 0 addr1 (id_of 1) [7] full_world full_world
    (mkBatch [mkMessage addr1 [1]; mkMessage addr1 [2]] 2) (ErrSocket 1)).
  - apply demo_pool_ok.
  - reflexivity.
  - split; [apply Z.ltb_lt|apply Z.leb_le]; vm_compute; reflexivity.
  - reflexivity.
  - cbn. lia.
  - reflexivity.
Defined.

Definition found_request : @Event tagged_Tables :=
  mkEvent tagged_Tables (id_of 4) (id_of 3) FIND_VALUE false
    (Some (TFindValue (mkFindValue [1] [] [] (5 - unix_epoch) 0))).
Definition found_values : list Value := [Memory.value_at 1 5 9; Memory.value_at 2 7 9].
Definition found_world : world (gmap Z Memory.item) unit unit :=
  demo_world {[Memory.demo_hash [1] := Memory.demo_item found_values]}.

Lemma found_values_all_sent_witness :
  ∃ gs w', @findValue _ (demo_Env false) insertion_GoSort _ demo_Storage unit unit 0 found_request addr1
      found_world = Ret (None, w') ∧ concat gs = found_values.
Proof.
  destruct (@found_values_all_sent _ (demo_Env false) insertion_GoSort _ demo_Storage unit unit 0
    found_request addr1 (TFindValue (mkFindValue [1] [] [] (5 - unix_epoch) 0)) found_values found_world)
    as (gs & w' & E & Hgs & _).
  - intros q s. reflexivity.
  - apply demo_pool_ok.
  - apply demo_ready.
  - reflexivity.
  - reflexivity.
  - vm_compute. reflexivity.
  - intros g _ _. apply Z.leb_le. vm_compute. reflexivity.
  - exists gs, w'. split; [exact E|exact Hgs].
Defined.

Definition safe_value : Value := mkValue [1] [10] 60 (unix_epoch + 5) 0.

Lemma store_request_stores_witness :
  @store _ (demo_Env false) _ demo_Storage unit unit 0 100
      (@Events.eventStoreRequest tagged_Tables (id_of 4) (id_of 3) [safe_value]) addr1 (demo_world ∅) =
    let! w := ofold (@set_value _ demo_Storage unit unit 100) (demo_world ∅) [safe_value] in
    @write _ (demo_Env false) _ unit unit 0 addr1 (id_of 4)
      (demo_encode (@Events.eventStoreResponse tagged_Tables (id_of 4) (w_localID w))) w.
Proof.
  apply (@store_request_stores _ (demo_Env false) _ demo_Storage unit unit 0 100 (id_of 4) (id_of 3)
    [safe_value] addr1 (demo_world ∅)).
  apply Forall_cons. split; [|apply Forall_nil; exact I]. unfold wire_safe, safe_value. cbn. lia.
Defined.

Lemma demo_table_wf : RoutingTable.wf demo_table.
Proof.
  apply (RoutingTable.reachable_wf RoutingTable.local0 [RoutingTable.OpInsert 1 (id_of 3) None 0 false]);
    [decided|decided|]. vm_compute. reflexivity.
Qed.

Lemma known_ping_answered_witness :
  ∃ w', @process_one _ (demo_Env false) insertion_GoSort _ demo_Storage unit unit tt
      (λ _ _ _ w, Ret (true, w)) None 0 100 addr1
      (Packet.wire (id_of 4) (demo_encode (@Events.eventPing tagged_Tables (id_of 4) (id_of 3))) 0)
      (demo_world ∅) = Ret w' ∧
    zlen (outgoing 0 w') = 1.
Proof.
  destruct (@known_ping_answered _ (demo_Env false) insertion_GoSort _ demo_Storage unit unit tt
    (λ _ _ _ w, Ret (true, w)) None 0 100 addr1 (id_of 4) (id_of 3) (demo_world ∅)) as (w' & E & Ho & _).
  - intros q s. reflexivity.
  - apply demo_pool_ok.
  - apply demo_ready.
  - reflexivity.
  - decided.
  - apply demo_table_wf.
  - vm_compute. reflexivity.
  - split; [apply Z.ltb_lt|apply Z.leb_le]; vm_compute; reflexivity.
  - vm_compute. reflexivity.
  - apply Z.leb_le. vm_compute. reflexivity.
  - exists w'. split; [exact E|]. rewrite Ho. vm_compute. reflexivity.
Defined.

End Listener.
