(* ===== verification/LatencyRouter.v ===== *)
(** * The latency router

    Models [latency_router.go].  A measurement is a ping: a request through the
    first listener, which registers it in the request cache and writes its
    datagram.  Whether and after how long a node answers is an argument
    ([answer]: the time until the answer, or nothing: an error, or no answer
    within the threshold), and so is the clock ([clock]: the time at which the
    request with that number is made).  The answer itself is processed by a
    listener like any other.  [failCount], which a measurement updates through the
    node's pointer and which no code reads, is kept for the walk over the routing
    table. *)
From stdpp Require Import base list numbers sets sorting gmap.
From Stdlib Require Import Lia.
From S2P Require Import Prelude Keyspace Bucket RoutingTable Packet Storage Event Cache Listener.
Local Open Scope Z_scope.

Module LatencyRouter.
Import Listener.

Definition millisecond : Z := 1000000.
Definition defaultLatencyThreshold : Z := 500 * millisecond.

Definition set_failCount (c : Z) (n : node) : node :=
  mkNode (n_id n) (n_address n) (n_seen n) (n_pending n) (n_latency n) c (n_testMode n).

Definition faster (x y : node * Z) : bool := x.2 <? y.2.

Section model.
Context `{Env} {St CB App : Type}.
Abbreviation W := (world St CB App).
Implicit Types w : W.

(** The callback of a measurement: it sends its error on a channel with room for
    one result, which only this closure sends on, and returns true, so that the
    request is removed and the callback not called again. *)
Variable latency_cb : CB.
Variables (answer : node → option Z) (clock : nat → Z).

(** The latency and the node after the measurement; [None] is a nil pointer. *)
Definition measureNodeLatency (o : option node) w : outcome (Z * option node * W) :=
  match o with
  | None => Ret (hour, None, w)
  | Some n =>
      match n_address n with
      | None => Ret (hour, Some n, w)
      | Some _ =>
          if n_testMode n then Ret (n_latency n, Some n, w)
          else
            let now := clock (w_rids w) in
            let '(rid, w) := fresh_rid w in
            let req := Events.eventPing rid (w_localID w) in
            let! '(err, w) := request 0 now (n_address n) rid req latency_cb w in
            match err, answer n with
            | None, Some latency => Ret (latency, Some (set_failCount 0 n), w)
            | _, _ => Ret (hour, Some (set_failCount (i32 (n_failCount n + 1)) n), w)
            end
      end
  end.

(** The measurements of [GetBestRoutes], which run concurrently, each with its own
    entry of the slice; here in the order in which they are started. *)
Fixpoint measure_all (ns : list node) w : outcome (list (node * Z) * W) :=
  match ns with
  | [] => Ret ([], w)
  | n :: ns =>
      let! '(latency, _, w) := measureNodeLatency (Some n) w in
      let! '(ls, w) := measure_all ns w in
      Ret ((n, latency) :: ls, w)
  end.

(** [GetBestRoutes]: [None] is a nil slice. *)
Definition GetBestRoutes `{GoSort} (target : bytes) (count : nat) w : outcome (option (list node) * W) :=
  let! nodes := RoutingTable.closestN target (Z.of_nat count * 2) (w_routing w) in
  if (length nodes =? 0)%nat then Ret (None, w)
  else
    let! '(nodeLatencies, w) := measure_all nodes w in
    let sorted := go_sort faster nodeLatencies in
    Ret (Some (omap (λ nl : node * Z, if nl.2 <? defaultLatencyThreshold then Some nl.1 else None)
                    (take count sorted)), w).

(** The visitor of [updateAllNodeLatencies]. *)
Definition update_latency w (n : node) : outcome (W * node) :=
  let! '(latency, o, w) := measureNodeLatency (Some n) w in
  Ret (w, set_latency latency (default n o)).

Definition update_bucket w (i : nat) : outcome W :=
  let! b := go_index (RoutingTable.buckets (w_routing w)) (Z.of_nat i) in
  let! '(w, b) := Bucket.iterate update_latency w b in
  Ret (set_bucket i b w).

Definition updateAllNodeLatencies w : outcome W :=
  ofold update_bucket w (seq 0 (Z.to_nat KEY_BITS)).
End model.

(** ** Lemmas: what an update keeps *)
Section proofs.
Context `{Env} {St CB App : Type}.
Abbreviation W := (world St CB App).
Implicit Types w : W.
Context (latency_cb : CB) (answer : node → option Z) (clock : nat → Z).

(** The ping of a measurement. *)
Definition ping (to : option UDPAddr) w : outcome (option error * W) :=
  request 0 (clock (w_rids w)) to (pseudorandomID (w_rids w))
    (Events.eventPing (pseudorandomID (w_rids w)) (w_localID w)) latency_cb (set_rids (S (w_rids w)) w).

Lemma ping_routing to w r w' : ping to w = Ret (r, w') → w_routing w' = w_routing w.
Proof. intros E. apply request_same in E. by rewrite E. Qed.

(** A measurement sends that ping or nothing. *)
Lemma update_latency_cases n w :
  update_latency latency_cb answer clock w n =
    match n_address n with
    | None => Ret (w, set_latency hour n)
    | Some _ =>
        if n_testMode n then Ret (w, set_latency (n_latency n) n)
        else
          let! '(err, w) := ping (n_address n) w in
          Ret (w, match err, answer n with
                  | None, Some latency => set_latency latency (set_failCount 0 n)
                  | _, _ => set_latency hour (set_failCount (i32 (n_failCount n + 1)) n)
                  end)
    end.
Proof.
  unfold update_latency, measureNodeLatency, ping. cbn [fresh_rid].
  destruct (n_address n) as [a|]; [|done]. destruct (n_testMode n); [done|].
  cbn [set_rids w_localID]. destruct (request _ _ _ _ _ _ _) as [[[e|] w']| | |]; cbn [obind]; try done.
  by destruct (answer n).
Qed.

(** What every ping keeps, an update keeps. *)
Lemma visit_keeps (P : W → Prop) l w w' l' :
  (∀ to w r w', ping to w = Ret (r, w') → P w → P w') → P w →
  Bucket.visit_all (update_latency latency_cb answer clock) w l = Ret (w', l') →
  P w' ∧ w_routing w' = w_routing w ∧ Forall2 RoutingTable.same_identity l l'.
Proof.
  intros HP. revert w l'. induction l as [|n l IH]; intros w l' Hw E; cbn [Bucket.visit_all] in E.
  { injection E as <- <-. by split_and!. }
  apply obind_Ret in E as ([w1 n1] & E1 & E). apply obind_Ret in E as ([w2 l2] & E & [= -> <-]).
  assert (H1 : P w1 ∧ w_routing w1 = w_routing w ∧ RoutingTable.same_identity n n1).
  { rewrite update_latency_cases in E1. destruct (n_address n); [|by injection E1 as <- <-].
    destruct (n_testMode n); [by injection E1 as <- <-|]. apply obind_Ret in E1 as ([err w3] & Ep & [= <- <-]).
    split_and!; [by eapply HP|by eapply ping_routing|]. by destruct err, (answer n). }
  destruct H1 as (Hw1 & Er & Hn). destruct (IH w1 l2 Hw1 E) as (Hw2 & Er2 & Hl).
  split_and!; [done|congruence|by constructor].
Qed.

(** If every ping returns, an update does. *)
Lemma updates_return (P : W → Prop) l w :
  (∀ to w, is_Some to → P w → returns (ping to w) (λ r, P r.2)) → P w →
  returns (Bucket.visit_all (update_latency latency_cb answer clock) w l) (λ r,
    P r.1 ∧ w_routing r.1 = w_routing w ∧ Forall2 RoutingTable.same_identity l r.2).
Proof.
  intros HP Hw.
  assert (Hr : returns (Bucket.visit_all (update_latency latency_cb answer clock) w l) (λ r, P r.1)).
  { revert w Hw. induction l as [|n l IH]; intros w Hw; cbn [Bucket.visit_all]; [by apply returns_ret|].
    eapply (returns_bind _ _ (λ r : W * node, P r.1)).
    - rewrite update_latency_cases. destruct (n_address n) as [a|]; [|by apply returns_ret].
      destruct (n_testMode n); [by apply returns_ret|]. go_step HP as [err w1] Hw1; [by eexists|done|]. by apply returns_ret.
    - intros [w1 n1] Hw1. go_step IH as [w2 l2] Hw2; [done|]. by apply returns_ret. }
  destruct Hr as ([w' l'] & E & Hw'). exists (w', l'). split; [done|]. split; [done|].
  by apply (visit_keeps (λ _, True)) in E as (_ & ? & ?).
Qed.
End proofs.

(** ** The best routes *)
Lemma faster_swo : strict_weak_order faster.
Proof.
  unfold faster. split; intros *; rewrite ?Z.ltb_lt, ?Z.ltb_ge; try lia.
Qed.

(** Filtering a sorted prefix. *)
Lemma best_of_sorted limit count (s : list (node * Z)) :
  StronglySorted (λ x y, faster y x = false) s →
  let r := filter (λ x, x.2 < limit) (take count s) in
  (length r ≤ count)%nat ∧ StronglySorted (λ x y, x.2 ≤ y.2) r ∧
  (∀ x, x ∈ r → x ∈ s ∧ x.2 < limit) ∧
  (∀ x, x ∈ s → x.2 < limit → x ∈ r ∨ ∀ y, y ∈ r → y.2 ≤ x.2).
Proof.
  intros Hs r.
  assert (Hle : ∀ (l1 l2 : list (node * Z)) x y, s = l1 ++ l2 → x ∈ l1 → y ∈ l2 → x.2 ≤ y.2).
  { intros l1 l2 x y -> Hx Hy. apply StronglySorted_app in Hs as (Hxy & _ & _).
    specialize (Hxy _ _ Hx Hy). unfold faster in Hxy. by apply Z.ltb_ge in Hxy. }
  assert (Hr : ∀ x, x ∈ r → x ∈ take count s ∧ x.2 < limit) by (intros x [? ?]%list_elem_of_filter; done).
  split_and!.
  - unfold r. etrans; [apply length_filter|]. rewrite length_take. lia.
  - unfold r. pose proof (take_drop count s) as Et. rewrite <-Et in Hs. apply StronglySorted_app in Hs as (_ & Hs & _).
    clear -Hs. induction Hs as [|x l Hl IH Hx]; [constructor|]. rewrite filter_cons. case_decide; [|done].
    constructor; [done|]. apply Forall_forall. intros y [_ Hy]%list_elem_of_filter. rewrite Forall_forall in Hx.
    specialize (Hx y Hy). unfold faster in Hx. by apply Z.ltb_ge in Hx.
  - intros x [Hx Hl]%Hr. split; [|done]. eapply elem_of_take in Hx as (i & Hi & _). by eapply list_elem_of_lookup_2.
  - intros x Hx Hl. rewrite <-(take_drop count s) in Hx. apply elem_of_app in Hx as [Hx|Hx].
    + left. by apply list_elem_of_filter.
    + right. intros y [Hy _]%Hr. eapply Hle; [|done|done]. by rewrite take_drop.
Qed.

Section best.
Context `{Env} `{GoSort} {St CB App : Type}.
Context (latency_cb : CB) (answer : node → option Z) (clock : nat → Z).
Abbreviation W := (world St CB App).
Implicit Types w : W.

Lemma omap_filter (limit : Z) (l : list (node * Z)) :
  omap (λ nl : node * Z, if nl.2 <? limit then Some nl.1 else None) l = (filter (λ x, x.2 < limit) l).*1.
Proof.
  induction l as [|x l IH]; [done|]. cbn [omap list_omap]. rewrite filter_cons.
  destruct (Z.ltb_spec x.2 limit); case_decide; try lia; cbn; by rewrite <-?IH.
Qed.

(** The best routes are at most [count] nodes, taken from the [2 * count]
    that the table selects for the target and that are all measured, ordered by
    measured latency and all faster than the threshold; a candidate that is fast
    enough is left out only if no route returned is slower than it. *)
Theorem best_routes target count w cs ls w' :
  RoutingTable.closestN target (Z.of_nat count * 2) (w_routing w) = Ret cs → cs ≠ [] →
  measure_all latency_cb answer clock cs w = Ret (ls, w') →
  ∃ best, GetBestRoutes latency_cb answer clock target count w = Ret (Some best.*1, w') ∧
    (length best ≤ count)%nat ∧ StronglySorted (λ x y, x.2 ≤ y.2) best ∧
    (∀ x, x ∈ best → x ∈ ls ∧ x.2 < defaultLatencyThreshold) ∧
    (∀ x, x ∈ ls → x.2 < defaultLatencyThreshold → x ∈ best ∨ ∀ y, y ∈ best → y.2 ≤ x.2).
Proof.
  intros Hc Hne Hm. unfold GetBestRoutes. rewrite Hc. cbn [obind].
  destruct cs as [|c cs]; [done|]. cbn [length Nat.eqb]. rewrite Hm. cbn [obind]. rewrite omap_filter.
  assert (Hperm : go_sort faster ls ≡ₚ ls) by apply go_sort_perm.
  destruct (best_of_sorted defaultLatencyThreshold count (go_sort faster ls)) as (B1 & B2 & B3 & B4).
  { apply go_sort_sorted, faster_swo. }
  eexists. split; [done|]. split_and!; [done|done| |].
  - intros x Hx. rewrite <-Hperm. by apply B3.
  - intros x Hx. apply B4. by rewrite Hperm.
Qed.

(** The nodes measured are the nodes given, and the rest of the node is as it was
    but for the network and the requests. *)
Lemma measure_all_nodes ns w ls w' : measure_all latency_cb answer clock ns w = Ret (ls, w') → ls.*1 = ns.
Proof.
  revert w ls. induction ns as [|n ns IH]; intros w ls E; cbn [measure_all] in E; [by injection E as <- _|].
  apply obind_Ret in E as ([[lat o] w1] & _ & E). apply obind_Ret in E as ([ls1 w2] & E & [= <- <-]). cbn. f_equal. by eapply IH.
Qed.
End best.

Definition demo_answer (n : node) : option Z := Some (n_seen n * millisecond).
Definition demo_table : RoutingTable.routingTable :=
  match ofold RoutingTable.step (RoutingTable.newRoutingTable RoutingTable.local0)
    [RoutingTable.OpInsert 30 (id_of 3) (Some (mkUDPAddr [127; 0; 0; 1] 1)) 0 false;
     RoutingTable.OpInsert 20 (id_of 9) (Some (mkUDPAddr [127; 0; 0; 1] 2)) 0 false;
     RoutingTable.OpInsert 700 (id_of 8) (Some (mkUDPAddr [127; 0; 0; 1] 3)) 0 false] with
  | Ret t => t
  | _ => RoutingTable.newRoutingTable RoutingTable.local0
  end.
Definition routed : world (gmap Z Memory.item) unit unit := set_routing demo_table (demo_world ∅).

(** Three pings are sent, and registered. *)
Lemma best_routes_witness :
  ∃ ns w', @GetBestRoutes _ (demo_Env false) _ _ _ tt demo_answer (λ _, 100) insertion_GoSort (id_of 1) 2 routed =
      Ret (Some ns, w') ∧
    Bucket.ids ns = [id_of 9; id_of 3] ∧ size (w_requests w') = 3%nat ∧ zlen (outgoing 0 w') = 3.
Proof.
  assert (∃ cs ls w', @RoutingTable.closestN insertion_GoSort (id_of 1) 4 demo_table = Ret cs ∧ cs ≠ [] ∧
    @measure_all _ (demo_Env false) _ _ _ tt demo_answer (λ _, 100) cs routed = Ret (ls, w') ∧
    size (w_requests w') = 3%nat ∧ zlen (outgoing 0 w') = 3)
    as (cs & ls & w' & E & Hne & Em & H1 & H2).
  { do 3 eexists. split; [vm_compute; reflexivity|]. split; [discriminate|]. split; [vm_compute; reflexivity|].
    split; vm_compute; reflexivity. }
  destruct (@best_routes _ (demo_Env false) insertion_GoSort _ _ _ tt demo_answer (λ _, 100) (id_of 1) 2 routed cs ls w' E Hne Em)
    as (best & E2 & _).
  generalize dependent (best.*1). intros ns E2. exists ns, w'. split; [exact E2|]. split; [|split; [exact H1|exact H2]].
  vm_compute in E2. injection E2 as <-. reflexivity.
Defined.

End LatencyRouter.
