(* ===== verification/Dht.v ===== *)
(** * The DHT: storing, finding, looking up, and the periodic tasks

    Models [dht.go].  A callback passed to [request] is a closure; here it is a
    value of [cb] that names what the closure captures, and [run] is its body.
    [app] is the state that closures share: the round-robin counter, the
    journeys of the lookups, the counters of the store operations, the channels
    of the pings, and the log of the calls of the user's callbacks.

    The loops that wait for a ticker are modelled by their body, one tick at a
    time.  The pool of FlatBuffers builders has no observable state. *)
From stdpp Require Import base list numbers sets gmap.
From Stdlib Require Import Lia.
From S2P Require Import Prelude Keyspace Bucket RoutingTable Journey Packet.
From S2P Require Import Storage Event Cache Listener LatencyRouter.
Local Open Scope Z_scope.

Module Dht.
Import Listener.

(** The closures that [dht.go], [listener.go] and [latency_router.go] pass to
    [request]. *)
Inductive cb :=
  | CbTransfer
  | CbStore (s : nat)
  | CbFindValue (id key : bytes) (from : Z) (f : nat)
  | CbFindNode (target : bytes) (f : nat)
  | CbMonitor (id : bytes)
  | CbPing (p : nat) (id : bytes)
  | CbLatency.

(** A store operation: the responses counted, and the number of nodes. *)
Record store_op := mkStoreOp { so_responses : Z; so_nodes : Z }.

(** A call of a user's callback. *)
Inductive user_call :=
  | Stored (s : nat) (err : option error)
  | FoundValue (f : nat) (v : bytes)
  | FindFailed (f : nat) (err : error)
  | NodesFound (f : nat) (err : option error).

Record app := mkApp {
  a_cl : Z;
  a_journeys : list Journey.journey;
  a_stores : list store_op;
  a_pings : list (list bool);
  a_log : list user_call;
}.

Definition log_call (c : user_call) (a : app) : app :=
  mkApp (a_cl a) (a_journeys a) (a_stores a) (a_pings a) (a_log a ++ [c]).
Definition set_cl (c : Z) (a : app) : app := mkApp c (a_journeys a) (a_stores a) (a_pings a) (a_log a).
Definition set_journeys (js : list Journey.journey) (a : app) : app :=
  mkApp (a_cl a) js (a_stores a) (a_pings a) (a_log a).
Definition set_stores (ss : list store_op) (a : app) : app :=
  mkApp (a_cl a) (a_journeys a) ss (a_pings a) (a_log a).
Definition set_pings (ps : list (list bool)) (a : app) : app :=
  mkApp (a_cl a) (a_journeys a) (a_stores a) ps (a_log a).

Section model.
Context `{Env} `{GoSort} {St : Type} `{Storage St}.
(** The hash of the journeys, seeded once per journey in the code. *)
Variable journey_hash : bytes → Z.

Abbreviation W := (world St cb app).
Abbreviation M := (outcome (option error * W)).
Implicit Types w : W.

Definition on_app (f : app → app) w : W := set_app (f (w_app w)) w.
Definition user (c : user_call) w : W := on_app (log_call c) w.

(** A method of the journey [f]. *)
Definition on_journey {A} (f : nat) (m : Journey.journey → outcome (A * Journey.journey)) w
    : outcome (A * W) :=
  let! j := go_index (a_journeys (w_app w)) (Z.of_nat f) in
  let! '(x, j) := m j in
  Ret (x, on_app (λ a, set_journeys (<[f := j]> (a_journeys a)) a) w).

(** [d.listeners[(atomic.AddInt32(&d.cl, 1)-1)%int32(len(d.listeners))]] *)
Definition next_listener w : outcome (nat * W) :=
  let cl := i32 (a_cl (w_app w) + 1) in
  let w := on_app (set_cl cl) w in
  let i := Z.rem (i32 (cl - 1)) (i32 (zlen (w_batches w))) in
  let! _ := go_index (w_batches w) i in
  Ret (Z.to_nat i, w).

(** A request through the next listener, with a new identifier. *)
Definition send (now : Z) (to : option UDPAddr) (ev : bytes → Event) (c : cb) w : M :=
  let '(rid, w) := fresh_rid w in
  let req := ev rid in
  let! '(li, w) := next_listener w in
  request li now to rid req c w.

(** ** Store *)

(** The loop of [Store] over the nodes; [s] is the operation. *)
Fixpoint store_loop (now : Z) (s : nat) (v : Value) (total : nat) (ns : list node) w : outcome W :=
  match ns with
  | [] => Ret w
  | n :: ns =>
      if Equal (n_id n) (w_localID w) then
        let! '(_, st) := st_Set now (v_Key v) (v_Value v) (v_Created v) (v_TTL v) (w_storage w) in
        let w := set_storage st w in
        if (total =? 1)%nat then Ret (user (Stored s None) w)
        else store_loop now s v total ns w
      else
        let! '(err, w) := send now (n_address n)
          (λ rid, Events.eventStoreRequest rid (w_localID w) [v]) (CbStore s) w in
        match err with
        | Some e => Ret (user (Stored s (Some e)) w)
        | None => store_loop now s v total ns w
        end
  end.

(** [Store]; [s] numbers the operation, also one that fails at once. *)
Definition Store (now : Z) (key value : bytes) (ttl : Z) w : outcome W :=
  let s := length (a_stores (w_app w)) in
  if negb (zlen key =? KEY_BYTES) then
    Ret (user (Stored s (Some ErrKeyLength)) (on_app (λ a, set_stores (a_stores a ++ [mkStoreOp 0 0]) a) w))
  else if VALUE_BYTES <? zlen value then
    Ret (user (Stored s (Some ErrValueLength)) (on_app (λ a, set_stores (a_stores a ++ [mkStoreOp 0 0]) a) w))
  else
    let v := mkValue key value ttl now time_zero in
    let! ns := RoutingTable.closestN key (Z.of_nat K) (w_routing w) in
    let w := on_app (λ a, set_stores (a_stores a ++ [mkStoreOp 0 (zlen ns)]) a) w in
    if zlen ns <? 1 then Ret (user (Stored s (Some ErrNoNodes)) w)
    else store_loop now s v (length ns) ns w.

(** The callback of a store request. *)
Definition store_callback (s : nat) (err : option error) w : outcome (bool * W) :=
  match err with
  | Some e => Ret (true, user (Stored s (Some e)) w)
  | None =>
      let! o := go_index (a_stores (w_app w)) (Z.of_nat s) in
      let r := i32 (so_responses o + 1) in
      let w := on_app (λ a, set_stores (<[s := mkStoreOp r (so_nodes o)]> (a_stores a)) a) w in
      if r =? i32 (so_nodes o - 1) then Ret (true, user (Stored s None) w) else Ret (true, w)
  end.

(** ** Find *)

(** The nodes listed in a response. [id] is the identifier the new node gets. *)
Definition response_node (id : WireNode → bytes) (n : WireNode) : outcome node :=
  let! addr := Events.decode_address (wn_address n) in
  Ret (mkNode (id n) (Some addr) time_zero 0 0 0 false).

(** The first requests of [Find]. *)
Fixpoint find_loop (now : Z) (f : nat) (key : bytes) (from : Z) (ns : list (option node)) w : outcome W :=
  match ns with
  | [] => Ret w
  | o :: ns =>
      let! n := deref o in
      let! '(err, w) := send now (n_address n)
        (λ rid, Events.eventFindValueRequest rid (w_localID w) key from)
        (CbFindValue (n_id n) key from f) w in
      match err with
      | Some e => Ret (user (FindFailed f e) w)
      | None => find_loop now f key from ns w
      end
  end.

(** [Find]; [from] is the zero time without an option.  [f] numbers the search;
    its journey is created first, which has no effect on the early returns. *)
Definition Find (now : Z) (key : bytes) (from : Z) w : outcome W :=
  let f := length (a_journeys (w_app w)) in
  let w := on_app (λ a, set_journeys
    (a_journeys a ++ [Journey.newJourney (w_localID w) key (Z.of_nat K)]) a) w in
  if negb (zlen key =? KEY_BYTES) then Ret (user (FindFailed f ErrKeyLength) w)
  else
    let! '(vs, ok) := st_Get key from (w_storage w) in
    if ok : bool then Ret (foldl (λ w v, user (FoundValue f (v_Value v)) w) w vs)
    else
      let! ns := RoutingTable.closestN key (Z.of_nat K) (w_routing w) in
      if (length ns =? 0)%nat then Ret (user (FindFailed f ErrNoNodes) w)
      else
        let! '(_, w) := on_journey f (λ j,
          let! j := Journey.add journey_hash (Some <$> ns) j in Ret (tt, j)) w in
        let! '(nx, w) := on_journey f (Journey.next 3) w in
        find_loop now f key from (default [] nx) w.

(** The values of a response: each one not seen before goes to the user. *)
Definition deliver (f : nat) w (v : WireValue) : outcome W :=
  let! '(seen, w) := on_journey f (λ j, Ret (Journey.seenValue journey_hash (wv_value v) j)) w in
  Ret (if seen : bool then w else user (FoundValue f (wv_value v)) w).

(** The requests that follow a response without values: [true] if the journey
    was finished by an error. *)
Fixpoint continue_find (now : Z) (f : nat) (key : bytes) (from : Z) (ns : list (option node)) w
    : outcome (bool * W) :=
  match ns with
  | [] => Ret (false, w)
  | o :: ns =>
      let! n := deref o in
      let! '(err, w) := send now (n_address n)
        (λ rid, Events.eventFindValueRequest rid (w_localID w) key from)
        (CbFindValue (n_id n) key from f) w in
      match err with
      | Some e =>
          let! '(won, w) := on_journey f (λ j, Ret (Journey.finish false j)) w in
          if won : bool then Ret (true, user (FindFailed f e) w)
          else continue_find now f key from ns w
      | None => continue_find now f key from ns w
      end
  end.

(** [if j.finish(false) { callback(nil, "value not found"); return true }; return false] *)
Definition not_found (f : nat) w : outcome (bool * W) :=
  let! '(won, w) := on_journey f (λ j, Ret (Journey.finish false j)) w in
  Ret (won, if won : bool then user (FindFailed f ErrValueNotFound) w else w).

(** [event] is nil only with an error. *)
Definition findValueCallback (now : Z) (id key : bytes) (from : Z) (f : nat)
    (event : option Event) (err : option error) w : outcome (bool * W) :=
  let! w := match err with
            | Some ErrRequestTimeout =>
                let! r := RoutingTable.remove id (w_routing w) in Ret (set_routing r w)
            | _ => Ret w
            end in
  let! '((completed, shouldError), w) := on_journey f (λ j, Ret (Journey.responseReceived j)) w in
  if completed : bool then Ret (true, w)
  else
    match err, event with
    | Some e, _ => if shouldError : bool then Ret (true, user (FindFailed f e) w) else Ret (false, w)
    | None, None => Panic NilDereference
    | None, Some ev =>
        match e_payload ev with
        | None => Ret (false, user (FindFailed f ErrInvalidPayload) w)
        | Some p =>
            let t := as_FindValue p in
            if (0 <? length (fv_values t))%nat then
              let! '(_, w) := on_journey f (λ j,
                Ret (tt, Journey.addOutstanding journey_hash (e_sender ev) (fv_found t) j)) w in
              let! '(_, w) := on_journey f (λ j,
                Ret (tt, Journey.removeOutstanding journey_hash (e_sender ev) (zlen (fv_values t)) j)) w in
              let! w := ofold (deliver f) w (fv_values t) in
              on_journey f (λ j, Ret (Journey.finish false j)) w
            else if (length (fv_nodes t) <? 1)%nat then not_found f w
            else
              let! newNodes := omapM (response_node (λ _, id)) (fv_nodes t) in
              let! '(_, w) := on_journey f (λ j,
                let! j := Journey.add journey_hash (Some <$> newNodes) j in Ret (tt, j)) w in
              let! '(nx, w) := on_journey f (Journey.next 3) w in
              match nx with
              | None => not_found f w
              | Some ns => continue_find now f key from ns w
              end
        end
    end.

(** ** Looking up nodes *)
Fixpoint nodes_loop (now : Z) (f : nat) (target : bytes) (ns : list (option node)) w
    : outcome (bool * W) :=
  match ns with
  | [] => Ret (true, w)
  | o :: ns =>
      let! n := deref o in
      let! '(err, w) := send now (n_address n)
        (λ rid, Events.eventFindNodeRequest rid (w_localID w) target) (CbFindNode target f) w in
      match err with
      | Some e => Ret (false, user (NodesFound f (Some e)) w)
      | None => nodes_loop now f target ns w
      end
  end.

Definition findNodes (now : Z) (ns : list (option node)) (target : bytes) w : outcome W :=
  let f := length (a_journeys (w_app w)) in
  let w := on_app (λ a, set_journeys
    (a_journeys a ++ [Journey.newJourney (w_localID w) target (Z.of_nat K)]) a) w in
  let! '(_, w) := nodes_loop now f target ns w in Ret w.

(** A node of a response goes into the routing table and is kept for the
    journey. *)
Definition discover (now : Z) (s : list node * W) (n : WireNode) : outcome (list node * W) :=
  let '(ns, w) := s in
  let! x := response_node wn_id n in
  let! r := RoutingTable.insert now (n_id x) (n_address x) 0 false (w_routing w) in
  Ret (ns ++ [x], set_routing r w).

Definition findNodeCallback (now : Z) (target : bytes) (f : nat)
    (event : option Event) (err : option error) w : outcome (bool * W) :=
  let! '((_, shouldError), w) := on_journey f (λ j, Ret (Journey.responseReceived j)) w in
  match err, event with
  | Some e, _ => if shouldError : bool then Ret (true, user (NodesFound f (Some e)) w) else Ret (false, w)
  | None, None => Panic NilDereference
  | None, Some ev =>
      match e_payload ev with
      | None => Ret (false, user (NodesFound f (Some ErrInvalidPayload)) w)
      | Some p =>
          let! '(newNodes, w) := ofold (discover now) ([], w) (fn_nodes (as_FindNode p)) in
          let! '(_, w) := on_journey f (λ j,
            let! j := Journey.add journey_hash (Some <$> newNodes) j in Ret (tt, j)) w in
          let! '(nx, w) := on_journey f (Journey.next 3) w in
          match nx with
          | None =>
              let! '(won, w) := on_journey f (λ j, Ret (Journey.finish false j)) w in
              Ret (won, if won : bool then user (NodesFound f None) w else w)
          | Some ns => let! '(_, w) := nodes_loop now f target ns w in Ret (false, w)
          end
      end
  end.

(** The callback of a ping of [monitor]. *)
Definition monitor_callback (now : Z) (id : bytes) (err : option error) w : outcome (bool * W) :=
  match err with
  | Some ErrRequestTimeout =>
      let! r := RoutingTable.remove id (w_routing w) in Ret (true, set_routing r w)
  | Some _ => Ret (true, w)
  | None => let! '(_, r) := RoutingTable.seen now id (w_routing w) in Ret (true, set_routing r w)
  end.

(** [response <- b] on the channel of ping [p], which has room for one. *)
Definition ping_result (p : nat) (r : bool) w : outcome W :=
  let! c := go_index (a_pings (w_app w)) (Z.of_nat p) in
  match c with
  | [] => Ret (on_app (λ a, set_pings (<[p := [r]]> (a_pings a)) a) w)
  | _ => Blocked
  end.

(** The callback of [pingNode]. *)
Definition ping_callback (now : Z) (p : nat) (id : bytes) (err : option error) w : outcome (bool * W) :=
  match err with
  | Some _ => let! w := ping_result p false w in Ret (true, w)
  | None =>
      let! '(_, r) := RoutingTable.seen now id (w_routing w) in
      let! w := ping_result p true (set_routing r w) in
      Ret (true, w)
  end.

(** The bodies of the closures. *)
Definition run (now : Z) (c : cb) (event : option Event) (err : option error) w : outcome (bool * W) :=
  match c with
  | CbTransfer => Ret (true, w)
  | CbStore s => store_callback s err w
  | CbFindValue id key from f => findValueCallback now id key from f event err w
  | CbFindNode target f => findNodeCallback now target f event err w
  | CbMonitor id => monitor_callback now id err w
  | CbPing p id => ping_callback now p id err w
  | CbLatency => Ret (true, w)
  end.

(** ** Periodic tasks *)

(** The nodes that a tick of [monitor] pings. *)
Definition recent (now : Z) (ns : list node) (n : node) : outcome (list node) :=
  Ret (if After (Add (n_seen n) (Z.quot hour 2)) now then ns ++ [n] else ns).

Definition monitored (now : Z) (t : RoutingTable.routingTable) : outcome (list node) :=
  ofold (λ ns b, let! '(ns, _) := Bucket.iterate (Bucket.visitor (recent now)) ns b in Ret ns) []
    (RoutingTable.buckets t).

Fixpoint monitor_loop (now : Z) (ns : list node) w : outcome W :=
  match ns with
  | [] => Ret w
  | n :: ns =>
      let! '(err, w) := send now (n_address n)
        (λ rid, Events.eventPing rid (w_localID w)) (CbMonitor (n_id n)) w in
      match err with
      | Some ErrClosed => Ret w
      | _ => monitor_loop now ns w
      end
  end.

Definition monitor (now : Z) w : outcome W :=
  let! ns := monitored now (w_routing w) in monitor_loop now ns w.

(** A tick of [refreshKeys]. *)
Definition refresh_key (now : Z) w (key : bytes) : outcome W :=
  let! '(value, exists_) := st_Get key now (w_storage w) in
  if negb exists_ then Ret w
  else
    match value with
    | [] => Ret w
    | v :: _ =>
        let remainingTTL := v_expires v - now in
        if 0 <? remainingTTL then Store now key (v_Value v) remainingTTL w else Ret w
    end.

Definition refreshKeys (now : Z) w : outcome W :=
  let! '(keys, s) := st_Iterate (λ ks v, Ret (ks ++ [v_Key v], true)) [] (w_storage w) in
  ofold (refresh_key now) (set_storage s w) keys.

(** The loop of [lookup]: [queried] lists the keys of the map; the fuel bounds
    the number of rounds. *)
Section lookup.
Variable String : option UDPAddr → bytes.

Definition unqueried (queried : list bytes) (shortlist : list node) : list node :=
  filter (λ n, String (n_address n) ∉ queried) shortlist.

Definition mark (queried : list bytes) (n : node) : list bytes :=
  if decide (String (n_address n) ∈ queried) then queried else String (n_address n) :: queried.

Fixpoint lookup_loop (fuel : nat) (queried : list bytes) (shortlist : list node) : outcome (list bytes) :=
  match fuel with
  | O => OutOfFuel
  | S fuel =>
      let u := unqueried queried shortlist in
      if (length u =? 0)%nat || (K <=? length queried)%nat then Ret queried
      else lookup_loop fuel (foldl mark queried (take (Nat.min ALPHA (length u)) u)) shortlist
  end.

Definition lookup (answer : node → option Z) (now : Z) (targetID : bytes) w : outcome (list node * W) :=
  let! '(r, w) := LatencyRouter.GetBestRoutes CbLatency answer (λ _, now) targetID ALPHA w in
  let shortlist := default [] r in
  let! _ := lookup_loop (S K) [] shortlist in
  let! ns := go_slice shortlist 0 (Z.min (Z.of_nat K) (zlen shortlist)) in
  Ret (ns, w).
End lookup.

(** ** Refreshing the routing table *)
Section refresh.
(** What the other goroutines do while [pingNode] waits; the flag says that the
    timer's case of the [select] is taken. *)
Variable wait : W → outcome (bool * W).

Definition pingNode (now : Z) (n : option node) w : outcome (bool * W) :=
  let p := length (a_pings (w_app w)) in
  let w := on_app (λ a, set_pings (a_pings a ++ [[]]) a) w in
  let '(rid, w) := fresh_rid w in
  let req := Events.eventPing rid (w_localID w) in
  let! '(li, w) := next_listener w in
  let! n := deref n in
  let! '(err, w) := request li now (n_address n) rid req (CbPing p (n_id n)) w in
  match err with
  | Some _ => Ret (false, w)
  | None =>
      let! '(timed_out, w) := wait w in
      if timed_out : bool then Ret (false, w)
      else
        let! c := go_index (a_pings (w_app w)) (Z.of_nat p) in
        match c with
        | res :: c => Ret (res, on_app (λ a, set_pings (<[p := c]> (a_pings a)) a) w)
        | [] => Blocked
        end
  end.

(** The loop of [refresh] for bucket [i], over the slots copied at its start. *)
Fixpoint refresh_loop (now : Z) (i : nat) (slots : list (option node)) w : outcome W :=
  match slots with
  | [] => Ret w
  | slot :: slots =>
      let! '(alive, w) := pingNode now slot w in
      if alive : bool then refresh_loop now i slots w
      else
        let! n := deref slot in
        let! b := go_index (RoutingTable.buckets (w_routing w)) (Z.of_nat i) in
        let! '(_, b) := Bucket.remove (n_id n) true b in
        refresh_loop now i slots (set_bucket i b w)
  end.

(** The random bytes, the printing of addresses and the answers to pings of
    the lookup in [fillBucket]. *)
Variables (rnd : nat → Z) (String : option UDPAddr → bytes) (answer : node → option Z).

Definition fill_lookup (now : Z) (i : nat) w : outcome (list node * W) :=
  let! targetID := generateRandomIDInBucket (w_localID w) (RoutingTable.getBucketIndex (Some i)) rnd in
  lookup String answer now targetID w.

Definition refresh (now : Z) (i : nat) w : outcome W :=
  let! b := go_index (RoutingTable.buckets (w_routing w)) (Z.of_nat i) in
  let! b := Bucket.lock b in
  let! w := refresh_loop now i (Bucket.nodes b) w in
  let! b := go_index (RoutingTable.buckets (w_routing w)) (Z.of_nat i) in
  let! '(w, b) := Bucket.fillBucket now (fill_lookup now i) w b in
  Ret (set_bucket i b w).

Definition refreshBuckets (now : Z) w : outcome W :=
  ofold (λ w i, refresh now i w) w (seq 0 (Z.to_nat KEY_BITS)).
End refresh.

(** [findWithLatency]: the journey is prepared and then dropped; only a search
    without nodes calls back. *)
Definition findWithLatency (answer : node → option Z) (now : Z) (key : bytes) w : outcome W :=
  let! '(bestNodes, w) := LatencyRouter.GetBestRoutes CbLatency answer (λ _, now) key 3 w in
  let f := length (a_journeys (w_app w)) in
  let w := on_app (λ a, set_journeys
    (a_journeys a ++ [Journey.newJourney (w_localID w) key (Z.of_nat K)]) a) w in
  if (length (default [] bestNodes) =? 0)%nat then Ret (user (FindFailed f ErrNoNodes) w)
  else
    let! '(_, w) := on_journey f (λ j,
      let! j := Journey.add journey_hash (Some <$> default [] bestNodes) j in Ret (tt, j)) w in
    Ret w.
End model.

(** ** Lemmas *)
Section proofs.
Context `{Env} `{GoSort} {St : Type} `{Storage St}.
Context (journey_hash : bytes → Z).
Abbreviation W := (world St cb app).
Implicit Types w : W.

Definition journey_at (f : nat) w (j : Journey.journey) : Prop := a_journeys (w_app w) !! f = Some j.

(** Only the state of the callbacks differs. *)
Definition same_but_app w w' : Prop := w' = set_app (w_app w') w.

Lemma same_but_app_refl w : same_but_app w w.
Proof. by destruct w. Qed.
Lemma same_but_app_trans w1 w2 w3 : same_but_app w1 w2 → same_but_app w2 w3 → same_but_app w1 w3.
Proof. unfold same_but_app. intros H12 H23. rewrite H23, H12. done. Qed.
Lemma same_but_app_user w c : same_but_app w (user c w).
Proof. done. Qed.

Lemma on_journey_ok {A} f (m : Journey.journey → outcome (A * Journey.journey)) w j x j' :
  journey_at f w j → m j = Ret (x, j') →
  ∃ w', on_journey f m w = Ret (x, w') ∧ journey_at f w' j' ∧ same_but_app w w' ∧
    a_log (w_app w') = a_log (w_app w).
Proof.
  intros Hj Hm. unfold on_journey. go_read Hj.
  rewrite Hm. cbn [obind]. eexists. split; [done|]. split_and!; [|done|done].
  unfold journey_at. cbn. apply list_lookup_insert_eq. by eapply lookup_lt_Some.
Qed.

(** Passing on the values of a response leaves the journey's counters alone. *)
Lemma deliver_ok f vs w j :
  journey_at f w j →
  ∃ w' j', ofold (deliver journey_hash f) w vs = Ret w' ∧ journey_at f w' j' ∧ same_but_app w w' ∧
    Journey.inflight j' = Journey.inflight j ∧ Journey.completed j' = Journey.completed j ∧
    Journey.outstanding j' = Journey.outstanding j ∧ Journey.routes j' = Journey.routes j ∧
    (∀ v, v ∈ vs → journey_hash (wv_value v) ∈ Journey.values j') ∧
    Journey.values j ⊆ Journey.values j'.
Proof.
  revert w j. induction vs as [|v vs IH]; intros w j Hj; cbn [ofold].
  { exists w, j. split_and!; [done|done|apply same_but_app_refl|done..| |done].
    intros v Hv. by apply not_elem_of_nil in Hv. }
  unfold deliver at 1.
  destruct (on_journey_ok f (λ j, Ret (Journey.seenValue journey_hash (wv_value v) j)) w j
    (Journey.seenValue journey_hash (wv_value v) j).1 (Journey.seenValue journey_hash (wv_value v) j).2 Hj)
    as (w1 & -> & Hj1 & Hw1 & _); [by destruct (Journey.seenValue _ _ _)|]. cbn [obind].
  set (w2 := if _ : bool then w1 else _).
  assert (Hw2 : same_but_app w w2 ∧ journey_at f w2 (Journey.seenValue journey_hash (wv_value v) j).2).
  { subst w2. destruct (_.1); [done|]. split; [|done]. by apply (same_but_app_trans w w1). }
  destruct Hw2 as [Hw2 Hj2].
  destruct (IH w2 _ Hj2) as (w' & j' & -> & Hj' & Hw' & I1 & I2 & I3 & I4 & I5 & I6).
  exists w', j'. split_and!; [done|done|by apply (same_but_app_trans w w2)|..];
    unfold Journey.seenValue in *; case_decide; simpl in *; try done.
  - intros u [->|Hu]%elem_of_cons; auto.
  - intros u [->|Hu]%elem_of_cons; [|auto]. apply I6. set_solver.
  - set_solver.
Qed.
End proofs.

(** ** Properties *)
Section claims.
Context `{Env} `{GoSort} {St : Type} `{Storage St}.
Context (journey_hash : bytes → Z).
Abbreviation W := (world St cb app).
Implicit Types w : W.

(** The answer of a node to a find value request while others are in flight. *)
Lemma values_answer now id key from f ev p w j :
  journey_at f w j → Journey.completed j = false → 1 < Journey.inflight j →
  e_payload ev = Some p → fv_values (as_FindValue p) ≠ [] →
  ∃ w' j', findValueCallback journey_hash now id key from f (Some ev) None w = Ret (false, w') ∧
    same_but_app w w' ∧ journey_at f w' j' ∧ Journey.completed j' = false ∧
    (∀ v, v ∈ fv_values (as_FindValue p) → journey_hash (wv_value v) ∈ Journey.values j').
Proof.
  intros Hj Hc Hi Hp Hv. unfold findValueCallback. cbn [obind].
  set (j0 := Journey.set_counters (Journey.remaining j) (Journey.inflight j - 1) j).
  destruct (on_journey_ok f (λ j, Ret (Journey.responseReceived j)) w j
    (false, (Journey.inflight j0 <? 1) && (Journey.routes j0 <? 1)%nat) j0 Hj) as (w1 & -> & Hj1 & Hw1 & _).
  { unfold Journey.responseReceived. rewrite (proj2 (Z.ltb_lt 0 (Journey.inflight j))) by lia.
    fold j0. by rewrite <-Hc. }
  cbn [obind]. rewrite Hp. destruct (fv_values (as_FindValue p)) as [|v0 vs0] eqn:Ev; [done|].
  cbn [length Nat.ltb Nat.leb]. rewrite <-Ev in *.
  destruct (on_journey_ok f (λ j, Ret (tt, Journey.addOutstanding journey_hash (e_sender ev)
    (fv_found (as_FindValue p)) j)) w1 j0 tt _ Hj1 eq_refl) as (w2 & -> & Hj2 & Hw2 & _). cbn [obind].
  destruct (on_journey_ok f (λ j, Ret (tt, Journey.removeOutstanding journey_hash (e_sender ev)
    (zlen (fv_values (as_FindValue p))) j)) w2 _ tt _ Hj2 eq_refl) as (w3 & -> & Hj3 & Hw3 & _).
  cbn [obind].
  destruct (deliver_ok journey_hash f (fv_values (as_FindValue p)) w3 _ Hj3)
    as (w4 & j4 & -> & Hj4 & Hw4 & I1 & I2 & _ & _ & I5 & _). cbn [obind].
  assert (Hfl : Journey.inflight j4 = Journey.inflight j - 1 ∧ Journey.completed j4 = false).
  { rewrite I1, I2. unfold Journey.removeOutstanding, Journey.addOutstanding.
    destruct (Journey.outstanding j0 !! _); by rewrite <-?Hc. }
  destruct Hfl as [Hfl Hc4].
  destruct (on_journey_ok f (λ j, Ret (Journey.finish false j)) w4 j4 false j4 Hj4)
    as (w5 & -> & Hj5 & Hw5 & _).
  { unfold Journey.finish. rewrite Hc4, Hfl, (proj2 (Z.ltb_lt 0 _)) by lia. done. }
  exists w5, j4. split_and!; [done| |done|done|done].
  apply (same_but_app_trans w w4); [|done]. apply (same_but_app_trans w w3); [|done].
  apply (same_but_app_trans w w2); [|done]. by apply (same_but_app_trans w w1).
Qed.

(** C13: a node that answers a find value request with values while other
    requests of the search are in flight is punished for it: its callback
    returns false, so its request stays registered although it was answered,
    and the sweep after the deadline takes it for a timeout and removes the
    node from the routing table. *)
Theorem helpful_node_evicted now now' key id from f t w j ev p :
  journey_at f w j → Journey.completed j = false → 1 < Journey.inflight j →
  e_payload ev = Some p → fv_values (as_FindValue p) ≠ [] →
  RoutingTable.wf (w_routing w) → valid_id id →
  w_requests w !! cache_hash (e_id ev) = Some (Cache.mkRequest (CbFindValue id key from f) t) →
  t < now' →
  ∃ w1 w2,
    Cache.callback cache_hash w_requests set_requests (run journey_hash now) (e_id ev) (Some ev) None w
      = Ret w1 ∧
    w_requests w1 = w_requests w ∧ w_routing w1 = w_routing w ∧
    Cache.cleanup w_requests set_requests (run journey_hash now') now' [cache_hash (e_id ev)] w1 = Ret w2 ∧
    (id ∉ Bucket.ids (RoutingTable.all_live (w_routing w2))).
Proof.
  intros Hj Hc Hi Hp Hv Hwf Hid Hreq Ht.
  destruct (values_answer now id key from f ev p w j Hj Hc Hi Hp Hv)
    as (w1 & j1 & E1 & Hw1 & Hj1 & Hc1 & _).
  exists w1. unfold Cache.callback. rewrite Hreq. cbn [Cache.callback_of run]. rewrite E1. cbn [obind].
  assert (Hreq1 : w_requests w1 = w_requests w) by (by rewrite Hw1).
  assert (Hrt1 : w_routing w1 = w_routing w) by (by rewrite Hw1).
  destruct (RoutingTable.remove_not_live id (w_routing w) Hwf Hid) as (r' & Er & _ & Hnot).
  unfold Cache.cleanup. cbn [ofold]. unfold Cache.cleanup_visit. rewrite Hreq1, Hreq.
  cbn [Cache.ttl Cache.callback_of run]. unfold After. rewrite (proj2 (Z.ltb_lt _ _) Ht).
  unfold findValueCallback. rewrite Hrt1, Er. cbn [obind].
  destruct (on_journey_ok f (λ j, Ret (Journey.responseReceived j)) (set_routing r' w1) j1
    (Journey.responseReceived j1).1 (Journey.responseReceived j1).2 Hj1) as (w2 & -> & Hj2 & Hw2 & _).
  { by destruct (Journey.responseReceived j1). }
  cbn [obind]. unfold Journey.responseReceived at 1. cbn [fst].
  set (jj := if 0 <? Journey.inflight j1 then _ else j1).
  assert (Hcj : Journey.completed jj = false) by (subst jj; by destruct (_ <? _)).
  rewrite Hcj. destruct (_ && _); cbn [obind]; eexists; (split_and!; [done..|]);
    unfold user, on_app; cbn [set_requests set_app w_routing]; rewrite Hw2; exact Hnot.
Qed.

Lemma decode_six a : length a = 6%nat → ∃ addr, Events.decode_address a = Ret addr.
Proof.
  intros Ha. destruct a as [|a0 [|a1 [|a2 [|a3 [|a4 [|a5 [|? ?]]]]]]]; try done. by eexists.
Qed.

Lemma response_nodes_ok id ns :
  Forall (λ n, length (wn_address n) = 6%nat) ns →
  ∃ xs, omapM (response_node (λ _, id)) ns = Ret xs ∧ Forall (λ x, n_id x = id) xs.
Proof.
  induction 1 as [|n ns Hn _ IH]; [by exists []|]. destruct IH as (xs & E & Hxs).
  destruct (decode_six _ Hn) as [addr Ea]. cbn [omapM]. unfold response_node at 1. rewrite Ea.
  cbn [obind]. rewrite E. cbn [obind]. eexists. split; [done|]. by constructor.
Qed.

Lemma on_journey_ext {A} f (m1 m2 : Journey.journey → outcome (A * Journey.journey)) w j :
  journey_at f w j → m1 j = m2 j → on_journey f m1 w = on_journey f m2 w.
Proof. intros Hj Hm. unfold on_journey. go_read Hj. by rewrite Hm. Qed.

(** A response that lists nodes and no values. *)
Definition lists_nodes (ev : Event) : Prop :=
  ∃ p, e_payload ev = Some p ∧ fv_values (as_FindValue p) = [] ∧ fv_nodes (as_FindValue p) ≠ [] ∧
    Forall (λ n, length (wn_address n) = 6%nat) (fv_nodes (as_FindValue p)).

(** C14: the search for a value does not use the nodes it is told about: every
    node listed in a response is given the identifier of the node that sent
    the response, which the journey has already asked, so all are skipped, and
    any two responses of that node that list nodes have the same effect. *)
Theorem find_ignores_listed_nodes now id key from f ev1 ev2 w j l asked :
  journey_at f w j → Journey.inv journey_hash j l asked → id ∈ asked → valid_id id →
  lists_nodes ev1 → lists_nodes ev2 →
  findValueCallback journey_hash now id key from f (Some ev1) None w =
  findValueCallback journey_hash now id key from f (Some ev2) None w.
Proof.
  intros Hj Hinv Hid Hval (p1 & P1 & V1 & N1 & F1) (p2 & P2 & V2 & N2 & F2).
  unfold findValueCallback. cbn [obind].
  destruct (on_journey_ok f (λ j, Ret (Journey.responseReceived j)) w j
    (Journey.responseReceived j).1 (Journey.responseReceived j).2 Hj) as (w1 & -> & Hj1 & _ & _).
  { by destruct (Journey.responseReceived j). }
  cbn [obind]. destruct (Journey.responseReceived j) as [[completed err] j1] eqn:Er. cbn [fst snd] in *.
  destruct completed; [done|]. rewrite P1, P2, V1, V2. cbn [length Nat.ltb Nat.leb].
  destruct (fv_nodes (as_FindValue p1)) as [|n1 ns1]; [done|].
  destruct (fv_nodes (as_FindValue p2)) as [|n2 ns2]; [done|]. cbn [length Nat.ltb Nat.leb].
  destruct (response_nodes_ok id _ F1) as (xs1 & -> & Hx1).
  destruct (response_nodes_ok id _ F2) as (xs2 & -> & Hx2). cbn [obind].
  assert (Hj1' : Journey.visited j1 = Journey.visited j ∧ Journey.destination j1 = Journey.destination j).
  { unfold Journey.responseReceived in Er. destruct (_ <? _) in Er; by injection Er as _ _ <-. }
  destruct Hj1' as [Evis Edst].
  assert (Hadd : ∀ xs, Forall (λ x, n_id x = id) xs → Journey.add journey_hash (Some <$> xs) j1 = Ret j1).
  { intros xs Hxs. apply Journey.add_visited; [rewrite Edst; apply Hinv|].
    eapply Forall_impl; [exact Hxs|]. intros x ->. split; [done|]. rewrite Evis.
    apply Hinv. set_solver. }
  erewrite (on_journey_ext f _ _ w1 j1 Hj1); [done|]. cbv beta. by rewrite !Hadd.
Qed.

(** [m] good responses to the requests of a store operation. *)
Definition responses (s m : nat) w : outcome W :=
  ofold (λ w (_ : nat), let! '(_, w) := store_callback s None w in Ret w) w (seq 0 m).

Lemma store_responses_ok s n m w :
  a_stores (w_app w) !! s = Some (mkStoreOp 0 n) → 0 ≤ n ≤ 20 → Z.of_nat m < 2 ^ 31 →
  ∃ w', responses s m w = Ret w' ∧
    a_stores (w_app w') !! s = Some (mkStoreOp (Z.of_nat m) n) ∧
    a_log (w_app w') = a_log (w_app w) ++
      (if (1 <=? n - 1) && (n - 1 <=? Z.of_nat m) then [Stored s None] else []).
Proof.
  intros Hs Hn. unfold responses. induction m as [|m IH]; intros Hm.
  { exists w. split_and!; [done..|]. change (Z.of_nat 0) with 0.
    destruct (Z.leb_spec 1 (n - 1)), (Z.leb_spec (n - 1) 0); simpl; lia || by rewrite app_nil_r. }
  destruct IH as (w1 & E & Hs1 & Hl1); [lia|]. rewrite seq_S, ofold_app, E. cbn [obind ofold].
  unfold store_callback. rewrite (go_index_Some _ _ _ Hs1). cbn [obind so_responses so_nodes].
  pose proof (lookup_lt_Some _ _ _ Hs1). rewrite !i32_small by lia.
  replace (Z.of_nat (S m)) with (Z.of_nat m + 1) by lia.
  destruct (Z.eqb_spec (Z.of_nat m + 1) (n - 1)) as [En|En]; cbn [obind]; eexists; (split; [done|]);
    (split; [cbn; by apply list_lookup_insert_eq|]); cbn [a_log w_app user on_app set_app log_call set_stores];
    rewrite Hl1.
  - rewrite <-app_assoc. f_equal.
    destruct (Z.leb_spec 1 (n - 1)), (Z.leb_spec (n - 1) (Z.of_nat m)), (Z.leb_spec (n - 1) (Z.of_nat m + 1));
      simpl; done || lia.
  - f_equal. destruct (Z.leb_spec 1 (n - 1)), (Z.leb_spec (n - 1) (Z.of_nat m)),
      (Z.leb_spec (n - 1) (Z.of_nat m + 1)); simpl; done || lia.
Qed.

(** C37: a store to [n] selected nodes reports success on the [n-1]-th good
    response.  That is once, on the last response, if the node itself is one
    of the [n] (then [n-1] requests are sent); but if all [n] are other nodes
    success is reported before the last response, and for a single other node
    ([n = 1]) it is never reported. *)
Theorem store_success_count s n w :
  a_stores (w_app w) !! s = Some (mkStoreOp 0 n) → 1 ≤ n ≤ 20 →
  (2 ≤ n → ∃ w', responses s (Z.to_nat (n - 2)) w = Ret w' ∧ a_log (w_app w') = a_log (w_app w)) ∧
  (2 ≤ n → ∃ w', responses s (Z.to_nat (n - 1)) w = Ret w' ∧
    a_log (w_app w') = a_log (w_app w) ++ [Stored s None]) ∧
  (∃ w', responses s (Z.to_nat n) w = Ret w' ∧
    a_log (w_app w') = a_log (w_app w) ++ (if n =? 1 then [] else [Stored s None])).
Proof.
  intros Hs Hn. split_and!; intros.
  - destruct (store_responses_ok s n (Z.to_nat (n - 2)) w Hs) as (w' & E & _ & Hl); [lia|lia|].
    exists w'. split; [done|]. rewrite Hl.
    destruct (Z.leb_spec (n - 1) (Z.of_nat (Z.to_nat (n - 2)))); [lia|].
    by rewrite andb_false_r, app_nil_r.
  - destruct (store_responses_ok s n (Z.to_nat (n - 1)) w Hs) as (w' & E & _ & Hl); [lia|lia|].
    exists w'. split; [done|]. rewrite Hl, (proj2 (Z.leb_le 1 (n - 1))),
      (proj2 (Z.leb_le (n - 1) (Z.of_nat (Z.to_nat (n - 1))))) by lia. done.
  - destruct (store_responses_ok s n (Z.to_nat n) w Hs) as (w' & E & _ & Hl); [lia|lia|].
    exists w'. split; [done|]. rewrite Hl.
    rewrite (proj2 (Z.leb_le (n - 1) (Z.of_nat (Z.to_nat n)))) by lia.
    destruct (Z.eqb_spec n 1) as [->|]; [done|]. by rewrite (proj2 (Z.leb_le 1 (n - 1))) by lia.
Qed.

(** Choosing a listener. *)
Lemma next_listener_spec w :
  let cl := a_cl (w_app w) in
  let n := zlen (w_batches w) in
  0 < n < 2 ^ 31 → - 2 ^ 31 ≤ cl < 2 ^ 31 →
  (0 ≤ cl → ∃ w', next_listener w = Ret (Z.to_nat (cl mod n), w') ∧
    a_cl (w_app w') = i32 (cl + 1) ∧ same_but_app w w') ∧
  (cl < 0 → Z.rem cl n ≠ 0 → next_listener w = Panic IndexOutOfRange).
Proof.
  intros cl n Hn Hcl. unfold next_listener. cbn [on_app set_app w_batches]. fold cl n.
  assert (Ei : i32 (i32 (cl + 1) - 1) = cl).
  { clearbody cl. destruct (Z.eq_dec cl (2 ^ 31 - 1)) as [->|]; [done|].
    rewrite (i32_small (cl + 1)), i32_small by lia. lia. }
  rewrite Ei, (i32_small n) by lia. split.
  - intros Hpos. rewrite Z.rem_mod_nonneg by lia.
    pose proof (Z.mod_pos_bound cl n). destruct (go_index_len (w_batches w) (cl mod n)) as (b & -> & _);
      [unfold n in *; lia|]. cbn [obind]. eexists. split; [done|]. split; [done|]. done.
  - intros Hneg Hrem. rewrite go_index_panics; [done|]. left.
    pose proof (Z.rem_bound_pos_neg cl n ltac:(lia) ltac:(lia)). lia.
Qed.

(** C38: requests go round the listeners in turn as long as the counter has not
    wrapped; once the 32-bit counter is negative the index is negative too,
    unless the number of listeners divides the counter, and choosing a
    listener panics. *)
Theorem listener_choice w :
  let cl := a_cl (w_app w) in
  let n := zlen (w_batches w) in
  0 < n < 2 ^ 31 → - 2 ^ 31 ≤ cl < 2 ^ 31 →
  (0 ≤ cl → ∃ w', next_listener w = Ret (Z.to_nat (cl mod n), w') ∧
    a_cl (w_app w') = i32 (cl + 1) ∧ same_but_app w w') ∧
  (cl < 0 → Z.rem cl n ≠ 0 → next_listener w = Panic IndexOutOfRange).
Proof. apply next_listener_spec. Qed.

(** The rounds of [lookup] end: each one marks at least one more address. *)
Lemma mark_length S q n : (length q ≤ length (mark S q n))%nat.
Proof. unfold mark. case_decide; simpl; lia. Qed.

Lemma foldl_mark_length S l q : (length q ≤ length (foldl (mark S) q l))%nat.
Proof.
  revert q. induction l as [|n l IH]; intros q; simpl; [lia|].
  pose proof (mark_length S q n). specialize (IH (mark S q n)). lia.
Qed.

Lemma lookup_loop_total S fuel q shortlist :
  (K - length q < fuel)%nat → ∃ q', lookup_loop S fuel q shortlist = Ret q'.
Proof.
  revert q. induction fuel as [|fuel IH]; intros q Hf; [lia|]. cbn [lookup_loop].
  destruct (unqueried S q shortlist) as [|n u] eqn:Eu; [by eexists|]. cbn [length Nat.eqb orb].
  destruct (Nat.leb_spec K (length q)) as [Hk|Hk]; [by eexists|]. apply IH.
  assert (Hn : S (n_address n) ∉ q).
  { assert (Hin : n ∈ unqueried S q shortlist) by (rewrite Eu; set_solver).
    by apply list_elem_of_filter in Hin as [? _]. }
  assert (Et : ∃ l, take (Nat.min ALPHA (Datatypes.S (length u))) (n :: u) = n :: l) by (by eexists).
  destruct Et as [l ->]. simpl foldl. pose proof (foldl_mark_length S l (mark S q n)) as Hm.
  unfold mark in Hm at 1. rewrite decide_False in Hm by done. simpl in Hm. lia.
Qed.

(** The lookup used to fill buckets always ends, within K rounds, but its
    rounds only mark addresses as queried: apart from the pings that measure the
    latencies no request is sent, and the result is the list of at most ALPHA
    routes that were known at the start. *)
Theorem lookup_is_local S answer now target w r w' :
  LatencyRouter.GetBestRoutes CbLatency answer (λ _, now) target ALPHA w = Ret (r, w') →
  lookup S answer now target w = Ret (default [] r, w') ∧ (length (default [] r) ≤ ALPHA)%nat.
Proof.
  intros Er.
  assert (Hl : (length (default [] r) ≤ ALPHA)%nat).
  { unfold LatencyRouter.GetBestRoutes in Er. apply obind_Ret in Er as (cs & _ & Er).
    destruct (length cs =? 0)%nat; [injection Er as <- _; cbn; lia|].
    apply obind_Ret in Er as ([ls w1] & _ & [= <- _]). cbn [default].
    etrans; [apply omap_length_le|]. rewrite length_take. lia. }
  split; [|done]. unfold lookup. rewrite Er. cbn [obind].
  destruct (lookup_loop_total S (Datatypes.S K) [] (default [] r)) as [q Eq]; [cbn [length]; lia|].
  rewrite Eq. cbn [obind]. change 0 with (Z.of_nat 0). unfold zlen.
  rewrite Z.min_r by (unfold ALPHA, K in *; lia).
  rewrite go_slice_ok by lia. by rewrite drop_0, Nat.sub_0_r, take_ge.
Qed.

(** ** Periodic tasks *)
Definition seen_recently (now : Z) (n : node) : Prop := now < n_seen n + 30 * minute.
#[local] Instance seen_recently_dec now n : Decision (seen_recently now n).
Proof. unfold seen_recently. apply _. Defined.

Lemma recent_filter now l ns : ofold (recent now) ns l = Ret (ns ++ filter (seen_recently now) l).
Proof.
  revert ns. induction l as [|n l IH]; intros ns; cbn [ofold].
  { by rewrite app_nil_r. }
  unfold recent at 1. cbn [obind]. rewrite IH, filter_cons. unfold seen_recently, After, Add.
  change (Z.quot hour 2) with (30 * minute).
  destruct (Z.ltb_spec now (n_seen n + 30 * minute)); case_decide; try lia; [|done].
  by rewrite <-app_assoc.
Qed.

(** The monitor, which should ping the nodes not heard of for half an
    hour, selects the others: exactly the live nodes seen within that time. *)
Theorem monitor_pings_recent now t :
  RoutingTable.wf t →
  monitored now t = Ret (filter (λ n, now < n_seen n + 30 * minute) (RoutingTable.all_live t)).
Proof.
  intros (_ & _ & Hb). unfold monitored, RoutingTable.all_live.
  assert (Hw : Forall Bucket.wf (RoutingTable.buckets t)).
  { apply Forall_lookup. intros i b Hi. by apply Hb in Hi as [? _]. }
  clear Hb. revert Hw. generalize (RoutingTable.buckets t). intros bs Hw.
  enough (Hgen : ∀ ns, ofold (λ ns b, let! '(ns, _) := Bucket.iterate (Bucket.visitor (recent now)) ns b in Ret ns)
    ns bs = Ret (ns ++ filter (λ n, now < n_seen n + 30 * minute) (bs ≫= Bucket.live))) by apply Hgen.
  induction Hw as [|b bs Hb _ IH]; intros ns; cbn [ofold]; [by rewrite app_nil_r|].
  rewrite Bucket.iterate_visitor, recent_filter by done. cbn [obind]. rewrite IH, bind_cons, filter_app.
  by rewrite app_assoc.
Qed.

(** A refresh reaches every slot that was copied: on a nil one it panics. *)
Lemma pingNode_nil wait now w r : pingNode wait now None w ≠ Ret r.
Proof.
  unfold pingNode. cbv zeta. destruct (fresh_rid _) as [rid w1].
  by destruct (next_listener w1) as [[li w2]| | |].
Qed.

Lemma refresh_loop_nil wait now i slots w w' : None ∈ slots → refresh_loop wait now i slots w ≠ Ret w'.
Proof.
  revert w. induction slots as [|slot slots IH]; intros w Hin E; [set_solver|]. cbn [refresh_loop] in E.
  destruct slot as [n|].
  - assert (Hn : None ∈ slots) by set_solver.
    apply obind_Ret in E as ([alive w1] & _ & E). destruct alive; [by eapply IH|].
    cbn [deref obind] in E. apply obind_Ret in E as (b & _ & E).
    apply obind_Ret in E as ([r b'] & _ & E). by eapply IH.
  - apply obind_Ret in E as ([alive w1] & E & _). by eapply pingNode_nil.
Qed.

(** The refresh of bucket 0, up to the loop over its slots. *)
Lemma refresh_0 wait rnd String answer now b w :
  RoutingTable.wf (w_routing w) → RoutingTable.buckets (w_routing w) !! 0%nat = Some b →
  refresh wait rnd String answer now 0 w =
    let! w := refresh_loop wait now 0 (Bucket.nodes b) w in
    let! b := go_index (RoutingTable.buckets (w_routing w)) (Z.of_nat 0) in
    let! '(w, b) := Bucket.fillBucket now (fill_lookup rnd String answer now 0) w b in
    Ret (set_bucket 0 b w).
Proof.
  intros (_ & _ & Hbs) Hb. destruct (Hbs _ _ Hb) as [Hwfb _]. assert (Hmu : Bucket.mu b = false) by apply Hwfb.
  unfold refresh. go_read Hb. unfold Bucket.lock. by rewrite Hmu.
Qed.

(** In a table whose bucket 0 has an unused slot the refresh does not return. *)
Lemma refreshBuckets_stuck wait rnd String answer now w w' :
  RoutingTable.wf (w_routing w) → RoutingTable.last_nil0 (w_routing w) →
  refreshBuckets wait rnd String answer now w ≠ Ret w'.
Proof.
  intros Hwf (b & Hb & Hl) Ew. unfold refreshBuckets in Ew. change (Z.to_nat KEY_BITS) with (S 255) in Ew.
  cbn [seq ofold] in Ew. apply obind_Ret in Ew as (w1 & Er & _).
  rewrite (refresh_0 _ _ _ _ _ b) in Er by done. apply obind_Ret in Er as (w2 & Er & _).
  eapply (refresh_loop_nil _ _ _ _ _ _ ltac:(by eapply list_elem_of_lookup_2)), Er.
Qed.

(** C17: the hourly refresh of the routing table never completes.  It pings
    every slot of every bucket, used or not, and bucket 0, to which only two
    identifiers belong, has an unused slot in every table that the node can
    have: the refresh panics there, whatever the other nodes answer and
    whatever else happens meanwhile.  With bucket 0 still empty it panics
    right away. *)
Theorem refresh_never_completes wait rnd String answer now n ops w :
  valid_id (n_id n) → Forall (λ o, valid_id (RoutingTable.op_id o)) ops →
  ofold RoutingTable.step (RoutingTable.newRoutingTable n) ops = Ret (w_routing w) →
  (∀ w', refreshBuckets wait rnd String answer now w ≠ Ret w') ∧
  (∀ b, RoutingTable.buckets (w_routing w) !! 0%nat = Some b → Bucket.nodes b !! 0%nat = Some None →
    0 < zlen (w_batches w) < 2 ^ 31 → 0 ≤ a_cl (w_app w) < 2 ^ 31 →
    refreshBuckets wait rnd String answer now w = Panic NilDereference).
Proof.
  intros Hn Hops E. destruct (RoutingTable.reachable_last_nil0 n ops _ Hn Hops E) as [Hwf Hnil]. split.
  - intros w'. by apply refreshBuckets_stuck.
  - intros b Hb Hs Hz Hcl. unfold refreshBuckets. change (Z.to_nat KEY_BITS) with (S 255). cbn [seq ofold].
    rewrite (refresh_0 _ _ _ _ _ b) by done.
    destruct (Bucket.nodes b) as [|s sl] eqn:Enodes; [done|]. injection Hs as ->. cbn [refresh_loop].
    unfold pingNode. cbv zeta. cbn [fresh_rid].
    set (w1 := set_rids _ _). destruct (next_listener_spec w1) as [Hok _]; [done|cbn; lia|].
    destruct Hok as (w2 & -> & _); [cbn; lia|]. done.
Qed.
End claims.

(** Over the in-memory storage the periodic refresh of keys does nothing:
    it asks the storage for the values created from this instant on, of which
    there are none, so no key is ever stored again. *)
Theorem refreshKeys_inert `{Env} `{GoSort} hash range now (w : world (gmap Z Memory.item) cb app) :
  Memory.unlocked (w_storage w) → IsZero now = false →
  (∀ k it, w_storage w !! k = Some it → Forall (λ v, v_Created v < now) (Memory.values it)) →
  @refreshKeys _ _ _ _ (Memory.Memory_Storage hash range) now w = Ret w.
Proof.
  intros Hun Hz Hold. unfold refreshKeys. cbn [st_Iterate Memory.Memory_Storage].
  rewrite (Memory.iterate_visits_all _ (λ ks v, ks ++ [v_Key v])) by done. cbn [obind].
  set (keys := foldl _ _ _). clearbody keys.
  replace (set_storage (w_storage w) w) with w by (by destruct w).
  induction keys as [|key keys IH]; [done|]. cbn [ofold].
  assert (Hk : @refresh_key _ _ _ _ (Memory.Memory_Storage hash range) now w key = Ret w).
  { unfold refresh_key. cbn [st_Get Memory.Memory_Storage]. unfold Memory.Get.
    destruct (w_storage w !! hash key) as [it|] eqn:Ek; [|done]. rewrite Hz.
    rewrite Memory.from_index_all by (by apply (Hold (hash key))). by rewrite Nat.leb_refl. }
  rewrite Hk. cbn [obind]. apply IH.
Qed.

(** ** A concrete node *)
Definition dht_world (cl : Z) (js : list Journey.journey) (ss : list store_op)
    (reqs : gmap Z (Cache.request cb)) (s : gmap Z Memory.item) : world (gmap Z Memory.item) cb app :=
  mkWorld (id_of 0) 60 demo_table reqs s ∅ [mkBatch [] 2; mkBatch [] 2; mkBatch [] 2] [] 0 (mkApp cl js ss [] []).

Definition searching : Journey.journey :=
  Journey.set_counters 19 2 (Journey.newJourney (id_of 0) (id_of 5) 20).

Definition values_event : @Event tagged_Tables :=
  mkEvent tagged_Tables (id_of 4) (id_of 3) FIND_VALUE true
    (Some (TFindValue (mkFindValue [] [mkWireValue (id_of 5) [10] 60 0] [] 0 1))).

Definition awaiting : gmap Z (Cache.request cb) :=
  {[be (id_of 4) := Cache.mkRequest (CbFindValue (id_of 3) (id_of 5) 0 0) 60]}.

Lemma helpful_node_evicted_witness :
  RoutingTable.knows (w_routing (dht_world 0 [searching] [] awaiting ∅)) (id_of 3) = true ∧
    ∃ w1 w3, @Cache.callback _ _ _ be w_requests set_requests
        (@run _ (demo_Env false) insertion_GoSort _ be 10) (id_of 4) (Some values_event) None
        (dht_world 0 [searching] [] awaiting ∅) = Ret w1 ∧
      @Cache.cleanup _ _ _ w_requests set_requests
        (@run _ (demo_Env false) insertion_GoSort _ be 61) 61 [be (id_of 4)] w1 = Ret w3 ∧
      (id_of 3 ∉ Bucket.ids (RoutingTable.all_live (w_routing w3))).
Proof.
  split; [vm_compute; reflexivity|].
  destruct (@helpful_node_evicted _ (demo_Env false) insertion_GoSort _ be 10 61 (id_of 5)
    (id_of 3) 0 0 60 (dht_world 0 [searching] [] awaiting ∅) searching values_event
    (TFindValue (mkFindValue [] [mkWireValue (id_of 5) [10] 60 0] [] 0 1))) as (w1 & w3 & E1 & _ & _ & E3 & Hn).
  - reflexivity.
  - reflexivity.
  - reflexivity.
  - reflexivity.
  - discriminate.
  - apply demo_table_wf.
  - decided.
  - vm_compute. reflexivity.
  - reflexivity.
  - exists w1, w3. split; [exact E1|]. split; [exact E3|exact Hn].
Defined.

Definition nodes_event (b : Z) : @Event tagged_Tables :=
  mkEvent tagged_Tables (id_of 4) (id_of 3) FIND_VALUE true
    (Some (TFindValue (mkFindValue [] [] [mkWireNode (id_of b) [127; 0; 0; 1; 0; b]] 0 0))).

Definition asked_ops : list Journey.op :=
  [Journey.OpAdd [mkNode (id_of 3) None 0 0 0 0 false]; Journey.OpNext 3].

Lemma find_ignores_listed_nodes_witness :
  ∃ j lg, @Journey.run insertion_GoSort be (id_of 0) (id_of 5) 20 asked_ops = Ret (j, lg) ∧
    @findValueCallback _ (demo_Env false) insertion_GoSort _ be 10 (id_of 3) (id_of 5) 0 0
      (Some (nodes_event 7)) None (dht_world 0 [j] [] ∅ ∅) =
    @findValueCallback _ (demo_Env false) insertion_GoSort _ be 10 (id_of 3) (id_of 5) 0 0
      (Some (nodes_event 8)) None (dht_world 0 [j] [] ∅ ∅).
Proof.
  destruct (@Journey.run_logged insertion_GoSort be (id_of 0) (id_of 5) 20 asked_ops
    ltac:(decided) ltac:(lia)) as (j & lg & E & ([l Hinv] & _)).
  { apply Forall_cons. split; [decided|]. apply Forall_cons. split; [exact I|apply Forall_nil; exact I]. }
  exists j, lg. split; [exact E|].
  apply (@find_ignores_listed_nodes _ (demo_Env false) insertion_GoSort _ be 10 (id_of 3) (id_of 5) 0 0
    (nodes_event 7) (nodes_event 8) (dht_world 0 [j] [] ∅ ∅) j l (Journey.asked lg)).
  - reflexivity.
  - exact Hinv.
  - vm_compute in E. injection E as _ <-. decided.
  - decided.
  - eexists. split; [reflexivity|]. split; [reflexivity|]. split; [discriminate|decided].
  - eexists. split; [reflexivity|]. split; [reflexivity|]. split; [discriminate|decided].
Defined.

Lemma store_success_count_witness :
  ∃ w', responses 0 2 (dht_world 0 [] [mkStoreOp 0 3] ∅ ∅) = Ret w' ∧ a_log (w_app w') = [Stored 0 None].
Proof.
  destruct (store_success_count 0 3 (dht_world 0 [] [mkStoreOp 0 3] ∅ ∅) eq_refl ltac:(lia))
    as (_ & H & _). apply H. lia.
Defined.

Lemma listener_choice_witness :
  (∃ w', next_listener (dht_world 7 [] [] ∅ ∅) = Ret (1%nat, w')) ∧
  next_listener (dht_world (-4) [] [] ∅ ∅) = Panic IndexOutOfRange.
Proof.
  split.
  - destruct (listener_choice (dht_world 7 [] [] ∅ ∅)) as [H _].
    + split; apply Z.ltb_lt; reflexivity.
    + split; [apply Z.leb_le|apply Z.ltb_lt]; reflexivity.
    + destruct H as (w' & E & _); [apply Z.leb_le; reflexivity|]. exists w'. exact E.
  - apply (listener_choice (dht_world (-4) [] [] ∅ ∅)).
    + split; apply Z.ltb_lt; reflexivity.
    + split; [apply Z.leb_le|apply Z.ltb_lt]; reflexivity.
    + apply Z.ltb_lt. reflexivity.
    + vm_compute. discriminate.
Defined.

Definition no_string (_ : option UDPAddr) : bytes := [].

Definition routed_world : world (gmap Z Memory.item) cb app :=
  set_routing LatencyRouter.demo_table (dht_world 0 [] [] ∅ ∅).

Lemma lookup_is_local_witness :
  ∃ ns w', @lookup _ (demo_Env false) insertion_GoSort _ no_string LatencyRouter.demo_answer 100 (id_of 1)
      routed_world = Ret (ns, w') ∧
    Bucket.ids ns = [id_of 9; id_of 3].
Proof.
  assert (∃ r w', @LatencyRouter.GetBestRoutes _ (demo_Env false) _ _ _ CbLatency LatencyRouter.demo_answer
    (λ _, 100) insertion_GoSort (id_of 1) ALPHA routed_world = Ret (r, w') ∧ Bucket.ids (default [] r) = [id_of 9; id_of 3])
    as (r & w' & E & Hr).
  { do 2 eexists. split; vm_compute; reflexivity. }
  destruct (@lookup_is_local _ (demo_Env false) insertion_GoSort _ no_string LatencyRouter.demo_answer 100 (id_of 1)
    routed_world r w' E) as [El _].
  exists (default [] r), w'. split; [exact El|exact Hr].
Defined.

Lemma monitor_pings_recent_witness :
  monitored 2 demo_table = Ret (RoutingTable.all_live demo_table).
Proof.
  rewrite (monitor_pings_recent 2 demo_table demo_table_wf). vm_compute. reflexivity.
Defined.

Lemma refresh_never_completes_witness :
  @refreshBuckets _ (demo_Env false) insertion_GoSort _ (λ w, Ret (true, w)) (λ _, 0) no_string
    LatencyRouter.demo_answer 100 (dht_world 0 [] [] ∅ ∅) = Panic NilDereference.
Proof.
  destruct (@refresh_never_completes _ (demo_Env false) insertion_GoSort _ (λ w, Ret (true, w)) (λ _, 0) no_string
    LatencyRouter.demo_answer 100 RoutingTable.local0 [RoutingTable.OpInsert 1 (id_of 3) None 0 false]
    (dht_world 0 [] [] ∅ ∅)) as [_ H].
  - decided.
  - decided.
  - vm_compute. reflexivity.
  - apply (H Bucket.empty).
    + vm_compute. reflexivity.
    + reflexivity.
    + split; [apply Z.ltb_lt|apply Z.ltb_lt]; reflexivity.
    + split; [apply Z.leb_le|apply Z.ltb_lt]; reflexivity.
Defined.

Lemma refreshKeys_inert_witness :
  @refreshKeys _ (demo_Env false) insertion_GoSort _ demo_Storage 100
    (dht_world 0 [] [] ∅ {[5 := Memory.demo_item [Memory.value_at 1 5 160]]}) =
  Ret (dht_world 0 [] [] ∅ {[5 := Memory.demo_item [Memory.value_at 1 5 160]]}).
Proof.
  apply (@refreshKeys_inert _ (demo_Env false) insertion_GoSort Memory.demo_hash (λ s, (map_to_list s).*1) 100).
  - apply map_Forall_singleton. reflexivity.
  - reflexivity.
  - intros k it Hk. cbn [w_storage dht_world] in Hk. apply lookup_singleton_Some in Hk as [_ <-].
    apply Forall_cons. split; [cbn; lia|apply Forall_nil; exact I].
Defined.

End Dht.
