(* ===== verification/Exchange.v ===== *)
(** * Two nodes: a store request and its response

    Composes the sending side, the wire and the receiving side: node A registers
    a request and writes its event, node B assembles the datagram, handles the
    request and writes the response, node A assembles that and runs the callback.
    The nodes share the encoding of events; each has its own storage, hashes,
    request identifiers and packet buffers. *)
From stdpp Require Import base list numbers gmap.
From Stdlib Require Import Lia.
From S2P Require Import Prelude Keyspace Bucket RoutingTable Journey Packet.
From S2P Require Import Storage Event Cache Listener LatencyRouter Dht.
Local Open Scope Z_scope.

Module Exchange.
Import Listener Dht.

(** ** One side *)
Section side.
Context `{Env} `{GoSort} {St : Type} `{Storage St}.
Context (journey_hash : bytes → Z) (stale : option error).
Abbreviation W := (world St cb app).
Implicit Types w : W.

(** An event that fits into one datagram and is understood. *)
Definition fits (e : Event) : Prop :=
  0 < zlen (encode e) ≤ Packet.MaxPayloadSize ∧ decode (encode e) = Ret e.

Lemma fits_fragmentable e : fits e → zlen (encode e) ≤ Packet.max_fragmentable.
Proof.
  intros [[_ Hs] _]. etrans; [exact Hs|]. apply Z.leb_le. vm_compute. reflexivity.
Qed.

Lemma fits_wires rid e : length rid = 32%nat → fits e → Packet.wires rid (encode e) = [Packet.wire rid (encode e) 0].
Proof.
  intros Hid [Hs _].
  destruct (Packet.assemble_single packet_hash Packet.fresh 0 rid (encode e) ∅ Hid Hs) as (HF & _).
  unfold Packet.wires. by rewrite HF.
Qed.

(** Registering and writing a request. *)
Lemma request_sent li now to rid e c w :
  socket_ok → pool_ok → ready li w → length rid = 32%nat → fits e →
  ∃ w', request li now to rid e c w = Ret (None, w') ∧
    w_requests w' = <[cache_hash rid := Cache.mkRequest c (Add now (w_timeout w))]> (w_requests w) ∧
    outgoing li w' = outgoing li w ++ [mkMessage to (Packet.wire rid (encode e) 0)].
Proof.
  intros Hs Hp Hr Hid Hf. unfold request. set (w1 := Cache.set _ _ _ _ _ _ _).
  destruct (write_ok li to rid (encode e) w1 Hs Hp Hr Hid (fits_fragmentable e Hf)) as (w' & E & Hw & _ & Ho).
  exists w'. split_and!; [done|by rewrite Hw|]. rewrite Ho, fits_wires by done. done.
Qed.

(** Handling a store request from a known node. *)
Lemma store_handled li now addr rid sender vs w w1 :
  socket_ok → pool_ok → ready li w → length rid = 32%nat → valid_id sender →
  RoutingTable.wf (w_routing w) → RoutingTable.knows (w_routing w) sender = true →
  Forall wire_safe vs → fits (Events.eventStoreRequest rid sender vs) →
  fits (Events.eventStoreResponse rid (w_localID w)) →
  ofold (set_value now) w vs = Ret w1 →
  ∃ w', process_one CbTransfer (run journey_hash now) stale li now addr
      (Packet.wire rid (encode (Events.eventStoreRequest rid sender vs)) 0) w = Ret w' ∧
    w_storage w' = w_storage w1 ∧ w_requests w' = w_requests w ∧ w_app w' = w_app w ∧
    outgoing li w' = outgoing li w ++
      [mkMessage addr (Packet.wire rid (encode (Events.eventStoreResponse rid (w_localID w))) 0)].
Proof.
  intros Hs Hp Hr Hid Hsnd Hwf Hk Hvs Hf Hf' Ew. set (e := Events.eventStoreRequest rid sender vs) in *.
  destruct (process_known CbTransfer (run journey_hash now) stale li now addr rid e w Hid (proj1 Hf) (proj2 Hf) Hsnd Hwf Hk)
    as (t & _ & ->). cbn zeta. unfold handle. subst e. change (e_response _) with false. change (e_event _) with STORE. cbv iota.
  rewrite store_request_stores by done.
  assert (Hset : ∀ w0 w1, ofold (set_value now) w0 vs = Ret w1 → ∃ s, w1 = set_storage s w0 ∧
    ∀ w2, w_storage w2 = w_storage w0 → ofold (set_value now) w2 vs = Ret (set_storage s w2)).
  { clear. induction vs as [|v vs IH]; intros w0 w1 E; cbn [ofold] in E.
    - injection E as <-. exists (w_storage w0). split; [by destruct w0|]. intros w2 <-. by destruct w2.
    - apply obind_Ret in E as (w3 & E3 & E). unfold set_value in E3. apply obind_Ret in E3 as ([b s] & Es & [= <-]).
      destruct (IH _ _ E) as (s' & -> & Hw). exists s'. split; [done|]. intros w2 Hw2. cbn [ofold].
      unfold set_value at 1. rewrite Hw2, Es. cbn [obind]. by rewrite Hw. }
  destruct (Hset _ _ Ew) as (s & -> & Hgo). rewrite (Hgo (set_routing t w)) by done. cbn [obind].
  set (w2 := set_storage s (set_routing t w)). change (w_localID w2) with (w_localID w).
  destruct (write_ok li addr rid (encode (Events.eventStoreResponse rid (w_localID w))) w2 Hs Hp Hr Hid
    (fits_fragmentable _ Hf')) as (w' & E & Hw & _ & Ho).
  rewrite E. cbn [obind]. exists w'. rewrite fits_wires in Ho by done. rewrite Ho, Hw. done.
Qed.

(** The response reaches the callback of the store operation. *)
Lemma response_counted li now addr rid sender op t o w :
  length rid = 32%nat → valid_id sender → RoutingTable.wf (w_routing w) →
  RoutingTable.knows (w_routing w) sender = true → fits (Events.eventStoreResponse rid sender) →
  w_requests w !! cache_hash rid = Some (Cache.mkRequest (CbStore op) t) →
  a_stores (w_app w) !! op = Some o →
  ∃ w', process_one CbTransfer (run journey_hash now) stale li now addr
      (Packet.wire rid (encode (Events.eventStoreResponse rid sender)) 0) w = Ret w' ∧
    w_requests w' = delete (cache_hash rid) (w_requests w) ∧
    a_stores (w_app w') !! op = Some (mkStoreOp (i32 (so_responses o + 1)) (so_nodes o)) ∧
    a_log (w_app w') = a_log (w_app w) ++
      (if i32 (so_responses o + 1) =? i32 (so_nodes o - 1) then [Stored op None] else []).
Proof.
  intros Hid Hsnd Hwf Hk [Hsz Hdec] Hreq Ho. set (e := Events.eventStoreResponse rid sender) in *.
  destruct (process_known CbTransfer (run journey_hash now) stale li now addr rid e w Hid Hsz Hdec Hsnd Hwf Hk)
    as (rt & _ & ->). cbn zeta. subst e. change (e_response _) with true. change (e_id _) with rid. cbv iota. unfold Cache.callback.
  cbn [w_requests set_routing]. rewrite Hreq. cbn [Cache.callback_of run]. unfold store_callback.
  cbn [w_app set_routing]. rewrite (go_index_Some _ _ _ Ho). cbn [obind]. pose proof (lookup_lt_Some _ _ _ Ho).
  destruct (_ =? _); cbn [obind]; eexists; (split; [done|]); cbn; rewrite ?app_nil_r;
    (split_and!; [done|by apply list_lookup_insert_eq|done]).
Qed.
End side.

(** ** Properties *)
Section exchange.
Context {T : Tables} (EA EB : Env) `{GoSort} {StA StB : Type} (SA : Storage StA) (SB : Storage StB).
Context (hashA hashB : bytes → Z) (errA errB : option error).

(** Both nodes run the same encoding. *)
Hypothesis same_encode : ∀ e, @encode _ EB e = @encode _ EA e.
Hypothesis same_decode : ∀ d, @decode _ EB d = @decode _ EA d.

Lemma fits_same e : @fits _ EA e → @fits _ EB e.
Proof. unfold fits. by rewrite same_encode, same_decode. Qed.

(** C8: a store request reaches the other node and its response comes back.  The
    request of node A goes out in one datagram; node B, which knows A, stores
    exactly the values that A put into it, with their times, and answers in one
    datagram; and in whatever state A is when that arrives, as long as the
    request is still registered, it is taken off the cache, the store operation
    counts one more response, and success is reported if that was the last one
    awaited. *)
Theorem store_exchange la lb nowA nowB addrA addrB rid vs op (wa : world StA cb app) (wb wb1 : world StB cb app) :
  @socket_ok _ EA → @pool_ok _ EA → ready la wa → @socket_ok _ EB → @pool_ok _ EB → ready lb wb →
  length rid = 32%nat → valid_id (w_localID wa) → valid_id (w_localID wb) →
  RoutingTable.wf (w_routing wb) → RoutingTable.knows (w_routing wb) (w_localID wa) = true →
  Forall wire_safe vs → @fits _ EA (Events.eventStoreRequest rid (w_localID wa) vs) →
  @fits _ EA (Events.eventStoreResponse rid (w_localID wb)) →
  ofold (set_value nowB) wb vs = Ret wb1 →
  ∃ wa' wb' request_datagram response_datagram,
    @request _ EA _ _ _ la nowA addrB rid (Events.eventStoreRequest rid (w_localID wa) vs) (CbStore op) wa
      = Ret (None, wa') ∧
    outgoing la wa' = outgoing la wa ++ [mkMessage addrB request_datagram] ∧
    @process_one _ EB _ _ SB _ _ CbTransfer (@run _ EB _ _ hashB nowB) errB lb nowB addrA request_datagram wb
      = Ret wb' ∧
    w_storage wb' = w_storage wb1 ∧
    outgoing lb wb' = outgoing lb wb ++ [mkMessage addrA response_datagram] ∧
    ∀ now wa2 t o, RoutingTable.wf (w_routing wa2) →
      RoutingTable.knows (w_routing wa2) (w_localID wb) = true →
      w_requests wa2 !! @cache_hash _ EA rid = Some (Cache.mkRequest (CbStore op) t) →
      a_stores (w_app wa2) !! op = Some o →
      ∃ wa3, @process_one _ EA _ _ SA _ _ CbTransfer (@run _ EA _ _ hashA now) errA la now addrB response_datagram wa2
          = Ret wa3 ∧
        w_requests wa3 = delete (@cache_hash _ EA rid) (w_requests wa2) ∧
        a_stores (w_app wa3) !! op = Some (mkStoreOp (i32 (so_responses o + 1)) (so_nodes o)) ∧
        a_log (w_app wa3) = a_log (w_app wa2) ++
          (if i32 (so_responses o + 1) =? i32 (so_nodes o - 1) then [Stored op None] else []).
Proof.
  intros HsA HpA HrA HsB HpB HrB Hid HvA HvB Hwf Hk Hvs Hf Hf' Ew.
  destruct (request_sent la nowA addrB rid _ (CbStore op) wa HsA HpA HrA Hid Hf) as (wa' & Ea & _ & Hoa).
  destruct (store_handled hashB errB lb nowB addrA rid (w_localID wa) vs wb wb1 HsB HpB HrB Hid HvA Hwf Hk Hvs
    (fits_same _ Hf) (fits_same _ Hf') Ew) as (wb' & Eb & Hst & _ & _ & Hob).
  rewrite !same_encode in Eb, Hob. exists wa', wb'. do 2 eexists.
  split_and!; [done|done|done|done|done|]. intros now wa2 t o Hwf2 Hk2 Hreq Ho.
  by eapply response_counted.
Qed.
End exchange.

(** ** Two concrete nodes

    A toy encoding of store requests with one value and of store responses. *)
Definition toy_encode (e : @Event tagged_Tables) : bytes :=
  match e_payload e with
  | Some (TStore (mkStore [v])) =>
      1 :: e_id e ++ e_sender e ++ zlen (wv_key v) :: wv_key v ++ wv_ttl v :: wv_created v :: wv_value v
  | _ => 0 :: e_id e ++ e_sender e
  end.

Definition toy_decode (b : bytes) : outcome (@Event tagged_Tables) :=
  match b with
  | 0 :: r => Ret (@Events.eventStoreResponse tagged_Tables (take 32 r) (drop 32 r))
  | 1 :: r =>
      match drop 64 r with
      | k :: rest =>
          match drop (Z.to_nat k) rest with
          | ttl :: created :: value =>
              Ret (mkEvent tagged_Tables (take 32 r) (take 32 (drop 32 r)) STORE false
                (Some (TStore (mkStore [mkWireValue (take (Z.to_nat k) rest) value ttl created]))))
          | _ => Panic SliceOutOfRange
          end
      | _ => Panic SliceOutOfRange
      end
  | _ => Panic SliceOutOfRange
  end.

Definition toy_Env : @Env tagged_Tables := {|
  encode := toy_encode;
  decode := toy_decode;
  WriteBatch q s := (length q, None);
  cache_hash := be;
  packet_hash := be;
  pseudorandomID n := id_of (Z.of_nat n);
  pooled _ := Packet.fresh;
|}.

Definition local3 : node := mkNode (id_of 3) None 0 0 0 0 false.
Definition table3 : RoutingTable.routingTable :=
  match RoutingTable.insert 1 (id_of 0) None 0 false (RoutingTable.newRoutingTable local3) with
  | Ret t => t
  | _ => RoutingTable.newRoutingTable local3
  end.
Lemma table3_wf : RoutingTable.wf table3.
Proof.
  apply (RoutingTable.reachable_wf local3 [RoutingTable.OpInsert 1 (id_of 0) None 0 false]);
    [decided|decided|]. vm_compute. reflexivity.
Qed.

Abbreviation demo_W := (world (gmap Z Memory.item) cb app).
Definition node_a : demo_W := dht_world 0 [] [mkStoreOp 0 2] ∅ ∅.
Definition node_b : demo_W :=
  mkWorld (id_of 3) 60 table3 ∅ ∅ ∅ [mkBatch [] 2] [] 0 (mkApp 0 [] [] [] []).
Definition sent_value : Value := mkValue (id_of 5) [10] 60 (unix_epoch + 5) 0.

Definition node_b1 : outcome demo_W := ofold (@set_value _ demo_Storage cb app 200) node_b [sent_value].

(** A later state of node A: the request is registered. *)
Definition node_a2 : demo_W := set_requests {[be (id_of 4) := Cache.mkRequest (CbStore 0) 60]} node_a.

Lemma store_exchange_witness :
  ∃ (wb1 wb' : demo_W) wa3 d1 d2,
    @process_one _ toy_Env insertion_GoSort _ demo_Storage _ _ CbTransfer
      (@run _ toy_Env insertion_GoSort _ be 200) None 0 200 addr1 d1 node_b = Ret wb' ∧
    node_b1 = Ret wb1 ∧ w_storage wb' = w_storage wb1 ∧
    @process_one _ toy_Env insertion_GoSort _ demo_Storage _ _ CbTransfer
      (@run _ toy_Env insertion_GoSort _ be 300) None 0 300 addr1 d2 node_a2 = Ret wa3 ∧
    w_requests wa3 = ∅ ∧ a_log (w_app wa3) = [Stored 0 None].
Proof.
  assert (∃ wb1, node_b1 = Ret wb1) as [wb1 E1] by (eexists; vm_compute; reflexivity).
  destruct (@store_exchange _ toy_Env toy_Env insertion_GoSort _ _ demo_Storage demo_Storage be be None None
    (λ _, eq_refl) (λ _, eq_refl) 0 0 100 200 addr1 addr1 (id_of 4) [sent_value] 0 node_a node_b wb1)
    as (wa' & wb' & d1 & d2 & _ & _ & Eb & Hst & _ & Hback).
  - intros q s. reflexivity.
  - intros n. vm_compute. reflexivity.
  - exists (mkBatch [] 2). split; [reflexivity|]. cbn. lia.
  - intros q s. reflexivity.
  - intros n. vm_compute. reflexivity.
  - exists (mkBatch [] 2). split; [reflexivity|]. cbn. lia.
  - reflexivity.
  - decided.
  - decided.
  - apply table3_wf.
  - vm_compute. reflexivity.
  - apply Forall_cons. split; [|apply Forall_nil; exact I]. unfold wire_safe, sent_value. cbn. lia.
  - split; [split; [apply Z.ltb_lt|apply Z.leb_le]; vm_compute; reflexivity|vm_compute; reflexivity].
  - split; [split; [apply Z.ltb_lt|apply Z.leb_le]; vm_compute; reflexivity|vm_compute; reflexivity].
  - exact E1.
  - destruct (Hback 300 node_a2 60 (mkStoreOp 0 2)) as (wa3 & E3 & Hr & _ & Hl).
    + apply demo_table_wf.
    + vm_compute. reflexivity.
    + reflexivity.
    + reflexivity.
    + exists wb1, wb', wa3, d1, d2. split; [exact Eb|]. split; [exact E1|]. split; [exact Hst|].
      split; [exact E3|]. split; [rewrite Hr; vm_compute; reflexivity|exact Hl].
Defined.
End Exchange.
