(* ===== verification/Search.v ===== *)
(** * Two nodes: a search and its answers

    Composes the components once more, for a request whose answer does not fit
    into one datagram, nor even into one event.  Node B answers a find value
    request with all its values, split into events of about 64 KB that are split
    into datagrams; node A assembles each event from its datagrams, which may
    arrive in any order, and runs the callback of the search for each event. *)
From stdpp Require Import base list numbers sets gmap.
From Stdlib Require Import Lia.
From S2P Require Import Prelude Keyspace Bucket RoutingTable Journey Packet.
From S2P Require Import Storage Event Cache Listener LatencyRouter Dht Exchange.
Local Open Scope Z_scope.

Module Search.
Import Listener Dht Exchange.

(** ** Events that arrive in several datagrams *)
Section reception.
Context `{Env} `{GoSort} {St : Type} `{Storage St} {CB App : Type}.
Abbreviation W := (world St CB App).
Implicit Types w : W.
Context (transfer_cb : CB) (run : Z → CB → option Event → option error → W → outcome (bool * W)) (stale : option error).

(** When a datagram arrives, from where, and the datagram. *)
Definition arrival : Type := Z * option UDPAddr * bytes.

Definition process_all (li : nat) w (arrivals : list arrival) : outcome W :=
  ofold (λ w '(now, addr, d), process_one transfer_cb (run now) stale li now addr d w) w arrivals.

(** What [process] does with an event once it is complete. *)
Definition dispatch (li : nat) (now : Z) (addr : option UDPAddr) (e : Event) w : outcome W :=
  let! '(known, r) := RoutingTable.seen now (e_sender e) (w_routing w) in
  let w := set_routing r w in
  let! w := (if known : bool then Ret w
             else
               let! r := RoutingTable.insert now (e_sender e) addr 0 false (w_routing w) in
               Ret (set_routing r w)) in
  if e_response e then
    Cache.callback cache_hash w_requests set_requests (run now) (e_id e) (Some e) None w
  else
    let! '(err, w) := handle stale li now e addr w in
    match err with
    | Some _ => Ret w
    | None => if known : bool then Ret w else transferKeys transfer_cb li now addr (e_sender e) w
    end.

(** An event that can be sent and understood. *)
Definition sendable (e : Event) : Prop := 0 < zlen (encode e) ≤ 65535 ∧ decode (encode e) = Ret e.

(** No part of an event with this identifier has arrived. *)
Definition unseen_packet (rid : bytes) w : Prop :=
  w_packets w !! packet_hash rid = None ∧ Packet.wf_packets (w_packets w).

Lemma process_complete li now addr d p ps e w :
  Packet.assemble packet_hash (pooled (w_rids w)) now d (w_packets w) = Ret (Some p, ps) →
  Packet.data p = Ret (encode e) → decode (encode e) = Ret e →
  process_one transfer_cb (run now) stale li now addr d w = dispatch li now addr e (set_packets ps w).
Proof. intros E Hp Hd. unfold process_one, dispatch. rewrite E. cbn [obind]. rewrite Hp. cbn [obind]. by rewrite Hd. Qed.

Lemma process_incomplete li now addr d ps w :
  Packet.assemble packet_hash (pooled (w_rids w)) now d (w_packets w) = Ret (None, ps) →
  process_one transfer_cb (run now) stale li now addr d w = Ret (set_packets ps w).
Proof. intros E. unfold process_one. by rewrite E. Qed.

(** A datagram of an event leaves the packets of the others alone. *)
Lemma wire_frame pool now rid d i m r m' :
  length rid = 32%nat → zlen d ≤ 65535 → i ∈ seq 0 (Z.to_nat (Packet.fragments d)) →
  zlen (Packet.buf pool) = Packet.buffer_size → Packet.wf_packets m →
  Packet.assemble packet_hash pool now (Packet.wire rid d i) m = Ret (r, m') →
  ∀ k, k ≠ packet_hash rid → m' !! k = m !! k.
Proof.
  intros Hid Hd Hi%elem_of_seq Hpool Hm E k Hk.
  assert (Hfr : Packet.fragments d ≤ 89).
  { apply Packet.fragments_bound. etrans; [exact Hd|]. apply Z.leb_le. vm_compute. reflexivity. }
  destruct (Packet.wire_fields rid d i Hid ltac:(lia)) as (W1 & _ & _ & _ & _ & W6).
  destruct (Packet.assemble_frame packet_hash pool now _ m W6 Hpool Hm) as (r' & m1 & E' & _ & Hf).
  rewrite E in E'. injection E' as <- <-. apply Hf. unfold Packet.filed_at. rewrite W1. case_decide; congruence.
Qed.

Lemma arrivals_complete li rid e t0 arrivals got rest w :
  pool_ok → length rid = 32%nat → Packet.MaxPayloadSize < zlen (encode e) ≤ 65535 →
  decode (encode e) = Ret e → Forall (λ a : arrival, t0 ≤ a.1.1) arrivals →
  Packet.wf_packets (w_packets w) →
  got ++ rest ≡ₚ seq 0 (Z.to_nat (Packet.fragments (encode e))) → rest ≠ [] →
  arrivals.*2 ≡ₚ Packet.wire rid (encode e) <$> rest →
  Packet.received (encode e) (packet_hash rid) t0 got (w_packets w) →
  ∃ now addr ps, process_all li w arrivals = dispatch li now addr e (set_packets ps w) ∧
    ps !! packet_hash rid = None ∧ Packet.wf_packets ps ∧
    (∀ k, k ≠ packet_hash rid → ps !! k = w_packets w !! k) ∧ now ∈ arrivals.*1.*1.
Proof.
  intros Hpool Hid Hd Hdec Ht0. revert got rest w.
  induction Ht0 as [|[[now addr] d] arrivals Hnow _ IH]; intros got rest w Hwf Hperm Hne Harr Hrec.
  { symmetry in Harr. by apply Permutation_nil_r, fmap_nil_inv in Harr. }
  simpl in Hnow, Harr.
  assert (d ∈ Packet.wire rid (encode e) <$> rest) as (i & -> & Hi)%list_elem_of_fmap by (rewrite <-Harr; set_solver).
  apply elem_of_Permutation in Hi as [rest' Hr]. rewrite Hr in Harr, Hperm. apply Permutation_cons_inv in Harr.
  destruct (Packet.assemble_own packet_hash (pooled (w_rids w)) now rid (encode e) t0 got i rest' (w_packets w))
    as (r & ps & E & Hps & Hcase); try done.
  assert (Hfr : ∀ k, k ≠ packet_hash rid → ps !! k = w_packets w !! k).
  { apply (wire_frame (pooled (w_rids w)) now rid (encode e) i (w_packets w) r ps); [done|lia| |apply Hpool|done|done].
    rewrite <-Hperm. set_solver. }
  unfold process_all. cbn [ofold]. case_decide as Hl.
  - subst rest'. apply Permutation_nil_r, fmap_nil_inv in Harr. subst arrivals. destruct Hcase as [Hr1 Hk].
    destruct r as [p|]; [|done]. injection Hr1 as Hr1.
    rewrite (process_complete li now addr _ p ps e) by done. cbn [ofold].
    exists now, addr, ps. rewrite obind_ret_r. split_and!; [done..|]. cbn. set_solver.
  - destruct Hcase as [-> Hrec']. rewrite (process_incomplete _ _ _ _ ps) by done. cbn [obind].
    destruct (IH (i :: got) rest' (set_packets ps w)) as (now' & addr' & ps' & E' & Hk & Hps' & Hfr' & Hin); [done| |done..|].
    { rewrite <-Hperm. by rewrite <-Permutation_middle. }
    exists now', addr', ps'. split_and!; [exact E'|done|done| |cbn; set_solver].
    intros k Hne'. rewrite (Hfr' k Hne'). by apply Hfr.
Qed.

(** However its datagrams are ordered, an event is handled as one, when the last
    of them arrives. *)
Lemma event_received li rid e arrivals w :
  pool_ok → length rid = 32%nat → sendable e → unseen_packet rid w →
  arrivals.*2 ≡ₚ Packet.wires rid (encode e) →
  ∃ now addr ps, process_all li w arrivals = dispatch li now addr e (set_packets ps w) ∧
    unseen_packet rid (set_packets ps w) ∧
    (∀ k, k ≠ packet_hash rid → ps !! k = w_packets w !! k) ∧ now ∈ arrivals.*1.*1.
Proof.
  intros Hpool Hid [Hd Hdec] [Hk Hwf] Harr.
  destruct (decide (zlen (encode e) ≤ Packet.MaxPayloadSize)) as [Hs|Hs].
  - destruct arrivals as [|[[now addr] d] arrivals].
    + unfold Packet.wires in Harr. destruct (Packet.assemble_single packet_hash (pooled 0) 0 rid (encode e) ∅ Hid) as [HF _];
        [lia|]. rewrite HF in Harr. by apply Permutation_nil_cons in Harr.
    + destruct (Packet.assemble_single packet_hash (pooled (w_rids w)) now rid (encode e) (w_packets w) Hid)
        as (HF & p & E & Hp); [lia|].
      unfold Packet.wires in Harr. rewrite HF in Harr. simpl in Harr.
      assert (arrivals = []) as ->.
      { apply Permutation_length in Harr. simpl in Harr. rewrite length_fmap in Harr. destruct arrivals; [done|simpl in *; lia]. }
      apply Permutation_singleton_r in Harr. injection Harr as ->.
      unfold process_all. cbn [ofold]. rewrite (process_complete li now addr _ p (w_packets w) e) by done.
      rewrite obind_ret_r. exists now, addr, (w_packets w). split_and!; [done..|]. cbn. set_solver.
  - set (t0 := foldr (λ (a : arrival) s, Z.min a.1.1 s) 0 arrivals).
    assert (Ht0 : Forall (λ a : arrival, t0 ≤ a.1.1) arrivals).
    { subst t0. clear. induction arrivals as [|[[now addr] d] l IH]; constructor; simpl; [lia|].
      eapply Forall_impl; [exact IH|]. simpl. intros a Ha. lia. }
    pose proof (Packet.fragments_pos (encode e)) as Hf.
    destruct (arrivals_complete li rid e t0 arrivals [] (seq 0 (Z.to_nat (Packet.fragments (encode e)))) w)
      as (now & addr & ps & E & Hk' & Hwf' & Hfr & Hin); try done; [lia| |].
    + specialize (Hf ltac:(unfold zlen in Hd; lia)). by destruct (Z.to_nat (Packet.fragments (encode e))) eqn:En; [lia|].
    + by exists now, addr, ps.
Qed.

(** An event of a node that the table knows. *)
Lemma dispatch_known li now addr e w :
  valid_id (e_sender e) → RoutingTable.wf (w_routing w) →
  RoutingTable.knows (w_routing w) (e_sender e) = true →
  ∃ t, RoutingTable.wf t ∧ RoutingTable.knows t (e_sender e) = true ∧
    dispatch li now addr e w =
      let w := set_routing t w in
      if e_response e then
        Cache.callback cache_hash w_requests set_requests (run now) (e_id e) (Some e) None w
      else let! '(_, w) := handle stale li now e addr w in Ret w.
Proof.
  intros Hid Hwf Hk. rewrite RoutingTable.knows_spec in Hk by done.
  destruct (RoutingTable.table_seen_spec now (e_sender e) (w_routing w) Hwf Hid) as (t & E & Hwf' & Hl & Hids).
  rewrite Hk in E. exists t. split; [done|]. split.
  - rewrite RoutingTable.knows_spec by done. apply bool_decide_eq_true in Hk. apply bool_decide_eq_true.
    assert (Hh : RoutingTable.home t (e_sender e) = RoutingTable.home (w_routing w) (e_sender e))
      by (unfold RoutingTable.home; by rewrite Hl).
    rewrite Hh. unfold RoutingTable.entries_at, Bucket.ids in *.
    destruct (Hids (RoutingTable.home (w_routing w) (e_sender e))) as [Hlive Hcache]; [by apply RoutingTable.home_range|].
    by rewrite fmap_app, Hlive, Hcache, <-fmap_app.
  - unfold dispatch. rewrite E. cbn [obind]. cbv zeta. destruct (e_response e); [done|].
    destruct (handle _ _ _ _ _ _) as [[[]]| | |]; done.
Qed.
End reception.

(** ** What a search makes of the answers *)
Section answers.
Context `{Env} `{GoSort} {St : Type} `{Storage St}.
Context (journey_hash : bytes → Z) (stale : option error).
Abbreviation W := (world St cb app).
Implicit Types w : W.

(** The values that are new to a search that has passed on those in [seen]. *)
Fixpoint unseen (seen : gset Z) (vs : list bytes) : list bytes :=
  match vs with
  | [] => []
  | v :: vs =>
      if decide (journey_hash v ∈ seen) then unseen seen vs
      else v :: unseen ({[journey_hash v]} ∪ seen) vs
  end.

Definition hashes (vs : list bytes) : gset Z := list_to_set (journey_hash <$> vs).

Lemma unseen_app seen vs ws : unseen seen (vs ++ ws) = unseen seen vs ++ unseen (seen ∪ hashes vs) ws.
Proof.
  revert seen. induction vs as [|v vs IH]; intros seen; cbn [unseen Datatypes.app].
  { f_equal. unfold hashes. set_solver. }
  assert (Hh : hashes (v :: vs) = {[journey_hash v]} ∪ hashes vs) by done. rewrite Hh.
  case_decide; rewrite IH; cbn [Datatypes.app].
  - by replace (seen ∪ ({[journey_hash v]} ∪ hashes vs)) with (seen ∪ hashes vs) by set_solver.
  - by replace (seen ∪ ({[journey_hash v]} ∪ hashes vs)) with ({[journey_hash v]} ∪ seen ∪ hashes vs) by set_solver.
Qed.

Lemma deliver_exact f vs w j :
  journey_at f w j →
  ∃ w', ofold (deliver journey_hash f) w vs = Ret w' ∧ same_but_app w w' ∧
    journey_at f w' (Journey.set_values (Journey.values j ∪ hashes (wv_value <$> vs)) j) ∧
    a_log (w_app w') = a_log (w_app w) ++ (FoundValue f <$> unseen (Journey.values j) (wv_value <$> vs)).
Proof.
  revert w j. induction vs as [|v vs IH]; intros w j Hj; cbn [ofold].
  { exists w. split_and!; [done|apply same_but_app_refl| |by rewrite app_nil_r].
    unfold hashes. cbn. rewrite union_empty_r_L. by destruct j. }
  unfold deliver at 1. rewrite fmap_cons. cbn [unseen].
  set (sv := Journey.seenValue journey_hash (wv_value v)).
  destruct (on_journey_ok f (λ j, Ret (sv j)) w j (sv j).1 (sv j).2 Hj) as (w1 & -> & Hj1 & Hw1 & Hl1);
    [by destruct (sv j)|]. cbn [obind]. unfold sv, Journey.seenValue in *. case_decide; cbn [fst snd] in *.
  - destruct (IH w1 j Hj1) as (w' & -> & Hw' & Hj' & Hl'). exists w'.
    split_and!; [done|by apply (same_but_app_trans w w1)| |by rewrite Hl', Hl1].
    replace (Journey.values j ∪ hashes (wv_value v :: (wv_value <$> vs))) with (Journey.values j ∪ hashes (wv_value <$> vs));
      [done|]. unfold hashes. set_solver.
  - destruct (IH (user (FoundValue f (wv_value v)) w1) _ Hj1) as (w' & -> & Hw' & Hj' & Hl'). exists w'.
    split_and!; [done| | |].
    + apply (same_but_app_trans w w1); [done|]. by apply (same_but_app_trans w1 (user (FoundValue f (wv_value v)) w1)).
    + replace (Journey.values j ∪ hashes (wv_value v :: (wv_value <$> vs)))
        with ({[journey_hash (wv_value v)]} ∪ Journey.values j ∪ hashes (wv_value <$> vs)); [done|].
      unfold hashes. set_solver.
    + rewrite Hl'. cbn. by rewrite Hl1, <-app_assoc.
Qed.

(** The journey after an answer of [sender] that announces [found] values and
    carries [vs]. *)
Definition answered (sender : bytes) (found : Z) (vs : list bytes) (j : Journey.journey) : Journey.journey :=
  Journey.set_values (Journey.values j ∪ hashes vs)
    (Journey.removeOutstanding journey_hash sender (zlen vs)
      (Journey.addOutstanding journey_hash sender found (Journey.responseReceived j).2)).

Lemma answer_processed now id key from f ev p w j :
  journey_at f w j → Journey.completed j = false → e_payload ev = Some p →
  let t := as_FindValue p in
  fv_values t ≠ [] →
  let r := Journey.finish false (answered (e_sender ev) (fv_found t) (wv_value <$> fv_values t) j) in
  ∃ w', findValueCallback journey_hash now id key from f (Some ev) None w = Ret (r.1, w') ∧
    same_but_app w w' ∧ journey_at f w' r.2 ∧
    a_log (w_app w') = a_log (w_app w) ++
      (FoundValue f <$> unseen (Journey.values j) (wv_value <$> fv_values t)).
Proof.
  intros Hj Hc Hp t Hv r. unfold findValueCallback. cbn [obind].
  set (rr := Journey.responseReceived j).
  destruct (on_journey_ok f (λ j, Ret (Journey.responseReceived j)) w j rr.1 rr.2 Hj) as (w1 & E1 & Hj1 & Hw1 & Hl1);
    [by subst rr; destruct (Journey.responseReceived j)|]. rewrite E1. clear E1. cbn [obind].
  assert (Hc1 : rr.1.1 = false ∧ Journey.values rr.2 = Journey.values j).
  { subst rr. unfold Journey.responseReceived. by destruct (0 <? Journey.inflight j). }
  destruct Hc1 as [Hc1 Hvals]. destruct rr.1 as [c se] eqn:Err. simpl in Hc1. subst c. cbv iota.
  rewrite Hp. fold t. rewrite (proj2 (Nat.ltb_lt 0 (length (fv_values t)))) by (destruct (fv_values t); simpl; [done|lia]).
  destruct (on_journey_ok f (λ j, Ret (tt, Journey.addOutstanding journey_hash (e_sender ev) (fv_found t) j))
    w1 rr.2 tt _ Hj1 eq_refl) as (w2 & -> & Hj2 & Hw2 & Hl2). cbn [obind].
  destruct (on_journey_ok f (λ j, Ret (tt, Journey.removeOutstanding journey_hash (e_sender ev) (zlen (fv_values t)) j))
    w2 _ tt _ Hj2 eq_refl) as (w3 & -> & Hj3 & Hw3 & Hl3). cbn [obind].
  destruct (deliver_exact f (fv_values t) w3 _ Hj3) as (w4 & -> & Hw4 & Hj4 & Hl4). cbn [obind].
  assert (Hv3 : ∀ n m k, Journey.values (Journey.removeOutstanding journey_hash k n
    (Journey.addOutstanding journey_hash k m rr.2)) = Journey.values j).
  { intros n m k. unfold Journey.removeOutstanding, Journey.addOutstanding. by case_match. }
  rewrite Hv3 in Hj4, Hl4.
  assert (Hr : r = Journey.finish false (Journey.set_values (Journey.values j ∪ hashes (wv_value <$> fv_values t))
    (Journey.removeOutstanding journey_hash (e_sender ev) (zlen (fv_values t))
      (Journey.addOutstanding journey_hash (e_sender ev) (fv_found t) rr.2)))).
  { subst r. unfold answered. do 3 f_equal. unfold zlen. by rewrite length_fmap. }
  rewrite Hr. set (jr := Journey.finish false _).
  destruct (on_journey_ok f (λ j, Ret (Journey.finish false j)) w4 _ jr.1 jr.2 Hj4) as (w5 & -> & Hj5 & Hw5 & Hl5);
    [subst jr; by rewrite <-surjective_pairing|].
  exists w5. split_and!; [done| |done|by rewrite Hl5, Hl4, Hl3, Hl2, Hl1].
  apply (same_but_app_trans w w4); [|done]. apply (same_but_app_trans w w3); [|done].
  apply (same_but_app_trans w w2); [|done]. by apply (same_but_app_trans w w1).
Qed.

(** Of the [total] values that [sender] announced, [r] have arrived, and nothing
    else is awaited. *)
Definition expecting (sender : bytes) (total r : Z) (j : Journey.journey) : Prop :=
  Journey.completed j = false ∧ Journey.inflight j ≤ (if decide (r = 0) then 1 else 0) ∧
  Journey.outstanding j = if decide (r = 0) then ∅ else {[journey_hash sender := total - r]}.

Lemma answered_progress sender total r vs j :
  0 ≤ r → 0 < zlen vs → r + zlen vs ≤ total < 2 ^ 63 → expecting sender total r j →
  let j' := answered sender total vs j in
  Journey.values j' = Journey.values j ∪ hashes vs ∧
  if decide (r + zlen vs = total) then
    (Journey.finish false j').1 = true ∧ Journey.completed (Journey.finish false j').2 = true
  else Journey.finish false j' = (false, j') ∧ expecting sender total (r + zlen vs) j'.
Proof.
  intros Hr Hvs Htot (Hc & Hi & Ho) j'. split; [done|].
  assert (Hj' : Journey.completed j' = false ∧ Journey.inflight j' ≤ 0 ∧
    Journey.outstanding j' = {[journey_hash sender := total - (r + zlen vs)]}).
  { subst j'. unfold answered, Journey.removeOutstanding, Journey.addOutstanding, Journey.responseReceived.
    assert (Hout : ∀ b : bool, Journey.outstanding (if b then Journey.set_counters (Journey.remaining j)
      (Journey.inflight j - 1) j else j) = Journey.outstanding j) by (by intros []).
    cbn [snd]. rewrite Hout, Ho. case_decide as Hz.
    - subst r. rewrite lookup_empty. cbn. destruct (Z.ltb_spec 0 (Journey.inflight j)); cbn; rewrite ?Ho, lookup_insert_eq; cbn;
        (split_and!; [done|lia|]); rewrite insert_insert_eq, i64_small by lia; rewrite insert_empty; by rewrite Z.add_0_l.
    - rewrite lookup_singleton_eq. cbn. destruct (Z.ltb_spec 0 (Journey.inflight j)); cbn; rewrite Ho, lookup_singleton_eq; cbn;
        (split_and!; [done|lia|]); rewrite insert_singleton_eq, i64_small by lia; f_equal; lia. }
  destruct Hj' as (Hc' & Hi' & Ho').
  assert (Hsum : Journey.outstanding_sum j' = total - (r + zlen vs)).
  { unfold Journey.outstanding_sum. rewrite Ho', map_fold_singleton, i64_small by lia. lia. }
  unfold Journey.finish. rewrite Hc', Hsum, (proj2 (Z.ltb_ge 0 (Journey.inflight j'))) by lia. cbn [orb].
  clear Hi Ho. case_decide as Hlast.
  - by rewrite (proj2 (Z.ltb_ge 0 (total - (r + zlen vs)))) by lia.
  - rewrite (proj2 (Z.ltb_lt 0 (total - (r + zlen vs)))) by lia. split; [done|]. unfold expecting. rewrite !decide_False by lia. done.
Qed.

(** An answer with the values [g], [total] in all. *)
Definition answer (rid sender : bytes) (total : Z) (g : list Value) : Event :=
  Events.eventFindValueFoundResponse rid sender g total.

(** The state of node A while it waits for the answers of [sender] to the request
    [rid] of search [f], [r] of [total] values being there. *)
Record waiting (rid sender key : bytes) (from : Z) (f : nat) (total r : Z) (j : Journey.journey) w : Prop := {
  wait_packets : unseen_packet rid w;
  wait_table : RoutingTable.wf (w_routing w);
  wait_known : RoutingTable.knows (w_routing w) sender = true;
  wait_request : ∃ id t, w_requests w !! cache_hash rid = Some (Cache.mkRequest (CbFindValue id key from f) t);
  wait_journey : journey_at f w j;
  wait_values : expecting sender total r j;
}.

Abbreviation receive := (process_all CbTransfer (run journey_hash) stale).

(** One more answer. *)
Lemma answer_received li rid sender key from f total r j arrivals g w :
  pool_ok → length rid = 32%nat → valid_id sender → sendable (answer rid sender total g) →
  waiting rid sender key from f total r j w → 0 ≤ r → g ≠ [] → r + zlen g ≤ total < 2 ^ 63 →
  arrivals.*2 ≡ₚ Packet.wires rid (encode (answer rid sender total g)) →
  ∃ w' j', receive li w arrivals = Ret w' ∧ journey_at f w' j' ∧
    w_storage w' = w_storage w ∧
    a_log (w_app w') = a_log (w_app w) ++ (FoundValue f <$> unseen (Journey.values j) (v_Value <$> g)) ∧
    if decide (r + zlen g = total) then
      w_requests w' = delete (cache_hash rid) (w_requests w) ∧ Journey.completed j' = true
    else
      waiting rid sender key from f total (r + zlen g) j' w' ∧ w_requests w' = w_requests w ∧
      Journey.values j' = Journey.values j ∪ hashes (v_Value <$> g).
Proof.
  intros Hpool Hid Hsnd Hsend [Hpk Hwf Hk (id & t & Hreq) Hj Hexp] Hr Hg Htot Harr.
  destruct (event_received CbTransfer (run journey_hash) stale li rid _ arrivals w Hpool Hid Hsend Hpk Harr)
    as (now & addr & ps & -> & Hpk' & _).
  destruct (dispatch_known CbTransfer (run journey_hash) stale li now addr (answer rid sender total g) (set_packets ps w)
    Hsnd Hwf Hk) as (rt & Hwf' & Hk' & ->).
  cbv zeta. change (e_response _) with true. change (e_id _) with rid. cbv iota.
  set (w1 := set_routing rt (set_packets ps w)).
  unfold Cache.callback. change (w_requests w1) with (w_requests w). rewrite Hreq. cbn [Cache.callback_of run].
  assert (Hpos : 0 < zlen g) by (destruct g; [done|]; rewrite zlen_cons; pose proof (zlen_nonneg g); lia).
  pose proof (answer_processed now id key from f (answer rid sender total g) _ w1 j Hj (proj1 Hexp) eq_refl) as Hans.
  cbv zeta in Hans. rewrite read_FindValue in Hans. cbn [fv_values fv_found] in Hans.
  rewrite i64_small, <-list_fmap_compose in Hans by lia.
  destruct Hans as (w2 & -> & Hw2 & Hj2 & Hlog); [by destruct g|]. cbn [obind].
  change (e_sender (answer rid sender total g)) with sender in *.
  change (wv_value ∘ Events.wire_found) with v_Value in *.
  pose proof (answered_progress sender total r (v_Value <$> g) j Hr) as Hprog. cbv zeta in Hprog.
  assert (Hlen : zlen (v_Value <$> g) = zlen g) by (unfold zlen; by rewrite length_fmap).
  rewrite Hlen in Hprog. destruct (Hprog Hpos Htot Hexp) as [Hvals Hcase].
  set (j1 := answered sender total (v_Value <$> g) j) in *.
  assert (Hrq2 : w_requests w2 = w_requests w) by (by rewrite Hw2).
  assert (Hst2 : w_storage w2 = w_storage w) by (by rewrite Hw2).
  case_decide as Hlast.
  - destruct Hcase as [-> Hcomp]. eexists _, _. split; [done|]. split; [exact Hj2|]. cbn.
    by rewrite Hst2, Hrq2.
  - destruct Hcase as [Hfin Hexp']. rewrite Hfin in *. eexists _, _. split; [done|]. split; [exact Hj2|]. cbn [snd].
    split_and!; [done|exact Hlog| |done|done]. split; [|by rewrite Hw2..|by rewrite Hrq2; eauto|done|done].
    unfold unseen_packet. rewrite Hw2. exact Hpk'.
Qed.

(** All the answers, each in any order of its datagrams. *)
Lemma answers_received li rid sender key from f total gs arrivals : ∀ r j w,
  pool_ok → length rid = 32%nat → valid_id sender →
  Forall (λ g, g ≠ [] ∧ sendable (answer rid sender total g)) gs → gs ≠ [] →
  waiting rid sender key from f total r j w → 0 ≤ r → r + zlen (concat gs) = total → total < 2 ^ 63 →
  Forall2 (λ arr g, arr.*2 ≡ₚ Packet.wires rid (encode (answer rid sender total g))) arrivals gs →
  ∃ w' j', receive li w (concat arrivals) = Ret w' ∧ journey_at f w' j' ∧
    Journey.completed j' = true ∧ w_requests w' = delete (cache_hash rid) (w_requests w) ∧
    w_storage w' = w_storage w ∧
    a_log (w_app w') =
      a_log (w_app w) ++ (FoundValue f <$> unseen (Journey.values j) (v_Value <$> concat gs)).
Proof.
  intros r j w Hpool Hid Hsnd Hgs Hne Hw Hr Htot Hlt Harr. revert r j w Hne Hw Hr Htot.
  induction Harr as [|arr g arrs gs Ha Harr IH]; intros r j w Hne Hw Hr Htot; [done|].
  apply Forall_cons in Hgs as [[Hg Hs] Hgs]. cbn [concat] in Htot. rewrite zlen_app in Htot.
  pose proof (zlen_nonneg (concat gs)).
  destruct (answer_received li rid sender key from f total r j arr g w Hpool Hid Hsnd Hs Hw Hr Hg) as
    (w1 & j1 & E1 & Hj1 & Hst1 & Hlog1 & Hcase); [lia|done|].
  unfold process_all in *. cbn [concat]. rewrite ofold_app, E1. cbn [obind].
  destruct gs as [|g' gs'].
  - apply Forall2_nil_inv_r in Harr. subst arrs. cbn [concat ofold] in *. change (zlen []) with 0 in Htot.
    rewrite decide_True in Hcase by lia. destruct Hcase as [Hrq Hc]. rewrite app_nil_r. eauto 10.
  - assert (Hpos : 0 < zlen (concat (g' :: gs'))).
    { apply Forall_cons in Hgs as [[Hg' _] _]. cbn [concat]. rewrite zlen_app. pose proof (zlen_nonneg (concat gs')).
      destruct g'; [done|]. rewrite zlen_cons. pose proof (zlen_nonneg g'). lia. }
    rewrite decide_False in Hcase by lia. destruct Hcase as (Hw1 & Hrq & Hv1).
    pose proof (zlen_nonneg g).
    destruct (IH Hgs (r + zlen g) j1 w1) as (w' & j' & E' & Hj' & Hc' & Hrq' & Hst' & Hlog'); [done|done|lia|lia|].
    exists w', j'. split_and!; [done|done|done|by rewrite Hrq', Hrq|by rewrite Hst', Hst1|].
    rewrite Hlog', Hlog1, Hv1, <-app_assoc, <-fmap_app, <-unseen_app, <-fmap_app. done.
Qed.

(** ** The other side *)

(** The datagrams of all the answers, one list for each event. *)
Definition answer_datagrams (rid sender : bytes) (vs : list Value) : list (list bytes) :=
  (λ g, Packet.wires rid (encode (answer rid sender (zlen vs) g))) <$> groups [] 0 vs.

Lemma find_handled li now addr rid sender key from vs w :
  socket_ok → pool_ok → ready li w → length rid = 32%nat → valid_id sender →
  RoutingTable.wf (w_routing w) → RoutingTable.knows (w_routing w) sender = true →
  fits (Events.eventFindValueRequest rid sender key from) →
  st_Get key (Unix0 (UnixNano from)) (w_storage w) = Ret (vs, true) →
  Forall (λ g, sendable (answer rid (w_localID w) (zlen vs) g)) (groups [] 0 vs) →
  ∃ w', process_one CbTransfer (run journey_hash now) stale li now addr
      (Packet.wire rid (encode (Events.eventFindValueRequest rid sender key from)) 0) w = Ret w' ∧
    w_storage w' = w_storage w ∧ w_requests w' = w_requests w ∧ w_app w' = w_app w ∧
    outgoing li w' = outgoing li w ++ (mkMessage addr <$> concat (answer_datagrams rid (w_localID w) vs)).
Proof.
  intros Hs Hp Hr Hid Hsnd Hwf Hk Hf Hget Hsend. set (e := Events.eventFindValueRequest rid sender key from) in *.
  destruct (process_known CbTransfer (run journey_hash now) stale li now addr rid e w Hid (proj1 Hf) (proj2 Hf) Hsnd Hwf Hk)
    as (t & _ & ->). cbn zeta. unfold handle. change (e_response e) with false. change (e_event e) with FIND_VALUE. cbv iota.
  unfold findValue. change (e_payload e) with (Some (of_FindValue (mkFindValue key [] [] (UnixNano from) 0))). cbv iota.
  rewrite read_FindValue. cbn [fv_key fv_from]. change (w_storage (set_routing t w)) with (w_storage w).
  rewrite Hget. cbn [obind].
  destruct (found_loop_ok li e addr (zlen vs) vs [] 0 (set_routing t w) Hs Hp Hr Hid) as (w' & -> & Hw' & _ & Ho).
  { eapply Forall_impl; [exact Hsend|]. intros g [[_ Hg] _]. change (found_event e (set_routing t w) (zlen vs) g)
      with (encode (answer rid (w_localID w) (zlen vs) g)). etrans; [exact Hg|]. apply Z.leb_le. vm_compute. reflexivity. }
  cbn [obind]. exists w'. split; [done|]. split_and!; [by rewrite Hw'..|]. rewrite Ho. f_equal.
  unfold answer_datagrams. clear. induction (groups [] 0 vs) as [|g gs IH]; [done|].
  rewrite fmap_cons. cbn [concat]. rewrite fmap_app, bind_cons, IH. done.
Qed.

Lemma groups_answers vs : vs ≠ [] → groups [] 0 vs ≠ [] ∧ Forall (λ g, g ≠ []) (groups [] 0 vs).
Proof.
  intros Hvs. split.
  - intros E. pose proof (groups_concat [] 0 vs) as Hc. rewrite E in Hc. simpl in Hc. congruence.
  - eapply Forall_impl; [apply (groups_filled [] 0 vs); auto|]. intros g (l & v & -> & _). by destruct l.
Qed.
End answers.

(** ** Properties *)
Section exchange.
Context {T : Tables} (EA EB : Env) `{GoSort} {StA StB : Type} (SA : Storage StA) (SB : Storage StB).
Context (hashA hashB : bytes → Z) (errA errB : option error).
Hypothesis same_encode : ∀ e, @encode _ EB e = @encode _ EA e.
Hypothesis same_decode : ∀ d, @decode _ EB d = @decode _ EA d.

Lemma sendable_same e : @sendable _ EA e → @sendable _ EB e.
Proof. unfold sendable. by rewrite same_encode, same_decode. Qed.

(** C9: a search gets all the values that the asked node has.  The request of
    node A goes out in one datagram.  Node B, which knows A and has the values
    [vs] under the key, answers with as many events and datagrams as they need
    and keeps its storage.  When these arrive at A, event by event but the
    datagrams of each event in any order, in whatever state A then is, as long as
    it still waits for nothing but these answers, the user gets the values in B's
    order, each one once and those not found before, the search is completed and
    its request is gone. *)
Theorem search_exchange la lb nowA nowB addrA addrB rid idB key from f vs
    (wa : world StA cb app) (wb : world StB cb app) :
  @socket_ok _ EA → @pool_ok _ EA → ready la wa → @socket_ok _ EB → @pool_ok _ EB → ready lb wb →
  length rid = 32%nat → valid_id (w_localID wa) → valid_id (w_localID wb) →
  RoutingTable.wf (w_routing wb) → RoutingTable.knows (w_routing wb) (w_localID wa) = true →
  @fits _ EA (Events.eventFindValueRequest rid (w_localID wa) key from) →
  st_Get key (Unix0 (UnixNano from)) (w_storage wb) = Ret (vs, true) → vs ≠ [] → zlen vs < 2 ^ 63 →
  Forall (λ g, @sendable _ EA (answer rid (w_localID wb) (zlen vs) g)) (groups [] 0 vs) →
  ∃ wa' wb' request_datagram answers,
    @request _ EA _ _ _ la nowA addrB rid (Events.eventFindValueRequest rid (w_localID wa) key from)
      (CbFindValue idB key from f) wa = Ret (None, wa') ∧
    outgoing la wa' = outgoing la wa ++ [mkMessage addrB request_datagram] ∧
    @process_one _ EB _ _ SB _ _ CbTransfer (@run _ EB _ _ hashB nowB) errB lb nowB addrA request_datagram wb
      = Ret wb' ∧
    w_storage wb' = w_storage wb ∧
    outgoing lb wb' = outgoing lb wb ++ (mkMessage addrA <$> concat answers) ∧
    ∀ wa2 j arrivals,
      @waiting _ EA _ hashA rid (w_localID wb) key from f (zlen vs) 0 j wa2 →
      Forall2 (λ arr ds, arr.*2 ≡ₚ ds) arrivals answers →
      ∃ wa3 j', @process_all _ EA _ _ SA _ _ CbTransfer (@run _ EA _ _ hashA) errA la wa2 (concat arrivals) = Ret wa3 ∧
        a_log (w_app wa3) =
          a_log (w_app wa2) ++ (FoundValue f <$> unseen hashA (Journey.values j) (v_Value <$> vs)) ∧
        journey_at f wa3 j' ∧ Journey.completed j' = true ∧
        w_requests wa3 = delete (@cache_hash _ EA rid) (w_requests wa2) ∧ w_storage wa3 = w_storage wa2.
Proof.
  intros HsA HpA HrA HsB HpB HrB Hid HvA HvB Hwf Hk Hf Hget Hne Hlt Hsend.
  destruct (request_sent la nowA addrB rid _ (CbFindValue idB key from f) wa HsA HpA HrA Hid Hf) as (wa' & Ea & _ & Hoa).
  destruct (@find_handled _ EB _ _ SB hashB errB lb nowB addrA rid (w_localID wa) key from vs wb HsB HpB HrB Hid HvA Hwf Hk)
    as (wb' & Eb & Hst & _ & _ & Hob).
  { by apply (fits_same EA EB same_encode same_decode). }
  { done. }
  { eapply Forall_impl; [exact Hsend|]. intros g. apply sendable_same. }
  rewrite same_encode in Eb. eexists wa', wb', _, _. split_and!; [done|done|exact Eb|done|exact Hob|].
  intros wa2 j arrivals Hw Harr. destruct (groups_answers vs Hne) as [Hgs Hgne].
  destruct (@answers_received _ EA _ _ SA hashA errA la rid (w_localID wb) key from f (zlen vs) (groups [] 0 vs) arrivals 0 j wa2)
    as (wa3 & j' & E & Hj' & Hc' & Hrq & Hst' & Hlog); try done.
  - apply Forall_and. by split.
  - by rewrite groups_concat.
  - unfold answer_datagrams in Harr. rewrite Forall2_fmap_r in Harr. eapply Forall2_impl; [exact Harr|].
    intros arr g Ha. simpl in Ha. by rewrite same_encode in Ha.
  - rewrite groups_concat in Hlog. exists wa3, j'. done.
Qed.
End exchange.

(** ** Two concrete nodes

    A toy encoding of find value requests and of answers with one value. *)
Definition toy_encode (e : @Event tagged_Tables) : bytes :=
  match e_payload e with
  | Some (TFindValue (mkFindValue _ [v] _ _ _)) =>
      1 :: e_id e ++ e_sender e ++ wv_key v ++ wv_ttl v :: wv_value v
  | Some (TFindValue t) => 0 :: e_id e ++ e_sender e ++ fv_from t :: fv_key t
  | _ => [2]
  end.

Definition toy_decode (b : bytes) : outcome (@Event tagged_Tables) :=
  match b with
  | 0 :: r =>
      let! from := go_index r 64 in
      Ret (mkEvent tagged_Tables (take 32 r) (take 32 (drop 32 r)) FIND_VALUE false
        (Some (TFindValue (mkFindValue (drop 65 r) [] [] from 0))))
  | 1 :: r =>
      let! ttl := go_index r 96 in
      Ret (mkEvent tagged_Tables (take 32 r) (take 32 (drop 32 r)) FIND_VALUE true
        (Some (TFindValue (mkFindValue [] [mkWireValue (take 32 (drop 64 r)) (drop 97 r) ttl 0] [] 0 1))))
  | _ => Panic SliceOutOfRange
  end.

Definition search_Env : @Env tagged_Tables := {|
  encode := toy_encode;
  decode := toy_decode;
  WriteBatch q s := (length q, None);
  cache_hash := be;
  packet_hash := be;
  pseudorandomID n := id_of (Z.of_nat n);
  pooled _ := Packet.fresh;
|}.

(** A value that takes two datagrams. *)
Definition long_value : Value := mkValue (id_of 5) (replicate 1500 7) 60 (unix_epoch + 5) 100.
Definition node_with_value : demo_W :=
  mkWorld (id_of 3) 60 table3 ∅ {[Memory.demo_hash (id_of 5) := Memory.demo_item [long_value]]} ∅
    [mkBatch [] 2] [] 0 (mkApp 0 [] [] [] []).
Definition one_asked : Journey.journey := Journey.set_counters 19 1 (Journey.newJourney (id_of 0) (id_of 5) 20).
Definition asked_b : gmap Z (Cache.request cb) :=
  {[be (id_of 4) := Cache.mkRequest (CbFindValue (id_of 3) (id_of 5) unix_epoch 0) 60]}.
Definition node_asking : demo_W := dht_world 0 [one_asked] [] asked_b ∅.

(** The datagrams of each event in reverse order. *)
Definition reversed (dss : list (list bytes)) : list (list arrival) :=
  (λ ds, (λ d, (300, addr1, d)) <$> reverse ds) <$> dss.

Lemma reversed_datagrams dss : Forall2 (λ arr ds, arr.*2 ≡ₚ ds) (reversed dss) dss.
Proof.
  unfold reversed. induction dss as [|ds dss IH]; simpl; constructor; [|exact IH].
  rewrite <-list_fmap_compose. unfold compose. simpl. rewrite list_fmap_id. apply reverse_Permutation.
Qed.

Lemma search_exchange_witness :
  ∃ dss wa3, @process_all _ search_Env insertion_GoSort _ demo_Storage _ _ CbTransfer
      (@run _ search_Env insertion_GoSort _ be) None 0 node_asking (concat (reversed dss)) = Ret wa3 ∧
    a_log (w_app wa3) = [FoundValue 0 (replicate 1500 7)] ∧ w_requests wa3 = ∅.
Proof.
  destruct (@search_exchange _ search_Env search_Env insertion_GoSort _ _ demo_Storage demo_Storage be be None None
    (λ _, eq_refl) (λ _, eq_refl) 0 0 100 200 addr1 addr1 (id_of 4) (id_of 3) (id_of 5) unix_epoch 0 [long_value]
    node_asking node_with_value) as (wa' & wb' & d & dss & _ & _ & _ & _ & _ & Hback).
  - intros q s. reflexivity.
  - intros n. vm_compute. reflexivity.
  - exists (mkBatch [] 2). split; [reflexivity|]. cbn. lia.
  - intros q s. reflexivity.
  - intros n. vm_compute. reflexivity.
  - exists (mkBatch [] 2). split; [reflexivity|]. cbn. lia.
  - reflexivity.
  - decided.
  - decided.
  - apply table3_wf.
  - vm_compute. reflexivity.
  - split; [split; [apply Z.ltb_lt|apply Z.leb_le]; vm_compute; reflexivity|vm_compute; reflexivity].
  - vm_compute. reflexivity.
  - discriminate.
  - reflexivity.
  - apply Forall_cons. split; [|apply Forall_nil; exact I].
    split; [split; [apply Z.ltb_lt|apply Z.leb_le]; vm_compute; reflexivity|vm_compute; reflexivity].
  - destruct (Hback node_asking one_asked (reversed dss)) as (wa3 & j' & E & Hlog & _ & _ & Hrq & _).
    + split; [split; [reflexivity|apply map_Forall_empty]|apply demo_table_wf|vm_compute; reflexivity| |reflexivity|].
      * exists (id_of 3), 60. vm_compute. reflexivity.
      * split; [reflexivity|]. split; [apply Z.leb_le; vm_compute; reflexivity|reflexivity].
    + apply reversed_datagrams.
    + exists dss, wa3. split; [exact E|]. split; [rewrite Hlog; vm_compute; reflexivity|].
      rewrite Hrq. vm_compute. reflexivity.
Defined.
End Search.
