(* ===== verification/Handover.v ===== *)
(** * Handing keys to a new node

    [transferKeys] of [listener.go] with what surrounds it: a request from a node
    that the routing table does not know puts the sender into the table, is
    answered, and is followed by store requests for the keys the new node is
    closer to (all keys, while the network is smaller than a bucket).  The theorem
    follows the values from the storage of the one node into that of the other. *)
From stdpp Require Import base list numbers sets gmap.
From Stdlib Require Import Lia.
From S2P Require Import Prelude Keyspace Bucket RoutingTable Journey Packet.
From S2P Require Import Storage Event Cache Listener LatencyRouter Dht Exchange Search.
Local Open Scope Z_scope.

Module Handover.
Import Listener Dht Exchange Search.

(** The storage holds these values, in the order of an iteration. *)
Definition yields `{Storage St} (s : St) (vs : list Value) : Prop :=
  ∀ A (cb : A → Value → outcome (A * bool)) a a',
    Memory.visit cb a vs = Ret (a', true) → st_Iterate cb a s = Ret (a', s).

Lemma memory_accepts hash range now k v created ttl s :
  Memory.unlocked s →
  ∃ b s', @st_Set _ (Memory.Memory_Storage hash range) now k v created ttl s = Ret (b, s') ∧ Memory.unlocked s'.
Proof.
  intros Hs. cbn. unfold Memory.Set_. destruct (s !! hash k) as [it|] eqn:Ek.
  - assert (Hit : Memory.mu it = false) by (by apply (Hs (hash k))). unfold Memory.insert, Memory.lock.
    rewrite Hit. cbn [obind]. case_decide; cbn [obind]; eexists _, _; (split; [done|]);
      by apply map_Forall_insert_2.
  - eexists _, _. split; [done|]. by apply map_Forall_insert_2.
Qed.

Lemma memory_yields hash range s :
  Memory.unlocked s → @yields _ (Memory.Memory_Storage hash range) s (Memory.stored_values (range s) s).
Proof. intros Hs A cb a a' Hv. by apply Memory.iterate_visits. Qed.

(** The values that go to a new node [id]. *)
Definition goes (all : bool) (local id : bytes) (v : Value) : bool :=
  all || (shared_prefix local (v_Key v) <? shared_prefix id (v_Key v)).
Definition handed (all : bool) (local id : bytes) (vs : list Value) : list Value :=
  filter (λ v, goes all local id v = true) vs.

Section sender.
Context `{Env} `{GoSort} {St : Type} `{Storage St} {CB App : Type}.
Abbreviation W := (world St CB App).
Implicit Types w : W.
Context (transfer_cb : CB).

Definition store_request (local : bytes) (n : nat) (g : list Value) : Event :=
  Events.eventStoreRequest (pseudorandomID n) local g.

(** The datagrams of the store requests with the groups of values [gs], the
    first with the [n]-th identifier. *)
Fixpoint store_datagrams (local : bytes) (n : nat) (gs : list (list Value)) : list (list bytes) :=
  match gs with
  | [] => []
  | g :: gs =>
      Packet.wires (pseudorandomID n) (encode (store_request local n g)) :: store_datagrams local (S n) gs
  end.

Fixpoint registered (t : Z) (n : nat) (gs : list (list Value)) (m : gmap Z (Cache.request CB))
    : gmap Z (Cache.request CB) :=
  match gs with
  | [] => m
  | _ :: gs => registered t (S n) gs (<[cache_hash (pseudorandomID n) := Cache.mkRequest transfer_cb t]> m)
  end.

Lemma store_datagrams_app local n gs hs :
  store_datagrams local n (gs ++ hs) = store_datagrams local n gs ++ store_datagrams local (n + length gs) hs.
Proof.
  revert n. induction gs as [|g gs IH]; intros n; cbn [store_datagrams Datatypes.app length]; [by rewrite Nat.add_0_r|].
  rewrite IH. by rewrite Nat.add_succ_comm.
Qed.
Lemma registered_app t n gs hs m :
  registered t n (gs ++ hs) m = registered t (n + length gs) hs (registered t n gs m).
Proof.
  revert n m. induction gs as [|g gs IH]; intros n m; cbn [registered Datatypes.app length]; [by rewrite Nat.add_0_r|].
  rewrite IH. by rewrite Nat.add_succ_comm.
Qed.

(** What sending the groups [gs] to [to] does. *)
Record sends (li : nat) (now : Z) (to : option UDPAddr) (gs : list (list Value)) w w' : Prop := {
  sends_ready : ready li w';
  sends_outgoing : outgoing li w' = outgoing li w ++
    (mkMessage to <$> concat (store_datagrams (w_localID w) (w_rids w) gs));
  sends_requests : w_requests w' = registered (Add now (w_timeout w)) (w_rids w) gs (w_requests w);
  sends_rids : w_rids w' = (w_rids w + length gs)%nat;
  sends_same : w_localID w' = w_localID w ∧ w_timeout w' = w_timeout w ∧ w_routing w' = w_routing w ∧
    w_storage w' = w_storage w ∧ w_packets w' = w_packets w ∧ w_app w' = w_app w;
}.

Lemma sends_nil li now to w : ready li w → sends li now to [] w w.
Proof. intros Hr. split; cbn; rewrite ?app_nil_r; [done..|lia|done]. Qed.

Lemma sends_trans li now to gs hs w1 w2 w3 :
  sends li now to gs w1 w2 → sends li now to hs w2 w3 → sends li now to (gs ++ hs) w1 w3.
Proof.
  intros [R1 O1 Q1 I1 (L1 & T1 & S1)] [R2 O2 Q2 I2 (L2 & T2 & S2)]. split; [done|..].
  - rewrite O2, O1, store_datagrams_app, concat_app, fmap_app, L1, I1. by rewrite app_assoc.
  - by rewrite Q2, Q1, registered_app, T1, I1.
  - rewrite I2, I1, length_app. lia.
  - intuition congruence.
Qed.

(** The identifiers of requests are 32 bytes long. *)
Definition ids_ok : Prop := ∀ n, length (pseudorandomID n) = 32%nat.

Definition can_send (local : bytes) (g : list Value) : Prop :=
  ∀ n, zlen (encode (store_request local n g)) ≤ Packet.max_fragmentable.

Lemma send_store_ok li now to g w :
  socket_ok → pool_ok → ids_ok → ready li w → can_send (w_localID w) g →
  ∃ w', send_store transfer_cb li now to g w = Ret (None, w') ∧ sends li now to [g] w w'.
Proof.
  intros Hs Hp Hi Hr Hg. unfold send_store, request. cbn [fresh_rid]. set (w1 := Cache.set _ _ _ _ _ _ _).
  destruct (write_ok li to (pseudorandomID (w_rids w)) (encode (store_request (w_localID w) (w_rids w) g)) w1 Hs Hp Hr
    (Hi _) (Hg _)) as (w' & E & Hw & Hr' & Ho).
  exists w'. split; [exact E|]. split; [done|..].
  - cbn [store_datagrams concat]. rewrite app_nil_r. exact Ho.
  - by rewrite Hw.
  - rewrite Hw. cbn. lia.
  - by rewrite Hw.
Qed.

(** The iteration of [transferKeys]: what was sent, and what is left to send. *)
Lemma transfer_visits li now to id all local vs : ∀ values size w,
  socket_ok → pool_ok → ids_ok → ready li w → w_localID w = local → valid_id local → valid_id id →
  Forall (λ v, valid_id (v_Key v)) vs →
  Forall (can_send local) (groups values size (handed all local id vs)) →
  ∃ gs rest size' w',
    Memory.visit (transfer_step transfer_cb li now to id all) (values, size, w) vs = Ret ((rest, size', w'), true) ∧
    groups values size (handed all local id vs) = gs ++ (if (0 <? length rest)%nat then [rest] else []) ∧
    sends li now to gs w w'.
Proof.
  intros values size w Hs Hp Hi Hr Hl Hloc Hid Hvs. revert values size w Hr Hl.
  induction Hvs as [|v vs Hv Hvs IH]; intros values size w Hr Hl Hsend.
  { exists [], values, size, w. split_and!; [done..|by apply sends_nil]. }
  cbn [Memory.visit]. unfold transfer_step at 1. unfold handed in *. rewrite filter_cons in *.
  rewrite Hl, !distance_shared_prefix by done. cbn [obind].
  fold (goes all local id v). destruct (goes all local id v) eqn:Eg.
  - rewrite decide_True in * by done. cbn [groups] in *. destruct (Packet.MaxEventSize <=? size).
    + apply Forall_cons in Hsend as [Hg Hsend].
      destruct (send_store_ok li now to values w Hs Hp Hi Hr) as (w1 & -> & Hw1); [by rewrite Hl|]. cbn [obind].
      pose proof (sends_same _ _ _ _ _ _ Hw1) as (L1 & _).
      destruct (IH [v] (0 + value_size v) w1 (sends_ready _ _ _ _ _ _ Hw1)) as (gs & rest & size' & w' & E & Eg' & Hw');
        [congruence|done|]. exists (values :: gs), rest, size', w'. split; [exact E|]. split; [by rewrite Eg'|].
      by apply (sends_trans li now to [values] gs w w1 w').
    + cbn [obind]. by apply IH.
  - rewrite decide_False in * by congruence. cbn [obind]. by apply IH.
Qed.

Lemma transferKeys_ok li now to id vs w :
  socket_ok → pool_ok → ids_ok → ready li w → valid_id (w_localID w) → valid_id id →
  RoutingTable.wf (w_routing w) → yields (w_storage w) vs → Forall (λ v, valid_id (v_Key v)) vs →
  let hs := handed (zlen (RoutingTable.all_live (w_routing w)) <? Z.of_nat K) (w_localID w) id vs in
  Forall (can_send (w_localID w)) (groups [] 0 hs) →
  ∃ w', transferKeys transfer_cb li now to id w = Ret w' ∧ sends li now to (groups [] 0 hs) w w'.
Proof.
  intros Hs Hp Hi Hr Hloc Hid Hwf Hy Hvs hs Hsend. unfold transferKeys.
  rewrite RoutingTable.neighbours_spec by done. cbn [obind]. set (all := _ <? _) in *.
  destruct (transfer_visits li now to id all (w_localID w) vs [] 0 w Hs Hp Hi Hr eq_refl Hloc Hid Hvs Hsend)
    as (gs & rest & size & w1 & E & Eg & Hw1). fold hs in Eg.
  rewrite (Hy _ _ _ _ E). cbn [obind]. pose proof (sends_same _ _ _ _ _ _ Hw1) as (L1 & T1 & S1 & S2 & S3).
  replace (set_storage (w_storage w) w1) with w1 by (rewrite <-S2; by destruct w1).
  destruct (0 <? length rest)%nat.
  - destruct (send_store_ok li now to rest w1 Hs Hp Hi (sends_ready _ _ _ _ _ _ Hw1)) as (w2 & -> & Hw2).
    { rewrite L1. rewrite Eg in Hsend. apply Forall_app in Hsend as [_ Hsend]. by apply Forall_cons in Hsend as [? _]. }
    cbn [obind]. exists w2. split; [done|]. rewrite Eg. by apply (sends_trans li now to gs [rest] w w1 w2).
  - exists w1. split; [done|]. by rewrite Eg, app_nil_r.
Qed.

(** ** A request from a node that is not known *)
Lemma newcomer_served run stale li now addr rid id vs w :
  socket_ok → pool_ok → ids_ok → ready li w → length rid = 32%nat → valid_id (w_localID w) → valid_id id →
  RoutingTable.wf (w_routing w) → RoutingTable.knows (w_routing w) id = false →
  fits (Events.eventPing rid id) →
  zlen (encode (Events.eventPong rid (w_localID w))) ≤ Packet.max_fragmentable →
  yields (w_storage w) vs → Forall (λ v, valid_id (v_Key v)) vs →
  (∀ all, Forall (can_send (w_localID w)) (groups [] 0 (handed all (w_localID w) id vs))) →
  ∃ t w1 w', process_one transfer_cb run stale li now addr (Packet.wire rid (encode (Events.eventPing rid id)) 0) w = Ret w' ∧
    RoutingTable.wf t ∧ RoutingTable.knows t id = true ∧ w_routing w' = t ∧
    same_node (set_routing t w) w1 ∧
    outgoing li w1 = outgoing li w ++
      (mkMessage addr <$> Packet.wires rid (encode (Events.eventPong rid (w_localID w)))) ∧
    sends li now addr (groups [] 0 (handed (zlen (RoutingTable.all_live t) <? Z.of_nat K) (w_localID w) id vs)) w1 w'.
Proof.
  intros Hs Hp Hi Hr Hrid Hloc Hid Hwf Hk [Hsz Hdec] Hpong Hy Hvs Hsend. unfold process_one.
  destruct (Packet.assemble_single packet_hash (pooled (w_rids w)) now rid (encode (Events.eventPing rid id)) (w_packets w)
    Hrid Hsz) as (_ & p & -> & Hdata). cbn [obind]. rewrite Hdata. cbn [obind]. rewrite Hdec. cbn [obind].
  replace (set_packets (w_packets w) w) with w by (by destruct w).
  change (e_sender (Events.eventPing rid id)) with id. rewrite RoutingTable.knows_spec in Hk by done.
  destruct (RoutingTable.table_seen_spec now id (w_routing w) Hwf Hid) as (t0 & -> & Hwf0 & _).
  rewrite Hk. cbn [obind set_routing w_routing].
  destruct (RoutingTable.table_insert_spec now id addr 0 false t0 Hwf0 Hid) as (t & Et & Hwft & _).
  destruct (RoutingTable.insert_remove_knows now id addr 0 false t0 Hwf0 Hid) as [(t' & Et' & Hkn) _].
  rewrite Et in Et'. injection Et' as <-. rewrite Et. cbn [obind].
  change (e_response _) with false. unfold handle. change (e_event _) with PING. cbv iota. unfold pong.
  set (w0 := set_routing t (set_routing t0 w)). change (e_id _) with rid.
  destruct (write_ok li addr rid (encode (Events.eventPong rid (w_localID w0))) w0 Hs Hp Hr Hrid Hpong)
    as (w1 & -> & Hw1 & Hr1 & Ho1). cbn [obind].
  assert (E1 : w_localID w1 = w_localID w ∧ w_routing w1 = t ∧ w_storage w1 = w_storage w) by (by rewrite Hw1).
  destruct E1 as (E1 & E2 & E3).
  destruct (transferKeys_ok li now addr id vs w1 Hs Hp Hi Hr1) as (w' & Ew & Hw'); rewrite ?E1, ?E2, ?E3; try done.
  exists t, w1, w'. split; [exact Ew|]. rewrite E1, E2 in Hw'.
  split_and!; [done|by rewrite Hkn, bool_decide_eq_true_2|by destruct (sends_same _ _ _ _ _ _ Hw') as (_ & _ & -> & _)|
    exact Hw1|exact Ho1|exact Hw'].
Qed.

(** The store requests as pairs of an identifier and values. *)
Definition store_requests (n : nat) (gs : list (list Value)) : list (bytes * list Value) :=
  zip (pseudorandomID <$> seq n (length gs)) gs.

Lemma store_requests_datagrams local n gs :
  store_datagrams local n gs =
    (λ x, Packet.wires x.1 (encode (Events.eventStoreRequest x.1 local x.2))) <$> store_requests n gs.
Proof. revert n. induction gs as [|g gs IH]; intros n; [done|]. cbn [store_datagrams]. by rewrite IH. Qed.

Lemma store_requests_groups n gs : (store_requests n gs).*2 = gs.
Proof. apply snd_zip. by rewrite length_fmap, length_seq. Qed.
End sender.

(** ** The new node *)
Section receiver.
Context `{Env} `{GoSort} {St : Type} `{Storage St} {CB App : Type}.
Abbreviation W := (world St CB App).
Implicit Types w : W.
Context (transfer_cb : CB) (run : Z → CB → option Event → option error → W → outcome (bool * W)) (stale : option error).

(** Setting values at a time, and groups of values, each at its time. *)
Definition set_group (s : St) (tg : Z * list Value) : outcome St :=
  ofold (λ s v, let! '(_, s) := st_Set tg.1 (v_Key v) (v_Value v) (v_Created v) (v_TTL v) s in Ret s) s tg.2.
Definition set_groups (s : St) (tgs : list (Z * list Value)) : outcome St := ofold set_group s tgs.

(** In the states [good] the storage takes every value. *)
Definition accepts (good : St → Prop) : Prop := ∀ now k v created ttl s,
  good s → ∃ b s', st_Set now k v created ttl s = Ret (b, s') ∧ good s'.

Lemma set_group_ok good now g s : accepts good → good s → ∃ s', set_group s (now, g) = Ret s' ∧ good s'.
Proof.
  intros Ha. unfold set_group. cbn [fst snd]. revert s. induction g as [|v g IH]; intros s Hs; cbn [ofold].
  { by exists s. }
  destruct (Ha now (v_Key v) (v_Value v) (v_Created v) (v_TTL v) s Hs) as (b & s1 & -> & Hs1). cbn [obind]. by apply IH.
Qed.

Lemma set_values_group now g w s :
  set_group (w_storage w) (now, g) = Ret s → ofold (set_value now) w g = Ret (set_storage s w).
Proof.
  unfold set_group. cbn [fst snd]. revert w s. induction g as [|v g IH]; intros w s E; cbn [ofold] in *.
  { injection E as <-. by destruct w. }
  unfold set_value at 1. destruct (st_Set _ _ _ _ _ _) as [[b s1]| | |]; cbn [obind] in *; try done.
  by rewrite (IH (set_storage s1 w) s).
Qed.

(** A node that can take the store requests [reqs] of [local]. *)
Record prepared (good : St → Prop) (li : nat) (local : bytes) (reqs : list (bytes * list Value)) w : Prop := {
  prep_ready : ready li w;
  prep_table : RoutingTable.wf (w_routing w);
  prep_known : RoutingTable.knows (w_routing w) local = true;
  prep_storage : good (w_storage w);
  prep_packets : Packet.wf_packets (w_packets w);
  prep_unseen : Forall (λ x : bytes * list Value, w_packets w !! packet_hash x.1 = None) reqs;
}.

(** A request that can be sent, and so can its answer. *)
Definition deliverable (local self : bytes) (x : bytes * list Value) : Prop :=
  length x.1 = 32%nat ∧ Forall wire_safe x.2 ∧ sendable (Events.eventStoreRequest x.1 local x.2) ∧
  zlen (encode (Events.eventStoreResponse x.1 self)) ≤ Packet.max_fragmentable.

Lemma store_received good li local rid g reqs arrivals w :
  socket_ok → pool_ok → accepts good → valid_id local →
  prepared good li local ((rid, g) :: reqs) w → deliverable local (w_localID w) (rid, g) →
  arrivals.*2 ≡ₚ Packet.wires rid (encode (Events.eventStoreRequest rid local g)) →
  ∃ now w', process_all transfer_cb run stale li w arrivals = Ret w' ∧ now ∈ arrivals.*1.*1 ∧
    set_group (w_storage w) (now, g) = Ret (w_storage w') ∧ w_localID w' = w_localID w ∧
    prepared good li local reqs w'.
Proof.
  intros Hs Hp Hacc Hloc [Hr Hwf Hk Hg Hpk Hun] (Hid & Hsafe & Hsend & Hresp) Harr. cbn [fst snd] in *.
  apply Forall_cons in Hun as [Hun Hrest]. cbn [fst] in Hun.
  destruct (event_received transfer_cb run stale li rid _ arrivals w Hp Hid Hsend) as (now & addr & ps & -> & [Hps Hwps] & Hfr & Hin);
    [by split|done|].
  destruct (dispatch_known transfer_cb run stale li now addr (Events.eventStoreRequest rid local g) (set_packets ps w)
    Hloc Hwf Hk) as (rt & Hwf' & Hk' & ->).
  cbv zeta. unfold handle. change (e_response _) with false. change (e_event _) with STORE. cbv iota.
  rewrite store_request_stores by done. set (w1 := set_routing rt (set_packets ps w)).
  destruct (set_group_ok good now g (w_storage w) Hacc Hg) as (s & Es & Hgs).
  rewrite (set_values_group now g w1 s) by done. cbn [obind].
  destruct (write_ok li addr rid (encode (Events.eventStoreResponse rid (w_localID (set_storage s w1))))
    (set_storage s w1) Hs Hp Hr Hid Hresp) as (w' & -> & Hw' & Hr' & _). cbn [obind].
  assert (Hw1 : w_storage w' = s ∧ w_routing w' = rt ∧ w_packets w' = ps ∧ w_localID w' = w_localID w) by (by rewrite Hw').
  destruct Hw1 as (E1 & E2 & E3 & E4). exists now, w'. split_and!; [done|done|by rewrite E1|done|].
  split; rewrite ?E1, ?E2, ?E3; [done..|]. eapply Forall_impl; [exact Hrest|]. intros [rid' g'] Hn. cbn [fst] in *.
  destruct (decide (packet_hash rid' = packet_hash rid)) as [->|Hne]; [done|]. by rewrite Hfr.
Qed.

Lemma stores_received good li local reqs arrivals : ∀ w,
  socket_ok → pool_ok → accepts good → valid_id local →
  prepared good li local reqs w → Forall (deliverable local (w_localID w)) reqs →
  Forall2 (λ arr x, arr.*2 ≡ₚ Packet.wires x.1 (encode (Events.eventStoreRequest x.1 local x.2))) arrivals reqs →
  ∃ ts w', process_all transfer_cb run stale li w (concat arrivals) = Ret w' ∧
    Forall2 (λ t arr, t ∈ arr.*1.*1) ts arrivals ∧
    set_groups (w_storage w) (zip ts reqs.*2) = Ret (w_storage w').
Proof.
  intros w Hs Hp Hacc Hloc Hprep Hdel Harr. revert w Hprep Hdel.
  induction Harr as [|arr [rid g] arrs reqs Ha Harr IH]; intros w Hprep Hdel.
  { exists [], w. split_and!; [done|constructor|done]. }
  apply Forall_cons in Hdel as [Hd Hdel]. cbn [fst snd] in Ha.
  destruct (store_received good li local rid g reqs arr w Hs Hp Hacc Hloc Hprep Hd Ha)
    as (now & w1 & E1 & Hin & Hst & Hl & Hprep1).
  destruct (IH w1 Hprep1) as (ts & w' & E' & Hts & Hst'); [by rewrite Hl|].
  exists (now :: ts), w'. unfold process_all in *. cbn [concat]. rewrite ofold_app, E1. cbn [obind].
  split_and!; [done|by constructor|]. unfold set_groups in *. cbn [fmap list_fmap zip zip_with ofold snd].
  rewrite Hst. cbn [obind]. exact Hst'.
Qed.
End receiver.

(** ** Properties *)
Section handover.
Context {T : Tables} (EB EN : Env) `{GoSort} {StB StN : Type} (SB : Storage StB) (SN : Storage StN).
Context {CB CN AB AN : Type} (cbB : CB) (cbN : CN).
Context (runB : CB → option Event → option error → world StB CB AB → outcome (bool * world StB CB AB)).
Context (runN : Z → CN → option Event → option error → world StN CN AN → outcome (bool * world StN CN AN)).
Context (errB errN : option error).
Hypothesis same_encode : ∀ e, @encode _ EN e = @encode _ EB e.

(** C10: a node that joins gets its keys.  When a node that B does not know pings
    it, B takes it into its routing table, answers, and sends it store requests
    with exactly the values of its storage whose keys share a longer prefix with
    the new node than with B (all its values while fewer than [K] nodes are
    known), in the order of the storage; the storage of B stays as it is.  When
    these requests reach the new node, in order but the datagrams of each in any
    order, it has set every one of these values, with their creation times and
    times to live, and nothing else. *)
Theorem keys_handed_over lb ln now addr rid id vs (good : StN → Prop) (wb : world StB CB AB) :
  @socket_ok _ EB → @pool_ok _ EB → @ids_ok _ EB → ready lb wb → length rid = 32%nat →
  valid_id (w_localID wb) → valid_id id →
  RoutingTable.wf (w_routing wb) → RoutingTable.knows (w_routing wb) id = false →
  @fits _ EB (Events.eventPing rid id) →
  zlen (@encode _ EB (Events.eventPong rid (w_localID wb))) ≤ Packet.max_fragmentable →
  yields (w_storage wb) vs → Forall (λ v, valid_id (v_Key v)) vs →
  (∀ all, Forall (@can_send _ EB (w_localID wb)) (groups [] 0 (handed all (w_localID wb) id vs))) →
  @socket_ok _ EN → @pool_ok _ EN → accepts good →
  ∃ wb',
    @process_one _ EB _ _ SB _ _ cbB runB errB lb now addr
      (Packet.wire rid (@encode _ EB (Events.eventPing rid id)) 0) wb = Ret wb' ∧
    RoutingTable.knows (w_routing wb') id = true ∧ w_storage wb' = w_storage wb ∧
    let few := zlen (RoutingTable.all_live (w_routing wb')) <? Z.of_nat K in
    let gs := groups [] 0 (handed few (w_localID wb) id vs) in
    let reqs := @store_requests _ EB (w_rids wb) gs in
    let stores := @store_datagrams _ EB (w_localID wb) (w_rids wb) gs in
    concat gs = handed few (w_localID wb) id vs ∧
    outgoing lb wb' = outgoing lb wb ++
      (mkMessage addr <$> Packet.wires rid (@encode _ EB (Events.eventPong rid (w_localID wb)))) ++
      (mkMessage addr <$> concat stores) ∧
    ∀ wn arrivals,
      @prepared _ EN _ _ _ good ln (w_localID wb) reqs wn →
      Forall (@deliverable _ EN (w_localID wb) (w_localID wn)) reqs →
      Forall2 (λ arr ds, arr.*2 ≡ₚ ds) arrivals stores →
      ∃ ts wn', @process_all _ EN _ _ SN _ _ cbN runN errN ln wn (concat arrivals) = Ret wn' ∧
        Forall2 (λ t arr, t ∈ arr.*1.*1) ts arrivals ∧
        set_groups (w_storage wn) (zip ts gs) = Ret (w_storage wn').
Proof.
  intros HsB HpB HiB HrB Hrid HvB Hid Hwf Hk Hf Hpong Hy Hvs Hsend HsN HpN Hacc.
  destruct (@newcomer_served _ EB _ _ SB _ _ cbB runB errB lb now addr rid id vs wb HsB HpB HiB HrB Hrid HvB Hid Hwf Hk Hf
    Hpong Hy Hvs Hsend) as (t & w1 & wb' & E & Hwft & Hkt & Ert & Hw1 & Ho1 & Hw').
  assert (E1 : w_localID w1 = w_localID wb ∧ w_rids w1 = w_rids wb ∧ w_storage w1 = w_storage wb) by (by rewrite Hw1).
  destruct E1 as (E1 & E2 & E3). destruct Hw' as [_ Ho _ _ (_ & _ & _ & Est & _)].
  exists wb'. split; [exact E|]. rewrite Ert. split; [done|]. split; [congruence|]. cbv zeta.
  split; [apply groups_concat|]. split; [rewrite Ho, Ho1, <-app_assoc, E1, E2; done|].
  intros wn arrivals Hprep Hdel Harr. rewrite store_requests_datagrams, Forall2_fmap_r in Harr.
  destruct (@stores_received _ EN _ _ SN _ _ cbN runN errN good ln (w_localID wb) _ arrivals wn HsN HpN Hacc HvB Hprep Hdel)
    as (ts & wn' & En & Hts & Hst).
  - eapply Forall2_impl; [exact Harr|]. intros arr x Ha. simpl in Ha. by rewrite same_encode.
  - rewrite store_requests_groups in Hst. by exists ts, wn'.
Qed.
End handover.

(** ** Two concrete nodes

    A toy encoding of store requests with one value and of events without a
    payload. *)
Definition toy_encode (e : @Event tagged_Tables) : bytes :=
  match e_payload e with
  | Some (TStore (mkStore [v])) => Exchange.toy_encode e
  | _ => (match e_event e with PING => 2 | PONG => 3 | _ => 0 end) :: e_id e ++ e_sender e
  end.

Definition toy_decode (b : bytes) : outcome (@Event tagged_Tables) :=
  match b with
  | 2 :: r => Ret (@Events.eventPing tagged_Tables (take 32 r) (drop 32 r))
  | 3 :: r => Ret (@Events.eventPong tagged_Tables (take 32 r) (drop 32 r))
  | _ => Exchange.toy_decode b
  end.

Definition handover_Env : @Env tagged_Tables := {|
  encode := toy_encode;
  decode := toy_decode;
  WriteBatch q s := (length q, None);
  cache_hash := be;
  packet_hash := be;
  pseudorandomID n := id_of (Z.of_nat n);
  pooled _ := Packet.fresh;
|}.

Definition local7 : node := mkNode (id_of 7) None 0 0 0 0 false.
Definition table7 : RoutingTable.routingTable :=
  match RoutingTable.insert 1 (id_of 3) None 0 false (RoutingTable.newRoutingTable local7) with
  | Ret t => t
  | _ => RoutingTable.newRoutingTable local7
  end.
Lemma table7_wf : RoutingTable.wf table7.
Proof.
  apply (RoutingTable.reachable_wf local7 [RoutingTable.OpInsert 1 (id_of 3) None 0 false]);
    [decided|decided|]. vm_compute. reflexivity.
Qed.

Definition node_new : demo_W :=
  mkWorld (id_of 7) 60 table7 ∅ ∅ ∅ [mkBatch [] 2] [] 0 (mkApp 0 [] [] [] []).

(** The new node is closer to the key of the value. *)
Lemma long_value_goes few : handed few (id_of 3) (id_of 7) [long_value] = [long_value].
Proof. destruct few; vm_compute; reflexivity. Qed.

Lemma keys_handed_over_witness :
  ∃ wb' wn', @process_one _ handover_Env insertion_GoSort _ demo_Storage _ _ CbTransfer
      (@run _ handover_Env insertion_GoSort _ be 200) None 0 200 addr1
      (Packet.wire (id_of 4) (toy_encode (@Events.eventPing tagged_Tables (id_of 4) (id_of 7))) 0) node_with_value = Ret wb' ∧
    @process_all _ handover_Env insertion_GoSort _ demo_Storage _ _ CbTransfer
      (@run _ handover_Env insertion_GoSort _ be) None 0 node_new
      (concat (reversed (@store_datagrams _ handover_Env (id_of 3) 0 [[long_value]]))) = Ret wn' ∧
    @st_Get _ demo_Storage (id_of 5) time_zero (w_storage wn') =
      Ret ([mkValue (id_of 5) (replicate 1500 7) 60 (unix_epoch + 5) 360], true).
Proof.
  destruct (@keys_handed_over _ handover_Env handover_Env insertion_GoSort _ _ demo_Storage demo_Storage _ _ _ _
    CbTransfer CbTransfer (@run _ handover_Env insertion_GoSort _ be 200) (@run _ handover_Env insertion_GoSort _ be)
    None None (λ _, eq_refl) 0 0 200 addr1 (id_of 4) (id_of 7) [long_value] Memory.unlocked node_with_value)
    as (wb' & E & _ & _ & Hrest).
  - intros q s. reflexivity.
  - intros n. vm_compute. reflexivity.
  - intros n. reflexivity.
  - exists (mkBatch [] 2). split; [reflexivity|]. cbn. lia.
  - reflexivity.
  - decided.
  - decided.
  - apply table3_wf.
  - vm_compute. reflexivity.
  - split; [split; [apply Z.ltb_lt|apply Z.leb_le]; vm_compute; reflexivity|vm_compute; reflexivity].
  - apply Z.leb_le. vm_compute. reflexivity.
  - assert (Hv : Memory.stored_values (map_to_list (w_storage node_with_value)).*1 (w_storage node_with_value) =
      [long_value]) by (vm_compute; reflexivity). rewrite <-Hv.
    apply (memory_yields Memory.demo_hash (λ s, (map_to_list s).*1)). apply map_Forall_singleton. reflexivity.
  - apply Forall_cons. split; [decided|apply Forall_nil; exact I].
  - intros all. change (w_localID node_with_value) with (id_of 3). rewrite long_value_goes.
    apply Forall_cons. split; [|apply Forall_nil; exact I]. intros n. apply Z.leb_le. vm_compute. reflexivity.
  - intros q s. reflexivity.
  - intros n. vm_compute. reflexivity.
  - intros now k v created ttl s. apply (memory_accepts Memory.demo_hash (λ s, (map_to_list s).*1)).
  - cbv zeta in Hrest. change (w_localID node_with_value) with (id_of 3) in Hrest.
    rewrite long_value_goes in Hrest. destruct Hrest as (_ & _ & Hn).
    destruct (Hn node_new (reversed (@store_datagrams _ handover_Env (id_of 3) 0 [[long_value]])))
      as (ts & wn' & En & Hts & Hst).
    + split; [exists (mkBatch [] 2); split; [reflexivity|cbn; lia]|apply table7_wf|vm_compute; reflexivity|
        apply map_Forall_empty|apply map_Forall_empty|]. apply Forall_cons. split; [reflexivity|apply Forall_nil; exact I].
    + apply Forall_cons. split; [|apply Forall_nil; exact I]. split; [reflexivity|].
      split; [apply Forall_cons; split; [unfold wire_safe; cbn; lia|apply Forall_nil; exact I]|].
      split; [split; [split; [apply Z.ltb_lt|apply Z.leb_le]; vm_compute; reflexivity|vm_compute; reflexivity]|].
      apply Z.leb_le. vm_compute. reflexivity.
    + apply reversed_datagrams.
    + exists wb', wn'. split; [exact E|]. split; [exact En|].
      assert (ts = [300]) as ->.
      { apply Forall2_cons_inv_r in Hts as (t & ts' & Ht & Hts & ->). apply Forall2_nil_inv_r in Hts as ->.
        f_equal. apply list_elem_of_fmap in Ht as (y & -> & Hy). apply list_elem_of_fmap in Hy as (z & -> & Hz).
        apply list_elem_of_fmap in Hz as (d & -> & _). reflexivity. }
      assert (Hg : (let! s := @set_groups _ demo_Storage ∅ (zip [300] (groups [] 0 [long_value])) in
        @st_Get _ demo_Storage (id_of 5) time_zero s) =
          Ret ([mkValue (id_of 5) (replicate 1500 7) 60 (unix_epoch + 5) 360], true)) by (vm_compute; reflexivity).
      change (w_storage node_new) with (∅ : gmap Z Memory.item) in Hst. rewrite Hst in Hg. exact Hg.
Defined.
End Handover.
