(* ===== verification/Config.v ===== *)
(** * Configuration: options, paths and the choice of a storage

    Models [config.go], [options.go], [utils.go] and [InitializeStorage] of
    [storage.go].  The operating system, the environment and the opening of a
    database are arguments.  [Join] is [filepath.Join] of the unix-like systems
    the program is built for ([SO_REUSEPORT] in [dht.go]). *)
From stdpp Require Import base list numbers strings.
From Stdlib Require Import Lia Ascii.
From Stdlib Require String.
From S2P Require Import Prelude Keyspace.
Local Open Scope string_scope.
Local Open Scope Z_scope.

(** ** Paths *)
Module Paths.
(** The parts of a path between slashes. *)
Fixpoint split_slash (s : string) : list string :=
  match s with
  | EmptyString => [""]
  | String c s =>
      let r := split_slash s in
      if Ascii.eqb c "/"%char then "" :: r
      else match r with
           | p :: r => String c p :: r
           | [] => [String c ""]
           end
  end.

(** One part of [filepath.Clean]: empty parts and dots vanish, a double dot
    removes the part before it or, at the root, itself. *)
Definition clean_part (rooted : bool) (out : list string) (p : string) : list string :=
  if String.eqb p "" || String.eqb p "." then out
  else if String.eqb p ".." then
    match last out with
    | Some q => if String.eqb q ".." then out ++ [p] else take (length out - 1) out
    | None => if rooted then out else [p]
    end
  else out ++ [p].

Definition is_rooted (s : string) : bool :=
  match s with String c _ => Ascii.eqb c "/"%char | EmptyString => false end.

Definition Clean (s : string) : string :=
  let out := foldl (clean_part (is_rooted s)) [] (split_slash s) in
  if is_rooted s then "/" +:+ String.concat "/" out
  else match out with [] => "." | _ => String.concat "/" out end.

Fixpoint Join (elem : list string) : string :=
  match elem with
  | [] => ""
  | e :: es => if String.eqb e "" then Join es else Clean (String.concat "/" elem)
  end.
End Paths.

(** [DefaultDataDir()], for [runtime.GOOS] and [os.Getenv]. *)
Definition DefaultDataDir (GOOS : string) (Getenv : string → string) : string :=
  if String.eqb GOOS "darwin" then Paths.Join [Getenv "HOME"; "Library"; "Tos"]
  else if String.eqb GOOS "windows" then Paths.Join [Getenv "APPDATA"; "Tos"]
  else Paths.Join [Getenv "HOME"; ".tos"].

Definition ChaindataDir (dataDir : string) : string := Paths.Join [dataDir; "gtos"; "chaindata"].

(** ** Config *)
Definition InMemoryStorage : string := "inmemory".
Definition LevelDBStorage : string := "leveldb".

(** [c_LocalID] is [None] for a nil slice, and [c_Storage] for a nil interface. *)
Record Config (St : Type) := mkConfig {
  c_LocalID : option bytes;
  c_ListenAddress : string;
  c_BootstrapAddresses : list string;
  c_Listeners : Z;
  c_Timeout : Z;
  c_Storage : option St;
  c_StorageBackend : string;
  c_LevelDBPath : string;
  c_DataDir : string;
  c_SocketBufferSize : Z;
  c_SocketBatchSize : Z;
  c_SocketBatchInterval : Z;
  c_Logging : bool;
}.
Arguments mkConfig {St} _ _ _ _ _ _ _ _ _ _ _ _ _.
Arguments c_LocalID {St} _.
Arguments c_ListenAddress {St} _.
Arguments c_BootstrapAddresses {St} _.
Arguments c_Listeners {St} _.
Arguments c_Timeout {St} _.
Arguments c_Storage {St} _.
Arguments c_StorageBackend {St} _.
Arguments c_LevelDBPath {St} _.
Arguments c_DataDir {St} _.
Arguments c_SocketBufferSize {St} _.
Arguments c_SocketBatchSize {St} _.
Arguments c_SocketBatchInterval {St} _.
Arguments c_Logging {St} _.

(** [FindOption] and [ValuesFrom]; [Find] uses the first option only. *)
Record FindOption := mkFindOption { o_from : Z }.
Definition ValuesFrom (from : Z) : FindOption := mkFindOption from.
Definition find_from (opts : list FindOption) : Z :=
  match opts with o :: _ => o_from o | [] => time_zero end.

Section settings.
Context {St : Type}.
Implicit Types cfg : Config St.

Definition set_paths (path dir : string) cfg : Config St :=
  mkConfig (c_LocalID cfg) (c_ListenAddress cfg) (c_BootstrapAddresses cfg) (c_Listeners cfg)
    (c_Timeout cfg) (c_Storage cfg) (c_StorageBackend cfg) path dir (c_SocketBufferSize cfg)
    (c_SocketBatchSize cfg) (c_SocketBatchInterval cfg) (c_Logging cfg).

Definition set_storage_of (s : St) cfg : Config St :=
  mkConfig (c_LocalID cfg) (c_ListenAddress cfg) (c_BootstrapAddresses cfg) (c_Listeners cfg)
    (c_Timeout cfg) (Some s) (c_StorageBackend cfg) (c_LevelDBPath cfg) (c_DataDir cfg)
    (c_SocketBufferSize cfg) (c_SocketBatchSize cfg) (c_SocketBatchInterval cfg) (c_Logging cfg).

(** What [InitializeStorage] opens. *)
Inductive backend := MemoryBackend | LevelDBBackend (path : string).

(** [InitializeStorage]: the storage to open, and the paths it writes back to
    the configuration. *)
Definition InitializeStorage (GOOS : string) (Getenv : string → string) cfg : backend * Config St :=
  if String.eqb (c_StorageBackend cfg) InMemoryStorage then (MemoryBackend, cfg)
  else if String.eqb (c_StorageBackend cfg) LevelDBStorage then
    let cfg :=
      if String.eqb (c_LevelDBPath cfg) "" then
        let dir := if String.eqb (c_DataDir cfg) "" then DefaultDataDir GOOS Getenv else c_DataDir cfg in
        set_paths (ChaindataDir dir) dir cfg
      else cfg in
    (LevelDBBackend (c_LevelDBPath cfg), cfg)
  else (MemoryBackend, cfg).

(** The first part of [New]: [None] is the error for a local identifier of the
    wrong length. *)
Definition with_defaults (randomID : bytes) (GOMAXPROCS : Z) cfg : option (Config St) :=
  let ok := match c_LocalID cfg with None => Some randomID
            | Some id => if zlen id =? KEY_BYTES then Some id else None end in
  id ← ok;
  Some (mkConfig (Some id) (c_ListenAddress cfg) (c_BootstrapAddresses cfg)
    (if c_Listeners cfg <? 1 then GOMAXPROCS else c_Listeners cfg)
    (if c_Timeout cfg =? 0 then minute else c_Timeout cfg)
    (c_Storage cfg) (c_StorageBackend cfg) (c_LevelDBPath cfg) (c_DataDir cfg)
    (if c_SocketBufferSize cfg <? 1 then 32 * 1024 * 1024 else c_SocketBufferSize cfg)
    (if c_SocketBatchSize cfg <? 1 then 1024 else c_SocketBatchSize cfg)
    (if c_SocketBatchInterval cfg <? 1 then 1000000 else c_SocketBatchInterval cfg)
    (c_Logging cfg)).

(** What a configuration must satisfy for the rest of [New]. *)
Definition usable cfg : Prop :=
  (∃ id, c_LocalID cfg = Some id ∧ zlen id = KEY_BYTES) ∧ 1 ≤ c_Listeners cfg ∧ c_Timeout cfg ≠ 0 ∧
  1 ≤ c_SocketBufferSize cfg ∧ 1 ≤ c_SocketBatchSize cfg ∧ 1 ≤ c_SocketBatchInterval cfg.

(** The defaults make any configuration usable whose identifier has the right
    length, leave a usable one as it is, and are settled after one round. *)
Lemma with_defaults_usable rid procs cfg cfg' :
  zlen rid = KEY_BYTES → 1 ≤ procs → with_defaults rid procs cfg = Some cfg' → usable cfg'.
Proof.
  intros Hr Hp E. unfold with_defaults in E. destruct (c_LocalID cfg) as [id|] eqn:Ei; simpl in E.
  - destruct (Z.eqb_spec (zlen id) KEY_BYTES); simplify_eq/=. unfold usable. cbn.
    split_and!; [by eexists|..]; repeat case_match; try (apply Z.ltb_ge in H || apply Z.eqb_neq in H); unfold minute, second; lia.
  - simplify_eq. unfold usable. cbn.
    split_and!; [by eexists|..]; repeat case_match; try (apply Z.ltb_ge in H || apply Z.eqb_neq in H); unfold minute, second; lia.
Qed.

Lemma with_defaults_idem rid procs cfg : usable cfg → with_defaults rid procs cfg = Some cfg.
Proof.
  intros ((id & Hid & Hl) & H1 & H2 & H3 & H4 & H5). unfold with_defaults. rewrite Hid, Hl. simpl.
  rewrite (proj2 (Z.ltb_ge (c_Listeners cfg) 1)), (proj2 (Z.eqb_neq (c_Timeout cfg) 0)),
    (proj2 (Z.ltb_ge (c_SocketBufferSize cfg) 1)), (proj2 (Z.ltb_ge (c_SocketBatchSize cfg) 1)),
    (proj2 (Z.ltb_ge (c_SocketBatchInterval cfg) 1)) by done.
  rewrite <-Hid. by destruct cfg.
Qed.

(** The settings that choosing a storage leaves alone. *)
Lemma InitializeStorage_keeps GOOS Getenv cfg :
  let cfg' := (InitializeStorage GOOS Getenv cfg).2 in
  c_LocalID cfg' = c_LocalID cfg ∧ c_ListenAddress cfg' = c_ListenAddress cfg ∧
  c_BootstrapAddresses cfg' = c_BootstrapAddresses cfg.
Proof. unfold InitializeStorage. repeat case_match; done. Qed.

Lemma InitializeStorage_sizes GOOS Getenv cfg :
  let cfg' := (InitializeStorage GOOS Getenv cfg).2 in
  c_Listeners cfg' = c_Listeners cfg ∧ c_SocketBatchSize cfg' = c_SocketBatchSize cfg.
Proof. unfold InitializeStorage. repeat case_match; done. Qed.

(** A second call finds the same storage: the paths chosen by the first one
    are kept in the configuration. *)
Lemma InitializeStorage_idem GOOS Getenv GOOS' Getenv' cfg :
  c_DataDir cfg ≠ "" → ChaindataDir (c_DataDir cfg) ≠ "" →
  let '(b, cfg') := InitializeStorage GOOS Getenv cfg in
  InitializeStorage GOOS' Getenv' cfg' = (b, cfg').
Proof.
  intros Hd Hc. unfold InitializeStorage.
  destruct (String.eqb_spec (c_StorageBackend cfg) InMemoryStorage) as [E|E]; [by rewrite (proj2 (String.eqb_eq _ _) E)|].
  destruct (String.eqb_spec (c_StorageBackend cfg) LevelDBStorage) as [E'|E'].
  - destruct (String.eqb_spec (c_LevelDBPath cfg) "") as [Ep|Ep].
    + destruct (String.eqb_spec (c_DataDir cfg) ""); [done|].
      cbn [c_StorageBackend c_LevelDBPath set_paths]. rewrite E'.
      change (String.eqb LevelDBStorage InMemoryStorage) with false.
      change (String.eqb LevelDBStorage LevelDBStorage) with true.
      destruct (String.eqb_spec (ChaindataDir (c_DataDir cfg)) ""); done.
    + rewrite E'. cbn. destruct (String.eqb_spec (c_LevelDBPath cfg) ""); done.
  - rewrite (proj2 (String.eqb_neq _ _) E), (proj2 (String.eqb_neq _ _) E'). done.
Qed.
End settings.

(** The daemon's default database on Linux. *)
Lemma default_database_path :
  ChaindataDir (DefaultDataDir "linux" (λ _, "/home/emo/")) = "/home/emo/.tos/gtos/chaindata".
Proof. reflexivity. Qed.
