(* ===== verification/Database.v ===== *)
(** * The LevelDB storage

    Models [database.go]: an implementation of the [Storage] interface that keeps
    values in a LevelDB database, encoded with encoding/gob.

    LevelDB is third-party code: [LevelDB] is its interface, operations on an
    abstract database with the contents they read and write.  Of gob the model
    has what the code depends on: a stream describes the type of the value it
    holds, only exported fields are sent, and a stream can be decoded into a
    variable only if the types are compatible.  The bytes of a stream are an
    argument ([Gob]). *)
From stdpp Require Import base list numbers gmap sorting.
From Stdlib Require Import Lia.
From S2P Require Import Prelude Storage.
Local Open Scope Z_scope.

(** ** encoding/gob *)

(** The exported fields of a [Value]: all but [expires]. *)
Record gob_fields := mkGobFields { g_Key : bytes; g_Value : bytes; g_TTL : Z; g_Created : Z }.

(** What a stream holds: a [*Value] is sent as the structure it points to, and
    a [[]*Value] as a slice of structures. *)
Inductive gob := GobStruct (v : gob_fields) | GobSlice (vs : list gob_fields).

Class Gob := {
  gob_encode : gob → option bytes;
  gob_parse : bytes → option gob;
  gob_roundtrip : ∀ g data, gob_encode g = Some data → gob_parse data = Some g;
}.

Definition gob_of (v : Value) : gob_fields :=
  mkGobFields (v_Key v) (v_Value v) (v_TTL v) (v_Created v).
Definition of_gob (g : gob_fields) : Value :=
  mkValue (g_Key g) (g_Value g) (g_TTL g) (g_Created g) time_zero.

(** ** LevelDB *)
Inductive ldb_error := LdbNotFound | LdbFailed (n : Z).
Inductive ldb_op := LdbPut (k data : bytes) | LdbDelete (k : bytes).

Definition ldb_apply (m : gmap bytes bytes) (o : ldb_op) : gmap bytes bytes :=
  match o with
  | LdbPut k data => <[k := data]> m
  | LdbDelete k => delete k m
  end.

(** [ldb_Write] is [DB.Write] on a batch; [DB.Put] and [DB.Delete] are
    documented as writes of one operation.  [ldb_Iter] is what an iterator over
    the whole database yields: the entries of a snapshot, in full unless it
    reports an error.  A write that fails may leave each key with or without its
    part of the batch. *)
Class LevelDB := {
  ldb : Type;
  ldb_contents : ldb → gmap bytes bytes;
  ldb_Get : bytes → ldb → bytes + ldb_error;
  ldb_Write : list ldb_op → ldb → option ldb_error * ldb;
  ldb_Iter : ldb → list (bytes * bytes) * option ldb_error;
  ldb_Close : ldb → option ldb_error * ldb;
  ldb_Get_data : ∀ k d data, ldb_Get k d = inl data → ldb_contents d !! k = Some data;
  ldb_Get_missing : ∀ k d, ldb_Get k d = inr LdbNotFound → ldb_contents d !! k = None;
  ldb_Write_done : ∀ ops d d', ldb_Write ops d = (None, d') →
    ldb_contents d' = foldl ldb_apply (ldb_contents d) ops;
  ldb_Write_failed : ∀ ops d e d' k, ldb_Write ops d = (Some e, d') →
    ldb_contents d' !! k = ldb_contents d !! k ∨
    ldb_contents d' !! k = foldl ldb_apply (ldb_contents d) ops !! k;
  ldb_Iter_entries : ∀ d k data, (k, data) ∈ (ldb_Iter d).1 → ldb_contents d !! k = Some data;
  ldb_Iter_keys : ∀ d, NoDup (ldb_Iter d).1.*1;
  ldb_Iter_all : ∀ d k data, (ldb_Iter d).2 = None →
    ldb_contents d !! k = Some data → (k, data) ∈ (ldb_Iter d).1;
}.

Definition ldb_Put `{LevelDB} (k data : bytes) (d : ldb) := ldb_Write [LdbPut k data] d.
Definition ldb_Delete `{LevelDB} (k : bytes) (d : ldb) := ldb_Write [LdbDelete k] d.

Module Database.
Section model.
Context `{Gob} `{LevelDB}.
(** [maphash] with the seed of this process. *)
Variable hash : bytes → Z.

(** [key := h.Sum64(); binary.LittleEndian.PutUint64(keyBytes, key)] *)
Definition keyBytes (k : bytes) : bytes := le_bytes 8 (hash k).

Definition serializeValue (v : Value) : option bytes := gob_encode (GobStruct (gob_of v)).
Definition serializeValues (values : list Value) : option bytes :=
  gob_encode (GobSlice (gob_of <$> values)).

(** [deserializeValues(data, &values)] for [var values []*Value]; [None] is an
    error. *)
Definition deserializeValues (data : bytes) : option (list Value) :=
  match gob_parse data with
  | Some (GobSlice vs) => Some (of_gob <$> vs)
  | Some (GobStruct _) => None
  | None => None
  end.

Definition zero_value : Value := mkValue [] [] 0 time_zero time_zero.

(** [deserializeValues(data, &[]*Value{&value})]: what becomes of [value].  gob
    fills an element of the slice it is given if the elements of the stream
    fit, and allocates a new slice if they do not. *)
Definition deserialize_one (data : bytes) : option Value :=
  match gob_parse data with
  | Some (GobSlice [v]) => Some (of_gob v)
  | Some (GobSlice _) => Some zero_value
  | Some (GobStruct _) => None
  | None => None
  end.

(** [v.Created.After(from) || v.Created.Equal(from)] *)
Definition created_from (from : Z) (v : Value) : bool :=
  After (v_Created v) from || (v_Created v =? from).

Definition Get (k : bytes) (from : Z) (s : ldb) : outcome (list Value * bool) :=
  match ldb_Get (keyBytes k) s with
  | inr LdbNotFound => Ret ([], false)
  | inr _ => Ret ([], false)
  | inl data =>
      match deserializeValues data with
      | None => Ret ([], false)
      | Some values =>
          if IsZero from then Ret (values, true)
          else
            let filtered := foldl (λ fs v, if created_from from v then fs ++ [v] else fs) [] values in
            if (length filtered =? 0)%nat then Ret ([], false) else Ret (filtered, true)
      end
  end.

Definition Set_ (now : Z) (k v : bytes) (created ttl : Z) (s : ldb) : outcome (bool * ldb) :=
  let value := mkValue k v ttl created (Add now ttl) in
  match serializeValue value with
  | None => Ret (false, s)
  | Some data =>
      match ldb_Write [LdbPut (keyBytes k) data] s with
      | (Some _, s) => Ret (false, s)
      | (None, s) => Ret (true, s)
      end
  end.

(** The loop of [Iterate] over what the iterator yields. *)
Fixpoint iterate_loop {A} (cb : A → Value → outcome (A * bool)) (a : A) (es : list (bytes * bytes))
    : outcome A :=
  match es with
  | [] => Ret a
  | (_, data) :: es =>
      match deserialize_one data with
      | None => iterate_loop cb a es
      | Some value =>
          let! '(a, more) := cb a value in
          if more : bool then iterate_loop cb a es else Ret a
      end
  end.

Definition Iterate {A} (cb : A → Value → outcome (A * bool)) (a : A) (s : ldb) : outcome (A * ldb) :=
  let! a := iterate_loop cb a (ldb_Iter s).1 in Ret (a, s).

Definition Close (s : ldb) : option ldb_error * ldb := ldb_Close s.

(** One entry visited by a tick of [cleanup]. *)
Definition cleanup_entry (now : Z) (s : ldb) (e : bytes * bytes) : ldb :=
  match deserializeValues e.2 with
  | None => s
  | Some values =>
      let valid := filter (λ v, After (v_expires v) now = true) values in
      if (length valid =? 0)%nat then (ldb_Delete e.1 s).2
      else match serializeValues valid with
           | None => s
           | Some newData => (ldb_Put e.1 newData s).2
           end
  end.

Definition cleanup (now : Z) (s : ldb) : ldb := foldl (cleanup_entry now) s (ldb_Iter s).1.

Definition Database_Storage : Storage ldb := {|
  st_Get := Get;
  st_Set := Set_;
  st_Iterate A cb a s := Iterate cb a s;
|}.

Definition Database_Sweeper : Sweeper ldb := λ now s, Ret (cleanup now s).

(** ** The operations of a run *)
Inductive op :=
  | OpSet (now : Z) (k v : bytes) (created ttl : Z)
  | OpCleanup (now : Z).

Definition step (s : ldb) (o : op) : outcome ldb :=
  match o with
  | OpSet now k v created ttl => let! '(_, s) := Set_ now k v created ttl s in Ret s
  | OpCleanup now => Ret (cleanup now s)
  end.

Definition run (s : ldb) (ops : list op) : outcome ldb := ofold step s ops.
End model.

(** ** Lemmas *)
Section proofs.
Context `{Gob} `{LevelDB}.
Variable hash : bytes → Z.

(** Every entry is one that [Set] can have written: a single structure. *)
Definition structs_only (s : ldb) : Prop :=
  map_Forall (λ _ data, ∃ g, gob_parse data = Some (GobStruct g)) (ldb_contents s).

Lemma structs_no_values s k data :
  structs_only s → ldb_contents s !! k = Some data →
  deserializeValues data = None ∧ deserialize_one data = None.
Proof.
  intros Hs Hk. destruct (Hs k data Hk) as [g Hg].
  unfold deserializeValues, deserialize_one. by rewrite Hg.
Qed.

Lemma set_structs now k v created ttl s :
  structs_only s → ∃ ok s', Set_ hash now k v created ttl s = Ret (ok, s') ∧ structs_only s'.
Proof.
  intros Hs. unfold Set_. destruct (serializeValue _) as [data|] eqn:Ed; [|by eauto].
  assert (Hnew : map_Forall (λ _ data, ∃ g, gob_parse data = Some (GobStruct g))
    (foldl ldb_apply (ldb_contents s) [LdbPut (keyBytes hash k) data])).
  { simpl. apply map_Forall_insert_2; [|done]. eexists. by apply gob_roundtrip. }
  destruct (ldb_Write _ s) as [[e|] s'] eqn:Ew; (do 2 eexists; split; [done|]).
  - intros k' data' Hk'. destruct (ldb_Write_failed _ _ _ _ k' Ew) as [E|E]; rewrite E in Hk';
      [by apply (Hs k')|by apply (Hnew k')].
  - unfold structs_only. by rewrite (ldb_Write_done _ _ _ Ew).
Qed.

Lemma cleanup_structs now s : structs_only s → cleanup now s = s.
Proof.
  intros Hs. unfold cleanup.
  assert (He : ∀ e, e ∈ (ldb_Iter s).1 → cleanup_entry now s e = s).
  { intros [k data] Hin%ldb_Iter_entries. unfold cleanup_entry. cbn [snd].
    by rewrite (proj1 (structs_no_values s k data Hs Hin)). }
  revert He. induction (ldb_Iter s).1 as [|e es IH]; intros He; simpl; [done|].
  rewrite He by set_solver. apply IH. set_solver.
Qed.

Lemma run_structs ops s :
  structs_only s → ∃ s', run hash s ops = Ret s' ∧ structs_only s'.
Proof.
  intros Hs. apply ofold_inv; [done|]. intros s1 [now k v created ttl|now] _ Hs1; cbn [step].
  - destruct (set_structs now k v created ttl s1 Hs1) as (ok & s' & -> & Hs'). by exists s'.
  - exists s1. by rewrite cleanup_structs.
Qed.

Lemma get_structs k from s : structs_only s → Get hash k from s = Ret ([], false).
Proof.
  intros Hs. unfold Get. destruct (ldb_Get _ s) as [data|[|n]] eqn:E; [|done..].
  apply ldb_Get_data in E. by rewrite (proj1 (structs_no_values s _ data Hs E)).
Qed.

Lemma iterate_structs {A} (cb : A → Value → outcome (A * bool)) a s :
  structs_only s → Iterate cb a s = Ret (a, s).
Proof.
  intros Hs. unfold Iterate.
  enough (He : ∀ es, (∀ e, e ∈ es → ldb_contents s !! e.1 = Some e.2) → iterate_loop cb a es = Ret a).
  { by rewrite (He _ (λ '(k, data), ldb_Iter_entries s k data)). }
  induction es as [|[k data] es IH]; intros He; [done|]. cbn [iterate_loop].
  assert (Hk : ldb_contents s !! k = Some data) by (apply (He (k, data)); set_solver).
  rewrite (proj2 (structs_no_values s k data Hs Hk)). apply IH. set_solver.
Qed.
End proofs.

(** ** Properties *)
Section claims.
Context `{Gob} `{LevelDB}.
Variable hash : bytes → Z.

(** C18: the LevelDB storage never returns what was stored.  [Set] encodes one
    value as a structure, while [Get], [Iterate] and [cleanup] decode a slice of
    values, which gob refuses: after any sequence of stores and sweeps on an
    empty database every [Get] misses, an iteration visits nothing and a sweep
    removes nothing; and a store that reports success did write its value. *)
Theorem database_write_only s ops :
  ldb_contents s = ∅ →
  ∃ s', run hash s ops = Ret s' ∧
    (∀ k from, Get hash k from s' = Ret ([], false)) ∧
    (∀ A (cb : A → Value → outcome (A * bool)) a, Iterate cb a s' = Ret (a, s')) ∧
    (∀ now, cleanup now s' = s') ∧
    (∀ now k v created ttl s'', Set_ hash now k v created ttl s' = Ret (true, s'') →
      (∃ data, ldb_contents s'' !! keyBytes hash k = Some data ∧
        gob_parse data = Some (GobStruct (mkGobFields k v ttl created))) ∧
      Get hash k time_zero s'' = Ret ([], false)).
Proof.
  intros He. destruct (run_structs hash ops s) as (s' & E & Hs').
  { unfold structs_only. rewrite He. apply map_Forall_empty. }
  exists s'. split_and!; [done|intros; by apply get_structs|intros; by apply iterate_structs|
    intros; by apply cleanup_structs|].
  intros now k v created ttl s'' E''.
  destruct (set_structs hash now k v created ttl s' Hs') as (ok & s1 & E1 & Hs1).
  rewrite E1 in E''. injection E'' as -> ->. split; [|by apply get_structs].
  unfold Set_ in E1. destruct (serializeValue _) as [data|] eqn:Ed; [|done].
  destruct (ldb_Write _ s') as [[e|] s2] eqn:Ew; [done|]. injection E1 as ->.
  exists data. rewrite (ldb_Write_done _ _ _ Ew). simpl. rewrite lookup_insert_eq.
  split; [done|]. by apply gob_roundtrip in Ed.
Qed.

Lemma created_from_spec from v : created_from from v = bool_decide (from ≤ v_Created v).
Proof.
  unfold created_from, After. destruct (Z.ltb_spec from (v_Created v)),
    (Z.eqb_spec (v_Created v) from); simpl; symmetry;
    (apply bool_decide_eq_true_2; lia) || (apply bool_decide_eq_false_2; lia).
Qed.

Lemma filtered_spec from vs fs :
  foldl (λ fs v, if created_from from v then fs ++ [v] else fs) fs vs =
    fs ++ filter (λ v, from ≤ v_Created v) vs.
Proof.
  revert fs. induction vs as [|v vs IH]; intros fs; simpl; [by rewrite app_nil_r|].
  rewrite IH, filter_cons, created_from_spec. case_decide as Hd.
  - by rewrite bool_decide_eq_true_2, <-app_assoc.
  - by rewrite bool_decide_eq_false_2.
Qed.

(** Of an entry that does hold a list of values, a [Get] with a time filter
    returns exactly the values created at that time or later, in their order
    and whatever that order is, and reports the key as missing if there is
    none; without a filter it returns all of them. *)
Theorem database_get_filter k from s data vs :
  ldb_Get (keyBytes hash k) s = inl data → gob_parse data = Some (GobSlice vs) →
  Get hash k from s =
    if IsZero from then Ret (of_gob <$> vs, true)
    else let fs := filter (λ v, from ≤ v_Created v) (of_gob <$> vs) in
         Ret (fs, bool_decide (fs ≠ [])).
Proof.
  intros Hg Hp. unfold Get, deserializeValues. rewrite Hg, Hp. destruct (IsZero from); [done|].
  cbv zeta. rewrite filtered_spec, app_nil_l.
  destruct (filter _ _) as [|v fs] eqn:E; cbn [length Nat.eqb].
  - by rewrite bool_decide_eq_false_2 by tauto.
  - by rewrite bool_decide_eq_true_2.
Qed.

Lemma cleanup_entry_deletes now s e vs :
  0 ≤ now → gob_parse e.2 = Some (GobSlice vs) → cleanup_entry now s e = (ldb_Delete e.1 s).2.
Proof.
  intros Hn Hp. unfold cleanup_entry, deserializeValues. rewrite Hp.
  assert (E : filter (λ v, After (v_expires v) now = true) (of_gob <$> vs) = []).
  { apply elem_of_nil_inv. intros v [Hv (g & -> & _)%list_elem_of_fmap]%list_elem_of_filter.
    unfold After in Hv. cbn in Hv. apply Z.ltb_lt in Hv. unfold time_zero in Hv. lia. }
  by rewrite E.
Qed.

(** An entry that a sweep can decode. *)
Definition is_slice (data : bytes) : bool :=
  match gob_parse data with Some (GobSlice _) => true | _ => false end.

Lemma cleanup_entries now es s :
  0 ≤ now → (∀ k d, (ldb_Delete k d).1 = None) → NoDup es.*1 →
  ∀ k, ldb_contents (foldl (cleanup_entry now) s es) !! k =
    if existsb (λ e, bool_decide (e.1 = k) && is_slice e.2) es then None
    else ldb_contents s !! k.
Proof.
  intros Hn Hd. revert s. induction es as [|e es IH]; intros s Hnd k; [done|]. simpl.
  rewrite fmap_cons in Hnd. apply NoDup_cons in Hnd as [Hne Hnd]. rewrite IH by done.
  destruct (existsb _ es) eqn:Ex; [by rewrite orb_true_r|]. rewrite orb_false_r.
  unfold is_slice. destruct (gob_parse e.2) as [[g|vs]|] eqn:Ep.
  - rewrite andb_false_r. unfold cleanup_entry, deserializeValues. by rewrite Ep.
  - rewrite (cleanup_entry_deletes now s e vs Hn Ep), andb_true_r. unfold ldb_Delete in *.
    specialize (Hd e.1 s). destruct (ldb_Write _ s) as [err s'] eqn:Ew. simpl in Hd. subst err. cbn [snd].
    rewrite (ldb_Write_done _ _ _ Ew). simpl. case_bool_decide as Hk.
    + subst k. apply lookup_delete_eq.
    + by apply lookup_delete_ne.
  - rewrite andb_false_r. unfold cleanup_entry, deserializeValues. by rewrite Ep.
Qed.

(** The sweep of the LevelDB storage does not look at expiry: the time of
    expiry is not an exported field, so it is lost in the encoding and every
    decoded value counts as expired.  A sweep without errors deletes exactly
    the entries it can decode and keeps the others as they are. *)
Theorem database_cleanup_ignores_expiry now s :
  0 ≤ now → (ldb_Iter s).2 = None → (∀ k d, (ldb_Delete k d).1 = None) →
  ∀ k, ldb_contents (cleanup now s) !! k =
    data ← ldb_contents s !! k; if is_slice data then None else Some data.
Proof.
  intros Hn Hi Hd k. unfold cleanup. rewrite cleanup_entries by (done || apply ldb_Iter_keys).
  destruct (ldb_contents s !! k) as [data|] eqn:Ek; simpl.
  - assert (Hin : (k, data) ∈ (ldb_Iter s).1) by (by apply ldb_Iter_all).
    destruct (is_slice data) eqn:Es.
    + rewrite (proj2 (existsb_exists _ _)); [done|]. exists (k, data).
      rewrite <-list_elem_of_In. split; [done|]. simpl. by rewrite bool_decide_eq_true_2, Es.
    + destruct (existsb _ _) eqn:Ex; [|done]. apply existsb_exists in Ex as ([k' d'] & Hin' & Hb).
      rewrite <-list_elem_of_In in Hin'. simpl in Hb. apply andb_true_iff in Hb as [<-%bool_decide_eq_true Hb].
      apply ldb_Iter_entries in Hin'. congruence.
  - by destruct (existsb _ _).
Qed.
End claims.

(** ** A concrete database: a finite map, and a toy encoding of streams *)
Definition demo_gob_fields (g : gob_fields) : bytes :=
  g_TTL g :: g_Created g :: zlen (g_Key g) :: zlen (g_Value g) :: g_Key g ++ g_Value g.

Fixpoint demo_gob_slice (vs : list gob_fields) : bytes :=
  match vs with [] => [] | g :: vs => demo_gob_fields g ++ demo_gob_slice vs end.

Definition demo_gob_encode (g : gob) : option bytes :=
  Some match g with
       | GobStruct v => 0 :: demo_gob_fields v
       | GobSlice vs => 1 :: zlen vs :: demo_gob_slice vs
       end.

Definition demo_parse_fields (l : bytes) : option (gob_fields * bytes) :=
  match l with
  | ttl :: created :: nk :: nv :: l =>
      Some (mkGobFields (take (Z.to_nat nk) l) (take (Z.to_nat nv) (drop (Z.to_nat nk) l)) ttl created,
            drop (Z.to_nat nv) (drop (Z.to_nat nk) l))
  | _ => None
  end.

Fixpoint demo_parse_slice (n : nat) (l : bytes) : option (list gob_fields) :=
  match n with
  | O => Some []
  | S n => '(g, l) ← demo_parse_fields l; vs ← demo_parse_slice n l; Some (g :: vs)
  end.

Definition demo_gob_parse (l : bytes) : option gob :=
  match l with
  | 0 :: l => '(g, _) ← demo_parse_fields l; Some (GobStruct g)
  | 1 :: n :: l => GobSlice <$> demo_parse_slice (Z.to_nat n) l
  | _ => None
  end.

Lemma demo_parse_fields_app g l : demo_parse_fields (demo_gob_fields g ++ l) = Some (g, l).
Proof.
  destruct g as [k v ttl created]. unfold demo_gob_fields. cbn [g_Key g_Value g_TTL g_Created app].
  unfold demo_parse_fields, zlen. rewrite !Nat2Z.id, <-app_assoc.
  by rewrite take_app_length, !drop_app_length, take_app_length.
Qed.

Lemma demo_parse_slice_app vs l : demo_parse_slice (length vs) (demo_gob_slice vs ++ l) = Some vs.
Proof.
  induction vs as [|g vs IH]; cbn [demo_parse_slice demo_gob_slice length]; [done|].
  rewrite <-app_assoc, demo_parse_fields_app. simpl. by rewrite IH.
Qed.

Lemma demo_gob_roundtrip g data : demo_gob_encode g = Some data → demo_gob_parse data = Some g.
Proof.
  intros [= <-]. destruct g as [v|vs]; cbn [demo_gob_parse].
  - rewrite <-(app_nil_r (demo_gob_fields v)), demo_parse_fields_app. done.
  - unfold zlen. rewrite Nat2Z.id, <-(app_nil_r (demo_gob_slice vs)), demo_parse_slice_app. done.
Qed.

Definition demo_Gob : Gob := {|
  gob_encode := demo_gob_encode; gob_parse := demo_gob_parse; gob_roundtrip := demo_gob_roundtrip |}.

Definition demo_get (k : bytes) (m : gmap bytes bytes) : bytes + ldb_error :=
  match m !! k with Some data => inl data | None => inr LdbNotFound end.

Lemma demo_get_data k m data : demo_get k m = inl data → m !! k = Some data.
Proof. unfold demo_get. destruct (m !! k); congruence. Qed.
Lemma demo_get_missing k m : demo_get k m = inr LdbNotFound → m !! k = None.
Proof. unfold demo_get. by destruct (m !! k). Qed.

Definition demo_LevelDB : LevelDB.
Proof.
  refine {|
    ldb := gmap bytes bytes; ldb_contents m := m; ldb_Get := demo_get;
    ldb_Write ops m := (None, foldl ldb_apply m ops);
    ldb_Iter m := (map_to_list m, None); ldb_Close m := (None, m);
    ldb_Get_data := demo_get_data; ldb_Get_missing := demo_get_missing;
  |}; try (intros; simplify_eq/=; done).
  - intros m k data Hin. by apply elem_of_map_to_list in Hin.
  - intros m. apply NoDup_fst_map_to_list.
  - intros m k data _ Hk. by apply elem_of_map_to_list.
Defined.

Lemma database_write_only_witness :
  ∃ s', @run demo_Gob demo_LevelDB Memory.demo_hash ∅ [OpSet 0 [1] [10] 5 60; OpCleanup 7] = Ret s' ∧
    @Get demo_Gob demo_LevelDB Memory.demo_hash [1] time_zero s' = Ret ([], false).
Proof.
  destruct (@database_write_only demo_Gob demo_LevelDB Memory.demo_hash ∅
    [OpSet 0 [1] [10] 5 60; OpCleanup 7]) as (s' & E & Hg & _); [reflexivity|].
  exists s'. split; [exact E|apply Hg].
Defined.

Definition demo_slice : bytes :=
  1 :: 2 :: demo_gob_slice [mkGobFields [1] [10] 60 9; mkGobFields [1] [11] 60 5].

Lemma database_get_filter_witness :
  @Get demo_Gob demo_LevelDB Memory.demo_hash [1] 7 {[keyBytes Memory.demo_hash [1] := demo_slice]} =
    Ret ([mkValue [1] [10] 60 9 0], true).
Proof.
  rewrite (@database_get_filter demo_Gob demo_LevelDB Memory.demo_hash [1] 7 _ demo_slice
    [mkGobFields [1] [10] 60 9; mkGobFields [1] [11] 60 5]).
  - reflexivity.
  - vm_compute. reflexivity.
  - reflexivity.
Defined.

Lemma database_cleanup_ignores_expiry_witness :
  ldb_contents (@cleanup demo_Gob demo_LevelDB 100 ({[[1] := demo_slice]} : @ldb demo_LevelDB)) !! [1] = None.
Proof.
  rewrite (@database_cleanup_ignores_expiry demo_Gob demo_LevelDB 100 {[[1] := demo_slice]}).
  - reflexivity.
  - lia.
  - reflexivity.
  - intros k d. reflexivity.
Defined.
End Database.
