(* ===== verification/Node.v ===== *)
(** * A node: start-up and shutdown

    Models [New], [listen] and [Close] of [dht.go], [Close] of [listener.go], and
    the goroutines they start and stop.

    [New] runs up to the point where it waits for the results of the bootstrap;
    what the node does meanwhile are the steps of Listener.v and Dht.v, and
    [bootstrapped] is what [New] makes of the results.  A goroutine is known by
    what it runs; those of the wait group are counted as [wg] does.  A run of the
    goroutines is one in which the work of their ticks returns.  Sockets, name
    resolution and the storage to open are arguments. *)
From stdpp Require Import base list numbers gmap strings.
From Stdlib Require Import Lia.
From S2P Require Import Prelude Keyspace Bucket RoutingTable Journey Packet.
From S2P Require Import Storage Event Cache Listener LatencyRouter Dht Config Database.
Local Open Scope Z_scope.

(** The goroutines of a node. *)
Inductive goroutine :=
  | GCacheSweep
  | GPacketSweep
  | GStorageSweep
  | GLatencyUpdates
  | GFlusher (li : nat)
  | GProcess (li : nat)
  | GMonitor
  | GRefreshPeers
  | GRefreshKeys.

#[export] Instance goroutine_eq_dec : EqDecision goroutine.
Proof. solve_decision. Defined.

(** Whether the wait group of the node counts it. *)
Definition counted (g : goroutine) : bool :=
  match g with GCacheSweep | GPacketSweep | GStorageSweep => false | _ => true end.

(** What can fail while a node starts. *)
Inductive start_error :=
  | BadLocalID
  | StorageFailed (n : Z)
  | ResolveFailed (address : string)
  | ListenFailed (li : nat)
  | BootstrapFailed.

Module Node.
Import Listener Dht.

(** ** The parts of a node

    What the constructors of the parts return, and the goroutines they start. *)
Definition newCache : gmap Z (Cache.request cb) * list goroutine := (∅, [GCacheSweep]).
Definition newPacketManager : gmap Z Packet.packet * list goroutine := (∅, [GPacketSweep]).
(** The threshold of the router; its goroutine is counted by the wait group. *)
Definition NewLatencyRouter (wg : Z) : Z * list goroutine * Z :=
  (LatencyRouter.defaultLatencyThreshold, [GLatencyUpdates], wg + 1).

(** [NewDatabase]; [OpenFile] is that of LevelDB. *)
Definition NewDatabase `{LevelDB} (OpenFile : string → ldb + Z) (path : string) : (ldb * list goroutine) + Z :=
  match OpenFile path with
  | inr err => inr err
  | inl db => inl (db, [GStorageSweep])
  end.

(** The storages that [InitializeStorage] chooses from, opened. *)
Definition open_backend `{LevelDB} (OpenFile : string → ldb + Z) (b : backend) : (Memory.storage + ldb) + Z :=
  match b with
  | MemoryBackend => inl (inl Memory.newInMemoryStorage)
  | LevelDBBackend path =>
      match NewDatabase OpenFile path with
      | inr err => inr err
      | inl (db, _) => inl (inr db)
      end
  end.

(** [control], called with the raw connection of a new socket: [Control] gives
    the descriptor to the closure, or fails without running it.  Its own error is
    dropped. *)
Definition SO_REUSEADDR : Z := 2.
Definition SO_REUSEPORT : Z := 15.
Definition control (Control : Z + Z) (SetsockoptInt : Z → Z → Z → option Z) : option Z :=
  match Control with
  | inr _ => None
  | inl fd =>
      match SetsockoptInt fd SO_REUSEADDR 1 with
      | Some err => Some err
      | None => SetsockoptInt fd SO_REUSEPORT 1
      end
  end.

(** Without an error both options are set, unless the connection was closed
    before. *)
Lemma control_sets Control SetsockoptInt :
  control Control SetsockoptInt = None ↔
  ∀ fd, Control = inl fd → SetsockoptInt fd SO_REUSEADDR 1 = None ∧ SetsockoptInt fd SO_REUSEPORT 1 = None.
Proof.
  unfold control. destruct Control as [fd|e]; [|split; [discriminate|done]]. split.
  - intros Hc fd' [= <-]. by destruct (SetsockoptInt fd SO_REUSEADDR 1).
  - intros Hc. by destruct (Hc fd eq_refl) as [-> ->].
Qed.

Section new.
Context `{Env} `{GoSort} {St : Type} `{Storage St}.
Abbreviation W := (world St cb app).

(** The surroundings of [New]: a random identifier, the number of processors,
    the operating system and environment, the opening of a storage, name
    resolution, and whether the socket of listener [li] can be set up. *)
Variables (randomID : bytes) (GOMAXPROCS : Z) (GOOS : string) (Getenv : string → string).
Variable open_storage : backend → St + Z.
Variable ResolveUDPAddr : string → option UDPAddr.
Variable ListenPacket : nat → bool.

(** How far [New] came: it failed, with the goroutines it leaves behind, or it
    waits for the results of the bootstrap, one per address, and has not returned
    yet.  The rest of it is [bootstrapped] below. *)
Inductive starting :=
  | Failed (e : start_error) (running : list goroutine)
  | Waiting (cfg : Config St) (w : W) (running : list goroutine) (wg : Z).

(** The loop of [listen], [n] listeners left from [li] on. *)
Fixpoint listen_loop (size : nat) (n li : nat) (bs : list batch) (running : list goroutine) (wg : Z)
    : (nat * list goroutine) + (list batch * list goroutine * Z) :=
  match n with
  | O => inr (bs, running, wg)
  | S n =>
      if ListenPacket li then
        listen_loop size n (S li) (bs ++ [mkBatch [] size]) (running ++ [GFlusher li; GProcess li]) (wg + 2)
      else inl (li, running)
  end.

Definition listen (cfg : Config St) (running : list goroutine) (wg : Z)
    : (nat * list goroutine) + (list batch * list goroutine * Z) :=
  match listen_loop (Z.to_nat (c_SocketBatchSize cfg)) (Z.to_nat (c_Listeners cfg)) 0 [] running wg with
  | inl e => inl e
  | inr (bs, running, wg) => inr (bs, running ++ [GMonitor], wg + 1)
  end.

Fixpoint resolve_all (l : list string) : string + list node :=
  match l with
  | [] => inr []
  | a :: l =>
      match ResolveUDPAddr a with
      | None => inl a
      | Some addr =>
          match resolve_all l with
          | inl e => inl e
          | inr ns => inr (mkNode [] (Some addr) time_zero 0 0 0 false :: ns)
          end
      end
  end.

(** The storage in the configuration, or the one [InitializeStorage] opens; the
    in-memory storage and the database each start their sweep. *)
Definition ensure_storage (cfg : Config St) : Z + (St * Config St * list goroutine) :=
  match c_Storage cfg with
  | Some s => inr (s, cfg, [])
  | None =>
      let '(b, cfg) := InitializeStorage GOOS Getenv cfg in
      match open_storage b with
      | inr e => inl e
      | inl s => inr (s, set_storage_of s cfg, [GStorageSweep])
      end
  end.

(** [New] up to the wait for the results of the bootstrap. *)
Definition New (now : Z) (cfg : Config St) : outcome starting :=
  match with_defaults randomID GOMAXPROCS cfg with
  | None => Ret (Failed BadLocalID [])
  | Some cfg =>
      match ensure_storage cfg with
      | inl e => Ret (Failed (StorageFailed e) [])
      | inr (s, cfg, running) =>
          match ResolveUDPAddr (c_ListenAddress cfg) with
          | None => Ret (Failed (ResolveFailed (c_ListenAddress cfg)) running)
          | Some addr =>
              let id := default [] (c_LocalID cfg) in
              let n := mkNode id (Some addr) time_zero 0 0 0 false in
              let t := RoutingTable.newRoutingTable n in
              let '(requests, g1) := newCache in
              let '(packets, g2) := newPacketManager in
              let '(_, g3, wg) := NewLatencyRouter 0 in
              match listen cfg (running ++ g1 ++ g2 ++ g3) wg with
              | inl (li, running) => Ret (Failed (ListenFailed li) running)
              | inr (bs, running, wg) =>
                  let! t := RoutingTable.insert now id (Some addr) 0 false t in
                  let w := mkWorld id (c_Timeout cfg) t requests s packets bs [] 0 (mkApp 0 [] [] [] []) in
                  match resolve_all (c_BootstrapAddresses cfg) with
                  | inl a => Ret (Failed (ResolveFailed a) running)
                  | inr bn =>
                      let! w := findNodes now (Some <$> bn) id w in
                      Ret (Waiting cfg w running wg)
                  end
              end
          end
      end
  end.

(** The end of [New]: [results] is what the callback of the bootstrap has sent
    so far.  [None]: it still waits. *)
Definition bootstrapped (cfg : Config St) (results : list (option error)) (running : list goroutine)
    (wg : Z) : option (start_error + list goroutine * Z) :=
  let n := length (c_BootstrapAddresses cfg) in
  if (length results <? n)%nat then None
  else
    let successes := length (filter (λ r, r = None) (take n results)) in
    if (successes <? 1)%nat && (1 <? n)%nat then Some (inl BootstrapFailed)
    else Some (inr (running ++ [GRefreshPeers; GRefreshKeys], wg + 2)).
End new.

(** ** Running and closing *)

(** The state of the channels, sockets and goroutines of a running node. *)
Record life := mkLife {
  l_quit : bool;
  l_closed : list bool;
  l_running : list goroutine;
  l_wg : Z;
  l_once : bool;
}.

(** One turn of a goroutine at its [select], with what it finds: the quit
    channel's case if it is ready, or a tick; the processing loop reads the
    socket in its default case, and a read that was waiting when the socket was
    closed comes back with [ErrClosed]. *)
Inductive turn := TakeQuit | Tick (sent : option error) | Read (err : option error).

Definition stop (g : goroutine) (s : life) : life :=
  mkLife (l_quit s) (l_closed s) (filter (λ h, h ≠ g) (l_running s))
    (if counted g then l_wg s - 1 else l_wg s) (l_once s).

(** The quit channel that a goroutine listens to is closed. *)
Definition told_to_quit (g : goroutine) (s : life) : bool :=
  match g with
  | GFlusher li | GProcess li => default false (l_closed s !! li)
  | GLatencyUpdates | GMonitor | GRefreshPeers | GRefreshKeys => l_quit s
  | GCacheSweep | GPacketSweep | GStorageSweep => false
  end.

(** What a turn does to the goroutine itself: [true] if it returns; the work of a
    tick or of a read is that of Listener.v and Dht.v.  A turn that is not
    possible is [None]. *)
Definition process_turn (quit : bool) (t : turn) : option (outcome bool) :=
  match t with
  | TakeQuit => if quit then Some (Ret true) else None
  | Read None => Some (Ret false)
  | Read (Some ErrClosed) => Some (Ret true)
  | Read (Some _) => Some (Panic ExplicitPanic)
  | Tick _ => None
  end.

Definition flusher_turn (quit : bool) (t : turn) : option (outcome bool) :=
  match t with
  | TakeQuit => if quit then Some (Ret true) else None
  | Tick None => Some (Ret false)
  | Tick (Some ErrClosed) => Some (Ret true)
  | Tick (Some _) => Some (Panic ExplicitPanic)
  | Read _ => None
  end.

(** [sent] is the last error of the requests of a tick. *)
Definition monitor_turn (quit : bool) (t : turn) : option (outcome bool) :=
  match t with
  | TakeQuit => if quit then Some (Ret true) else None
  | Tick (Some ErrClosed) => Some (Ret true)
  | Tick _ => Some (Ret false)
  | Read _ => None
  end.

(** The loops that only wait for a ticker or the end.  The work of the tick is
    modelled in Dht.v and LatencyRouter.v; here it returns. *)
Definition ticker_turn (quit : bool) (t : turn) : option (outcome bool) :=
  match t with
  | TakeQuit => if quit then Some (Ret true) else None
  | Tick None => Some (Ret false)
  | Tick (Some _) | Read _ => None
  end.

Definition refreshPeers_turn := ticker_turn.
Definition refreshKeys_turn := ticker_turn.
Definition startLatencyUpdates_turn := ticker_turn.

(** The sweeps of the request cache, the packets and the storage. *)
Definition sweep_turn (t : turn) : option (outcome bool) :=
  match t with Tick None => Some (Ret false) | _ => None end.

Definition turn_of (g : goroutine) (quit : bool) : turn → option (outcome bool) :=
  match g with
  | GProcess _ => process_turn quit
  | GFlusher _ => flusher_turn quit
  | GMonitor => monitor_turn quit
  | GLatencyUpdates => startLatencyUpdates_turn quit
  | GRefreshPeers => refreshPeers_turn quit
  | GRefreshKeys => refreshKeys_turn quit
  | GCacheSweep | GPacketSweep | GStorageSweep => sweep_turn
  end.

Definition take_turn (g : goroutine) (t : turn) (s : life) : option (outcome life) :=
  match turn_of g (told_to_quit g s) t with
  | None => None
  | Some r => Some (let! returns := r in Ret (if returns : bool then stop g s else s))
  end.

(** [Close] of listener [li]: its quit channel and its socket are closed. *)
Definition Close_listener (closed : list bool) (li : nat) : list bool := <[li := true]> closed.

(** [Close] up to [d.wg.Wait()]: it tells everybody to quit, closes the listeners
    one after the other, then the storage; [storage_error] is the result of
    closing that, if it can be closed.  The second closing of each socket fails,
    and its error is dropped. *)
Definition Close_signals (storage_error : option error) (s : life) : option error * life :=
  if l_once s then (None, s)
  else
    let closed := foldl Close_listener (l_closed s) (seq 0 (length (l_closed s))) in
    (storage_error, mkLife true closed (l_running s) (l_wg s) true).

(** [d.wg.Wait()] *)
Definition wait_over (s : life) : Prop := l_wg s = 0.

(** ** Lemmas: goroutines *)
Definition waited_for (s : life) : list goroutine := filter (λ g, counted g = true) (l_running s).

(** Each goroutine runs once, the wait group counts those it should, and the
    listeners' goroutines belong to listeners. *)
Definition alive (s : life) : Prop :=
  NoDup (l_running s) ∧ l_wg s = zlen (waited_for s) ∧
  (∀ li, GFlusher li ∈ l_running s ∨ GProcess li ∈ l_running s → (li < length (l_closed s))%nat).

Lemma filter_stop (P : goroutine → Prop) `{∀ g, Decision (P g)} g l :
  NoDup l → filter P (filter (λ h, h ≠ g) l) = filter (λ h, h ≠ g) (filter P l).
Proof. intros _. rewrite !list_filter_filter. apply list_filter_iff. tauto. Qed.

Lemma filter_others g (l : list goroutine) : g ∉ l → filter (λ h, h ≠ g) l = l.
Proof.
  induction l as [|x l IH]; intros Hg; [done|]. rewrite filter_cons, decide_True by set_solver.
  rewrite IH by set_solver. done.
Qed.

Lemma length_without g (l : list goroutine) :
  NoDup l → zlen (filter (λ h, h ≠ g) l) = zlen l - (if decide (g ∈ l) then 1 else 0).
Proof.
  induction 1 as [|x l Hx _ IH]; [done|]. rewrite filter_cons, zlen_cons. destruct (decide (x = g)) as [->|Hn].
  - rewrite decide_False by tauto. rewrite (decide_True (P := g ∈ g :: l)) by set_solver.
    rewrite IH, decide_False by done. lia.
  - rewrite decide_True by done. rewrite zlen_cons, IH.
    destruct (decide (g ∈ l)); [rewrite decide_True by set_solver|rewrite decide_False by set_solver]; lia.
Qed.

Lemma alive_stop g s : alive s → g ∈ l_running s → alive (stop g s).
Proof.
  intros (Hnd & Hwg & Hli) Hg. unfold alive, waited_for, stop in *. cbn [l_running l_wg l_closed].
  split_and!; [by apply NoDup_filter| |intros li Hin; apply Hli; rewrite !list_elem_of_filter in Hin; tauto].
  rewrite filter_stop, length_without by (done || by apply NoDup_filter).
  destruct (counted g) eqn:Ec; case_decide as Hd; rewrite list_elem_of_filter in Hd; [lia|tauto|..|lia].
  destruct Hd; congruence.
Qed.

(** A turn of a goroutine that runs. *)
Definition step (s : life) (gt : goroutine * turn) (s' : life) : Prop :=
  gt.1 ∈ l_running s ∧ take_turn gt.1 gt.2 s = Some (Ret s').

Lemma turn_cases g t s s' : take_turn g t s = Some (Ret s') → s' = s ∨ (s' = stop g s ∧ counted g = true).
Proof.
  unfold take_turn. intros E.
  destruct t as [|[[]|]|[[]|]], g; cbn in E; repeat case_match; simplify_eq/=; auto.
Qed.

Lemma step_alive s gt s' : step s gt s' → alive s → alive s'.
Proof.
  intros [Hin E] Ha. destruct gt as [g t]. cbn in *.
  apply turn_cases in E as [->|[-> _]]; [done|by apply alive_stop].
Qed.

(** Closed for good: everybody is told to quit. *)
Definition closing (s : life) : Prop := l_quit s = true ∧ Forall (λ c, c = true) (l_closed s).

Lemma step_closing s gt s' : step s gt s' → closing s → closing s'.
Proof.
  intros [_ E] Hc. destruct gt as [g t]. cbn in *. apply turn_cases in E as [->|[-> _]]; done.
Qed.

(** The sweeps have no way out. *)
Lemma step_sweeps s gt s' g : step s gt s' → counted g = false → g ∈ l_running s → g ∈ l_running s'.
Proof.
  intros [_ E] Hg Hin. destruct gt as [h t]. cbn in *. apply turn_cases in E as [->|[-> Hh]]; [done|].
  cbn. apply list_elem_of_filter. split; [congruence|done].
Qed.

Lemma quit_enabled s g :
  alive s → closing s → g ∈ l_running s → counted g = true →
  take_turn g TakeQuit s = Some (Ret (stop g s)).
Proof.
  intros (_ & _ & Hli) [Hq Hc] Hin Hg. assert (Ht : told_to_quit g s = true).
  { destruct g as [| | | |li|li| | |]; cbn in *; try done;
      (destruct (lookup_lt_is_Some_2 (l_closed s) li) as [c Hl]; [apply Hli; tauto|]);
      rewrite Hl; cbn; by eapply Forall_lookup_1 in Hc. }
  unfold take_turn. rewrite Ht. by destruct g.
Qed.

(** A run: a sequence of turns. *)
Inductive steps : life → list (goroutine * turn) → life → Prop :=
  | steps_nil s : steps s [] s
  | steps_cons s gt s1 l s2 : step s gt s1 → steps s1 l s2 → steps s (gt :: l) s2.

Lemma steps_inv s l s' : steps s l s' → alive s ∧ closing s → alive s' ∧ closing s'.
Proof.
  induction 1 as [|s gt s1 l s2 Hs _ IH]; [done|]. intros [Ha Hc]. apply IH.
  split; [by eapply step_alive|by eapply step_closing].
Qed.

Lemma steps_sweeps s l s' g :
  steps s l s' → counted g = false → g ∈ l_running s → g ∈ l_running s'.
Proof. induction 1 as [|s gt s1 l s2 Hs _ IH]; [done|]. intros. apply IH; [done|]. by eapply step_sweeps. Qed.

(** Letting everybody who is waited for quit. *)
Lemma quit_all s :
  alive s → closing s →
  ∃ s', steps s ((λ g, (g, TakeQuit)) <$> waited_for s) s' ∧ wait_over s'.
Proof.
  intros Ha Hc. remember (waited_for s) as gs eqn:Egs. revert s Ha Hc Egs.
  induction gs as [|g gs IH]; intros s Ha Hc Egs.
  { exists s. split; [constructor|]. destruct Ha as (_ & Hw & _). unfold wait_over. by rewrite Hw, <-Egs. }
  assert (Hg : g ∈ waited_for s) by (rewrite <-Egs; set_solver).
  apply list_elem_of_filter in Hg as [Hg Hin].
  assert (Hst : step s (g, TakeQuit) (stop g s)) by (split; [done|by apply quit_enabled]).
  destruct (IH (stop g s)) as (s' & Hs' & Hw).
  - by eapply step_alive.
  - by eapply step_closing.
  - unfold waited_for, stop. cbn [l_running]. destruct Ha as (Hnd & _ & _). rewrite filter_stop by done.
    fold (waited_for s). assert (Hnd' : NoDup (waited_for s)) by (by apply NoDup_filter).
    rewrite <-Egs in *. apply NoDup_cons in Hnd' as [Hng _]. rewrite filter_cons, decide_False by tauto.
    symmetry. by apply filter_others.
  - exists s'. split; [|done]. cbn. by econstructor.
Qed.

(** ** Lemmas: what [New] starts *)
Definition listener_goroutines (li n : nat) : list goroutine :=
  seq li n ≫= λ i, [GFlusher i; GProcess i].

Lemma listen_loop_result Listen size n li bs running wg :
  match listen_loop Listen size n li bs running wg with
  | inl (k, running') =>
      (li ≤ k < li + n)%nat ∧ Listen k = false ∧ running' = running ++ listener_goroutines li (k - li)
  | inr (bs', running', wg') =>
      bs' = bs ++ replicate n (mkBatch [] size) ∧ running' = running ++ listener_goroutines li n ∧
      wg' = wg + 2 * Z.of_nat n
  end.
Proof.
  revert li bs running wg. induction n as [|n IH]; intros li bs running wg; cbn [listen_loop].
  { rewrite !app_nil_r. split_and!; [done|done|lia]. }
  destruct (Listen li) eqn:El.
  - specialize (IH (S li) (bs ++ [mkBatch [] size]) (running ++ [GFlusher li; GProcess li]) (wg + 2)).
    destruct (listen_loop _ _ _ _ _ _ _) as [[k r]|[[bs' r] wg']].
    + destruct IH as (Hk & Hf & ->). split_and!; [lia|lia|done|]. rewrite <-app_assoc. f_equal.
      replace (k - li)%nat with (S (k - S li)) by lia. done.
    + destruct IH as (-> & -> & ->). split_and!; [by rewrite <-app_assoc|by rewrite <-app_assoc|lia].
  - split_and!; [lia|lia|done|]. by rewrite Nat.sub_diag, app_nil_r.
Qed.

Lemma elem_of_listeners g li n :
  g ∈ listener_goroutines li n → ∃ i, (li ≤ i < li + n)%nat ∧ (g = GFlusher i ∨ g = GProcess i).
Proof.
  unfold listener_goroutines. rewrite list_elem_of_bind. intros (i & Hg & Hi%elem_of_seq).
  exists i. split; [lia|set_solver].
Qed.

Lemma listeners_nodup li n : NoDup (listener_goroutines li n).
Proof.
  revert li. induction n as [|n IH]; intros li; [constructor|].
  change (listener_goroutines li (S n)) with ([GFlusher li; GProcess li] ++ listener_goroutines (S li) n).
  apply NoDup_app. split_and!; [|intros g Hg (i & Hi & Hi')%elem_of_listeners|apply IH].
  - apply NoDup_cons. split; [set_solver|apply NoDup_singleton].
  - rewrite !elem_of_cons in Hg. destruct Hg as [->|[->|Hg]], Hi'; simplify_eq; lia || set_solver.
Qed.

Lemma listeners_counted li n :
  filter (λ g, counted g = true) (listener_goroutines li n) = listener_goroutines li n ∧
  zlen (listener_goroutines li n) = 2 * Z.of_nat n.
Proof.
  revert li. induction n as [|n IH]; intros li; [done|].
  change (listener_goroutines li (S n)) with ([GFlusher li; GProcess li] ++ listener_goroutines (S li) n).
  destruct (IH (S li)) as [IH1 IH2]. rewrite filter_app, zlen_app, IH1, IH2. split; [done|].
  change (zlen [GFlusher li; GProcess li]) with 2. lia.
Qed.

(** The goroutines that [New] has started when it waits for the bootstrap. *)
Definition started (sto : list goroutine) (n : nat) : list goroutine :=
  sto ++ [GCacheSweep; GPacketSweep; GLatencyUpdates] ++ listener_goroutines 0 n ++ [GMonitor].

Section start.
Context `{Env} `{GoSort} {St : Type} `{Storage St}.
Context (randomID : bytes) (GOMAXPROCS : Z) (GOOS : string) (Getenv : string → string).
Context (open_storage : backend → St + Z) (Resolve : string → option UDPAddr) (Listen : nat → bool).
Abbreviation W := (world St cb app).
Abbreviation start := (New randomID GOMAXPROCS GOOS Getenv open_storage Resolve Listen).

Lemma ensure_storage_sweeps cfg s cfg' sto :
  ensure_storage GOOS Getenv open_storage cfg = inr (s, cfg', sto) → sto = [] ∨ sto = [GStorageSweep].
Proof.
  unfold ensure_storage. destruct (c_Storage cfg); [intros [= <- <- <-]; by left|].
  destruct (InitializeStorage _ _ _) as [b c]. destruct (open_storage b); [|done].
  intros [= <- <- <-]. by right.
Qed.

Lemma listen_result (cfg : Config St) running wg :
  match listen Listen cfg running wg with
  | inl (k, running') =>
      (k < Z.to_nat (c_Listeners cfg))%nat ∧ Listen k = false ∧
      running' = running ++ listener_goroutines 0 k
  | inr (bs, running', wg') =>
      bs = replicate (Z.to_nat (c_Listeners cfg)) (mkBatch [] (Z.to_nat (c_SocketBatchSize cfg))) ∧
      running' = running ++ listener_goroutines 0 (Z.to_nat (c_Listeners cfg)) ++ [GMonitor] ∧
      wg' = wg + 2 * Z.of_nat (Z.to_nat (c_Listeners cfg)) + 1
  end.
Proof.
  unfold listen.
  pose proof (listen_loop_result Listen (Z.to_nat (c_SocketBatchSize cfg)) (Z.to_nat (c_Listeners cfg))
    0 [] running wg) as Hl.
  destruct (listen_loop _ _ _ _ _ _ _) as [[k r]|[[bs r] wg']].
  - destruct Hl as (Hk & Hf & ->). rewrite Nat.sub_0_r. split_and!; [lia|done|done].
  - destruct Hl as (-> & -> & ->). by rewrite <-app_assoc.
Qed.

Lemma new_waiting now cfg cfg' (w : W) running wg :
  start now cfg = Ret (Waiting cfg' w running wg) →
  ∃ sto, (sto = [] ∨ sto = [GStorageSweep]) ∧ running = started sto (Z.to_nat (c_Listeners cfg')) ∧
    wg = 2 * Z.of_nat (Z.to_nat (c_Listeners cfg')) + 2.
Proof.
  unfold New, newCache, newPacketManager, NewLatencyRouter. intros E. cbn [Datatypes.app Z.add] in E.
  destruct (with_defaults _ _ _) as [cfg1|]; [|done].
  destruct (ensure_storage _ _ _ _) as [e|[[s cfg2] sto]] eqn:Es; [done|].
  destruct (Resolve _) as [addr|]; [|done]. cbv zeta in E.
  pose proof (listen_result cfg2 (sto ++ [GCacheSweep; GPacketSweep; GLatencyUpdates]) 1) as Hl.
  destruct (listen _ _ _ _) as [[k r]|[[bs r] wg']]; [done|]. destruct Hl as (_ & -> & ->).
  apply obind_Ret in E as (t & _ & E). destruct (resolve_all _ _) as [a|bn]; [done|].
  apply obind_Ret in E as (w1 & _ & [= <- <- <- <-]). exists sto.
  split_and!; [by eapply ensure_storage_sweeps| |lia]. unfold started. by rewrite <-!app_assoc.
Qed.

(** The node once it is up. *)
Definition up (cfg : Config St) (running : list goroutine) (wg : Z) : life :=
  mkLife false (replicate (Z.to_nat (c_Listeners cfg)) false) running wg false.

Lemma up_alive now cfg cfg' (w : W) running wg results running' wg' :
  start now cfg = Ret (Waiting cfg' w running wg) →
  bootstrapped cfg' results running wg = Some (inr (running', wg')) →
  alive (up cfg' running' wg') ∧ GCacheSweep ∈ running' ∧ GPacketSweep ∈ running'.
Proof.
  intros E Hb. destruct (new_waiting _ _ _ _ _ _ E) as (sto & Hsto & -> & ->).
  set (n := Z.to_nat (c_Listeners cfg')) in *. unfold bootstrapped in Hb.
  destruct (_ <? _)%nat in Hb; [done|]. destruct (_ && _) in Hb; [done|]. injection Hb as <- <-.
  destruct (listeners_counted 0 n) as [Hc Hz].
  assert (Hsc : filter (λ g, counted g = true) sto = [] ∧ NoDup sto ∧ ∀ g, g ∈ sto → g = GStorageSweep)
    by (destruct Hsto as [->| ->]; (split_and!; [done|by apply (bool_decide_unpack _)|set_solver])).
  destruct Hsc as (Hs1 & Hs2 & Hs3). unfold started. split_and!; [|set_solver..].
  unfold alive, up, waited_for. cbn [l_running l_wg l_closed]. split_and!.
  - repeat (apply NoDup_app; split_and!); try done; try apply listeners_nodup; try (apply NoDup_singleton);
      try (by apply (bool_decide_unpack _)); intros g Hg Hg';
      repeat match goal with
      | Hx : _ ∈ _ ++ _ |- _ => apply elem_of_app in Hx as [Hx|Hx]
      | Hx : _ ∈ listener_goroutines _ _ |- _ => apply elem_of_listeners in Hx as (? & _ & [-> | ->])
      | Hx : g ∈ sto |- _ => apply Hs3 in Hx as ->
      end; set_solver.
  - rewrite !filter_app, Hs1, Hc, !zlen_app, Hz. change (zlen (filter _ [GCacheSweep; _; _])) with 1.
    change (zlen (filter _ [GMonitor])) with 1. change (zlen (filter _ [GRefreshPeers; _])) with 2.
    change (zlen []) with 0. lia.
  - intros li Hin. rewrite length_replicate.
    assert (Hli : GFlusher li ∈ listener_goroutines 0 n ∨ GProcess li ∈ listener_goroutines 0 n).
    { destruct Hin as [Hin|Hin]; rewrite !elem_of_app in Hin;
        destruct Hin as [[Hin|[Hin|[Hin|Hin]]]|Hin]; try (apply Hs3 in Hin); set_solver. }
    destruct Hli as [Hli|Hli]; apply elem_of_listeners in Hli as (i & Hi & [Ei|Ei]); simplify_eq; lia.
Qed.
Lemma resolve_all_failed l a : resolve_all Resolve l = inl a → Resolve a = None ∧ a ∈ l.
Proof.
  induction l as [|b l IH]; cbn; [done|]. destruct (Resolve b) eqn:E; [|intros [= <-]; split; [done|by left]].
  destruct (resolve_all _ l); [|done]. intros [= <-]. destruct (IH eq_refl). split; [done|by right].
Qed.

(** *** What the first steps of [New] make of the configuration *)
Lemma with_defaults_refused (cfg : Config St) :
  with_defaults randomID GOMAXPROCS cfg = None → ∃ id, c_LocalID cfg = Some id ∧ zlen id ≠ KEY_BYTES.
Proof.
  unfold with_defaults. destruct (c_LocalID cfg) as [id|]; [|done].
  destruct (Z.eqb_spec (zlen id) KEY_BYTES); [done|]. by exists id.
Qed.

Lemma with_defaults_sets (cfg cfg1 : Config St) :
  with_defaults randomID GOMAXPROCS cfg = Some cfg1 →
  c_ListenAddress cfg1 = c_ListenAddress cfg ∧ c_BootstrapAddresses cfg1 = c_BootstrapAddresses cfg ∧
  c_Storage cfg1 = c_Storage cfg ∧
  c_Listeners cfg1 = if c_Listeners cfg <? 1 then GOMAXPROCS else c_Listeners cfg.
Proof. unfold with_defaults. intros E. by apply bind_Some in E as (id & _ & [= <-]). Qed.

Lemma ensure_storage_failed cfg e :
  ensure_storage GOOS Getenv open_storage cfg = inl e →
  c_Storage cfg = None ∧ ∃ b, open_storage b = inr e.
Proof.
  unfold ensure_storage. destruct (c_Storage cfg); [done|]. destruct (InitializeStorage _ _ _) as [b c].
  destruct (open_storage b) eqn:Eb; [done|]. intros [= <-]. eauto.
Qed.

Lemma ensure_storage_sets cfg s cfg' sto :
  ensure_storage GOOS Getenv open_storage cfg = inr (s, cfg', sto) →
  sto = match c_Storage cfg with Some _ => [] | None => [GStorageSweep] end ∧
  c_ListenAddress cfg' = c_ListenAddress cfg ∧ c_BootstrapAddresses cfg' = c_BootstrapAddresses cfg ∧
  c_Listeners cfg' = c_Listeners cfg.
Proof.
  unfold ensure_storage. destruct (c_Storage cfg); [by intros [= <- <- <-]|].
  pose proof (InitializeStorage_keeps GOOS Getenv cfg) as (_ & K1 & K2).
  pose proof (InitializeStorage_sizes GOOS Getenv cfg) as [K3 _].
  destruct (InitializeStorage _ _ _) as [b c]. destruct (open_storage b); [|done]. by intros [= <- <- <-].
Qed.
End start.

Lemma steps_alive s l s' : steps s l s' → alive s → alive s'.
Proof. induction 1 as [|s gt s1 l s2 Hs _ IH]; [done|]. intros Ha. apply IH. by eapply step_alive. Qed.

Lemma steps_once s l s' : steps s l s' → l_once s' = l_once s.
Proof.
  induction 1 as [|s [g t] s1 l s2 [_ E] _ IH]; [done|]. rewrite IH. cbn in E.
  apply turn_cases in E as [->|[-> _]]; done.
Qed.

Lemma close_listeners (l : list bool) n :
  (n ≤ length l)%nat → foldl Close_listener l (seq 0 n) = replicate n true ++ drop n l.
Proof.
  intros Hn. induction n as [|n IH]; [done|]. rewrite seq_S, foldl_app, IH by lia. cbn. unfold Close_listener.
  destruct (lookup_lt_is_Some_2 l n) as [c Hc]; [lia|]. rewrite (drop_S _ _ _ Hc).
  rewrite insert_app_r_alt by (by rewrite length_replicate). rewrite length_replicate, Nat.sub_diag. cbn.
  change (true :: replicate n true ++ drop (S n) l) with (replicate (S n) true ++ drop (S n) l).
  by rewrite replicate_S_end, <-app_assoc.
Qed.

Lemma close_all_listeners (l : list bool) :
  foldl Close_listener l (seq 0 (length l)) = replicate (length l) true.
Proof. by rewrite close_listeners, drop_ge, app_nil_r. Qed.

Lemma close_alive e s : alive s → alive (Close_signals e s).2.
Proof.
  unfold Close_signals, alive, waited_for. destruct (l_once s); [done|]. cbn.
  by rewrite close_all_listeners, length_replicate.
Qed.

Lemma close_closing e s : l_once s = false → closing (Close_signals e s).2.
Proof.
  unfold Close_signals, closing. intros ->. cbn. rewrite close_all_listeners.
  split; [done|]. by apply Forall_replicate.
Qed.

Lemma wait_over_nobody s : alive s → wait_over s ↔ waited_for s = [].
Proof.
  intros (_ & Hw & _). unfold wait_over. rewrite Hw. split; [|intros ->; done].
  destruct (waited_for s); [done|]. rewrite zlen_cons. unfold zlen. lia.
Qed.

(** A reading loop that finds its socket closed ends. *)
Lemma read_closed li s : take_turn (GProcess li) (Read (Some ErrClosed)) s = Some (Ret (stop (GProcess li) s)).
Proof. done. Qed.

(** ** Properties *)
Section claims.
Context `{Env} `{GoSort} {St : Type} `{Storage St}.
Context (randomID : bytes) (GOMAXPROCS : Z) (GOOS : string) (Getenv : string → string).
Context (open_storage : backend → St + Z) (Resolve : string → option UDPAddr) (Listen : nat → bool).
Abbreviation W := (world St cb app).
Abbreviation start := (New randomID GOMAXPROCS GOOS Getenv open_storage Resolve Listen).

(** C12: [Close] comes back.  Take any node that came up, however long it ran, and
    close it: [Close] answers with the error of the storage, and whatever the
    goroutines do afterwards, the wait ends exactly when all goroutines of the
    wait group are gone, each of them still there can leave at its next look at
    the quit channel, and letting them do so ends the wait.  The sweeps of the
    request cache and of the packet manager keep running; a second [Close] does
    nothing.  What a goroutine does at a tick is left out here and supposed to
    return, as the runs of [steps] do: the tick of [refreshPeers], for one, panics
    (Dht.v), and the program ends with it. *)
Theorem close_returns now cfg cfg' (w : W) running wg results running' wg' e l1 s1 l2 s3 :
  start now cfg = Ret (Waiting cfg' w running wg) →
  bootstrapped cfg' results running wg = Some (inr (running', wg')) →
  steps (up cfg' running' wg') l1 s1 →
  steps (Close_signals e s1).2 l2 s3 →
  (Close_signals e s1).1 = e ∧
  (wait_over s3 ↔ waited_for s3 = []) ∧
  (∀ g, g ∈ waited_for s3 → take_turn g TakeQuit s3 = Some (Ret (stop g s3))) ∧
  (∃ s4, steps s3 ((λ g, (g, TakeQuit)) <$> waited_for s3) s4 ∧ wait_over s4) ∧
  GCacheSweep ∈ l_running s3 ∧ GPacketSweep ∈ l_running s3 ∧
  (∀ e', Close_signals e' s3 = (None, s3)).
Proof.
  intros E Hb Hs1 Hs2. destruct (up_alive _ _ _ _ _ _ _ _ _ _ _ _ _ _ _ _ E Hb) as (Ha & Hc & Hp).
  pose proof (steps_once _ _ _ Hs1) as Ho1. cbn in Ho1.
  pose proof (steps_alive _ _ _ Hs1 Ha) as Ha1.
  destruct (steps_inv _ _ _ Hs2) as [Ha3 Hc3]; [split; [by apply close_alive|by apply close_closing]|].
  pose proof (steps_once _ _ _ Hs2) as Ho3. unfold Close_signals in Ho3, Hs2 |- *. rewrite Ho1 in *. cbn in *.
  split_and!; [done|by apply wait_over_nobody| |by apply quit_all| | |intros e'; by rewrite Ho3].
  - intros g [Hg Hin]%list_elem_of_filter. by apply quit_enabled.
  - eapply steps_sweeps; [done..|]. cbn. by eapply steps_sweeps.
  - eapply steps_sweeps; [done..|]. cbn. by eapply steps_sweeps.
Qed.

End claims.

(** ** A concrete node *)
Definition demo_config (boot : list string) : Config (gmap Z Memory.item) :=
  mkConfig (Some (id_of 0)) "0.0.0.0:9000" boot 2 60 None InMemoryStorage "" "" 0 2 0 false.

Definition demo_resolve (a : string) : option UDPAddr :=
  if String.eqb a "nowhere" then None else Some (mkUDPAddr [127; 0; 0; 1] 9000).

Abbreviation demo_New Listen boot :=
  (@New _ (demo_Env false) _ (id_of 9) 4 "linux" (λ _, "") (λ _, inl Memory.newInMemoryStorage) demo_resolve
    Listen 100 (demo_config boot)).

Definition demo_running : list goroutine := started [GStorageSweep] 2 ++ [GRefreshPeers; GRefreshKeys].
Definition demo_life : life := mkLife false [false; false] demo_running 8 false.

Lemma close_returns_witness :
  ∃ s4, steps (stop (GProcess 1) (Close_signals (Some (ErrSocket 1)) demo_life).2)
      ((λ g, (g, TakeQuit)) <$>
        [GLatencyUpdates; GFlusher 0; GProcess 0; GFlusher 1; GMonitor; GRefreshPeers; GRefreshKeys]) s4 ∧
    wait_over s4.
Proof.
  assert (∃ cfg w, demo_New (λ _, true) [] = Ret (Waiting cfg w (started [GStorageSweep] 2) 6) ∧
    c_Listeners cfg = 2 ∧ c_BootstrapAddresses cfg = []) as (cfg & w & E & El & Eb).
  { eexists. eexists. split; [vm_compute; reflexivity|]. split; reflexivity. }
  destruct (@close_returns _ (demo_Env false) _ (id_of 9) 4 "linux" (λ _, "")
    (λ _, inl Memory.newInMemoryStorage) demo_resolve (λ _, true) 100 (demo_config []) cfg w
    (started [GStorageSweep] 2) 6 [] demo_running 8 (Some (ErrSocket 1))
    [(GFlusher 0, Tick None)] demo_life [(GProcess 1, Read (Some ErrClosed))]
    (stop (GProcess 1) (Close_signals (Some (ErrSocket 1)) demo_life).2) E) as (_ & _ & _ & H & _).
  - unfold bootstrapped. rewrite Eb. reflexivity.
  - unfold up. rewrite El. eapply steps_cons; [split; [decided|reflexivity]|apply steps_nil].
  - eapply steps_cons; [split; [decided|reflexivity]|apply steps_nil].
  - exact H.
Defined.

End Node.
