(* ===== verification/Bootstrap.v ===== *)
(** * The bootstrap: what its callbacks send and what [New] makes of it

    [New] starts a search for its own identifier at the bootstrap addresses and
    waits for as many results on the channel [br] as there are addresses; the
    callback of the search is [br <- err].  The results sent so far are the calls
    logged for journey 0, the first of the node.

    [hears] is a run of the node as the bootstrap sees it; [run_br] is the
    execution of callbacks with the send on the channel, which blocks when the
    channel is full. *)
From stdpp Require Import base list numbers gmap strings.
From Stdlib Require Import Lia.
From S2P Require Import Prelude Keyspace Bucket RoutingTable Journey Packet.
From S2P Require Import Storage Event Cache Listener LatencyRouter Dht Config Node.
Local Open Scope Z_scope.

Module Bootstrap.
Import Listener Dht Node.

(** The result that a call sends on [br]. *)
Definition result_of (c : user_call) : option (option error) :=
  match c with NodesFound O e => Some e | _ => None end.

Section model.
Context `{Env} `{GoSort} {St : Type} `{Storage St}.
Variable journey_hash : bytes → Z.
Abbreviation W := (world St cb app).
Implicit Types w : W.

Definition results w : list (option error) := omap result_of (a_log (w_app w)).

(** [n] is the capacity of [br]; [received] results have been taken by [New]. *)
Definition run_br (n received : nat) (now : Z) (c : cb) (event : option Event) (err : option error) w
    : outcome (bool * W) :=
  let! '(finished, w) := run journey_hash now c event err w in
  if (received + n <? length (results w))%nat then Blocked else Ret (finished, w).

(** A run of the node as far as the bootstrap is concerned: answers and timeouts
    of its requests, in any order, and anything else that leaves the journeys and
    the callbacks alone. *)
Inductive hears : W → W → Prop :=
  | hears_refl w : hears w w
  | hears_call w now target event err r w1 w2 :
      findNodeCallback journey_hash now target 0 event err w = Ret (r, w1) → hears w1 w2 → hears w w2
  | hears_other w w1 w2 :
      a_journeys (w_app w1) = a_journeys (w_app w) → a_log (w_app w1) = a_log (w_app w) →
      hears w1 w2 → hears w w2.
End model.

(** ** Lemmas: what completes a journey *)
Lemma length_filter_split {A} (P : A → Prop) `{∀ x, Decision (P x)} (l : list A) :
  (length (filter P l) + length (filter (λ x, ¬ P x) l))%nat = length l.
Proof.
  induction l as [|x l IH]; [done|]. rewrite !filter_cons. cbn [length].
  repeat case_decide; try tauto; cbn [length]; lia.
Qed.

Lemma add_replace_completed hash n i x d j j' :
  Journey.add_replace hash n i x d j = Ret j' → Journey.completed j' = Journey.completed j.
Proof.
  revert i. induction n as [|n IH]; intros i E; cbn [Journey.add_replace] in E; [by injection E as <-|].
  apply obind_Ret in E as (di & _ & E). destruct (_ <? _); [|by eapply IH].
  apply obind_Ret in E as (o & _ & E). apply obind_Ret in E as (old & _ & E).
  apply obind_Ret in E as (ns & _ & E). apply obind_Ret in E as (ds & _ & E). by injection E as <-.
Qed.

Lemma add_one_completed hash j p j' :
  Journey.add_one hash j p = Ret j' → Journey.completed j' = Journey.completed j.
Proof.
  unfold Journey.add_one. intros E. apply obind_Ret in E as (n & _ & E).
  destruct (Equal _ _); [by injection E as <-|]. apply obind_Ret in E as (d & _ & E).
  case_decide; [by injection E as <-|]. destruct (_ <? _)%nat.
  - apply obind_Ret in E as (ns & _ & E). apply obind_Ret in E as (ds & _ & E). by injection E as <-.
  - by apply add_replace_completed in E.
Qed.

Lemma add_completed hash ns j j' :
  Journey.add hash ns j = Ret j' → Journey.completed j' = Journey.completed j.
Proof.
  unfold Journey.add. revert j. induction ns as [|p ns IH]; intros j E; cbn [ofold] in E; [by injection E as <-|].
  apply obind_Ret in E as (j1 & E1 & E). rewrite (IH _ E). by eapply add_one_completed.
Qed.

Lemma next_completed `{GoSort} count j r j' :
  Journey.next count j = Ret (r, j') → Journey.completed j' = Journey.completed j.
Proof.
  unfold Journey.next. intros E. destruct (_ || _); [by injection E as _ <-|].
  apply obind_Ret in E as (j1 & E1 & E). apply obind_Ret in E as (nx & _ & E).
  apply obind_Ret in E as (tn & _ & E). apply obind_Ret in E as (td & _ & E). injection E as _ <-.
  unfold Journey.sort_routes in E1. apply obind_Ret in E1 as (l & _ & E1). by injection E1 as <-.
Qed.

Section proofs.
Context `{Env} `{GoSort} {St : Type} `{Storage St}.
Context (journey_hash : bytes → Z).
Abbreviation W := (world St cb app).
Implicit Types w : W.

(** ** Lemmas: what a request leaves alone *)
Lemma flush_app li w r : flush li w = Ret r → w_app r.2 = w_app w.
Proof.
  unfold flush. intros E. apply obind_Ret in E as (b & _ & E). destruct (_ <? _)%nat; [by injection E as <-|].
  destruct (WriteBatch _ _) as [n [e|]]; by injection E as <-.
Qed.

Lemma write_loop_app fuel li to p w r : write_loop fuel li to p w = Ret r → w_app r.2 = w_app w.
Proof.
  revert p w. induction fuel as [|fuel IH]; intros p w E; [done|]. cbn [write_loop] in E.
  apply obind_Ret in E as ([[f|] p'] & _ & E); [|by injection E as <-].
  apply obind_Ret in E as (b & _ & E). destruct (_ <=? _)%nat; [done|]. destruct (_ <? _); [done|].
  destruct (_ <=? _)%nat; [|by rewrite (IH _ _ E)].
  apply obind_Ret in E as ([[e|] w1] & Ef & E); apply flush_app in Ef; cbn [unless_error] in E.
  - by injection E as <-.
  - by rewrite (IH _ _ E).
Qed.

Lemma send_app now to ev c w err w' :
  send now to ev c w = Ret (err, w') → ∃ cl, w_app w' = set_cl cl (w_app w).
Proof.
  unfold send. cbn [fresh_rid]. intros E. apply obind_Ret in E as ([li w1] & En & E).
  unfold next_listener in En. cbv zeta in En. apply obind_Ret in En as (b & _ & [= <- <-]).
  unfold request, write in E. apply obind_Ret in E as (p & _ & E). apply write_loop_app in E.
  cbn [snd] in E. rewrite E. eexists. reflexivity.
Qed.

(** ** Lemmas: completion and success *)
Definition completed_of w : option bool := Journey.completed <$> a_journeys (w_app w) !! 0%nat.
Definition successes w : nat := length (filter (λ r, r = None) (results w)).

(** Neither completes the journey nor reports success. *)
Definition keeps w w' : Prop := completed_of w' = completed_of w ∧ successes w' = successes w.

Lemma keeps_refl w : keeps w w.
Proof. done. Qed.
Lemma keeps_trans w1 w2 w3 : keeps w1 w2 → keeps w2 w3 → keeps w1 w3.
Proof. intros [A1 A2] [B1 B2]. split; congruence. Qed.

Lemma keeps_app w w' :
  a_journeys (w_app w') = a_journeys (w_app w) → a_log (w_app w') = a_log (w_app w) → keeps w w'.
Proof. unfold keeps, completed_of, successes, results. by intros -> ->. Qed.

Lemma results_user c w : results (user c w) = results w ++ omap result_of [c].
Proof. unfold results. cbn. by rewrite omap_app. Qed.

Lemma keeps_user_error e w : keeps w (user (NodesFound 0 (Some e)) w).
Proof.
  split; [done|]. unfold successes. rewrite results_user, filter_app, length_app.
  change (omap result_of [NodesFound 0 (Some e)]) with [Some e]. cbn [length]. rewrite filter_cons_False by done.
  cbn. lia.
Qed.

Lemma on_journey_keeps {A} (m : Journey.journey → outcome (A * Journey.journey)) x w w' :
  (∀ j x j', m j = Ret (x, j') → Journey.completed j' = Journey.completed j) →
  on_journey 0 m w = Ret (x, w') → keeps w w'.
Proof.
  intros Hm E. unfold on_journey in E. apply obind_Ret in E as (j & Ej & E).
  apply obind_Ret in E as ([y j'] & Em & [= <- <-]). apply (go_index_inv _ 0) in Ej.
  split; [|done]. unfold completed_of. cbn. rewrite list_lookup_insert_eq by (by eapply lookup_lt_Some).
  rewrite Ej. cbn. f_equal. by eapply Hm.
Qed.

Lemma nodes_loop_keeps now target ns w r w' : nodes_loop now 0 target ns w = Ret (r, w') → keeps w w'.
Proof.
  revert w. induction ns as [|o ns IH]; intros w E; cbn [nodes_loop] in E; [by injection E as _ <-|].
  apply obind_Ret in E as (n & _ & E). apply obind_Ret in E as ([err w1] & Es & E).
  apply send_app in Es as [cl Es]. assert (Hk : keeps w w1) by (by apply keeps_app; rewrite Es).
  destruct err as [e|].
  - injection E as _ <-. apply (keeps_trans w w1); [done|apply keeps_user_error].
  - apply (keeps_trans w w1); [done|by apply IH].
Qed.

Lemma discover_keeps now nodes ns w r w' :
  ofold (discover now) (ns, w) nodes = Ret (r, w') → keeps w w'.
Proof.
  revert ns w. induction nodes as [|n nodes IH]; intros ns w E; cbn [ofold] in E; [by injection E as _ <-|].
  apply obind_Ret in E as ([ns1 w1] & Ed & E). unfold discover in Ed.
  apply obind_Ret in Ed as (x & _ & Ed). apply obind_Ret in Ed as (t & _ & [= <- <-]).
  by apply IH in E.
Qed.

(** At most one success, and none before the journey is completed. *)
Definition at_most_once w : Prop :=
  ∃ c : bool, completed_of w = Some c ∧ (successes w ≤ if c then 1 else 0)%nat.

Lemma keeps_once w w' : keeps w w' → at_most_once w → at_most_once w'.
Proof. intros [A1 A2] (c & Hc & Hs). exists c. by rewrite A1, A2. Qed.

(** [if j.finish(false) { callback(nil) }] *)
Lemma finish_once w x w' :
  on_journey 0 (λ j, Ret (Journey.finish false j)) w = Ret (x, w') → at_most_once w →
  at_most_once (if x : bool then user (NodesFound 0 None) w' else w').
Proof.
  intros E (c & Hc & Hs). unfold on_journey in E. apply obind_Ret in E as (j & Ej & E).
  apply (go_index_inv _ 0) in Ej. cbn [obind] in E. unfold completed_of in Hc. rewrite Ej in Hc.
  injection Hc as <-. destruct (Journey.finish false j) as [won j'] eqn:Ef. injection E as <- <-.
  assert (Hl : (0 < length (a_journeys (w_app w)))%nat) by (by eapply lookup_lt_Some).
  unfold Journey.finish in Ef. destruct (Journey.completed j || _ || _) eqn:Eb; injection Ef as <- <-.
  - exists (Journey.completed j). unfold completed_of. cbn. by rewrite list_lookup_insert_eq.
  - apply orb_false_iff in Eb as [Eb _]. apply orb_false_iff in Eb as [Eb _]. rewrite Eb in Hs.
    exists true. unfold completed_of, successes. rewrite results_user. cbn. rewrite list_lookup_insert_eq by done.
    split; [done|]. unfold successes, results in Hs. rewrite filter_app, length_app.
    change (length (filter _ [None])) with 1%nat. unfold results. cbn. lia.
Qed.

Lemma findNodeCallback_once now target event err w r w' :
  findNodeCallback journey_hash now target 0 event err w = Ret (r, w') → at_most_once w → at_most_once w'.
Proof.
  unfold findNodeCallback. intros E Hw. apply obind_Ret in E as ([[c se] w1] & E1 & E).
  apply on_journey_keeps in E1; [|intros j x j' [= <- <-]; by destruct (_ <? _)].
  apply (keeps_once _ _ E1) in Hw. destruct err as [e|].
  { destruct se; injection E as _ <-; [|done]. apply (keeps_once w1); [apply keeps_user_error|done]. }
  destruct event as [ev|]; [|done]. destruct (e_payload ev) as [p|].
  2:{ injection E as _ <-. apply (keeps_once w1); [apply keeps_user_error|done]. }
  apply obind_Ret in E as ([ns w2] & E2 & E). apply (keeps_once _ _ (discover_keeps _ _ _ _ _ _ E2)) in Hw.
  apply obind_Ret in E as ([u w3] & E3 & E).
  apply on_journey_keeps in E3;
    [|intros j x j' Ea; apply obind_Ret in Ea as (j1 & Ea & [= <- <-]); by eapply add_completed].
  apply (keeps_once _ _ E3) in Hw. apply obind_Ret in E as ([nx w4] & E4 & E).
  apply on_journey_keeps in E4; [|intros j x j'; apply next_completed].
  apply (keeps_once _ _ E4) in Hw. destruct nx as [nx|].
  - apply obind_Ret in E as ([b w5] & E5 & [= _ <-]). by apply (keeps_once _ _ (nodes_loop_keeps _ _ _ _ _ _ E5)).
  - apply obind_Ret in E as ([won w5] & E5 & [= _ <-]). by apply finish_once in E5.
Qed.

Lemma hears_once w w' : hears journey_hash w w' → at_most_once w → at_most_once w'.
Proof.
  induction 1 as [|w now target event err r w1 w2 E _ IH|w w1 w2 Ej El _ IH]; [done| |]; intros Hw; apply IH.
  - by eapply findNodeCallback_once.
  - apply (keeps_once w w1); [|done]. by apply keeps_app.
Qed.

(** ** Lemmas: late timeouts *)

(** The search of the bootstrap is over: nothing in flight, no routes left. *)
Definition quiet w : Prop :=
  ∃ j, journey_at 0 w j ∧ Journey.inflight j = 0 ∧ Journey.routes j = 0%nat.

Lemma late_timeout n received now target w :
  quiet w →
  run_br journey_hash n received now (CbFindNode target 0) None (Some ErrRequestTimeout) w =
    if (received + n <? S (length (results w)))%nat then Blocked
    else Ret (true, user (NodesFound 0 (Some ErrRequestTimeout)) w).
Proof.
  intros (j & Hj & Hi & Hr). unfold run_br, run, findNodeCallback, on_journey.
  rewrite (go_index_Some _ _ _ Hj). cbn [obind]. unfold Journey.responseReceived. rewrite Hi.
  cbn [Z.ltb Z.compare]. rewrite Hi, Hr. cbn [obind andb Z.ltb Z.compare Nat.ltb Nat.leb].
  set (w1 := on_app _ w). assert (Hw1 : w1 = w).
  { subst w1. unfold on_app, set_journeys. rewrite list_insert_id by done. by destruct w as [? ? ? ? ? ? ? ? ? []]. }
  rewrite Hw1, results_user, length_app. change (length (omap result_of _)) with 1%nat.
  by rewrite Nat.add_1_r.
Qed.

(** A stale request of the bootstrap. *)
Definition stale (now : Z) w (k : Z) : Prop :=
  ∃ target t, w_requests w !! k = Some (Cache.mkRequest (CbFindNode target 0) t) ∧ t < now.

Abbreviation sweep n received now := (Cache.cleanup w_requests set_requests (run_br journey_hash n received now) now).

Lemma sweep_stale n received now ks w :
  quiet w → NoDup ks → Forall (stale now w) ks → (length (results w) ≤ received + n)%nat →
  if (length (results w) + length ks <=? received + n)%nat
  then ∃ w', sweep n received now ks w = Ret w' ∧
    results w' = results w ++ replicate (length ks) (Some ErrRequestTimeout)
  else sweep n received now ks w = Blocked.
Proof.
  revert w. induction ks as [|k ks IH]; intros w Hq Hnd Hst Hroom; cbn [length].
  { rewrite Nat.add_0_r, (proj2 (Nat.leb_le _ _)) by done. exists w. by rewrite app_nil_r. }
  apply NoDup_cons in Hnd as [Hk Hnd]. apply Forall_cons in Hst as [(target & t & Hreq & Ht) Hst].
  unfold Cache.cleanup. cbn [ofold]. unfold Cache.cleanup_visit at 1 3. rewrite Hreq.
  cbn [Cache.ttl Cache.callback_of]. unfold After. rewrite (proj2 (Z.ltb_lt _ _) Ht), late_timeout by done.
  destruct (Nat.ltb_spec (received + n) (S (length (results w)))) as [Hlt|Hle]; cbn [obind].
  { by rewrite (proj2 (Nat.leb_gt _ _)) by lia. }
  set (w1 := set_requests _ _).
  assert (Hr1 : results w1 = results w ++ [Some ErrRequestTimeout]).
  { transitivity (results (user (NodesFound 0 (Some ErrRequestTimeout)) w)); [done|]. by rewrite results_user. }
  specialize (IH w1). rewrite Hr1, length_app in IH. cbn [length] in IH.
  rewrite <-Nat.add_assoc in IH. cbn [Nat.add] in IH. rewrite <-app_assoc in IH. apply IH; [done|done| |lia].
  apply Forall_forall. intros k' Hk'. destruct (proj1 (Forall_forall _ _) Hst k' Hk') as (target' & t' & Hreq' & Ht').
  exists target', t'. split; [|done]. subst w1. cbn. rewrite lookup_delete_ne; [done|]. intros ->. done.
Qed.
End proofs.

(** ** Properties *)
Section claims.
Context `{Env} `{GoSort} {St : Type} `{Storage St}.
Context (journey_hash : bytes → Z).
Context (randomID : bytes) (GOMAXPROCS : Z) (GOOS : string) (Getenv : string → string).
Context (open_storage : backend → St + Z) (Resolve : string → option UDPAddr) (Listen : nat → bool).
Abbreviation W := (world St cb app).
Abbreviation start := (New randomID GOMAXPROCS GOOS Getenv open_storage Resolve Listen).

Lemma new_once now cfg cfg' (w : W) running wg :
  start now cfg = Ret (Waiting cfg' w running wg) → at_most_once w.
Proof.
  unfold New, newCache, newPacketManager, NewLatencyRouter. intros E. cbn [Datatypes.app Z.add] in E.
  destruct (with_defaults _ _ _) as [cfg1|]; [|done].
  destruct (ensure_storage _ _ _ _) as [e|[[s cfg2] sto]]; [done|].
  destruct (Resolve _) as [addr|]; [|done]. cbv zeta in E.
  destruct (listen _ _ _ _) as [[k r]|[[bs r] wg']]; [done|].
  apply obind_Ret in E as (t & _ & E). destruct (resolve_all _ _) as [a|bn]; [done|].
  apply obind_Ret in E as (w1 & E & [= _ <- _ _]). unfold findNodes in E.
  apply obind_Ret in E as ([b w2] & E & [= <-]). cbn in E. apply nodes_loop_keeps in E.
  apply (keeps_once _ _ E). exists false. split; [done|]. cbn. lia.
Qed.

(** C16: a bootstrap reports success once.  However the answers and timeouts of
    its requests arrive, at most one of the results that [New] receives is a
    success: with two addresses or more, [New] returns only after all but one of
    the results were failures, that is after a timeout, even when every address
    answers at once. *)
Theorem bootstrap_waits_for_failures now cfg cfg' (w w' : W) running wg :
  start now cfg = Ret (Waiting cfg' w running wg) →
  hears journey_hash w w' →
  (length (filter (λ r, r = None) (results w')) ≤ 1)%nat ∧
  (bootstrapped cfg' (results w') running wg ≠ None →
   (length (c_BootstrapAddresses cfg') - 1 ≤ length (filter (λ r, r ≠ None) (results w')))%nat).
Proof.
  intros E Hh. destruct (hears_once _ _ _ Hh (new_once _ _ _ _ _ _ E)) as (c & _ & Hs).
  unfold successes in Hs. assert (Hle : (length (filter (λ r, r = None) (results w')) ≤ 1)%nat)
    by (destruct c; lia).
  split; [done|]. unfold bootstrapped. destruct (Nat.ltb_spec (length (results w')) (length (c_BootstrapAddresses cfg')))
    as [|Hn]; [done|]. intros _. pose proof (length_filter_split (λ r, r = None) (results w')) as Hl. cbn beta in Hl. lia.
Qed.

(** C15: the timeouts that follow a bootstrap stop the request cache.  Every
    request of the search that was answered with nodes stays registered, and when
    the search is over each of them reports its timeout to the channel of the
    bootstrap, which nobody reads any more once [New] has returned.  The sweep of
    the cache gets through as long as the results fit into what [New] took and
    the capacity of the channel, and blocks for ever on the first one too many:
    from then on no request of the node times out. *)
Theorem stale_bootstrap_blocks_sweep n now ks (w : W) :
  quiet w → NoDup ks → Forall (stale now w) ks → (n ≤ length (results w) ≤ n + n)%nat →
  if (length (results w) + length ks <=? n + n)%nat
  then ∃ w', Cache.cleanup w_requests set_requests (run_br journey_hash n n now) now ks w = Ret w' ∧
    results w' = results w ++ replicate (length ks) (Some ErrRequestTimeout)
  else Cache.cleanup w_requests set_requests (run_br journey_hash n n now) now ks w = Blocked.
Proof. intros Hq Hnd Hst [_ Hroom]. by apply sweep_stale. Qed.
End claims.

(** ** A concrete bootstrap

    A node joins through the nodes [boot]; the answers to its requests arrive
    through the cache. *)
Abbreviation demo_W := (world (gmap Z Memory.item) cb app).

(** The answer to request [rid] that lists the nodes [ids]. *)
Definition nodes_found (rid : Z) (ids : list Z) : @Event tagged_Tables :=
  mkEvent tagged_Tables (id_of rid) (id_of 3) FIND_NODE true
    (Some (TFindNode (mkFindNode [] ((λ b, mkWireNode (id_of b) [127; 0; 0; 1; 0; b]) <$> ids)))).

Definition answer (rid : Z) (ids : list Z) (w : demo_W) : outcome demo_W :=
  @Cache.callback _ _ _ be w_requests set_requests (@run _ (demo_Env false) insertion_GoSort _ be 101)
    (id_of rid) (Some (nodes_found rid ids)) None w.

Definition joined (boot : list string) (answers : list (Z * list Z)) : outcome demo_W :=
  let! s := demo_New (λ _, true) boot in
  match s with
  | Waiting _ w _ _ => ofold (λ w a, answer a.1 a.2 w) w answers
  | Failed _ _ => Blocked
  end.

(** The bootstrap node lists two nodes, which know no others. *)
Definition small_network : outcome demo_W := joined ["boot"] [(0, [7; 8]); (1, []); (2, [])].

Lemma stale_bootstrap_blocks_sweep_witness :
  ∃ w, small_network = Ret w ∧ results w = [None] ∧
    @Cache.cleanup _ _ _ w_requests set_requests (@run_br _ (demo_Env false) insertion_GoSort _ be 1 1 1000)
      1000 [be (id_of 0); be (id_of 1)] w = Blocked.
Proof.
  assert (∃ w, small_network = Ret w ∧ results w = [None] ∧ quiet w ∧
    Forall (stale 1000 w) [be (id_of 0); be (id_of 1)]) as (w & E & Er & Hq & Hst).
  { eexists. split; [vm_compute; reflexivity|]. split; [reflexivity|]. split.
    - eexists. split; [reflexivity|]. split; reflexivity.
    - apply Forall_cons. split; [eexists; eexists; split; [vm_compute; reflexivity|lia]|].
      apply Forall_cons. split; [eexists; eexists; split; [vm_compute; reflexivity|lia]|].
      apply Forall_nil. exact I. }
  exists w. split; [exact E|]. split; [exact Er|].
  pose proof (@stale_bootstrap_blocks_sweep _ (demo_Env false) insertion_GoSort _ be 1 1000
    [be (id_of 0); be (id_of 1)] w Hq ltac:(decided) Hst) as H.
  rewrite Er in H. apply H. cbn [length]. lia.
Defined.

(** Both bootstrap nodes answer, and nobody knows further nodes: one success, and
    [New] still waits. *)
Abbreviation heard ev err := (@findNodeCallback _ (demo_Env false) insertion_GoSort _ be 101 (id_of 0) 0 ev err).

Lemma two_answers :
  ∃ cfg w running wg w1 w2 w3, demo_New (λ _, true) ["a"; "b"] = Ret (Waiting cfg w running wg) ∧
    c_BootstrapAddresses cfg = ["a"; "b"] ∧
    heard (Some (nodes_found 0 [])) None w = Ret (true, w1) ∧
    heard (Some (nodes_found 1 [])) None w1 = Ret (false, w2) ∧ results w2 = [None] ∧
    heard None (Some ErrRequestTimeout) w2 = Ret (true, w3) ∧ length (results w3) = 2%nat.
Proof.
  do 7 eexists. split; [vm_compute; reflexivity|]. split; [reflexivity|].
  split; [vm_compute; reflexivity|]. split; [vm_compute; reflexivity|]. split; [reflexivity|].
  split; [vm_compute; reflexivity|reflexivity].
Qed.

Lemma bootstrap_waits_for_failures_witness :
  ∃ (cfg : Config (gmap Z Memory.item)) (w : demo_W) running wg w2 w3, @hears _ (demo_Env false) insertion_GoSort _ be w w2 ∧
    results w2 = [None] ∧ bootstrapped cfg (results w2) running wg = None ∧
    @hears _ (demo_Env false) insertion_GoSort _ be w2 w3 ∧
    bootstrapped cfg (results w3) running wg ≠ None ∧
    (length (c_BootstrapAddresses cfg) - 1 ≤ length (filter (λ r, r ≠ None) (results w3)))%nat.
Proof.
  destruct two_answers as (cfg & w & running & wg & w1 & w2 & w3 & E & Eb & E1 & E2 & Er & E3 & El).
  assert (Hb : bootstrapped cfg (results w3) running wg ≠ None).
  { unfold bootstrapped. rewrite El, Eb. destruct (_ && _); discriminate. }
  exists cfg, w, running, wg, w2, w3.
  split; [eapply hears_call; [exact E1|]; eapply hears_call; [exact E2|]; apply hears_refl|].
  split; [exact Er|]. split; [unfold bootstrapped; rewrite Er, Eb; reflexivity|].
  split; [eapply hears_call; [exact E3|]; apply hears_refl|]. split; [exact Hb|]. revert Hb.
  apply (@bootstrap_waits_for_failures _ (demo_Env false) insertion_GoSort _ be (id_of 9) 4 "linux" (λ _, "")
    (λ _, inl Memory.newInMemoryStorage) demo_resolve (λ _, true) 100 (demo_config ["a"; "b"]) cfg w w3 running wg E).
  eapply hears_call; [exact E1|]. eapply hears_call; [exact E2|]. eapply hears_call; [exact E3|]. apply hears_refl.
Defined.
End Bootstrap.
