(* ===== verification/Service.v ===== *)
(** * The service of a node: storing and finding, from the start

    Composes the components: a node started by [New] without bootstrap addresses
    is alone in its routing table, and serves [Store] and [Find] from its own
    storage.  The first theorem is about the in-memory storage, the second about
    the daemon of [cmd/emo/main.go], which uses the database; [main] and the
    parsing of its flags are modelled here. *)
From stdpp Require Import base list numbers gmap strings.
From Stdlib Require Import Lia Ascii.
From Stdlib Require String.
From S2P Require Import Prelude Keyspace Bucket RoutingTable Journey Packet.
From S2P Require Import Storage Event Cache Listener LatencyRouter Dht Config Database Node.
Local Open Scope string_scope.
Local Open Scope list_scope.
Local Open Scope Z_scope.

(** ** The command *)
Module Main.

(** The flags of the daemon. *)
Record flags := mkFlags { f_listen : string; f_listeners : Z; f_timeout : Z }.
Definition default_flags : flags := mkFlags "0.0.0.0:9000" 4 (Z.quot minute 2).

(** The ways out of [FlagSet.Parse] with [ExitOnError]. *)
Inductive parsed (A : Type) := Parsed (a : A) | Usage | BadFlags.
Arguments Parsed {A} _.
Arguments Usage {A}.
Arguments BadFlags {A}.

Section flags.
(** [strconv.ParseInt(s, 0, 64)] and [time.ParseDuration]. *)
Variables (ParseInt ParseDuration : string → option Z).

(** [flag.Value.Set(value)] for the flag [name]; [None] when there is none of
    that name. *)
Definition set_flag (name value : string) (f : flags) : option (parsed flags) :=
  if String.eqb name "listen" then Some (Parsed (mkFlags value (f_listeners f) (f_timeout f)))
  else if String.eqb name "listeners" then
    Some (match ParseInt value with
          | Some n => Parsed (mkFlags (f_listen f) n (f_timeout f))
          | None => BadFlags
          end)
  else if String.eqb name "timeout" then
    Some (match ParseDuration value with
          | Some d => Parsed (mkFlags (f_listen f) (f_listeners f) d)
          | None => BadFlags
          end)
  else None.

(** The name and the value around the first ['='] behind the first character. *)
Fixpoint split_equals (s : string) : string * option string :=
  match s with
  | EmptyString => (EmptyString, None)
  | String c s =>
      if Ascii.eqb c "="%char then (EmptyString, Some s)
      else let '(n, v) := split_equals s in (String c n, v)
  end.

Definition split_flag (name : string) : string * option string :=
  match name with
  | EmptyString => (EmptyString, None)
  | String c s => let '(n, v) := split_equals s in (String c n, v)
  end.

(** The name behind one or two dashes; [inl true] ends the flags and is
    dropped, [inl false] ends the flags. *)
Definition flag_name (s : string) : bool + string :=
  match s with
  | String "-"%char (String "-"%char EmptyString) => inl true
  | String "-"%char (String "-"%char name) => inr name
  | String "-"%char (String c name) => inr (String c name)
  | _ => inl false
  end.

Definition bad_syntax (name : string) : bool :=
  match name with
  | EmptyString => true
  | String c _ => Ascii.eqb c "-"%char || Ascii.eqb c "="%char
  end.

Definition known_flag (name : string) : bool :=
  String.eqb name "listen" || String.eqb name "listeners" || String.eqb name "timeout".

(** [FlagSet.Parse]: a flag takes its value from behind ['='] or from the next
    argument. *)
Fixpoint Parse (args : list string) (f : flags) : parsed flags :=
  match args with
  | [] => Parsed f
  | s :: args =>
      match flag_name s with
      | inl _ => Parsed f
      | inr name =>
          if bad_syntax name then BadFlags
          else
            let '(name, value) := split_flag name in
            if negb (known_flag name) then
              if String.eqb name "help" || String.eqb name "h" then Usage else BadFlags
            else
              match value, args with
              | Some v, _ =>
                  match set_flag name v f with Some (Parsed f) => Parse args f | _ => BadFlags end
              | None, v :: args =>
                  match set_flag name v f with Some (Parsed f) => Parse args f | _ => BadFlags end
              | None, [] => BadFlags
              end
      end
  end.
End flags.

Section main.
Context {St : Type}.
Variables (ParseInt ParseDuration : string → option Z).

Definition daemon_config (f : flags) : Config St :=
  mkConfig None (f_listen f) [] (f_listeners f) (f_timeout f) None LevelDBStorage "" "" 0 0 0 false.

(** [main] up to [emo.New]: it exits with a status, or starts a node. *)
Definition main (args : list string) : Z + Config St :=
  match args with
  | _ :: cmd :: rest =>
      if String.eqb cmd "daemon" then
        match Parse ParseInt ParseDuration rest default_flags with
        | Parsed f => inr (daemon_config f)
        | Usage => inl 0
        | BadFlags => inl 2
        end
      else inl 1
  | _ => inl 1
  end.
End main.
End Main.

Module Service.
Import Listener Dht Node.

Lemma valid_id_zlen id : valid_id id → zlen id = KEY_BYTES.
Proof. intros [Hl _]. unfold zlen. by rewrite Hl. Qed.
Lemma Equal_refl a : Equal a a = true.
Proof. by apply Bucket.Equal_spec. Qed.

(** ** Lemmas: the table of a node that is alone *)
Lemma bind_replicate_insert {A B} (f : A → list B) (e x : A) n i :
  f e = [] → (i < n)%nat → <[i := x]> (replicate n e) ≫= f = f x.
Proof.
  intros He. assert (Hn : ∀ m, replicate m e ≫= f = []).
  { induction m as [|m IH]; [done|]. cbn. by rewrite He, IH. }
  revert i. induction n as [|n IH]; intros i Hi; [lia|]. destruct i as [|i]; cbn.
  - by rewrite Hn, app_nil_r.
  - rewrite He. apply IH. lia.
Qed.

Lemma insert_into_new now n addr :
  valid_id (n_id n) →
  ∃ t, RoutingTable.insert now (n_id n) addr 0 false (RoutingTable.newRoutingTable n) = Ret t ∧
    RoutingTable.wf t ∧ RoutingTable.all_live t = [mkNode (n_id n) addr now 0 0 0 false].
Proof.
  intros Hn. pose proof (RoutingTable.wf_newRoutingTable n Hn) as Hwf.
  set (t0 := RoutingTable.newRoutingTable n) in *.
  pose proof (RoutingTable.home_range t0 (n_id n) Hwf Hn) as Hr. unfold RoutingTable.in_range in Hr.
  set (h := Z.to_nat (RoutingTable.home t0 (n_id n))).
  assert (Hb : RoutingTable.buckets t0 !! h = Some Bucket.empty).
  { apply lookup_replicate_2. subst h. unfold KEY_BITS, KEY_BYTES. lia. }
  destruct (Bucket.insert_spec now (n_id n) addr 0 false _ Bucket.wf_empty) as (b' & E & Hb' & _ & Hs).
  injection Hs as Hl Hc.
  destruct (RoutingTable.on_bucket_spec t0 (n_id n) _ _ true b' Hwf Hn Hb E Hb') as (t & Et & Hwf' & _ & Hbs).
  { intros x. rewrite Hl, Hc. cbn. rewrite elem_of_cons. tauto. }
  exists t. unfold RoutingTable.insert. rewrite Et. split_and!; [done|done|].
  unfold RoutingTable.all_live. rewrite Hbs. cbn [RoutingTable.buckets t0 RoutingTable.newRoutingTable].
  rewrite bind_replicate_insert; [done|done|]. subst h. unfold KEY_BITS, KEY_BYTES. lia.
Qed.

Lemma closestN_alone `{GoSort} t n id :
  RoutingTable.wf t → RoutingTable.all_live t = [n] → valid_id id →
  RoutingTable.closestN id (Z.of_nat K) t = Ret [n].
Proof.
  intros Hwf Ha Hid.
  destruct (RoutingTable.closestN_result t id (Z.of_nat K) Hwf Hid ltac:(lia))
    as (l1 & l2 & ns & Eo & Hl2 & _ & Hp & _ & ->).
  pose proof (RoutingTable.home_range t id Hwf Hid) as Hr.
  pose proof (RoutingTable.live_prefix_submseteq t _ _ _ Hwf Hr Eo) as Hsub.
  rewrite Ha in Hsub. apply submseteq_length in Hsub. cbn [length] in Hsub.
  destruct Hl2 as [->|Hl2]; [|unfold zlen, K in Hl2; lia]. rewrite app_nil_r in Eo.
  rewrite <-Eo, <-(RoutingTable.all_live_perm t Hwf _ Hr), Ha in Hp.
  apply Permutation_singleton_r in Hp as ->. done.
Qed.

Section alone.
Context `{Env} `{GoSort} {St : Type} `{Storage St}.
Context (journey_hash : bytes → Z).
Abbreviation W := (world St cb app).
Implicit Types w : W.

(** The node knows nobody but itself, and no request is under way. *)
Definition alone w : Prop :=
  RoutingTable.wf (w_routing w) ∧ w_requests w = ∅ ∧
  ∃ n, RoutingTable.all_live (w_routing w) = [n] ∧ n_id n = w_localID w.

(** A sequence of writes to the storage, and of calls of [Store]. *)
Definition set_writes (s : St) (ws : list Memory.write) : outcome St :=
  ofold (λ s x, let! '(_, s) := st_Set (Memory.w_now x) (Memory.w_key x) (Memory.w_value x)
    (Memory.w_created x) (Memory.w_ttl x) s in Ret s) s ws.

Definition store_all (ws : list Memory.write) w : outcome W :=
  ofold (λ w x, Store (Memory.w_now x) (Memory.w_key x) (Memory.w_value x) (Memory.w_ttl x) w) w ws.

(** A value that [Store] takes: created when it is stored. *)
Definition storable (x : Memory.write) : Prop :=
  valid_id (Memory.w_key x) ∧ zlen (Memory.w_value x) ≤ VALUE_BYTES ∧ Memory.w_created x = Memory.w_now x.

Lemma store_alone x w s b :
  alone w → storable x →
  st_Set (Memory.w_now x) (Memory.w_key x) (Memory.w_value x) (Memory.w_created x) (Memory.w_ttl x) (w_storage w)
    = Ret (b, s) →
  let op := length (a_stores (w_app w)) in
  Store (Memory.w_now x) (Memory.w_key x) (Memory.w_value x) (Memory.w_ttl x) w =
    Ret (user (Stored op None) (set_storage s (on_app (λ a, set_stores (a_stores a ++ [mkStoreOp 0 1]) a) w))).
Proof.
  intros (Hwf & _ & n & Ha & Hn) (Hk & Hv & Hc) Es. unfold Store. cbv zeta.
  rewrite (proj2 (Z.eqb_eq _ _) (valid_id_zlen _ Hk)), (proj2 (Z.ltb_ge _ _) Hv). cbn [negb].
  rewrite (closestN_alone _ n) by done. cbn [obind]. change (zlen [n]) with 1. cbn [Z.ltb Z.compare Pos.compare Pos.compare_cont length].
  cbn [store_loop]. change (w_localID (on_app _ w)) with (w_localID w). rewrite Hn, Equal_refl.
  cbn [v_Key v_Value v_Created v_TTL]. change (w_storage (on_app _ w)) with (w_storage w).
  rewrite Hc in Es. rewrite Es. done.
Qed.

(** What is the same before and after: the table, the requests, the network. *)
Definition undisturbed w w' : Prop :=
  w_localID w' = w_localID w ∧ w_routing w' = w_routing w ∧ w_requests w' = w_requests w ∧
  w_batches w' = w_batches w ∧ w_sent w' = w_sent w ∧
  a_journeys (w_app w') = a_journeys (w_app w).

Lemma undisturbed_alone w w' : undisturbed w w' → alone w → alone w'.
Proof. unfold undisturbed, alone. intros (-> & -> & -> & _). done. Qed.

Lemma undisturbed_trans w1 w2 w3 : undisturbed w1 w2 → undisturbed w2 w3 → undisturbed w1 w3.
Proof.
  intros (A1 & A2 & A3 & A4 & A5 & A6) (B1 & B2 & B3 & B4 & B5 & B6). unfold undisturbed.
  split_and!; congruence.
Qed.

Lemma store_all_alone ws w s :
  alone w → Forall storable ws → set_writes (w_storage w) ws = Ret s →
  ∃ w', store_all ws w = Ret w' ∧ w_storage w' = s ∧ undisturbed w w' ∧
    a_log (w_app w') = a_log (w_app w) ++
      ((λ i, Stored i None) <$> seq (length (a_stores (w_app w))) (length ws)).
Proof.
  revert w. induction ws as [|x ws IH]; intros w Hw Hst Es; cbn in Es.
  { injection Es as <-. exists w. by rewrite app_nil_r. }
  apply Forall_cons in Hst as [Hx Hst]. apply obind_Ret in Es as (s1 & E1 & Es).
  apply obind_Ret in E1 as ([b s2] & E1 & [= ->]).
  unfold store_all. cbn [ofold]. rewrite (store_alone x w s1 b Hw Hx E1). cbn [obind].
  set (w1 := user _ _). assert (Hu : undisturbed w w1) by done.
  destruct (IH w1) as (w' & E & Hs' & Hu' & Hl'); [by eapply undisturbed_alone|done|done|].
  exists w'. split_and!; [done|done| |].
  - by apply (undisturbed_trans w w1).
  - rewrite Hl'. cbn. rewrite length_app, Nat.add_1_r, <-app_assoc. done.
Qed.

(** A key that the storage has is served from there. *)
Lemma find_stored now key from w vs :
  valid_id key → st_Get key from (w_storage w) = Ret (vs, true) →
  ∃ w', Find journey_hash now key from w = Ret w' ∧ w_requests w' = w_requests w ∧
    w_batches w' = w_batches w ∧ w_sent w' = w_sent w ∧
    a_log (w_app w') = a_log (w_app w) ++
      ((λ v, FoundValue (length (a_journeys (w_app w))) (v_Value v)) <$> vs).
Proof.
  intros Hk Hg. unfold Find. cbv zeta. rewrite (proj2 (Z.eqb_eq _ _) (valid_id_zlen _ Hk)). cbn [negb].
  change (w_storage (on_app _ w)) with (w_storage w). rewrite Hg. cbn [obind].
  set (f := length (a_journeys (w_app w))). set (w1 := on_app _ w).
  eexists. split; [done|]. assert (Hf : ∀ x : W, let x' := foldl (λ w v, user (FoundValue f (v_Value v)) w) x vs in
    w_requests x' = w_requests x ∧ w_batches x' = w_batches x ∧ w_sent x' = w_sent x ∧
    a_log (w_app x') = a_log (w_app x) ++ ((λ v, FoundValue f (v_Value v)) <$> vs)).
  { clearbody f. clear. induction vs as [|v vs IH]; intros x; cbn [foldl]; [by rewrite app_nil_r|].
    destruct (IH (user (FoundValue f (v_Value v)) x)) as (-> & -> & -> & ->). cbn.
    by rewrite <-app_assoc. }
  apply (Hf w1).
Qed.

(** A key that nobody has: the node asks nobody and never says so. *)
Lemma find_missing now key from w vs :
  alone w → valid_id key → st_Get key from (w_storage w) = Ret (vs, false) →
  ∃ w', Find journey_hash now key from w = Ret w' ∧ w_requests w' = w_requests w ∧
    w_batches w' = w_batches w ∧ w_sent w' = w_sent w ∧ a_log (w_app w') = a_log (w_app w).
Proof.
  intros (Hwf & _ & n & Ha & Hn) Hk Hg. unfold Find. cbv zeta.
  rewrite (proj2 (Z.eqb_eq _ _) (valid_id_zlen _ Hk)). cbn [negb].
  change (w_storage (on_app _ w)) with (w_storage w). rewrite Hg. cbn [obind].
  change (w_routing (on_app _ w)) with (w_routing w). rewrite (closestN_alone _ n) by done.
  cbn [obind length Nat.eqb].
  set (f := length (a_journeys (w_app w))). set (w1 := on_app _ w).
  set (j := Journey.newJourney (w_localID w) key (Z.of_nat K)) in *. assert (Hj : journey_at f w1 j).
  { unfold journey_at, w1, f. cbn. rewrite lookup_app_r by done. by rewrite Nat.sub_diag. }
  destruct (on_journey_ok f (λ j, let! j := Journey.add journey_hash (Some <$> [n]) j in Ret (tt, j)) w1 j tt j Hj)
    as (w2 & -> & Hj2 & Hw2 & Hl2).
  { unfold Journey.add. cbn. unfold Journey.add_one. cbn. rewrite Hn, Equal_refl. done. }
  cbn [obind].
  destruct (on_journey_ok f (Journey.next 3) w2 j None j Hj2 eq_refl) as (w3 & -> & _ & Hw3 & Hl3).
  cbn [obind default find_loop]. exists w3. split; [done|]. rewrite Hl3, Hl2. rewrite Hw3, Hw2. done.
Qed.
End alone.

(** ** Lemmas: a start that goes well *)
Section start.
Context `{Env} `{GoSort} {St : Type} `{Storage St}.
Context (randomID : bytes) (GOMAXPROCS : Z) (GOOS : string) (Getenv : string → string).
Context (open_storage : backend → St + Z) (Resolve : string → option UDPAddr) (Listen : nat → bool).
Abbreviation W := (world St cb app).
Abbreviation start := (New randomID GOMAXPROCS GOOS Getenv open_storage Resolve Listen).
Implicit Types cfg : Config St.

(** A configuration under which nothing can go wrong: an identifier of the right
    length or none, an address that resolves, no bootstrap addresses, a storage
    that opens as [s]. *)
Record fine cfg (s : St) : Prop := {
  fine_id : valid_id (default randomID (c_LocalID cfg));
  fine_address : is_Some (Resolve (c_ListenAddress cfg));
  fine_alone : c_BootstrapAddresses cfg = [];
  fine_storage : c_Storage cfg = None;
  fine_open : open_storage (InitializeStorage GOOS Getenv cfg).1 = inl s;
  fine_sockets : ∀ li, Listen li = true;
}.

Lemma fine_ensures cfg s :
  fine cfg s →
  ∃ cfg1 cfg2, with_defaults randomID GOMAXPROCS cfg = Some cfg1 ∧
    ensure_storage GOOS Getenv open_storage cfg1 = inr (s, cfg2, [GStorageSweep]) ∧
    c_LocalID cfg2 = Some (default randomID (c_LocalID cfg)) ∧
    c_ListenAddress cfg2 = c_ListenAddress cfg ∧ c_BootstrapAddresses cfg2 = [].
Proof.
  intros [Hid _ Hb Hs Ho _].
  assert (Hd : ∃ cfg1, with_defaults randomID GOMAXPROCS cfg = Some cfg1 ∧
    c_LocalID cfg1 = Some (default randomID (c_LocalID cfg)) ∧ c_ListenAddress cfg1 = c_ListenAddress cfg ∧
    c_BootstrapAddresses cfg1 = [] ∧ c_Storage cfg1 = None ∧
    (InitializeStorage GOOS Getenv cfg1).1 = (InitializeStorage GOOS Getenv cfg).1).
  { unfold with_defaults. destruct (c_LocalID cfg) as [id|]; cbn in *.
    - rewrite (proj2 (Z.eqb_eq _ _) (valid_id_zlen _ Hid)). cbn. eexists. split; [done|].
      split_and!; [done..|]. unfold InitializeStorage. cbn. by repeat case_match.
    - eexists. split; [done|]. split_and!; [done..|]. unfold InitializeStorage. cbn. by repeat case_match. }
  destruct Hd as (cfg1 & E1 & I1 & A1 & B1 & S1 & O1). exists cfg1.
  pose proof (InitializeStorage_keeps GOOS Getenv cfg1) as (K1 & K2 & K3).
  unfold ensure_storage. rewrite S1. destruct (InitializeStorage GOOS Getenv cfg1) as [b cfg2]. cbn in *.
  rewrite O1, Ho. eexists. split_and!; [done|done|..]; cbn; congruence.
Qed.

Lemma start_alone now cfg s :
  fine cfg s →
  ∃ cfg' w running wg, start now cfg = Ret (Waiting cfg' w running wg) ∧
    bootstrapped cfg' [] running wg = Some (inr (running ++ [GRefreshPeers; GRefreshKeys], wg + 2)) ∧
    alone w ∧ w_storage w = s ∧ a_log (w_app w) = [] ∧ a_stores (w_app w) = [] ∧
    length (a_journeys (w_app w)) = 1%nat ∧ w_sent w = [] ∧ Forall (λ b, queued b = []) (w_batches w).
Proof.
  intros Hf. destruct (fine_ensures cfg s Hf) as (cfg1 & cfg2 & E1 & E2 & Hid & Ha & Hb).
  destruct Hf as [Hval [addr Haddr] _ _ _ Hl]. unfold New, newCache, newPacketManager, NewLatencyRouter. cbn [Datatypes.app Z.add]. rewrite E1, E2, Ha, Haddr, Hid. 
  set (id := default randomID (c_LocalID cfg)) in *. cbv zeta.
  change (default [] (Some id)) with id.
  pose proof (listen_result Listen cfg2 ([GStorageSweep] ++ [GCacheSweep; GPacketSweep; GLatencyUpdates]) 1) as Hr.
  destruct (listen _ _ _ _) as [[k r]|[[bs r] wg]]; [destruct Hr as (_ & Hk & _); by rewrite Hl in Hk|].
  destruct Hr as (-> & -> & ->). set (n := mkNode id (Some addr) time_zero 0 0 0 false).
  destruct (insert_into_new now n (Some addr) Hval) as (t & Et & Hwf & Hlive).
  change (n_id n) with id in Et. rewrite Et. cbn [obind]. rewrite Hb. cbn.
  do 4 eexists. split; [done|]. unfold bootstrapped. rewrite Hb. cbn. split; [done|].
  split_and!; [|done..|]; [|by apply Forall_replicate].
  split_and!; [done|done|]. eexists. split; [done|]. done.
Qed.
End start.

(** The database takes any writes, and gives nothing back. *)
Lemma database_writes `{Gob} `{LevelDB} hash ws s :
  Database.structs_only s →
  ∃ s', set_writes (H2 := Database.Database_Storage hash) s ws = Ret s' ∧ Database.structs_only s'.
Proof.
  intros Hs. apply ofold_inv; [done|]. intros s1 x _ Hs1. cbn [st_Set Database.Database_Storage].
  destruct (Database.set_structs hash (Memory.w_now x) (Memory.w_key x) (Memory.w_value x) (Memory.w_created x)
    (Memory.w_ttl x) s1 Hs1) as (ok & s' & -> & Hs'). by exists s'.
Qed.

(** [main] starts a node only with the configuration of the daemon. *)
Lemma main_daemon {St} PI PD args (cfg : Config St) :
  Main.main PI PD args = inr cfg → ∃ f, cfg = Main.daemon_config f.
Proof.
  unfold Main.main. destruct args as [|a [|cmd rest]]; [done..|]. destruct (String.eqb cmd "daemon"); [|done].
  destruct (Main.Parse _ _ _ _) as [f| |]; [|done..]. intros [= <-]. by exists f.
Qed.

(** ** Properties *)
Section claims.
Context `{Env} `{GoSort} (journey_hash : bytes → Z).
Context (randomID : bytes) (GOMAXPROCS : Z) (GOOS : string) (Getenv : string → string).
Context (Resolve : string → option UDPAddr) (Listen : nat → bool).

(** C11: a node started alone serves what is stored.  [New] with the in-memory
    storage comes up without waiting for anybody; every [Store] of a valid key
    and value then reports success at once, and a [Find] of a key calls back
    with exactly the values stored for it, each once and in the order in which
    they first came, without sending or registering anything.  For a key that
    was never stored the callback is not called, then or later. *)
Theorem standalone_node_serves hash range open_storage now cfg ws now' key :
  fine randomID GOOS Getenv open_storage Resolve Listen cfg Memory.newInMemoryStorage →
  Forall storable ws → valid_id key → Memory.collision_free hash (key :: Memory.inputs ws) →
  ∃ cfg' w running wg w1 w2,
    New randomID GOMAXPROCS GOOS Getenv open_storage Resolve Listen now cfg =
      Ret (Waiting cfg' w running wg) ∧
    bootstrapped cfg' [] running wg = Some (inr (running ++ [GRefreshPeers; GRefreshKeys], wg + 2)) ∧
    store_all (H2 := Memory.Memory_Storage hash range) ws w = Ret w1 ∧
    a_log (w_app w1) = (λ i, Stored i None) <$> seq 0 (length ws) ∧
    Find (H2 := Memory.Memory_Storage hash range) journey_hash now' key time_zero w1 = Ret w2 ∧
    a_log (w_app w2) = a_log (w_app w1) ++ ((λ v, FoundValue 1 (v_Value v)) <$> Memory.spec_values key ws) ∧
    w_requests w2 = ∅ ∧ w_sent w2 = [] ∧ Forall (λ b, queued b = []) (w_batches w2).
Proof.
  intros Hf Hws Hk Hc. destruct (Memory.set_all_get hash ws key Hc) as (s & Es & Hg).
  destruct (start_alone randomID GOMAXPROCS GOOS Getenv open_storage Resolve Listen now cfg _ Hf)
    as (cfg' & w & running & wg & E & Eb & Ha & Hst & Hl & Hss & Hj & Hsent & Hbs).
  destruct (store_all_alone (H2 := Memory.Memory_Storage hash range) ws w s Ha Hws) as (w1 & E1 & Hs1 & Hu & Hl1).
  { by rewrite Hst. }
  pose proof (undisturbed_alone _ _ Hu Ha) as Ha1. destruct Hu as (_ & _ & Hq & Hb & Hse & Hjs).
  assert (Hq1 : w_requests w1 = ∅) by apply Ha1. rewrite Hl, Hss in Hl1.
  assert (Hfind : ∃ w2, Find (H2 := Memory.Memory_Storage hash range) journey_hash now' key time_zero w1 = Ret w2 ∧
    w_requests w2 = w_requests w1 ∧ w_batches w2 = w_batches w1 ∧ w_sent w2 = w_sent w1 ∧
    a_log (w_app w2) = a_log (w_app w1) ++ ((λ v, FoundValue 1 (v_Value v)) <$> Memory.spec_values key ws)).
  { rewrite <-Hs1 in Hg. case_bool_decide as Hin.
    - rewrite <-Hj, <-Hjs. by apply (find_stored (H2 := Memory.Memory_Storage hash range)).
    - replace (Memory.spec_values key ws) with (@nil Value).
      + rewrite app_nil_r. by apply (find_missing (H2 := Memory.Memory_Storage hash range)) with (vs := Memory.spec_values key ws).
      + symmetry. apply elem_of_nil_inv. intros v (_ & _ & ?)%Memory.spec_values_from. done. }
  destruct Hfind as (w2 & E2 & R2 & B2 & S2 & L2). exists cfg', w, running, wg, w1, w2.
  split_and!; [done..|congruence|congruence|by rewrite B2, Hb].
Qed.

(** C19: the daemon forgets what it stores.  Whatever the command line, [main]
    starts a node over the database; on a fresh one every [Store] reports success
    at once, and a [Find] of the key just stored never calls back: it finds
    nothing in the database, has nobody to ask, and does not say so. *)
Theorem daemon_forgets `{Gob} `{LevelDB} PI PD args hash open_storage s now cfg ws now' key :
  Main.main PI PD args = inr cfg →
  valid_id randomID → is_Some (Resolve (c_ListenAddress cfg)) → (∀ li, Listen li = true) →
  (∀ path, open_storage (LevelDBBackend path) = inl s) → ldb_contents s = ∅ →
  Forall storable ws → valid_id key →
  ∃ cfg' w running wg w1 w2,
    New randomID GOMAXPROCS GOOS Getenv open_storage Resolve Listen now cfg =
      Ret (Waiting cfg' w running wg) ∧
    bootstrapped cfg' [] running wg = Some (inr (running ++ [GRefreshPeers; GRefreshKeys], wg + 2)) ∧
    store_all (H2 := Database.Database_Storage hash) ws w = Ret w1 ∧
    a_log (w_app w1) = (λ i, Stored i None) <$> seq 0 (length ws) ∧
    Find (H2 := Database.Database_Storage hash) journey_hash now' key time_zero w1 = Ret w2 ∧
    a_log (w_app w2) = a_log (w_app w1) ∧ w_requests w2 = ∅ ∧ w_sent w2 = [] ∧
    Forall (λ b, queued b = []) (w_batches w2).
Proof.
  intros Hm Hid Hr Hli Ho He Hws Hk. destruct (main_daemon _ _ _ _ Hm) as [f ->].
  assert (Hs : Database.structs_only s) by (unfold Database.structs_only; rewrite He; apply map_Forall_empty).
  destruct (database_writes hash ws s Hs) as (s' & Es & Hs').
  destruct (start_alone randomID GOMAXPROCS GOOS Getenv open_storage Resolve Listen now (Main.daemon_config f) s)
    as (cfg' & w & running & wg & E & Eb & Ha & Hst & Hl & Hss & _ & Hsent & Hbs).
  { split; [done..|apply Ho|done]. }
  destruct (store_all_alone (H2 := Database.Database_Storage hash) ws w s' Ha Hws) as (w1 & E1 & Hs1 & Hu & Hl1).
  { by rewrite Hst. }
  pose proof (undisturbed_alone _ _ Hu Ha) as Ha1. destruct Hu as (_ & _ & Hq & Hb & Hse & _).
  assert (Hq1 : w_requests w1 = ∅) by apply Ha1. rewrite Hl, Hss in Hl1.
  destruct (find_missing (H2 := Database.Database_Storage hash) journey_hash now' key time_zero w1 [] Ha1 Hk)
    as (w2 & E2 & R2 & B2 & S2 & L2).
  { rewrite Hs1. by apply Database.get_structs. }
  exists cfg', w, running, wg, w1, w2. split_and!; [done..|congruence|congruence|by rewrite B2, Hb].
Qed.
End claims.

(** ** Concrete nodes *)
Definition demo_stores : list Memory.write :=
  [Memory.mkWrite 101 (id_of 5) [1] 101 60; Memory.mkWrite 102 (id_of 5) [2] 102 60;
   Memory.mkWrite 103 (id_of 5) [1] 103 60].

Lemma demo_storable : Forall storable demo_stores.
Proof.
  repeat (apply Forall_cons; split; [split; [decided|split; [apply Z.leb_le; reflexivity|reflexivity]]|]).
  apply Forall_nil. exact I.
Qed.

Lemma demo_no_collision : Memory.collision_free Memory.demo_hash (id_of 5 :: Memory.inputs demo_stores).
Proof.
  assert (H : Forall (λ x, Forall (λ y, Memory.demo_hash x = Memory.demo_hash y → x = y)
    (id_of 5 :: Memory.inputs demo_stores)) (id_of 5 :: Memory.inputs demo_stores)) by decided.
  intros x y Hx Hy. rewrite Forall_forall in H. specialize (H x Hx). rewrite Forall_forall in H. by apply H.
Qed.

Lemma demo_fine :
  fine (id_of 9) "linux" (λ _, "") (λ _, inl Memory.newInMemoryStorage) demo_resolve (λ _, true) (demo_config [])
    Memory.newInMemoryStorage.
Proof. split; [decided|by eexists|done..]. Qed.

(** The same value stored twice is found once. *)
Lemma standalone_node_serves_witness :
  ∃ w1 w2 : world (gmap Z Memory.item) cb app,
    Find (H0 := demo_Env false) (H1 := insertion_GoSort) (H2 := demo_Storage) be 110 (id_of 5) time_zero w1 = Ret w2 ∧
    a_log (w_app w1) = [Stored 0 None; Stored 1 None; Stored 2 None] ∧
    a_log (w_app w2) = a_log (w_app w1) ++ [FoundValue 1 [1]; FoundValue 1 [2]].
Proof.
  destruct (@standalone_node_serves _ (demo_Env false) insertion_GoSort be (id_of 9) 4 "linux" (λ _, "")
    demo_resolve (λ _, true) Memory.demo_hash (λ s, (map_to_list s).*1) (λ _, inl Memory.newInMemoryStorage) 100
    (demo_config []) demo_stores 110 (id_of 5) demo_fine demo_storable ltac:(decided) demo_no_collision)
    as (cfg' & w & running & wg & w1 & w2 & _ & _ & _ & L1 & E2 & L2 & _).
  exists w1, w2. split; [exact E2|]. split; [exact L1|]. rewrite L2. f_equal.
Defined.

Definition demo_args : list string := ["emo"; "daemon"; "-listeners"; "2"; "--listen=127.0.0.1:9000"].
Definition demo_ParseInt (s : string) : option Z := if String.eqb s "2" then Some 2 else None.

Lemma daemon_forgets_witness :
  ∃ w1 w2 : world (@ldb Database.demo_LevelDB) cb app,
    @Find _ (demo_Env false) insertion_GoSort _ (@Database.Database_Storage Database.demo_Gob Database.demo_LevelDB
      Memory.demo_hash) be 110 (id_of 5) time_zero w1 = Ret w2 ∧
    a_log (w_app w1) = [Stored 0 None; Stored 1 None; Stored 2 None] ∧
    a_log (w_app w2) = a_log (w_app w1) ∧ w_requests w2 = ∅.
Proof.
  destruct (@daemon_forgets _ (demo_Env false) insertion_GoSort be (id_of 9) 4 "linux" (λ _, "/root")
    demo_resolve (λ _, true) Database.demo_Gob Database.demo_LevelDB demo_ParseInt (λ _, None) demo_args
    Memory.demo_hash (λ _, inl ∅) ∅ 100
    (Main.daemon_config (Main.mkFlags "127.0.0.1:9000" 2 (30 * second))) demo_stores 110 (id_of 5))
    as (cfg' & w & running & wg & w1 & w2 & _ & _ & _ & L1 & E2 & L2 & R2 & _).
  - reflexivity.
  - decided.
  - by eexists.
  - reflexivity.
  - reflexivity.
  - reflexivity.
  - apply demo_storable.
  - decided.
  - exists w1, w2. split; [exact E2|]. split; [exact L1|]. split; [exact L2|exact R2].
Defined.
End Service.
