(* ===== verification/Invariant.v ===== *)
(** * The invariant of a running node

    Every operation of a node, on whatever state and whatever the network does,
    keeps its routing table well formed for its own identifier and its write
    batches within their slots.  The proof goes through every function of
    Listener.v, LatencyRouter.v and Dht.v that a goroutine of the node runs; the
    callbacks run with the channel of the bootstrap ([run_br] of Bootstrap.v).

    Two promises are used: a storage hands out its values by nothing but calls of
    the callback ([IterateLaw], kept by both storages), and the events that the
    datagrams of the run complete have identifiers of the right length
    ([event_ok]); the code does not check that. *)
From stdpp Require Import base list numbers gmap strings.
From Stdlib Require Import Lia.
From S2P Require Import Prelude Keyspace Bucket RoutingTable Journey Packet.
From S2P Require Import Storage Event Cache Listener LatencyRouter Dht Config Database Node Bootstrap.
Local Open Scope Z_scope.

(** What [Iterate] promises to its callers: its callback's state changes by the
    callback only. *)
Class IterateLaw (St : Type) `{Storage St} :=
  iterate_inv : ∀ A (I : A → Prop) (cb : A → Value → outcome (A * bool)) a s a' s',
    (∀ x v x' b, I x → cb x v = Ret (x', b) → I x') → I a → st_Iterate cb a s = Ret (a', s') → I a'.

Lemma memory_visit_inv A (I : A → Prop) (cb : A → Value → outcome (A * bool)) vs a a' b :
  (∀ x v x' b, I x → cb x v = Ret (x', b) → I x') → I a → Memory.visit cb a vs = Ret (a', b) → I a'.
Proof.
  intros Hcb. revert a. induction vs as [|v vs IH]; intros a Ha E; cbn in E; [by injection E as <- _|].
  apply obind_Ret in E as ([x more] & E1 & E). apply (Hcb _ _ _ _ Ha) in E1.
  destruct more; [by eapply IH|by injection E as <- _].
Qed.

#[export] Instance Memory_IterateLaw hash range : @IterateLaw _ (Memory.Memory_Storage hash range).
Proof.
  intros A I cb a s a' s' Hcb Ha E. cbn in E. revert E. generalize (range s) as ks. intros ks.
  revert a s Ha. induction ks as [|k ks IH]; intros a s0 Ha E; cbn in E; [by injection E as <- _|].
  destruct (s0 !! k) as [it|]; [|by eapply IH].
  apply obind_Ret in E as (it' & _ & E). apply obind_Ret in E as ([x more] & E1 & E).
  apply memory_visit_inv with (I := I) in E1; [|done..]. destruct more; [by eapply IH|by injection E as <- _].
Qed.

#[export] Instance Database_IterateLaw `{Gob} `{LevelDB} hash : @IterateLaw _ (Database.Database_Storage hash).
Proof.
  intros A I cb a s a' s' Hcb Ha E. cbn in E. apply obind_Ret in E as (x & E & [= <- _]).
  revert a Ha E. induction (ldb_Iter s).1 as [|[k data] es IH]; intros a Ha E; cbn in E; [by injection E as <-|].
  destruct (Database.deserialize_one data) as [v|]; [|by eapply IH].
  apply obind_Ret in E as ([y more] & E1 & E). apply (Hcb _ _ _ _ Ha) in E1.
  destruct more; [by eapply IH|by injection E as <-].
Qed.

#[export] Instance sum_IterateLaw {A B} (SA : Storage A) (SB : Storage B) `{!@IterateLaw A SA} `{!@IterateLaw B SB} :
  @IterateLaw _ (sum_Storage SA SB).
Proof.
  intros C I cb x [a|b] x' s' Hcb Hx E; cbn in E; apply obind_Ret in E as ([y s] & E & [= <- _]);
    by eapply iterate_inv in E.
Qed.

Module Invariant.
Import Listener Dht Node.

Section inv.
Context `{Env} `{GoSort} {St : Type} `{Storage St} `{!IterateLaw St}.
Context (journey_hash : bytes → Z).
Abbreviation W := (world St cb app).
Implicit Types w : W.

(** The invariant. *)
Definition batch_ok (b : batch) : Prop := (length (queued b) ≤ slots b)%nat.

Record ok_for (me : bytes) w : Prop := {
  ok_table : RoutingTable.wf (w_routing w);
  ok_nil0 : RoutingTable.last_nil0 (w_routing w);
  ok_local : n_id (RoutingTable.localNode (w_routing w)) = me;
  ok_me : w_localID w = me;
  ok_batches : Forall batch_ok (w_batches w);
}.
Context (me : bytes).
Abbreviation node_ok := (ok_for me).

(** What the invariant speaks of. *)
Definition core w : bytes * RoutingTable.routingTable * list batch :=
  (w_localID w, w_routing w, w_batches w).

Lemma ok_core w w' : core w' = core w → node_ok w → node_ok w'.
Proof. unfold core. intros [= E1 E2 E3] [A1 A0 A2 A4 A3]. split; by rewrite ?E1, ?E2, ?E3. Qed.

Lemma ok_on_app f w : node_ok w → node_ok (on_app f w).
Proof. by apply ok_core. Qed.
Lemma ok_user c w : node_ok w → node_ok (user c w).
Proof. by apply ok_core. Qed.
Lemma ok_storage s w : node_ok w → node_ok (set_storage s w).
Proof. by apply ok_core. Qed.
Lemma ok_requests c w : node_ok w → node_ok (set_requests c w).
Proof. by apply ok_core. Qed.
Lemma ok_packets p w : node_ok w → node_ok (set_packets p w).
Proof. by apply ok_core. Qed.
Lemma ok_rids n w : node_ok w → node_ok (set_rids n w).
Proof. by apply ok_core. Qed.

Lemma ok_if (b : bool) w w' : node_ok w → node_ok w' → node_ok (if b then w else w').
Proof. by destruct b. Qed.

Lemma ok_on_journey {A} f (m : Journey.journey → outcome (A * Journey.journey)) w x w' :
  on_journey f m w = Ret (x, w') → node_ok w → node_ok w'.
Proof.
  unfold on_journey. intros E. apply obind_Ret in E as (j & _ & E). apply obind_Ret in E as ([y j'] & _ & [= _ <-]).
  apply ok_on_app.
Qed.

(** ** The routing table *)
Lemma ok_step o w t :
  RoutingTable.step (w_routing w) o = Ret t →
  (∀ now id addr lat tm, o = RoutingTable.OpInsert now id addr lat tm → valid_id id) →
  node_ok w → node_ok (set_routing t w).
Proof.
  intros E Hv [A1 A0 A2 A4 A3]. destruct (RoutingTable.step_wf_any _ _ _ A1 E Hv) as [Hwf Hl].
  split; cbn; [done|exact (RoutingTable.step_last_nil0 _ _ _ A1 E A0)|by rewrite Hl|done|done].
Qed.

Lemma ok_insert now id addr lat tm w t :
  RoutingTable.insert now id addr lat tm (w_routing w) = Ret t → valid_id id →
  node_ok w → node_ok (set_routing t w).
Proof.
  intros E Hid. apply (ok_step (RoutingTable.OpInsert now id addr lat tm)); [done|].
  by intros ????? [= <- <- <- <- <-].
Qed.

Lemma ok_seen now id w b t :
  RoutingTable.seen now id (w_routing w) = Ret (b, t) → node_ok w → node_ok (set_routing t w).
Proof. intros E. apply (ok_step (RoutingTable.OpSeen now id)); [|done]. cbn. by rewrite E. Qed.

Lemma ok_remove id w t :
  RoutingTable.remove id (w_routing w) = Ret t → node_ok w → node_ok (set_routing t w).
Proof. intros E. by apply (ok_step (RoutingTable.OpRemove id)). Qed.

(** ** Sending *)
Lemma ok_flush li w r w' : flush li w = Ret (r, w') → node_ok w → node_ok w'.
Proof.
  unfold flush. intros E [A1 A0 A2 A4 A3]. apply obind_Ret in E as (b & Hb & E). apply go_index_inv in Hb.
  destruct (_ <? _)%nat; [by injection E as _ <-|].
  destruct (WriteBatch _ _) as [n [e|]]; injection E as _ <-; [by split|]. split; [done..|].
  apply Forall_insert; [done|]. unfold batch_ok. cbn. lia.
Qed.

Lemma ok_write_loop fuel li to p w r w' : write_loop fuel li to p w = Ret (r, w') → node_ok w → node_ok w'.
Proof.
  revert p w. induction fuel as [|fuel IH]; intros p w E Hw; [done|]. cbn [write_loop] in E.
  apply obind_Ret in E as ([[f|] p'] & _ & E); [|by injection E as _ <-].
  apply obind_Ret in E as (b & Hb & E). destruct (Nat.leb_spec (slots b) (length (queued b))) as [|Hlt]; [done|].
  destruct (_ <? _); [done|]. set (b1 := mkBatch _ _) in *. set (w1 := set_network _ _ _) in *.
  assert (Hw1 : node_ok w1).
  { destruct Hw as [A1 A0 A2 A4 A3]. split; [done..|]. apply Forall_insert; [done|]. unfold batch_ok, b1.
    cbn. rewrite length_app. cbn. lia. }
  destruct (_ <=? _)%nat; [|by eapply IH].
  apply obind_Ret in E as ([[e|] w2] & Ef & E); apply ok_flush in Ef; [|done| |done]; cbn [unless_error] in E.
  - by injection E as _ <-.
  - by eapply IH.
Qed.

Lemma ok_write li to id data w r w' : write li to id data w = Ret (r, w') → node_ok w → node_ok w'.
Proof. unfold write. intros E. apply obind_Ret in E as (p & _ & E). by eapply ok_write_loop. Qed.

Lemma ok_request li now to id req c w r w' :
  request li now to id req c w = Ret (r, w') → node_ok w → node_ok w'.
Proof. unfold request. intros E Hw. apply ok_write in E; [done|]. by apply ok_requests. Qed.

Lemma ok_next_listener w li w' : next_listener w = Ret (li, w') → node_ok w → node_ok w'.
Proof.
  unfold next_listener. cbv zeta. intros E. apply obind_Ret in E as (b & _ & [= _ <-]). apply ok_on_app.
Qed.

Lemma ok_send now to ev c w r w' : send now to ev c w = Ret (r, w') → node_ok w → node_ok w'.
Proof.
  unfold send. cbn [fresh_rid]. intros E Hw. apply obind_Ret in E as ([li w1] & E1 & E).
  eapply ok_request; [done|]. eapply ok_next_listener; [done|]. by apply ok_rids.
Qed.
End inv.

Create HintDb node_inv.
#[export] Hint Resolve ok_if ok_on_app ok_user ok_storage ok_requests ok_packets ok_rids ok_on_journey ok_insert ok_seen
  ok_remove ok_flush ok_write ok_request ok_next_listener ok_send : node_inv.

Ltac unpair x :=
  match type of x with
  | prod _ _ => let y := fresh "y" in let z := fresh "z" in destruct x as [y z]; unpair y; unpair z
  | _ => idtac
  end.

(** Takes a successful sequence of statements apart, every branch of it. *)
Ltac branches :=
  repeat match goal with
  | E : obind _ _ = Ret _ |- _ => let x := fresh "x" in let Ex := fresh "Ex" in
      apply obind_Ret in E as (x & Ex & E); unpair x
  | E : Ret _ = Ret _ |- _ => injection E; clear E; intros; subst
  | E : Panic _ = Ret _ |- _ => discriminate E
  | E : Blocked = Ret _ |- _ => discriminate E
  | E : OutOfFuel = Ret _ |- _ => discriminate E
  | E : (if ?b then _ else _) = Ret _ |- _ => destruct b
  | E : (match ?o with _ => _ end) = Ret _ |- _ => destruct o
  end.
Ltac keep := branches; eauto 10 with node_inv.

Section handlers.
Context `{Env} `{GoSort} {St : Type} `{Storage St} `{!IterateLaw St} `{Sweeper St}.
Context (journey_hash : bytes → Z) (br : nat) (me : bytes).
Abbreviation node_ok := (ok_for me).
Abbreviation W := (world St cb app).
Implicit Types w : W.

(** ** Handlers of requests *)
Lemma ok_pong li e addr w r w' : pong li e addr w = Ret (r, w') → node_ok w → node_ok w'.
Proof. unfold pong. keep. Qed.

Lemma ok_store li now e addr w r w' : store li now e addr w = Ret (r, w') → node_ok w → node_ok w'.
Proof.
  unfold store. intros E Hw. destruct (e_payload e) as [p|]; [|by injection E as _ <-].
  apply obind_Ret in E as (w1 & E1 & E). eapply ok_write; [done|]. revert E1. apply ofold_keeps; [done|].
  intros w2 v w3 _ Hw2 E2. unfold store_value in E2. keep.
Qed.

Lemma ok_findNode li e addr w r w' : findNode li e addr w = Ret (r, w') → node_ok w → node_ok w'.
Proof. unfold findNode. intros. keep. Qed.

Lemma ok_found_loop li e addr total vs values size w r w' :
  found_loop li e addr total values size vs w = Ret (r, w') → node_ok w → node_ok w'.
Proof.
  revert values size w. induction vs as [|v vs IH]; intros values size w E Hw; cbn [found_loop] in E; [keep|].
  destruct (_ <=? _); [|by eapply IH]. apply obind_Ret in E as ([[e1|] w1] & E1 & E); cbn [unless_error] in E; keep.
Qed.

Lemma ok_findValue li e addr w r w' : findValue li e addr w = Ret (r, w') → node_ok w → node_ok w'.
Proof. unfold findValue. intros. branches; eauto using ok_found_loop with node_inv. Qed.

Lemma ok_transferKeys c li now to id w w' : transferKeys c li now to id w = Ret w' → node_ok w → node_ok w'.
Proof.
  unfold transferKeys, send_store. intros E Hw. apply obind_Ret in E as (n & _ & E).
  apply obind_Ret in E as ([[[values size] w1] s] & E1 & E).
  apply (iterate_inv _ (λ x : list Value * Z * W, node_ok x.2)) in E1; [cbn [fresh_rid] in E; keep| |done].
  clear. intros [[values size] w] v [[values' size'] w'] more Hw E. unfold transfer_step, send_store in E.
  cbn [fresh_rid snd] in *. keep.
Qed.

Lemma ok_handle stale li now e addr w r w' : handle stale li now e addr w = Ret (r, w') → node_ok w → node_ok w'.
Proof.
  unfold handle. destruct (e_event e); eauto using ok_pong, ok_store, ok_findNode, ok_findValue; by intros [= _ <-].
Qed.

(** ** Callbacks *)

(** An event as a well-behaved peer sends it. *)
Definition event_ok (e : Event) : Prop :=
  valid_id (e_sender e) ∧
  ∀ p, e_payload e = Some p → Forall (λ n, valid_id (wn_id n)) (fn_nodes (as_FindNode p)).

Lemma ok_deliver f vs w w' : ofold (deliver journey_hash f) w vs = Ret w' → node_ok w → node_ok w'.
Proof.
  intros E Hw. revert E. apply ofold_keeps; [done|]. intros w1 v w2 _ Hw1 E. unfold deliver in E. keep.
Qed.

Lemma ok_continue_find now f key from ns w r w' :
  continue_find now f key from ns w = Ret (r, w') → node_ok w → node_ok w'.
Proof. revert w. induction ns as [|o ns IH]; intros w E Hw; cbn [continue_find] in E; keep. Qed.

Lemma ok_not_found f w r w' : not_found f w = Ret (r, w') → node_ok w → node_ok w'.
Proof. unfold not_found. intros. keep. Qed.

Lemma ok_findValueCallback now id key from f event err w r w' :
  findValueCallback journey_hash now id key from f event err w = Ret (r, w') → node_ok w → node_ok w'.
Proof.
  unfold findValueCallback. intros E Hw. apply obind_Ret in E as (w1 & E1 & E).
  assert (Hw1 : node_ok w1) by (destruct err as [[]|]; keep). clear E1 Hw.
  branches; eauto 10 using ok_deliver, ok_continue_find, ok_not_found with node_inv.
Qed.

Lemma ok_nodes_loop now f target ns w r w' : nodes_loop now f target ns w = Ret (r, w') → node_ok w → node_ok w'.
Proof. revert w. induction ns as [|o ns IH]; intros w E Hw; cbn [nodes_loop] in E; keep. Qed.

Lemma ok_findNodes now ns target w w' : findNodes now ns target w = Ret w' → node_ok w → node_ok w'.
Proof. unfold findNodes. intros. branches; eauto using ok_nodes_loop with node_inv. Qed.

Lemma ok_discover now nodes ns w r w' :
  ofold (discover now) (ns, w) nodes = Ret (r, w') → Forall (λ n, valid_id (wn_id n)) nodes →
  node_ok w → node_ok w'.
Proof.
  intros E Hv Hw. change (node_ok (r, w').2). revert E. apply (ofold_keeps (λ x : list node * W, node_ok x.2)); [done|].
  intros [ns1 w1] n [ns2 w2] Hn Hw1 E. eapply Forall_forall in Hv; [|done]. unfold discover in E.
  apply obind_Ret in E as (x & Ex & E). unfold response_node in Ex. apply obind_Ret in Ex as (addr & _ & [= <-]).
  cbn in *. keep.
Qed.

Lemma ok_findNodeCallback now target f event err w r w' :
  findNodeCallback journey_hash now target f event err w = Ret (r, w') → (∀ e, event = Some e → event_ok e) →
  node_ok w → node_ok w'.
Proof.
  unfold findNodeCallback. intros E He Hw. apply obind_Ret in E as ([[c se] w1] & E1 & E).
  apply (ok_on_journey me) in E1; [|done]. clear Hw. destruct err as [e|]; [keep|]. destruct event as [ev|]; [|done].
  destruct (e_payload ev) as [p|] eqn:Ep; [|keep]. destruct (He ev eq_refl) as [_ Hns].
  apply obind_Ret in E as ([ns w2] & E2 & E). apply ok_discover in E2; [|by apply Hns|done].
  branches; eauto 10 using ok_nodes_loop with node_inv.
Qed.

Lemma ok_ping_result p b w w' : ping_result p b w = Ret w' → node_ok w → node_ok w'.
Proof. unfold ping_result. intros. keep. Qed.

Lemma ok_run now c event err w r w' :
  run journey_hash now c event err w = Ret (r, w') → (∀ e, event = Some e → event_ok e) →
  node_ok w → node_ok w'.
Proof.
  destruct c as [|s|id key from f|target f|id|p id|]; cbn [run]; intros E He Hw;
    eauto using ok_findValueCallback, ok_findNodeCallback; try by injection E as _ <-.
  - unfold store_callback in E. keep.
  - unfold monitor_callback in E. destruct err as [[]|]; keep.
  - unfold ping_callback in E. branches; eauto using ok_ping_result with node_inv.
Qed.

(** With the channel of the bootstrap: [br] is its capacity, and the number of
    results that [New] takes from it. *)
Abbreviation callbacks now := (Bootstrap.run_br journey_hash br br now).

Lemma ok_callbacks now c event err w r w' :
  callbacks now c event err w = Ret (r, w') → (∀ e, event = Some e → event_ok e) → node_ok w → node_ok w'.
Proof.
  unfold Bootstrap.run_br. intros E. apply obind_Ret in E as ([b w1] & E1 & E).
  destruct (_ <? _)%nat; [done|]. injection E as _ <-. by eapply ok_run.
Qed.

Abbreviation respond now := (Cache.callback cache_hash w_requests set_requests (callbacks now)).
Abbreviation sweep now := (Cache.cleanup w_requests set_requests (callbacks now) now).

Lemma ok_respond now key event w w' :
  respond now key (Some event) None w = Ret w' → event_ok event → node_ok w → node_ok w'.
Proof.
  unfold Cache.callback. intros E He Hw. destruct (w_requests w !! _) as [q|]; [|by injection E as <-].
  apply obind_Ret in E as ([b w1] & E1 & E). apply ok_callbacks in E1; [|by intros e [= <-]|done]. keep.
Qed.

Lemma ok_sweep now ks w w' : sweep now ks w = Ret w' → node_ok w → node_ok w'.
Proof.
  intros E Hw. revert E. apply ofold_keeps; [done|]. intros w1 k w2 _ Hw1 E. unfold Cache.cleanup_visit in E.
  destruct (w_requests w1 !! _) as [q|]; [|by injection E as <-]. destruct (After _ _); [|by injection E as <-].
  apply obind_Ret in E as ([b w3] & E1 & E). apply ok_callbacks in E1; [|done|done]. keep.
Qed.

(** ** Operations *)
(** The event that a datagram completes. *)
Definition completes (now : Z) (d : bytes) w (e : Event) : Prop :=
  ∃ p ps data, Packet.assemble packet_hash (pooled (w_rids w)) now d (w_packets w) = Ret (Some p, ps) ∧
    Packet.data p = Ret data ∧ decode data = Ret e.

Lemma ok_process_one c stale li now addr datagram w w' :
  (∀ e, completes now datagram w e → event_ok e) →
  process_one c (callbacks now) stale li now addr datagram w = Ret w' → node_ok w → node_ok w'.
Proof.
  intros Hd E Hw. unfold process_one in E. apply obind_Ret in E as ([[p|] ps] & Ea & E); [|keep].
  apply obind_Ret in E as (data & Ep & E). apply obind_Ret in E as (e & He & E).
  assert (He' : event_ok e) by (apply Hd; by exists p, ps, data).
  pose proof (proj1 He') as Hs. apply obind_Ret in E as ([known t] & Et & E).
  assert (Hw1 : node_ok (set_routing t (set_packets ps w))) by keep.
  apply obind_Ret in E as (w1 & E1 & E). assert (Hw2 : node_ok w1) by (destruct known; keep).
  destruct (e_response e); [by apply ok_respond in E|]. apply obind_Ret in E as ([err w2] & E2 & E).
  apply ok_handle in E2; [|done]. branches; eauto using ok_transferKeys.
Qed.

Lemma ok_store_loop now s v total ns w w' : store_loop now s v total ns w = Ret w' → node_ok w → node_ok w'.
Proof. revert w. induction ns as [|n ns IH]; intros w E Hw; cbn [store_loop] in E; keep. Qed.

Lemma ok_Store now key value ttl w w' : Store now key value ttl w = Ret w' → node_ok w → node_ok w'.
Proof. unfold Store. cbv zeta. intros. branches; eauto using ok_store_loop with node_inv. Qed.

Lemma ok_find_loop now f key from ns w w' : find_loop now f key from ns w = Ret w' → node_ok w → node_ok w'.
Proof. revert w. induction ns as [|o ns IH]; intros w E Hw; cbn [find_loop] in E; keep. Qed.

Lemma ok_users f vs w : node_ok w → node_ok (foldl (λ w v, user (FoundValue f (v_Value v)) w) w vs).
Proof. revert w. induction vs as [|v vs IH]; intros w Hw; cbn; auto with node_inv. Qed.

Lemma ok_Find now key from w w' : Find journey_hash now key from w = Ret w' → node_ok w → node_ok w'.
Proof. unfold Find. cbv zeta. intros. branches; eauto 10 using ok_find_loop, ok_users with node_inv. Qed.

Lemma ok_monitor now w w' : monitor now w = Ret w' → node_ok w → node_ok w'.
Proof.
  unfold monitor. intros E Hw. apply obind_Ret in E as (ns & _ & E). revert w E Hw.
  induction ns as [|n ns IH]; intros w E Hw; cbn [monitor_loop] in E; keep.
Qed.

Lemma ok_refreshKeys now w w' : refreshKeys now w = Ret w' → node_ok w → node_ok w'.
Proof.
  unfold refreshKeys. intros E Hw. apply obind_Ret in E as ([keys s] & _ & E).
  revert E. apply ofold_keeps; [auto with node_inv|]. intros w1 k w2 _ Hw1 E. unfold refresh_key in E.
  branches; eauto using ok_Store.
Qed.

Lemma ok_update_bucket answer clock w i w' :
  LatencyRouter.update_bucket CbLatency answer clock w i = Ret w' → node_ok w → node_ok w'.
Proof.
  unfold LatencyRouter.update_bucket. intros E Hw. apply obind_Ret in E as (b & Hb & E). apply go_index_inv in Hb.
  destruct (ok_table me w Hw) as (_ & _ & HB). destruct (HB _ _ Hb) as [Hbwf _].
  rewrite Bucket.iterate_live in E by done. apply obind_Ret in E as ([w1 b1] & E & [= <-]).
  apply obind_Ret in E as ([w2 l] & Ev & [= -> <-]).
  apply (LatencyRouter.visit_keeps _ _ _ node_ok) in Ev as (Hw1 & Er & Hl); [|intros to w2 r w3 Ep Hw2|done].
  - rewrite <-Er in Hb. pose proof Hw1 as [A1 A0 A2 A4 A3].
    destruct (RoutingTable.rewritten_bucket (λ _, True) _ i b l A1 Hb Hl) as (Hwf & _ & Hnil). split; cbn; auto.
  - eapply ok_request; [exact Ep|]. by apply ok_rids.
Qed.

Lemma ok_latencies answer clock w w' :
  LatencyRouter.updateAllNodeLatencies CbLatency answer clock w = Ret w' → node_ok w → node_ok w'.
Proof. intros E Hw. revert E. apply ofold_keeps; [done|]. intros w1 i w2 _ Hw1 E. by eapply ok_update_bucket. Qed.

(** ** Runs *)

(** What the goroutines of a node and its user do, one at a time. *)
Inductive activity :=
  | Receive (stale : option error) (li : nat) (now : Z) (addr : option UDPAddr) (datagram : bytes)
  | Flush (li : nat)
  | SweepRequests (now : Z) (ks : list Z)
  | SweepPackets (now : Z)
  | SweepStorage (now : Z)
  | Monitor (now : Z)
  | RefreshKeys (now : Z)
  | UpdateLatencies (answer : node → option Z) (clock : nat → Z)
  | RefreshPeers (wait : W → outcome (bool * W)) (rnd : nat → Z) (print : option UDPAddr → bytes)
      (answer : node → option Z) (now : Z)
  | CallStore (now : Z) (key value : bytes) (ttl : Z)
  | CallFind (now : Z) (key : bytes) (from : Z).

Definition act w (a : activity) : outcome W :=
  match a with
  | Receive stale li now addr datagram => process_one CbTransfer (callbacks now) stale li now addr datagram w
  | Flush li => let! '(_, w) := flush li w in Ret w
  | SweepRequests now ks => sweep now ks w
  | SweepPackets now => Ret (set_packets (Packet.cleanup now (w_packets w)) w)
  | SweepStorage now => let! s := st_sweep now (w_storage w) in Ret (set_storage s w)
  | Monitor now => monitor now w
  | RefreshKeys now => refreshKeys now w
  | UpdateLatencies answer clock => LatencyRouter.updateAllNodeLatencies CbLatency answer clock w
  | RefreshPeers wait rnd print answer now => refreshBuckets wait rnd print answer now w
  | CallStore now key value ttl => Store now key value ttl w
  | CallFind now key from => Find journey_hash now key from w
  end.

(** Each datagram, when it arrives, completes no event or one of a well-behaved
    peer. *)
Definition polite_input w (a : activity) : Prop :=
  match a with Receive _ _ now _ d => ∀ e, completes now d w e → event_ok e | _ => True end.

Fixpoint polite_inputs w (acts : list activity) : Prop :=
  match acts with
  | [] => True
  | a :: acts => polite_input w a ∧ ∀ w', act w a = Ret w' → polite_inputs w' acts
  end.

Lemma ok_act a w w' : polite_input w a → act w a = Ret w' → node_ok w → node_ok w'.
Proof.
  intros Hd E Hw. destruct a; cbn [act polite_input] in *;
    eauto using ok_process_one, ok_sweep, ok_latencies, ok_monitor, ok_refreshKeys, ok_Store, ok_Find.
  - keep.
  - keep.
  - keep.
  - exfalso. eapply refreshBuckets_stuck; [| |exact E]; apply Hw.
Qed.

Lemma ok_acts acts w w' : polite_inputs w acts → ofold act w acts = Ret w' → node_ok w → node_ok w'.
Proof.
  revert w. induction acts as [|a acts IH]; intros w Hd E Hw; cbn [ofold] in E; [by injection E as <-|].
  apply obind_Ret in E as (w1 & E1 & E). destruct Hd as [Ha Hd]. eapply (IH w1); [by apply Hd|done|]. by eapply ok_act.
Qed.
End handlers.
Arguments activity : clear implicits.

(** ** Properties *)
Section claims.
Context `{Env} `{GoSort} {St : Type} `{Storage St} `{!IterateLaw St} `{Sweeper St}.
Context (journey_hash : bytes → Z).
Context (randomID : bytes) (GOMAXPROCS : Z) (GOOS : string) (Getenv : string → string).
Context (open_storage : backend → St + Z) (Resolve : string → option UDPAddr) (Listen : nat → bool).
Abbreviation W := (world St cb app).
Abbreviation start := (New randomID GOMAXPROCS GOOS Getenv open_storage Resolve Listen).

Lemma start_id cfg cfg1 s cfg2 sto :
  with_defaults randomID GOMAXPROCS cfg = Some cfg1 →
  ensure_storage GOOS Getenv open_storage cfg1 = inr (s, cfg2, sto) →
  c_LocalID cfg2 = Some (default randomID (c_LocalID cfg)).
Proof.
  intros E1 E2. assert (Hid : c_LocalID cfg1 = Some (default randomID (c_LocalID cfg))).
  { unfold with_defaults in E1. destruct (c_LocalID cfg); cbn in E1; [|by injection E1 as <-].
    destruct (zlen _ =? KEY_BYTES); by simplify_eq/=. }
  unfold ensure_storage in E2. destruct (c_Storage cfg1); [by injection E2 as _ <- _|].
  pose proof (InitializeStorage_keeps GOOS Getenv cfg1) as (K1 & _).
  destruct (InitializeStorage _ _ _) as [b c]. destruct (open_storage b); [|done]. injection E2 as _ <- _.
  cbn in *. congruence.
Qed.

Lemma started_ok now cfg cfg' (w : W) running wg :
  valid_id (default randomID (c_LocalID cfg)) → start now cfg = Ret (Waiting cfg' w running wg) →
  ok_for (default randomID (c_LocalID cfg)) w.
Proof.
  unfold New, newCache, newPacketManager, NewLatencyRouter. intros Hv E. cbn [Datatypes.app Z.add] in E.
  destruct (with_defaults _ _ _) as [cfg1|] eqn:E1; [|done].
  destruct (ensure_storage _ _ _ _) as [e|[[s cfg2] sto]] eqn:E2; [done|].
  rewrite (start_id _ _ _ _ _ E1 E2) in E. destruct (Resolve _) as [addr|]; [|done]. cbv zeta in E.
  set (id := default randomID (c_LocalID cfg)) in *. change (default [] (Some id)) with id in E.
  pose proof (listen_result Listen cfg2 (sto ++ [GCacheSweep; GPacketSweep; GLatencyUpdates]) 1) as Hl.
  destruct (listen _ _ _ _) as [[k r]|[[bs r] wg']]; [done|]. destruct Hl as (-> & _ & _).
  set (n := mkNode id (Some addr) time_zero 0 0 0 false) in *. apply obind_Ret in E as (t & Et & E).
  destruct (RoutingTable.step_wf_any (RoutingTable.newRoutingTable n) (RoutingTable.OpInsert now id (Some addr) 0 false) t)
    as [Hwf Hloc]; [by apply RoutingTable.wf_newRoutingTable|exact Et|intros ????? [= <- <- <- <- <-]; exact Hv|].
  destruct (resolve_all _ _) as [a|bn]; [done|]. apply obind_Ret in E as (w1 & E & [= _ <- _ _]).
  apply (ok_findNodes id) in E; [done|]. split; cbn; [done| |by rewrite Hloc|done|].
  { eapply (RoutingTable.step_last_nil0 (RoutingTable.newRoutingTable n) (RoutingTable.OpInsert now id (Some addr) 0 false));
      [by apply RoutingTable.wf_newRoutingTable|exact Et|]. exists Bucket.empty. split; vm_compute; reflexivity. }
  apply Forall_replicate. unfold batch_ok. cbn. lia.
Qed.

(** C6: the invariant of a node.  From [New] on, while it waits for the bootstrap
    and after it has returned, in whatever order datagrams arrive, batches are
    flushed, the sweeps of the requests, the packets and the storage, the monitor,
    the refresh of the keys and of the peers and the latency updates, with the pings
    they send, take their turns and the user stores and finds, whatever the socket
    does and the measured nodes answer: if each event that a datagram of the run
    completes has a sender and lists nodes with identifiers of the right length,
    whatever it contains otherwise, then the node keeps its identifier, its routing
    table is well formed for it (every node in the bucket of its distance, in the
    first slots, none twice, the locks free) and no write batch exceeds its slots. *)
Theorem node_invariant now cfg cfg' (w w' : W) running wg (acts : list (activity St)) :
  let act := act journey_hash (length (c_BootstrapAddresses cfg)) in
  valid_id (default randomID (c_LocalID cfg)) →
  start now cfg = Ret (Waiting cfg' w running wg) →
  polite_inputs journey_hash (length (c_BootstrapAddresses cfg)) w acts →
  ofold act w acts = Ret w' →
  RoutingTable.wf (w_routing w') ∧ NoDup (Bucket.ids (RoutingTable.all_live (w_routing w'))) ∧
  n_id (RoutingTable.localNode (w_routing w')) = default randomID (c_LocalID cfg) ∧
  w_localID w' = default randomID (c_LocalID cfg) ∧
  Forall (λ b, (length (queued b) ≤ slots b)%nat) (w_batches w').
Proof.
  intros act Hv E Hd Ea. pose proof (started_ok _ _ _ _ _ _ Hv E) as Hw.
  apply (ok_acts _ _ (default randomID (c_LocalID cfg)) _ _ _ Hd) in Ea; [|exact Hw].
  destruct Ea as [A1 A0 A2 A4 A3]. split_and!; [done|by apply RoutingTable.all_live_nodup|done|done|done].
Qed.
End claims.

(** ** A concrete run: a ping of a new node arrives, is answered and flushed *)
Definition polite (o : outcome (@Event tagged_Tables)) : outcome (@Event tagged_Tables) :=
  match o with
  | Ret e =>
      if decide (valid_id (e_sender e)) then
        match e_payload e with None => Ret e | Some _ => Panic SliceOutOfRange end
      else Panic SliceOutOfRange
  | o => o
  end.

Definition polite_Env : @Env tagged_Tables := {|
  encode := demo_encode;
  decode b := polite (demo_decode b);
  WriteBatch q s := (length q, None);
  cache_hash := be;
  packet_hash := be;
  pseudorandomID n := id_of (Z.of_nat n);
  pooled _ := Packet.fresh;
|}.

Abbreviation polite_New :=
  (@New _ polite_Env _ (id_of 9) 4 "linux" (λ _, "") (λ _, inl Memory.newInMemoryStorage) demo_resolve
    (λ _, true) 100 (demo_config [])).

Definition ping_datagram : bytes :=
  Packet.wire (id_of 20) (demo_encode (@Events.eventPing tagged_Tables (id_of 20) (id_of 7))) 0.

#[export] Instance demo_Sweeper : Sweeper (gmap Z Memory.item) := Memory_Sweeper (λ s, (map_to_list s).*1).

Definition demo_acts : list (activity (gmap Z Memory.item)) :=
  [Receive None 0 101 addr1 ping_datagram; UpdateLatencies (λ _, None) (λ _, 102); Flush 0;
   SweepRequests 102 []; SweepStorage 103; CallFind 103 (id_of 5) time_zero].

Lemma demo_run :
  ∃ cfg w running wg w', polite_New = Ret (Waiting cfg w running wg) ∧
    @polite_inputs _ polite_Env insertion_GoSort _ demo_Storage demo_Sweeper be 0 w demo_acts ∧
    ofold (@act _ polite_Env insertion_GoSort _ demo_Storage demo_Sweeper be 0) w demo_acts = Ret w' ∧
    RoutingTable.knows (w_routing w') (id_of 7) = true.
Proof.
  do 5 eexists. split; [vm_compute; reflexivity|]. split; [|split; vm_compute; reflexivity].
  split; [|intros; repeat (split; [exact I|intros]); exact I].
  intros e (p & ps & data & E & Ep & Ed). vm_compute in E. injection E as <- _. vm_compute in Ep. injection Ep as <-.
  vm_compute in Ed. injection Ed as <-. split; [decided|discriminate].
Qed.

Lemma node_invariant_witness :
  ∃ w' : world (gmap Z Memory.item) cb app, RoutingTable.knows (w_routing w') (id_of 7) = true ∧
    RoutingTable.wf (w_routing w') ∧ w_localID w' = id_of 0.
Proof.
  destruct demo_run as (cfg & w & running & wg & w' & E & Hd & Ea & Hk). exists w'. split; [exact Hk|].
  destruct (@node_invariant _ polite_Env insertion_GoSort _ demo_Storage
    (Memory_IterateLaw Memory.demo_hash (λ s, (map_to_list s).*1)) demo_Sweeper be (id_of 9) 4 "linux" (λ _, "")
    (λ _, inl Memory.newInMemoryStorage) demo_resolve (λ _, true) 100 (demo_config []) cfg w w' running wg
    demo_acts ltac:(decided) E Hd Ea) as (Hwf & _ & _ & Hme & _).
  split; [exact Hwf|exact Hme].
Defined.
End Invariant.
