(* ===== verification/Progress.v ===== *)
(** * A node does not crash

    [Invariant.v] says what the operations of a node preserve when they return;
    this file says that they do return.  The theorem is about the activities of
    [Invariant.v]: whatever the order in which datagrams arrive, batches are
    flushed, the sweeps, the monitor and the latency updates tick and the user
    stores and finds, none of them panics, if the other side behaves
    ([admissible]: what is assembled from the datagrams is an event with
    identifiers, keys and addresses of the right length) and the socket, the pool
    and the encoding do what they promise ([benign]).  In a node without bootstrap
    addresses none blocks either; with them, only the callbacks of the bootstrap
    can, which send on a channel that nobody may read any more (Bootstrap.v).

    The proof is a small program logic: [returns] of Prelude.v, one lemma per
    function, and an invariant [running] that is stronger than the one of
    Invariant.v: it also speaks of the closures waiting in the request cache. *)
From stdpp Require Import base list numbers sets gmap strings.
From Stdlib Require Import Lia.
From S2P Require Import Prelude Keyspace Bucket RoutingTable Journey Packet.
From S2P Require Import Storage Event Cache Listener LatencyRouter Dht Exchange Search Handover.
From S2P Require Import Config Database Node Bootstrap Invariant.
Local Open Scope Z_scope.

Module Progress.
Import Listener Dht Exchange Search Handover Node Invariant.

(** ** What is promised to the node *)

(** A value as [Store] accepts it. *)
Definition value_ok (v : Value) : Prop := valid_id (v_Key v) ∧ zlen (v_Value v) ≤ VALUE_BYTES.

(** A storage that does not fail in the states [good], which hold only such
    values. *)
Class Steady (St : Type) `{Storage St} `{Sweeper St} (good : St → Prop) := {
  steady_Set now k v created ttl s : good s → valid_id k → zlen v ≤ VALUE_BYTES →
    returns (st_Set now k v created ttl s) (λ r, good r.2);
  steady_Get k from s : good s → returns (st_Get k from s) (λ r, Forall value_ok r.1);
  steady_Iterate s : good s → ∃ vs, yields s vs ∧ Forall value_ok vs;
  steady_sweep now s : good s → returns (st_sweep now s) good;
}.

(** The states of the in-memory storage. *)
Definition memory_good (s : Memory.storage) : Prop :=
  map_Forall (λ _ it, Memory.mu it = false ∧ Forall value_ok (Memory.values it)) s.

Lemma memory_sweep_good now ks s : memory_good s → returns (Memory.cleanup now ks s) memory_good.
Proof.
  revert s. induction ks as [|k ks IH]; intros s Hs; cbn [Memory.cleanup]; [by apply returns_ret|].
  destruct (s !! k) as [it|] eqn:Ek; [|by apply IH]. destruct (Hs _ _ Ek) as [Hmu Hvs].
  unfold Memory.lock. rewrite Hmu. cbn [obind]. rewrite Memory.expire_spec. cbn [Memory.values].
  assert (He : memory_good (if decide (Forall (λ v, v_expires v ≤ now) (Memory.values it)) then s else delete k s))
    by (case_decide; [done|by apply map_Forall_delete]).
  set (s1 := if decide _ then s else _) in *. apply IH. destruct (s1 !! k); [|done]. by apply map_Forall_insert_2.
Qed.

#[export] Instance Memory_Steady hash range :
  @Steady _ (Memory.Memory_Storage hash range) (Memory_Sweeper range) memory_good.
Proof.
  split.
  - intros now k v created ttl s Hs Hk Hv. cbn. unfold Memory.Set_.
    assert (Hnew : value_ok (mkValue k v ttl created (Add now ttl))) by done.
    destruct (s !! hash k) as [it|] eqn:Ek.
    + destruct (Hs _ _ Ek) as [Hmu Hvs]. unfold Memory.insert, Memory.lock. rewrite Hmu. cbn [obind].
      case_decide; (apply returns_ret, map_Forall_insert_2; [|done]); (split; [done|]); cbn; [done|].
      apply Forall_app. by rewrite Forall_singleton.
    + apply returns_ret, map_Forall_insert_2; [|done]. split; [done|]. by apply Forall_singleton.
  - intros k from s Hs. cbn. unfold Memory.Get. destruct (s !! hash k) as [it|] eqn:Ek; [|by apply returns_ret].
    destruct (Hs _ _ Ek) as [_ Hvs]. destruct (IsZero from); [by apply returns_ret|]. cbv zeta.
    destruct (Nat.leb_spec (length (Memory.values it)) (Memory.from_index from (Memory.values it))); [by apply returns_ret|].
    unfold zlen. rewrite go_slice_ok by lia. apply returns_ret. cbn. by apply Forall_take, Forall_drop.
  - intros s Hs. exists (Memory.stored_values (range s) s). split.
    + apply memory_yields. intros k it Hk. by apply (Hs k it).
    + unfold Memory.stored_values. apply Forall_bind, Forall_forall. intros k _. unfold compose.
      destruct (s !! k) as [it|] eqn:Ek; [by apply (Hs k it)|constructor].
  - intros now s Hs. by apply memory_sweep_good.
Qed.

(** The LevelDB storage only ever holds entries that it cannot read back. *)
#[export] Instance Database_Steady `{Gob} `{LevelDB} hash :
  @Steady _ (Database.Database_Storage hash) Database.Database_Sweeper Database.structs_only.
Proof.
  split.
  - intros now k v created ttl s Hs _ _. destruct (Database.set_structs hash now k v created ttl s Hs) as (ok & s' & E & Hs').
    by exists (ok, s').
  - intros k from s Hs. cbn. rewrite Database.get_structs by done. by apply returns_ret.
  - intros s Hs. exists []. split; [|done]. intros A cb a a' [= <-]. cbn. by apply Database.iterate_structs.
  - intros now s Hs. unfold st_sweep, Database.Database_Sweeper. rewrite Database.cleanup_structs by done. by apply returns_ret.
Qed.

Definition sum_good {A B} (ga : A → Prop) (gb : B → Prop) (s : A + B) : Prop :=
  match s with inl a => ga a | inr b => gb b end.

#[export] Instance sum_Steady {A B} (SA : Storage A) (SB : Storage B) (WA : Sweeper A) (WB : Sweeper B) ga gb
    `{!@Steady A SA WA ga} `{!@Steady B SB WB gb} : @Steady _ (sum_Storage SA SB) (sum_Sweeper WA WB) (sum_good ga gb).
Proof.
  split.
  - intros now k v created ttl [a|b] Hs Hk Hv; cbn;
      (go_step (steady_Set now k v created ttl) as [ok s] Hs'; [done..|]); by apply returns_ret.
  - intros k from [a|b] Hs; cbn; by apply steady_Get.
  - intros [a|b] Hs; cbn in Hs;
      [destruct (steady_Iterate a Hs) as (vs & Hy & Hvs)|destruct (steady_Iterate b Hs) as (vs & Hy & Hvs)];
      exists vs; (split; [|done]); intros C cb x x' Ev; cbn; by rewrite (Hy _ _ _ _ Ev).
  - intros now [a|b] Hs; cbn; (go_step (steady_sweep now) as s Hs'; [done|]); by apply returns_ret.
Qed.

(** ** The encoding

    FlatBuffers needs at most 64 bytes for the offsets, lengths, alignment and
    numbers of an element of a vector, and less than 1024 for the tables around. *)
Definition value_bytes (v : WireValue) : Z := zlen (wv_key v) + zlen (wv_value v) + 64.
Definition node_bytes (n : WireNode) : Z := zlen (wn_id n) + zlen (wn_address n) + 64.
Definition sum {A} (f : A → Z) (l : list A) : Z := foldr (λ x a, f x + a) 0 l.

Lemma sum_cons {A} (f : A → Z) x l : sum f (x :: l) = f x + sum f l.
Proof. done. Qed.

Lemma sum_bound {A} (f : A → Z) b l : Forall (λ x, f x ≤ b) l → sum f l ≤ b * zlen l.
Proof.
  induction 1 as [|x l Hx _ IH]; unfold zlen in *; [cbn; lia|]. rewrite sum_cons. cbn [length].
  rewrite Nat2Z.inj_succ. lia.
Qed.

Section environment.
Context `{Env}.

Record compact : Prop := {
  compact_None id sender t r : length id = 32%nat → length sender = 32%nat →
    zlen (encode (mkEvent _ id sender t r None)) ≤ 1024;
  compact_Store id sender t r p : length id = 32%nat → length sender = 32%nat →
    zlen (encode (mkEvent _ id sender t r (Some (of_Store p)))) ≤ 1024 + sum value_bytes (s_values p);
  compact_FindNode id sender t r p : length id = 32%nat → length sender = 32%nat →
    zlen (encode (mkEvent _ id sender t r (Some (of_FindNode p)))) ≤
      1024 + zlen (fn_key p) + sum node_bytes (fn_nodes p);
  compact_FindValue id sender t r p : length id = 32%nat → length sender = 32%nat →
    zlen (encode (mkEvent _ id sender t r (Some (of_FindValue p)))) ≤
      1024 + zlen (fv_key p) + sum value_bytes (fv_values p) + sum node_bytes (fv_nodes p);
}.

Record benign : Prop := {
  benign_socket : socket_ok;
  benign_pool : pool_ok;
  benign_ids : ids_ok;
  benign_encoding : compact;
}.
End environment.

(** *** Groups of values *)

(** The values gathered for an event: [size] counts them, and they still fit
    without the last one. *)
Definition pile (values : list Value) (size : Z) : Prop :=
  size = total_size values ∧ Forall value_ok values ∧ size ≤ Packet.MaxEventSize + VALUE_BYTES + 82.

Lemma value_ok_size v : value_ok v → 82 ≤ value_size v ≤ VALUE_BYTES + 82.
Proof. intros [[Hk _] Hv]. unfold value_size, zlen in *. lia. Qed.

Lemma pile_nil : pile [] 0.
Proof. split_and!; [done|constructor|apply Z.leb_le; reflexivity]. Qed.

Lemma pile_one v : value_ok v → pile [v] (0 + value_size v).
Proof.
  intros Hv. pose proof (value_ok_size v Hv). split_and!; [cbn; lia|by apply Forall_singleton|].
  unfold Packet.MaxEventSize. lia.
Qed.

Lemma pile_snoc values size v :
  pile values size → value_ok v → size < Packet.MaxEventSize → pile (values ++ [v]) (size + value_size v).
Proof.
  intros (-> & Hvs & _) Hv Hs. pose proof (value_ok_size v Hv).
  split_and!; [rewrite total_size_app; cbn; lia|by apply Forall_app; rewrite Forall_singleton|lia].
Qed.

Lemma pile_bytes (f : Value → WireValue) values size :
  (∀ v, wv_key (f v) = v_Key v ∧ wv_value (f v) = v_Value v) → pile values size →
  1024 + sum value_bytes (f <$> values) ≤ Packet.max_fragmentable.
Proof.
  intros Hf (-> & Hvs & Hmax).
  assert (H82 : 82 * sum value_bytes (f <$> values) ≤ 96 * total_size values).
  { clear Hmax. induction Hvs as [|v vs Hv _ IH]; [done|]. rewrite fmap_cons, sum_cons.
    change (total_size (v :: vs)) with (value_size v + total_size vs). pose proof (value_ok_size v Hv) as Hs.
    destruct (Hf v) as [E1 E2]. unfold value_bytes at 1. rewrite E1, E2. unfold value_size in Hs |- *. lia. }
  change Packet.max_fragmentable with 127804. change Packet.MaxEventSize with 65024 in Hmax.
  change VALUE_BYTES with 32768 in Hmax. lia.
Qed.

(** ** The invariant *)
Section progress.
Context `{Env} `{GoSort} {St : Type} `{Storage St} `{Sweeper St} (good : St → Prop) `{!Steady St good}.
Context (journey_hash : bytes → Z) (br : nat) (me : bytes) (BE : benign).
Abbreviation W := (world St cb app).
Implicit Types w : W.

(** The journey [f] exists and is in order. *)
Definition pursued (f : nat) w : Prop :=
  ∃ j l a, a_journeys (w_app w) !! f = Some j ∧ Journey.inv journey_hash j l a.

(** The closure [c] can run.  Only the refresh of the buckets waits for pings, and
    only the bootstrap, of a node with [br] addresses, searches for nodes. *)
Definition cb_ok w (c : cb) : Prop :=
  match c with
  | CbTransfer => True
  | CbStore s => (s < length (a_stores (w_app w)))%nat
  | CbFindValue id key _ f => valid_id id ∧ valid_id key ∧ pursued f w
  | CbFindNode target f => (0 < br)%nat ∧ valid_id target ∧ pursued f w
  | CbMonitor id => valid_id id
  | CbPing _ _ => False
  | CbLatency => True
  end.

Definition batch_free (b : batch) : Prop := (length (queued b) < slots b)%nat.

(** A node that can go on, and has [n] requests left before the counter of the
    listeners wraps. *)
Record running (n : Z) w : Prop := {
  run_me : w_localID w = me;
  run_valid : valid_id me;
  run_table : RoutingTable.wf (w_routing w);
  run_addresses : RoutingTable.addresses is_Some (w_routing w);
  run_batches : Forall batch_free (w_batches w);
  run_listeners : 0 < zlen (w_batches w) < 2 ^ 31;
  run_storage : good (w_storage w);
  run_packets : Packet.wf_packets (w_packets w) ∧ Packet.small_packets (w_packets w);
  run_requests : map_Forall (λ _ q, cb_ok w (Cache.callback_of q)) (w_requests w);
  run_counter : 0 ≤ a_cl (w_app w) ∧ a_cl (w_app w) + n < 2 ^ 31;
  run_quiet : br = 0%nat → Bootstrap.results w = [];
}.

(** What the closures rely on stays. *)
Definition keeps w w' : Prop :=
  (∀ f, pursued f w → pursued f w') ∧
  (length (a_stores (w_app w)) ≤ length (a_stores (w_app w')))%nat ∧
  length (w_batches w') = length (w_batches w).

#[local] Instance keeps_preorder : PreOrder keeps.
Proof.
  split; [by intros w|]. intros w1 w2 w3 (P1 & S1 & B1) (P2 & S2 & B2).
  split_and!; [auto|lia|congruence].
Qed.

Definition after (n : Z) w w' : Prop := running n w' ∧ keeps w w'.

Lemma after_trans n m w1 w2 w3 : after n w1 w2 → after m w2 w3 → after m w1 w3.
Proof. intros [_ K1] [R2 K2]. split; [done|]. by etrans. Qed.

Lemma after_refl n w : running n w → after n w w.
Proof. done. Qed.

Lemma returns_after {A} (g : A → W) m n w w1 (c : outcome A) :
  after m w w1 → returns c (λ r, after n w1 (g r)) → returns c (λ r, after n w (g r)).
Proof. intros Hw1 Hc. eapply returns_mono; [exact Hc|]. intros r Hr. by eapply after_trans. Qed.

Lemma running_less n m w : m ≤ n → running n w → running m w.
Proof. intros Hm []. split; try done. lia. Qed.

Lemma cb_ok_keeps w w' c : keeps w w' → cb_ok w c → cb_ok w' c.
Proof. intros (HP & HS & _). destruct c; cbn; [done|lia|intros (? & ? & ?)|intros (? & ? & ?)|done|done|done]; auto. Qed.

Lemma requests_keep w w' (m : gmap Z (Cache.request cb)) :
  keeps w w' → map_Forall (λ _ q, cb_ok w (Cache.callback_of q)) m →
  map_Forall (λ _ q, cb_ok w' (Cache.callback_of q)) m.
Proof. intros HK Hm k q Hq. eapply cb_ok_keeps; [done|]. by apply (Hm k). Qed.

(** *** Single assignments *)
Lemma after_same_app w w' :
  w_app w' = w_app w → length (w_batches w') = length (w_batches w) → keeps w w'.
Proof. intros E EB. unfold keeps, pursued. rewrite E, EB. done. Qed.

(** A call that is no result of a bootstrap, unless there is one. *)
Definition told (c : user_call) : Prop := (0 < br)%nat ∨ Bootstrap.result_of c = None.

Lemma after_user n c w : running n w → told c → after n w (user c w).
Proof.
  intros [] Ht. split; [|by split_and!]. split; try done. intros Hbr. destruct Ht as [Ht|Ht]; [lia|].
  rewrite Bootstrap.results_user, run_quiet0 by done. cbn. by rewrite Ht.
Qed.

Lemma after_storage n s w : running n w → good s → after n w (set_storage s w).
Proof. intros []. split; [|by apply after_same_app]. split; try done. Qed.

Lemma after_packets n ps w :
  running n w → Packet.wf_packets ps → Packet.small_packets ps → after n w (set_packets ps w).
Proof. intros []. split; [|by apply after_same_app]. split; try done. Qed.

Lemma after_requests n c w :
  running n w → map_Forall (λ _ q, cb_ok w (Cache.callback_of q)) c → after n w (set_requests c w).
Proof. intros []. split; [|by apply after_same_app]. split; try done. Qed.

Lemma after_rids n k w : running n w → after n w (set_rids k w).
Proof. intros []. split; [|by apply after_same_app]. split; try done. Qed.

Lemma after_routing n t w :
  running n w → RoutingTable.wf t → RoutingTable.addresses is_Some t → after n w (set_routing t w).
Proof. intros []. split; [|by apply after_same_app]. split; try done. Qed.

Lemma after_if n w (b : bool) w1 w2 : after n w w1 → after n w w2 → after n w (if b then w1 else w2).
Proof. by destruct b. Qed.

(** *** The routing table *)
Lemma seen_returns now id n w :
  running n w → valid_id id →
  returns (RoutingTable.seen now id (w_routing w)) (λ r, after n w (set_routing r.2 w)).
Proof.
  intros Hw Hid. destruct (RoutingTable.table_seen_lists now id (w_routing w)) as (r & t & E & Hwf & _); [apply Hw|done|].
  exists (r, t). split; [done|]. apply after_routing; [done..|].
  eapply (RoutingTable.table_step_addresses _ _ (RoutingTable.OpSeen now id)); [apply Hw|cbn; by rewrite E|done|apply Hw].
Qed.

Lemma insert_returns now id addr lat tm n w :
  running n w → valid_id id → is_Some addr →
  returns (RoutingTable.insert now id addr lat tm (w_routing w)) (λ t, after n w (set_routing t w)).
Proof.
  intros Hw Hid Ha. destruct (RoutingTable.table_insert_spec now id addr lat tm (w_routing w)) as (t & E & Hwf & _); [apply Hw|done|].
  exists t. split; [done|]. apply after_routing; [done..|].
  eapply (RoutingTable.table_step_addresses _ _ (RoutingTable.OpInsert now id addr lat tm)); [apply Hw|exact E| |apply Hw].
  by intros ????? [= <- <- <- <- <-].
Qed.

Lemma remove_returns id n w :
  running n w → valid_id id →
  returns (RoutingTable.remove id (w_routing w)) (λ t, after n w (set_routing t w)).
Proof.
  intros Hw Hid. destruct (RoutingTable.table_remove_spec id (w_routing w)) as (t & E & Hwf & _); [apply Hw|done|].
  exists t. split; [done|]. apply after_routing; [done..|].
  eapply (RoutingTable.table_step_addresses _ _ (RoutingTable.OpRemove id)); [apply Hw|exact E|done|apply Hw].
Qed.

Lemma live_valid t x : RoutingTable.wf t → x ∈ RoutingTable.all_live t → valid_id (n_id x).
Proof.
  intros (_ & _ & HB) (b & Hx & (i & Hb)%list_elem_of_lookup)%list_elem_of_bind.
  destruct (HB _ _ Hb) as [_ HF]. rewrite Forall_forall in HF. destruct (HF x) as [? _]; [set_solver|done].
Qed.

(** The nodes that the table selects can be listed in a response. *)
Lemma closestN_returns key n w :
  running n w → valid_id key →
  returns (RoutingTable.closestN key (Z.of_nat K) (w_routing w)) (λ ns,
    (length ns ≤ K)%nat ∧ Forall (λ x, valid_id (n_id x) ∧ is_Some (n_address x)) ns).
Proof.
  intros Hw Hk. destruct (RoutingTable.closestN_selects key (Z.of_nat K) (w_routing w)) as (ns & E & Hl & Hsub & _);
    [apply Hw|done|lia|].
  exists ns. split; [done|]. split; [unfold zlen in Hl; lia|]. apply Forall_forall. intros x Hx.
  eapply elem_of_submseteq in Hx; [|exact Hsub].
  split; [eapply live_valid; [apply Hw|done]|eapply RoutingTable.addresses_live; [apply Hw|done]].
Qed.

(** *** Sending *)
Lemma after_network n li b w w' :
  running n w → same_node w w' → others li w w' → w_batches w' !! li = Some b → batch_free b → after n w w'.
Proof.
  intros [] Hw' [Hlen Hoth] Hb Hfree. split; [|rewrite Hw'; by apply after_same_app]. rewrite Hw'. split; cbn; try done.
  - apply Forall_lookup. intros j x Hx. destruct (decide (j = li)) as [->|Hj].
    + rewrite Hb in Hx. by injection Hx as <-.
    + rewrite Hoth in Hx by done. by eapply Forall_lookup_1 in Hx.
  - unfold zlen in *. by rewrite Hlen.
Qed.

Lemma write_returns li to id data n w :
  running n w → (li < length (w_batches w))%nat → length id = 32%nat → zlen data ≤ Packet.max_fragmentable →
  returns (write li to id data w) (λ r, r.1 = None ∧ after n w r.2).
Proof.
  intros Hw Hli Hid Hd. destruct BE as [Hs Hp _ _]. destruct (lookup_lt_is_Some_2 _ _ Hli) as [b Hb].
  assert (Hr : ready li w) by (exists b; split; [done|]; by eapply Forall_lookup_1 in Hb; [|apply Hw]).
  destruct (write_ok li to id data w Hs Hp Hr Hid Hd) as (w' & E & Hw' & (b' & Hb' & Hlt) & _).
  exists (None, w'). split; [done|]. split; [done|].
  eapply after_network; [done|done|by eapply write_others|done|done].
Qed.

Lemma request_returns li now to id req c n w :
  running n w → (li < length (w_batches w))%nat → length id = 32%nat → cb_ok w c →
  zlen (encode req) ≤ Packet.max_fragmentable →
  returns (request li now to id req c w) (λ r, r.1 = None ∧ after n w r.2).
Proof.
  intros Hw Hli Hid Hc He. unfold request, Cache.set. set (w1 := set_requests _ w).
  assert (Hw1 : after n w w1) by (apply after_requests; [done|]; apply map_Forall_insert_2; [done|apply Hw]).
  eapply returns_mono; [apply (write_returns _ _ _ _ n); [apply Hw1|done..]|].
  intros r [E Hr]. split; [done|]. exact (after_trans n n w w1 r.2 Hw1 Hr).
Qed.

Lemma next_listener_returns n w :
  running (n + 1) w → 0 ≤ n → returns (next_listener w) (λ r, (r.1 < length (w_batches r.2))%nat ∧ after n w r.2).
Proof.
  intros Hw Hn. destruct Hw as [A1 A2 A3 A4 A5 A6 A7 A8 A9 A10 A11].
  unfold next_listener. cbn [on_app set_app w_batches]. set (cl := a_cl (w_app w)) in *.
  rewrite (i32_small (cl + 1)) by lia. rewrite (i32_small (cl + 1 - 1)) by lia. rewrite (i32_small (zlen _)) by lia.
  replace (cl + 1 - 1) with cl by lia. rewrite Z.rem_mod_nonneg by lia.
  pose proof (Z.mod_pos_bound cl (zlen (w_batches w))) as Hm.
  destruct (go_index_len (w_batches w) (cl mod zlen (w_batches w))) as (b & -> & _); [lia|]. apply returns_ret.
  cbn [fst snd]. split; [unfold zlen in *; cbn; lia|]. split; [|by split_and!]. split; try done. cbn. lia.
Qed.

Lemma send_returns now to ev c n w :
  running (n + 1) w → 0 ≤ n → cb_ok w c →
  (∀ rid, length rid = 32%nat → zlen (encode (ev rid)) ≤ Packet.max_fragmentable) →
  returns (send now to ev c w) (λ r, r.1 = None ∧ after n w r.2).
Proof.
  intros Hw Hn Hc Hev. unfold send. cbn [fresh_rid]. pose proof (after_rids _ (S (w_rids w)) _ Hw) as [Hr Hk].
  go_step next_listener_returns as [li w1] [Hli Hw1]; [exact Hr|done|]. cbn [fst snd] in *.
  pose proof (benign_ids BE (w_rids w)) as Hid.
  assert (H01 : after n w w1) by (split; [apply Hw1|]; etrans; [exact Hk|apply Hw1]).
  eapply returns_mono; [apply (request_returns _ _ _ _ _ _ n); [apply Hw1|done|done| |by apply Hev]|].
  - eapply cb_ok_keeps; [apply H01|done].
  - intros r [E Ha]. split; [done|]. exact (after_trans n n w w1 r.2 H01 Ha).
Qed.

(** *** Journeys *)
Lemma on_journey_returns {A} f (m : Journey.journey → outcome (A * Journey.journey)) (Q : A → Prop) n w :
  running n w → pursued f w →
  (∀ j l a, Journey.inv journey_hash j l a →
    returns (m j) (λ r, Q r.1 ∧ ∃ l' a', Journey.inv journey_hash r.2 l' a')) →
  returns (on_journey f m w) (λ r, Q r.1 ∧ after n w r.2).
Proof.
  intros Hw (j & l & a & Hj & Hinv) Hm. unfold on_journey. go_read Hj.
  go_step Hm as [x j'] [Hx (l' & a' & Hinv')]; [exact Hinv|]. apply returns_ret. cbn [fst snd] in *.
  split; [done|]. set (w' := on_app _ w).
  assert (HK : keeps w w').
  { split_and!; [|done|done]. intros g (jg & lg & ag & Hg & Hig). unfold pursued, w'. cbn.
    destruct (decide (g = f)) as [->|Hne].
    - exists j', l', a'. rewrite list_lookup_insert_eq by (by eapply lookup_lt_Some). done.
    - exists jg, lg, ag. by rewrite list_lookup_insert_ne. }
  split; [|done]. destruct Hw. split; try done. by eapply requests_keep.
Qed.

(** A method that leaves the routes alone. *)
Lemma on_journey_frame {A} f (m : Journey.journey → A * Journey.journey) n w :
  running n w → pursued f w →
  (∀ j, let j' := (m j).2 in Journey.nodes j' = Journey.nodes j ∧ Journey.distances j' = Journey.distances j ∧
    Journey.routes j' = Journey.routes j ∧ Journey.source j' = Journey.source j ∧
    Journey.destination j' = Journey.destination j ∧ Journey.visited j' = Journey.visited j ∧
    (0 ≤ Journey.inflight j → 0 ≤ Journey.inflight j')) →
  returns (on_journey f (λ j, Ret (m j)) w) (λ r, after n w r.2).
Proof.
  intros Hw Hp Hm. eapply returns_mono; [eapply (on_journey_returns f _ (λ _, True)); [done..|]|by intros r [_ ?]].
  intros j l a Hinv. destruct (Hm j) as (E1 & E2 & E3 & E4 & E5 & E6 & E7). apply returns_ret. split; [done|].
  exists l, a. eapply Journey.inv_frame; try done. apply E7, Hinv.
Qed.

Lemma add_returns f ns n w :
  running n w → pursued f w → Forall (λ x, valid_id (n_id x)) ns →
  returns (on_journey f (λ j, let! j := Journey.add journey_hash (Some <$> ns) j in Ret (tt, j)) w)
    (λ r, after n w r.2).
Proof.
  intros Hw Hp Hns. eapply returns_mono; [eapply (on_journey_returns f _ (λ _, True)); [done..|]|by intros r [_ ?]].
  intros j l a Hinv. destruct (Journey.add_inv journey_hash j l a ns Hinv Hns) as (j' & l' & E & Hinv' & _).
  rewrite E. apply returns_ret. eauto.
Qed.

(** The nodes that a journey asks next. *)
Definition asked (nx : option (list (option node))) : Prop :=
  ∀ ns, nx = Some ns → ∃ l, ns = Some <$> l ∧ (length l ≤ 3)%nat ∧ Forall (λ x, valid_id (n_id x)) l.

Lemma next_returns f n w :
  running n w → pursued f w → returns (on_journey f (Journey.next 3) w) (λ r, asked r.1 ∧ after n w r.2).
Proof.
  intros Hw Hp. apply on_journey_returns; [done..|]. intros j l a Hinv.
  destruct (Journey.exhausted j) eqn:Ex.
  - rewrite Journey.next_exhausted by done. apply returns_ret. split; [by intros ns|]. eauto.
  - destruct (Journey.next_spec journey_hash 3 j l a Hinv Ex) as (s & j' & Hperm & _ & E & Hinv' & _).
    rewrite E. apply returns_ret. cbn [fst snd]. split; [|eauto]. intros ns [= <-].
    exists (take (Nat.min (length l) 3) s). split_and!; [done|rewrite length_take; lia|]. apply Forall_take.
    rewrite Hperm. apply Hinv.
Qed.

Lemma finish_returns f n w :
  running n w → pursued f w → returns (on_journey f (λ j, Ret (Journey.finish false j)) w) (λ r, after n w r.2).
Proof.
  intros Hw Hp. apply on_journey_frame; [done..|]. intros j. unfold Journey.finish. by destruct (_ || _).
Qed.

Lemma response_returns f n w :
  running n w → pursued f w → returns (on_journey f (λ j, Ret (Journey.responseReceived j)) w) (λ r, after n w r.2).
Proof.
  intros Hw Hp. apply on_journey_frame; [done..|]. intros j. unfold Journey.responseReceived.
  destruct (Z.ltb_spec 0 (Journey.inflight j)); cbn; split_and!; try done. lia.
Qed.

(** ** Sizes of the events of the node *)
Lemma fits_plain id t r : valid_id me → length id = 32%nat →
  zlen (encode (mkEvent _ id me t r None)) ≤ Packet.max_fragmentable.
Proof.
  intros [Hme _] Hid. pose proof (compact_None (benign_encoding BE) id me t r Hid Hme) as Hc.
  change Packet.max_fragmentable with 127804. lia.
Qed.

Lemma fits_store id values size : valid_id me → length id = 32%nat → pile values size →
  zlen (encode (Events.eventStoreRequest id me values)) ≤ Packet.max_fragmentable.
Proof.
  intros [Hme _] Hid Hp. etrans; [by apply (compact_Store (benign_encoding BE))|].
  by apply (pile_bytes Events.wire_value _ size).
Qed.

Lemma fits_found id values size total : valid_id me → length id = 32%nat → pile values size →
  zlen (encode (Events.eventFindValueFoundResponse id me values total)) ≤ Packet.max_fragmentable.
Proof.
  intros [Hme _] Hid Hp. etrans; [by apply (compact_FindValue (benign_encoding BE))|]. cbn [fv_key fv_values fv_nodes].
  pose proof (pile_bytes Events.wire_found values size ltac:(done) Hp) as Hb.
  change (sum node_bytes []) with 0. change (zlen []) with 0. lia.
Qed.

Lemma fits_find id key from : valid_id me → length id = 32%nat → valid_id key →
  zlen (encode (Events.eventFindValueRequest id me key from)) ≤ Packet.max_fragmentable.
Proof.
  intros [Hme _] Hid [Hk _]. etrans; [by apply (compact_FindValue (benign_encoding BE))|]. cbn [fv_key fv_values fv_nodes].
  unfold zlen. rewrite Hk. apply Z.leb_le. reflexivity.
Qed.

Lemma fits_find_node id key : valid_id me → length id = 32%nat → valid_id key →
  zlen (encode (Events.eventFindNodeRequest id me key)) ≤ Packet.max_fragmentable.
Proof.
  intros [Hme _] Hid [Hk _]. etrans; [by apply (compact_FindNode (benign_encoding BE))|]. cbn [fn_key fn_nodes].
  unfold zlen. rewrite Hk. apply Z.leb_le. reflexivity.
Qed.

(** Nodes of the table can be listed. *)
Definition listable (ns : list node) : Prop :=
  (length ns ≤ K)%nat ∧ Forall (λ x, valid_id (n_id x) ∧ is_Some (n_address x)) ns.

Lemma encode_address_returns addr :
  is_Some addr → returns (Events.encode_address addr) (λ a, zlen a = 6).
Proof.
  intros [a ->]. unfold Events.encode_address. cbv zeta.
  assert (Hl : zlen (copy_at (replicate 6 0) 0 (IP a)) = 6).
  { unfold zlen. by rewrite length_copy_at by (rewrite length_replicate; lia). }
  destruct (go_store_len _ 4 (u8 (u16 (Port a))) ltac:(rewrite Hl; lia)) as (b & -> & Hb). cbn [obind].
  destruct (go_store_len b 5 (u8 (Z.shiftr (u16 (Port a)) 8)) ltac:(lia)) as (c & -> & Hc).
  apply returns_ret. lia.
Qed.

Lemma wire_nodes_return ns :
  listable ns → returns (omapM Events.wire_node ns) (λ ws, sum node_bytes ws ≤ 102 * 20).
Proof.
  intros [Hl Hns]. eapply returns_mono; [apply (returns_omapM _ (λ _ x, node_bytes x ≤ 102))|].
  - intros x Hx. rewrite Forall_forall in Hns. destruct (Hns x Hx) as [[Hid _] Ha].
    unfold Events.wire_node. go_step encode_address_returns as a Ea; [done|]. apply returns_ret.
    unfold node_bytes. cbn. rewrite Ea. unfold zlen. rewrite Hid. lia.
  - intros ws Hws. etrans; [apply (sum_bound _ 102)|].
    + apply Forall_lookup. intros i x Hx. by destruct (Forall2_lookup_r _ _ _ _ _ Hws Hx) as (y & _ & ?).
    + apply Forall2_length in Hws. unfold zlen, K in *. lia.
Qed.

Lemma find_node_response id ns :
  valid_id me → length id = 32%nat → listable ns →
  returns (Events.eventFindNodeResponse id me ns) (λ e, zlen (encode e) ≤ Packet.max_fragmentable).
Proof.
  intros [Hme _] Hid Hns. unfold Events.eventFindNodeResponse. go_step wire_nodes_return as ws Hws; [done|].
  apply returns_ret. etrans; [by apply (compact_FindNode (benign_encoding BE))|]. cbn [fn_key fn_nodes].
  change (zlen []) with 0. change Packet.max_fragmentable with 127804. lia.
Qed.

Lemma find_value_response id ns :
  valid_id me → length id = 32%nat → listable ns →
  returns (Events.eventFindValueNotFoundResponse id me ns) (λ e, zlen (encode e) ≤ Packet.max_fragmentable).
Proof.
  intros [Hme _] Hid Hns. unfold Events.eventFindValueNotFoundResponse. go_step wire_nodes_return as ws Hws; [done|].
  apply returns_ret. etrans; [by apply (compact_FindValue (benign_encoding BE))|]. cbn [fv_key fv_values fv_nodes].
  change (zlen []) with 0. change (sum value_bytes []) with 0. change Packet.max_fragmentable with 127804. lia.
Qed.

(** ** Handlers of requests *)

(** An event of a peer that keeps to the format: identifiers and keys of 32
    bytes, addresses of six, values that [Store] would accept.  The reader of a
    response takes its payload for what was asked for, whatever it is. *)
Definition listed_ok (n : WireNode) : Prop := valid_id (wn_id n) ∧ 6 ≤ zlen (wn_address n).

Definition request_ok (t : EventType) (p : payload) : Prop :=
  match t with
  | STORE => Forall (λ v, valid_id (wv_key v) ∧ zlen (wv_value v) ≤ VALUE_BYTES) (s_values (as_Store p))
  | FIND_NODE => valid_id (fn_key (as_FindNode p))
  | FIND_VALUE => valid_id (fv_key (as_FindValue p))
  | PING | PONG | OtherEvent _ => True
  end.

Record polite (e : Event) : Prop := {
  polite_id : length (e_id e) = 32%nat;
  polite_sender : valid_id (e_sender e);
  polite_request p : e_payload e = Some p → e_response e = false → request_ok (e_event e) p;
  polite_response p : e_payload e = Some p → e_response e = true →
    Forall listed_ok (fn_nodes (as_FindNode p)) ∧ Forall listed_ok (fv_nodes (as_FindValue p));
}.

Lemma answer_returns li to id data n w0 w :
  after n w0 w → (li < length (w_batches w0))%nat → length id = 32%nat → zlen data ≤ Packet.max_fragmentable →
  returns (write li to id data w) (λ r, r.1 = None ∧ after n w0 r.2).
Proof.
  intros Hw Hli Hid Hd. assert (EB : length (w_batches w) = length (w_batches w0)) by apply Hw.
  eapply returns_mono; [apply (write_returns _ _ _ _ n); [apply Hw|by rewrite EB|done..]|].
  intros r [E Hr]. split; [done|]. by eapply after_trans.
Qed.

Lemma pong_returns li e addr n w :
  running n w → (li < length (w_batches w))%nat → length (e_id e) = 32%nat →
  returns (pong li e addr w) (λ r, after n w r.2).
Proof.
  intros Hw Hli Hid. eapply returns_mono; [apply (answer_returns _ _ _ _ n w); [done..|]|by intros r [_ ?]].
  rewrite (run_me _ _ Hw). apply fits_plain; [apply Hw|done].
Qed.

Lemma store_returns li now e addr n w :
  running n w → (li < length (w_batches w))%nat → polite e → e_response e = false → e_event e = STORE →
  returns (store li now e addr w) (λ r, after n w r.2).
Proof.
  intros Hw Hli He Hreq Ht. unfold store. destruct (e_payload e) as [p|] eqn:Ep; [|by apply returns_ret, after_refl].
  pose proof (polite_request e He p Ep Hreq) as Hvs. rewrite Ht in Hvs. cbn in Hvs.
  go_step (returns_ofold (after n w)) as w1 Hw1; [by apply after_refl|..].
  - intros w1 v Hv Hw1. rewrite Forall_forall in Hvs. destruct (Hvs v Hv) as [Hk Hl]. unfold store_value.
    go_step steady_Set as [b st] Hst; [apply Hw1|done..|]. apply returns_ret.
    eapply after_trans; [done|]. apply after_storage; [apply Hw1|done].
  - eapply returns_mono; [apply (answer_returns _ _ _ _ n w); [done|done|apply He|]|by intros r [_ ?]].
    rewrite (run_me _ _ (proj1 Hw1)). apply fits_plain; [apply Hw|apply He].
Qed.

Lemma findNode_returns li e addr n w :
  running n w → (li < length (w_batches w))%nat → polite e → e_response e = false → e_event e = FIND_NODE →
  returns (findNode li e addr w) (λ r, after n w r.2).
Proof.
  intros Hw Hli He Hreq Ht. unfold findNode. destruct (e_payload e) as [p|] eqn:Ep; [|by apply returns_ret, after_refl].
  pose proof (polite_request e He p Ep Hreq) as Hk. rewrite Ht in Hk. cbn in Hk.
  go_step closestN_returns as ns Hns; [done..|]. rewrite (run_me _ _ Hw).
  go_step find_node_response as resp Hresp; [apply Hw|apply He|done|].
  eapply returns_mono; [apply (answer_returns _ _ _ _ n w); [done|done|apply He|done]|by intros r [_ ?]].
Qed.

(** The values found are sent in groups that fit. *)
Lemma found_loop_returns li e addr total n w0 vs : ∀ values size w,
  after n w0 w → (li < length (w_batches w0))%nat → length (e_id e) = 32%nat →
  Forall value_ok vs → pile values size →
  returns (found_loop li e addr total values size vs w) (λ r, after n w0 r.2).
Proof.
  intros values size w Hw Hli Hid Hvs. revert values size w Hw.
  induction Hvs as [|v vs Hv _ IH]; intros values size w Hw Hp; cbn [found_loop].
  - destruct (0 <? length values)%nat; [|by apply returns_ret].
    eapply returns_mono; [apply (answer_returns _ _ _ _ n w0); [done..|]|by intros r [_ ?]].
    rewrite (run_me _ _ (proj1 Hw)). eapply fits_found; [apply Hw|done|exact Hp].
  - destruct (Z.leb_spec Packet.MaxEventSize size).
    + go_step (answer_returns li addr (e_id e) _ n w0) as [err w1] [-> Hw1]; [done..| |].
      { rewrite (run_me _ _ (proj1 Hw)). eapply fits_found; [apply Hw|done|exact Hp]. }
      cbn [unless_error]. apply IH; [done|by apply pile_one].
    + apply IH; [done|by apply pile_snoc].
Qed.

Lemma findValue_returns li e addr n w :
  running n w → (li < length (w_batches w))%nat → polite e → e_response e = false → e_event e = FIND_VALUE →
  returns (findValue li e addr w) (λ r, after n w r.2).
Proof.
  intros Hw Hli He Hreq Ht. unfold findValue. destruct (e_payload e) as [p|] eqn:Ep; [|by apply returns_ret, after_refl].
  pose proof (polite_request e He p Ep Hreq) as Hk. rewrite Ht in Hk. cbn in Hk.
  go_step steady_Get as [vs ok] Hvs; [apply Hw|]. destruct ok.
  - apply (found_loop_returns _ _ _ _ n w); [by apply after_refl|done|apply He|done|apply pile_nil].
  - go_step closestN_returns as ns Hns; [done..|]. rewrite (run_me _ _ Hw).
    go_step find_value_response as resp Hresp; [apply Hw|apply He|done|].
    eapply returns_mono; [apply (answer_returns _ _ _ _ n w); [done|done|apply He|done]|by intros r [_ ?]].
Qed.

Lemma handle_returns stale li now e addr n w :
  running n w → (li < length (w_batches w))%nat → polite e → e_response e = false →
  returns (handle stale li now e addr w) (λ r, after n w r.2).
Proof.
  intros Hw Hli He Hreq. unfold handle. destruct (e_event e) eqn:Et;
    auto using store_returns, findNode_returns, findValue_returns, returns_ret, after_refl.
  apply pong_returns; [done..|apply He].
Qed.

(** ** Handing over keys *)
Lemma visit_returns {A} (I : A → Prop) (f : A → Value → outcome (A * bool)) vs a :
  I a → (∀ a v, v ∈ vs → I a → returns (f a v) (λ r, I r.1 ∧ r.2 = true)) →
  returns (Memory.visit f a vs) (λ r, I r.1 ∧ r.2 = true).
Proof.
  revert a. induction vs as [|v vs IH]; intros a Ha Hf; cbn [Memory.visit]; [by apply returns_ret|].
  go_step Hf as [a1 more] [Ha1 ->]; [set_solver|done|]. apply IH; [done|]. intros a2 u Hu. apply Hf. set_solver.
Qed.

Lemma send_store_returns li now to values size n w0 w :
  after n w0 w → (li < length (w_batches w0))%nat → pile values size →
  returns (send_store CbTransfer li now to values w) (λ r, r.1 = None ∧ after n w0 r.2).
Proof.
  intros Hw Hli Hp. unfold send_store. cbn [fresh_rid].
  assert (EB : length (w_batches w) = length (w_batches w0)) by apply Hw.
  pose proof (after_rids n (S (w_rids w)) w (proj1 Hw)) as Hr. pose proof (benign_ids BE (w_rids w)) as Hid.
  eapply returns_mono; [apply (request_returns _ _ _ _ _ _ n); [apply Hr|cbn; by rewrite EB|done|done|]|].
  - cbn [w_localID set_rids]. rewrite (run_me _ _ (proj1 Hw)). eapply fits_store; [apply Hw|done|exact Hp].
  - intros r [E Ha]. split; [done|]. eapply after_trans; [|exact Ha]. by eapply after_trans.
Qed.

Lemma transferKeys_returns li now to id n w :
  running n w → (li < length (w_batches w))%nat → valid_id id →
  returns (transferKeys CbTransfer li now to id w) (after n w).
Proof.
  intros Hw Hli Hid. unfold transferKeys. rewrite RoutingTable.neighbours_spec by apply Hw. cbn [obind].
  destruct (steady_Iterate (w_storage w) (run_storage _ _ Hw)) as (vs & Hy & Hvs).
  set (all := _ <? _). pose (I := λ x : list Value * Z * W, pile x.1.1 x.1.2 ∧ after n w x.2).
  destruct (visit_returns I (transfer_step CbTransfer li now to id all) vs ([], 0, w)) as ([x more] & Ev & [Hx Hmore]).
  - split; [apply pile_nil|by apply after_refl].
  - intros [[values size] w1] v Hv [Hp Hw1]. cbn [fst snd] in Hp, Hw1. rewrite Forall_forall in Hvs.
    destruct (Hvs v Hv) as [Hk Hl]. unfold transfer_step. rewrite (run_me _ _ (proj1 Hw1)).
    rewrite !distance_shared_prefix by (done || apply Hw). cbn [obind].
    destruct (_ || _); [|by apply returns_ret]. destruct (Z.leb_spec Packet.MaxEventSize size).
    + go_step (send_store_returns li now to values size n w) as [err w2] [-> Hw2]; [done..|].
      apply returns_ret. split; [|done]. split; [by apply pile_one|done].
    + apply returns_ret. split; [|done]. split; [by apply pile_snoc|done].
  - cbn [fst snd] in Hmore. subst more. rewrite (Hy _ _ _ _ Ev). cbn [obind].
    destruct x as [[values size] w1]. destruct Hx as [Hp Hw1]. cbn [fst snd] in Hp, Hw1.
    assert (Hw2 : after n w (set_storage (w_storage w) w1)).
    { eapply after_trans; [exact Hw1|]. apply after_storage; [apply Hw1|apply Hw]. }
    destruct (0 <? length values)%nat; [|by apply returns_ret].
    go_step (send_store_returns li now to values size n w) as [err w3] [_ Hw3]; [done..|]. by apply returns_ret.
Qed.

(** ** Callbacks *)
Lemma after_less n m w w' : m ≤ n → after n w w' → after m w w'.
Proof. intros Hm [HR HK]. split; [by eapply running_less|done]. Qed.

Lemma after_pursued n w w' f : after n w w' → pursued f w → pursued f w'.
Proof. intros [_ [HP _]]. apply HP. Qed.

Lemma after_on_stores n (g : list store_op → list store_op) w :
  running n w → (length (a_stores (w_app w)) ≤ length (g (a_stores (w_app w))))%nat →
  after n w (on_app (λ a, set_stores (g (a_stores a)) a) w).
Proof.
  intros Hw Hg. assert (HK : keeps w (on_app (λ a, set_stores (g (a_stores a)) a) w)) by (by split_and!).
  split; [|done]. destruct Hw. split; try done. by eapply requests_keep.
Qed.

Lemma after_new_journey n dst w :
  running n w → let w' := on_app (λ a, set_journeys
    (a_journeys a ++ [Journey.newJourney (w_localID w) dst (Z.of_nat K)]) a) w in
  after n w w' ∧ (valid_id dst → pursued (length (a_journeys (w_app w))) w').
Proof.
  intros Hw w'. assert (HK : keeps w w').
  { split_and!; [|done|done]. intros f (j & l & a & Hj & Hinv). exists j, l, a. split; [|done]. cbn. by apply lookup_app_l_Some. }
  split; [split; [|done]; destruct Hw; split; try done; by eapply requests_keep|].
  intros Hd. exists (Journey.newJourney (w_localID w) dst (Z.of_nat K)), [], []. split; [|by apply Journey.inv_newJourney].
  cbn. by apply list_lookup_middle.
Qed.

Lemma deliver_returns f vs n w :
  running n w → pursued f w → returns (ofold (deliver journey_hash f) w vs) (after n w).
Proof.
  intros Hw Hp. apply returns_ofold; [by apply after_refl|]. intros w1 v _ Hw1. unfold deliver.
  go_step (on_journey_frame f (Journey.seenValue journey_hash (wv_value v)) n) as [seen w2] Hw2.
  - apply Hw1.
  - by eapply after_pursued.
  - intros j. unfold Journey.seenValue. by case_decide.
  - apply returns_ret. assert (Hw02 : after n w w2) by (by eapply after_trans).
    apply after_if; [done|]. eapply after_trans; [exact Hw02|]. apply after_user; [apply Hw02|by right].
Qed.

Lemma not_found_returns f n w :
  running n w → pursued f w → returns (not_found f w) (λ r, after n w r.2).
Proof.
  intros Hw Hp. unfold not_found. go_step finish_returns as [won w1] Hw1; [done..|]. apply returns_ret. cbn [snd].
  apply after_if; [|done]. eapply after_trans; [exact Hw1|]. apply after_user; [apply Hw1|by right].
Qed.

(** Asking the nodes [l]. *)
Lemma budget_nil {A} n w : running (n + zlen (@nil A)) w → after n w w.
Proof. intros Hw. eapply after_refl, running_less; [|exact Hw]. unfold zlen. cbn. lia. Qed.

Lemma budget_cons {A} n (x : A) l w : running (n + zlen (x :: l)) w → running (n + zlen l + 1) w.
Proof. apply running_less. unfold zlen. cbn [length]. lia. Qed.

Lemma ask_value_returns now f key from x n w :
  running (n + 1) w → 0 ≤ n → pursued f w → valid_id key → valid_id (n_id x) →
  returns (send now (n_address x) (λ rid, Events.eventFindValueRequest rid (w_localID w) key from)
    (CbFindValue (n_id x) key from f) w) (λ r, r.1 = None ∧ after n w r.2).
Proof.
  intros Hw Hn Hp Hk Hx. apply send_returns; [done|done|done|]. intros rid Hrid. rewrite (run_me _ _ Hw).
  apply fits_find; [apply Hw|done|done].
Qed.

Lemma continue_find_returns now f key from n l : ∀ w,
  running (n + zlen l) w → 0 ≤ n → pursued f w → valid_id key → Forall (λ x, valid_id (n_id x)) l →
  returns (continue_find now f key from (Some <$> l) w) (λ r, after n w r.2).
Proof.
  intros w Hw Hn Hp Hk Hl. revert w Hw Hp.
  induction Hl as [|x l Hx _ IH]; intros w Hw Hp; cbn [continue_find fmap list_fmap].
  { apply returns_ret. exact (budget_nil n w Hw). }
  apply budget_cons in Hw. cbn [deref obind]. pose proof (zlen_nonneg l).
  go_step (ask_value_returns now f key from x (n + zlen l)) as [err w1] [-> Hw1]; [done|lia|done..|].
  eapply returns_after; [exact Hw1|]. apply IH; [apply Hw1|by eapply after_pursued].
Qed.

Lemma find_loop_returns now f key from n l : ∀ w,
  running (n + zlen l) w → 0 ≤ n → pursued f w → valid_id key → Forall (λ x, valid_id (n_id x)) l →
  returns (find_loop now f key from (Some <$> l) w) (after n w).
Proof.
  intros w Hw Hn Hp Hk Hl. revert w Hw Hp.
  induction Hl as [|x l Hx _ IH]; intros w Hw Hp; cbn [find_loop fmap list_fmap].
  { apply returns_ret. exact (budget_nil n w Hw). }
  apply budget_cons in Hw. cbn [deref obind]. pose proof (zlen_nonneg l).
  go_step (ask_value_returns now f key from x (n + zlen l)) as [err w1] [-> Hw1]; [done|lia|done..|].
  eapply returns_after; [exact Hw1|]. apply IH; [apply Hw1|by eapply after_pursued].
Qed.

Lemma nodes_loop_returns now f target n l : ∀ w,
  running (n + zlen l) w → 0 ≤ n → pursued f w → valid_id target → (0 < br)%nat ∨ l = [] →
  returns (nodes_loop now f target (Some <$> l) w) (λ r, after n w r.2).
Proof.
  intros w Hw Hn Hp Hk Hbr. revert w Hw Hp.
  induction l as [|x l IH]; intros w Hw Hp; cbn [nodes_loop fmap list_fmap].
  { apply returns_ret. exact (budget_nil n w Hw). }
  destruct Hbr as [Hbr|]; [|done]. apply budget_cons in Hw. cbn [deref obind]. pose proof (zlen_nonneg l).
  go_step (send_returns now _ _ (CbFindNode target f) (n + zlen l)) as [err w1] [-> Hw1]; [done|lia|done|..].
  { intros rid Hrid. cbv beta. rewrite (run_me _ _ Hw). apply fits_find_node; [apply Hw|done|done]. }
  eapply returns_after; [exact Hw1|]. apply IH; [by left|apply Hw1|by eapply after_pursued].
Qed.

Lemma response_node_returns (id : WireNode → bytes) x :
  6 ≤ zlen (wn_address x) →
  returns (response_node id x) (λ y, n_id y = id x ∧ is_Some (n_address y)).
Proof.
  intros Ha. unfold response_node, Events.decode_address.
  destruct (go_slice_len (wn_address x) 4 (zlen (wn_address x))) as (s & -> & Hs); [lia|lia|]. cbn [obind].
  destruct (go_index_len s 1) as (b1 & -> & _); [lia|]. cbn [obind].
  destruct (go_index_len s 0) as (b0 & -> & _); [lia|]. cbn [obind].
  destruct (go_slice_len (wn_address x) 0 4) as (ip & -> & _); [lia|lia|]. cbn [obind].
  apply returns_ret. cbn. eauto.
Qed.

(** What a callback is called with: an error, or the response of a peer. *)
Definition answer_ok (event : option Event) (err : option error) : Prop :=
  err = None → ∃ ev, event = Some ev ∧ polite ev ∧ e_response ev = true.

(** Only a response makes a search send requests. *)
Definition cost (err : option error) : Z := match err with None => 3 | Some _ => 0 end.
Lemma cost_pos err : 0 ≤ cost err.
Proof. by destruct err. Qed.

(** The nodes of a response go into a journey, and the next ones are asked. *)
Lemma next_nodes_return {A} f ns n w (k : option (list (option node)) → W → outcome A) (Q : A → Prop) :
  running n w → pursued f w → Forall (λ x, valid_id (n_id x)) ns →
  (∀ nx w', asked nx → after n w w' → pursued f w' → returns (k nx w') Q) →
  returns (let! '(_, w) := on_journey f (λ j,
      let! j := Journey.add journey_hash (Some <$> ns) j in Ret (tt, j)) w in
    let! '(nx, w) := on_journey f (Journey.next 3) w in k nx w) Q.
Proof.
  intros Hw Hp Hns Hk. go_step add_returns as [u w1] Hw1; [done..|].
  assert (Hp1 : pursued f w1) by (by eapply after_pursued).
  go_step next_returns as [nx w2] [Hnx Hw2]; [apply Hw1|done|].
  apply Hk; [done|by eapply after_trans|by eapply after_pursued].
Qed.

Lemma findValueCallback_returns now id key from f event err n w :
  running (n + cost err) w → 0 ≤ n → valid_id id → valid_id key → pursued f w → answer_ok event err →
  returns (findValueCallback journey_hash now id key from f event err w) (λ r, after n w r.2).
Proof.
  intros Hw Hn Hid Hk Hp Hans. unfold findValueCallback.
  eapply (returns_bind _ _ (after (n + cost err) w)).
  { destruct err as [[]|]; try by apply returns_ret, after_refl.
    go_step remove_returns as t Ht; [done..|]. by apply returns_ret. }
  intros w1 Hw1. assert (Hp1 : pursued f w1) by (by eapply after_pursued).
  go_step response_returns as [[completed shouldError] w2] Hw2; [apply Hw1|done|].
  apply (after_trans _ _ _ _ _ Hw1) in Hw2. apply (after_pursued _ _ _ _ Hw2) in Hp. clear w1 Hw1 Hp1 Hw.
  assert (Hn2 : after n w w2) by (eapply after_less; [|done]; pose proof (cost_pos err); lia).
  assert (Hlog : ∀ e, after n w (user (FindFailed f e) w2))
    by (intros e; eapply after_trans; [exact Hn2|]; apply after_user; [apply Hn2|by right]).
  destruct completed; [by apply returns_ret|].
  destruct err as [e|]; [destruct shouldError; [apply returns_ret, Hlog|by apply returns_ret]|].
  cbn [cost] in Hw2. destruct (Hans eq_refl) as (ev & -> & Hev & Hresp). destruct (e_payload ev) as [p|] eqn:Ep; [|apply returns_ret, Hlog].
  destruct (polite_response ev Hev p Ep Hresp) as [_ Hns].
  destruct (0 <? length _)%nat; [|destruct (_ <? 1)%nat].
  - go_step (on_journey_frame f (λ j, (tt, Journey.addOutstanding journey_hash (e_sender ev) (fv_found (as_FindValue p)) j)) n)
      as [u w3] Hw3; [apply Hn2|done| |].
    { intros j. unfold Journey.addOutstanding. cbn. by destruct (Journey.outstanding j !! _). }
    apply (after_pursued _ _ _ _ Hw3) in Hp.
    go_step (on_journey_frame f (λ j, (tt, Journey.removeOutstanding journey_hash (e_sender ev) (zlen (fv_values (as_FindValue p))) j)) n)
      as [u' w4] Hw4; [apply Hw3|done|done|]. apply (after_pursued _ _ _ _ Hw4) in Hp.
    go_step deliver_returns as w5 Hw5; [apply Hw4|done|]. apply (after_pursued _ _ _ _ Hw5) in Hp.
    eapply returns_mono; [apply finish_returns; [apply Hw5|done]|]. intros r Hr.
    do 3 (eapply after_trans; [eassumption|]). by eapply after_trans.
  - eapply returns_after; [exact Hn2|]. apply not_found_returns; [apply Hn2|done].
  - go_step (returns_omapM _ (λ _ y, n_id y = id)) as ns Hnew.
    { intros x Hx. rewrite Forall_forall in Hns. eapply returns_mono; [apply response_node_returns, (Hns x Hx)|].
      by intros y [? _]. }
    apply (next_nodes_return f ns (n + 3)); [apply Hw2|done| |].
    { apply Forall_lookup. intros i y Hy. destruct (Forall2_lookup_r _ _ _ _ _ Hnew Hy) as (x & _ & ->). done. }
    intros nx w3 Hnx Hw3 Hp3. apply (after_trans _ _ _ _ _ Hw2) in Hw3. destruct nx as [ms|].
    + destruct (Hnx ms eq_refl) as (l & -> & Hl & Hv).
      eapply returns_after; [exact Hw3|]. apply (continue_find_returns _ _ _ _ n); [|done..].
      eapply running_less; [|apply Hw3]. unfold zlen. lia.
    + eapply returns_mono; [apply (not_found_returns _ (n + 3)); [apply Hw3|done]|]. intros r Hr.
      eapply after_less; [|exact (after_trans _ _ _ _ _ Hw3 Hr)]. lia.
Qed.

Lemma discover_returns now n w nodes :
  running n w → Forall listed_ok nodes →
  returns (ofold (discover now) ([], w) nodes) (λ r, Forall (λ x, valid_id (n_id x)) r.1 ∧ after n w r.2).
Proof.
  intros Hw Hns. apply (returns_ofold (λ r, Forall (λ x, valid_id (n_id x)) r.1 ∧ after n w r.2)).
  { split; [constructor|by apply after_refl]. }
  intros [ns w1] x Hx [Hv Hw1]. cbn [fst snd] in *. rewrite Forall_forall in Hns. destruct (Hns x Hx) as [Hid Ha].
  unfold discover. go_step response_node_returns as y [Ey Hy]; [done|]. assert (Hyv : valid_id (n_id y)) by (by rewrite Ey).
  go_step insert_returns as t Ht; [apply Hw1|done|done|]. apply returns_ret. cbn [fst snd]. split.
  - apply Forall_app. by rewrite Forall_singleton.
  - by eapply after_trans.
Qed.

Lemma findNodeCallback_returns now target f event err n w :
  running (n + cost err) w → 0 ≤ n → (0 < br)%nat → valid_id target → pursued f w → answer_ok event err →
  returns (findNodeCallback journey_hash now target f event err w) (λ r, after n w r.2).
Proof.
  intros Hw Hn Hbr Ht Hp Hans. unfold findNodeCallback.
  go_step response_returns as [[completed shouldError] w2] Hw2; [apply Hw|done|].
  apply (after_pursued _ _ _ _ Hw2) in Hp.
  assert (Hn2 : after n w w2) by (eapply after_less; [|done]; pose proof (cost_pos err); lia).
  assert (Hlog : ∀ c, after n w (user c w2)) by (intros c; eapply after_trans; [exact Hn2|]; apply after_user; [apply Hn2|by left]).
  destruct err as [e|]; [destruct shouldError; [apply returns_ret, Hlog|by apply returns_ret]|].
  cbn [cost] in Hw2. destruct (Hans eq_refl) as (ev & -> & Hev & Hresp). destruct (e_payload ev) as [p|] eqn:Ep; [|apply returns_ret, Hlog].
  destruct (polite_response ev Hev p Ep Hresp) as [Hns _].
  go_step discover_returns as [ns w3] [Hv Hw3]; [apply Hw2|done|]. apply (after_pursued _ _ _ _ Hw3) in Hp.
  apply (after_trans _ _ _ _ _ Hw2) in Hw3. apply (next_nodes_return f ns (n + 3)); [apply Hw3|done|done|].
  intros nx w4 Hnx Hw4 Hp4. apply (after_trans _ _ _ _ _ Hw3) in Hw4. destruct nx as [ms|].
  - destruct (Hnx ms eq_refl) as (l & -> & Hl & _).
    go_step (nodes_loop_returns now f target n l) as [b w5] Hw5; [|done|done|done|by left|].
    + eapply running_less; [|apply Hw4]. unfold zlen. lia.
    + apply returns_ret. by eapply after_trans.
  - go_step finish_returns as [won w5] Hw5; [apply Hw4|done|]. apply (after_trans _ _ _ _ _ Hw4) in Hw5.
    apply returns_ret. cbn [snd]. apply (after_less (n + 3)); [lia|]. apply after_if; [|done].
    eapply after_trans; [exact Hw5|]. apply after_user; [apply Hw5|by left].
Qed.

Lemma run_returns now c event err n w :
  running (n + cost err) w → 0 ≤ n → cb_ok w c → answer_ok event err →
  returns (run journey_hash now c event err w) (λ r, after n w r.2).
Proof.
  intros Hw Hn Hc Hans. assert (Hw0 : running n w) by (eapply running_less; [|done]; pose proof (cost_pos err); lia).
  assert (Hlog : ∀ s e w1, after n w w1 → after n w (user (Stored s e) w1)).
  { intros s e w1 Hw1. eapply after_trans; [exact Hw1|]. apply after_user; [apply Hw1|by right]. }
  destruct c as [|s|id key from f|target f|id|p id|]; cbn [run cb_ok] in *.
  - by apply returns_ret, after_refl.
  - unfold store_callback. destruct err as [e|]; [by apply returns_ret, Hlog|].
    destruct (lookup_lt_is_Some_2 _ _ Hc) as [o Ho]. go_read Ho. cbv zeta.
    assert (Hs : after n w (on_app (λ a, set_stores (<[s := mkStoreOp (i32 (so_responses o + 1)) (so_nodes o)]> (a_stores a)) a) w)).
    { apply (after_on_stores _ (λ l, <[s := _]> l)); [done|]. by rewrite length_insert. }
    destruct (_ =? _); apply returns_ret; [by apply Hlog|done].
  - destruct Hc as (? & ? & ?). by apply findValueCallback_returns.
  - destruct Hc as (? & ? & ?). by apply findNodeCallback_returns.
  - unfold monitor_callback. destruct err as [[]|]; try by apply returns_ret, after_refl.
    + go_step remove_returns as t Ht'; [done..|]. by apply returns_ret.
    + go_step seen_returns as [b t] Ht'; [done..|]. by apply returns_ret.
  - done.
  - by apply returns_ret, after_refl.
Qed.

(** *** With the channel of the bootstrap

    The statement returns, or it blocks, which takes a bootstrap. *)
Definition goes {A} (c : outcome A) (Q : A → Prop) : Prop := returns c Q ∨ (0 < br)%nat ∧ c = Blocked.

Lemma goes_bind {A B} (c : outcome A) (k : A → outcome B) (P : A → Prop) (Q : B → Prop) :
  goes c P → (∀ x, P x → goes (k x) Q) → goes (obind c k) Q.
Proof. intros [(x & -> & Hx)|[Hbr ->]] Hk; [by apply Hk|by right]. Qed.

Lemma goes_ret {A} (x : A) (Q : A → Prop) : Q x → goes (Ret x) Q.
Proof. intros Hx. left. by apply returns_ret. Qed.

Lemma goes_mono {A} (c : outcome A) (P Q : A → Prop) : goes c P → (∀ x, P x → Q x) → goes c Q.
Proof. intros [Hc|Hc] HPQ; [left|by right]. by eapply returns_mono. Qed.

Lemma goes_ofold {A S} (I : S → Prop) (f : S → A → outcome S) s l :
  I s → (∀ s x, x ∈ l → I s → goes (f s x) I) → goes (ofold f s l) I.
Proof.
  revert s. induction l as [|x l IH]; intros s Hs Hf; cbn [ofold]; [by apply goes_ret|].
  eapply goes_bind; [apply Hf; [set_solver|done]|]. intros s1 Hs1. apply IH; [done|]. intros s2 y Hy. apply Hf. set_solver.
Qed.

Abbreviation callbacks now := (Bootstrap.run_br journey_hash br br now).

Lemma callbacks_go now c event err n w :
  running (n + cost err) w → 0 ≤ n → cb_ok w c → answer_ok event err →
  goes (callbacks now c event err w) (λ r, after n w r.2).
Proof.
  intros Hw Hn Hc Hans. destruct (run_returns now c event err n w Hw Hn Hc Hans) as ([b w1] & E & Hw1).
  unfold Bootstrap.run_br. rewrite E. cbn [obind].
  destruct (Nat.ltb_spec (br + br) (length (Bootstrap.results w1))) as [Hfull|_]; [|by apply goes_ret].
  right. split; [|done]. destruct br as [|k] eqn:Ebr; [|lia]. cbn [snd] in Hw1.
  rewrite (run_quiet _ _ (proj1 Hw1) Ebr) in Hfull. cbn in Hfull. lia.
Qed.

Lemma respond_goes now key ev n w :
  running (n + 3) w → 0 ≤ n → polite ev → e_response ev = true →
  goes (Cache.callback cache_hash w_requests set_requests (callbacks now) key (Some ev) None w) (after n w).
Proof.
  intros Hw Hn He Hr. unfold Cache.callback. cbv zeta. destruct (w_requests w !! _) as [q|] eqn:Eq.
  - eapply goes_bind; [apply (callbacks_go _ _ _ _ n); [done|done|by apply (run_requests _ _ Hw _ _ Eq)|by intros _; exists ev]|].
    intros [b w1] Hw1. cbn [snd] in Hw1. destruct b; apply goes_ret; [|done]. eapply after_trans; [exact Hw1|].
    apply after_requests; [apply Hw1|]. apply map_Forall_delete, Hw1.
  - apply goes_ret, after_refl. eapply running_less; [|done]. lia.
Qed.

Lemma sweep_goes now ks n w :
  running n w → 0 ≤ n →
  goes (Cache.cleanup w_requests set_requests (callbacks now) now ks w) (after n w).
Proof.
  intros Hw Hn. apply goes_ofold; [by apply after_refl|]. intros w1 k _ Hw1. unfold Cache.cleanup_visit.
  destruct (w_requests w1 !! k) as [q|] eqn:Eq; [|by apply goes_ret]. destruct (After _ _); [|by apply goes_ret].
  eapply goes_bind; [apply (callbacks_go now (Cache.callback_of q) None (Some ErrRequestTimeout) n);
    [cbn [cost]; rewrite Z.add_0_r; apply Hw1|done|by apply (run_requests _ _ (proj1 Hw1) _ _ Eq)|done]|].
  intros [b w2] Hw2. cbn [snd] in Hw2. apply goes_ret. apply (after_trans _ _ _ _ _ Hw1) in Hw2. eapply after_trans; [exact Hw2|].
  apply after_requests; [apply Hw2|]. apply map_Forall_delete, Hw2.
Qed.

(** ** Operations *)

(** What can be asked of a datagram that arrives: its own form, and that the
    event it completes, if it does, is one of a polite peer. *)
Definition datagram_ok (now : Z) (d : bytes) w : Prop :=
  Packet.wf_datagram d = true ∧ wf_bytes d ∧ zlen d ≤ 65535 ∧
  ∀ p ps data, Packet.assemble packet_hash (pooled (w_rids w)) now d (w_packets w) = Ret (Some p, ps) →
    Packet.data p = Ret data → returns (decode data) polite.

Lemma process_one_goes stale li now addr d n w :
  running (n + 3) w → 0 ≤ n → (li < length (w_batches w))%nat → is_Some addr → datagram_ok now d w →
  goes (process_one CbTransfer (callbacks now) stale li now addr d w) (after n w).
Proof.
  intros Hw Hn Hli Ha (Hwf & Hb & Hl & Hdec). unfold process_one.
  destruct (Packet.assemble_total packet_hash (pooled (w_rids w)) now d (w_packets w) Hwf Hb Hl) as (r & ps & E & Hps & Hsm & Hr);
    [apply (benign_pool BE)|apply Hw|apply Hw|]. rewrite E. cbn [obind].
  pose proof (after_packets _ ps w Hw Hps Hsm) as Hw1. set (w1 := set_packets ps w) in *.
  destruct r as [p|]; [|apply goes_ret; eapply after_less; [|done]; lia].
  destruct (Hr p eq_refl) as [data Ed]. rewrite Ed. cbn [obind].
  destruct (Hdec p ps data E Ed) as (e & -> & He). cbn [obind].
  destruct (seen_returns now (e_sender e) (n + 3) w1) as ([known t] & -> & Ht); [apply Hw1|apply He|]. cbn [obind snd] in *.
  apply (after_trans _ _ _ _ _ Hw1) in Ht.
  apply (goes_bind _ _ (after (n + 3) w)).
  { left. destruct known; [by apply returns_ret|]. go_step (insert_returns now (e_sender e) addr 0 false (n + 3)) as t' Ht';
      [apply Ht|apply He|done|]. apply returns_ret. by eapply after_trans. }
  intros w2 Hw2. assert (Hw20 : after n w w2) by (eapply after_less; [|done]; lia).
  assert (EB : length (w_batches w2) = length (w_batches w)) by apply Hw2.
  destruct (e_response e) eqn:Er.
  - eapply goes_mono; [apply (respond_goes _ _ _ n); [apply Hw2|done..]|]. intros w3 Hw3. by eapply after_trans.
  - left. go_step (handle_returns stale li now e addr n) as [err w3] Hw3; [apply Hw20|by rewrite EB|done|done|].
    apply (after_trans _ _ _ _ _ Hw20) in Hw3. destruct err; [by apply returns_ret|].
    destruct known; [by apply returns_ret|].
    assert (EB3 : length (w_batches w3) = length (w_batches w)) by apply Hw3.
    eapply (returns_after (λ r, r)); [exact Hw3|]. apply (transferKeys_returns _ _ _ _ n); [apply Hw3|by rewrite EB3|apply He].
Qed.

(** [Store] with the nodes [ns]; [s] is the operation. *)
Lemma store_loop_returns now s v total n ns : ∀ w,
  running (n + zlen ns) w → 0 ≤ n → (s < length (a_stores (w_app w)))%nat → value_ok v →
  returns (store_loop now s v total ns w) (after n w).
Proof.
  intros w Hw Hn Hs Hv. revert w Hw Hs. induction ns as [|x ns IH]; intros w Hw Hs; cbn [store_loop].
  { apply returns_ret. exact (budget_nil n w Hw). }
  apply budget_cons in Hw. pose proof (zlen_nonneg ns).
  assert (Hgo : ∀ w1, after (n + zlen ns) w w1 → returns (store_loop now s v total ns w1) (after n w)).
  { intros w1 Hw1. eapply (returns_after (λ r, r)); [exact Hw1|]. apply IH; [apply Hw1|].
    destruct Hw1 as [_ (_ & Hl & _)]. lia. }
  destruct (Equal _ _).
  - go_step steady_Set as [b st] Hst; [apply Hw|apply Hv|apply Hv|]. cbv zeta.
    assert (Hw1 : after (n + zlen ns) w (set_storage st w)).
    { apply (after_less (n + zlen ns + 1)); [lia|]. by apply after_storage. }
    destruct (total =? 1)%nat; [|by apply Hgo]. apply returns_ret. apply (after_less (n + zlen ns)); [lia|].
    eapply after_trans; [exact Hw1|]. apply after_user; [apply Hw1|by right].
  - go_step (send_returns now (n_address x) _ (CbStore s) (n + zlen ns)) as [err w1] [-> Hw1]; [done|lia|done| |by apply Hgo].
    intros rid Hrid. cbv beta. rewrite (run_me _ _ Hw).
    eapply fits_store; [apply Hw|done|by apply pile_one].
Qed.

Lemma Store_returns now key value ttl n w :
  running (n + Z.of_nat K) w → 0 ≤ n → wf_bytes key → returns (Store now key value ttl w) (after n w).
Proof.
  intros Hw Hn Hb. assert (Hw0 : running n w) by (eapply running_less; [|done]; unfold K; lia).
  assert (Hnew : ∀ m o, running m w → after m w (on_app (λ a, set_stores (a_stores a ++ [o]) a) w)).
  { intros m o Hm. apply (after_on_stores _ (λ l, l ++ [o])); [done|]. rewrite length_app. lia. }
  assert (Hfail : ∀ s e o, after n w (user (Stored s e) (on_app (λ a, set_stores (a_stores a ++ [o]) a) w))).
  { intros s e o. eapply after_trans; [by apply (Hnew n)|]. apply after_user; [by apply Hnew|by right]. }
  unfold Store. cbv zeta. destruct (Z.eqb_spec (zlen key) KEY_BYTES) as [Hk|Hk]; [|by apply returns_ret, Hfail]. cbn [negb].
  destruct (Z.ltb_spec VALUE_BYTES (zlen value)); [by apply returns_ret, Hfail|].
  assert (Hkey : valid_id key) by (split; [unfold zlen in Hk; change KEY_BYTES with 32 in Hk; lia|done]).
  go_step closestN_returns as ns [Hns _]; [done|done|]. destruct (zlen ns <? 1); [by apply returns_ret, Hfail|].
  set (o := mkStoreOp 0 (zlen ns)). destruct (Hnew _ o Hw) as [Hw1 HK1].
  eapply returns_mono; [apply (store_loop_returns _ _ _ _ n)|].
  - eapply running_less; [|exact Hw1]. unfold zlen. lia.
  - done.
  - cbn. rewrite length_app. cbn. lia.
  - done.
  - intros w2 [Hw2 HK2]. split; [done|]. by etrans.
Qed.

Lemma after_users f vs n w : ∀ w1,
  after n w w1 → after n w (foldl (λ w v, user (FoundValue f (v_Value v)) w) w1 vs).
Proof.
  induction vs as [|v vs IH]; intros w1 Hw1; [done|]. cbn. apply IH. eapply after_trans; [exact Hw1|].
  apply after_user; [apply Hw1|by right].
Qed.

Lemma Find_returns now key from n w :
  running (n + 3) w → 0 ≤ n → wf_bytes key → returns (Find journey_hash now key from w) (after n w).
Proof.
  intros Hw Hn Hb. unfold Find. cbv zeta. set (f := length (a_journeys (w_app w))).
  destruct (after_new_journey (n + 3) key w Hw) as [Hw1 Hp]. fold f in Hp. set (w1 := on_app _ w) in *.
  assert (Hw10 : after n w w1) by (eapply after_less; [|done]; lia).
  assert (Hfail : ∀ e, after n w (user (FindFailed f e) w1))
    by (intros e; eapply after_trans; [exact Hw10|]; apply after_user; [apply Hw10|by right]).
  destruct (Z.eqb_spec (zlen key) KEY_BYTES) as [Hk|Hk]; [|by apply returns_ret, Hfail]. cbn [negb].
  assert (Hkey : valid_id key) by (split; [unfold zlen in Hk; change KEY_BYTES with 32 in Hk; lia|done]).
  specialize (Hp Hkey). go_step steady_Get as [vs ok] Hvs; [apply Hw1|]. destruct ok.
  { apply returns_ret. by apply after_users. }
  go_step closestN_returns as ns [Hns Hv]; [apply Hw1|done|]. destruct (_ =? _)%nat; [by apply returns_ret, Hfail|].
  apply (next_nodes_return f ns (n + 3)); [apply Hw1|done|eapply Forall_impl; [exact Hv|by intros x [? _]]|].
  intros nx w2 Hnx Hw2 Hp2. apply (after_trans _ _ _ _ _ Hw1) in Hw2. destruct nx as [ms|]; cbn [default].
  - destruct (Hnx ms eq_refl) as (l & -> & Hl & Hlv).
    eapply (returns_after (λ r, r)); [exact Hw2|]. apply (find_loop_returns _ _ _ _ n); [|done..].
    eapply running_less; [|apply Hw2]. unfold zlen. lia.
  - apply returns_ret. eapply after_less; [|exact Hw2]. lia.
Qed.

Lemma monitor_loop_returns now n ns : ∀ w,
  running (n + zlen ns) w → 0 ≤ n → Forall (λ x, valid_id (n_id x)) ns →
  returns (monitor_loop now ns w) (after n w).
Proof.
  intros w Hw Hn Hns. revert w Hw. induction Hns as [|x ns Hx _ IH]; intros w Hw; cbn [monitor_loop].
  { apply returns_ret. exact (budget_nil n w Hw). }
  apply budget_cons in Hw. pose proof (zlen_nonneg ns).
  go_step (send_returns now (n_address x) _ (CbMonitor (n_id x)) (n + zlen ns)) as [err w1] [-> Hw1]; [done|lia|done|..].
  { intros rid Hrid. cbv beta. rewrite (run_me _ _ Hw). apply fits_plain; [apply Hw|done]. }
  eapply (returns_after (λ r, r)); [exact Hw1|]. apply IH, Hw1.
Qed.

Lemma monitor_returns now n w :
  running (n + zlen (RoutingTable.all_live (w_routing w))) w → 0 ≤ n → returns (monitor now w) (after n w).
Proof.
  intros Hw Hn. unfold monitor. rewrite monitor_pings_recent by apply Hw. cbn [obind]. apply monitor_loop_returns; [|done|].
  - eapply running_less; [|exact Hw]. unfold zlen. apply Zplus_le_compat_l, inj_le, length_filter.
  - apply Forall_filtered, Forall_forall. intros x Hx. eapply live_valid; [apply Hw|done].
Qed.

(** What a storage yields, an iteration collects. *)
Lemma yields_collect {B} s (g : Value → B) vs :
  yields s vs → st_Iterate (λ l v, Ret (l ++ [g v], true)) [] s = Ret (g <$> vs, s).
Proof.
  intros Hy. apply Hy. clear Hy.
  enough (Hgen : ∀ l, Memory.visit (λ l v, Ret (l ++ [g v], true)) l vs = Ret (l ++ (g <$> vs), true)) by apply Hgen.
  induction vs as [|v vs IH]; intros l; cbn [Memory.visit obind]; [by rewrite app_nil_r|].
  by rewrite IH, fmap_cons, <-app_assoc.
Qed.

Lemma yields_unique s vs vs' : yields s vs → yields s vs' → vs = vs'.
Proof.
  intros Hy%(yields_collect _ id) Hy'%(yields_collect _ id). rewrite Hy, !list_fmap_id in Hy'. congruence.
Qed.

Lemma refreshKeys_returns now vs n w :
  running (n + Z.of_nat K * zlen vs) w → 0 ≤ n → yields (w_storage w) vs → returns (refreshKeys now w) (after n w).
Proof.
  intros Hw Hn Hy. unfold refreshKeys. rewrite (yields_collect _ v_Key _ Hy). cbn [obind].
  replace (set_storage (w_storage w) w) with w by (by destruct w).
  destruct (steady_Iterate (w_storage w) (run_storage _ _ Hw)) as (vs' & Hy' & Hvs).
  rewrite (yields_unique _ _ _ Hy' Hy) in Hvs. clear Hy Hy' vs'. revert w Hw.
  induction Hvs as [|v vs [Hv _] _ IH]; intros w Hw; cbn [fmap list_fmap ofold].
  { apply returns_ret, after_refl. eapply running_less; [|exact Hw]. unfold zlen. cbn. lia. }
  assert (Hw1 : running (n + Z.of_nat K * zlen vs + Z.of_nat K) w).
  { eapply running_less; [|exact Hw]. unfold zlen. cbn [length]. lia. }
  eapply (returns_bind _ _ (after (n + Z.of_nat K * zlen vs) w)).
  - assert (Hsame : after (n + Z.of_nat K * zlen vs) w w).
    { eapply after_refl, running_less; [|exact Hw1]. unfold K. lia. }
    unfold refresh_key. go_step steady_Get as [us ok] _; [apply Hw|]. destruct ok; cbn [negb]; [|by apply returns_ret].
    destruct us as [|u us]; [by apply returns_ret|]. destruct (0 <? _); [|by apply returns_ret].
    apply Store_returns; [done|unfold zlen, K; lia|apply Hv].
  - intros w1 Hw2. eapply (returns_after (λ r, r)); [exact Hw2|]. apply IH, Hw2.
Qed.

Lemma flush_returns li n w :
  running n w → (li < length (w_batches w))%nat → returns (flush li w) (λ r, after n w r.2).
Proof.
  intros Hw Hli. destruct (lookup_lt_is_Some_2 _ _ Hli) as [b Hb].
  destruct (flush_ok li w b (benign_socket BE) Hb) as (w' & E & Hw' & _ & Hb').
  exists (None, w'). split; [done|]. eapply after_network; [done|done|by eapply flush_others|done|].
  assert (Hfree : batch_free b) by (by eapply Forall_lookup_1 in Hb; [|apply Hw]). unfold batch_free in *. cbn. lia.
Qed.

(** The latencies are measured with pings through the first listener. *)
Lemma latencies_return answer clock n w :
  running n w → returns (LatencyRouter.updateAllNodeLatencies CbLatency answer clock w) (after n w).
Proof.
  intros Hw. apply returns_ofold; [by apply after_refl|]. intros w1 i Hi Hw1. unfold LatencyRouter.update_bucket.
  destruct (run_table _ _ (proj1 Hw1)) as (_ & Hlen & HB).
  destruct (lookup_lt_is_Some_2 (RoutingTable.buckets (w_routing w1)) i) as [b Hb].
  { apply elem_of_seq in Hi. rewrite Hlen. change (Z.to_nat KEY_BITS) with 256%nat in Hi. lia. }
  destruct (HB i b Hb) as [Hbwf _]. go_read Hb. rewrite (Bucket.iterate_live _ _ b Hbwf).
  destruct (LatencyRouter.updates_return CbLatency answer clock (after n w) (Bucket.live b) w1) as ([w2 l] & E & Hw2 & Er & Hl); [|done|].
  - intros to w2 _ Hw2. unfold LatencyRouter.ping. pose proof (after_rids n (S (w_rids w2)) w2 (proj1 Hw2)) as Hr.
    eapply returns_mono; [apply (request_returns _ _ _ _ _ _ n); [apply Hr| |apply (benign_ids BE)|done|]|].
    + cbn. pose proof (run_listeners _ _ (proj1 Hw2)) as Hz. unfold zlen in Hz. lia.
    + rewrite (run_me _ _ (proj1 Hw2)). apply fits_plain; [apply Hw2|apply (benign_ids BE)].
    + intros r [_ Hr']. eapply after_trans; [exact Hw2|]. exact (after_trans n n _ _ _ Hr Hr').
  - cbn [fst snd] in *. rewrite E. cbn [obind]. apply returns_ret. rewrite <-Er in Hb.
    destruct (RoutingTable.rewritten_bucket is_Some (w_routing w2) i b l) as (Hwf & Ha & _); [apply Hw2|done|done|].
    eapply after_trans; [exact Hw2|]. apply after_routing; [apply Hw2|done|apply Ha, Hw2].
Qed.

(** ** Activities *)
Definition room (n : Z) w : Prop := a_cl (w_app w) + n < 2 ^ 31.

(** What is asked of an activity in the state in which it starts.  The hourly
    refresh of the peers is ruled out: it does panic. *)
Definition admissible w (a : activity St) : Prop :=
  match a with
  | Receive _ li now addr d => (li < length (w_batches w))%nat ∧ is_Some addr ∧ datagram_ok now d w ∧ room 3 w
  | Flush li => (li < length (w_batches w))%nat
  | SweepRequests _ _ | SweepPackets _ | SweepStorage _ | UpdateLatencies _ _ => True
  | Monitor _ => room (zlen (RoutingTable.all_live (w_routing w))) w
  | RefreshKeys _ => ∃ vs, yields (w_storage w) vs ∧ room (Z.of_nat K * zlen vs) w
  | RefreshPeers _ _ _ _ _ => False
  | CallStore _ key _ _ => wf_bytes key ∧ room (Z.of_nat K) w
  | CallFind _ key _ => wf_bytes key ∧ room 3 w
  end.

(** Each activity of the list is admissible when its turn comes. *)
Fixpoint allowed w (acts : list (activity St)) : Prop :=
  match acts with
  | [] => True
  | a :: acts => admissible w a ∧ ∀ w', act journey_hash br w a = Ret w' → allowed w' acts
  end.

(** The activities that run callbacks. *)
Definition runs_callbacks {S : Type} (a : activity S) : Prop :=
  match a with Receive _ _ _ _ _ | SweepRequests _ _ => True | _ => False end.

Lemma cleanup_small now ps : Packet.small_packets ps → Packet.small_packets (Packet.cleanup now ps).
Proof. intros Hs k p [Hp _]%map_lookup_filter_Some. by apply (Hs k). Qed.

Lemma room_running n w : running 0 w → room n w → running (0 + n) w.
Proof. intros [] Hr. unfold room in Hr. split; try done. lia. Qed.

Lemma act_goes a w :
  running 0 w → admissible w a →
  returns (act journey_hash br w a) (after 0 w) ∨
  (0 < br)%nat ∧ runs_callbacks a ∧ act journey_hash br w a = Blocked.
Proof.
  intros Hw Ha.
  destruct a as [stale li now addr d|li|now ks|now|now|now|now|answer clock|wait rnd pr answer now|now key value ttl|now key from];
    cbn [act admissible runs_callbacks] in *; try done.
  - destruct Ha as (Hli & Haddr & Hd & Hr).
    destruct (process_one_goes stale li now addr d 0 w) as [?|[? ?]]; [by apply room_running|done..|by left|by right].
  - left. go_step flush_returns as [err w1] Hw1; [done..|]. by apply returns_ret.
  - destruct (sweep_goes now ks 0 w Hw) as [?|[? ?]]; [done|by left|by right].
  - left. apply returns_ret. apply after_packets; [done|apply Packet.cleanup_wf, Hw|apply cleanup_small, Hw].
  - left. go_step steady_sweep as st Hst; [apply Hw|]. apply returns_ret. by apply after_storage.
  - left. apply monitor_returns; [by apply room_running|done].
  - left. destruct Ha as (vs & Hy & Hr). apply (refreshKeys_returns now vs); [by apply room_running|done|done].
  - left. by apply latencies_return.
  - left. destruct Ha as [Hb Hr]. apply Store_returns; [by apply room_running|done|done].
  - left. destruct Ha as [Hb Hr]. apply Find_returns; [by apply room_running|done|done].
Qed.

(** A run ends, or blocks in a callback. *)
Lemma acts_go acts w :
  running 0 w → allowed w acts →
  (∃ w', ofold (act journey_hash br) w acts = Ret w') ∨
  (0 < br)%nat ∧ ∃ acts1 a acts2 w1, acts = acts1 ++ a :: acts2 ∧
    ofold (act journey_hash br) w acts1 = Ret w1 ∧ runs_callbacks a ∧ act journey_hash br w1 a = Blocked.
Proof.
  revert w. induction acts as [|a acts IH]; intros w Hw Ha; cbn [ofold]; [left; by exists w|].
  destruct Ha as [Ha Hacts]. destruct (act_goes a w Hw Ha) as [(w1 & E & Hw1 & _)|(Hbr & Hc & E)].
  - rewrite E. cbn [obind]. destruct (IH w1 Hw1 (Hacts w1 E)) as [Hr|(Hbr & acts1 & b & acts2 & w2 & -> & E1 & Hc & E2)]; [by left|].
    right. split; [done|]. exists (a :: acts1), b, acts2, w2. cbn [ofold]. by rewrite E.
  - right. split; [done|]. by exists [], a, acts, w.
Qed.
End progress.

(** ** Starting *)
Section start.
Context `{Env} `{GoSort} {St : Type} `{Storage St} `{Sweeper St} (good : St → Prop) `{!Steady St good}.
Context (journey_hash : bytes → Z) (BE : benign).
Context (randomID : bytes) (GOMAXPROCS : Z) (GOOS : string) (Getenv : string → string).
Context (open_storage : backend → St + Z) (Resolve : string → option UDPAddr) (Listen : nat → bool).
Abbreviation start := (New randomID GOMAXPROCS GOOS Getenv open_storage Resolve Listen).

(** A configuration that a node can start with: the identifier is one, the
    numbers are in the range of an [int32], the storage works. *)
Record startable (cfg : Config St) : Prop := {
  start_valid : valid_id (default randomID (c_LocalID cfg));
  start_procs : 0 < GOMAXPROCS < 2 ^ 31;
  start_listeners : c_Listeners cfg < 2 ^ 31;
  start_peers : zlen (c_BootstrapAddresses cfg) < 2 ^ 31;
  start_given s : c_Storage cfg = Some s → good s;
  start_opened b s : open_storage b = inl s → good s;
}.

Lemma ensured cfg cfg1 s cfg2 sto :
  startable cfg → with_defaults randomID GOMAXPROCS cfg = Some cfg1 →
  ensure_storage GOOS Getenv open_storage cfg1 = inr (s, cfg2, sto) →
  good s ∧ 0 < c_Listeners cfg2 < 2 ^ 31 ∧ 0 < c_SocketBatchSize cfg2 ∧
  c_BootstrapAddresses cfg2 = c_BootstrapAddresses cfg.
Proof.
  intros [_ Hp Hl _ Hg Ho] E1 E2.
  assert (Hc1 : c_Storage cfg1 = c_Storage cfg ∧ 0 < c_Listeners cfg1 < 2 ^ 31 ∧ 0 < c_SocketBatchSize cfg1 ∧
    c_BootstrapAddresses cfg1 = c_BootstrapAddresses cfg).
  { unfold with_defaults in E1. apply bind_Some in E1 as (id & _ & [= <-]). cbn.
    destruct (Z.ltb_spec (c_Listeners cfg) 1), (Z.ltb_spec (c_SocketBatchSize cfg) 1); split_and!; done || lia. }
  destruct Hc1 as (C1 & C2 & C3 & C4). unfold ensure_storage in E2. rewrite C1 in E2.
  destruct (c_Storage cfg) as [s0|]; [injection E2 as -> <- _; auto|].
  pose proof (InitializeStorage_keeps GOOS Getenv cfg1) as (_ & _ & K1).
  pose proof (InitializeStorage_sizes GOOS Getenv cfg1) as [K2 K3].
  destruct (InitializeStorage _ _ _) as [b c]. destruct (open_storage b) as [s1|] eqn:Eb; [|done].
  injection E2 as -> <- _. cbn in *. rewrite K1, K2, K3. eauto.
Qed.

Lemma resolve_all_length l ns : resolve_all Resolve l = inr ns → zlen ns = zlen l.
Proof.
  unfold zlen. revert ns. induction l as [|a l IH]; intros ns E; cbn in E; [by injection E as <-|].
  destruct (Resolve a); [|done]. destruct (resolve_all _ l) as [|ms]; [done|]. injection E as <-. cbn.
  specialize (IH ms eq_refl). lia.
Qed.

Lemma new_table_running br now me addr timeout s bs n :
  valid_id me → good s → Forall batch_free bs → 0 < zlen bs < 2 ^ 31 → 0 ≤ n < 2 ^ 31 →
  let nd := mkNode me (Some addr) time_zero 0 0 0 false in
  returns (RoutingTable.insert now me (Some addr) 0 false (RoutingTable.newRoutingTable nd)) (λ t,
    running good journey_hash br me n (mkWorld me timeout t ∅ s ∅ bs [] 0 (mkApp 0 [] [] [] []))).
Proof.
  intros Hme Hs Hbs Hlen Hn nd. set (w := mkWorld me timeout (RoutingTable.newRoutingTable nd) ∅ s ∅ bs [] 0 (mkApp 0 [] [] [] [])
    : world St cb app).
  assert (Hw : running good journey_hash br me n w).
  { split; try done; [by apply RoutingTable.wf_newRoutingTable|apply Forall_replicate; constructor|cbn; lia]. }
  eapply returns_mono; [apply (insert_returns good journey_hash br me now me (Some addr) 0 false n w); [done|done|by eexists]|].
  intros t [Ht _]. exact Ht.
Qed.

Lemma New_returns now cfg :
  startable cfg → returns (start now cfg) (λ st, ∀ cfg' w rn wg,
    st = Waiting cfg' w rn wg → running good journey_hash (length (c_BootstrapAddresses cfg)) (default randomID (c_LocalID cfg)) 0 w).
Proof.
  intros Hc. unfold New, newCache, newPacketManager, NewLatencyRouter. cbn [Datatypes.app Z.add]. destruct (with_defaults _ _ _) as [cfg1|] eqn:E1; [|by apply returns_ret].
  destruct (ensure_storage _ _ _ _) as [e|[[s cfg2] sto]] eqn:E2; [by apply returns_ret|].
  destruct (ensured cfg cfg1 s cfg2 sto Hc E1 E2) as (Hs & Hl & Hsl & Hb).
  rewrite (start_id _ _ _ _ _ _ _ _ _ _ E1 E2). destruct (Resolve _) as [addr|]; [|by apply returns_ret]. cbv zeta.
  pose proof (start_valid cfg Hc) as Hme. set (me := default randomID (c_LocalID cfg)) in *. change (default [] (Some me)) with me.
  pose proof (listen_result Listen cfg2 (sto ++ [GCacheSweep; GPacketSweep; GLatencyUpdates]) 1) as HL.
  destruct (listen _ _ _ _) as [[k r]|[[bs r] wg']]; [by apply returns_ret|]. destruct HL as (-> & _ & _).
  set (n := zlen (c_BootstrapAddresses cfg)). pose proof (start_peers cfg Hc) as Hn. fold n in Hn.
  assert (Hn0 : 0 ≤ n) by apply zlen_nonneg.
  go_step (new_table_running (length (c_BootstrapAddresses cfg)) now me addr (c_Timeout cfg2) s
    (replicate (Z.to_nat (c_Listeners cfg2)) (mkBatch [] (Z.to_nat (c_SocketBatchSize cfg2)))) n) as t Hw; [done|done| | |lia|].
  { apply Forall_replicate. unfold batch_free. cbn. lia. }
  { unfold zlen. rewrite length_replicate. lia. }
  destruct (resolve_all _ _) as [a|bn] eqn:Eb; [by apply returns_ret|]. apply resolve_all_length in Eb. rewrite Hb in Eb.
  unfold findNodes. cbv zeta. set (w0 := mkWorld _ _ _ _ _ _ _ _ _ _) in *.
  destruct (after_new_journey good journey_hash (length (c_BootstrapAddresses cfg)) me n me w0 Hw) as [[Hw1 _] Hp].
  eapply (returns_bind _ _ (running good journey_hash (length (c_BootstrapAddresses cfg)) me 0)).
  - go_step (nodes_loop_returns good journey_hash (length (c_BootstrapAddresses cfg)) me BE now 0 me 0 bn) as [b w2] [Hw2 _];
      [|done|by apply Hp|done| |by apply returns_ret].
    { eapply running_less; [|exact Hw1]. unfold n. lia. }
    { unfold zlen in Eb. destruct bn; [by right|left]. cbn in Eb. lia. }
  - intros w2 Hw2. apply returns_ret. intros ???? [= _ <- _ _]. done.
Qed.

Lemma new_bootstrap now cfg cfg' w rn wg :
  start now cfg = Ret (Waiting cfg' w rn wg) → c_BootstrapAddresses cfg' = c_BootstrapAddresses cfg.
Proof.
  unfold New, newCache, newPacketManager, NewLatencyRouter. intros E. cbn [Datatypes.app Z.add] in E.
  destruct (with_defaults _ _ _) as [cfg1|] eqn:E1; [|done]. apply with_defaults_sets in E1 as (_ & D & _).
  destruct (ensure_storage _ _ _ _) as [e|[[s cfg2] sto]] eqn:E2; [done|]. apply ensure_storage_sets in E2 as (_ & _ & S & _).
  destruct (Resolve _) as [addr|]; [|done]. cbv zeta in E. destruct (listen _ _ _ _) as [[k r]|[[bs r] wg']]; [done|].
  apply obind_Ret in E as (t & _ & E). destruct (resolve_all _ _) as [a|bn]; [done|].
  apply obind_Ret in E as (w1 & _ & [= <- _ _ _]). congruence.
Qed.

(** C2: a node does not crash.  [New] fails or gets to the wait for the results of
    the bootstrap, whatever the resolver and the sockets say; without bootstrap
    addresses there is nothing to wait for and it returns.  From then on, whatever
    well-formed datagrams arrive at whichever listener, as long as what they
    complete are events of polite peers, and in whatever order with them the batches
    are flushed, the requests, packets and storage swept, the latencies measured,
    the nodes monitored, the keys refreshed and values stored and searched by the
    user, with good or bad arguments: none of these activities panics, and in a node
    without bootstrap addresses every one of them returns.  In a node with bootstrap
    addresses the only thing that can stop the run is that a callback blocks, when a
    response is processed or the requests are swept: the callbacks of the bootstrap
    send on a channel that may be full.  Supposed are a socket that takes what it is
    given ([socket_ok]), buffers of the pool's size, identifiers of 32 bytes and an
    encoding without excessive overhead ([benign]), a storage that does not fail
    ([Steady]), fewer than 2^31 requests and callbacks of the user that return; the
    hourly refresh of the peers is not among the activities allowed, since it does
    panic. *)
Theorem node_progress now cfg :
  startable cfg →
  let br := length (c_BootstrapAddresses cfg) in
  ∃ st, start now cfg = Ret st ∧
    ∀ cfg' w rn wg, st = Waiting cfg' w rn wg →
      (br = 0%nat → bootstrapped cfg' (Bootstrap.results w) rn wg = Some (inr (rn ++ [GRefreshPeers; GRefreshKeys], wg + 2))) ∧
      ∀ acts, allowed journey_hash br w acts →
        (∃ w', ofold (act journey_hash br) w acts = Ret w') ∨
        (0 < br)%nat ∧ ∃ acts1 a acts2 w1, acts = acts1 ++ a :: acts2 ∧
          ofold (act journey_hash br) w acts1 = Ret w1 ∧ runs_callbacks a ∧ act journey_hash br w1 a = Blocked.
Proof.
  intros Hc br. destruct (New_returns now cfg Hc) as (st & E & Hst). exists st. split; [done|].
  intros cfg' w rn wg Ew. specialize (Hst _ _ _ _ Ew). subst st. split.
  - intros Hbr. apply new_bootstrap in E. unfold bootstrapped. rewrite E. fold br. rewrite Hbr. done.
  - intros acts Ha. by apply (acts_go good journey_hash br _ BE acts w Hst).
Qed.
End start.

(** ** A concrete run

    A node starts; a new node pings it; the answer is flushed; the user stores a
    value and searches with a key that is too short; the nodes are monitored, and
    a value is searched. *)
Lemma sum_nonneg {A} (f : A → Z) l : (∀ x, 0 ≤ f x) → 0 ≤ sum f l.
Proof. intros Hf. induction l as [|x l IH]; [done|]. rewrite sum_cons. specialize (Hf x). lia. Qed.

Lemma value_bytes_nonneg v : 0 ≤ value_bytes v.
Proof. unfold value_bytes, zlen. lia. Qed.
Lemma node_bytes_nonneg x : 0 ≤ node_bytes x.
Proof. unfold node_bytes, zlen. lia. Qed.

Lemma polite_benign : @benign _ polite_Env.
Proof.
  assert (Hlen : ∀ e, length (e_id e) = 32%nat → length (e_sender e) = 32%nat → zlen (demo_encode e) = 65).
  { intros e H1 H2. unfold demo_encode, zlen. cbn [length]. rewrite length_app, H1, H2. reflexivity. }
  split; [intros q s; reflexivity|apply (demo_pool_ok false)|intros n; reflexivity|]. split.
  all: intros id sender t r **; cbn [encode polite_Env]; rewrite Hlen by done; try lia.
  all: unfold zlen; pose proof (λ l, sum_nonneg value_bytes l value_bytes_nonneg) as Hv;
    pose proof (λ l, sum_nonneg node_bytes l node_bytes_nonneg) as Hn.
  - specialize (Hv (s_values p)). lia.
  - specialize (Hn (fn_nodes p)). lia.
  - specialize (Hv (fv_values p)). specialize (Hn (fv_nodes p)). lia.
Qed.

Abbreviation demo_act := (@act _ polite_Env insertion_GoSort _ demo_Storage demo_Sweeper be 0).
Abbreviation demo_allowed := (@allowed _ polite_Env insertion_GoSort _ demo_Storage demo_Sweeper be 0).

Definition next_state (w : demo_W) (a : activity (gmap Z Memory.item)) : demo_W :=
  match demo_act w a with Ret w' => w' | _ => w end.

Lemma allowed_cons w a acts :
  @admissible _ polite_Env _ demo_Storage w a → demo_act w a = Ret (next_state w a) →
  demo_allowed (next_state w a) acts → demo_allowed w (a :: acts).
Proof. intros Ha E Hacts. split; [done|]. intros w' E'. rewrite E in E'. by injection E' as <-. Qed.

Definition started : demo_W :=
  match polite_New with
  | Ret (Waiting _ w _ _) => w
  | _ => node_new
  end.

Definition busy_acts : list (activity (gmap Z Memory.item)) :=
  [Receive None 0 101 addr1 ping_datagram; Flush 0; CallStore 102 (id_of 5) [1; 2] 60; CallFind 103 [5] time_zero;
   Monitor 104; SweepStorage 104; UpdateLatencies (λ _, None) (λ _, 104); SweepRequests 2000 (be <$> [id_of 0; id_of 1; id_of 2]);
   CallFind 2001 (id_of 6) time_zero].

Lemma busy_allowed : demo_allowed started busy_acts.
Proof.
  apply allowed_cons; [|vm_compute; reflexivity|].
  { split; [apply Nat.ltb_lt; vm_compute; reflexivity|]. split; [eexists; reflexivity|].
    split; [|apply Z.ltb_lt; vm_compute; reflexivity].
    split; [vm_compute; reflexivity|]. split; [decided|]. split; [apply Z.leb_le; vm_compute; reflexivity|].
    intros p ps data E Ed. vm_compute in E. injection E as <- _. vm_compute in Ed. injection Ed as <-.
    eexists. split; [vm_compute; reflexivity|]. split; [reflexivity|decided|discriminate|discriminate]. }
  apply allowed_cons; [apply Nat.ltb_lt; vm_compute; reflexivity|vm_compute; reflexivity|].
  apply allowed_cons; [split; [decided|apply Z.ltb_lt; vm_compute; reflexivity]|vm_compute; reflexivity|].
  apply allowed_cons; [split; [decided|apply Z.ltb_lt; vm_compute; reflexivity]|vm_compute; reflexivity|].
  apply allowed_cons; [apply Z.ltb_lt; vm_compute; reflexivity|vm_compute; reflexivity|].
  do 3 (apply allowed_cons; [exact I|vm_compute; reflexivity|]).
  apply allowed_cons; [split; [decided|apply Z.ltb_lt; vm_compute; reflexivity]|vm_compute; reflexivity|].
  exact I.
Qed.

Lemma node_progress_witness : ∃ w', ofold demo_act started busy_acts = Ret w'.
Proof.
  destruct (@node_progress _ polite_Env insertion_GoSort _ demo_Storage demo_Sweeper memory_good
    (Memory_Steady Memory.demo_hash (λ s, (map_to_list s).*1)) be polite_benign (id_of 9) 4 "linux" (λ _, "")
    (λ _, inl Memory.newInMemoryStorage) demo_resolve (λ _, true) 100 (demo_config [])) as (st & E & Hst).
  - split; [decided|split; apply Z.ltb_lt; reflexivity|apply Z.ltb_lt; reflexivity..|discriminate|intros b s [= <-]; apply map_Forall_empty].
  - assert (Es : ∃ cfg rn wg, st = Waiting cfg started rn wg).
    { vm_compute in E. injection E as <-. do 3 eexists. vm_compute. reflexivity. }
    destruct Es as (cfg & rn & wg & Est). destruct (Hst cfg started rn wg Est) as [_ Hacts].
    destruct (Hacts busy_acts busy_allowed) as [Hr|[Hbr _]]; [exact Hr|]. exfalso. cbn in Hbr. lia.
Defined.
End Progress.
